(* ===== verification/_CoqProject ===== *)
-Q . S2P
Prelude.v
GoChan.v
Varint.v
Codec.v
Gogoproto.v
Proto.v
StdJson.v
Handshake.v
Server.v
MsgWait.v
Extension.v
ExtContext.v
Handler.v
Peripheral.v
Streaming.v
StreamLock.v
NextSeq.v
RuntimePb.v
Runtime.v
Controller.v
History.v
Client.v
Listener.v
PacketStream.v
ConnMgr.v
Hub.v
EndToEnd.v
Calls.v
RuntimeHost.v
RuntimeInput.v
RuntimeCalls.v
PeripheralHost.v
