(* ===== verification/Prelude.v ===== *)
(** * libext-go: extensions of arhat, verified

    The Go library under src/ lets a host program (the hub) be extended by other processes.  An
    extension connects to the hub, registers with a kind and a name, and then executes the
    commands the hub sends it.

    ** The program

    - Both sides speak in messages framed by a codec: JSON for the registration, JSON or protobuf
      with a varint size prefix for the session (codec/, protoutil/).
    - The hub (server/) listens on stream and packet endpoints, validates each connection's
      registration, finds the extension manager for its kind and name, and runs a session on it:
      goroutines that write commands and keepalive pings, time out unanswered commands and deliver
      responses to the callers that wait for them.
    - The extension (client.go, controller.go, channel_bundle.go) connects, answers pings, and
      passes commands to a handler, one connection after another.
    - Two handlers come with the library: peripherals (extperipheral/) and container runtimes
      (extruntime/), on top of helpers for replies and input streams (extutil/).

    ** The development, file by file

    - [Prelude]: Go's errors, results, machine integers and strings; transition systems ([run],
      [reachable], [inductive_invariant]); tactics and lemmas shared by all files.
    - [GoChan]: channels (make, send, receive, close), with blocking and panics as results.
    - [Varint]: encoding/binary's PutUvarint and ReadUvarint of Go 1.15, on a byte reader.
    - [Codec]: codec/reg.go and bytes_buf.go, the registry and the pool of buffers, and the class
      [FrameCodec] for the Encoder/Decoder contract.
    - [Gogoproto]: codec/gogoprotobuf.  Encode and Decode on the bytes of a connection.
    - [Proto]: the message types and package protoutil.
    - [StdJson]: codec/stdjson.  encoding/json's Encoder and Decoder on the reads of a connection.
    - [Handshake]: NewClient's register message and validateConnection (server/conn_base.go).
    - [Server]: server/server.go.  NewServer, Handle, handleNewConn.
    - [MsgWait]: server/extension_util.go.  The spin-locked response slot, statement by statement.
    - [Extension]: server/extension.go.  HandleStream and sendCmd with all their goroutines, and
      the registration of names.
    - [ExtContext]: ExtensionContext of server/extension.go, in the tree of contexts it belongs to.
    - [Handler]: types/handler.go and extutil/handler.go.  The class [Handler] is the contract
      between the controller and what handles commands.
    - [Peripheral]: extperipheral/.
    - [Streaming]: extutil/streaming.go, over a sequence queue with laws ([SeqQueueLaws]).
    - [StreamLock]: the same under concurrent calls, with the spin lock doExclusive.
    - [NextSeq]: nextSeq of extruntime/handler_stream.go, one atomic instruction at a time.
    - [RuntimePb]: the commands extruntime answers at once, its table of commands, and
      collectStreamErrors.
    - [Runtime]: extruntime's HandleCmd and its stream operations (exec, attach, logs,
      port-forward) with the goroutines that upload their output.
    - [Controller]: controller.go and channel_bundle.go.
    - [History]: the controller's calls of its handler, as one sequence.
    - [Client]: ProcessNewStream and checkNetworkReadErr of client.go.
    - [Listener]: the listener of a connection manager, and Server.ListenAndServe and Close over all
      of them.
    - [PacketStream]: packetStream of server/conn_packet.go, the stream a session has over packets.
    - [ConnMgr]: server/conn_stream.go and conn_packet.go, the accept loops and the packet loop.
    - [Hub]: the hub as one system: connections of stream and packet endpoints, [Handshake], the routing of [Server] while
      Handle is called, the registration of names and the sessions of [Extension].
    - [EndToEnd]: [Extension], the bytes of a connection through a [FrameCodec], [Client] and
      [Controller] as one system.
    - [Calls]: a call of sendCmd on its way through that system, until it returns.
    - [RuntimeHost]: the system of [EndToEnd] with the operations of [Runtime] behind the controller.
    - [RuntimeInput]: the input of these operations, on its way from the hub through that system.
    - [RuntimeCalls]: calls for the commands that these operations answer with one message.
    - [PeripheralHost]: the system of [EndToEnd] with the handler of [Peripheral] behind the
      controller.

    ** How code becomes definitions

    Sequential code is a function of the same name, with state passed explicitly and errors as
    values of [result] or [option error]; what can panic returns an [outcome].  Concurrent code is
    an executable step function on a record of its shared state and of where each goroutine is:
    one step is one atomic action of one goroutine (a channel operation, a map operation, a
    compare-and-swap, a call of outside code), and its label says which goroutine moves, which
    ready case a select takes, and what outside code returned.  Theorems about it quantify over
    all reachable states, that is over all interleavings.  Records keep a few history fields
    (what was accepted, received, dispatched, written, dropped) that no step reads.

    A call that waits for the peer is a state of its goroutine: a Decode, whose result is the label
    of a later step, and an Encode, which the writers of a session ([WHold] in [Extension]) and of a
    client ([WEncode] in [Client]) enter with what they took from their channel and leave when the
    label says that it returned, or never.  Statements about shutting down count neither among the
    steps a goroutine takes by itself.  A connection is said to be at rest ([idle] in [EndToEnd])
    when no goroutine that carries commands or messages can move, where an Encode can return: these
    are statements about connections that take bytes.  A call's timeout, the end of a context, a
    failing network and a new call are not among these moves.

    Code outside the repository is a parameter with named laws where a theorem needs them: the
    protobuf and JSON text formats ([ProtoAPI], [JsonScanner], [JsonValue], [RegisterLaws], where a
    string goes through JSON as encoding/json documents it, with U+FFFD for bytes that are not
    UTF-8), the timeout queue
    ([TimeoutQueue]), the sequence queue ([SeqQueue]), the runtime engine and aranya-proto
    ([RuntimeEngine], [AranyaPb]), the peripheral connector, the pipe of a packet connection
    ([Pipe]).  Each theorem under such hypotheses comes with a run on a concrete instance.  Network
    and pipe operations give their results in the labels.

    ** What the theorems show

    - End to end: across hub, network, client and controller, commands are handled in the order in
      which the session wrote them and replies received in the order in which they were made; what
      sendCmd returns was made on the other side of its connection under the id and number of its
      command; a connection that is up and has come to rest has nothing left to deliver, each message
      has been looked up, and a call that was answered, did not time out and shares its id and number
      with no other has returned the answer; and with no bytes under way at most four commands and
      two messages are between the two sides.  With the peripheral handler
      behind it, across reconnects: the handler's state is that of one sequence of commands the hub
      sent, peripherals are never leaked or misused, and a call with an id and number of its own gets
      the result of its own operation.  With the runtime handler behind it: every operation was asked for
      by a command of the hub, a call gets the reply that its operation made, what a stream printed
      (except what Read returned together with an error, which the code drops) arrives at the hub,
      and the input that the hub sends over one connection once the stream is there arrives at the
      command, both complete and in order.
    - Wire format: messages encoded on one side are the messages decoded on the other, in order,
      whatever buffers the pool returns and, over JSON, however the stream is split into reads;
      cut-off frames give errors; on any input the codec stays within its types and panics only on
      a size it cannot allocate; registration survives any fragmentation and announces the client's
      kind, name (as JSON transports it) and codec.
    - Routing: the newest handler that covers an extension gets it, with the parameters of its
      endpoint, also while handlers are being added; packet endpoints deliver every packet of a
      connected address to its connection and to no other; every accepted connection is validated,
      handled and closed once; closing a server that has started to listen ends it, with the first
      error, and a closed packet endpoint takes nothing more.
    - Sessions: a response is returned only to the command with its id and sequence number;
      commands go out in the order they were accepted; nothing panics; the receive loop is not held
      up as long as messages have ids and numbers of their own, although it delivers under a slot's
      lock; shutting down leaves no goroutine blocked but in a Decode or an Encode; names are
      registered exactly while they are served, one session per name and manager.
    - The response slot and the sequence counter are linearizable, the stream manager under its
      lock refines its sequential operations; their calls make progress.
    - Extension side: commands are handled and answered in order, pings are answered and never
      passed on, superseded bundles are closed (their message channel, not their command channel),
      shutting down terminates up to a Decode or an Encode.
    - Handlers: no peripheral connection is leaked or used after its close; stream input arrives
      in sequence order; stream output is complete, numbered without gaps and closed by its final
      message; the write closer of every input stream has been closed when its id is gone.
    - Findings: schedules on which the code does what it should not (the theorems whose comments
      say so).

    ** Bounds

    Loops over data recurse on the data.  ReadUvarint reads at most 10 bytes, the longest
    encoding of 64 bits, and fails on an eleventh continuation as the library does.  Counters and
    sizes are kept at 64 bits with their wrap-around written out; [nextSeq_linearizable] is stated
    for fewer than 2^64 calls.  The step functions need no fuel.

    ** Not modelled

    Dialling, TLS and what the operating system does for a listener; logging; the text of JSON and
    the protobuf encoding of single messages; a second call of Controller.Start; data races inside
    the sequence queue, whose calls are atomic here; examples, fuzz.go and the package
    documentation.  [EndToEnd] runs over a codec whose Decode takes exactly the frame it returns,
    which the protobuf codec is shown to be; the JSON codec leaves the newline after a value to the
    next Decode and is treated on its own in [StdJson].  A JSON value is complete before its
    newline, so there an Encode that fails may have delivered its message, which [EndToEnd]'s links
    rule out.  [EndToEnd] also starts a session on a connection on which nothing was sent after the
    registration, because what was may be lost ([handshake_drops_pipelined]).  In
    [Hub] a connection of a packet endpoint begins with the packet that registers it; what its
    session reads and the table of addresses are in [ConnMgr].  The input pipe of a command has room: its Write returns, whereas
    a full pipe would keep the controller's loop in HandleCmd until the command reads; so has the pipe of
    a packet connection, which would otherwise keep the packet loop.  In
    [PeripheralHost] the connector's calls return.  [Calls] and [RuntimeCalls] are about
    connections at rest; how soon they come to rest, and the clock of the timeout queue, are outside
    the model. *)
From stdpp Require Export base tactics list gmap strings numbers.
From Stdlib Require Export ZArith Lia Ascii.

Open Scope Z_scope.

(** ** Go values *)

Abbreviation bytes := (list Z).

(** A byte is an integer of [0, 256). *)
Definition is_byte (b : Z) : Prop := 0 ≤ b < 256.

#[export] Instance is_byte_dec b : Decision (is_byte b).
Proof. unfold is_byte. apply _. Defined.

(** Machine integers of a 64-bit platform, kept as [Z] with their conversions written out. *)
Definition uint64 (x : Z) : Z := x mod 2 ^ 64.
Definition is_uint64 (x : Z) : Prop := 0 ≤ x < 2 ^ 64.
Definition int_of_uint64 (x : Z) : Z := if x <? 2 ^ 63 then x else x - 2 ^ 64.

#[export] Instance is_uint64_dec x : Decision (is_uint64 x).
Proof. unfold is_uint64. apply _. Defined.

Lemma uint64_small x : is_uint64 x → uint64 x = x.
Proof. apply Z.mod_small. Qed.

(** ** Go errors *)

(** The dynamic values an [error] takes in this code base.  The code compares errors with [==]
    only against the sentinels [io.EOF] and [iohelper.ErrDeadlineExceeded], and otherwise reads
    their text. *)
Inductive error : Type :=
| EOF                                        (* io.EOF *)
| ErrUnexpectedEOF                           (* io.ErrUnexpectedEOF *)
| Canceled                                   (* context.Canceled *)
| ErrDeadlineExceeded (text : string)        (* iohelper.ErrDeadlineExceeded *)
| errorString (text : string)                (* errors.New(text), fmt.Errorf(text) *)
| wrapError (prefix : string) (err : error)  (* fmt.Errorf("prefix: %w", err) *)
| OpError (header : string) (err : error).   (* *net.OpError with its Err field *)

#[export] Instance error_eq_dec : EqDecision error.
Proof. solve_decision. Defined.

(** [err.Error()] *)
Fixpoint Error (e : error) : string :=
  match e with
  | EOF => "EOF"
  | ErrUnexpectedEOF => "unexpected EOF"
  | Canceled => "context canceled"
  | ErrDeadlineExceeded t => t
  | errorString t => t
  | wrapError p e => p +:+ ": " +:+ Error e
  | OpError h e => h +:+ ": " +:+ Error e
  end.

(** A Go function of type [(T, error)] that does not panic. *)
Inductive result (A : Type) : Type :=
| Ok (a : A)
| Err (e : error).
Arguments Ok {A} a.
Arguments Err {A} e.

#[export] Instance result_eq_dec `{!EqDecision A} : EqDecision (result A).
Proof. solve_decision. Defined.

#[export] Instance result_ret : MRet result := λ A a, Ok a.
#[export] Instance result_bind : MBind result := λ A B f r,
  match r with Ok a => f a | Err e => Err e end.

(** What running a Go statement can lead to: a value, a run-time panic, or (for a loop run with
    a bound on its iterations) no result within the bound. *)
Inductive outcome (A : Type) : Type :=
| Return (a : A)
| Panic (msg : string)
| OutOfFuel.
Arguments Return {A} a.
Arguments Panic {A} msg.
Arguments OutOfFuel {A}.

#[export] Instance outcome_ret : MRet outcome := λ A a, Return a.
#[export] Instance outcome_bind : MBind outcome := λ A B f o,
  match o with Return a => f a | Panic m => Panic m | OutOfFuel => OutOfFuel end.

(** ** Byte slices *)

Definition len {A} (l : list A) : Z := Z.of_nat (length l).
Definition takeZ {A} (n : Z) (l : list A) : list A := take (Z.to_nat n) l.
Definition dropZ {A} (n : Z) (l : list A) : list A := drop (Z.to_nat n) l.

(** ** Strings *)

(** [strings.Contains] *)
Fixpoint str_contains (sub s : string) : bool :=
  String.prefix sub s ||
  match s with
  | EmptyString => false
  | String _ s' => str_contains sub s'
  end.

(** [strings.ToLower] on ASCII text. *)
Definition ascii_lower (a : ascii) : ascii :=
  let n := nat_of_ascii a in
  if bool_decide (65 ≤ n ∧ n ≤ 90)%nat then ascii_of_nat (n + 32) else a.

Fixpoint ToLower (s : string) : string :=
  match s with
  | EmptyString => EmptyString
  | String a s' => String (ascii_lower a) (ToLower s')
  end.

(** [%q] of [fmt] on text that needs no escaping. *)
Definition Quote (s : string) : string :=
  String (ascii_of_nat 34) (s +:+ String (ascii_of_nat 34) EmptyString).

(** ** Tactics *)

(** Split every [match] of a hypothesis that equates an executable step with its result. *)
Ltac split_step H :=
  repeat (let E := fresh "E" in
          match type of H with
          | context [match ?x with _ => _ end] =>
              first [is_var x; destruct x | destruct x eqn:E]; simplify_eq/=
          end);
  simplify_eq/=.

Create HintDb golib discriminated.
Create Rewrite HintDb golib.

(** ** Shared lemmas *)

Section lists.
Context {A : Type}.
Implicit Types l : list A.

Lemma len_app l1 l2 : len (l1 ++ l2) = len l1 + len l2.
Proof. unfold len. rewrite length_app. lia. Qed.

Lemma len_nonneg l : 0 ≤ len l.
Proof. unfold len. lia. Qed.

Lemma len_takeZ n l : 0 ≤ n ≤ len l → len (takeZ n l) = n.
Proof. unfold len, takeZ. intros. rewrite length_take. lia. Qed.

Lemma takeZ_app_len l1 l2 : takeZ (len l1) (l1 ++ l2) = l1.
Proof. unfold takeZ, len. rewrite Nat2Z.id. apply take_app_length. Qed.

Lemma takeZ_full l : takeZ (len l) l = l.
Proof. unfold takeZ, len. rewrite Nat2Z.id. apply firstn_all. Qed.

Lemma dropZ_app_len l1 l2 : dropZ (len l1) (l1 ++ l2) = l2.
Proof. unfold dropZ, len. rewrite Nat2Z.id. apply drop_app_length. Qed.

Lemma filter_all (P : A → Prop) `{!∀ x, Decision (P x)} l : Forall P l → filter P l = l.
Proof. induction 1 as [|x l Hx _ IH]; [done|]. rewrite filter_cons, decide_True, IH by done. done. Qed.

Lemma len_replicate n (x : A) : 0 ≤ n → len (replicate (Z.to_nat n) x) = n.
Proof. unfold len. intros. rewrite length_replicate. lia. Qed.
End lists.

#[export] Hint Rewrite @len_app @takeZ_app_len @dropZ_app_len : golib.
#[export] Hint Resolve len_nonneg : golib.

Lemma len_nil {A} : len (@nil A) = 0.
Proof. done. Qed.

Lemma len_cons {A} (x : A) l : len (x :: l) = 1 + len l.
Proof. unfold len. simpl. lia. Qed.

#[export] Hint Rewrite @len_nil @len_cons : golib.

(** ** Executable transition systems *)

(** The concurrent components are given by an executable step function: [step s e] runs the
    atomic action [e] in the state [s], and is [None] when [e] is not enabled there.  The label
    [e] resolves every choice the scheduler, a [select] or the environment makes. *)
Section transition_systems.
Context {S E : Type} (step : S → E → option S).

Fixpoint run (s : S) (es : list E) : option S :=
  match es with
  | [] => Some s
  | e :: es => match step s e with Some s' => run s' es | None => None end
  end.

Inductive reachable (init : S → Prop) : S → Prop :=
| reach_init s : init s → reachable init s
| reach_step s e s' : reachable init s → step s e = Some s' → reachable init s'.

(** [I] holds initially and every step keeps it. *)
Definition inductive_invariant (init I : S → Prop) : Prop :=
  (∀ s, init s → I s) ∧ (∀ s e s', I s → step s e = Some s' → I s').

Lemma invariant_reachable init I s :
  inductive_invariant init I → reachable init s → I s.
Proof. intros [Hi Hs]. induction 1; eauto. Qed.

Lemma reachable_run init s es s' :
  reachable init s → run s es = Some s' → reachable init s'.
Proof.
  revert s. induction es as [|e es IH]; intros s Hr Hrun; simplify_eq/=; [done|].
  destruct (step s e) eqn:E1; simplify_eq. eauto using reach_step.
Qed.

Lemma run_reachable s es s' : run s es = Some s' → reachable (eq s) s'.
Proof. intros Hrun. by eapply reachable_run; [constructor|]. Qed.

Lemma run_app s es1 es2 :
  run s (es1 ++ es2) = s' ← run s es1; run s' es2.
Proof.
  revert s. induction es1 as [|e es IH]; intros s; [done|]. simpl.
  destruct (step s e); [apply IH|done].
Qed.
End transition_systems.
