(* ===== verification/GoChan.v ===== *)
(** * Go channels

    Buffered and unbuffered channels as the run time implements them.  The buffer is a queue of
    at most [ccap] values; sending on a closed channel and closing a closed channel panic; a
    receive on a closed channel drains the buffer first. *)
From S2P Require Import Prelude.

Set Default Proof Using "Type".

Record chan (A : Type) : Type := Chan {
  cbuf : list A;
  ccap : nat;
  cclosed : bool;
}.
Arguments Chan {A} cbuf ccap cclosed.
Arguments cbuf {A} c.
Arguments ccap {A} c.
Arguments cclosed {A} c.

Definition make_chan {A} (cap : nat) : chan A := Chan [] cap false.

(** The readiness of a send: it proceeds, blocks, or panics. *)
Inductive send_status (A : Type) : Type :=
| Sent (c : chan A)
| SendBlocks
| SendPanics.
Arguments Sent {A} c.
Arguments SendBlocks {A}.
Arguments SendPanics {A}.

Definition chan_send {A} (v : A) (c : chan A) : send_status A :=
  if cclosed c then SendPanics
  else if bool_decide (length (cbuf c) < ccap c)%nat
       then Sent (Chan (cbuf c ++ [v]) (ccap c) false)
       else SendBlocks.

(** The readiness of a receive: a value, [more = false] on a closed drained channel, or blocked. *)
Inductive recv_status (A : Type) : Type :=
| Received (v : A) (c : chan A)
| RecvClosed
| RecvBlocks.
Arguments Received {A} v c.
Arguments RecvClosed {A}.
Arguments RecvBlocks {A}.

Definition chan_recv {A} (c : chan A) : recv_status A :=
  match cbuf c with
  | v :: rest => Received v (Chan rest (ccap c) (cclosed c))
  | [] => if cclosed c then RecvClosed else RecvBlocks
  end.

(** [close(c)]; [None] is the run-time panic on a channel that is closed already. *)
Definition chan_close {A} (c : chan A) : option (chan A) :=
  if cclosed c then None else Some (Chan (cbuf c) (ccap c) true).

Section chan_lemmas.
Context {A : Type}.
Implicit Types (c : chan A) (v : A).

Lemma chan_send_Sent v c c' :
  chan_send v c = Sent c' →
  cclosed c = false ∧ cclosed c' = false ∧ ccap c' = ccap c ∧
  cbuf c' = cbuf c ++ [v] ∧ (length (cbuf c) < ccap c)%nat.
Proof.
  unfold chan_send. intros. repeat case_match; simplify_eq/=.
  by case_bool_decide.
Qed.

Lemma chan_send_open v c : cclosed c = false → chan_send v c ≠ SendPanics.
Proof. unfold chan_send. intros ->. by case_bool_decide. Qed.

Lemma chan_recv_Received v c c' :
  chan_recv c = Received v c' →
  cbuf c = v :: cbuf c' ∧ ccap c' = ccap c ∧ cclosed c' = cclosed c.
Proof. unfold chan_recv. intros. repeat case_match; by simplify_eq/=. Qed.

Lemma chan_recv_RecvClosed c :
  chan_recv c = RecvClosed → cbuf c = [] ∧ cclosed c = true.
Proof. unfold chan_recv. intros. repeat case_match; by simplify_eq/=. Qed.

Lemma chan_close_Some c c' :
  chan_close c = Some c' →
  cclosed c = false ∧ cclosed c' = true ∧ cbuf c' = cbuf c ∧ ccap c' = ccap c.
Proof. unfold chan_close. intros. repeat case_match; by simplify_eq/=. Qed.

(** A channel is never fuller than its capacity. *)
Definition chan_ok c : Prop := (length (cbuf c) ≤ ccap c)%nat.

Lemma chan_send_ok v c c' : chan_send v c = Sent c' → chan_ok c'.
Proof.
  intros (_ & _ & Hcap & Hbuf & Hlt)%chan_send_Sent. unfold chan_ok. rewrite Hcap, Hbuf, length_app. simpl. lia.
Qed.

Lemma chan_recv_ok v c c' : chan_recv c = Received v c' → chan_ok c → chan_ok c'.
Proof. intros (Hbuf & Hcap & _)%chan_recv_Received. unfold chan_ok. rewrite Hbuf, Hcap. simpl. lia. Qed.

Lemma chan_close_ok c c' : chan_close c = Some c' → chan_ok c → chan_ok c'.
Proof. intros (_ & _ & Hbuf & Hcap)%chan_close_Some. unfold chan_ok. by rewrite Hbuf, Hcap. Qed.
End chan_lemmas.

#[export] Hint Resolve chan_send_ok chan_recv_ok chan_close_ok : golib.

(** Replace every result of a channel operation in the context by what it says. *)
Ltac chan_facts :=
  repeat match goal with
  | H : chan_send _ _ = Sent _ |- _ => apply chan_send_Sent in H as (? & ? & ? & ? & ?)
  | H : chan_recv _ = Received _ _ |- _ => apply chan_recv_Received in H as (? & ? & ?)
  | H : chan_recv _ = RecvClosed |- _ => apply chan_recv_RecvClosed in H as (? & ?)
  | H : chan_close _ = Some _ |- _ => apply chan_close_Some in H as (? & ? & ? & ?)
  end.
