(* ===== verification/Varint.v ===== *)
(** * Unsigned varints and byte readers

    The parts of the Go standard library the stream framing is built from: [encoding/binary]'s
    [PutUvarint] and [ReadUvarint] (of Go 1.15, the version go.mod names), [bufio.Reader.ReadByte]
    and [io.ReadFull].  The framing itself is in [Gogoproto]. *)
From S2P Require Import Prelude.

Set Default Proof Using "Type".

(** ** Readers *)

(** What a reader still delivers: its bytes, then an error that repeats. *)
Record reader : Type := Reader { rbytes : bytes; rerr : error }.

Definition ReadByte (r : reader) : reader * result Z :=
  match rbytes r with
  | [] => (r, Err (rerr r))
  | b :: rest => (Reader rest (rerr r), Ok b)
  end.

(** [io.ReadFull] into a slice of [n] bytes: all of them, or [EOF] when there was none, and
    [ErrUnexpectedEOF] when the stream ended in the middle. *)
Definition ReadFull (n : Z) (r : reader) : reader * result bytes :=
  if n <=? len (rbytes r) then (Reader (dropZ n (rbytes r)) (rerr r), Ok (takeZ n (rbytes r)))
  else (Reader [] (rerr r),
        Err (if bool_decide (rbytes r ≠ [] ∧ rerr r = EOF) then ErrUnexpectedEOF else rerr r)).

(** ** Varints *)

Definition MaxVarintLen64 : nat := 10.

(** [binary.PutUvarint]: the loop writes through [buf[i]], which panics out of range. *)
Fixpoint put_uvarint_loop (fuel : nat) (buf : bytes) (i : nat) (x : Z) : outcome (bytes * nat) :=
  match fuel with
  | O => OutOfFuel
  | S fuel =>
      if bool_decide (i < length buf)%nat then
        if 128 <=? x
        then put_uvarint_loop fuel (<[i := Z.lor (x mod 256) 128]> buf) (S i) (Z.shiftr x 7)
        else Return (<[i := x mod 256]> buf, S i)
      else Panic "index out of range"
  end.

Definition PutUvarint (buf : bytes) (x : Z) : outcome (bytes * nat) :=
  put_uvarint_loop MaxVarintLen64 buf 0 x.

Definition varint_overflow : error := errorString "binary: varint overflows a 64-bit integer".

(** [binary.ReadUvarint]; [n] counts the iterations that are left, so [i = 10 - n]. *)
Fixpoint read_uvarint_loop (n : nat) (x s : Z) (r : reader) : reader * result Z :=
  match n with
  | O => (r, Err varint_overflow)
  | S n' =>
      match ReadByte r with
      | (r, Err e) => (r, Err e)
      | (r, Ok b) =>
          if b <? 128 then
            if bool_decide (n = 1%nat) && (1 <? b) then (r, Err varint_overflow)
            else (r, Ok (Z.lor x (uint64 (Z.shiftl b s))))
          else read_uvarint_loop n' (Z.lor x (uint64 (Z.shiftl (Z.land b 127) s))) (s + 7) r
      end
  end.

Definition ReadUvarint (r : reader) : reader * result Z :=
  read_uvarint_loop MaxVarintLen64 0 0 r.

(** ** The encoding as a function on numbers *)

Fixpoint uvarint (fuel : nat) (x : Z) : bytes :=
  match fuel with
  | O => []
  | S fuel => if x <? 128 then [x] else (128 + x mod 128) :: uvarint fuel (x / 128)
  end.

(** The canonical varint of a 64-bit value. *)
Definition uvarint64 (x : Z) : bytes := uvarint MaxVarintLen64 x.

Section arithmetic.
Lemma land_low_shiftl a b s : 0 ≤ s → 0 ≤ a < 2 ^ s → Z.land a (Z.shiftl b s) = 0.
Proof.
  intros Hs Ha. apply Z.bits_inj'. intros n Hn.
  rewrite Z.land_spec, Z.shiftl_spec, Z.bits_0 by done.
  destruct (decide (n < s)).
  - by rewrite (Z.testbit_neg_r b), andb_false_r by lia.
  - rewrite <-(Z.mod_small a (2 ^ s)) by done.
    by rewrite Z.mod_pow2_bits_high by lia.
Qed.

Lemma lor_low_high a b s :
  0 ≤ s → 0 ≤ a < 2 ^ s → Z.lor a (Z.shiftl b s) = a + b * 2 ^ s.
Proof.
  intros Hs Ha. rewrite <-Z.add_nocarry_lor by (by apply land_low_shiftl).
  by rewrite Z.shiftl_mul_pow2.
Qed.

(** Accumulating a 7-bit group that fits: no bit is lost and nothing wraps. *)
Lemma lor_group acc g s :
  0 ≤ s → 0 ≤ acc < 2 ^ s → 0 ≤ g → g * 2 ^ s < 2 ^ 64 →
  Z.lor acc (uint64 (Z.shiftl g s)) = acc + g * 2 ^ s.
Proof.
  intros. rewrite uint64_small.
  - by apply lor_low_high.
  - rewrite Z.shiftl_mul_pow2 by done. unfold is_uint64. split; [|done].
    apply Z.mul_nonneg_nonneg; lia.
Qed.

Lemma land_127 x : Z.land x 127 = x mod 128.
Proof. apply (Z.land_ones x 7). lia. Qed.

(** [byte(x) | 0x80] keeps the low seven bits and sets the continuation bit. *)
Lemma continuation_byte x : Z.lor (x mod 256) 128 = 128 + x mod 128.
Proof.
  transitivity (Z.lor (x mod 2 ^ 7) (Z.shiftl 1 7)).
  - apply Z.bits_inj'. intros n Hn. rewrite !Z.lor_spec.
    change 256 with (2 ^ 8). change 128 with (2 ^ 7). change (Z.shiftl 1 7) with (2 ^ 7).
    rewrite !Z.testbit_mod_pow2, Z.pow2_bits_eqb by lia.
    destruct (Z.eqb_spec 7 n) as [<-|]; [by rewrite !orb_true_r|].
    destruct (Z.ltb_spec n 8), (Z.ltb_spec n 7); done || lia.
  - change (2 ^ 7) with 128. rewrite lor_low_high; [change (2 ^ 7) with 128; lia|lia|].
    change (2 ^ 7) with 128. apply Z.mod_pos_bound. lia.
Qed.
End arithmetic.

(** ** Writing *)

Lemma uvarint_length fuel x : (length (uvarint fuel x) ≤ fuel)%nat.
Proof. revert x. induction fuel as [|n IH]; intros x; simpl; [done|]. case_match; simpl; [lia|]. specialize (IH (x / 128)). lia. Qed.

Lemma uvarint_bytes fuel x : 0 ≤ x → Forall is_byte (uvarint fuel x).
Proof.
  unfold is_byte. revert x. induction fuel as [|n IH]; intros x Hx; simpl; [done|].
  destruct (Z.ltb_spec x 128).
  - constructor; [lia|done].
  - constructor; [pose proof (Z.mod_pos_bound x 128); lia|].
    apply IH. by apply Z.div_pos.
Qed.

Lemma shiftr_7 x : Z.shiftr x 7 = x / 128.
Proof. apply (Z.shiftr_div_pow2 x 7). lia. Qed.

Lemma put_uvarint_loop_spec fuel pre x post :
  (0 < fuel)%nat → 0 ≤ x < 2 ^ (7 * Z.of_nat fuel) →
  ∀ old, length old = length (uvarint fuel x) →
  put_uvarint_loop fuel (pre ++ old ++ post) (length pre) x =
    Return (pre ++ uvarint fuel x ++ post, (length pre + length (uvarint fuel x))%nat).
Proof.
  revert pre x. induction fuel as [|n IH]; intros pre x Hf Hx old Hold; [lia|].
  cbn [uvarint put_uvarint_loop] in *. rewrite bool_decide_true.
  2:{ rewrite !length_app. revert Hold. case_match; simpl; lia. }
  destruct (Z.ltb_spec x 128) as [Hlt|Hge]; destruct old as [|o old]; simplify_eq/=.
  - rewrite (proj2 (Z.leb_gt _ _)) by done.
    rewrite insert_app_r_alt, Nat.sub_diag by lia. simpl.
    rewrite Z.mod_small by lia. destruct old; [|done]. repeat f_equal. lia.
  - rewrite (proj2 (Z.leb_le _ _)) by done.
    rewrite insert_app_r_alt, Nat.sub_diag by lia. simpl.
    rewrite continuation_byte, shiftr_7, cons_middle, app_assoc.
    assert (x / 128 < 2 ^ (7 * Z.of_nat n)).
    { apply Z.div_lt_upper_bound; [lia|]. change 128 with (2 ^ 7).
      rewrite <-Z.pow_add_r by lia.
      replace (7 + 7 * Z.of_nat n) with (7 * Z.of_nat (S n)) by lia. apply Hx. }
    assert (0 < n)%nat by (destruct n; [simpl in *; pose proof (Z.div_le_mono 128 x 128); lia|lia]).
    specialize (IH (pre ++ [128 + x mod 128]) (x / 128)).
    rewrite length_app in IH. simpl in IH. rewrite Nat.add_1_r in IH.
    rewrite IH; [|done|split; [by apply Z.div_pos; lia|done]|done].
    rewrite <-!app_assoc. simpl. repeat f_equal. lia.
Qed.

(** With room for ten bytes [PutUvarint] never panics, and writes the canonical varint at the
    front of the buffer, leaving the rest of it alone. *)
Lemma PutUvarint_spec buf x :
  is_uint64 x → (MaxVarintLen64 ≤ length buf)%nat →
  PutUvarint buf x =
    Return (uvarint64 x ++ drop (length (uvarint64 x)) buf, length (uvarint64 x)).
Proof.
  intros Hx Hbuf. unfold PutUvarint, uvarint64.
  pose proof (uvarint_length MaxVarintLen64 x).
  pose proof (put_uvarint_loop_spec MaxVarintLen64 [] x
    (drop (length (uvarint64 x)) buf)) as Hput.
  rewrite <-(take_drop (length (uvarint64 x)) buf) at 1.
  apply Hput.
  - unfold MaxVarintLen64. lia.
  - unfold is_uint64, MaxVarintLen64 in *. simpl. lia.
  - rewrite length_take. unfold uvarint64. lia.
Qed.

(** ** Reading *)

Lemma read_uvarint_loop_spec n acc s y rest e :
  s = 7 * (10 - Z.of_nat n) → (1 ≤ n ≤ 10)%nat →
  0 ≤ acc < 2 ^ s → 0 ≤ y → y * 2 ^ s < 2 ^ 64 →
  read_uvarint_loop n acc s (Reader (uvarint n y ++ rest) e) =
    (Reader rest e, Ok (acc + y * 2 ^ s)).
Proof.
  revert acc s y. induction n as [|n IH]; intros acc s y Hs Hn Hacc Hy Hlt; [lia|].
  simpl. destruct (Z.ltb_spec y 128) as [Hy128|Hy128]; simpl.
  - rewrite (proj2 (Z.ltb_lt y 128)) by done.
    assert ((bool_decide (S n = 1%nat) && (1 <? y)) = false) as ->.
    { case_bool_decide; [|done]. simplify_eq. apply Z.ltb_ge.
      change (7 * (10 - Z.of_nat 1)) with 63 in Hlt. lia. }
    by rewrite lor_group by lia.
  - pose proof (Z.mod_pos_bound y 128). pose proof (Z.div_mod y 128).
    assert (0 ≤ y / 128) by (by apply Z.div_pos).
    assert (0 < 2 ^ s) by (apply Z.pow_pos_nonneg; lia).
    assert (n ≠ 0%nat).
    { intros ->. change (7 * (10 - Z.of_nat 1)) with 63 in Hs. subst s. lia. }
    rewrite (proj2 (Z.ltb_ge _ 128)) by lia.
    rewrite land_127, Z.add_mod, Z.mod_same, Z.add_0_l, !Z.mod_mod by lia.
    rewrite lor_group by nia.
    assert (2 ^ (s + 7) = 128 * 2 ^ s) as Hp by (rewrite Z.pow_add_r by lia; lia).
    rewrite IH; [|lia|lia|rewrite Hp; nia|lia|rewrite Hp; nia].
    rewrite Hp. f_equal. f_equal. nia.
Qed.

Lemma ReadUvarint_uvarint64 x rest e :
  is_uint64 x → ReadUvarint (Reader (uvarint64 x ++ rest) e) = (Reader rest e, Ok x).
Proof.
  unfold is_uint64. intros. unfold ReadUvarint, uvarint64.
  rewrite (read_uvarint_loop_spec MaxVarintLen64) by (unfold MaxVarintLen64; lia || done).
  by rewrite Z.mul_1_r.
Qed.

Lemma read_uvarint_loop_consumes n acc s r r' x :
  read_uvarint_loop n acc s r = (r', Ok x) →
  rerr r' = rerr r ∧ ∃ used, rbytes r = used ++ rbytes r' ∧ (1 ≤ length used ≤ n)%nat.
Proof.
  revert acc s r. induction n as [|n IH]; intros acc s r H; [done|].
  destruct r as [[|b bs] e]; [done|]. cbn -[Z.shiftl] in H.
  destruct (b <? 128).
  - case_match; simplify_eq/=. split; [done|]. exists [b]. simpl. split; [done|lia].
  - apply IH in H as (? & used & ? & ?). simpl in *. split; [done|].
    exists (b :: used). simpl. split; [congruence|lia].
Qed.

Lemma read_uvarint_loop_reads n acc s r r' res :
  read_uvarint_loop n acc s r = (r', res) → rerr r' = rerr r ∧ ∃ used, rbytes r = used ++ rbytes r'.
Proof.
  revert acc s r. induction n as [|n IH]; intros acc s r H; cbn -[Z.shiftl] in H.
  { simplify_eq. split; [done|by exists []]. }
  destruct r as [[|b bs] e]; cbn -[Z.shiftl] in H; [simplify_eq; split; [done|by exists []]|].
  destruct (b <? 128).
  - case_match; simplify_eq/=; (split; [done|by exists [b]]).
  - apply IH in H as (? & used & ?). simpl in *. split; [done|]. exists (b :: used). simpl. congruence.
Qed.

(** Whatever the bytes are, a size that is returned is a 64-bit value. *)
Lemma read_uvarint_loop_bound n acc s r r' x :
  0 ≤ s → is_uint64 acc → Forall is_byte (rbytes r) →
  read_uvarint_loop n acc s r = (r', Ok x) → is_uint64 x.
Proof.
  assert (∀ a b, is_uint64 a → is_uint64 (Z.lor a (uint64 b))) as Hlor.
  { unfold is_uint64, uint64. intros a b Ha. pose proof (Z.mod_pos_bound b (2 ^ 64)).
    assert (0 ≤ Z.lor a (b mod 2 ^ 64)) by (apply Z.lor_nonneg; lia).
    split; [done|]. destruct (decide (Z.lor a (b mod 2 ^ 64) = 0)) as [->|]; [lia|].
    apply Z.log2_lt_pow2; [lia|]. rewrite Z.log2_lor by lia.
    apply Z.max_lub_lt; destruct (decide (0 < a)), (decide (0 < b mod 2 ^ 64));
      try (apply Z.log2_lt_pow2; lia); rewrite ?(Z.log2_nonpos a), ?(Z.log2_nonpos (b mod _)) by lia; lia. }
  revert acc s r. induction n as [|n IH]; intros acc s r Hs Hacc Hb H; [done|].
  destruct r as [[|b bs] e]; [done|]. cbn -[Z.shiftl] in H. inv Hb.
  destruct (b <? 128).
  - case_match; simplify_eq/=. by apply Hlor.
  - eapply IH in H; [done|lia|by apply Hlor|done].
Qed.

(** A varint that is cut off is reported with the error that ends the stream. *)
Lemma read_uvarint_loop_truncated n acc s y l more e :
  uvarint n y = l ++ more → more ≠ [] →
  read_uvarint_loop n acc s (Reader l e) = (Reader [] e, Err e).
Proof.
  revert acc s y l. induction n as [|n IH]; intros acc s y l Heq Hmore; simpl in Heq.
  { by destruct l, more. }
  destruct l as [|b l]; [done|]. simpl.
  destruct (Z.ltb_spec y 128); simplify_eq/=; [by destruct l|].
  rewrite (proj2 (Z.ltb_ge _ 128)) by (pose proof (Z.mod_pos_bound y 128); lia). eauto.
Qed.

Lemma ReadUvarint_truncated x l more e :
  uvarint64 x = l ++ more → more ≠ [] → ReadUvarint (Reader l e) = (Reader [] e, Err e).
Proof. apply read_uvarint_loop_truncated. Qed.
