(* ===== verification/Codec.v ===== *)
(** * Codec registry, buffer pool and the framing contract (package codec)

    [Register]/[Get] are codec/reg.go, [GetBytesBuf]/[PutBytesBuf] are codec/bytes_buf.go, and
    [FrameCodec] is what the stream users rely on of a codec's Encoder/Decoder pair
    (codec/types.go): a message that was encoded is decoded again, and nothing else of the
    stream is consumed; a frame that was cut off is an error. *)
From S2P Require Import Prelude Varint.

Set Default Proof Using "Type".

(** ** The registry *)

Section registry.
Context {I : Type}.

Definition Register (supportedCodec : gmap Z I) (kind : Z) (codec : I) : gmap Z I :=
  <[kind := codec]> supportedCodec.

Definition Get (supportedCodec : gmap Z I) (kind : Z) : option I :=
  match supportedCodec !! kind with
  | None => None
  | Some codec => Some codec
  end.

(** The package's [init] functions run [Register] once per imported codec, in import order. *)
Definition register_all (cs : list (Z * I)) : gmap Z I :=
  foldl (λ m '(k, c), Register m k c) ∅ cs.

Lemma Get_Register m k c k' :
  Get (Register m k c) k' = if decide (k = k') then Some c else Get m k'.
Proof.
  unfold Get, Register. rewrite lookup_insert. case_decide; [done|by case_match].
Qed.

Lemma register_all_snoc cs k c k' :
  Get (register_all (cs ++ [(k, c)])) k' =
    if decide (k = k') then Some c else Get (register_all cs) k'.
Proof. unfold register_all. rewrite foldl_app. apply Get_Register. Qed.
End registry.

(** ** The pool of byte buffers *)

(** [sync.Pool.Get] may hand out any buffer that was put back, or a new one: [choice] says
    which. *)
Definition pool_New : bytes := replicate 32 0.

Definition pool_Get (choice : option nat) (pool : list bytes) : list bytes * bytes :=
  match choice with
  | Some i =>
      match pool !! i with
      | Some b => (delete i pool, b)
      | None => (pool, pool_New)
      end
  | None => (pool, pool_New)
  end.

Section bytes_buf.
(** The largest slice the run time allocates. *)
Context (maxAlloc : Z).

(** [make([]byte, n)] *)
Definition make_bytes (n : Z) : outcome bytes :=
  if (n <? 0) || (maxAlloc <? n) then Panic "makeslice: len out of range"
  else Return (replicate (Z.to_nat n) 0).

Definition GetBytesBuf (choice : option nat) (pool : list bytes) (size : Z)
  : outcome (list bytes * bytes) :=
  let '(pool, buf) := pool_Get choice pool in
  if size <=? len buf then Return (pool, buf)
  else
    let extend := size - len buf in
    if extend <? size
    then zeros ← make_bytes extend; Return (pool, buf ++ zeros)
    else zeros ← make_bytes extend; Return (pool, zeros ++ buf).

Definition PutBytesBuf (b : bytes) (pool : list bytes) : list bytes := b :: pool.

(** Whatever the pool hands out, the buffer is as long as asked for: exactly as long as
    the longer of the request and the buffer found. *)
Lemma GetBytesBuf_spec choice pool size :
  size - len (snd (pool_Get choice pool)) ≤ maxAlloc →
  ∃ pool' buf, GetBytesBuf choice pool size = Return (pool', buf) ∧
    len buf = Z.max size (len (snd (pool_Get choice pool))) ∧
    pool' = fst (pool_Get choice pool).
Proof.
  unfold GetBytesBuf. destruct (pool_Get choice pool) as [p b]. simpl. intros Ha.
  pose proof (len_nonneg b). destruct (Z.leb_spec size (len b)).
  { eexists _, _. split; [done|]. split; [lia|done]. }
  unfold make_bytes. rewrite !(proj2 (Z.ltb_ge _ _) : _ → (size - len b <? 0) = false) by lia.
  rewrite !(proj2 (Z.ltb_ge _ _) : _ → (maxAlloc <? size - len b) = false) by lia.
  case_match; (eexists _, _; split; [done|]; split; [|done]);
    rewrite len_app, len_replicate by lia; lia.
Qed.

(** The pool holds byte slices and only byte slices come out of it. *)
Definition pool_ok (pool : list bytes) : Prop := Forall (Forall is_byte) pool.

Lemma pool_Get_ok choice pool :
  pool_ok pool → pool_ok (pool_Get choice pool).1 ∧ Forall is_byte (pool_Get choice pool).2.
Proof.
  unfold pool_ok. intros Hp. assert (Forall is_byte pool_New) by (apply Forall_replicate; done).
  unfold pool_Get. destruct choice as [i|]; [|done].
  destruct (pool !! i) eqn:E; [|done]. split; [by apply Forall_delete|by eapply Forall_lookup_1].
Qed.

Lemma GetBytesBuf_ok choice pool size pool' buf :
  pool_ok pool → GetBytesBuf choice pool size = Return (pool', buf) → pool_ok pool' ∧ Forall is_byte buf.
Proof.
  intros Hp. destruct (pool_Get_ok choice pool Hp) as [Hp' Hb]. unfold GetBytesBuf, make_bytes.
  destruct (pool_Get choice pool) as [p b]. simpl in *.
  repeat case_match; intros; simplify_eq/=; try done; split; try done; apply Forall_app;
    (split; [done || by apply Forall_replicate|done || by apply Forall_replicate]).
Qed.

(** A request the allocator cannot serve panics. *)
Lemma GetBytesBuf_panics choice pool size :
  maxAlloc < size - len (snd (pool_Get choice pool)) → 0 ≤ maxAlloc →
  GetBytesBuf choice pool size = Panic "makeslice: len out of range".
Proof.
  unfold GetBytesBuf. destruct (pool_Get choice pool) as [p b]. simpl. intros Ha H0.
  rewrite (proj2 (Z.leb_gt _ _)) by lia. unfold make_bytes.
  rewrite !(proj2 (Z.ltb_lt maxAlloc _)) by lia. rewrite !orb_true_r. by case_match.
Qed.
End bytes_buf.

(** ** The framing contract *)

Section frame_codec.
Context {V S : Type}.

(** [enc v] is what Encode appends to the stream for [v]; [dec] is one call of Decode, which
    may keep a state of its own ([S], the buffer pool) and may panic.  [valid] are the messages
    the contract is about. *)
Class FrameCodec (valid : V → Prop) (enc : V → result bytes)
    (dec : S → reader → outcome (S * reader * result V)) : Prop := {
  frame_roundtrip s v bs rest e :
    valid v → enc v = Ok bs →
    ∃ s', dec s (Reader (bs ++ rest) e) = Return (s', Reader rest e, Ok v);
  frame_end s e :
    ∃ s' e', dec s (Reader [] e) = Return (s', Reader [] e, Err e') ∧ (e = EOF → e' = EOF);
  frame_truncated s v cut more e :
    valid v → enc v = Ok (cut ++ more) → more ≠ [] →
    ∃ s' e', dec s (Reader cut e) = Return (s', Reader [] e, Err e');
}.

Definition encode_all (enc : V → result bytes) (vs : list V) : result bytes :=
  foldr (λ v acc, bs ← enc v; rest ← acc; Ok (bs ++ rest)) (Ok []) vs.

(** The receive loop: decode until an error, at most [fuel] messages. *)
Fixpoint decode_all (dec : S → reader → outcome (S * reader * result V)) (fuel : nat)
    (s : S) (r : reader) : outcome (list V * error) :=
  match fuel with
  | O => OutOfFuel
  | Datatypes.S fuel =>
      '(s, r, res) ← dec s r;
      match res with
      | Err e => Return ([], e)
      | Ok v => '(vs, err) ← decode_all dec fuel s r; Return (v :: vs, err)
      end
  end.

(** Against the contract alone: the messages written are the messages received, in order,
    and the loop ends with the end of the stream. *)
Lemma decode_all_encode_all valid enc dec `{!FrameCodec valid enc dec} vs bs fuel s :
  Forall valid vs → encode_all enc vs = Ok bs → (length vs < fuel)%nat →
  decode_all dec fuel s (Reader bs EOF) = Return (vs, EOF).
Proof.
  revert bs fuel s. induction vs as [|v vs IH]; intros bs fuel s Hval Henc Hfuel;
    destruct fuel as [|fuel]; try (simpl in *; lia); simplify_eq/=.
  { destruct (frame_end s EOF) as (? & ? & -> & ->); done. }
  inv Hval. destruct (enc v) as [b|] eqn:Ev; simplify_eq/=.
  destruct (encode_all enc vs) as [rest|] eqn:Er; simplify_eq/=.
  edestruct (frame_roundtrip s v b rest EOF) as [s' ->]; [done..|]. simpl.
  rewrite (IH rest fuel s'); [done|done|done|lia].
Qed.
End frame_codec.
