(* ===== verification/Gogoproto.v ===== *)
(** * The protobuf stream codec (codec/gogoprotobuf/codec.go)

    Length-prefixed framing: the size of the body as a varint, then the body.  The protobuf
    library itself is not part of the repository: [ProtoAPI] is what the codec calls of it. *)
From S2P Require Import Prelude Varint Codec.

Set Default Proof Using "Type".

(** [io.Writer]: the new state and an error when not everything was written. *)
Class Writer (W : Type) := w_Write : W → bytes → W * option error.

(** [bytes.Buffer]: writing appends and never fails. *)
#[export] Instance bytes_Buffer : Writer bytes := λ w p, (w ++ p, None).

(** The dynamic type tests and the calls into github.com/gogo/protobuf. *)
Class ProtoAPI (V : Type) := {
  is_Marshaler : V → bool;           (* any.(proto.Marshaler) *)
  is_Message : V → bool;             (* any.(proto.Message) *)
  t_Marshal : V → result bytes;      (* t.Marshal() *)
  proto_Marshal : V → result bytes;  (* proto.Marshal(t) *)
  Unmarshal_into : bytes → V → V * option error;  (* buf.SetBuf(data); buf.Unmarshal(m) *)
  zero_of : V → V;                   (* the message new(T) of the type of the argument *)
}.

(** Documented behaviour of the library: both ways to marshal agree on messages that have
    both, and unmarshalling what was marshalled into an empty message restores it. *)
Class ProtoLaws (V : Type) `{!ProtoAPI V} : Prop := {
  zero_of_Message v : is_Message (zero_of v) = is_Message v;
  Unmarshal_t_Marshal v bs :
    is_Marshaler v = true → is_Message v = true → t_Marshal v = Ok bs →
    Unmarshal_into bs (zero_of v) = (v, None);
  Unmarshal_proto_Marshal v bs :
    is_Message v = true → proto_Marshal v = Ok bs →
    Unmarshal_into bs (zero_of v) = (v, None);
}.

Definition ErrNotProtobufMessage : error := errorString "invalid not protobuf message".

Section codec.
Context {V : Type} `{!ProtoAPI V}.
Context (maxAlloc : Z).

(** [Codec.Marshal] and [Codec.Unmarshal] *)
Definition Marshal (v : V) : result bytes :=
  if is_Message v then proto_Marshal v else Err ErrNotProtobufMessage.

Definition Unmarshal (data : bytes) (out : V) : V * option error :=
  if is_Message out then Unmarshal_into data out else (out, Some ErrNotProtobufMessage).

(** The type switch at the top of [Encoder.Encode]. *)
Definition encode_body (any : V) : result bytes :=
  match
    if is_Marshaler any then Some (t_Marshal any)
    else if is_Message any then Some (proto_Marshal any)
    else None
  with
  | None => Err ErrNotProtobufMessage
  | Some (Err e) => Err (wrapError "failed to marshal message" e)
  | Some (Ok data) => Ok data
  end.

Definition Encode {W} `{!Writer W} (choice : option nat) (pool : list bytes) (w : W) (any : V)
  : outcome (list bytes * W * option error) :=
  match encode_body any with
  | Err e => Return (pool, w, Some e)
  | Ok data =>
      '(pool, sizeBuf) ← GetBytesBuf maxAlloc choice pool 10;
      '(sizeBuf, i) ← PutUvarint sizeBuf (uint64 (len data));
      let '(w, err) := w_Write w (take i sizeBuf) in
      match err with
      | Some e =>
          Return (PutBytesBuf sizeBuf pool, w, Some (wrapError "failed to write message size" e))
      | None =>
          let pool := PutBytesBuf sizeBuf pool in
          let '(w, err) := w_Write w data in
          match err with
          | Some e => Return (pool, w, Some (wrapError "failed to write message body" e))
          | None => Return (pool, w, None)
          end
      end
  end.

(** [data[:size]].  The only slice expression of the codec whose bound can pass the length has
    [size >= 2^63], which no capacity reaches. *)
Definition slice_to (data : bytes) (size : Z) : outcome bytes :=
  if size <=? len data then Return (takeZ size data)
  else Panic "slice bounds out of range".

Definition Decode (choice : option nat) (pool : list bytes) (r : reader) (out : V)
  : outcome (list bytes * reader * V * option error) :=
  if negb (is_Message out) then Return (pool, r, out, Some ErrNotProtobufMessage)
  else
    match ReadUvarint r with
    | (r, Err e) =>
        if bool_decide (e = EOF) then Return (pool, r, out, Some e)
        else Return (pool, r, out, Some (wrapError "failed to read size of the message" e))
    | (r, Ok size) =>
        '(pool, data) ← GetBytesBuf maxAlloc choice pool (int_of_uint64 size);
        _ ← slice_to data size;
        match ReadFull size r with
        | (r, Err e) =>
            Return (PutBytesBuf data pool, r, out,
                    Some (wrapError "failed to read message body" e))
        | (r, Ok body) =>
            let data := body ++ dropZ size data in
            body ← slice_to data size;
            let '(out, err) := Unmarshal_into body out in
            Return (PutBytesBuf data pool, r, out, err)
        end
    end.

(** ** The format *)

(** One frame: what Encode writes for [v]. *)
Definition frame (v : V) : result bytes :=
  body ← encode_body v; Ok (uvarint64 (len body) ++ body).

(** Slice lengths are ints and everything in memory was allocated. *)
Definition fits (body : bytes) : Prop := len body ≤ maxAlloc ∧ len body < 2 ^ 63.

Lemma Encode_bytes_Buffer choice pool (w : bytes) v body :
  10 ≤ maxAlloc → encode_body v = Ok body → fits body →
  ∃ pool', Encode choice pool w v =
    Return (pool', w ++ uvarint64 (len body) ++ body, None).
Proof.
  intros Hmax Hbody [_ Hfit]. unfold Encode. rewrite Hbody.
  destruct (GetBytesBuf_spec maxAlloc choice pool 10) as (pool' & buf & -> & Hbuf & _).
  { pose proof (len_nonneg (pool_Get choice pool).2). lia. }
  simpl. assert (is_uint64 (len body)) by (pose proof (len_nonneg body); unfold is_uint64; lia).
  rewrite uint64_small, PutUvarint_spec by (done || unfold len, MaxVarintLen64 in *; lia).
  simpl. rewrite take_app_length. unfold w_Write, bytes_Buffer. eexists.
  by rewrite <-app_assoc.
Qed.

Lemma Decode_frame choice pool body rest e out out' err :
  0 ≤ maxAlloc → fits body → is_Message out = true →
  Unmarshal_into body out = (out', err) →
  ∃ pool', Decode choice pool (Reader (uvarint64 (len body) ++ body ++ rest) e) out =
    Return (pool', Reader rest e, out', err).
Proof.
  intros Hmax [Hfit Hlt] Hmsg Hun. unfold Decode. rewrite Hmsg. simpl.
  pose proof (len_nonneg body).
  rewrite ReadUvarint_uvarint64 by (unfold is_uint64; lia).
  unfold int_of_uint64. rewrite (proj2 (Z.ltb_lt _ _)) by done.
  destruct (GetBytesBuf_spec maxAlloc choice pool (len body)) as (pool' & buf & -> & Hbuf & _).
  { pose proof (len_nonneg (pool_Get choice pool).2). lia. }
  simpl. unfold slice_to. rewrite (proj2 (Z.leb_le _ _)) by lia. simpl.
  unfold ReadFull. simpl. rewrite len_app.
  rewrite (proj2 (Z.leb_le _ _)) by (pose proof (len_nonneg rest); lia).
  rewrite takeZ_app_len, dropZ_app_len, len_app.
  rewrite (proj2 (Z.leb_le _ _)) by (pose proof (len_nonneg (dropZ (len body) buf)); lia).
  simpl. rewrite takeZ_app_len, Hun. eauto.
Qed.

Lemma ReadFull_short n r :
  len (rbytes r) < n →
  ReadFull n r = (Reader [] (rerr r),
    Err (if bool_decide (rbytes r ≠ [] ∧ rerr r = EOF) then ErrUnexpectedEOF else rerr r)).
Proof. intros. unfold ReadFull. by rewrite (proj2 (Z.leb_gt _ _)) by done. Qed.

(** The two places a stream can be cut within a frame. *)
Lemma frame_cut (size body cut more : bytes) :
  size ++ body = cut ++ more → more ≠ [] →
  (∃ more', size = cut ++ more' ∧ more' ≠ []) ∨
  (∃ part, cut = size ++ part ∧ (length part < length body)%nat).
Proof.
  intros Heq Hmore. destruct (decide (length cut < length size)%nat) as [Hl|Hl].
  - left. exists (drop (length cut) size).
    assert (take (length cut) size = cut) as Ht.
    { pose proof (f_equal (take (length cut)) Heq) as Ht.
      by rewrite take_app_le, take_app_length in Ht by lia. }
    split; [by rewrite <-Ht at 1; rewrite take_drop|].
    intros Hd%(f_equal length). rewrite length_drop in Hd. simpl in Hd. lia.
  - right. exists (drop (length size) cut).
    pose proof (f_equal (take (length size)) Heq) as Ht.
    rewrite take_app_length, take_app_le in Ht by lia.
    split; [by rewrite Ht at 1; rewrite take_drop|].
    apply (f_equal length) in Heq. rewrite !length_app in Heq. rewrite length_drop.
    destruct more; simplify_eq/=. lia.
Qed.

(** A frame that was cut off, in the size or in the body. *)
Lemma Decode_truncated choice pool v body cut more e out :
  0 ≤ maxAlloc → encode_body v = Ok body → fits body → is_Message out = true →
  frame v = Ok (cut ++ more) → more ≠ [] →
  ∃ pool', Decode choice pool (Reader cut e) out =
    Return (pool', Reader [] e, out, Some (
      if bool_decide (length cut < length (uvarint64 (len body)))%nat
      then if bool_decide (e = EOF) then EOF
           else wrapError "failed to read size of the message" e
      else wrapError "failed to read message body"
             (if bool_decide (length cut ≠ length (uvarint64 (len body)) ∧ e = EOF)
              then ErrUnexpectedEOF else e))).
Proof.
  intros Hmax Hb [Hfit Hlt] Hout Hfr Hmore. pose proof (len_nonneg body).
  unfold frame in Hfr. rewrite Hb in Hfr. simplify_eq/=.
  unfold Decode. rewrite Hout. simpl.
  destruct (frame_cut _ _ _ _ Hfr Hmore) as [(more' & Hs & Hm')|(part & -> & Hp)].
  - rewrite (ReadUvarint_truncated _ _ _ _ Hs Hm').
    rewrite (bool_decide_true (length cut < _)%nat).
    2:{ rewrite Hs, length_app. destruct more'; simplify_eq/=. lia. }
    case_bool_decide; simpl; eexists; by rewrite ?H0.
  - rewrite ReadUvarint_uvarint64 by (unfold is_uint64; lia).
    unfold int_of_uint64. rewrite (proj2 (Z.ltb_lt _ _)) by done.
    destruct (GetBytesBuf_spec maxAlloc choice pool (len body)) as (pool' & buf & -> & Hbuf & _).
    { pose proof (len_nonneg (pool_Get choice pool).2). lia. }
    simpl. unfold slice_to. rewrite (proj2 (Z.leb_le _ _)) by lia. simpl.
    rewrite ReadFull_short by (unfold len; simpl; lia). simpl. eexists.
    rewrite length_app, (bool_decide_false (_ < length _)%nat) by lia.
    do 4 f_equal. repeat case_bool_decide; destruct part; naive_solver lia.
Qed.

(** A frame that was cut off is never delivered as a message: Decode leaves its output
    untouched and reports an error, which is the bare [io.EOF] only when the stream ended
    within the size prefix, and otherwise says which part could not be read. *)
Theorem truncated_frame choice pool v body cut more e out :
  0 ≤ maxAlloc → encode_body v = Ok body → fits body → is_Message out = true →
  frame v = Ok (cut ++ more) → more ≠ [] →
  ∃ pool', Decode choice pool (Reader cut e) out =
    Return (pool', Reader [] e, out, Some (
      if bool_decide (length cut < length (uvarint64 (len body)))%nat
      then if bool_decide (e = EOF) then EOF
           else wrapError "failed to read size of the message" e
      else wrapError "failed to read message body"
             (if bool_decide (length cut ≠ length (uvarint64 (len body)) ∧ e = EOF)
              then ErrUnexpectedEOF else e))).
Proof. apply Decode_truncated. Qed.

(** C37. Finding.  The size prefix is not validated: a peer that announces a body of 2^63 bytes
    or more makes Decode panic, since [int(size)] is negative, the pool returns a short buffer
    and [data[:size]] is out of range. *)
Theorem hostile_size_panics choice pool size rest e out :
  2 ^ 63 ≤ size < 2 ^ 64 → Forall (λ b, len b < 2 ^ 63) pool → is_Message out = true →
  Decode choice pool (Reader (uvarint64 size ++ rest) e) out =
    Panic "slice bounds out of range".
Proof.
  intros Hs Hpool Hout. unfold Decode. rewrite Hout. simpl.
  rewrite ReadUvarint_uvarint64 by (unfold is_uint64; lia).
  unfold int_of_uint64. rewrite (proj2 (Z.ltb_ge _ _)) by lia.
  unfold GetBytesBuf. destruct (pool_Get choice pool) as [p b] eqn:Hget.
  assert (len b < 2 ^ 63).
  { unfold pool_Get in Hget. repeat case_match; simplify_eq; try done.
    eapply (Forall_lookup_1 (λ b, len b < 2 ^ 63)); done. }
  pose proof (len_nonneg b). rewrite (proj2 (Z.leb_le _ _)) by lia. simpl.
  unfold slice_to. by rewrite (proj2 (Z.leb_gt _ _)) by lia.
Qed.

(** ** Any input *)

Lemma Encode_ok choice pool (w : bytes) v :
  10 ≤ maxAlloc → pool_ok pool → Forall is_byte w →
  (∀ body, encode_body v = Ok body → Forall is_byte body ∧ len body < 2 ^ 63) →
  ∃ pool' w' err, Encode choice pool w v = Return (pool', w', err) ∧ pool_ok pool' ∧ Forall is_byte w'.
Proof.
  intros Hmax Hp Hw Hbody. unfold Encode. destruct (encode_body v) as [body|e]; [|eauto 10].
  destruct (Hbody body eq_refl) as [Hb Hlt].
  destruct (GetBytesBuf_spec maxAlloc choice pool 10) as (pool' & buf & Hget & Hbuf & _).
  { pose proof (len_nonneg (pool_Get choice pool).2). lia. }
  destruct (GetBytesBuf_ok _ _ _ _ _ _ Hp Hget) as [Hp' Hbuf'].
  pose proof (len_nonneg body). assert (is_uint64 (len body)) as Hu by (unfold is_uint64; lia).
  rewrite Hget. simpl. rewrite uint64_small, PutUvarint_spec by (done || unfold len, MaxVarintLen64 in *; lia).
  simpl. rewrite take_app_length. unfold w_Write, bytes_Buffer. eexists _, _, _. split; [done|].
  assert (Forall is_byte (uvarint64 (len body))) by (by apply uvarint_bytes).
  split; [constructor; [by apply Forall_app; auto using Forall_drop|done]|by rewrite !Forall_app].
Qed.

Lemma ReadFull_consumes n r r' res :
  ReadFull n r = (r', res) → rerr r' = rerr r ∧ ∃ used, rbytes r = used ++ rbytes r'.
Proof.
  unfold ReadFull. case_match; intros; simplify_eq/=; (split; [done|]).
  - exists (takeZ n (rbytes r)). symmetry. apply take_drop.
  - exists (rbytes r). by rewrite app_nil_r.
Qed.

(** What Decode does with an announced size there is memory for. *)
Lemma Decode_sized choice pool r r1 size out :
  0 ≤ size ≤ maxAlloc → maxAlloc < 2 ^ 63 → pool_ok pool → Forall is_byte (rbytes r1) →
  is_Message out = true → ReadUvarint r = (r1, Ok size) →
  ∃ pool' r' out' err, Decode choice pool r out = Return (pool', r', out', err) ∧ pool_ok pool' ∧
    rerr r' = rerr r1 ∧ ∃ used, rbytes r1 = used ++ rbytes r'.
Proof.
  intros Hsize Hmax Hp Hr Hm Hread. unfold Decode. rewrite Hm, Hread. simpl.
  unfold int_of_uint64. rewrite (proj2 (Z.ltb_lt _ _)) by lia.
  destruct (GetBytesBuf_spec maxAlloc choice pool size) as (pool' & buf & Hget & Hbuf & _).
  { pose proof (len_nonneg (pool_Get choice pool).2). lia. }
  destruct (GetBytesBuf_ok _ _ _ _ _ _ Hp Hget) as [Hp' Hbuf'].
  rewrite Hget. simpl. unfold slice_to. rewrite (proj2 (Z.leb_le size (len buf))) by lia. simpl.
  destruct (ReadFull size r1) as [r' res] eqn:Hfull.
  destruct (ReadFull_consumes _ _ _ _ Hfull) as [He Hused].
  destruct res as [body|e]; [|eexists _, _, _, _; split_and!; [done|by constructor|done|done]].
  assert (len body = size ∧ Forall is_byte body) as [Hlen Hbody].
  { unfold ReadFull in Hfull. destruct (Z.leb_spec size (len (rbytes r1))); simplify_eq.
    split; [apply len_takeZ; lia|by apply Forall_take]. }
  rewrite len_app, (proj2 (Z.leb_le size (len body + _))) by (pose proof (len_nonneg (dropZ size buf)); lia).
  simpl. destruct (Unmarshal_into _ out) as [out' err]. eexists _, _, _, _. split_and!; [done| |done|done].
  constructor; [|done]. apply Forall_app. split; [done|by apply Forall_drop].
Qed.

Lemma ReadUvarint_consumes r r' res :
  ReadUvarint r = (r', res) → rerr r' = rerr r ∧ ∃ used, rbytes r = used ++ rbytes r'.
Proof. apply read_uvarint_loop_reads. Qed.

(** C34. Any input.  The codec keeps its types: with a shared pool of byte slices, Encode always
    returns and writes only bytes, and Decode, whatever bytes the peer sends, returns, having read a
    prefix of them, and leaves a pool of byte slices; unless the peer announces a size that is more than can be
    allocated, which is the only case in which it can panic. *)
Theorem codec_well_typed choice pool :
  10 ≤ maxAlloc < 2 ^ 63 → pool_ok pool →
  (∀ (w : bytes) v, Forall is_byte w →
     (∀ body, encode_body v = Ok body → Forall is_byte body ∧ len body < 2 ^ 63) →
     ∃ pool' w' err, Encode choice pool w v = Return (pool', w', err) ∧ pool_ok pool' ∧ Forall is_byte w') ∧
  (∀ r out, Forall is_byte (rbytes r) →
     (∃ pool' r' out' err, Decode choice pool r out = Return (pool', r', out', err) ∧ pool_ok pool' ∧
        rerr r' = rerr r ∧ ∃ used, rbytes r = used ++ rbytes r') ∨
     (∃ r1 size, ReadUvarint r = (r1, Ok size) ∧ maxAlloc < size)).
Proof.
  intros [Hmin Hmax] Hp. split; [intros; by apply Encode_ok|]. intros r out Hr.
  destruct (is_Message out) eqn:Hm.
  2:{ left. unfold Decode. rewrite Hm. simpl. eexists _, _, _, _. split_and!; [done|done|done|by exists []]. }
  destruct (ReadUvarint r) as [r1 [size|e]] eqn:Hread; destruct (ReadUvarint_consumes _ _ _ Hread) as [He [used Hu]].
  - destruct (decide (maxAlloc < size)); [by eauto|]. left.
    rewrite Hu in Hr. apply Forall_app in Hr as [Hr0 Hr1].
    assert (0 ≤ size) as H0.
    { refine (proj1 (read_uvarint_loop_bound MaxVarintLen64 0 0 r r1 size _ _ _ Hread)); [done|done|].
      rewrite Hu. by apply Forall_app. }
    destruct (Decode_sized choice pool r r1 size out) as (pool' & r' & out' & err & Hd & Hp' & He' & used' & Hu'); [lia|done..|].
    eexists _, _, _, _. split_and!; [done|done|congruence|]. exists (used ++ used'). by rewrite Hu, Hu', (assoc_L (++)).
  - left. unfold Decode. rewrite Hm, Hread. simpl. case_bool_decide; eauto 15.
Qed.
End codec.

Section stream.
Context {V : Type} `{!ProtoAPI V, !ProtoLaws V}.
Context (maxAlloc : Z) (Hmax : 10 ≤ maxAlloc).

(** The codec's state between calls: the shared pool, and the choices it will make. *)
Definition pool_state : Type := list (option nat) * list bytes.

(** One call of Decode into a fresh message [new(T)], as the receive loops make it. *)
Definition decode_one (out0 : V) (s : pool_state) (r : reader)
  : outcome (pool_state * reader * result V) :=
  let '(choices, pool) := s in
  '(pool, r, out, err) ← Decode maxAlloc (default None (head choices)) pool r out0;
  Return ((tail choices, pool), r, match err with None => Ok out | Some e => Err e end).

(** The send loops: encode the messages one by one, stop at the first error. *)
Fixpoint encode_stream {W} `{!Writer W} (s : pool_state) (w : W) (vs : list V)
  : outcome (pool_state * W * option error) :=
  match vs with
  | [] => Return (s, w, None)
  | v :: vs =>
      let '(choices, pool) := s in
      '(pool, w, err) ← Encode maxAlloc (default None (head choices)) pool w v;
      match err with
      | Some e => Return ((tail choices, pool), w, Some e)
      | None => encode_stream (tail choices, pool) w vs
      end
  end.

(** A message of the type of [out0] that can be marshalled within the memory there is. *)
Definition sendable (out0 v : V) : Prop :=
  is_Message v = true ∧ zero_of v = out0 ∧ ∃ body, encode_body v = Ok body ∧ fits maxAlloc body.

Lemma Unmarshal_encode_body v body :
  is_Message v = true → encode_body v = Ok body → Unmarshal_into body (zero_of v) = (v, None).
Proof using ProtoLaws0.
  unfold encode_body. intros Hm H. rewrite Hm in H.
  repeat case_match; simplify_eq; eauto using Unmarshal_t_Marshal, Unmarshal_proto_Marshal.
Qed.

#[export] Instance gogoproto_FrameCodec out0 :
  is_Message out0 = true → FrameCodec (sendable out0) frame (decode_one out0).
Proof using Hmax ProtoLaws0.
  intros Hout. split.
  - intros [ch pool] v bs rest e (Hm & <- & body & Hb & Hfit) Henc.
    unfold frame in Henc. rewrite Hb in Henc. simplify_eq/=.
    destruct (Decode_frame maxAlloc (default None (head ch)) pool body rest e (zero_of v) v None)
      as [pool' Hd]; [lia|done|done|by apply Unmarshal_encode_body|].
    rewrite <-app_assoc, Hd. by eexists.
  - intros [ch pool] e. unfold decode_one, Decode. rewrite Hout. simpl.
    case_bool_decide; simpl; eexists _, _; by split.
  - intros [ch pool] v cut more e (Hm & <- & body & Hb & Hfit) Henc Hmore.
    destruct (Decode_truncated maxAlloc (default None (head ch)) pool v body cut more e (zero_of v))
      as [pool' Hd]; [lia|done..|]. unfold decode_one. rewrite Hd. by eexists _, _.
Qed.

(** Frames of messages whose bodies fit in memory. *)
#[export] Instance fits_dec body : Decision (fits maxAlloc body).
Proof. unfold fits. apply _. Defined.

Definition frame_within (v : V) : result bytes :=
  body ← encode_body v;
  if bool_decide (fits maxAlloc body) then frame v else Err (errorString "out of memory").

Lemma frame_within_Ok v f :
  frame_within v = Ok f → frame v = Ok f ∧ ∃ body, encode_body v = Ok body ∧ fits maxAlloc body.
Proof.
  unfold frame_within. destruct (encode_body v) as [body|] eqn:Hb; [|done]. simpl.
  case_bool_decide; [|done]. eauto.
Qed.

(** The codec for one message type. *)
Lemma frame_within_sendable out0 v f :
  (∀ v, is_Message v = true ∧ zero_of v = out0) → frame_within v = Ok f → sendable out0 v.
Proof. intros Hall [_ Hb]%frame_within_Ok. destruct (Hall v). by split_and!. Qed.

Lemma frame_within_FrameCodec out0 :
  is_Message out0 = true → FrameCodec (sendable out0) frame_within (decode_one out0).
Proof using Hmax ProtoLaws0.
  intros Hout. pose proof (gogoproto_FrameCodec out0 Hout) as [H1 H2 H3]. split; [|done|].
  - intros s v bs rest e Hv [Hf _]%frame_within_Ok. eauto.
  - intros s v cut more e Hv [Hf _]%frame_within_Ok. eauto.
Qed.

Lemma encode_stream_frames out0 s (w : bytes) vs :
  Forall (sendable out0) vs →
  ∃ s' bs, encode_all frame vs = Ok bs ∧ encode_stream s w vs = Return (s', w ++ bs, None).
Proof using Hmax.
  revert s w. induction vs as [|v vs IH]; intros [ch pool] w Hvs; simpl.
  { eexists _, []. rewrite app_nil_r. done. }
  inv Hvs. destruct H1 as (_ & _ & body & Hb & Hfit).
  destruct (Encode_bytes_Buffer maxAlloc (default None (head ch)) pool w v body)
    as [pool' ->]; [done..|]. simpl.
  destruct (IH (tail ch, pool') (w ++ uvarint64 (len body) ++ body)) as (s' & bs & He & ->);
    [done|]. rewrite He. unfold frame. rewrite Hb. simpl.
  eexists _, _. split; [done|]. by rewrite <-!app_assoc.
Qed.

(** C3. Stream round trip: messages sent through Encode over one connection are what the
    receive loop of Decode delivers, all of them, in order and unchanged, and the loop then
    reports the end of the stream; whatever buffers the shared pool hands out on either side. *)
Theorem stream_roundtrip out0 vs s1 s2 :
  is_Message out0 = true → Forall (sendable out0) vs →
  ∃ s1' wire, encode_stream s1 ([] : bytes) vs = Return (s1', wire, None) ∧
    decode_all (decode_one out0) (S (length vs)) s2 (Reader wire EOF) = Return (vs, EOF).
Proof using Hmax ProtoLaws0.
  intros Hout Hvs. destruct (encode_stream_frames out0 s1 [] vs Hvs) as (s' & bs & He & Hw).
  exists s', bs. split; [done|].
  eapply (decode_all_encode_all (sendable out0) frame _ vs bs); [done|done|lia].
  Unshelve. by apply gogoproto_FrameCodec.
Qed.
End stream.

(** ** The codec on concrete inputs *)

(** A message type that is its own body, and a value that is no protobuf message. *)
Module SampleProto.
Inductive blob : Type := Blob (b : bytes) | NotProto.

#[export] Instance blob_api : ProtoAPI blob := {|
  is_Marshaler v := match v with Blob _ => true | NotProto => false end;
  is_Message v := match v with Blob _ => true | NotProto => false end;
  t_Marshal v := match v with Blob b => Ok b | NotProto => Err EOF end;
  proto_Marshal v := match v with Blob b => Ok b | NotProto => Err EOF end;
  Unmarshal_into bs v := (Blob bs, None);
  zero_of v := match v with Blob _ => Blob [] | NotProto => NotProto end;
|}.

#[export] Instance blob_laws : ProtoLaws blob.
Proof. split; [by intros []|by intros [] ? ? ? [= ->]|by intros [] ? ? [= ->]]. Qed.
End SampleProto.

Section witnesses.
Import SampleProto.

Lemma stream_roundtrip_witness :
  ∃ s1' wire,
    encode_stream (2 ^ 48) ([Some 0%nat], [[7]]) ([] : bytes) [Blob [1; 2; 3]; Blob []] =
      Return (s1', wire, None) ∧
    decode_all (decode_one (2 ^ 48) (Blob [])) 3 ([], [[5; 6]]) (Reader wire EOF) =
      Return ([Blob [1; 2; 3]; Blob []], EOF).
Proof.
  apply (stream_roundtrip (2 ^ 48)).
  - lia.
  - reflexivity.
  - repeat constructor; (eexists; split; [reflexivity|split; vm_compute; congruence]).
Defined.

Lemma codec_well_typed_witness :
  (∃ pool' w' err, Encode (2 ^ 48) (Some 0%nat) [[7; 255]] ([] : bytes) (Blob [1; 2]) = Return (pool', w', err) ∧
     pool_ok pool' ∧ Forall is_byte w') ∧
  ((∃ pool' r' out' err, Decode (2 ^ 48) None [[7; 255]] (Reader [200; 1; 9] EOF) (Blob []) = Return (pool', r', out', err) ∧
     pool_ok pool' ∧ rerr r' = EOF ∧ ∃ used, [200; 1; 9] = used ++ rbytes r') ∨
   (∃ r1 size, ReadUvarint (Reader [200; 1; 9] EOF) = (r1, Ok size) ∧ 2 ^ 48 < size)).
Proof.
  assert (pool_ok [[7; 255]]) as Hp by (apply (bool_decide_unpack _); reflexivity). split.
  - refine (proj1 (codec_well_typed (2 ^ 48) (Some 0%nat) [[7; 255]] _ Hp) [] (Blob [1; 2]) _ _); [lia|done|].
    intros body [= <-]. split; [apply (bool_decide_unpack _); reflexivity|reflexivity].
  - refine (proj2 (codec_well_typed (2 ^ 48) None [[7; 255]] _ Hp) (Reader [200; 1; 9] EOF) (Blob []) _); [lia|].
    apply (bool_decide_unpack _). reflexivity.
Defined.

Lemma truncated_frame_witness :
  ∃ pool', Decode (2 ^ 48) None [] (Reader [3; 1; 2] EOF) (Blob []) =
    Return (pool', Reader [] EOF, Blob [],
            Some (wrapError "failed to read message body" ErrUnexpectedEOF)).
Proof.
  apply (truncated_frame (2 ^ 48) None [] (Blob [1; 2; 3]) [1; 2; 3] [3; 1; 2] [3]).
  - lia.
  - reflexivity.
  - split; vm_compute; congruence.
  - reflexivity.
  - reflexivity.
  - congruence.
Defined.

Lemma hostile_size_panics_witness :
  Decode (2 ^ 48) None [] (Reader [128; 128; 128; 128; 128; 128; 128; 128; 128; 1] EOF) (Blob []) =
    Panic "slice bounds out of range".
Proof.
  apply (hostile_size_panics (2 ^ 48) None [] (2 ^ 63) [] EOF (Blob [])).
  - lia.
  - constructor.
  - reflexivity.
Defined.
End witnesses.
