(* ===== verification/Proto.v ===== *)
(** * Protocol messages (arhat-proto) and their constructors (package protoutil)

    The message types are generated code outside the repository; the records have the fields the
    repository reads and writes.  The numeric values of the enumerations are not known here:
    [ArhatPb] names them, and the hypotheses of the theorems say where two of them must differ
    (the Go compiler enforces that in every [switch] and map literal over them). *)
From S2P Require Import Prelude.

Set Default Proof Using "Type".

Record Cmd : Type := MkCmd {
  cmd_Kind : Z;
  cmd_Id : Z;
  cmd_Seq : Z;
  cmd_Payload : bytes;
}.

Record Msg : Type := MkMsg {
  msg_Kind : Z;
  msg_Id : Z;
  msg_Ack : Z;
  msg_Payload : bytes;
}.

Record RegisterMsg : Type := MkRegisterMsg {
  reg_Name : string;
  reg_ExtensionType : Z;
  reg_Codec : Z;
}.

#[export] Instance Cmd_eq_dec : EqDecision Cmd.
Proof. solve_decision. Defined.
#[export] Instance Msg_eq_dec : EqDecision Msg.
Proof. solve_decision. Defined.

(** The enumeration values of package arhatgopb the code mentions. *)
Class ArhatPb := {
  CODEC_JSON : Z;
  CODEC_PROTOBUF : Z;
  MSG_REGISTER : Z;
  MSG_PONG : Z;
  MSG_DONE : Z;
  MSG_ERROR : Z;
  MSG_DATA_OUTPUT : Z;
  MSG_RUNTIME_DATA_STDERR : Z;
  MSG_RUNTIME_ARANYA_PROTO : Z;
  MSG_PERIPHERAL_OPERATION_RESULT : Z;
  MSG_PERIPHERAL_METRICS : Z;
  CMD_PING : Z;
  CMD_DATA_INPUT : Z;
  CMD_DATA_CLOSE : Z;
  CMD_RUNTIME_ARANYA_PROTO : Z;
  CMD_PERIPHERAL_CONNECT : Z;
  CMD_PERIPHERAL_CLOSE : Z;
  CMD_PERIPHERAL_OPERATE : Z;
  CMD_PERIPHERAL_COLLECT_METRICS : Z;
}.

(** One numbering, for running the definitions on concrete inputs. *)
Definition sample_pb : ArhatPb := {|
  CODEC_JSON := 1; CODEC_PROTOBUF := 2;
  MSG_REGISTER := 1; MSG_PONG := 2; MSG_DONE := 3; MSG_ERROR := 4; MSG_DATA_OUTPUT := 5;
  MSG_RUNTIME_DATA_STDERR := 6; MSG_RUNTIME_ARANYA_PROTO := 7;
  MSG_PERIPHERAL_OPERATION_RESULT := 8; MSG_PERIPHERAL_METRICS := 9;
  CMD_PING := 1; CMD_DATA_INPUT := 2; CMD_DATA_CLOSE := 3; CMD_RUNTIME_ARANYA_PROTO := 4;
  CMD_PERIPHERAL_CONNECT := 5; CMD_PERIPHERAL_CLOSE := 6; CMD_PERIPHERAL_OPERATE := 7;
  CMD_PERIPHERAL_COLLECT_METRICS := 8;
|}.

Section constructors.
Context {B : Type} (marshal : B → result bytes).

Definition NewCmd (kind id seq : Z) (body : B) : result Cmd :=
  payload ← marshal body;
  Ok {| cmd_Kind := kind; cmd_Id := id; cmd_Seq := seq; cmd_Payload := payload |}.

Definition NewMsg (kind id ack : Z) (body : B) : result Msg :=
  payload ← marshal body;
  Ok {| msg_Kind := kind; msg_Id := id; msg_Ack := ack; msg_Payload := payload |}.

Lemma NewMsg_Ok kind id ack body m :
  NewMsg kind id ack body = Ok m →
  msg_Kind m = kind ∧ msg_Id m = id ∧ msg_Ack m = ack ∧ marshal body = Ok (msg_Payload m).
Proof. unfold NewMsg. destruct (marshal body); intros; by simplify_eq/=. Qed.
End constructors.
