(* ===== verification/StdJson.v ===== *)
(** * The JSON codec (codec/stdjson)

    The codec is encoding/json's Encoder and Decoder.  The text format is a parameter
    ([JsonScanner], [JsonValue]) with what is documented of it; how a Decoder reads a connection,
    which decides what it has taken from it when it returns a value, is modelled.  Registration
    uses one Decoder for one message ([Handshake]); a session that was registered with this codec
    uses one Decoder for all its messages, and the round trip of such a stream is proved here. *)
From S2P Require Import Prelude.

Set Default Proof Using "Type".

(** ** encoding/json *)

(** What the scanner says of the bytes read so far. *)
Inductive scan : Type :=
| ScanMore                 (* no complete value yet *)
| ScanValue (n : Z)        (* the first [n] bytes are a complete value *)
| ScanError (e : error).

Class JsonScanner := { json_scan : bytes → scan }.

Class JsonValue (V : Type) := {
  json_Marshal : V → result bytes;
  json_Unmarshal : bytes → result V;
}.

Definition is_space (b : Z) : bool := bool_decide (b ∈ [32; 9; 13; 10]).

Definition scan_after (k : Z) (s : scan) : scan :=
  match s with ScanValue n => ScanValue (k + n) | _ => s end.

(** Documented behaviour of encoding/json: white space before a value is skipped, an object is
    delimited by its own braces, and a value that was marshalled is restored.  The last law,
    [json_Unmarshal_Marshal], is for types without Go strings: commands and messages, which have
    numbers and a []byte, written as base64.  A Go string comes back as [json_string] has it. *)
Class JsonScannerLaws `{!JsonScanner} : Prop := {
  json_scan_nil : json_scan [] = ScanMore;
  json_scan_space b bs : is_space b = true → json_scan (b :: bs) = scan_after 1 (json_scan bs);
}.

Class JsonLaws (V : Type) `{!JsonScanner, !JsonValue V} : Prop := {
  json_scan_complete (v : V) bs rest :
    json_Marshal v = Ok bs → json_scan (bs ++ rest) = ScanValue (len bs);
  json_scan_partial (v : V) cut more :
    json_Marshal v = Ok (cut ++ more) → more ≠ [] → json_scan cut = ScanMore;
  json_Unmarshal_Marshal (v : V) bs : json_Marshal v = Ok bs → json_Unmarshal bs = Ok v;
  json_Unmarshal_space b bs :
    is_space b = true → json_Unmarshal (b :: bs) = json_Unmarshal (V := V) bs;
}.

(** *** Strings *)

(** The length of the UTF-8 sequence that a byte starts, and the range of the byte after it. *)
Definition utf8_first (b : Z) : option (nat * Z * Z) :=
  if (0 <=? b) && (b <=? 127) then Some (1%nat, 0, 255)
  else if (194 <=? b) && (b <=? 223) then Some (2%nat, 128, 191)
  else if b =? 224 then Some (3%nat, 160, 191)
  else if b =? 237 then Some (3%nat, 128, 159)
  else if (225 <=? b) && (b <=? 239) then Some (3%nat, 128, 191)
  else if b =? 240 then Some (4%nat, 144, 191)
  else if (241 <=? b) && (b <=? 243) then Some (4%nat, 128, 191)
  else if b =? 244 then Some (4%nat, 128, 143)
  else None.

(** The length of the sequence at the head of [bs], 0 if it is not one. *)
Definition utf8_width (bs : bytes) : nat :=
  match bs with
  | [] => 0
  | b :: rest =>
      match utf8_first b with
      | None => 0
      | Some (n, lo, hi) =>
          let tail := take (n - 1) rest in
          if bool_decide (length tail = (n - 1)%nat) &&
             match tail with
             | [] => true
             | c :: tail => (lo <=? c) && (c <=? hi) && forallb (λ c, (128 <=? c) && (c <=? 191)) tail
             end
          then n else 0
      end
  end.

(** The encoder writes a byte that is not part of a UTF-8 sequence as U+FFFD; [skip] bytes belong to
    the sequence under way. *)
Fixpoint to_utf8 (skip : nat) (bs : bytes) : bytes :=
  match bs, skip with
  | [], _ => []
  | b :: rest, S skip => b :: to_utf8 skip rest
  | b :: rest, O =>
      match utf8_width bs with
      | O => [239; 191; 189] ++ to_utf8 0 rest
      | S n => b :: to_utf8 n rest
      end
  end.

Fixpoint utf8_valid (skip : nat) (bs : bytes) : bool :=
  match bs, skip with
  | [], _ => true
  | _ :: rest, S skip => utf8_valid skip rest
  | _ :: rest, O => match utf8_width bs with O => false | S n => utf8_valid n rest end
  end.

Lemma to_utf8_valid skip bs : utf8_valid skip bs = true → to_utf8 skip bs = bs.
Proof.
  revert skip. induction bs as [|b bs IH]; intros [|skip] H; simpl in *; try done; [|by rewrite IH].
  match goal with |- context [match ?n with O => _ | S _ => _ end] => destruct n end; [done|by rewrite IH].
Qed.

Definition string_bytes (s : string) : bytes :=
  map (λ a, Z.of_nat (nat_of_ascii a)) (String.list_ascii_of_string s).
Definition bytes_string (bs : bytes) : string :=
  String.string_of_list_ascii (map (λ z, ascii_of_nat (Z.to_nat z)) bs).

Lemma bytes_string_bytes s : bytes_string (string_bytes s) = s.
Proof.
  unfold bytes_string, string_bytes. rewrite map_map. erewrite map_ext, map_id; [apply String.string_of_list_ascii_of_string|].
  intros a. simpl. by rewrite Nat2Z.id, ascii_nat_embedding.
Qed.

(** utf8.ValidString, and the string that comes out of a round trip through JSON. *)
Definition valid_string (s : string) : bool := utf8_valid 0 (string_bytes s).
Definition json_string (s : string) : string := bytes_string (to_utf8 0 (string_bytes s)).

Lemma json_string_valid s : valid_string s = true → json_string s = s.
Proof. unfold json_string, valid_string. intros H%to_utf8_valid. rewrite H. apply bytes_string_bytes. Qed.

(** The error at the end of the input: white space is EOF, a part of a value an unexpected end. *)
Definition end_error (buf : bytes) (err : error) : error :=
  if bool_decide (err = EOF) && negb (forallb is_space buf) then ErrUnexpectedEOF else err.

(** A connection's input: what its successive Read calls return, then an error. *)
Record conn : Type := Conn { conn_chunks : list bytes; conn_err : error }.

Section json.
Context `{!JsonScanner} {V : Type} `{!JsonValue V}.

(** [json.Encoder.Encode]: the value and a newline. *)
Definition json_Encode (v : V) : result bytes :=
  bs ← json_Marshal v; Ok (bs ++ [10]).

(** [json.Decoder.Decode]: read until the buffer holds a complete value.  What the last Read
    delivered beyond the value stays in the decoder's own buffer, the second component; the third
    is whether reading a value failed, which every later call reports again. *)
Fixpoint json_Decode (buf : bytes) (chunks : list bytes) (err : error)
  : result V * bytes * option error * list bytes :=
  match json_scan buf with
  | ScanValue n => (json_Unmarshal (takeZ n buf), dropZ n buf, None, chunks)
  | ScanError e => (Err e, buf, Some e, chunks)
  | ScanMore =>
      match chunks with
      | c :: chunks => json_Decode (buf ++ c) chunks err
      | [] =>
          (Err (end_error buf err), buf, Some (end_error buf err), [])
      end
  end.

(** A Decoder and its connection. *)
Record decoder : Type := MkDecoder { jd_buf : bytes; jd_err : option error }.

Definition NewDecoder : decoder := MkDecoder [] None.

Definition decoder_Decode (d : decoder) (c : conn) : result V * decoder * conn :=
  match jd_err d with
  | Some e => (Err e, d, c)
  | None =>
      let '(res, buf, err, chunks) := json_Decode (jd_buf d) (conn_chunks c) (conn_err c) in
      (res, MkDecoder buf err, Conn chunks (conn_err c))
  end.

(** The receive loop of a session: decode until an error, at most [fuel] times. *)
Fixpoint json_decode_all (fuel : nat) (d : decoder) (c : conn) : option (list V * error) :=
  match fuel with
  | O => None
  | S fuel =>
      match decoder_Decode d c with
      | (Err e, _, _) => Some ([], e)
      | (Ok v, d, c) => '(vs, e) ← json_decode_all fuel d c; Some (v :: vs, e)
      end
  end.

Definition json_encode_all (vs : list V) : result bytes :=
  foldr (λ v acc, bs ← json_Encode v; rest ← acc; Ok (bs ++ rest)) (Ok []) vs.

(** ** What a Decoder reads *)

Context {scanner_laws : JsonScannerLaws} {value_laws : JsonLaws V}.

Definition spaces (bs : bytes) : Prop := forallb is_space bs = true.

Lemma spaces_cons b bs : spaces (b :: bs) → is_space b = true ∧ spaces bs.
Proof. apply andb_true_iff. Qed.

Lemma spaces_app bs1 bs2 : spaces (bs1 ++ bs2) ↔ spaces bs1 ∧ spaces bs2.
Proof. unfold spaces. by rewrite forallb_app, andb_true_iff. Qed.

Lemma json_scan_spaces ws bs : spaces ws → json_scan (ws ++ bs) = scan_after (len ws) (json_scan bs).
Proof using scanner_laws.
  induction ws as [|b ws IH]; intros Hws.
  - simpl. by destruct (json_scan bs).
  - apply spaces_cons in Hws as [Hb Hws]. simpl. rewrite json_scan_space, (IH Hws), len_cons by done.
    destruct (json_scan bs); simpl; try done. f_equal. lia.
Qed.

Lemma json_scan_only_spaces ws : spaces ws → json_scan ws = ScanMore.
Proof using scanner_laws.
  intros Hws. by rewrite <-(app_nil_r ws), json_scan_spaces, json_scan_nil.
Qed.

Lemma json_Unmarshal_spaces ws bs : spaces ws → json_Unmarshal (ws ++ bs) = json_Unmarshal (V := V) bs.
Proof using scanner_laws value_laws.
  induction ws as [|b ws IH]; [done|]. intros [Hb Hws]%spaces_cons. simpl.
  rewrite json_Unmarshal_space by done. by apply IH.
Qed.

Lemma json_Decode_complete ws v bs extra chunks e :
  spaces ws → json_Marshal v = Ok bs →
  json_Decode (ws ++ bs ++ extra) chunks e = (Ok v, extra, None, chunks).
Proof using scanner_laws value_laws.
  intros Hws Hm.
  assert (json_scan (ws ++ bs ++ extra) = ScanValue (len (ws ++ bs))) as Hscan.
  { by rewrite json_scan_spaces, (json_scan_complete v bs), len_app. }
  rewrite (assoc_L (++)) in Hscan |- *.
  destruct chunks; cbn [json_Decode]; rewrite Hscan, takeZ_app_len, dropZ_app_len, json_Unmarshal_spaces by done;
    by erewrite json_Unmarshal_Marshal.
Qed.

(** A proper part of white space and a value is not a value yet. *)
Lemma json_scan_proper ws v bs buf more :
  spaces ws → json_Marshal v = Ok bs → buf ++ more = ws ++ bs → more ≠ [] → json_scan buf = ScanMore.
Proof using scanner_laws value_laws.
  intros Hws Hm Heq Hmore. apply app_eq_inv in Heq as [(k & -> & ->)|(k & -> & _)].
  - rewrite json_scan_spaces by done. by erewrite json_scan_partial.
  - apply spaces_app in Hws as [Hws _]. by apply json_scan_only_spaces.
Qed.

Lemma json_Decode_spec ws v bs buf chunks rest e :
  spaces ws → json_Marshal v = Ok bs → buf ++ concat chunks = ws ++ bs ++ rest →
  ∃ read left extra, chunks = read ++ left ∧ buf ++ concat read = ws ++ bs ++ extra ∧
    json_Decode buf chunks e = (Ok v, extra, None, left).
Proof using scanner_laws value_laws.
  intros Hws Hm. revert buf. induction chunks as [|c chunks IH]; intros buf Heq.
  { simpl in Heq. rewrite app_nil_r in Heq. subst buf. exists [], [], rest.
    split_and!; [done|by rewrite app_nil_r|by apply json_Decode_complete]. }
  rewrite (assoc_L (++) ws) in Heq. apply app_eq_inv in Heq as [(k & Hk & Hrest)|(k & Hk & Hrest)].
  { rewrite <-(assoc_L (++)) in Hk. subst buf. exists [], (c :: chunks), k.
    split_and!; [done|by rewrite app_nil_r|by apply json_Decode_complete]. }
  destruct (decide (k = [])) as [->|Hne].
  { rewrite app_nil_r in Hk. subst buf. exists [], (c :: chunks), [].
    split_and!; [done|by rewrite !app_nil_r|]. rewrite <-(app_nil_r bs). by apply json_Decode_complete. }
  destruct (IH (buf ++ c)) as (read & left & extra & -> & Hread & Hdec).
  { rewrite <-(assoc_L (++)). change (c ++ concat chunks) with (concat (c :: chunks)).
    rewrite Hrest, (assoc_L (++) ws), Hk. by rewrite <-(assoc_L (++)). }
  exists (c :: read), left, extra. split; [done|]. split; [by rewrite <-(assoc_L (++)) in Hread|].
  cbn [json_Decode]. by rewrite (json_scan_proper ws v bs buf k).
Qed.

Lemma json_Decode_exhaust buf chunks err :
  (∀ pre suf, buf ++ concat chunks = pre ++ suf → json_scan pre = ScanMore) →
  let e := end_error (buf ++ concat chunks) err in
  json_Decode buf chunks err = (Err e, buf ++ concat chunks, Some e, []).
Proof.
  revert buf. induction chunks as [|c chunks IH]; intros buf Hscan; cbn [json_Decode]; rewrite (Hscan _ _ eq_refl).
  - simpl. by rewrite app_nil_r.
  - simpl. rewrite (assoc_L (++)). apply IH. intros pre suf. rewrite <-(assoc_L (++)). apply Hscan.
Qed.

Lemma json_Decode_spaces buf chunks err :
  spaces (buf ++ concat chunks) →
  json_Decode buf chunks err = (Err err, buf ++ concat chunks, Some err, []).
Proof using scanner_laws.
  intros Hws. rewrite json_Decode_exhaust.
  - unfold end_error. by rewrite (Hws : forallb _ _ = true), andb_false_r.
  - intros pre suf Heq. rewrite Heq in Hws. apply spaces_app in Hws as [Hws _]. by apply json_scan_only_spaces.
Qed.

Lemma json_Decode_truncated ws v bs cut more buf chunks :
  spaces ws → json_Marshal v = Ok bs → bs = cut ++ more → more ≠ [] → buf ++ concat chunks = ws ++ cut →
  let e := end_error cut EOF in
  json_Decode buf chunks EOF = (Err e, ws ++ cut, Some e, []).
Proof using scanner_laws value_laws.
  intros Hws Hm -> Hmore Heq. rewrite json_Decode_exhaust.
  - unfold end_error. by rewrite Heq, forallb_app, (Hws : forallb _ _ = true).
  - intros pre suf. rewrite Heq. intros Hpre. apply (json_scan_proper ws v (cut ++ more) pre (suf ++ more)); [done..| |].
    + by rewrite !(assoc_L (++)), Hpre.
    + by intros [_ ?]%app_eq_nil.
Qed.

Lemma json_encode_all_cons v vs wire :
  json_encode_all (v :: vs) = Ok wire →
  ∃ bs rest, json_Marshal v = Ok bs ∧ json_encode_all vs = Ok rest ∧ wire = bs ++ [10] ++ rest.
Proof.
  simpl. unfold json_Encode. destruct (json_Marshal v) as [bs|]; [|done]. simpl.
  destruct (json_encode_all vs) as [rest|]; [|done]. simpl. intros [= <-].
  exists bs, rest. by rewrite <-(assoc_L (++)).
Qed.

(** The loop, from whatever the Decoder has in its buffer. *)
Lemma json_stream_decode vs wire ws buf chunks tail fuel :
  json_encode_all vs = Ok wire → spaces ws → buf ++ concat chunks = ws ++ wire ++ tail →
  ∃ ws' buf' chunks', spaces ws' ∧ buf' ++ concat chunks' = ws' ++ tail ∧
    json_decode_all (length vs + fuel) (MkDecoder buf None) (Conn chunks EOF) =
      '(rest, e) ← json_decode_all fuel (MkDecoder buf' None) (Conn chunks' EOF); Some (vs ++ rest, e).
Proof using scanner_laws value_laws.
  revert wire ws buf chunks. induction vs as [|v vs IH]; intros wire ws buf chunks Henc Hws Heq.
  - simplify_eq/=. exists ws, buf, chunks. split_and!; [done..|]. by destruct (json_decode_all _ _ _) as [[]|].
  - apply json_encode_all_cons in Henc as (bs & rest & Hm & Hrest & ->).
    destruct (json_Decode_spec ws v bs buf chunks ([10] ++ rest ++ tail) EOF)
      as (read & left & extra & -> & Hread & Hd); [done..|by rewrite Heq, <-!(assoc_L (++))|].
    destruct (IH rest [10] extra left) as (ws' & buf' & chunks' & Hws' & Hb & Hdec); [done|done| |].
    { rewrite concat_app, (assoc_L (++)), Hread, <-!(assoc_L (++)) in Heq. by simplify_list_eq. }
    exists ws', buf', chunks'. split_and!; [done..|]. cbn [length Nat.add json_decode_all].
    unfold decoder_Decode at 1. simpl. rewrite Hd, Hdec. by destruct (json_decode_all fuel _ _) as [[]|].
Qed.

(** C25. A session over the JSON codec.  However the network splits the stream into reads, and
    whatever white space is left before it (the newline after the registration may be), the
    Decoder delivers exactly the messages that were encoded (values without Go strings, as commands and
    messages are), in order, and then reports EOF; when
    the connection ends within a further message, it delivers the messages before it and then
    reports an unexpected end, not an end. *)
Theorem json_stream_roundtrip vs wire ws :
  json_encode_all vs = Ok wire → spaces ws →
  (∀ chunks, concat chunks = ws ++ wire →
     json_decode_all (S (length vs)) NewDecoder (Conn chunks EOF) = Some (vs, EOF)) ∧
  (∀ chunks v cut more, json_Marshal v = Ok (cut ++ more) → more ≠ [] → ¬ spaces cut →
     concat chunks = ws ++ wire ++ cut →
     json_decode_all (S (length vs)) NewDecoder (Conn chunks EOF) = Some (vs, ErrUnexpectedEOF)).
Proof using scanner_laws value_laws.
  intros Henc Hws. rewrite <-Nat.add_1_r. split.
  - intros chunks Hch. destruct (json_stream_decode vs wire ws [] chunks [] 1) as (ws' & buf & ch & Hws' & Hb & Hd);
      [done|done|by rewrite app_nil_r|]. rewrite app_nil_r in Hb. unfold NewDecoder. rewrite Hd. simpl.
    unfold decoder_Decode. simpl. rewrite json_Decode_spaces by (by rewrite Hb). simpl. by rewrite app_nil_r.
  - intros chunks v cut more Hm Hmore Hcut Hch.
    destruct (json_stream_decode vs wire ws [] chunks cut 1) as (ws' & buf & ch & Hws' & Hb & Hd); [done..|].
    unfold NewDecoder. rewrite Hd. simpl. unfold decoder_Decode. simpl.
    rewrite (json_Decode_truncated ws' v _ cut more) by done. simpl. rewrite app_nil_r. unfold end_error.
    destruct (forallb is_space cut) eqn:E; [by destruct Hcut|]. done.
Qed.
End json.

(** ** A concrete text format *)

(** Objects as their length and fields behind a brace, which meets the laws. *)
Module SampleText.
Definition brace : Z := 123.

Definition scan_object (buf : bytes) : scan :=
  match buf with
  | b :: n :: l =>
      if negb (b =? brace) then ScanError (errorString "invalid character")
      else if n <=? len l then ScanValue (2 + n) else ScanMore
  | [b] => if b =? brace then ScanMore else ScanError (errorString "invalid character")
  | [] => ScanMore
  end.

Fixpoint scan_text (buf : bytes) : scan :=
  match buf with
  | b :: l => if is_space b then scan_after 1 (scan_text l) else scan_object buf
  | [] => ScanMore
  end.

Fixpoint skip_space (bs : bytes) : bytes :=
  match bs with b :: l => if is_space b then skip_space l else bs | [] => [] end.

Definition object (fields : bytes) : bytes := brace :: len fields :: fields.
Definition fields_of (bs : bytes) : bytes := drop 2 (skip_space bs).

#[export] Instance sample_scanner : JsonScanner := {| json_scan := scan_text |}.
#[export] Instance sample_scanner_laws : JsonScannerLaws.
Proof. split; [done|]. intros b bs Hb. simpl. by rewrite Hb. Qed.

Lemma scan_object_complete fields rest : scan_text (object fields ++ rest) = ScanValue (len (object fields)).
Proof.
  cbn. unfold object. autorewrite with golib. pose proof (len_nonneg rest).
  rewrite (proj2 (Z.leb_le _ _)) by lia. f_equal. lia.
Qed.

Lemma scan_object_partial fields cut more :
  object fields = cut ++ more → more ≠ [] → scan_text cut = ScanMore.
Proof.
  intros Heq Hmore. destruct cut as [|b [|n cut]]; [done|by injection Heq as <- _|].
  injection Heq as <- <- ->. cbn.
  destruct more as [|x more]; [done|]. pose proof (len_nonneg more).
  rewrite len_app, len_cons. by rewrite (proj2 (Z.leb_gt _ _)) by lia.
Qed.

(** A type given by the fields of its values. *)
Definition object_type {V} (to_fields : V → bytes) (of_fields : bytes → result V) : JsonValue V :=
  {| json_Marshal v := Ok (object (to_fields v)); json_Unmarshal bs := of_fields (fields_of bs) |}.

Lemma object_type_laws {V} (to_fields : V → bytes) (of_fields : bytes → result V) :
  (∀ v, of_fields (to_fields v) = Ok v) →
  @JsonLaws V sample_scanner (object_type to_fields of_fields).
Proof.
  intros Hrt. split; simpl.
  - intros v bs rest [= <-]. apply scan_object_complete.
  - intros v cut more [= Heq] Hmore. by eapply scan_object_partial.
  - intros v bs [= <-]. unfold fields_of. simpl. rewrite drop_0. apply Hrt.
  - intros b bs Hb. unfold fields_of. simpl. by rewrite Hb.
Qed.

(** Byte strings as values: two messages, split in three reads. *)
#[local] Instance text_type : JsonValue bytes := object_type id Ok.

Lemma json_stream_roundtrip_witness :
  json_decode_all 3 NewDecoder (Conn [[10; 123]; [2; 7; 8; 10; 123; 1]; [9; 10]] EOF) =
    Some ([[7; 8]; [9]], EOF) ∧
  json_decode_all 3 NewDecoder (Conn [[10; 123; 2; 7; 8; 10; 123; 1; 9]; [10; 123; 3; 5]] EOF) =
    Some ([[7; 8]; [9]], ErrUnexpectedEOF).
Proof.
  assert (@JsonLaws bytes sample_scanner text_type) as Hlaws by by apply object_type_laws.
  assert (json_encode_all [[7; 8]; [9]] = Ok [123; 2; 7; 8; 10; 123; 1; 9; 10]) as Henc by reflexivity.
  split.
  - apply (proj1 (json_stream_roundtrip [[7; 8]; [9]] _ [10] Henc eq_refl)). reflexivity.
  - apply (proj2 (json_stream_roundtrip [[7; 8]; [9]] _ [10] Henc eq_refl)) with (v := [5; 6; 4]) (cut := [123; 3; 5]) (more := [6; 4]);
      [reflexivity|congruence|vm_compute; congruence|reflexivity].
Defined.
End SampleText.
