(* ===== verification/Handshake.v ===== *)
(** * Registration of an extension

    The client side ([NewClient], client.go: the register message and the address to dial) and
    the server side ([validateConnection], server/conn_base.go), which speak JSON with each other
    whatever codec the session will use. *)
From S2P Require Import Prelude Varint Codec Proto StdJson.

Set Default Proof Using "Type".

(** The types sent as JSON. *)
Class JsonAPI := {
  json_scanner :: JsonScanner;
  json_msg :: JsonValue Msg;
  json_reg :: JsonValue RegisterMsg;
}.

(** A register message comes back with its name as JSON has it. *)
Class RegisterLaws `{!JsonAPI} : Prop := {
  register_scan :: JsonScannerLaws;
  register_msg :: JsonLaws Msg;
  register_reg name kind codec bs :
    json_Marshal (MkRegisterMsg name kind codec) = Ok bs →
    json_Unmarshal bs = Ok (MkRegisterMsg (json_string name) kind codec);
}.

Section handshake.
Context `{!JsonAPI, !ArhatPb}.

(** ** Client: NewClient *)

Record URL : Type := MkURL { Scheme : string; Host : string; Path : string }.

Record Client : Type := MkClient {
  client_codec : Z;
  client_regMsg : bytes;
  client_network : string;
  client_addr : string;
}.

Context (url_Parse : string → result URL).
Context (goos : string).

(** The address passed to Dial. *)
Definition client_dial_addr (u : URL) : string * string :=
  let network := ToLower (Scheme u) in
  if String.eqb network "pipe" then
    if String.eqb goos "windows" then
      let '(host, path) := if String.eqb (Path u) "" then (".", Host u) else (Host u, Path u) in
      (network, "\\" +:+ host +:+ "\pipe\" +:+ path)%string
    else (network, Path u)
  else (network, (Host u +:+ Path u)%string).

Definition NewClient {I} (registry : gmap Z I) (kind : Z) (name : string) (codec_Type : Z)
    (endpointURL : string) : result Client :=
  match url_Parse endpointURL with
  | Err e => Err (wrapError "invalid endpoint url" e)
  | Ok u =>
      match Get registry CODEC_JSON with
      | None => Err (errorString "json codec required but not found")
      | Some _ =>
          match NewMsg json_Marshal MSG_REGISTER 0 0
                  (MkRegisterMsg name kind codec_Type) with
          | Err e => Err (wrapError "failed to create register message" e)
          | Ok regMsg =>
              match json_Encode regMsg with
              | Err e => Err (wrapError "failed to marshal register message" e)
              | Ok regMsgBuf =>
                  let '(network, addr) := client_dial_addr u in
                  Ok (MkClient codec_Type regMsgBuf network addr)
              end
          end
      end
  end.

(** ** Server: validateConnection *)

Context (codec_String : Z → string).   (* regMsg.Codec.String() *)

(** The result and the connection as HandleStream gets it. *)
Definition validateConnection {I} (registry : gmap Z I) (c : conn)
  : result (Z * string * I) * conn :=
  match Get registry CODEC_JSON with
  | None => (Err (errorString "json codec not found"), c)
  | Some _ =>
      let '(res, _, c) := decoder_Decode NewDecoder c in
      match res with
      | Err e => (Err (wrapError "invalid initial message" e), c)
      | Ok initialMsg =>
          if bool_decide (msg_Kind initialMsg ≠ MSG_REGISTER)
          then (Err (errorString "initial message is not register message"), c)
          else
            match json_Unmarshal (msg_Payload initialMsg) with
            | Err e => (Err (wrapError "failed to unmarshal register message" e), c)
            | Ok regMsg =>
                match Get registry (reg_Codec regMsg) with
                | None =>
                    (Err (errorString ("codec " +:+ Quote (codec_String (reg_Codec regMsg)) +:+
                            " not supported")), c)
                | Some codec => (Ok (reg_ExtensionType regMsg, reg_Name regMsg, codec), c)
                end
            end
      end
  end.

(** ** Properties *)

Lemma NewClient_regMsg {I} (registry : gmap Z I) kind name ct url cl :
  NewClient registry kind name ct url = Ok cl →
  ∃ payload j, json_Marshal (MkRegisterMsg name kind ct) = Ok payload ∧
    json_Marshal (MkMsg MSG_REGISTER 0 0 payload) = Ok j ∧
    client_regMsg cl = j ++ [10] ∧ is_Some (Get registry CODEC_JSON).
Proof.
  unfold NewClient, NewMsg, json_Encode. intros Hnew. split_step Hnew.
  all: destruct (json_Marshal (V := RegisterMsg) _) as [payload|] eqn:Hp; simplify_eq/=.
  all: destruct (json_Marshal (V := Msg) _) as [j|] eqn:Hj; simplify_eq/=.
  all: eauto 10.
Qed.


(** Finding.  The decoder that reads the register message is dropped together with what it
    has read ahead: bytes that arrive in the same read as the end of the register message never
    reach the session, and when a read ends between the JSON value and the newline the client
    sends after it, that newline is the first byte of the session's stream. *)
Theorem handshake_drops_pipelined `{!RegisterLaws} {I} (registry : gmap Z I) kind name ct url cl
    codec e :
  NewClient registry kind name ct url = Ok cl → Get registry ct = Some codec →
  (∀ extra later,
    validateConnection registry (Conn ((client_regMsg cl ++ extra) :: later) e) =
      (Ok (kind, json_string name, codec), Conn later e)) ∧
  (∃ value, client_regMsg cl = value ++ [10] ∧ ∀ frames later,
    validateConnection registry (Conn (value :: ([10] ++ frames) :: later) e) =
      (Ok (kind, json_string name, codec), Conn (([10] ++ frames) :: later) e)).
Proof.
  intros (payload & j & Hp & Hj & Hreg & [jc Hjc])%NewClient_regMsg Hct.
  assert (∀ extra later, validateConnection registry (Conn ((j ++ extra) :: later) e) =
    (Ok (kind, json_string name, codec), Conn later e)) as Hval.
  { intros extra later. unfold validateConnection. rewrite Hjc. unfold decoder_Decode. simpl.
    pose proof (json_Decode_complete [] _ j extra later e eq_refl Hj) as Hd. simpl in Hd.
    rewrite json_scan_nil, Hd. simpl.
    rewrite bool_decide_false by (by intros []).
    erewrite register_reg by done. simpl. by rewrite Hct. }
  rewrite Hreg. split.
  - intros extra later. by rewrite <-app_assoc, Hval.
  - exists j. split; [done|]. intros frames later.
    rewrite <-(app_nil_r j) at 1. apply Hval.
Qed.

(** Soundness of the handshake: whatever the peer sends, a connection is accepted only with
    an initial message of the register kind whose payload names a codec that is registered, and
    the session runs with exactly that codec and the announced kind and name. *)
Theorem validateConnection_sound {I} (registry : gmap Z I) c kind name codec c' :
  validateConnection registry c = (Ok (kind, name, codec), c') →
  ∃ m r, fst (fst (decoder_Decode NewDecoder c)) = Ok m ∧
    msg_Kind m = MSG_REGISTER ∧ json_Unmarshal (msg_Payload m) = Ok r ∧
    reg_ExtensionType r = kind ∧ reg_Name r = name ∧ Get registry (reg_Codec r) = Some codec.
Proof.
  unfold validateConnection. intros Hval.
  destruct (Get registry CODEC_JSON); [|done].
  destruct (decoder_Decode NewDecoder c) as [[[m|] ex] ch]; [|done].
  simpl in *. case_bool_decide as Hk; [done|].
  destruct (json_Unmarshal (msg_Payload m)) as [r|] eqn:Hr; [|done].
  destruct (Get registry (reg_Codec r)) eqn:Hg; simplify_eq/=.
  exists m, r. by repeat split.
Qed.
End handshake.

(** ** A concrete text format *)

Module SampleJson.
Import SampleText.

Definition msg_fields (m : Msg) : bytes := [msg_Kind m; msg_Id m; msg_Ack m] ++ msg_Payload m.
Definition fields_msg (bs : bytes) : result Msg :=
  match bs with
  | k :: i :: a :: p => Ok (MkMsg k i a p)
  | _ => Err (errorString "unexpected end of JSON input")
  end.

Definition reg_fields (r : RegisterMsg) : bytes :=
  [reg_ExtensionType r; reg_Codec r] ++
  to_utf8 0 (string_bytes (reg_Name r)).
Definition fields_reg (bs : bytes) : result RegisterMsg :=
  match bs with
  | k :: c :: n =>
      Ok (MkRegisterMsg (bytes_string n) k c)
  | _ => Err (errorString "unexpected end of JSON input")
  end.

#[export] Instance sample_json : JsonAPI := {|
  json_msg := object_type msg_fields fields_msg;
  json_reg := object_type reg_fields fields_reg;
|}.

#[export] Instance sample_json_laws : RegisterLaws.
Proof.
  split; [apply _|apply object_type_laws; by intros []|]. by intros name kind codec ? [= <-].
Qed.
End SampleJson.

(** ** The handshake on concrete inputs *)

Section witnesses.
Import SampleJson.
#[local] Existing Instance sample_pb.

Definition sample_url (_ : string) : result URL := Ok (MkURL "TCP" "hub:65000" "").
Definition sample_registry : gmap Z string := register_all [(1, "stdjson"); (2, "gogoprotobuf")].
Definition sample_client : Client :=
  MkClient 2 [123; 10; 1; 0; 0; 123; 5; 7; 2; 102; 111; 111; 10] "tcp" "hub:65000".

Lemma sample_NewClient :
  NewClient sample_url "linux" sample_registry 7 "foo" 2 "TCP://hub:65000" = Ok sample_client.
Proof. vm_compute. reflexivity. Qed.


Lemma handshake_drops_pipelined_witness :
  (∀ extra later,
    validateConnection (λ _, EmptyString) sample_registry
      (Conn ((client_regMsg sample_client ++ extra) :: later) EOF) =
      (Ok (7, json_string "foo", "gogoprotobuf"), Conn later EOF)) ∧
  (∃ value, client_regMsg sample_client = value ++ [10] ∧ ∀ frames later,
    validateConnection (λ _, EmptyString) sample_registry
      (Conn (value :: ([10] ++ frames) :: later) EOF) =
      (Ok (7, json_string "foo", "gogoprotobuf"), Conn (([10] ++ frames) :: later) EOF)).
Proof.
  eapply (handshake_drops_pipelined sample_url "linux") with (ct := 2).
  - apply _.
  - apply sample_NewClient.
  - vm_compute. reflexivity.
Defined.

Lemma validateConnection_sound_witness :
  ∃ m r, fst (fst (decoder_Decode NewDecoder (Conn [client_regMsg sample_client] EOF))) = Ok m ∧
    msg_Kind m = MSG_REGISTER ∧ json_Unmarshal (msg_Payload m) = Ok r ∧
    reg_ExtensionType r = 7 ∧ reg_Name r = "foo" ∧
    Get sample_registry (reg_Codec r) = Some "gogoprotobuf".
Proof.
  apply (validateConnection_sound (λ _, EmptyString) sample_registry
           (Conn [client_regMsg sample_client] EOF) 7 "foo" "gogoprotobuf" (Conn [] EOF)).
  vm_compute. reflexivity.
Defined.
End witnesses.
