(* ===== verification/Server.v ===== *)
(** * The extension hub's server (server/server.go)

    Creation from a configuration ([NewServer]), routing of extensions to handlers ([Handle],
    [handleNewConn]) and the session parameters.  Name resolution and URL parsing are
    parameters; extension managers are identified by their position in the list of managers
    that were created, as pointers are. *)
From S2P Require Import Prelude Codec Proto Handshake.

Set Default Proof Using "Type".

Definition Millisecond : Z := 1000000.
Definition Minute : Z := 60000000000.

Record EndpointConfig (TLS : Type) : Type := MkEndpoint {
  ep_Listen : string;
  ep_TLS : option TLS;
  ep_KeepaliveInterval : Z;
  ep_MessageTimeout : Z;
}.
Arguments MkEndpoint {TLS} _ _ _ _.
Arguments ep_Listen {TLS} _.
Arguments ep_TLS {TLS} _.
Arguments ep_KeepaliveInterval {TLS} _.
Arguments ep_MessageTimeout {TLS} _.

(** [net.Addr] *)
Record Addr : Type := MkAddr { addr_Network : string; addr_String : string }.

Definition addr_key (a : Addr) : string := addr_Network a +:+ "://" +:+ addr_String a.

(** Which constructor made a connection manager. *)
Inductive mgr_kind : Type := StreamManager | PacketManager.

Record connectionManager (TLS : Type) : Type := MkConnMgr {
  cm_kind : mgr_kind;
  cm_addr : Addr;
  cm_tls : option TLS;
}.
Arguments MkConnMgr {TLS} _ _ _.
Arguments cm_kind {TLS} _.
Arguments cm_addr {TLS} _.
Arguments cm_tls {TLS} _.

(** [ExtensionManager] without its context and logger; [F] is the type of handle func
    factories. *)
Record ExtensionManager (F : Type) : Type := MkExtMgr {
  createHandleFunc : F;
  registeredExtensions : gset string;
}.
Arguments MkExtMgr {F} _ _.
Arguments createHandleFunc {F} _.
Arguments registeredExtensions {F} _.

Definition NewExtensionManager {F} (handleFuncFactory : F) : ExtensionManager F :=
  MkExtMgr handleFuncFactory ∅.

(** [extensionKey]: the kind and the name. *)
Abbreviation extensionKey := (Z * string)%type.

Record Server (TLS F : Type) : Type := MkServer {
  connectionConfig : gmap string (EndpointConfig TLS);
  connectionManagers : list (connectionManager TLS);
  extensionManagers : gmap extensionKey nat;
  managers : list (ExtensionManager F);   (* every manager made, by pointer *)
}.
Arguments MkServer {TLS F} _ _ _ _.
Arguments connectionConfig {TLS F} _.
Arguments connectionManagers {TLS F} _.
Arguments extensionManagers {TLS F} _.
Arguments managers {TLS F} _.

(** ** NewServer *)

Section new_server.
Context {TLS F : Type}.
Context (url_Parse : string → result URL).
Context (goos : string).
Context (net_ResolveTCPAddr net_ResolveUDPAddr net_ResolveUnixAddr : string → string → result Addr).
Context (PipeAddr : string → Addr).

(** The [switch] over the scheme: the constructor and the resolved address, [None] for a
    scheme that is not supported. *)
Definition resolve_listen (u : URL) : option (mgr_kind * result Addr) :=
  let s := ToLower (Scheme u) in
  if bool_decide (s ∈ ["tcp"; "tcp4"; "tcp6"]) then
    Some (StreamManager, net_ResolveTCPAddr s (Host u))
  else if bool_decide (s ∈ ["udp"; "udp4"; "udp6"]) then
    Some (PacketManager, net_ResolveUDPAddr s (Host u))
  else if bool_decide (s = "unix") then
    Some (StreamManager, net_ResolveUnixAddr s (Path u))
  else if bool_decide (s = "pipe") then
    Some (StreamManager,
      Ok (if bool_decide (goos = "windows")
          then PipeAddr ("\\.\pipe\" +:+ Host u +:+ Path u)
          else PipeAddr (Path u)))
  else None.

(** One iteration of the loop over the endpoints. *)
Definition add_endpoint (s : Server TLS F) (ep : EndpointConfig TLS) : result (Server TLS F) :=
  match url_Parse (ep_Listen ep) with
  | Err e => Err (wrapError "invalid listen url" e)
  | Ok u =>
      match resolve_listen u with
      | None => Err (errorString ("unsupported protocol " +:+ Quote (Scheme u)))
      | Some (_, Err e) =>
          Err (wrapError ("failed to resolve " +:+ Scheme u +:+ " listen address") e)
      | Some (k, Ok addr) =>
          Ok (MkServer (<[addr_key addr := ep]> (connectionConfig s))
                       (connectionManagers s ++ [MkConnMgr k addr (ep_TLS ep)])
                       (extensionManagers s) (managers s))
      end
  end.

Fixpoint add_endpoints (s : Server TLS F) (eps : list (EndpointConfig TLS))
  : result (Server TLS F) :=
  match eps with
  | [] => Ok s
  | ep :: eps => s ← add_endpoint s ep; add_endpoints s eps
  end.

Definition NewServer (endpoints : list (EndpointConfig TLS)) : result (Server TLS F) :=
  if bool_decide (length endpoints = 0%nat)
  then Err (errorString "must provide at least one listen url")
  else add_endpoints (MkServer ∅ [] ∅ []) endpoints.

Lemma add_endpoint_Ok s ep s' :
  add_endpoint s ep = Ok s' →
  ∃ u k addr, url_Parse (ep_Listen ep) = Ok u ∧ resolve_listen u = Some (k, Ok addr) ∧
    s' = MkServer (<[addr_key addr := ep]> (connectionConfig s))
           (connectionManagers s ++ [MkConnMgr k addr (ep_TLS ep)])
           (extensionManagers s) (managers s).
Proof. unfold add_endpoint. intros Hadd. split_step Hadd. eauto 10. Qed.

(** The manager [cm] listens where the endpoint says. *)
Definition listens (ep : EndpointConfig TLS) (cm : connectionManager TLS) : Prop :=
  cm_tls cm = ep_TLS ep ∧ ∃ u, url_Parse (ep_Listen ep) = Ok u ∧
    resolve_listen u = Some (cm_kind cm, Ok (cm_addr cm)).

(** Every connection manager has a configuration, which is one of the endpoints that resolve
    to its address. *)
Definition configured (eps : list (EndpointConfig TLS)) (s : Server TLS F) : Prop :=
  Forall2 listens eps (connectionManagers s) ∧
  ∀ cm, cm ∈ connectionManagers s → ∃ ep cm', ep ∈ eps ∧ listens ep cm' ∧
    addr_key (cm_addr cm') = addr_key (cm_addr cm) ∧
    connectionConfig s !! addr_key (cm_addr cm) = Some ep.

Lemma configured_add eps s ep s' :
  configured eps s → add_endpoint s ep = Ok s' → configured (eps ++ [ep]) s'.
Proof.
  intros [Hl Hc] (u & k & addr & Hu & Hr & ->)%add_endpoint_Ok.
  assert (listens ep (MkConnMgr k addr (ep_TLS ep))) as Hnew by (split; eauto).
  split; [by apply Forall2_app; [|constructor]|]. simpl. intros cm Hcm.
  rewrite lookup_insert. case_decide as Hkey.
  { exists ep. eexists. split; [set_solver|]. split; [exact Hnew|]. done. }
  apply elem_of_app in Hcm as [Hcm|Hcm].
  - destruct (Hc cm Hcm) as (ep' & cm' & ? & ? & ? & ?).
    exists ep', cm'. split; [set_solver|]. done.
  - apply list_elem_of_singleton in Hcm. by subst.
Qed.

Lemma configured_add_endpoints eps0 s0 eps s :
  configured eps0 s0 → add_endpoints s0 eps = Ok s →
  configured (eps0 ++ eps) s ∧ extensionManagers s = extensionManagers s0.
Proof.
  revert eps0 s0. induction eps as [|ep eps IH]; intros eps0 s0 Hc Hadd; simplify_eq/=.
  { by rewrite app_nil_r. }
  destruct (add_endpoint s0 ep) as [s1|] eqn:E; simplify_eq/=.
  destruct (IH (eps0 ++ [ep]) s1) as [Hc' He]; [by eapply configured_add|done|].
  rewrite <-app_assoc in Hc'. split; [done|]. rewrite He.
  by apply add_endpoint_Ok in E as (? & ? & ? & ? & ? & ->).
Qed.

Lemma NewServer_configured eps s :
  NewServer eps = Ok s → configured eps s ∧ extensionManagers s = ∅.
Proof.
  unfold NewServer. case_bool_decide; [done|]. intros Hadd.
  apply (configured_add_endpoints []) in Hadd as [? ->]; [done|].
  split; [constructor|]. intros cm Hcm. by apply elem_of_nil in Hcm.
Qed.

Lemma NewServer_fresh eps s : NewServer eps = Ok s → managers s = [].
Proof.
  unfold NewServer. case_bool_decide; [done|]. change (@nil (ExtensionManager F)) with (managers (MkServer (TLS := TLS) (F := F) ∅ [] ∅ [])) at 2.
  generalize (MkServer (TLS := TLS) (F := F) ∅ [] ∅ []). clear. induction eps as [|ep eps IH]; intros s0 Hadd; simplify_eq/=; [done|].
  destruct (add_endpoint s0 ep) as [s1|] eqn:E; simplify_eq/=. rewrite (IH _ Hadd).
  by apply add_endpoint_Ok in E as (? & ? & ? & ? & ? & ->).
Qed.

End new_server.

(** ** Handle and routing *)

Section routing.
Context {TLS F : Type}.
Implicit Types s : Server TLS F.

(** The loop over the names: it returns at the first empty one. *)
Fixpoint register_names (kind : Z) (mgr : nat) (names : list string)
    (m : gmap extensionKey nat) : gmap extensionKey nat :=
  match names with
  | [] => m
  | name :: names =>
      if bool_decide (name = "") then m
      else register_names kind mgr names (<[(kind, name) := mgr]> m)
  end.

Definition Handle (s : Server TLS F) (kind : Z) (handleFactory : F) (extensions : list string)
  : Server TLS F :=
  let mgr := length (managers s) in
  let mgrs := managers s ++ [NewExtensionManager handleFactory] in
  let m := register_names kind mgr extensions (extensionManagers s) in
  let m :=
    if bool_decide (length extensions = 0%nat) then
      let toRemove := filter (λ k : extensionKey, k.1 = kind) (map_to_list m).*1 in
      <[(kind, "") := mgr]> (foldl (λ m k, delete k m) m toRemove)
    else m in
  MkServer (connectionConfig s) (connectionManagers s) m mgrs.

#[local] Arguments Handle : simpl never.

(** The manager for an extension: the one for its name, or the general one of its kind. *)
Definition find_manager (s : Server TLS F) (kind : Z) (name : string) : option nat :=
  match extensionManagers s !! (kind, name) with
  | Some mgr => Some mgr
  | None => extensionManagers s !! (kind, "")
  end.

Definition normalize (d : Z) : Z :=
  let d := if d =? 0 then Minute else d in
  if d <? Millisecond then Millisecond else d.

(** The names a call of Handle takes into account: those before the first empty one. *)
Fixpoint effective (names : list string) : list string :=
  match names with
  | [] => []
  | name :: names => if bool_decide (name = "") then [] else name :: effective names
  end.

Lemma effective_nonempty names : "" ∉ effective names.
Proof.
  induction names as [|n names IH]; simpl; [set_solver|].
  case_bool_decide; [set_solver|]. set_solver.
Qed.

Lemma register_names_lookup kind mgr names m k n :
  register_names kind mgr names m !! (k, n) =
    if bool_decide (k = kind ∧ n ∈ effective names) then Some mgr else m !! (k, n).
Proof.
  revert m. induction names as [|x names IH]; intros m; simpl.
  { rewrite bool_decide_false by set_solver. done. }
  destruct (decide (x = "")) as [Hx|Hx].
  - rewrite (bool_decide_true (x = "")) by done. by rewrite bool_decide_false by set_solver.
  - rewrite (bool_decide_false (x = "")), IH, lookup_insert by done.
    repeat case_bool_decide; repeat case_decide; set_solver.
Qed.

Lemma foldl_delete_lookup (ks : list extensionKey) (m : gmap extensionKey nat) j :
  foldl (λ m k, delete k m) m ks !! j = if bool_decide (j ∈ ks) then None else m !! j.
Proof.
  revert m. induction ks as [|k ks IH]; intros m; simpl.
  { done. }
  rewrite IH, lookup_delete. repeat case_bool_decide; repeat case_decide; set_solver.
Qed.

Lemma elem_of_kind_keys (kind : Z) (m : gmap extensionKey nat) (k : Z) (n : string) :
  (k, n) ∈ filter (λ k : extensionKey, k.1 = kind) (map_to_list m).*1 ↔
    k = kind ∧ is_Some (m !! (k, n)).
Proof.
  rewrite list_elem_of_filter, list_elem_of_fmap. simpl. split.
  - intros [-> ([? v] & -> & Hin%elem_of_map_to_list)]. eauto.
  - intros [-> [v Hv]]. split; [done|]. exists (kind, n, v).
    by rewrite elem_of_map_to_list.
Qed.

(** A call of Handle: kind, factory, extension names. *)
Definition handle_call : Type := Z * F * list string.

Definition do_Handle (s : Server TLS F) (c : handle_call) : Server TLS F :=
  let '(kind, f, names) := c in Handle s kind f names.

(** A call covers an extension when it names it, or names nothing and is for its kind. *)
Definition covers (c : handle_call) (kind : Z) (name : string) : bool :=
  let '(k, _, names) := c in
  bool_decide (k = kind ∧ (names = [] ∨ name ∈ effective names)).

(** The abstract routing policy: the newest call that covers the extension decides. *)
Definition policy (calls : list handle_call) (kind : Z) (name : string) : option F :=
  foldl (λ acc c, if covers c kind name then Some c.1.2 else acc) None calls.

(** The factory whose handle func a new connection gets. *)
Definition resolve (s : Server TLS F) (kind : Z) (name : string) : option F :=
  mgr ← find_manager s kind name; createHandleFunc <$> managers s !! mgr.

(** Every manager in the routing table exists. *)
Definition routing_wf (s : Server TLS F) : Prop :=
  ∀ k mgr, extensionManagers s !! k = Some mgr → (mgr < length (managers s))%nat.

Lemma Handle_lookup s kind f names k n :
  extensionManagers (Handle s kind f names) !! (k, n) =
    if bool_decide (k = kind ∧ n ∈ effective names) then Some (length (managers s))
    else if bool_decide (names = [] ∧ k = kind)
         then if bool_decide (n = "") then Some (length (managers s)) else None
         else extensionManagers s !! (k, n).
Proof.
  unfold Handle. simpl. destruct names as [|x names].
  - rewrite bool_decide_true by done.
    rewrite (bool_decide_false (_ ∧ n ∈ _)) by set_solver.
    rewrite lookup_insert, foldl_delete_lookup. simpl.
    case_decide as Hk; [simplify_eq; by rewrite !bool_decide_true|].
    destruct (decide (k = kind)) as [->|Hne].
    + rewrite (bool_decide_true ([] = [] ∧ _)), (bool_decide_false (n = "")) by naive_solver.
      case_bool_decide as Hin; [done|].
      apply eq_None_not_Some. intros Hs. apply Hin. by apply elem_of_kind_keys.
    + rewrite (bool_decide_false ([] = [] ∧ _)), bool_decide_false; [done| |naive_solver].
      by intros [? _]%elem_of_kind_keys.
  - rewrite bool_decide_false, register_names_lookup by done.
    rewrite (bool_decide_false ((_ :: _) = [] ∧ _)) by naive_solver. done.
Qed.

Lemma find_manager_Handle s c kind name :
  find_manager (do_Handle s c) kind name =
    if covers c kind name then Some (length (managers s)) else find_manager s kind name.
Proof.
  destruct c as [[k f] names]. unfold find_manager, covers, do_Handle.
  pose proof (effective_nonempty names) as Hne. rewrite !Handle_lookup.
  rewrite (bool_decide_false (kind = k ∧ "" ∈ _)) by naive_solver.
  rewrite (bool_decide_true ("" = "")) by done.
  repeat case_bool_decide; naive_solver.
Qed.

Lemma routing_wf_Handle s c : routing_wf s → routing_wf (do_Handle s c).
Proof.
  destruct c as [[k f] names]. intros Hwf [k' n'] mgr. unfold do_Handle. rewrite Handle_lookup.
  unfold Handle. cbn [managers]. rewrite length_app. simpl. intros H. repeat case_bool_decide; simplify_eq; try lia.
  apply Hwf in H. lia.
Qed.

Lemma resolve_Handle s c kind name :
  routing_wf s →
  resolve (do_Handle s c) kind name =
    if covers c kind name then Some c.1.2 else resolve s kind name.
Proof.
  intros Hwf. unfold resolve. rewrite find_manager_Handle.
  destruct c as [[k f] names]. unfold do_Handle, Handle. cbn [managers fst snd]. case_match.
  - simpl. by rewrite lookup_app_r, Nat.sub_diag by lia.
  - destruct (find_manager s kind name) as [mgr|] eqn:E; [|done]. simpl.
    rewrite lookup_app_l; [done|]. unfold find_manager in E. case_match; simplify_eq; eauto.
Qed.

Lemma resolve_policy s calls kind name :
  extensionManagers s = ∅ →
  routing_wf (foldl do_Handle s calls) ∧
  resolve (foldl do_Handle s calls) kind name = policy calls kind name.
Proof.
  intros Hs. induction calls as [|c calls [Hwf IH]] using rev_ind.
  - simpl. split; [intros k mgr; by rewrite Hs|].
    unfold resolve, find_manager. simpl. by rewrite Hs.
  - unfold policy. rewrite !foldl_app. simpl. split; [by apply routing_wf_Handle|].
    rewrite resolve_Handle by done. by rewrite IH.
Qed.

Lemma normalize_spec d :
  Millisecond ≤ normalize d ∧ (Millisecond ≤ d → normalize d = d) ∧
  (d = 0 → normalize d = Minute) ∧ (d ≠ 0 → d < Millisecond → normalize d = Millisecond).
Proof.
  unfold normalize, Millisecond, Minute.
  destruct (Z.eqb_spec d 0), (Z.ltb_spec d 1000000); subst; simpl; lia.
Qed.

Lemma connection_fields_foldl s calls :
  connectionConfig (foldl do_Handle s calls) = connectionConfig s ∧
  connectionManagers (foldl do_Handle s calls) = connectionManagers s.
Proof.
  revert s. induction calls as [|[[k f] names] calls IH]; intros s; [done|].
  simpl. destruct (IH (Handle s k f names)) as [-> ->]. done.
Qed.

End routing.

(** ** New connections *)

Section new_connections.
Context {TLS F : Type}.
Implicit Types s : Server TLS F.
Context (kind_String : Z → string).   (* kind.String() *)

(** What [HandleStream] is called with: the manager, the keepalive interval and the message
    timeout. *)
Definition handleNewConn (s : Server TLS F) (listenAddr : Addr) (kind : Z) (name : string)
  : result (nat * Z * Z) :=
  match find_manager s kind name with
  | None => Err (errorString ("no handler for " +:+ kind_String kind))
  | Some mgr =>
      match connectionConfig s !! addr_key listenAddr with
      | None => Err (errorString "endpoint config not found")
      | Some ec =>
          Ok (mgr, normalize (ep_KeepaliveInterval ec), normalize (ep_MessageTimeout ec))
      end
  end.

(** Session parameters: whatever is configured (zero and negative durations included),
    the keepalive interval and the message timeout a session runs with are at least a
    millisecond, are the configured ones when these are, and default to a minute. *)
Theorem session_parameters s addr kind name mgr keepalive timeout :
  handleNewConn s addr kind name = Ok (mgr, keepalive, timeout) →
  ∃ ec, connectionConfig s !! addr_key addr = Some ec ∧
    Millisecond ≤ keepalive ∧ Millisecond ≤ timeout ∧
    (Millisecond ≤ ep_KeepaliveInterval ec → keepalive = ep_KeepaliveInterval ec) ∧
    (Millisecond ≤ ep_MessageTimeout ec → timeout = ep_MessageTimeout ec) ∧
    (ep_KeepaliveInterval ec = 0 → keepalive = Minute) ∧
    (ep_MessageTimeout ec = 0 → timeout = Minute).
Proof.
  unfold handleNewConn. intros Hh. split_step Hh.
  pose proof (normalize_spec (ep_KeepaliveInterval e)).
  pose proof (normalize_spec (ep_MessageTimeout e)). exists e. tauto.
Qed.
End new_connections.

Section served.
Context {TLS F : Type}.
Context (url_Parse : string → result URL) (goos : string).
Context (net_ResolveTCPAddr net_ResolveUDPAddr net_ResolveUnixAddr : string → string → result Addr).
Context (PipeAddr : string → Addr) (kind_String : Z → string).

Local Abbreviation NewServer :=
  (NewServer url_Parse goos net_ResolveTCPAddr net_ResolveUDPAddr net_ResolveUnixAddr PipeAddr).
Local Abbreviation listens :=
  (listens url_Parse goos net_ResolveTCPAddr net_ResolveUDPAddr net_ResolveUnixAddr PipeAddr).
Local Abbreviation handleNewConn := (handleNewConn kind_String).

(** C16. Routing refines the abstract policy: after any sequence of Handle calls on a new
    server, the handle func factory an extension is given is that of the newest call that
    covers it (names it before any empty name, or names nothing and has its kind), and there is
    none exactly when no call covers it. *)
Theorem routing_refines_policy eps (s : Server TLS F) calls kind name :
  NewServer eps = Ok s →
  resolve (foldl do_Handle s calls) kind name = policy calls kind name.
Proof. intros [_ Hs]%NewServer_configured. by apply resolve_policy. Qed.

(** Accepted connections are served: on a server made from a configuration, a connection
    that one of its own connection managers hands over is refused only when no Handle call
    covers the extension, and otherwise reaches the manager of the newest covering call, with
    the session parameters of an endpoint that resolves to the listen address.  In particular
    the error that the endpoint configuration is missing cannot occur. *)
Theorem new_connection_served eps (s : Server TLS F) calls cm kind name :
  NewServer eps = Ok s → cm ∈ connectionManagers s →
  let s' := foldl do_Handle s calls in
  match policy calls kind name with
  | None => handleNewConn s' (cm_addr cm) kind name =
              Err (errorString ("no handler for " +:+ kind_String kind))
  | Some f => ∃ mgr ep cm', createHandleFunc <$> managers s' !! mgr = Some f ∧
      ep ∈ eps ∧ listens ep cm' ∧ addr_key (cm_addr cm') = addr_key (cm_addr cm) ∧
      handleNewConn s' (cm_addr cm) kind name =
        Ok (mgr, normalize (ep_KeepaliveInterval ep), normalize (ep_MessageTimeout ep))
  end.
Proof.
  intros [[_ Hc] Hs]%NewServer_configured Hcm. simpl.
  destruct (resolve_policy s calls kind name Hs) as [Hwf Hres].
  destruct (connection_fields_foldl s calls) as [Hcfg _].
  destruct (Hc cm Hcm) as (ep & cm' & ? & ? & ? & Hep).
  unfold resolve in Hres. unfold handleNewConn. rewrite Hcfg, Hep.
  destruct (find_manager _ kind name) as [mgr|] eqn:Hf; simpl in Hres.
  - assert (is_Some (managers (foldl do_Handle s calls) !! mgr)) as [em Hem].
    { apply lookup_lt_is_Some. unfold find_manager in Hf. case_match; simplify_eq; eauto. }
    rewrite Hem in Hres. simpl in Hres. rewrite <-Hres.
    exists mgr, ep, cm'. by rewrite Hem.
  - by rewrite <-Hres.
Qed.

End served.

(** ** The server on concrete inputs *)

Section witnesses.
Definition sample_listen (l : string) : result URL :=
  if String.eqb l "" then Err (errorString "empty url") else Ok (MkURL "tcp" l "").
Definition sample_resolve (network host : string) : result Addr := Ok (MkAddr network host).
Definition sample_endpoints : list (EndpointConfig unit) :=
  [MkEndpoint "localhost:0" None 0 5000000; MkEndpoint "localhost:1" (Some tt) 7 (-1)].
Definition sample_calls : list (handle_call (F := string)) :=
  [(1, "old", []); (1, "named", ["foo"; ""; "bar"]); (2, "other", [])].
Definition sample_NewServer : result (Server unit string) :=
  NewServer sample_listen "linux" sample_resolve sample_resolve sample_resolve
    (MkAddr "pipe") sample_endpoints.
Definition sample_server : Server unit string :=
  match sample_NewServer with Ok s => s | Err _ => MkServer ∅ [] ∅ [] end.

Lemma sample_NewServer_Ok : sample_NewServer = Ok sample_server.
Proof. reflexivity. Qed.

Lemma routing_refines_policy_witness :
  resolve (foldl do_Handle sample_server sample_calls) 1 "foo" = Some "named" ∧
  resolve (foldl do_Handle sample_server sample_calls) 1 "bar" = Some "old" ∧
  resolve (foldl do_Handle sample_server sample_calls) 3 "foo" = None.
Proof.
  split_and!; (erewrite routing_refines_policy; [reflexivity|apply sample_NewServer_Ok]).
Defined.

Lemma new_connection_served_witness :
  let s' := foldl do_Handle sample_server sample_calls in
  match policy sample_calls 1 "foo" with
  | None => handleNewConn (λ _, EmptyString) s' (MkAddr "tcp" "localhost:1") 1 "foo" =
              Err (errorString "no handler for ")
  | Some f => ∃ mgr ep cm', createHandleFunc <$> managers s' !! mgr = Some f ∧
      ep ∈ sample_endpoints ∧
      listens sample_listen "linux" sample_resolve sample_resolve sample_resolve
        (MkAddr "pipe") ep cm' ∧
      addr_key (cm_addr cm') = addr_key (MkAddr "tcp" "localhost:1") ∧
      handleNewConn (λ _, EmptyString) s' (MkAddr "tcp" "localhost:1") 1 "foo" =
        Ok (mgr, normalize (ep_KeepaliveInterval ep), normalize (ep_MessageTimeout ep))
  end.
Proof.
  eapply (new_connection_served) with
    (cm := MkConnMgr StreamManager (MkAddr "tcp" "localhost:1") (Some tt)) (kind := 1)
    (kind_String := λ _, EmptyString).
  { apply sample_NewServer_Ok. }
  apply list_elem_of_lookup. exists 1%nat. reflexivity.
Defined.

Lemma session_parameters_witness :
  ∃ ec, connectionConfig (foldl do_Handle sample_server sample_calls) !!
          addr_key (MkAddr "tcp" "localhost:1") = Some ec ∧
    Millisecond ≤ Millisecond ∧ Millisecond ≤ Millisecond ∧
    (Millisecond ≤ ep_KeepaliveInterval ec → Millisecond = ep_KeepaliveInterval ec) ∧
    (Millisecond ≤ ep_MessageTimeout ec → Millisecond = ep_MessageTimeout ec) ∧
    (ep_KeepaliveInterval ec = 0 → Millisecond = Minute) ∧
    (ep_MessageTimeout ec = 0 → Millisecond = Minute).
Proof.
  apply (session_parameters (λ _, EmptyString) (foldl do_Handle sample_server sample_calls)
           (MkAddr "tcp" "localhost:1") 1 "foo" 1 Millisecond Millisecond).
  vm_compute. reflexivity.
Defined.
End witnesses.
