(* ===== verification/MsgWait.v ===== *)
(** * The response slot of a command (server/extension_util.go)

    A [msgWaitValue] is a one-place channel shared by the goroutine that waits for a response,
    the receive loop that delivers it, and the timeout loop that gives up on it.  Its methods
    [send] and [close] run under a spin lock.  The model interleaves any number of calls at the
    granularity of the atomic operations; an action that would panic ends the run. *)
From S2P Require Import Prelude GoChan Proto.

Set Default Proof Using "Type".

(** Where a goroutine is in a call of [send] or [close]. *)
Inductive mw_pc : Type :=
| SAcquire (m : Msg)   (* for !CAS(&working, 0, 1) *)
| SCheck (m : Msg)     (* if atomic.LoadUint32(&closed) == 1 *)
| SSelect (m : Msg)    (* select on cancel and msgCh <- msg *)
| SRelease             (* deferred: for !CAS(&working, 1, 0) *)
| CAcquire
| CCas                 (* if CAS(&closed, 0, 1) *)
| CCloseCh             (* close(msgCh) *)
| CRelease
| MDone.

(** The struct, the goroutines in its methods, and the cancel channel. *)
Record msgWaitValue : Type := MkMW {
  mw_msgCh : chan Msg;
  mw_closed : Z;
  mw_working : Z;
  mw_cancel : bool;
  mw_calls : gmap nat mw_pc;
  mw_panic : bool;
}.

Definition newMsgWaitValue : msgWaitValue := MkMW (make_chan 1) 0 0 false ∅ false.

Inductive mw_event : Type :=
| CallSend (t : nat) (m : Msg)   (* a goroutine calls send *)
| CallClose (t : nat)            (* a goroutine calls close *)
| Run (t : nat) (cancelled : bool)  (* its next action; the select case when both are ready *)
| Cancel                         (* the cancel channel is closed *)
| Recv.                          (* the waiting goroutine receives from msgCh *)

Definition set_call (s : msgWaitValue) (t : nat) (pc : mw_pc) : msgWaitValue :=
  MkMW (mw_msgCh s) (mw_closed s) (mw_working s) (mw_cancel s) (<[t := pc]> (mw_calls s))
       (mw_panic s).

Definition set_working (s : msgWaitValue) (w : Z) : msgWaitValue :=
  MkMW (mw_msgCh s) (mw_closed s) w (mw_cancel s) (mw_calls s) (mw_panic s).

Definition set_closed (s : msgWaitValue) (c : Z) : msgWaitValue :=
  MkMW (mw_msgCh s) c (mw_working s) (mw_cancel s) (mw_calls s) (mw_panic s).

Definition set_msgCh (s : msgWaitValue) (c : chan Msg) : msgWaitValue :=
  MkMW c (mw_closed s) (mw_working s) (mw_cancel s) (mw_calls s) (mw_panic s).

Definition mw_panics (s : msgWaitValue) : msgWaitValue :=
  MkMW (mw_msgCh s) (mw_closed s) (mw_working s) (mw_cancel s) (mw_calls s) true.

(** The critical section of [do]: spin on the lock word, then continue at [next]. *)
Definition do_acquire (s : msgWaitValue) (t : nat) (next : mw_pc) : msgWaitValue :=
  if mw_working s =? 0 then set_call (set_working s 1) t next else s.

Definition do_release (s : msgWaitValue) (t : nat) : msgWaitValue :=
  if mw_working s =? 1 then set_call (set_working s 0) t MDone else s.

Definition mw_run (s : msgWaitValue) (t : nat) (cancelled : bool) (pc : mw_pc)
  : option msgWaitValue :=
  match pc with
  | SAcquire m => Some (do_acquire s t (SCheck m))
  | SCheck m => Some (set_call s t (if mw_closed s =? 1 then SRelease else SSelect m))
  | SSelect m =>
      if cancelled then if mw_cancel s then Some (set_call s t SRelease) else None
      else match chan_send m (mw_msgCh s) with
           | Sent c => Some (set_call (set_msgCh s c) t SRelease)
           | SendBlocks => None
           | SendPanics => Some (mw_panics s)
           end
  | SRelease | CRelease => Some (do_release s t)
  | CAcquire => Some (do_acquire s t CCas)
  | CCas =>
      Some (if mw_closed s =? 0 then set_call (set_closed s 1) t CCloseCh
            else set_call s t CRelease)
  | CCloseCh =>
      match chan_close (mw_msgCh s) with
      | Some c => Some (set_call (set_msgCh s c) t CRelease)
      | None => Some (mw_panics s)
      end
  | MDone => None
  end.

Definition mw_step (s : msgWaitValue) (e : mw_event) : option msgWaitValue :=
  if mw_panic s then None
  else
    match e with
    | CallSend t m =>
        match mw_calls s !! t with None => Some (set_call s t (SAcquire m)) | Some _ => None end
    | CallClose t =>
        match mw_calls s !! t with None => Some (set_call s t CAcquire) | Some _ => None end
    | Run t c => match mw_calls s !! t with Some pc => mw_run s t c pc | None => None end
    | Cancel => Some (MkMW (mw_msgCh s) (mw_closed s) (mw_working s) true (mw_calls s) (mw_panic s))
    | Recv =>
        match chan_recv (mw_msgCh s) with
        | Received _ c => Some (set_msgCh s c)
        | _ => None
        end
    end.

Abbreviation mw_reachable := (reachable mw_step (eq newMsgWaitValue)).

(** ** The lock invariant *)

Definition in_cs (pc : mw_pc) : bool :=
  match pc with
  | SCheck _ | SSelect _ | SRelease | CCas | CCloseCh | CRelease => true
  | SAcquire _ | CAcquire | MDone => false
  end.

(** The goroutine that holds the lock, if any: the lock word says whether there is one, and it
    is the only one in the critical section. *)
Definition lock_inv (s : msgWaitValue) : Prop :=
  ∃ owner : option nat,
    mw_working s = (if owner then 1 else 0) ∧
    (∀ t pc, mw_calls s !! t = Some pc → in_cs pc = bool_decide (owner = Some t)) ∧
    (∀ t, owner = Some t → is_Some (mw_calls s !! t)).

(** The channel is open until [closed] is set, and then until its setter has closed it. *)
Definition closed_inv (s : msgWaitValue) : Prop :=
  (mw_closed s = 0 ∨ mw_closed s = 1) ∧
  (mw_closed s = 0 → cclosed (mw_msgCh s) = false) ∧
  (∀ t m, mw_calls s !! t = Some (SSelect m) → mw_closed s = 0) ∧
  (∀ t, mw_calls s !! t = Some CCloseCh → mw_closed s = 1 ∧ cclosed (mw_msgCh s) = false) ∧
  (mw_closed s = 1 → cclosed (mw_msgCh s) = true ∨ ∃ t, mw_calls s !! t = Some CCloseCh).

Definition mw_inv (s : msgWaitValue) : Prop :=
  lock_inv s ∧ closed_inv s ∧ ccap (mw_msgCh s) = 1%nat ∧ mw_panic s = false.

Section lock_lemmas.
Implicit Types s : msgWaitValue.

Lemma lock_inv_ext s s' :
  mw_working s' = mw_working s → mw_calls s' = mw_calls s → lock_inv s → lock_inv s'.
Proof. unfold lock_inv. by intros -> ->. Qed.

Lemma lock_unique s t pc t' pc' :
  lock_inv s → mw_calls s !! t = Some pc → in_cs pc = true →
  mw_calls s !! t' = Some pc' → in_cs pc' = true → t = t'.
Proof.
  intros (o & _ & Hcs & _) Ht Hpc Ht' Hpc'.
  rewrite (Hcs _ _ Ht) in Hpc. rewrite (Hcs _ _ Ht') in Hpc'.
  apply bool_decide_eq_true in Hpc, Hpc'. by simplify_eq.
Qed.

Lemma lock_set_call s t pc pc' :
  lock_inv s → mw_calls s !! t = Some pc → in_cs pc' = in_cs pc → lock_inv (set_call s t pc').
Proof.
  intros (o & Hw & Hcs & Hs) Ht Heq. exists o. split_and!; [done|..]; simpl.
  - intros t' pc''. rewrite lookup_insert. case_decide; intros; simplify_eq; [|by apply Hcs].
    rewrite Heq. by apply Hcs.
  - intros t' ->. rewrite lookup_insert. case_decide; [done|]. by apply Hs.
Qed.

Lemma lock_new_call s t pc :
  lock_inv s → mw_calls s !! t = None → in_cs pc = false → lock_inv (set_call s t pc).
Proof.
  intros (o & Hw & Hcs & Hs) Ht Hpc. exists o. split_and!; [done|..]; simpl.
  - intros t' pc''. rewrite lookup_insert. case_decide; intros; simplify_eq; [|by apply Hcs].
    rewrite Hpc. symmetry. apply bool_decide_eq_false. intros ->.
    destruct (Hs t') as [? ?]; [done|congruence].
  - intros t' ->. rewrite lookup_insert. case_decide; [done|]. by apply Hs.
Qed.

Lemma lock_acquire s t pc next :
  lock_inv s → mw_calls s !! t = Some pc → in_cs pc = false → in_cs next = true →
  lock_inv (do_acquire s t next).
Proof.
  intros Hl Ht Hpc Hnext. unfold do_acquire. case_match eqn:Hw; [|done].
  apply Z.eqb_eq in Hw. destruct Hl as ([o|] & Hw' & Hcs & Hs); [lia|].
  exists (Some t). split_and!; [done|..]; simpl.
  - intros t' pc'. rewrite lookup_insert. case_decide; intros; simplify_eq.
    + by rewrite Hnext, bool_decide_true.
    + rewrite (Hcs t' pc') by done. by rewrite !bool_decide_false by congruence.
  - intros t' [= <-]. rewrite lookup_insert. by case_decide.
Qed.

Lemma lock_release s t pc :
  lock_inv s → mw_calls s !! t = Some pc → in_cs pc = true → lock_inv (do_release s t).
Proof.
  intros Hl Ht Hpc. unfold do_release. case_match; [|done].
  destruct Hl as (o & Hw & Hcs & Hs). exists None. split_and!; [done|..|done]; simpl.
  intros t' pc'. rewrite lookup_insert. case_decide; intros; simplify_eq; [done|].
  pose proof (Hcs _ _ Ht) as Ho. rewrite Hpc in Ho. symmetry in Ho.
  apply bool_decide_eq_true in Ho as ->.
  rewrite (Hcs t' pc') by done. by rewrite !bool_decide_false by congruence.
Qed.

(** Only the two pcs in front of the channel operations matter to [closed_inv]. *)
Lemma closed_inv_set_call s t pc :
  closed_inv s → (∀ m, pc ≠ SSelect m) → pc ≠ CCloseCh →
  mw_calls s !! t ≠ Some CCloseCh → closed_inv (set_call s t pc).
Proof.
  intros (H01 & Hop & Hsel & Hcl & H1) Hn1 Hn2 Ht. split_and!; try done; simpl.
  - intros t' m. rewrite lookup_insert. case_decide; naive_solver.
  - intros t'. rewrite lookup_insert. case_decide; naive_solver.
  - intros Hc. destruct (H1 Hc) as [|[t' Ht']]; [by left|]. right. exists t'.
    by rewrite lookup_insert_ne by congruence.
Qed.
End lock_lemmas.

Lemma closed_inv_ext s s' :
  mw_msgCh s' = mw_msgCh s → mw_closed s' = mw_closed s → mw_calls s' = mw_calls s →
  closed_inv s → closed_inv s'.
Proof. unfold closed_inv. by intros -> -> ->. Qed.

Lemma closed_inv_do_acquire s t pc next :
  closed_inv s → mw_calls s !! t = Some pc → in_cs pc = false →
  next = CCas ∨ (∃ m, next = SCheck m) → closed_inv (do_acquire s t next).
Proof.
  intros Hc Ht Hpc Hn. unfold do_acquire. case_match; [|done].
  apply closed_inv_set_call; [by eapply closed_inv_ext; [..|exact Hc]|naive_solver|naive_solver|].
  simpl. rewrite Ht. by intros [= ->].
Qed.

Lemma closed_inv_do_release s t pc :
  closed_inv s → mw_calls s !! t = Some pc → pc ≠ CCloseCh → closed_inv (do_release s t).
Proof.
  intros Hc Ht Hpc. unfold do_release. case_match; [|done].
  apply closed_inv_set_call; [by eapply closed_inv_ext; [..|exact Hc]|done|done|].
  simpl. rewrite Ht. congruence.
Qed.

(** The steps in front of and at the channel operations. *)
Lemma mw_check_inv s t m :
  mw_inv s → mw_calls s !! t = Some (SCheck m) →
  closed_inv (set_call s t (if mw_closed s =? 1 then SRelease else SSelect m)).
Proof.
  intros (Hl & Hc & _ & _) Ht. destruct (Z.eqb_spec (mw_closed s) 1) as [|Hn].
  { apply closed_inv_set_call; [done..|]. by rewrite Ht. }
  destruct Hc as (H01 & Hop & Hsel & Hcl & H1). split_and!; try done; simpl.
  - intros t' m'. rewrite lookup_insert. case_decide; intros; [lia|eauto].
  - intros t'. rewrite lookup_insert. case_decide; intros; [done|eauto].
Qed.

Lemma mw_cas_inv s t :
  mw_inv s → mw_calls s !! t = Some CCas →
  closed_inv (if mw_closed s =? 0 then set_call (set_closed s 1) t CCloseCh
              else set_call s t CRelease).
Proof.
  intros (Hl & Hc & _ & _) Ht. destruct (Z.eqb_spec (mw_closed s) 0) as [H0|Hn].
  2:{ apply closed_inv_set_call; [done..|]. by rewrite Ht. }
  destruct Hc as (H01 & Hop & Hsel & Hcl & H1). split_and!; simpl; [lia|done|..].
  - intros t' m'. rewrite lookup_insert. case_decide; [done|]. intros Ht'.
    exfalso. assert (t = t') by (by eapply lock_unique; [done|exact Ht|done|exact Ht'|]). done.
  - intros t'. rewrite lookup_insert. case_decide; [by auto|]. intros [? _]%Hcl. lia.
  - intros _. right. exists t. by rewrite lookup_insert_eq.
Qed.

Lemma mw_close_inv s t c :
  mw_inv s → mw_calls s !! t = Some CCloseCh → chan_close (mw_msgCh s) = Some c →
  closed_inv (set_call (set_msgCh s c) t CRelease).
Proof.
  intros (Hl & Hc & _ & _) Ht (_ & Hc' & _)%chan_close_Some.
  destruct Hc as (H01 & Hop & Hsel & Hcl & H1). destruct (Hcl t Ht) as [H1' _].
  split_and!; simpl; [done|lia|..|by left].
  - intros t' m'. rewrite lookup_insert. case_decide; [done|]. intros ?%Hsel. lia.
  - intros t'. rewrite lookup_insert. case_decide; [done|]. intros Ht'.
    exfalso. assert (t = t') by (by eapply lock_unique; [done|exact Ht|done|exact Ht'|]). done.
Qed.

Lemma closed_inv_set_msgCh s c :
  cclosed c = cclosed (mw_msgCh s) → closed_inv s → closed_inv (set_msgCh s c).
Proof. unfold closed_inv. simpl. by intros ->. Qed.

Create HintDb mw discriminated.
#[local] Hint Resolve lock_acquire lock_release lock_set_call lock_new_call closed_inv_do_acquire
  closed_inv_do_release mw_check_inv mw_cas_inv mw_close_inv : mw.

Lemma mw_run_inv s t c pc s' :
  mw_inv s → mw_calls s !! t = Some pc → mw_run s t c pc = Some s' → mw_inv s'.
Proof.
  intros Hinv Ht Hrun. pose proof Hinv as (Hl & Hc & Hcap & Hp).
  assert (∀ next, ccap (mw_msgCh (do_acquire s t next)) = 1%nat ∧
    mw_panic (do_acquire s t next) = false) as Hacq by (intros; unfold do_acquire; by case_match).
  assert (ccap (mw_msgCh (do_release s t)) = 1%nat ∧ mw_panic (do_release s t) = false) as Hrel
    by (unfold do_release; by case_match).
  destruct pc; simplify_eq/=.
  - split_and!; [eauto with mw| |apply Hacq..]. eapply closed_inv_do_acquire; eauto.
  - split_and!; [eapply lock_set_call; eauto; by case_match|by apply mw_check_inv|done..].
  - pose proof Hc as (_ & Hop & Hsel & _). pose proof (Hop (Hsel _ _ Ht)) as Hopen.
    destruct c.
    { case_match; simplify_eq. split_and!; [by eapply lock_set_call; eauto| |done..].
      apply closed_inv_set_call; [done..|by rewrite Ht]. }
    destruct (chan_send m (mw_msgCh s)) eqn:Hs; simplify_eq.
    + apply chan_send_Sent in Hs as (? & Hcl' & Hcap' & _ & _).
      split_and!; [by eapply (lock_set_call (set_msgCh s _)); eauto| |simpl; congruence|done].
      apply (closed_inv_set_call (set_msgCh s _)); [|done|done|simpl; by rewrite Ht].
      apply closed_inv_set_msgCh; [congruence|done].
    + by apply chan_send_open in Hs.
  - split_and!; [by eauto with mw|by eauto with mw|apply Hrel..].
  - split_and!; [eauto with mw| |apply Hacq..]. eapply closed_inv_do_acquire; eauto.
  - split_and!; [|by apply mw_cas_inv|by case_match|by case_match].
    case_match; [eapply (lock_set_call (set_closed s 1))|eapply lock_set_call]; eauto.
  - pose proof Hc as (_ & _ & _ & Hcl & _). destruct (Hcl _ Ht) as [_ Hopen].
    destruct (chan_close (mw_msgCh s)) as [c'|] eqn:Hcc; simplify_eq.
    + split_and!; [by eapply (lock_set_call (set_msgCh s c')); eauto|by apply mw_close_inv| |done].
      apply chan_close_Some in Hcc as (_ & _ & _ & Hcap'). simpl. congruence.
    + unfold chan_close in Hcc. by rewrite Hopen in Hcc.
  - split_and!; [by eauto with mw|by eauto with mw|apply Hrel..].
Qed.

Lemma mw_inv_inductive : inductive_invariant mw_step (eq newMsgWaitValue) mw_inv.
Proof.
  split.
  - intros s <-. split_and!; try done.
    + exists None. split_and!; [done|..]; intros; by simplify_map_eq.
    + split_and!; try done; [by left|..]; intros; by simplify_map_eq.
  - intros s e s' Hinv Hstep. unfold mw_step in Hstep. pose proof Hinv as (Hl & Hc & Hcap & Hp).
    rewrite Hp in Hstep. destruct e; split_step Hstep.
    + split_and!; [by eapply lock_new_call| |done..]. apply closed_inv_set_call; [done..|congruence].
    + split_and!; [by eapply lock_new_call| |done..]. apply closed_inv_set_call; [done..|congruence].
    + by eapply mw_run_inv.
    + by split_and!.
    + apply chan_recv_Received in E as (_ & Hcap' & Hcl).
      split_and!; [done|by apply closed_inv_set_msgCh|simpl; congruence|done].
Qed.

Lemma mw_reachable_inv s : mw_reachable s → mw_inv s.
Proof. apply invariant_reachable, mw_inv_inductive. Qed.

(** However the calls of send and close interleave, at most one of them is in the critical
    section, the channel is never sent to after it was closed and never closed twice (no
    run-time panic), and it never holds more than one message. *)
Theorem msgwait_safe s :
  mw_reachable s →
  mw_panic s = false ∧
  (∀ t pc t' pc', mw_calls s !! t = Some pc → mw_calls s !! t' = Some pc' →
    in_cs pc = true → in_cs pc' = true → t = t') ∧
  (∀ t m, mw_calls s !! t = Some (SSelect m) → cclosed (mw_msgCh s) = false) ∧
  (∀ t, mw_calls s !! t = Some CCloseCh → cclosed (mw_msgCh s) = false).
Proof.
  intros (Hl & (_ & Hop & Hsel & Hcl & _) & _ & Hp)%mw_reachable_inv.
  split_and!; [done|by eauto using lock_unique|by eauto|]. intros t Ht. by apply Hcl in Ht as [].
Qed.

(** ** Linearizability *)

(** The slot as its users see it. *)
Record slot : Type := MkSlot { slot_buf : list Msg; slot_closed : bool }.

(** What one operation does to the slot, all at once. *)
Inductive slot_step (cancel : bool) : slot → mw_event → slot → Prop :=
| slot_send t m :            (* delivered: the slot was open and empty *)
    slot_step cancel (MkSlot [] false) (CallSend t m) (MkSlot [m] false)
| slot_send_closed t m b :   (* the slot is closed: the message is dropped *)
    slot_step cancel (MkSlot b true) (CallSend t m) (MkSlot b true)
| slot_send_cancelled t m b :  (* the session is over: the message is dropped *)
    cancel = true → slot_step cancel (MkSlot b false) (CallSend t m) (MkSlot b false)
| slot_close t b c :         (* closing is idempotent and keeps a message not yet received *)
    slot_step cancel (MkSlot b c) (CallClose t) (MkSlot b true)
| slot_recv m c :
    slot_step cancel (MkSlot [m] c) Recv (MkSlot [] c).

Definition slot_of (s : msgWaitValue) : slot :=
  MkSlot (cbuf (mw_msgCh s)) (cclosed (mw_msgCh s)).

(** The operation that takes effect at an event, if one does. *)
Definition effect (s : msgWaitValue) (e : mw_event) : option mw_event :=
  match e with
  | Run t _ =>
      match mw_calls s !! t with
      | Some (SCheck m) => if mw_closed s =? 1 then Some (CallSend t m) else None
      | Some (SSelect m) => Some (CallSend t m)
      | Some CCas => if mw_closed s =? 0 then None else Some (CallClose t)
      | Some CCloseCh => Some (CallClose t)
      | _ => None
      end
  | Recv => Some Recv
  | _ => None
  end.

(** Whether a call has yet to take effect. *)
Definition effects_left (pc : mw_pc) : nat :=
  match pc with
  | SAcquire _ | SCheck _ | SSelect _ | CAcquire | CCas | CCloseCh => 1
  | SRelease | CRelease | MDone => 0
  end.

Definition buf_bound (s : msgWaitValue) : Prop := (length (cbuf (mw_msgCh s)) ≤ 1)%nat.

Lemma buf_bound_step s e s' : mw_inv s → buf_bound s → mw_step s e = Some s' → buf_bound s'.
Proof.
  intros (_ & _ & Hcap & Hp) Hb Hstep. unfold mw_step in Hstep. rewrite Hp in Hstep.
  unfold mw_run, do_acquire, do_release, buf_bound in *.
  split_step Hstep; repeat case_match; simplify_eq/=; try done; chan_facts.
  - match goal with H : cbuf _ = _ |- _ => rewrite H end. rewrite length_app. simpl. lia.
  - by match goal with H : cbuf _ = cbuf _ |- _ => rewrite H end.
  - match goal with H : cbuf _ = _ :: _ |- _ => rewrite H in Hb end. simpl in Hb. lia.
Qed.

Lemma reachable_buf_bound s : mw_reachable s → buf_bound s.
Proof.
  induction 1 as [s <-|s e s' Hr IH Hstep]; [unfold buf_bound; simpl; lia|].
  eauto using buf_bound_step, mw_reachable_inv.
Qed.

(** The slot does not change while a call spins, enters or leaves. *)
Lemma slot_of_do_acquire s t next : slot_of (do_acquire s t next) = slot_of s.
Proof. unfold do_acquire. by case_match. Qed.

Lemma slot_of_do_release s t : slot_of (do_release s t) = slot_of s.
Proof. unfold do_release. by case_match. Qed.

Lemma mw_run_effect s t c pc s' :
  mw_inv s → buf_bound s → mw_calls s !! t = Some pc → mw_run s t c pc = Some s' →
  match effect s (Run t c) with
  | None => slot_of s' = slot_of s
  | Some l => slot_step (mw_cancel s) (slot_of s) l (slot_of s')
  end.
Proof.
  intros (Hl & (H01 & Hop & Hsel & Hcl & H1) & Hcap & _) Hb Ht Hrun. unfold effect. rewrite Ht.
  destruct pc; simplify_eq/=; rewrite ?slot_of_do_acquire, ?slot_of_do_release; try done.
  - destruct (Z.eqb_spec (mw_closed s) 1) as [E|]; [|done]. unfold slot_of. simpl.
    destruct (H1 E) as [->|[t' Ht']]; [constructor|].
    assert (t = t') by (by eapply lock_unique; [done|exact Ht|done|exact Ht'|]). congruence.
  - pose proof (Hop (Hsel _ _ Ht)) as Hopen. split_step Hrun; unfold slot_of; simpl.
    + rewrite Hopen. by constructor.
    + chan_facts. destruct (cbuf (mw_msgCh s)) as [|? l] eqn:Eb; [|simpl in *; lia].
      repeat match goal with H : _ = _ |- context [slot_step] => rewrite H end. constructor.
    + by apply chan_send_open in E.
  - destruct (Z.eqb_spec (mw_closed s) 0); [done|]. unfold slot_of. simpl.
    destruct H1 as [->|[t' Ht']]; [lia|constructor|].
    assert (t = t') by (by eapply lock_unique; [done|exact Ht|done|exact Ht'|]). congruence.
  - destruct (Hcl _ Ht) as [_ Hopen]. split_step Hrun; unfold slot_of; simpl.
    + chan_facts.
      repeat match goal with H : _ = _ |- context [slot_step] => rewrite H end. constructor.
    + unfold chan_close in E. by rewrite Hopen in E.
Qed.

Lemma mw_run_calls s t c pc s' :
  mw_calls s !! t = Some pc → mw_panic s = false → mw_panic s' = false →
  mw_run s t c pc = Some s' →
  ∃ pc', mw_calls s' = <[t := pc']> (mw_calls s) ∧
    effects_left pc = (effects_left pc' + if effect s (Run t c) then 1 else 0)%nat.
Proof.
  intros Ht Hp Hp' Hrun. unfold effect. rewrite Ht.
  destruct pc; unfold mw_run, do_acquire, do_release in *; split_step Hrun; try done.
  all: repeat case_match; simplify_eq/=.
  all: try (eexists; split; [reflexivity|done]).
  all: eexists; split; [symmetry; by apply insert_id|done].
Qed.

(** C15. Linearizability of the slot: every step of the interleaved methods either leaves the
    slot as it is or performs one operation of the atomic slot on it; and every call of send or
    close performs its operation exactly once between its start and its return.  So the spin lock
    makes the methods indivisible, and a message is delivered or dropped as a whole. *)
Theorem msgwait_linearizable s e s' :
  mw_reachable s → mw_step s e = Some s' →
  match effect s e with
  | None => slot_of s' = slot_of s
  | Some l => slot_step (mw_cancel s) (slot_of s) l (slot_of s')
  end ∧
  (∀ t pc pc', mw_calls s !! t = Some pc → mw_calls s' !! t = Some pc' →
    effects_left pc = (effects_left pc' +
      match e, effect s e with Run t' _, Some _ => if decide (t = t') then 1 else 0 | _, _ => 0 end)%nat).
Proof.
  intros Hr Hstep. pose proof (mw_reachable_inv _ Hr) as Hinv.
  pose proof (reachable_buf_bound _ Hr) as Hb. pose proof Hinv as (_ & _ & _ & Hp).
  unfold mw_step in Hstep. rewrite Hp in Hstep. split.
  - destruct e as [t m|t|t c| |]; split_step Hstep; try done.
    + by eapply mw_run_effect.
    + chan_facts. unfold slot_of. simpl. unfold buf_bound in Hb.
      match goal with H : cbuf _ = _ :: _ |- _ => rewrite H in * end.
      match goal with H : cclosed _ = cclosed _ |- _ => rewrite H end.
      destruct (cbuf c) as [|? l] eqn:Eb; [|simpl in *; lia]. constructor.
  - intros t pc pc' Ht Ht'. destruct e as [u m|u|u c| |]; split_step Hstep; simplify_map_eq.
    + destruct (decide (t = u)); simplify_map_eq. lia.
    + destruct (decide (t = u)); simplify_map_eq. lia.
    + destruct (mw_run_inv _ _ _ _ _ Hinv E Hstep) as (_ & _ & _ & Hp').
      destruct (mw_run_calls _ _ _ _ _ E Hp Hp' Hstep) as (pc1 & Hcalls & Hleft).
      rewrite Hcalls in Ht'. destruct (decide (t = u)); simplify_map_eq.
      * rewrite Hleft. by case_match.
      * case_match; lia.
    + lia.
    + lia.
Qed.

Lemma set_call_changes s s1 t pc pc' :
  mw_calls s !! t = Some pc → mw_calls s1 = mw_calls s → pc' ≠ pc → set_call s1 t pc' ≠ s.
Proof.
  intros Ht Hc Hne Heq. apply (f_equal (λ s, mw_calls s !! t)) in Heq. simpl in Heq.
  rewrite lookup_insert_eq in Heq. congruence.
Qed.

(** The holder of the lock moves on, or waits for room in the slot. *)
Lemma holder_progress s t pc :
  mw_inv s → mw_working s = 1 → mw_calls s !! t = Some pc → in_cs pc = true →
  (∃ m, pc = SSelect m ∧ cbuf (mw_msgCh s) ≠ [] ∧ mw_cancel s = false) ∨
  (∃ c s', mw_run s t c pc = Some s' ∧ s' ≠ s).
Proof.
  intros (Hl & (_ & Hop & Hsel & Hcl & _) & Hcap & _) Hw Ht Hcs.
  destruct pc; simplify_eq/=; unfold do_release; rewrite ?Hw; simpl.
  - right. exists false. eexists. split; [done|].
    apply (set_call_changes s s t (SCheck m)); [done|done|by case_match].
  - pose proof (Hop (Hsel _ _ Ht)) as Hopen. destruct (mw_cancel s).
    { right. exists true. eexists. split; [done|]. by eapply (set_call_changes s s). }
    destruct (cbuf (mw_msgCh s)) as [|x l] eqn:Eb; [|left; by exists m].
    right. exists false. unfold chan_send. rewrite Hopen, Eb, Hcap. simpl.
    eexists. split; [done|]. by eapply (set_call_changes s (set_msgCh s _)).
  - right. exists false. eexists. split; [done|]. by eapply (set_call_changes s (set_working s 0)).
  - right. exists false. eexists. split; [done|].
    case_match; [by eapply (set_call_changes s (set_closed s 1))|by eapply (set_call_changes s s)].
  - destruct (Hcl _ Ht) as [_ Hopen]. right. exists false. unfold chan_close. rewrite Hopen.
    eexists. split; [done|]. by eapply (set_call_changes s (set_msgCh s _)).
  - right. exists false. eexists. split; [done|]. by eapply (set_call_changes s (set_working s 0)).
Qed.

(** Progress: while a call of send or close has not returned, some call can take a step that
    changes the state, unless the holder of the lock is a send that finds the slot full and the
    session not cancelled.  The spin lock itself never blocks for good. *)
Theorem msgwait_progress s t pc :
  mw_reachable s → mw_calls s !! t = Some pc → pc ≠ MDone →
  (∃ t' m, mw_calls s !! t' = Some (SSelect m) ∧ cbuf (mw_msgCh s) ≠ [] ∧ mw_cancel s = false) ∨
  (∃ t' c s', mw_step s (Run t' c) = Some s' ∧ s' ≠ s).
Proof.
  intros Hr Ht Hpc. pose proof (mw_reachable_inv _ Hr) as Hinv.
  pose proof Hinv as (([o|] & Hw & Hcs & Hs) & _ & _ & Hp); unfold mw_step; rewrite Hp.
  - destruct (Hs o eq_refl) as [pc' Ho]. pose proof (Hcs _ _ Ho) as Hin.
    rewrite bool_decide_true in Hin by done.
    destruct (holder_progress s o pc' Hinv Hw Ho Hin) as [(m & -> & ? & ?)|(c & s' & ? & ?)].
    + left. eauto.
    + right. exists o, c, s'. by rewrite Ho.
  - pose proof (Hcs _ _ Ht) as Hin. rewrite bool_decide_false in Hin by done.
    right. exists t, false. rewrite Ht.
    destruct pc; simplify_eq/=; unfold do_acquire; rewrite Hw; simpl;
      (eexists; split; [done|]; by eapply (set_call_changes s (set_working s 1))).
Qed.

(** ** The slot on a concrete schedule *)

Section witnesses.
Definition sample_msg : Msg := MkMsg 3 1 1 [42].
(** A send delivers, and a close that started before it waits for the lock. *)
Definition sample_schedule : list mw_event :=
  [CallSend 0 sample_msg; CallClose 1; Run 0 false; Run 1 false; Run 0 false].
Definition sample_state : msgWaitValue :=
  match run mw_step newMsgWaitValue sample_schedule with Some s => s | None => newMsgWaitValue end.

Lemma sample_reachable : mw_reachable sample_state.
Proof.
  apply (reachable_run mw_step _ newMsgWaitValue sample_schedule); [by constructor|].
  vm_compute. reflexivity.
Qed.

Lemma msgwait_safe_witness :
  mw_panic sample_state = false ∧
  (∀ t pc t' pc', mw_calls sample_state !! t = Some pc → mw_calls sample_state !! t' = Some pc' →
    in_cs pc = true → in_cs pc' = true → t = t') ∧
  (∀ t m, mw_calls sample_state !! t = Some (SSelect m) →
    cclosed (mw_msgCh sample_state) = false) ∧
  (∀ t, mw_calls sample_state !! t = Some CCloseCh → cclosed (mw_msgCh sample_state) = false).
Proof. apply (msgwait_safe sample_state), sample_reachable. Defined.

Lemma msgwait_linearizable_witness :
  slot_step false (MkSlot [] false) (CallSend 0 sample_msg) (MkSlot [sample_msg] false) ∧
  effects_left (SSelect sample_msg) = (effects_left SRelease + 1)%nat.
Proof.
  destruct (mw_step sample_state (Run 0 false)) as [s'|] eqn:E; [|vm_compute in E; discriminate].
  destruct (msgwait_linearizable sample_state (Run 0 false) s' sample_reachable E) as [H1 H2].
  vm_compute in E. injection E as <-. split; [exact H1|]. by apply (H2 0%nat).
Defined.

Lemma msgwait_progress_witness :
  (∃ t' m, mw_calls sample_state !! t' = Some (SSelect m) ∧
     cbuf (mw_msgCh sample_state) ≠ [] ∧ mw_cancel sample_state = false) ∨
  (∃ t' c s', mw_step sample_state (Run t' c) = Some s' ∧ s' ≠ sample_state).
Proof. by apply (msgwait_progress sample_state 1 CAcquire); [apply sample_reachable|..]. Defined.
End witnesses.
