(* ===== verification/Extension.v ===== *)
(** * Extension sessions of the hub (server/extension.go)

    [HandleStream] runs one session: a goroutine that writes commands and pings, a timeout loop,
    a receive loop, the handle func, and the [sendCmd] calls the handle func makes, all of them
    sharing the table [msgWait] of pending commands.  [ext_step] runs one atomic action of one
    of them; the label of a step says which goroutine moves and how a [select] with several
    ready cases is decided.  The response slots are the atomic slots that [MsgWait] shows the
    spin-locked ones to be, except that a [send] that waits for room keeps the slot's lock, so that
    nobody can close the slot meanwhile.  The timeout queue of arhat.dev/pkg is a parameter. *)
From S2P Require Import Prelude GoChan Proto MsgWait.

Set Default Proof Using "Type".

(** [msgWaitKey]: id and seq. *)
Abbreviation msgWaitKey := (Z * Z)%type.

Definition cmd_key (c : Cmd) : msgWaitKey := (cmd_Id c, cmd_Seq c).
Definition msg_key (m : Msg) : msgWaitKey := (msg_Id m, msg_Ack m).

(** Keys of the timeout queue: a pending command, or the extension's name for keepalive. *)
Inductive tq_key : Type := TWait (k : msgWaitKey) | TName (name : string).

#[export] Instance tq_key_eq_dec : EqDecision tq_key.
Proof. solve_decision. Defined.

(** arhat.dev/pkg/queue.TimeoutQueue *)
Class TimeoutQueue (Q : Type) := {
  NewTimeoutQueue : Q;
  OfferWithDelay : tq_key → Z → Q → Q;
  tq_Remove : tq_key → Q → Q;
  tq_Clear : Q → Q;
  tq_Take : tq_key → Q → option Q;   (* [k] is delivered on TakeCh *)
}.

(** What was written to the stream. *)
Inductive wire_item : Type := WPing | WCmd (c : Cmd).

(** A call of [sendCmd]: where it is, or what it returned. *)
Inductive caller_pc : Type :=
| CStart (wait : bool)                  (* create the slot, LoadOrStore *)
| COffer                                (* tq.OfferWithDelay(key, nil, messageTimeout) *)
| CSending (wait : bool)                (* select: ctx.Done, cmdWriteCh <- cmd *)
| CWaiting                              (* select: ctx.Done, <-waitV.msgCh *)
| CRemove (res : result (option Msg))   (* deferred: tq.Remove(key) *)
| CClose (res : result (option Msg))    (* deferred: waitV.close() *)
| CDelete (res : result (option Msg))   (* deferred: msgWait.Delete(key) *)
| CReturned (res : result (option Msg)).

Record caller : Type := MkCaller { caller_cmd : Cmd; caller_at : caller_pc }.

Inductive writer_pc : Type :=
| WLoop                        (* select: keepaliveCh, cmdWriteCh *)
| WHold (i : wire_item)        (* enc.Encode of what was taken from a channel *)
| WExited.

Inductive timer_pc : Type :=
| TInit                                   (* tq.OfferWithDelay(name, nil, keepaliveInterval) *)
| TLoop                                   (* select: ctx.Done, takeCh *)
| TCloseV (k : msgWaitKey) (v : option nat)  (* closeMsgWait(v) after Load *)
| TDelete (k : msgWaitKey)                (* msgWait.Delete(td.Key) *)
| TKeepalive                              (* select: keepaliveCh <- struct{}{}, ctx.Done *)
| TReoffer
| TRange (todo : gset msgWaitKey)         (* msgWait.Range: the keys it has yet to visit *)
| TRangeDelete (k : msgWaitKey) (todo : gset msgWaitKey)
| TCloseCh                                (* deferred: close(keepaliveCh) *)
| TClear                                  (* deferred: tq.Clear() *)
| TExited.

Inductive receiver_pc : Type :=
| RLoop                        (* dec.Decode(msg) *)
| RGot (m : Msg)               (* select: ctx.Done, default *)
| RLoad (m : Msg)              (* onMsgRecv: msgWait.Load(key) *)
| RSend (w : nat) (m : Msg)    (* mv.send(ctx.Done(), msg): take the lock, look at closed *)
| RLocked (w : nat) (m : Msg)  (* with the lock: select: ctx.Done, mv.msgCh <- msg *)
| RExited.

(** A session.  Slots are identified by the call that made them, as pointers are.  [s_accepted]
    and [s_received] record what went into [cmdWriteCh] and came out of the decoder; [s_dispatched]
    and [s_timeouts] are records too. *)
Record session (Q : Type) : Type := MkSession {
  s_done : bool;                        (* ctx.Done() is closed *)
  s_err : option error;                 (* the errgroup's first error *)
  s_cmdWriteCh : chan Cmd;
  s_keepaliveCh : chan unit;
  s_wire : list wire_item;
  s_msgWait : gmap msgWaitKey nat;
  s_slots : gmap nat slot;
  s_tq : Q;
  s_callers : gmap nat caller;
  s_writer : writer_pc;
  s_timer : timer_pc;
  s_receiver : receiver_pc;
  s_handling : bool;                    (* the handle func has not returned *)
  s_dispatched : list (Msg * option nat);   (* onMsgRecv: each message, and the slot it found *)
  s_timeouts : list msgWaitKey;         (* the keys the timeout loop has taken up *)
  s_accepted : list Cmd;
  s_received : list Msg;
  s_panic : bool;
}.
Arguments MkSession {Q} _ _ _ _ _ _ _ _ _ _ _ _ _ _ _ _ _ _.
Arguments s_done {Q} _.
Arguments s_err {Q} _.
Arguments s_cmdWriteCh {Q} _.
Arguments s_keepaliveCh {Q} _.
Arguments s_wire {Q} _.
Arguments s_msgWait {Q} _.
Arguments s_slots {Q} _.
Arguments s_tq {Q} _.
Arguments s_callers {Q} _.
Arguments s_writer {Q} _.
Arguments s_timer {Q} _.
Arguments s_receiver {Q} _.
Arguments s_handling {Q} _.
Arguments s_dispatched {Q} _.
Arguments s_timeouts {Q} _.
Arguments s_accepted {Q} _.
Arguments s_received {Q} _.
Arguments s_panic {Q} _.

(** ** Assignments *)

Section setters.
Context {Q : Type}.
Implicit Types s : session Q.

Definition set_done (x : bool) s : session Q :=
  MkSession x (s_err s) (s_cmdWriteCh s) (s_keepaliveCh s) (s_wire s) (s_msgWait s) (s_slots s)
    (s_tq s) (s_callers s) (s_writer s) (s_timer s) (s_receiver s) (s_handling s)
    (s_dispatched s) (s_timeouts s) (s_accepted s) (s_received s) (s_panic s).
Definition set_err (x : option error) s : session Q :=
  MkSession (s_done s) x (s_cmdWriteCh s) (s_keepaliveCh s) (s_wire s) (s_msgWait s) (s_slots s)
    (s_tq s) (s_callers s) (s_writer s) (s_timer s) (s_receiver s) (s_handling s)
    (s_dispatched s) (s_timeouts s) (s_accepted s) (s_received s) (s_panic s).
Definition set_cmdWriteCh (x : chan Cmd) s : session Q :=
  MkSession (s_done s) (s_err s) x (s_keepaliveCh s) (s_wire s) (s_msgWait s) (s_slots s)
    (s_tq s) (s_callers s) (s_writer s) (s_timer s) (s_receiver s) (s_handling s)
    (s_dispatched s) (s_timeouts s) (s_accepted s) (s_received s) (s_panic s).
Definition set_keepaliveCh (x : chan unit) s : session Q :=
  MkSession (s_done s) (s_err s) (s_cmdWriteCh s) x (s_wire s) (s_msgWait s) (s_slots s)
    (s_tq s) (s_callers s) (s_writer s) (s_timer s) (s_receiver s) (s_handling s)
    (s_dispatched s) (s_timeouts s) (s_accepted s) (s_received s) (s_panic s).
Definition set_wire (x : list wire_item) s : session Q :=
  MkSession (s_done s) (s_err s) (s_cmdWriteCh s) (s_keepaliveCh s) x (s_msgWait s) (s_slots s)
    (s_tq s) (s_callers s) (s_writer s) (s_timer s) (s_receiver s) (s_handling s)
    (s_dispatched s) (s_timeouts s) (s_accepted s) (s_received s) (s_panic s).
Definition set_msgWait (x : gmap msgWaitKey nat) s : session Q :=
  MkSession (s_done s) (s_err s) (s_cmdWriteCh s) (s_keepaliveCh s) (s_wire s) x (s_slots s)
    (s_tq s) (s_callers s) (s_writer s) (s_timer s) (s_receiver s) (s_handling s)
    (s_dispatched s) (s_timeouts s) (s_accepted s) (s_received s) (s_panic s).
Definition set_slots (x : gmap nat slot) s : session Q :=
  MkSession (s_done s) (s_err s) (s_cmdWriteCh s) (s_keepaliveCh s) (s_wire s) (s_msgWait s) x
    (s_tq s) (s_callers s) (s_writer s) (s_timer s) (s_receiver s) (s_handling s)
    (s_dispatched s) (s_timeouts s) (s_accepted s) (s_received s) (s_panic s).
Definition set_tq (x : Q) s : session Q :=
  MkSession (s_done s) (s_err s) (s_cmdWriteCh s) (s_keepaliveCh s) (s_wire s) (s_msgWait s)
    (s_slots s) x (s_callers s) (s_writer s) (s_timer s) (s_receiver s) (s_handling s)
    (s_dispatched s) (s_timeouts s) (s_accepted s) (s_received s) (s_panic s).
Definition set_callers (x : gmap nat caller) s : session Q :=
  MkSession (s_done s) (s_err s) (s_cmdWriteCh s) (s_keepaliveCh s) (s_wire s) (s_msgWait s)
    (s_slots s) (s_tq s) x (s_writer s) (s_timer s) (s_receiver s) (s_handling s)
    (s_dispatched s) (s_timeouts s) (s_accepted s) (s_received s) (s_panic s).
Definition set_writer (x : writer_pc) s : session Q :=
  MkSession (s_done s) (s_err s) (s_cmdWriteCh s) (s_keepaliveCh s) (s_wire s) (s_msgWait s)
    (s_slots s) (s_tq s) (s_callers s) x (s_timer s) (s_receiver s) (s_handling s)
    (s_dispatched s) (s_timeouts s) (s_accepted s) (s_received s) (s_panic s).
Definition set_timer (x : timer_pc) s : session Q :=
  MkSession (s_done s) (s_err s) (s_cmdWriteCh s) (s_keepaliveCh s) (s_wire s) (s_msgWait s)
    (s_slots s) (s_tq s) (s_callers s) (s_writer s) x (s_receiver s) (s_handling s)
    (s_dispatched s) (s_timeouts s) (s_accepted s) (s_received s) (s_panic s).
Definition set_receiver (x : receiver_pc) s : session Q :=
  MkSession (s_done s) (s_err s) (s_cmdWriteCh s) (s_keepaliveCh s) (s_wire s) (s_msgWait s)
    (s_slots s) (s_tq s) (s_callers s) (s_writer s) (s_timer s) x (s_handling s)
    (s_dispatched s) (s_timeouts s) (s_accepted s) (s_received s) (s_panic s).
Definition set_handling (x : bool) s : session Q :=
  MkSession (s_done s) (s_err s) (s_cmdWriteCh s) (s_keepaliveCh s) (s_wire s) (s_msgWait s)
    (s_slots s) (s_tq s) (s_callers s) (s_writer s) (s_timer s) (s_receiver s) x
    (s_dispatched s) (s_timeouts s) (s_accepted s) (s_received s) (s_panic s).
Definition set_dispatched (x : list (Msg * option nat)) s : session Q :=
  MkSession (s_done s) (s_err s) (s_cmdWriteCh s) (s_keepaliveCh s) (s_wire s) (s_msgWait s)
    (s_slots s) (s_tq s) (s_callers s) (s_writer s) (s_timer s) (s_receiver s) (s_handling s) x
    (s_timeouts s) (s_accepted s) (s_received s) (s_panic s).
Definition set_timeouts (x : list msgWaitKey) s : session Q :=
  MkSession (s_done s) (s_err s) (s_cmdWriteCh s) (s_keepaliveCh s) (s_wire s) (s_msgWait s)
    (s_slots s) (s_tq s) (s_callers s) (s_writer s) (s_timer s) (s_receiver s) (s_handling s)
    (s_dispatched s) x (s_accepted s) (s_received s) (s_panic s).
Definition set_accepted (x : list Cmd) s : session Q :=
  MkSession (s_done s) (s_err s) (s_cmdWriteCh s) (s_keepaliveCh s) (s_wire s) (s_msgWait s)
    (s_slots s) (s_tq s) (s_callers s) (s_writer s) (s_timer s) (s_receiver s) (s_handling s)
    (s_dispatched s) (s_timeouts s) x (s_received s) (s_panic s).
Definition set_received (x : list Msg) s : session Q :=
  MkSession (s_done s) (s_err s) (s_cmdWriteCh s) (s_keepaliveCh s) (s_wire s) (s_msgWait s)
    (s_slots s) (s_tq s) (s_callers s) (s_writer s) (s_timer s) (s_receiver s) (s_handling s)
    (s_dispatched s) (s_timeouts s) (s_accepted s) x (s_panic s).
Definition set_panic (x : bool) s : session Q :=
  MkSession (s_done s) (s_err s) (s_cmdWriteCh s) (s_keepaliveCh s) (s_wire s) (s_msgWait s)
    (s_slots s) (s_tq s) (s_callers s) (s_writer s) (s_timer s) (s_receiver s) (s_handling s)
    (s_dispatched s) (s_timeouts s) (s_accepted s) (s_received s) x.
End setters.

(** The messages passed to the out-of-band handler. *)
Definition s_oob {Q} (s : session Q) : list Msg :=
  omap (λ p, match p.2 with None => Some p.1 | Some _ => None end) (s_dispatched s).

(** ** Steps *)

Inductive ext_event : Type :=
| ECall (c : nat) (cmd : Cmd) (wait : bool)   (* the handle func calls sendCmd *)
| ECaller (c : nat) (on_done : bool)          (* its next action; whether a select takes ctx.Done *)
| EWritePing                                  (* the writer takes keepaliveCh *)
| EWriteCmd                                   (* the writer takes cmdWriteCh *)
| EEncode (err : option error)                (* its Encode returns *)
| ETimer (on_done : bool)                     (* the timeout loop's next action *)
| ETake (k : tq_key)                          (* takeCh delivers [k] *)
| EVisit (k : msgWaitKey)                     (* Range visits [k] *)
| EDecode (res : result Msg)                  (* Decode returns *)
| EReceiver (on_done : bool)                  (* the receive loop's next action *)
| EHandlerReturn
| EParentCancel.                              (* m.ctx is cancelled *)

Section steps.
Context {Q : Type} `{!TimeoutQueue Q}.
Context (name : string) (keepaliveInterval messageTimeout : Z).
Implicit Types s : session Q.

Definition new_session : session Q :=
  MkSession false None (make_chan 1) (make_chan 1) [] ∅ ∅ NewTimeoutQueue ∅
    WLoop TInit RLoop true [] [] [] [] false.

(** A goroutine of the errgroup returns [e]: the first error is kept and cancels the context. *)
Definition group_return (e : error) s : session Q :=
  set_done true (set_err (match s_err s with None => Some e | Some _ => s_err s end) s).

(** [mv.close()], for which the lock of the slot must be free. *)
Definition slot_free (w : nat) s : bool :=
  match s_receiver s with RLocked w' _ => negb (bool_decide (w' = w)) | _ => true end.

Definition close_slot (w : nat) s : session Q :=
  set_slots (alter (λ sl, MkSlot (slot_buf sl) true) w (s_slots s)) s.

Definition set_caller (c : nat) (cmd : Cmd) (pc : caller_pc) s : session Q :=
  set_callers (<[c := MkCaller cmd pc]> (s_callers s)) s.

(** What [sendCmd] does when it leaves with [res]: the deferred calls were pushed only when
    the slot was stored. *)
Definition leave (wait : bool) (res : result (option Msg)) : caller_pc :=
  if wait then CRemove res else CReturned res.

Definition caller_step (c : nat) (cmd : Cmd) (pc : caller_pc) (on_done : bool) s
  : option (session Q) :=
  match pc with
  | CStart false => Some (set_caller c cmd (CSending false) s)
  | CStart true =>
      match s_msgWait s !! cmd_key cmd with
      | Some _ =>   (* loaded: waitV.close(), return *)
          Some (set_caller c cmd (CReturned (Err (errorString "cmd sent before, no response yet")))
                 (set_slots (<[c := MkSlot [] true]> (s_slots s)) s))
      | None =>
          Some (set_caller c cmd COffer
                 (set_msgWait (<[cmd_key cmd := c]> (s_msgWait s))
                   (set_slots (<[c := MkSlot [] false]> (s_slots s)) s)))
      end
  | COffer =>
      Some (set_caller c cmd (CSending true)
             (set_tq (OfferWithDelay (TWait (cmd_key cmd)) messageTimeout (s_tq s)) s))
  | CSending wait =>
      if on_done then
        if s_done s then Some (set_caller c cmd (leave wait (Err Canceled)) s) else None
      else
        match chan_send cmd (s_cmdWriteCh s) with
        | Sent ch =>
            Some (set_caller c cmd (if wait then CWaiting else CReturned (Ok None))
                   (set_accepted (s_accepted s ++ [cmd]) (set_cmdWriteCh ch s)))
        | SendBlocks => None
        | SendPanics => Some (set_panic true s)
        end
  | CWaiting =>
      if on_done then
        if s_done s then Some (set_caller c cmd (CRemove (Err Canceled)) s) else None
      else
        match s_slots s !! c with
        | Some (MkSlot (m :: rest) cl) =>
            Some (set_caller c cmd (CRemove (Ok (Some m)))
                   (set_slots (<[c := MkSlot rest cl]> (s_slots s)) s))
        | Some (MkSlot [] true) =>
            Some (set_caller c cmd (CRemove (Err (errorString "timeout"))) s)
        | _ => None
        end
  | CRemove res =>
      Some (set_caller c cmd (CClose res) (set_tq (tq_Remove (TWait (cmd_key cmd)) (s_tq s)) s))
  | CClose res => if slot_free c s then Some (set_caller c cmd (CDelete res) (close_slot c s)) else None
  | CDelete res =>
      Some (set_caller c cmd (CReturned res)
             (set_msgWait (delete (cmd_key cmd) (s_msgWait s)) s))
  | CReturned _ => None
  end.

Definition write_ping s : option (session Q) :=
  match chan_recv (s_keepaliveCh s) with
  | RecvBlocks => None
  | RecvClosed => Some (set_writer WExited (group_return ErrUnexpectedEOF s))
  | Received _ ch => Some (set_writer (WHold WPing) (set_keepaliveCh ch s))
  end.

Definition write_cmd s : option (session Q) :=
  match chan_recv (s_cmdWriteCh s) with
  | RecvBlocks => None
  | RecvClosed => Some (set_writer WExited (group_return EOF s))
  | Received cmd ch => Some (set_writer (WHold (WCmd cmd)) (set_cmdWriteCh ch s))
  end.

(** enc.Encode returns [err]. *)
Definition encode_step (err : option error) (i : wire_item) s : option (session Q) :=
  match err with
  | None => Some (set_writer WLoop (set_wire (s_wire s ++ [i]) s))
  | Some e =>
      Some (set_writer WExited
             (group_return (match i with
                            | WPing => ErrUnexpectedEOF
                            | WCmd _ => wrapError "failed to encode extension command" e
                            end) s))
  end.

Definition timer_step (pc : timer_pc) (on_done : bool) s : option (session Q) :=
  match pc with
  | TInit => Some (set_timer TLoop (set_tq (OfferWithDelay (TName name) keepaliveInterval (s_tq s)) s))
  | TLoop => if s_done s then Some (set_timer (TRange (dom (s_msgWait s))) s) else None
  | TCloseV k (Some w) => if slot_free w s then Some (set_timer (TDelete k) (close_slot w s)) else None
  | TCloseV k None => Some (set_timer (TDelete k) s)
  | TDelete k => Some (set_timer TLoop (set_msgWait (delete k (s_msgWait s)) s))
  | TKeepalive =>
      if on_done then if s_done s then Some (set_timer TLoop s) else None
      else
        match chan_send tt (s_keepaliveCh s) with
        | Sent ch => Some (set_timer TReoffer (set_keepaliveCh ch s))
        | SendBlocks => None
        | SendPanics => Some (set_panic true s)
        end
  | TReoffer =>
      Some (set_timer TLoop (set_tq (OfferWithDelay (TName name) keepaliveInterval (s_tq s)) s))
  | TRange todo => if bool_decide (todo = ∅) then Some (set_timer TCloseCh s) else None
  | TRangeDelete k todo =>
      Some (set_timer (TRange todo) (set_msgWait (delete k (s_msgWait s)) s))
  | TCloseCh =>
      match chan_close (s_keepaliveCh s) with
      | Some ch => Some (set_timer TClear (set_keepaliveCh ch s))
      | None => Some (set_panic true s)
      end
  | TClear => Some (set_timer TExited (group_return EOF (set_tq (tq_Clear (s_tq s)) s)))
  | TExited => None
  end.

(** [td := <-takeCh] and the Load of its [switch]. *)
Definition take_step (k : tq_key) s : option (session Q) :=
  match s_timer s, tq_Take k (s_tq s) with
  | TLoop, Some q =>
      match k with
      | TWait key =>
          Some (set_timer (TCloseV key (s_msgWait s !! key))
                 (set_timeouts (s_timeouts s ++ [key]) (set_tq q s)))
      | TName _ => Some (set_timer TKeepalive (set_tq q s))
      end
  | _, _ => None
  end.

(** Range calls its function on a key of the table; a key that was deleted meanwhile is
    passed over. *)
Definition visit_step (k : msgWaitKey) s : option (session Q) :=
  match s_timer s with
  | TRange todo =>
      match s_msgWait s !! k with
      | Some w =>
          if slot_free w s
          then Some (set_timer (TRangeDelete k (todo ∖ {[k]}))
                      (set_timeouts (s_timeouts s ++ [k]) (close_slot w s)))
          else None
      | None => if bool_decide (k ∈ todo) then Some (set_timer (TRange (todo ∖ {[k]})) s) else None
      end
  | _ => None
  end.

Definition decode_step (res : result Msg) s : option (session Q) :=
  match s_receiver s with
  | RLoop =>
      match res with
      | Err e =>
          Some (set_receiver RExited
                 (group_return (if bool_decide (e = EOF) then EOF
                                else wrapError "failed to decode extension message" e) s))
      | Ok m => Some (set_receiver (RGot m) (set_received (s_received s ++ [m]) s))
      end
  | _ => None
  end.

Definition receiver_step (pc : receiver_pc) (on_done : bool) s : option (session Q) :=
  match pc with
  | RGot m =>
      if s_done s then Some (set_receiver RExited (group_return EOF s))
      else Some (set_receiver (RLoad m) s)
  | RLoad m =>
      match s_msgWait s !! msg_key m with
      | None => Some (set_receiver RLoop (set_dispatched (s_dispatched s ++ [(m, None)]) s))
      | Some w => Some (set_receiver (RSend w m) (set_dispatched (s_dispatched s ++ [(m, Some w)]) s))
      end
  | RSend w m =>
      match s_slots s !! w with
      | Some sl => Some (set_receiver (if slot_closed sl then RLoop else RLocked w m) s)
      | None => None
      end
  | RLocked w m =>
      if on_done then if s_done s then Some (set_receiver RLoop s) else None
      else
        match s_slots s !! w with
        | Some (MkSlot buf cl) =>
            if cl then Some (set_panic true s)
            else
              match buf with
              | [] => Some (set_receiver RLoop (set_slots (<[w := MkSlot [m] false]> (s_slots s)) s))
              | _ :: _ => None
              end
        | None => None
        end
  | RLoop | RExited => None
  end.

Definition ext_step s (e : ext_event) : option (session Q) :=
  if s_panic s then None
  else
    match e with
    | ECall c cmd wait =>
        match s_callers s !! c with
        | None => Some (set_caller c cmd (CStart wait) s)
        | Some _ => None
        end
    | ECaller c on_done =>
        match s_callers s !! c with
        | Some (MkCaller cmd pc) => caller_step c cmd pc on_done s
        | None => None
        end
    | EWritePing => match s_writer s with WLoop => write_ping s | _ => None end
    | EWriteCmd => match s_writer s with WLoop => write_cmd s | _ => None end
    | EEncode err => match s_writer s with WHold i => encode_step err i s | _ => None end
    | ETimer on_done => timer_step (s_timer s) on_done s
    | ETake k => take_step k s
    | EVisit k => visit_step k s
    | EDecode res => decode_step res s
    | EReceiver on_done => receiver_step (s_receiver s) on_done s
    | EHandlerReturn =>
        if s_handling s then Some (set_handling false (group_return EOF s)) else None
    | EParentCancel => Some (set_done true s)
    end.

(** [wg.Wait()] and the return value of HandleStream, once every goroutine has returned. *)
Definition handle_result s : option (option error) :=
  match s_writer s, s_timer s, s_receiver s, s_handling s with
  | WExited, TExited, RExited, false =>
      Some (match s_err s with
            | Some e => if bool_decide (e = EOF) then None else Some e
            | None => None
            end)
  | _, _, _, _ => None
  end.
End steps.

Abbreviation ext_reachable name ka mt :=
  (reachable (ext_step name ka mt) (eq new_session)).

(** ** Invariants *)

(** Split a step of a session into its cases. *)
Ltac ext_cases H :=
  unfold ext_step, caller_step, write_ping, write_cmd, encode_step, timer_step, take_step, visit_step,
    decode_step, receiver_step, leave, set_caller, close_slot, group_return in H;
  split_step H.

Section invariants.
Context {Q : Type} `{!TimeoutQueue Q}.
Context (name : string) (keepaliveInterval messageTimeout : Z).
Implicit Types s : session Q.
Local Abbreviation ext_step := (ext_step name keepaliveInterval messageTimeout).
Local Abbreviation ext_reachable := (ext_reachable name keepaliveInterval messageTimeout).

(** The key a call waits under. *)
Definition key_of s (c : nat) : option msgWaitKey :=
  (λ cl, cmd_key (caller_cmd cl)) <$> s_callers s !! c.

(** Calls keep their command, and what was received stays received. *)
Lemma ext_step_grows s e s' :
  ext_step s e = Some s' →
  (∀ c k, key_of s c = Some k → key_of s' c = Some k) ∧ s_received s ⊆ s_received s'.
Proof.
  unfold key_of. intros H. ext_cases H; (split; [|set_solver]); try done.
  all: intros c' k'; rewrite lookup_insert; case_decide; simplify_map_eq; try done.
Qed.

(** A message belongs to call [c]: it was received and answers [c]'s command. *)
Definition answers s (c : nat) (m : Msg) : Prop :=
  key_of s c = Some (msg_key m) ∧ m ∈ s_received s.

Definition result_of (pc : caller_pc) : option (result (option Msg)) :=
  match pc with
  | CRemove r | CClose r | CDelete r | CReturned r => Some r
  | _ => None
  end.

Definition in_hand (pc : receiver_pc) : option Msg :=
  match pc with RGot m | RLoad m | RSend _ m | RLocked _ m => Some m | _ => None end.

(** The slot it goes to. *)
Definition sending_to (pc : receiver_pc) : option (nat * Msg) :=
  match pc with RSend w m | RLocked w m => Some (w, m) | _ => None end.

Record corr_inv s : Prop := {
  corr_table k c : s_msgWait s !! k = Some c → key_of s c = Some k;
  corr_slot c sl m : s_slots s !! c = Some sl → m ∈ slot_buf sl → answers s c m;
  corr_send w m : sending_to (s_receiver s) = Some (w, m) → answers s w m;
  corr_hand m : in_hand (s_receiver s) = Some m → m ∈ s_received s;
  corr_result c cl m :
    s_callers s !! c = Some cl → result_of (caller_at cl) = Some (Ok (Some m)) → answers s c m;
}.

#[local] Instance receiver_pc_eq_dec : EqDecision receiver_pc.
Proof. solve_decision. Defined.

Lemma answers_step s e s' c m : ext_step s e = Some s' → answers s c m → answers s' c m.
Proof. intros Hstep [Hk Hm]. apply ext_step_grows in Hstep as [Hg Hr]. split; [eauto|set_solver]. Qed.

Lemma corr_table_step s e s' :
  corr_inv s → ext_step s e = Some s' →
  ∀ k c, s_msgWait s' !! k = Some c → key_of s' c = Some k.
Proof.
  intros Hinv Hstep k c Hk. pose proof (ext_step_grows _ _ _ Hstep) as [Hg _].
  destruct (s_msgWait s !! k) as [c0|] eqn:Hold.
  - destruct (decide (c0 = c)) as [->|Hne]; [by apply Hg, corr_table|].
    ext_cases Hstep; try congruence;
      rewrite ?lookup_insert, ?lookup_delete in Hk; case_decide; simplify_map_eq.
  - ext_cases Hstep; try congruence;
      rewrite ?lookup_insert, ?lookup_delete in Hk; case_decide; simplify_map_eq.
    unfold key_of. simpl. by rewrite lookup_insert_eq.
Qed.

Lemma corr_slot_step s e s' :
  corr_inv s → ext_step s e = Some s' →
  ∀ c sl m, s_slots s' !! c = Some sl → m ∈ slot_buf sl → answers s' c m.
Proof.
  intros Hinv Hstep c sl m Hsl Hm. apply (answers_step _ _ _ _ _ Hstep).
  destruct (s_slots s !! c) as [sl0|] eqn:Hold.
  - destruct (decide (m ∈ slot_buf sl0)) as [|Hn]; [by eapply corr_slot|].
    ext_cases Hstep; try congruence;
      rewrite ?lookup_insert, ?lookup_alter in Hsl; case_decide; simplify_map_eq; try set_solver.
    apply list_elem_of_singleton in Hm as ->. eapply corr_send; [done|]. by rewrite E0.
  - ext_cases Hstep; try congruence;
      rewrite ?lookup_insert, ?lookup_alter in Hsl; case_decide; subst;
      rewrite ?Hold in Hsl; simplify_map_eq; try set_solver.
Qed.

Lemma corr_receiver_step s e s' :
  corr_inv s → ext_step s e = Some s' →
  (∀ w m, sending_to (s_receiver s') = Some (w, m) → answers s' w m) ∧
  (∀ m, in_hand (s_receiver s') = Some m → m ∈ s_received s').
Proof.
  intros Hinv Hstep. pose proof (ext_step_grows _ _ _ Hstep) as [_ Hr]. split.
  - intros w m Hm. apply (answers_step _ _ _ _ _ Hstep).
    destruct (decide (sending_to (s_receiver s) = Some (w, m))) as [|Hn]; [by eapply corr_send|].
    ext_cases Hstep; try congruence; try (by destruct (slot_closed _));
      try (rewrite E0 in *; simpl in *; congruence).
    split; [by apply corr_table|]. apply corr_hand; [done|]. by rewrite E0.
  - intros m Hm. destruct (decide (in_hand (s_receiver s) = Some m)) as [Hh|Hh].
    { apply Hr. by apply corr_hand. }
    ext_cases Hstep; try congruence; try (by rewrite ?E0, ?E1 in Hh);
      try (destruct (slot_closed _)); try (rewrite ?E0 in *; simpl in *; congruence); set_solver.
Qed.

Lemma corr_result_step s e s' :
  corr_inv s → ext_step s e = Some s' →
  ∀ c cl m, s_callers s' !! c = Some cl → result_of (caller_at cl) = Some (Ok (Some m)) →
  answers s' c m.
Proof.
  intros Hinv Hstep c cl m Hcl Hres. apply (answers_step _ _ _ _ _ Hstep).
  destruct (s_callers s !! c) as [cl0|] eqn:Hold.
  - destruct (decide (result_of (caller_at cl0) = Some (Ok (Some m)))); [by eapply corr_result|].
    ext_cases Hstep; try congruence;
      rewrite ?lookup_insert in Hcl; case_decide; simplify_map_eq.
    all: try (by destruct wait).
    eapply corr_slot; [done|done|]. set_solver.
  - ext_cases Hstep; try congruence; rewrite ?lookup_insert in Hcl; case_decide; simplify_map_eq.
Qed.

Lemma corr_inv_reachable s : ext_reachable s → corr_inv s.
Proof.
  apply invariant_reachable. split.
  - intros s0 <-. split; simpl; intros; by simplify_map_eq.
  - intros s0 e s1 Hinv Hstep. destruct (corr_receiver_step _ _ _ Hinv Hstep).
    split; eauto using corr_table_step, corr_slot_step, corr_result_step.
Qed.

(** Responses are correlated: whatever the interleaving, a message that sendCmd returns was
    received from this extension during this session and carries the id and the sequence number
    of the very command it was called with. *)
Theorem response_matches_command s c cmd m :
  reachable ext_step (eq new_session) s → s_callers s !! c = Some (MkCaller cmd (CReturned (Ok (Some m)))) →
  msg_Id m = cmd_Id cmd ∧ msg_Ack m = cmd_Seq cmd ∧ m ∈ s_received s.
Proof.
  intros Hr%corr_inv_reachable Hc. destruct (corr_result s Hr c _ m Hc) as [Hk Hm]; [done|].
  unfold key_of in Hk. rewrite Hc in Hk. simpl in Hk. by injection Hk as <- <-.
Qed.

(** ** Slots *)

(** An open slot belongs to a call that has not closed it yet. *)
Definition owns_slot (pc : caller_pc) : bool :=
  match pc with
  | COffer | CSending true | CWaiting | CRemove _ | CClose _ => true
  | _ => false
  end.

Definition started (pc : caller_pc) : bool := match pc with CStart _ => false | _ => true end.

Lemma slot_owner s w sl :
  ext_reachable s → s_slots s !! w = Some sl →
  ∃ cmd pc, s_callers s !! w = Some (MkCaller cmd pc) ∧ started pc = true ∧
    (slot_closed sl = false → owns_slot pc = true).
Proof.
  intros Hr. revert w sl. induction Hr as [s <-|s e s' Hr IH Hstep]; intros w sl Hw; [done|].
  destruct (s_slots s !! w) as [sl0|] eqn:Hold.
  - destruct (IH w sl0 Hold) as (cmd & pc & Hc & Hst & Hpc).
    ext_cases Hstep; rewrite ?lookup_insert, ?lookup_alter in *; repeat case_decide; simplify_map_eq;
      try (by exists cmd, pc); try (eexists _, _; split_and!; [done|..]; try destruct wait; done).
  - ext_cases Hstep; try congruence; rewrite ?lookup_insert, ?lookup_alter in *; repeat case_decide;
      subst; rewrite ?Hold in Hw; simplify_map_eq; try (eexists _, _; split_and!; done).
Qed.

(** The slot whose lock the receive loop holds is open. *)
Lemma locked_open s w m :
  ext_reachable s → s_receiver s = RLocked w m → ∃ buf, s_slots s !! w = Some (MkSlot buf false).
Proof.
  intros Hr. revert w m. induction Hr as [s <-|s e s' Hr IH Hstep]; intros w m Hw; [done|].
  destruct (decide (s_receiver s = RLocked w m)) as [Hold|Hnew].
  - destruct (IH w m Hold) as [buf Hb]. destruct (slot_owner _ _ _ Hr Hb) as (cmd & pc & Hc & Hst & _).
    ext_cases Hstep; rewrite ?lookup_insert, ?lookup_alter; repeat case_decide; simplify_map_eq; eauto.
    all: unfold slot_free in *; rewrite Hold in *; by rewrite bool_decide_true in *.
  - ext_cases Hstep; try congruence. destruct (s_slots s !! _) as [[buf []]|] eqn:Hs; simplify_eq/=; eauto.
Qed.

(** ** Channels *)

Definition keepalive_closed (pc : timer_pc) : bool :=
  match pc with TClear | TExited => true | _ => false end.

Definition wire_cmds (w : list wire_item) : list Cmd :=
  omap (λ i, match i with WCmd c => Some c | WPing => None end) w.

(** What the writer holds, to be encoded. *)
Definition held s : list wire_item := match s_writer s with WHold i => [i] | _ => [] end.

Record chan_inv s : Prop := {
  ci_panic : s_panic s = false;
  ci_cmd_open : cclosed (s_cmdWriteCh s) = false;
  ci_keepalive : cclosed (s_keepaliveCh s) = keepalive_closed (s_timer s);
  ci_fifo : ∃ lost, s_accepted s = wire_cmds (s_wire s) ++ wire_cmds (held s) ++ lost ++ cbuf (s_cmdWriteCh s) ∧
              (s_writer s ≠ WExited → lost = []);
}.

Lemma ci_panic_step s e s' : ext_reachable s → chan_inv s → ext_step s e = Some s' → s_panic s' = false.
Proof.
  intros Hr [Hp Ho Hk _] H. pose proof (λ w m, locked_open s w m Hr) as Hl. ext_cases H; try done.
  4: by destruct (Hl _ _ eq_refl); simplify_map_eq.
  all: exfalso; unfold chan_send, chan_close in *; rewrite ?Ho, ?Hk in *; simpl in *.
  all: repeat match goal with H : s_timer _ = _ |- _ => rewrite H in * end; simpl in *.
  all: repeat case_match; congruence.
Qed.

Lemma ci_closed_step s e s' :
  chan_inv s → ext_step s e = Some s' →
  cclosed (s_cmdWriteCh s') = false ∧
  cclosed (s_keepaliveCh s') = keepalive_closed (s_timer s').
Proof.
  intros [Hp Ho Hk _] H. ext_cases H; chan_facts; try done.
  all: repeat match goal with H : s_timer _ = _ |- _ => rewrite H in * end; simpl in *.
  all: split; congruence.
Qed.

Lemma wire_cmds_app w1 w2 : wire_cmds (w1 ++ w2) = wire_cmds w1 ++ wire_cmds w2.
Proof. apply omap_app. Qed.

Lemma ci_fifo_step s e s' :
  chan_inv s → ext_step s e = Some s' →
  ∃ lost, s_accepted s' = wire_cmds (s_wire s') ++ wire_cmds (held s') ++ lost ++ cbuf (s_cmdWriteCh s') ∧
    (s_writer s' ≠ WExited → lost = []).
Proof.
  intros [Hp Ho Hk (lost & Hacc & Hlost)] H. unfold held in *. ext_cases H; chan_facts; try (by exists lost).
  - exists lost. match goal with H : cbuf _ = _ |- _ => rewrite H end. split; [|done].
    by rewrite Hacc, <-!(assoc_L (++)).
  - exists lost. split; [done|]. intros _. by apply Hlost.
  - rewrite Hlost in Hacc by done. exists []. split; [|done].
    match goal with H : cbuf _ = _ :: _ |- _ => by rewrite H in Hacc end.
  - rewrite (assoc_L (++)) in Hacc. by eexists (_ ++ lost); rewrite <-(assoc_L (++)), (assoc_L (++) (wire_cmds _)).
  - exists lost. split; [|intros _; by apply Hlost]. rewrite wire_cmds_app, <-(assoc_L (++)). done.
Qed.

Lemma chan_inv_reachable s : ext_reachable s → chan_inv s.
Proof.
  induction 1 as [s <-|s e s' Hr IH Hstep]; [split; try done; by exists []|].
  destruct (ci_closed_step _ _ _ IH Hstep). split; eauto using ci_panic_step, ci_fifo_step.
Qed.

(** C22. A session never panics: no goroutine of HandleStream sends on a closed channel or
    closes a channel twice, in any interleaving; the keepalive channel is closed exactly when
    the timeout loop has left, and the command channel never is. *)
Theorem session_never_panics s :
  reachable ext_step (eq new_session) s →
  s_panic s = false ∧ cclosed (s_cmdWriteCh s) = false ∧
  (cclosed (s_keepaliveCh s) = true ↔ s_timer s = TClear ∨ s_timer s = TExited).
Proof.
  intros [Hp Ho Hk _]%chan_inv_reachable. split_and!; [done|done|]. rewrite Hk.
  destruct (s_timer s); simpl; naive_solver.
Qed.

(** Commands reach the extension in the order in which sendCmd accepted them, each at most
    once and none invented: those on the wire are a prefix of those accepted; while the writer
    runs, the only accepted commands not on the wire are the one in its hands and those still in the
    channel. *)
Theorem commands_in_order s :
  reachable ext_step (eq new_session) s →
  wire_cmds (s_wire s) `prefix_of` s_accepted s ∧
  (s_writer s ≠ WExited → s_accepted s = wire_cmds (s_wire s) ++ wire_cmds (held s) ++ cbuf (s_cmdWriteCh s)).
Proof.
  intros [_ _ _ (lost & Hacc & Hlost)]%chan_inv_reachable. split.
  - rewrite Hacc. by apply prefix_app_r.
  - intros Hw. by rewrite Hacc, Hlost.
Qed.

(** A call that got to wait for its response, or has returned without an error, was accepted. *)
Definition got_through (pc : caller_pc) : bool :=
  match pc with
  | CWaiting | CRemove (Ok _) | CClose (Ok _) | CDelete (Ok _) | CReturned (Ok _) => true
  | _ => false
  end.

Lemma accepted_reachable s c cmd pc :
  ext_reachable s → s_callers s !! c = Some (MkCaller cmd pc) → got_through pc = true → cmd ∈ s_accepted s.
Proof.
  intros Hr. revert c cmd pc. induction Hr as [s <-|s e s' Hr IH Hstep]; intros c cmd pc Hc Hg; [done|].
  assert (s_accepted s ⊆ s_accepted s') as Hsub by (clear -Hstep; ext_cases Hstep; set_solver).
  destruct (s_callers s !! c) as [[cmd0 pc0]|] eqn:Hold.
  - destruct (got_through pc0) eqn:Hg0.
    { apply Hsub, (IH c cmd pc0); [|done]. rewrite Hold. do 2 f_equal. clear -Hstep Hold Hc.
      ext_cases Hstep; try (rewrite lookup_insert in Hc; case_decide); simplify_map_eq; done. }
    ext_cases Hstep; try (rewrite lookup_insert in Hc; case_decide); simplify_map_eq; try done.
    all: try (by destruct res || by destruct wait). all: set_solver.
  - ext_cases Hstep; try (rewrite lookup_insert in Hc; case_decide); simplify_map_eq; done.
Qed.

(** ** Shutdown *)

Record slots_inv s : Prop := {
  si_table k c : s_msgWait s !! k = Some c → is_Some (s_slots s !! c);
  si_send w m : sending_to (s_receiver s) = Some (w, m) → is_Some (s_slots s !! w);
}.

Lemma ext_step_slots s e s' c :
  ext_step s e = Some s' → is_Some (s_slots s !! c) → is_Some (s_slots s' !! c).
Proof.
  intros H Hc. ext_cases H; try done; rewrite ?lookup_insert_is_Some', ?lookup_alter_is_Some; auto.
Qed.

Lemma slots_inv_reachable s : ext_reachable s → slots_inv s.
Proof.
  apply invariant_reachable. split.
  - intros s0 <-. split; simpl; intros; by simplify_map_eq.
  - intros s0 e s1 [Ht Hs] Hstep. pose proof (λ c, ext_step_slots _ _ _ c Hstep) as Hslots.
    split.
    + intros k c Hk. destruct (s_msgWait s0 !! k) as [c0|] eqn:Hold.
      * destruct (decide (c0 = c)) as [->|Hne]; [by eauto|].
        ext_cases Hstep; try congruence;
          rewrite ?lookup_insert, ?lookup_delete in Hk; case_decide; simplify_map_eq.
      * ext_cases Hstep; try congruence;
          rewrite ?lookup_insert, ?lookup_delete in Hk; case_decide; simplify_map_eq.
        by eexists.
    + intros w m Hm. apply Hslots. destruct (decide (sending_to (s_receiver s0) = Some (w, m))) as [|Hn]; [by eauto|].
      ext_cases Hstep; try congruence; try (destruct (slot_closed _)); simplify_eq/=; eauto.
      all: rewrite E0 in *; simpl in *; congruence.
Qed.

Lemma cmdWriteCh_cap s : ext_reachable s → ccap (s_cmdWriteCh s) = 1%nat.
Proof. induction 1 as [s <-|s e s' Hr IH Hstep]; [done|]. ext_cases Hstep; chan_facts; congruence. Qed.

Lemma cmdWriteCh_room s : ext_reachable s → chan_ok (s_cmdWriteCh s).
Proof. induction 1 as [s <-|s e s' Hr IH Hstep]; [apply le_0_n|]. ext_cases Hstep; eauto with golib. Qed.

(** Steps that need nothing from outside, neither the connection nor the handle func: a Decode waits
    for the extension to send, and an Encode may wait for it to read. *)
Definition internal (e : ext_event) : bool :=
  match e with
  | ECall _ _ _ | EDecode _ | EEncode _ | EHandlerReturn | EParentCancel => false
  | _ => true
  end.

Definition quiescent s : Prop := ∀ e, internal e = true → ext_step s e = None.

Lemma quiescent_writer s :
  chan_inv s → s_timer s = TExited → quiescent s → s_writer s = WExited ∨ ∃ i, s_writer s = WHold i.
Proof.
  intros [Hp _ Hk _] Ht Hq. destruct (s_writer s) eqn:Ew; [exfalso|by eauto|by left].
  specialize (Hq EWritePing eq_refl). unfold Extension.ext_step, write_ping in Hq.
  rewrite Hp, Ew in Hq. unfold chan_recv in Hq. rewrite Hk, Ht in Hq. simpl in Hq.
  by destruct (cbuf (s_keepaliveCh s)).
Qed.

Lemma quiescent_receiver s :
  slots_inv s → s_panic s = false → s_done s = true → quiescent s →
  s_receiver s = RLoop ∨ s_receiver s = RExited.
Proof.
  intros [_ Hs] Hp Hd Hq. destruct (s_receiver s) as [|m|m|w m|w m|] eqn:Er; auto; exfalso;
    specialize (Hq (EReceiver true) eq_refl); unfold Extension.ext_step in Hq;
    rewrite Hp, Er in Hq; simpl in Hq; rewrite ?Hd in Hq; try done.
  - by case_match.
  - destruct (Hs w m) as [sl Hw]; [done|]. by rewrite Hw in Hq.
Qed.

Lemma quiescent_timer s :
  chan_inv s → (∀ w, slot_free w s = true) → s_done s = true → quiescent s → s_timer s = TExited.
Proof.
  intros [Hp _ Hk _] Hf Hd Hq. destruct (s_timer s) eqn:Et; [..|done]; exfalso.
  all: try (specialize (Hq (ETimer true) eq_refl); unfold Extension.ext_step in Hq;
    rewrite Hp, Et in Hq; simpl in Hq; rewrite ?Hd in Hq; congruence).
  - specialize (Hq (ETimer true) eq_refl). unfold Extension.ext_step in Hq.
    rewrite Hp, Et in Hq. simpl in Hq. case_match; [by rewrite Hf in Hq|done].
  - destruct (decide (todo = ∅)) as [->|Hne].
    + specialize (Hq (ETimer true) eq_refl). unfold Extension.ext_step in Hq.
      by rewrite Hp, Et in Hq.
    + apply set_choose_L in Hne as [k Hk']. specialize (Hq (EVisit k) eq_refl).
      unfold Extension.ext_step, visit_step in Hq. rewrite Hp, Et in Hq.
      case_match; [by rewrite Hf in Hq|]. by rewrite bool_decide_true in Hq.
  - specialize (Hq (ETimer true) eq_refl). unfold Extension.ext_step in Hq.
    rewrite Hp, Et in Hq. simpl in Hq. by case_match.
Qed.

Lemma quiescent_caller s c cl :
  s_panic s = false → (∀ w, slot_free w s = true) → s_done s = true → quiescent s → s_callers s !! c = Some cl →
  ∃ r, caller_at cl = CReturned r.
Proof.
  intros Hp Hf Hd Hq Hc. destruct cl as [cmd pc]. specialize (Hq (ECaller c true) eq_refl).
  unfold Extension.ext_step in Hq. rewrite Hp, Hc in Hq.
  destruct pc as [[]| | | | | | |]; simpl in Hq; rewrite ?Hd, ?Hf in Hq; eauto; try done.
  by case_match.
Qed.

(** C23. Shutdown is free of deadlock: once the session's context is done, the goroutines of
    HandleStream and all its sendCmd calls finish by themselves, except that the receive loop may be
    in a Decode and the writer in an Encode, which wait for the extension.  When nothing but the
    connection and the handle func can move any more, every sendCmd call has returned, the timeout
    loop has left, the receive loop has left or is in Decode, the writer has left or is in Encode,
    and HandleStream returns as soon as these two and the handle func have. *)
Theorem shutdown_deadlock_free s :
  reachable ext_step (eq new_session) s → s_done s = true → quiescent s →
  (∀ c cl, s_callers s !! c = Some cl → ∃ r, caller_at cl = CReturned r) ∧
  (s_writer s = WExited ∨ ∃ i, s_writer s = WHold i) ∧ s_timer s = TExited ∧
  (s_receiver s = RLoop ∨ s_receiver s = RExited) ∧
  (s_writer s = WExited → s_receiver s = RExited → s_handling s = false → is_Some (handle_result s)).
Proof.
  intros Hr Hd Hq. pose proof (chan_inv_reachable _ Hr) as Hc.
  pose proof (quiescent_receiver _ (slots_inv_reachable _ Hr) (ci_panic _ Hc) Hd Hq) as Hrc.
  assert (∀ w, slot_free w s = true) as Hf by (intros w; unfold slot_free; by destruct Hrc as [-> | ->]).
  pose proof (quiescent_timer _ Hc Hf Hd Hq) as Ht.
  pose proof (quiescent_writer _ Hc Ht Hq) as Hw.
  split_and!; [|done|done|..].
  - intros c cl. by apply quiescent_caller; [apply Hc|..].
  - done.
  - unfold handle_result. rewrite Ht. intros -> -> ->. by eexists.
Qed.

Lemma quiescent_idle s :
  s_writer s = WExited → s_timer s = TExited → s_receiver s = RLoop → s_callers s = ∅ →
  quiescent s.
Proof.
  intros Hw Ht Hr Hc e He. unfold Extension.ext_step, take_step, visit_step.
  rewrite Hw, Ht, Hr, Hc. destruct e; try done; by case_match.
Qed.

(** ** A call whose slot is no longer in the table *)

(** [c] waits on an open, empty slot that neither the table, nor the timeout loop, nor the
    receive loop refers to. *)
Record stranded s (c : nat) (cmd : Cmd) : Prop := {
  st_waiting : s_callers s !! c = Some (MkCaller cmd CWaiting);
  st_slot : s_slots s !! c = Some (MkSlot [] false);
  st_table k : s_msgWait s !! k ≠ Some c;
  st_timer k : s_timer s ≠ TCloseV k (Some c);
  st_receiver m : sending_to (s_receiver s) ≠ Some (c, m);
}.

Lemma done_step s e s' : ext_step s e = Some s' → s_done s = true → s_done s' = true.
Proof. intros H Hd. by ext_cases H. Qed.

(** Until the session ends it stays so. *)
Lemma stranded_step s e s' c cmd :
  stranded s c cmd → ext_step s e = Some s' → s_done s' = false → stranded s' c cmd.
Proof.
  intros [Hw Hs Ht Htm Hr] Hstep Hd.
  assert (s_done s = false) as Hd0
    by (apply not_true_is_false; intros ?%(done_step _ _ _ Hstep); congruence).
  split.
  - ext_cases Hstep; rewrite ?lookup_insert; repeat case_decide; simplify_map_eq; done.
  - ext_cases Hstep; rewrite ?lookup_insert, ?lookup_alter; repeat case_decide; simplify_map_eq;
      done || congruence || naive_solver.
  - intros k. ext_cases Hstep; rewrite ?lookup_insert, ?lookup_delete; repeat case_decide;
      simplify_map_eq; done || congruence || auto.
  - intros k. ext_cases Hstep; try done; congruence.
  - intros m. ext_cases Hstep; try done; try congruence; try (destruct (slot_closed _)); try done;
      rewrite ?E0 in *; simpl in *; congruence.
Qed.

(** What every step keeps while the session goes on. *)
Lemma until_done (P : session Q → Prop) s es s' :
  (∀ s e s', P s → ext_step s e = Some s' → s_done s' = false → P s') →
  P s → run ext_step s es = Some s' → s_done s' = false → P s'.
Proof.
  intros HP. revert s. induction es as [|e es IH]; intros s Hs Hrun Hd; simplify_eq/=; [done|].
  destruct (ext_step s e) as [s1|] eqn:E; [|done]. apply (IH s1); [|done..]. apply (HP s e); [done..|].
  apply not_true_is_false. intros Hd1. apply not_true_iff_false in Hd. apply Hd.
  clear -Hrun Hd1. revert s1 Hrun Hd1. induction es as [|e es IH]; intros s1 Hrun Hd1; simplify_eq/=; [done|].
  destruct (ext_step s1 e) as [s2|] eqn:E; [|done]. eauto using done_step.
Qed.

(** ** A receive loop that holds the lock of a full slot *)

(** Call [c] has its response and wants to close its slot; the receive loop waits for room in it. *)
Record lock_wedged s (c : nat) (m : Msg) : Prop := {
  wd_caller : ∃ cmd res, s_callers s !! c = Some (MkCaller cmd (CClose res));
  wd_receiver : s_receiver s = RLocked c m;
  wd_slot : ∃ m', s_slots s !! c = Some (MkSlot [m'] false);
}.

Lemma lock_wedged_step s e s' c m :
  lock_wedged s c m → ext_step s e = Some s' → s_done s' = false → lock_wedged s' c m.
Proof.
  intros [(cmd & res & Hc) Hr (m' & Hs)] Hstep Hd.
  assert (s_done s = false) as Hd0
    by (apply not_true_is_false; intros ?%(done_step _ _ _ Hstep); congruence).
  assert (slot_free c s = false) as Hf by (unfold slot_free; rewrite Hr; by rewrite bool_decide_true).
  split.
  - exists cmd, res. ext_cases Hstep; rewrite ?lookup_insert; repeat case_decide; simplify_map_eq; done || congruence.
  - ext_cases Hstep; simplify_map_eq; done || congruence.
  - exists m'. ext_cases Hstep; rewrite ?lookup_insert, ?lookup_alter; repeat case_decide; simplify_map_eq; done || congruence.
Qed.

(** What was received before the message in the receive loop's hands. *)
Definition before_hand s : list Msg :=
  match in_hand (s_receiver s) with
  | Some _ => take (length (s_received s) - 1) (s_received s)
  | None => s_received s
  end.

Lemma in_hand_last s m : ext_reachable s → in_hand (s_receiver s) = Some m → s_received s = before_hand s ++ [m].
Proof.
  intros Hr. revert m. induction Hr as [s <-|s e s' Hr IH Hstep]; intros m Hm; [done|].
  unfold before_hand in *. rewrite Hm. destruct (in_hand (s_receiver s)) as [m0|] eqn:Hh.
  - assert (m = m0 ∧ s_received s' = s_received s) as [-> ->]; [|by apply IH].
    ext_cases Hstep; try (destruct (slot_closed _)); simpl in *; try (rewrite E0 in Hm; simpl in Hm);
      try (rewrite E0 in Hh; simpl in Hh); split; congruence.
  - ext_cases Hstep; try congruence; try (by rewrite E0 in Hh). simplify_eq/=.
    by rewrite length_app, Nat.add_sub, take_app_length.
Qed.

Lemma before_hand_step s e s' :
  ext_reachable s → ext_step s e = Some s' →
  before_hand s' = before_hand s ∨
  ∃ m, in_hand (s_receiver s) = Some m ∧ in_hand (s_receiver s') = None ∧ before_hand s' = before_hand s ++ [m].
Proof.
  intros Hr Hstep. pose proof (λ m, in_hand_last s m Hr) as Hl. unfold before_hand in *.
  destruct (in_hand (s_receiver s)) as [m0|] eqn:Hh.
  - assert (s_received s' = s_received s) as Hrec by (by ext_cases Hstep).
    rewrite Hrec. destruct (in_hand (s_receiver s')) as [m1|]; [by left|right]. exists m0. by rewrite <-Hl.
  - left. ext_cases Hstep; try done; try (by rewrite Hh); try (by rewrite E0 in Hh). simpl.
    by rewrite length_app, Nat.add_sub, take_app_length.
Qed.

Lemma before_hand_mono s e s' :
  ext_reachable s → ext_step s e = Some s' → before_hand s ⊆ before_hand s' ∧
    (in_hand (s_receiver s') = None → ∀ m, in_hand (s_receiver s) = Some m → m ∈ before_hand s').
Proof.
  intros Hr Hstep. destruct (before_hand_step _ _ _ Hr Hstep) as [E|(m0 & Hh & Hn & ->)].
  - rewrite E. split; [done|]. intros Hn m Hm. exfalso.
    pose proof (in_hand_last _ _ Hr Hm) as Hl. assert (s_received s' = before_hand s) as Hr'.
    { rewrite <-E. unfold before_hand. by rewrite Hn. }
    apply (f_equal length) in Hl, Hr'. rewrite length_app in Hl. simpl in Hl.
    assert (s_received s' = s_received s) as Hs; [|rewrite Hs in Hr'; lia]. by ext_cases Hstep.
  - split; [set_solver|]. intros _ m Hm. assert (m = m0) as -> by congruence. set_solver.
Qed.

(** The messages in the slots came before the one in the receive loop's hands. *)
Lemma slots_before s c sl m :
  ext_reachable s → s_slots s !! c = Some sl → m ∈ slot_buf sl → m ∈ before_hand s.
Proof.
  intros Hr. revert c sl m. induction Hr as [s <-|s e s' Hr IH Hstep]; intros c sl m Hc Hm; [done|].
  destruct (before_hand_mono _ _ _ Hr Hstep) as [Hsub Hnew].
  destruct (s_slots s !! c) as [sl0|] eqn:Hold.
  - destruct (decide (m ∈ slot_buf sl0)) as [|Hn]; [by eapply Hsub, IH|].
    ext_cases Hstep; try congruence;
      rewrite ?lookup_insert, ?lookup_alter in Hc; case_decide; simplify_map_eq; try set_solver.
  - ext_cases Hstep; try congruence;
      rewrite ?lookup_insert, ?lookup_alter in Hc; case_decide; subst;
      rewrite ?Hold in Hc; simplify_map_eq; try set_solver.
Qed.

(** ** Dispatching *)

(** The message in the receive loop's hands that it has not looked up yet. *)
Definition undispatched (pc : receiver_pc) : list Msg :=
  match pc with RGot m | RLoad m => [m] | _ => [] end.

Lemma dispatched_all s :
  ext_reachable s → s_receiver s ≠ RExited → s_received s = (s_dispatched s).*1 ++ undispatched (s_receiver s).
Proof.
  induction 1 as [s <-|s e s' Hr IH Hstep]; intros Hne; [done|].
  ext_cases Hstep; rewrite ?E0 in *; simpl in *; try (by apply IH); rewrite IH by done;
    rewrite ?fmap_app, ?app_nil_r; try done.
  destruct (slot_closed _); by rewrite app_nil_r.
Qed.

(** A message goes to a call that has its key. *)
Lemma dispatched_key s m c :
  ext_reachable s → (m, Some c) ∈ s_dispatched s → key_of s c = Some (msg_key m).
Proof.
  intros Hr. revert m c. induction Hr as [s <-|s e s' Hr IH Hstep]; intros m c Hin; [set_solver|].
  pose proof (ext_step_grows _ _ _ Hstep) as [Hg _]. apply Hg.
  pose proof (corr_table _ (corr_inv_reachable _ Hr)) as Ht. clear Hg.
  ext_cases Hstep; try (by apply IH); apply elem_of_app in Hin as [?| [=]%list_elem_of_singleton]; subst; auto.
Qed.

(** ** Calls that have not timed out *)

(** The call is in the table, and its slot open, at these points. *)
Definition in_table (pc : caller_pc) : bool :=
  match pc with
  | COffer | CSending true | CWaiting | CRemove _ | CClose _ | CDelete _ => true
  | _ => false
  end.

Definition awaits (pc : caller_pc) : bool :=
  match pc with COffer | CSending true | CWaiting => true | _ => false end.

(** The timeout loop works on keys it has recorded. *)
Definition timer_ok s : Prop :=
  match s_timer s with
  | TCloseV k v => k ∈ s_timeouts s ∧ ∀ w, v = Some w → key_of s w = Some k
  | TDelete k | TRangeDelete k _ => k ∈ s_timeouts s
  | _ => True
  end.

Lemma timeouts_grow s e s' : ext_step s e = Some s' → s_timeouts s ⊆ s_timeouts s'.
Proof. intros Hstep. ext_cases Hstep; set_solver. Qed.

Lemma timer_ok_reachable s : ext_reachable s → timer_ok s.
Proof.
  induction 1 as [s <-|s e s' Hr IH Hstep]; [done|].
  pose proof (corr_table _ (corr_inv_reachable _ Hr)) as Ht. pose proof (ext_step_grows _ _ _ Hstep) as [Hg _].
  unfold timer_ok in *. ext_cases Hstep; rewrite ?E0 in *; try done.
  all: try (destruct (s_timer s); naive_solver). all: set_solver.
Qed.

(** As long as the timeout of a call's key has not come, the call is in the table, and while it waits
    its slot is open. *)
Definition on_time s : Prop := ∀ c cmd pc,
  s_callers s !! c = Some (MkCaller cmd pc) → cmd_key cmd ∉ s_timeouts s →
  (in_table pc = true → s_msgWait s !! cmd_key cmd = Some c) ∧
  (awaits pc = true → ∃ buf, s_slots s !! c = Some (MkSlot buf false)).

Lemma caller_since s e s' c cmd pc :
  ext_step s e = Some s' → s_callers s' !! c = Some (MkCaller cmd pc) →
  (s_callers s !! c = None ∧ ∃ wait, pc = CStart wait) ∨ ∃ pc0, s_callers s !! c = Some (MkCaller cmd pc0).
Proof.
  intros Hstep Hc. ext_cases Hstep; rewrite ?lookup_insert in Hc; repeat case_decide; simplify_map_eq; eauto.
Qed.

Lemma on_time_table s e s' c cmd pc :
  timer_ok s → on_time s → ext_step s e = Some s' → s_callers s' !! c = Some (MkCaller cmd pc) →
  cmd_key cmd ∉ s_timeouts s' → in_table pc = true → s_msgWait s' !! cmd_key cmd = Some c.
Proof.
  intros Hok IH Hstep Hc Hto Hin.
  assert (cmd_key cmd ∉ s_timeouts s) as Hto0 by (pose proof (timeouts_grow _ _ _ Hstep); set_solver).
  destruct (caller_since _ _ _ _ _ _ Hstep Hc) as [[_ [wait ->]]|[pc0 Hc0]]; [done|].
  destruct (IH _ _ _ Hc0 Hto0) as [Ht _]. unfold timer_ok in Hok.
  ext_cases Hstep; rewrite ?lookup_insert, ?lookup_delete in *; repeat case_decide; simplify_map_eq; try (by auto).
  all: try (by destruct wait; auto).
  all: assert (cmd_key caller_cmd0 = cmd_key cmd) as Hkey by (unfold cmd_key; congruence).
  - rewrite Hkey, Ht in E1; done.
  - destruct (IH _ _ _ E0) as [Ht0 _]; [by rewrite Hkey|]. rewrite Hkey, Ht in Ht0 by done. naive_solver.
Qed.

Lemma on_time_open s e s' c cmd pc :
  ext_reachable s → on_time s → ext_step s e = Some s' → s_callers s' !! c = Some (MkCaller cmd pc) →
  cmd_key cmd ∉ s_timeouts s' → awaits pc = true → ∃ buf, s_slots s' !! c = Some (MkSlot buf false).
Proof.
  intros Hr IH Hstep Hc Hto Hin. pose proof (timer_ok_reachable _ Hr) as Hok.
  pose proof (corr_table _ (corr_inv_reachable _ Hr)) as Htab.
  assert (cmd_key cmd ∉ s_timeouts s) as Hto0 by (pose proof (timeouts_grow _ _ _ Hstep); set_solver).
  destruct (caller_since _ _ _ _ _ _ Hstep Hc) as [[_ [wait ->]]|[pc0 Hc0]]; [done|].
  destruct (IH _ _ _ Hc0 Hto0) as [_ Ho]. unfold timer_ok, key_of in *.
  ext_cases Hstep; rewrite ?lookup_insert, ?lookup_alter in *; repeat case_decide; simplify_map_eq; try (by eauto).
  - by destruct wait.
  - by destruct wait; auto.
  - destruct Hok as [Hk Hw]. specialize (Hw _ eq_refl). rewrite Hc in Hw. by simplify_eq/=.
  - specialize (Htab _ _ E1). rewrite Hc in Htab. simplify_eq/=. set_solver.
Qed.

Lemma on_time_reachable s : ext_reachable s → on_time s.
Proof.
  induction 1 as [s <-|s e s' Hr IH Hstep]; [done|]. intros c cmd pc Hc Hto.
  split; eauto using on_time_table, on_time_open, timer_ok_reachable.
Qed.

(** Another call waits, or has waited, under the key of [c]. *)
Definition rival s (c : nat) (cmd : Cmd) : Prop :=
  ∃ c', c' ≠ c ∧ key_of s c' = Some (cmd_key cmd) ∧ is_Some (s_slots s !! c').

Lemma no_rival s c cmd :
  forallb (λ p : nat * caller, bool_decide (p.1 = c) || negb (bool_decide (cmd_key (caller_cmd p.2) = cmd_key cmd)) ||
             negb (bool_decide (is_Some (s_slots s !! p.1)))) (map_to_list (s_callers s)) = true →
  ¬ rival s c cmd.
Proof.
  rewrite forallb_forall. intros Hall (c' & Hne & Hk & Hs). unfold key_of in Hk.
  destruct (s_callers s !! c') as [cl|] eqn:Hc; simplify_eq/=.
  specialize (Hall (c', cl)). rewrite <-list_elem_of_In, elem_of_map_to_list in Hall. specialize (Hall Hc). simpl in Hall.
  unfold cmd_key in *. rewrite bool_decide_false, !bool_decide_true in Hall by congruence. done.
Qed.

Lemma rival_step s e s' c cmd : ext_step s e = Some s' → rival s c cmd → rival s' c cmd.
Proof.
  intros Hstep (c' & Hne & Hk & Hs). pose proof (ext_step_grows _ _ _ Hstep) as [Hg _].
  exists c'. eauto using ext_step_slots.
Qed.

(** A call that asked for a response, of a key that has not timed out, in a session that goes on: it
    waits, or it has got its response, or it was refused for the sake of another one. *)
Lemma call_outcome s c cmd pc :
  ext_reachable s → s_callers s !! c = Some (MkCaller cmd pc) → is_Some (s_slots s !! c) →
  cmd_key cmd ∉ s_timeouts s → s_done s = false →
  awaits pc = true ∨ (∃ m, result_of pc = Some (Ok (Some m))) ∨ rival s c cmd.
Proof.
  intros Hr. revert c cmd pc. induction Hr as [s <-|s e s' Hr IH Hstep]; intros c cmd pc Hc Hsl Hto Hd; [done|].
  assert (cmd_key cmd ∉ s_timeouts s) as Hto0 by (pose proof (timeouts_grow _ _ _ Hstep); set_solver).
  assert (s_done s = false) as Hd0 by (apply not_true_is_false; intros ?%(done_step _ _ _ Hstep); congruence).
  destruct (s_slots s !! c) as [sl|] eqn:Hs0.
  - destruct (slot_owner _ _ _ Hr Hs0) as (cmd0 & pc0 & Hc0 & Hst & _).
    destruct (caller_since _ _ _ _ _ _ Hstep Hc) as [[? _]|[pc1 Hc1]]; [congruence|].
    assert (cmd0 = cmd ∧ pc1 = pc0) as [-> ->] by naive_solver.
    destruct (IH _ _ _ Hc0 ltac:(done) Hto0 Hd0) as [Ha|[[m Hm]|?]]; [| |eauto using rival_step].
    + destruct (on_time_reachable _ Hr _ _ _ Hc0 Hto0) as [_ (buf & Hb)]; [done|].
      ext_cases Hstep; rewrite ?lookup_insert in Hc; repeat case_decide; simplify_map_eq; eauto.
      destruct wait; by auto.
    + ext_cases Hstep; rewrite ?lookup_insert in Hc; repeat case_decide; simplify_map_eq; eauto.
  - pose proof (corr_table _ (corr_inv_reachable _ Hr)) as Htab. pose proof (si_table _ (slots_inv_reachable _ Hr)) as Hst.
    pose proof (rival_step _ _ _ c cmd Hstep) as Hrs.
    ext_cases Hstep; rewrite ?lookup_insert, ?lookup_alter in *; repeat case_decide; simplify_map_eq; auto.
    all: try (by rewrite ?Hs0 in Hsl; destruct Hsl).
    right; right. apply Hrs. exists n. destruct (Hst _ _ E1) as [sl Hn].
    split_and!; [congruence|by apply Htab|by rewrite Hn].
Qed.

(** So the result of such a call, if nothing else waits under its key, is a message that answers it. *)
Lemma returned_on_time s c cmd r :
  ext_reachable s → s_callers s !! c = Some (MkCaller cmd (CReturned r)) → is_Some (s_slots s !! c) →
  cmd_key cmd ∉ s_timeouts s → s_done s = false → ¬ rival s c cmd →
  ∃ m, r = Ok (Some m) ∧ msg_key m = cmd_key cmd ∧ m ∈ s_received s.
Proof.
  intros Hr Hc Hsl Hto Hd Hv. destruct (call_outcome _ _ _ _ Hr Hc Hsl Hto Hd) as [?|[[m [= ->]]|?]]; [done| |done].
  exists m. split; [done|]. destruct (corr_result _ (corr_inv_reachable _ Hr) c _ m Hc) as [Hk ?]; [done|].
  split; [|done]. unfold key_of in Hk. rewrite Hc in Hk. by simplify_eq/=.
Qed.

(** ** Calls whose response has not come *)

(** Call [c] waits in front of its slot. *)
Record waits s (c : nat) (cmd : Cmd) : Prop := {
  wa_caller : s_callers s !! c = Some (MkCaller cmd CWaiting);
  wa_table : s_msgWait s !! cmd_key cmd = Some c;
  wa_slot : s_slots s !! c = Some (MkSlot [] false);
}.

Lemma waits_since s e s' c cmd :
  ext_step s e = Some s' → waits s' c cmd →
  waits s c cmd ∨ (s_accepted s' = s_accepted s ++ [cmd] ∧ s_receiver s' = s_receiver s ∧ s_received s' = s_received s).
Proof.
  intros Hstep [Hc Ht Hsl].
  assert (s_callers s !! c = Some (MkCaller cmd CWaiting) ∨
    (s_accepted s' = s_accepted s ++ [cmd] ∧ s_receiver s' = s_receiver s ∧ s_received s' = s_received s)) as [Hc0|?];
    [|left; split; [done|..]|by right].
  - ext_cases Hstep; rewrite ?lookup_insert in *; repeat case_decide; simplify_map_eq; auto; by destruct wait.
  - ext_cases Hstep; rewrite ?lookup_insert, ?lookup_delete in *; repeat case_decide; simplify_map_eq; auto.
  - ext_cases Hstep; rewrite ?lookup_insert, ?lookup_alter in *; repeat case_decide; simplify_map_eq; auto; by destruct (s_slots s !! c).
Qed.

(** What keeps it waiting: no message with its key has been delivered, and one that is being
    delivered goes to this call. *)
Definition unheard s (c : nat) (cmd : Cmd) : Prop :=
  (∀ m, m ∈ before_hand s → msg_key m ≠ cmd_key cmd) ∧
  (∀ w m, sending_to (s_receiver s) = Some (w, m) → msg_key m = cmd_key cmd → w = c).

Lemma unheard_step s e s' c cmd :
  ext_reachable s → ext_step s e = Some s' → waits s c cmd → waits s' c cmd → s_done s' = false →
  unheard s c cmd → unheard s' c cmd.
Proof.
  intros Hr Hstep [Hc Ht Hs] [_ _ Hs'] Hd' [Hb Hw].
  assert (s_done s = false) as Hd by (apply not_true_is_false; intros ?%(done_step _ _ _ Hstep); congruence).
  split.
  - destruct (before_hand_step _ _ _ Hr Hstep) as [->|(m0 & Hh & Hn & ->)]; [done|].
    intros m [?| ->%list_elem_of_singleton]%elem_of_app; [by apply Hb|]. intros Hk.
    ext_cases Hstep; rewrite ?E0 in *; simplify_eq/=; try congruence.
    all: rewrite (Hw _ _ eq_refl Hk) in *; simplify_map_eq; done.
  - intros w m Hm Hk. destruct (decide (sending_to (s_receiver s) = Some (w, m))) as [|Hne]; [by eapply Hw|].
    ext_cases Hstep; rewrite ?E0 in *; try (destruct (slot_closed _)); simplify_eq/=; congruence.
Qed.

(** C24. The receive loop is never held up by what it receives.  As long as no two messages of the
    extension carry the same id and number, the receive loop can always go on with the message
    it has received, in any interleaving: the slot it delivers to has room. *)
Theorem receive_loop_not_blocked s m :
  reachable ext_step (eq new_session) s → NoDup (msg_key <$> s_received s) → in_hand (s_receiver s) = Some m →
  is_Some (ext_step s (EReceiver false)).
Proof.
  intros Hr Hnd Hm. pose proof (ci_panic _ (chan_inv_reachable _ Hr)) as Hp.
  unfold Extension.ext_step. rewrite Hp.
  destruct (s_receiver s) as [|m0|m0|w m0|w m0|] eqn:E; simplify_eq/=; [by case_match; eauto..| |].
  - destruct (si_send _ (slots_inv_reachable _ Hr) w m) as [sl ->]; [by rewrite E|]. by eauto.
  - destruct (locked_open _ _ _ Hr E) as [[|m' buf] Hs]; rewrite Hs; [by eauto|exfalso].
    assert (in_hand (s_receiver s) = Some m) as Hh by (by rewrite E).
    pose proof (slots_before _ _ _ m' Hr Hs ltac:(by left)) as Hb.
    pose proof (in_hand_last _ _ Hr Hh) as Hl. pose proof (corr_inv_reachable _ Hr) as Hcorr.
    destruct (corr_slot _ Hcorr _ _ m' Hs ltac:(by left)) as [Hk1 _].
    destruct (corr_send _ Hcorr w m ltac:(by rewrite E)) as [Hk2 _].
    rewrite Hl, fmap_app in Hnd. apply list.NoDup_app in Hnd as (_ & Hnd & _).
    apply (Hnd (msg_key m')); [by apply list_elem_of_fmap_2|].
    assert (msg_key m' = msg_key m) as -> by congruence. by left.
Qed.
End invariants.

(** ** Registration *)

(** The extension manager's set of names, and the sessions that run. *)
Record manager : Type := MkManager {
  m_registered : gset string;
  m_sessions : gmap nat string;
}.

(** The closure at the top of HandleStream, under the manager's lock. *)
Definition register_extension (registered : gset string) (name : string) : result (gset string) :=
  if bool_decide (name ∈ registered)
  then Err (wrapError "failed to register extension"
              (errorString ("extension " +:+ Quote name +:+ " already registered")))
  else Ok ({[name]} ∪ registered).

(** The deferred function at its end. *)
Definition unregister_extension (registered : gset string) (name : string) : gset string :=
  registered ∖ {[name]}.

Inductive mgr_event : Type :=
| MBegin (id : nat) (name : string)   (* HandleStream is called and registers *)
| MEnd (id : nat).                    (* HandleStream returns *)

Definition mgr_step (m : manager) (e : mgr_event) : option manager :=
  match e with
  | MBegin id name =>
      match m_sessions m !! id, register_extension (m_registered m) name with
      | None, Ok reg => Some (MkManager reg (<[id := name]> (m_sessions m)))
      | _, _ => None
      end
  | MEnd id =>
      match m_sessions m !! id with
      | Some name =>
          Some (MkManager (unregister_extension (m_registered m) name) (delete id (m_sessions m)))
      | None => None
      end
  end.

Definition mgr_inv (m : manager) : Prop :=
  (∀ name, name ∈ m_registered m ↔ ∃ id, m_sessions m !! id = Some name) ∧
  (∀ id id' name, m_sessions m !! id = Some name → m_sessions m !! id' = Some name → id = id').

Lemma mgr_begin_inv m id name :
  mgr_inv m → m_sessions m !! id = None → name ∉ m_registered m →
  mgr_inv (MkManager ({[name]} ∪ m_registered m) (<[id := name]> (m_sessions m))).
Proof.
  intros [Hreg Hinj] Hid Hn. split; simpl.
  - intros n. rewrite elem_of_union, elem_of_singleton, Hreg. split.
    + intros [->|[id' Hid']]; [exists id; by rewrite lookup_insert_eq|].
      exists id'. rewrite lookup_insert_ne; [done|congruence].
    + intros [id' Hid']. rewrite lookup_insert in Hid'. case_decide; simplify_eq; eauto.
  - assert (∀ id', m_sessions m !! id' = Some name → False) as Hfree
      by (intros id' ?; apply Hn, Hreg; eauto).
    intros i j n. rewrite !lookup_insert. repeat case_decide; intros; simplify_eq; naive_solver.
Qed.

Lemma mgr_end_inv m id name :
  mgr_inv m → m_sessions m !! id = Some name →
  mgr_inv (MkManager (unregister_extension (m_registered m) name) (delete id (m_sessions m))).
Proof.
  intros [Hreg Hinj] Hid. split; simpl.
  - intros n. unfold unregister_extension. rewrite elem_of_difference, elem_of_singleton, Hreg. split.
    + intros [[id' Hid'] Hne]. exists id'. rewrite lookup_delete_ne; [done|congruence].
    + intros [id' Hid']. rewrite lookup_delete in Hid'. case_decide; [done|].
      split; [eauto|]. intros ->. eauto.
  - intros i j n. rewrite !lookup_delete. repeat case_decide; naive_solver.
Qed.

(** One session per extension name: in any sequence of sessions starting and ending, two
    sessions that run at the same time have different names, a start with a name in use is
    refused with an error that leaves the manager as it was, and a name is free again as soon as
    its session has ended. *)
Theorem one_session_per_name m :
  reachable mgr_step (eq (MkManager ∅ ∅)) m →
  (∀ id id' name, m_sessions m !! id = Some name → m_sessions m !! id' = Some name → id = id') ∧
  (∀ name, (∃ id, m_sessions m !! id = Some name) ↔
     ∃ e, register_extension (m_registered m) name = Err e) ∧
  (∀ id name m', m_sessions m !! id = Some name → mgr_step m (MEnd id) = Some m' →
     ∃ reg, register_extension (m_registered m') name = Ok reg).
Proof.
  intros Hr. assert (mgr_inv m) as [Hreg Hinj].
  { revert Hr. apply invariant_reachable. split.
    - intros ? <-. split; simpl; intros; [|by simplify_map_eq]. split; [set_solver|].
      intros [? ?]. by simplify_map_eq.
    - intros m0 e m1 Hinv Hstep. unfold mgr_step, register_extension in Hstep.
      destruct e; split_step Hstep; [case_bool_decide; [done|]|]; simplify_eq.
      + by apply mgr_begin_inv.
      + by apply mgr_end_inv. }
  split_and!; [done|..]; unfold register_extension.
  - intros name. rewrite <-Hreg. case_bool_decide; naive_solver.
  - intros id name m' Hid Hstep. simpl in Hstep. rewrite Hid in Hstep. simplify_eq/=.
    rewrite bool_decide_false; [eauto|]. unfold unregister_extension. set_solver.
Qed.

(** ** Sessions on concrete schedules *)

(** A timeout queue that delivers any pending key. *)
Module SampleQueue.
#[export] Instance list_queue : TimeoutQueue (list tq_key) := {|
  NewTimeoutQueue := [];
  OfferWithDelay k _ q := if bool_decide (k ∈ q) then q else q ++ [k];
  tq_Remove k q := filter (λ k', k' ≠ k) q;
  tq_Clear _ := [];
  tq_Take k q := if bool_decide (k ∈ q) then Some (filter (λ k', k' ≠ k) q) else None;
|}.
End SampleQueue.

Section schedules.
Import SampleQueue.
Local Abbreviation step := (ext_step (Q := list tq_key) "foo" 1000 1000).
Local Abbreviation reach := (reachable step (eq new_session)).

Definition state_after (es : list ext_event) : session (list tq_key) :=
  match run step new_session es with Some s => s | None => new_session end.

Definition a_cmd : Cmd := MkCmd 100 1 1 [].
Definition a_response : Msg := MkMsg 100 1 1 [42].

(** A command is sent and answered. *)
Definition answered_schedule : list ext_event :=
  [ETimer false; ECall 0 a_cmd true; ECaller 0 false; ECaller 0 false; ECaller 0 false;
   EWriteCmd; EEncode None; EDecode (Ok a_response); EReceiver false; EReceiver false; EReceiver false; EReceiver false;
   ECaller 0 false; ECaller 0 false; ECaller 0 false; ECaller 0 false].

(** A command times out; the timeout loop has closed its slot and is about to delete its key
    when the handle func, told of the timeout, sends the same command again. *)
Definition retry_schedule : list ext_event :=
  [ETimer false; ECall 0 a_cmd true; ECaller 0 false; ECaller 0 false; ECaller 0 false;
   EWriteCmd; EEncode None; ETake (TWait (1, 1)); ETimer false;
   ECaller 0 false; ECaller 0 false; ECaller 0 false; ECaller 0 false;
   ECall 1 a_cmd true; ECaller 1 false; ECaller 1 false; ECaller 1 false; EWriteCmd; EEncode None;
   ETimer false; EDecode (Ok a_response); EReceiver false; EReceiver false].

(** C38. Finding.  A command that is sent again after its timeout can wait forever.  The timeout
    loop deletes the table entry by key after it has closed the slot; when the caller retries
    in between, the entry deleted is the new one.  In the state reached here the answer to the
    second attempt has arrived and went to the out-of-band handler, and whatever happens next,
    the second call stays blocked until the session ends: it gets neither a response nor a
    timeout. *)
Theorem retry_after_timeout_hangs :
  ∃ s, reach s ∧
    s_callers s !! 0%nat = Some (MkCaller a_cmd (CReturned (Err (errorString "timeout")))) ∧
    s_oob s = [a_response] ∧ wire_cmds (s_wire s) = [a_cmd; a_cmd] ∧
    ∀ es s', run step s es = Some s' → s_done s' = false →
      s_callers s' !! 1%nat = Some (MkCaller a_cmd CWaiting).
Proof.
  exists (state_after retry_schedule).
  split_and!; [by apply (run_reachable _ _ retry_schedule); vm_compute|by vm_compute..|].
  intros es s' Hrun Hd.
  assert (stranded (state_after retry_schedule) 1 a_cmd) as Hst.
  { split; [by vm_compute|by vm_compute|..].
    - intros k. assert (s_msgWait (state_after retry_schedule) = ∅) as -> by (by vm_compute).
      by rewrite lookup_empty.
    - intros k. by assert (s_timer (state_after retry_schedule) = TLoop) as -> by (by vm_compute).
    - intros m. by assert (s_receiver (state_after retry_schedule) = RLoop) as -> by (by vm_compute). }
  apply (until_done _ _ _ (λ s, stranded s 1 a_cmd) _ _ _ (λ s e s', stranded_step _ _ _ s e s' _ _) Hst Hrun Hd).
Qed.

(** A command is answered three times: its call takes the first answer, the second has filled the
    slot again, and the receive loop has the third when the call wants to close the slot. *)
Definition deliver : list ext_event :=
  EDecode (Ok a_response) :: replicate 4 (EReceiver false).

Definition thrice_schedule : list ext_event :=
  [ETimer false; ECall 0 a_cmd true; ECaller 0 false; ECaller 0 false; ECaller 0 false; EWriteCmd; EEncode None] ++
  deliver ++ [ECaller 0 false] ++ deliver ++ [EDecode (Ok a_response)] ++ replicate 3 (EReceiver false) ++ [ECaller 0 false].

(** Finding.  An extension can wedge its session by answering a command three times.  The
    receive loop calls [send] with the third answer and waits, with the slot's spin lock held, for
    room in the slot, which nobody will make, because the call has its response and only wants to
    close the slot; for that it spins on the same lock.  In the state reached here, whatever
    happens next, until the session ends the call does not return its response and the receive
    loop takes no further message. *)
Theorem third_response_wedges_session :
  ∃ s, reach s ∧ s_done s = false ∧
    s_callers s !! 0%nat = Some (MkCaller a_cmd (CClose (Ok (Some a_response)))) ∧
    ∀ es s', run step s es = Some s' → s_done s' = false →
      (∃ cmd res, s_callers s' !! 0%nat = Some (MkCaller cmd (CClose res))) ∧
      s_receiver s' = RLocked 0 a_response.
Proof.
  exists (state_after thrice_schedule).
  split_and!; [by apply (run_reachable _ _ thrice_schedule); vm_compute|by vm_compute..|].
  intros es s' Hrun Hd.
  assert (lock_wedged (state_after thrice_schedule) 0 a_response) as Hw.
  { split; [exists a_cmd, (Ok (Some a_response))| |exists a_response]; by vm_compute. }
  by destruct (until_done _ _ _ (λ s, lock_wedged s 0 a_response) _ _ _ (λ s e s', lock_wedged_step _ _ _ s e s' _ _) Hw Hrun Hd).
Qed.

Lemma receive_loop_not_blocked_witness :
  is_Some (step (state_after (take 10 answered_schedule)) (EReceiver false)).
Proof.
  apply (receive_loop_not_blocked "foo" 1000 1000 (state_after (take 10 answered_schedule)) a_response).
  - apply (run_reachable _ _ (take 10 answered_schedule)). vm_compute. reflexivity.
  - change (NoDup [(1, 1)]). apply NoDup_singleton.
  - vm_compute. reflexivity.
Defined.

(** The handle func returns at once; the extension stays connected and silent. *)
Definition idle_schedule : list ext_event :=
  [ETimer false; EHandlerReturn; ETimer false; ETimer false; ETimer false; ETimer false;
   EWritePing].

(** Finding.  The session does not end with the handle func: its return cancels the
    context, which stops every goroutine but the receive loop, and nothing closes the stream,
    so HandleStream waits in Decode until the extension sends or disconnects. *)
Theorem handler_return_does_not_end_session :
  ∃ s, reach s ∧ s_handling s = false ∧ s_done s = true ∧ s_receiver s = RLoop ∧
    handle_result s = None ∧ s_callers s = ∅ ∧ quiescent "foo" 1000 1000 s.
Proof.
  exists (state_after idle_schedule).
  split_and!; [by apply (run_reachable _ _ idle_schedule); vm_compute|by vm_compute..|].
  apply quiescent_idle; by vm_compute.
Qed.

Lemma response_matches_command_witness :
  msg_Id a_response = cmd_Id a_cmd ∧ msg_Ack a_response = cmd_Seq a_cmd ∧
  a_response ∈ s_received (state_after answered_schedule).
Proof.
  apply (response_matches_command "foo" 1000 1000 (state_after answered_schedule) 0).
  - apply (run_reachable _ _ answered_schedule). vm_compute. reflexivity.
  - vm_compute. reflexivity.
Defined.

Lemma session_never_panics_witness :
  s_panic (state_after idle_schedule) = false ∧
  cclosed (s_cmdWriteCh (state_after idle_schedule)) = false ∧
  (cclosed (s_keepaliveCh (state_after idle_schedule)) = true ↔
    s_timer (state_after idle_schedule) = TClear ∨ s_timer (state_after idle_schedule) = TExited).
Proof.
  apply (session_never_panics "foo" 1000 1000), (run_reachable _ _ idle_schedule). vm_compute. reflexivity.
Defined.

Lemma commands_in_order_witness :
  wire_cmds (s_wire (state_after retry_schedule)) `prefix_of`
    s_accepted (state_after retry_schedule) ∧
  (s_writer (state_after retry_schedule) ≠ WExited →
    s_accepted (state_after retry_schedule) =
      wire_cmds (s_wire (state_after retry_schedule)) ++ wire_cmds (held (state_after retry_schedule)) ++
      cbuf (s_cmdWriteCh (state_after retry_schedule))).
Proof.
  apply (commands_in_order "foo" 1000 1000), (run_reachable _ _ retry_schedule). vm_compute. reflexivity.
Defined.

Lemma shutdown_deadlock_free_witness :
  (∀ c cl, s_callers (state_after idle_schedule) !! c = Some cl → ∃ r, caller_at cl = CReturned r) ∧
  (s_writer (state_after idle_schedule) = WExited ∨ ∃ i, s_writer (state_after idle_schedule) = WHold i) ∧
  s_timer (state_after idle_schedule) = TExited ∧
  (s_receiver (state_after idle_schedule) = RLoop ∨
   s_receiver (state_after idle_schedule) = RExited) ∧
  (s_writer (state_after idle_schedule) = WExited → s_receiver (state_after idle_schedule) = RExited →
   s_handling (state_after idle_schedule) = false →
   is_Some (handle_result (state_after idle_schedule))).
Proof.
  apply (shutdown_deadlock_free "foo" 1000 1000 (state_after idle_schedule)).
  - apply (run_reachable _ _ idle_schedule). vm_compute. reflexivity.
  - vm_compute. reflexivity.
  - apply quiescent_idle; vm_compute; reflexivity.
Defined.

Lemma one_session_per_name_witness :
  let m := MkManager {["foo"]} {[0%nat := "foo"]} in
  (∀ id id' name, m_sessions m !! id = Some name → m_sessions m !! id' = Some name → id = id') ∧
  (∀ name, (∃ id, m_sessions m !! id = Some name) ↔
     ∃ e, register_extension (m_registered m) name = Err e) ∧
  (∀ id name m', m_sessions m !! id = Some name → mgr_step m (MEnd id) = Some m' →
     ∃ reg, register_extension (m_registered m') name = Ok reg).
Proof.
  apply one_session_per_name.
  apply (reach_step _ _ (MkManager ∅ ∅) (MBegin 0 "foo")); [by constructor|reflexivity].
Defined.
End schedules.
