(* ===== verification/ExtContext.v ===== *)
(** * The context of a handle func (server/extension.go, ExtensionContext)

    [HandleStream] gives the handle func a context of its own, a child of the session's errgroup
    context, with a [Close] method.  Contexts are nodes of a tree; cancelling a node finishes it
    and its descendants. *)
From S2P Require Import Prelude GoChan Proto MsgWait Extension.

Set Default Proof Using "Type".

(** ** Contexts *)

(** A node and its parent; children come after their parents. *)
Record ctx_node : Type := MkCtx { cx_parent : option nat; cx_cancelled : bool }.
Abbreviation ctx_tree := (list ctx_node).

(** [context.WithCancel]: the tree and the new node. *)
Definition WithCancel (parent : nat) (t : ctx_tree) : ctx_tree * nat :=
  (t ++ [MkCtx (Some parent) false], length t).

Definition cancel (n : nat) (t : ctx_tree) : ctx_tree := alter (λ c, MkCtx (cx_parent c) true) n t.

(** Whether [Done()] is closed.  A node has fewer ancestors than its index. *)
Fixpoint done_within (fuel : nat) (t : ctx_tree) (n : nat) : bool :=
  match fuel, t !! n with
  | S fuel, Some c =>
      cx_cancelled c || match cx_parent c with Some p => done_within fuel t p | None => false end
  | _, _ => false
  end.
Definition ctx_Done (t : ctx_tree) (n : nat) : bool := done_within (S n) t n.

(** Parents come first. *)
Definition ctx_ok (t : ctx_tree) : Prop :=
  ∀ n c p, t !! n = Some c → cx_parent c = Some p → (p < n)%nat.

Lemma done_within_cancel fuel t n m :
  ctx_ok t → (m < n)%nat → done_within fuel (cancel n t) m = done_within fuel t m.
Proof.
  intros Hok. revert m. induction fuel as [|fuel IH]; intros m Hm; [done|]. simpl. unfold cancel.
  rewrite list_lookup_alter_ne by lia. destruct (t !! m) as [c|] eqn:E; [|done].
  destruct (cx_parent c) as [p|] eqn:Ep; [|done]. f_equal. apply IH. pose proof (Hok _ _ _ E Ep). lia.
Qed.

Lemma ctx_Done_cancel n t c : t !! n = Some c → ctx_Done (cancel n t) n = true.
Proof. intros H. unfold ctx_Done, cancel. simpl. by rewrite list_lookup_alter_eq, H. Qed.

(** ** ExtensionContext *)

Record ExtensionContext (I : Type) : Type := MkExtensionContext {
  ec_Context : nat;
  ec_Name : string;
  ec_Codec : I;
}.
Arguments MkExtensionContext {I} _ _ _.
Arguments ec_Context {I} _.
Arguments ec_Name {I} _.
Arguments ec_Codec {I} _.

Definition NewExtensionContext {I} (parent : nat) (name : string) (codec : I) (t : ctx_tree)
  : ctx_tree * ExtensionContext I :=
  let '(t, extCtx) := WithCancel parent t in (t, MkExtensionContext extCtx name codec).

Definition ec_Close {I} (c : ExtensionContext I) (t : ctx_tree) : ctx_tree := cancel (ec_Context c) t.

(** ** A session with the context of its handle func *)

Section served.
Context {Q : Type} `{!TimeoutQueue Q} {I : Type}.
Context (name : string) (codec : I) (keepaliveInterval messageTimeout : Z).
Local Abbreviation ext_step := (ext_step (Q := Q) name keepaliveInterval messageTimeout).

(** Node 0 is the manager's context, node 1 the errgroup's ([ctx]), which the goroutines of the
    session look at. *)
Record served : Type := MkServed {
  v_ctxs : ctx_tree;
  v_session : session Q;
  v_ext : ExtensionContext I;
}.

Definition served_init : served :=
  let '(t, ctx) := WithCancel 0 [MkCtx None false] in
  let '(t, ext) := NewExtensionContext ctx name codec t in
  MkServed t new_session ext.

Inductive served_event : Type := VSession (e : ext_event) | VClose.

(** A goroutine that returns, or the end of the manager's context, cancels [ctx]; the handle func
    calls [Close] while it runs. *)
Definition served_step (v : served) (e : served_event) : option served :=
  match e with
  | VSession e =>
      match ext_step (v_session v) e with
      | Some s => Some (MkServed (if s_done s then cancel 1 (v_ctxs v) else v_ctxs v) s (v_ext v))
      | None => None
      end
  | VClose =>
      if s_handling (v_session v)
      then Some (MkServed (ec_Close (v_ext v) (v_ctxs v)) (v_session v) (v_ext v)) else None
  end.

Definition session_events (es : list served_event) : list ext_event :=
  omap (λ e, match e with VSession e => Some e | VClose => None end) es.

Lemma ext_step_stays_done s e s' : ext_step s e = Some s' → s_done s = true → s_done s' = true.
Proof. intros H Hd. ext_cases H; done. Qed.

(** The contexts agree with the session: [ctx] is done exactly when the session's goroutines see
    it done, and the handle func's context is done whenever [ctx] is. *)
Record served_ok (v : served) : Prop := {
  vo_nodes : ∃ c1 c2, v_ctxs v = [MkCtx None false; MkCtx (Some 0%nat) c1; MkCtx (Some 1%nat) c2] ∧
    c1 = s_done (v_session v);
  vo_ext : v_ext v = MkExtensionContext 2 name codec;
}.

Lemma served_ok_reachable v : reachable served_step (eq served_init) v → served_ok v.
Proof.
  apply invariant_reachable. split.
  - intros ? <-. split; [by eexists _, _|done].
  - intros [t s x] e v' [(c1 & c2 & Hn & Hd) Hx] Hstep. destruct e as [e|]; simpl in *.
    + destruct (ext_step s e) as [s'|] eqn:E; simplify_eq. split; simpl; [|done].
      destruct (s_done s') eqn:Hd'; [by eexists _, _|]. exists (s_done s), c2. split; [done|].
      destruct (s_done s) eqn:Hs; [|done]. by erewrite ext_step_stays_done in Hd'.
    + destruct (s_handling s); simplify_eq. split; simpl; [|done]. by eexists _, _.
Qed.

(** Finding.  [Close], which is documented to close the extension's connection, does not.  It
    finishes the context the handle func itself was given and nothing else: the context the
    session's goroutines and sendCmd look at is as it was, and the session goes on exactly as if
    [Close] had not been called, command by command, whatever happens afterwards. *)
Theorem Close_keeps_connection v :
  reachable served_step (eq served_init) v →
  (∀ v', served_step v VClose = Some v' →
     ctx_Done (v_ctxs v') (ec_Context (v_ext v')) = true ∧ ctx_Done (v_ctxs v') 1 = ctx_Done (v_ctxs v) 1) ∧
  ctx_Done (v_ctxs v) 1 = s_done (v_session v) ∧
  (∀ es v', run served_step v es = Some v' →
     run ext_step (v_session v) (session_events es) = Some (v_session v')).
Proof.
  intros Hr. pose proof (served_ok_reachable v Hr) as [(c1 & c2 & Hn & Hd) Hx].
  assert (ctx_ok (v_ctxs v)) by (rewrite Hn; intros [|[|[|n]]] c p ??; simplify_eq/=; lia).
  split_and!.
  - intros v' Hstep. simpl in Hstep. destruct (s_handling _); simplify_eq/=. rewrite Hx. unfold ec_Close. simpl. split.
    + eapply ctx_Done_cancel. by rewrite Hn.
    + unfold ctx_Done. by apply done_within_cancel; [|lia].
  - rewrite Hn. unfold ctx_Done. simpl. by rewrite Hd, orb_false_r.
  - clear. intros es. revert v. induction es as [|e es IH]; intros v v' Hrun; simpl in *; [by simplify_eq|].
    destruct (served_step v e) as [v1|] eqn:E; simplify_eq. apply IH in Hrun. destruct e as [e|]; simpl in *.
    + destruct (ext_step (v_session v) e) eqn:Es; simplify_eq. done.
    + destruct (s_handling _); simplify_eq. done.
Qed.
End served.

(** After [Close] a command is sent and answered as before. *)
Section closed.
Import SampleQueue.

Example closed_and_answered :
  option_map (λ v, (ctx_Done (v_ctxs v) 2, ctx_Done (v_ctxs v) 1, s_callers (v_session v) !! 0%nat))
    (run (served_step (Q := list tq_key) "foo" 1000 1000) (served_init "foo" tt)
       (VClose :: (VSession <$> answered_schedule)))
  = Some (true, false, Some (MkCaller a_cmd (CReturned (Ok (Some a_response))))).
Proof. vm_compute. reflexivity. Qed.
End closed.
