(* ===== verification/Handler.v ===== *)
(** * Handlers (types/handler.go, extutil/handler.go)

    The interface between the controller and what handles its commands, and the [BaseHandler]
    both handlers of the repository embed. *)
From S2P Require Import Prelude Proto.

Set Default Proof Using "Type".

(** arhat.dev/pkg/wellknownerrors *)
Class WellKnownErrors := {
  ErrNotFound : error;
  ErrAlreadyExists : error;
}.

Definition sample_errors : WellKnownErrors := {|
  ErrNotFound := errorString "not found";
  ErrAlreadyExists := errorString "already exists";
|}.

(** The three results of [HandleCmd]: a message type, a body ([None] is a nil interface) and an
    error. *)
Record cmd_result (B : Type) : Type := MkCmdResult {
  res_kind : Z;
  res_ret : option B;
  res_err : option error;
}.
Arguments MkCmdResult {B} _ _ _.
Arguments res_kind {B} _.
Arguments res_ret {B} _.
Arguments res_err {B} _.

(** [return 0, nil, err] *)
Definition failed {B} (e : error) : cmd_result B := MkCmdResult 0 None (Some e).
(** [return kind, body, nil] *)
Definition replied {B} (kind : Z) (body : B) : cmd_result B := MkCmdResult kind (Some body) None.

(** [types.Handler], for handlers with state [H] that reply with bodies of type [B] and know
    send functions as values of type [F]. *)
Class Handler (H B F : Type) := {
  SetMsgSendFunc : F → H → H;
  HandleCmd : Z → Z → Z → bytes → H → outcome (H * cmd_result B);
}.

(** ** BaseHandler *)

Section base_handler.
Context {W : Type}.   (* what a send function acts on *)

(** [types.MsgSendFunc]; [None] is a nil func. *)
Abbreviation MsgSendFunc := (option (Msg → W → W * option error)).

(** The [atomic.Value]: [None] before the first Store. *)
Record BaseHandler : Type := MkBaseHandler { msgSendFuncStore : option MsgSendFunc }.

Definition NewBaseHandler : BaseHandler := MkBaseHandler None.

Definition ErrMsgSendFuncNotSet : error := errorString "message send func not set".

Definition base_SetMsgSendFunc (sendMsg : MsgSendFunc) (h : BaseHandler) : BaseHandler :=
  MkBaseHandler (Some sendMsg).

Definition SendMsg (h : BaseHandler) (msg : Msg) (w : W) : W * option error :=
  match msgSendFuncStore h with
  | Some (Some f) => f msg w
  | _ => (w, Some ErrMsgSendFuncNotSet)
  end.
End base_handler.
