(* ===== verification/Peripheral.v ===== *)
(** * The peripheral handler (package extperipheral)

    Commands arrive one at a time (the controller calls [HandleCmd] from a single loop), so the
    handler is a function on its state.  The connector and the peripherals are the user's code:
    [connector] answers each call from the calls made before it, and the state records them all,
    so that a theorem can say what the handler did with the connections it was given. *)
From S2P Require Import Prelude Proto Handler.

Set Default Proof Using "Type".

Abbreviation params := (gmap string string).

Section peripheral.
Context `{pb : !ArhatPb, wke : !WellKnownErrors}.
Context {TLSConfig Metric : Type}.

Record PeripheralConnectCmd : Type := MkConnectCmd {
  con_Target : string;
  con_Params : params;
  con_Tls : option TLSConfig;
}.

Record PeripheralOperateCmd : Type := MkOperateCmd { op_Params : params; op_Data : bytes }.
Record PeripheralMetricsCollectCmd : Type := MkCollectCmd { col_Params : params }.

(** The bodies of the handler's replies. *)
Inductive body : Type :=
| DoneMsg
| PeripheralOperationResultMsg (result : list bytes)
| PeripheralMetricsMsg (values : list Metric).

(** A call of the user's code and its result.  A connection is known by the position of the
    [Connect] that made it; [Ok None] is a nil [Peripheral]. *)
Inductive pcall : Type :=
| PConnect (spec : PeripheralConnectCmd) (ret : result (option nat))
| POperate (p : nat) (spec : PeripheralOperateCmd) (ret : result (list bytes))
| PCollect (p : nat) (spec : PeripheralMetricsCollectCmd) (ret : result (list Metric))
| PClose (p : nat).

(** [PeripheralConnector] and [Peripheral], and the codec's [unmarshal]. *)
Record connector : Type := MkConnector {
  do_connect : list pcall → PeripheralConnectCmd → result bool;   (* [false]: nil, nil *)
  do_operate : list pcall → nat → PeripheralOperateCmd → result (list bytes);
  do_collect : list pcall → nat → PeripheralMetricsCollectCmd → result (list Metric);
  unmarshal_connect : bytes → result PeripheralConnectCmd;
  unmarshal_operate : bytes → result PeripheralOperateCmd;
  unmarshal_collect : bytes → result PeripheralMetricsCollectCmd;
}.
Context (impl : connector).

(** The handler: its sync.Map, and the calls it has made. *)
Record handler : Type := MkHandler {
  peripherals : gmap Z (option nat);
  calls : list pcall;
}.
Implicit Types h : handler.

Definition called (c : pcall) h : handler := MkHandler (peripherals h) (calls h ++ [c]).
Definition store (id : Z) (p : option nat) h : handler :=
  MkHandler (<[id := p]> (peripherals h)) (calls h).
Definition remove (id : Z) h : handler := MkHandler (delete id (peripherals h)) (calls h).

(** [impl.Connect] *)
Definition connect (spec : PeripheralConnectCmd) h : handler * result (option nat) :=
  let ret :=
    match do_connect impl (calls h) spec with
    | Err e => Err e
    | Ok true => Ok (Some (length (calls h)))
    | Ok false => Ok None
    end in
  (called (PConnect spec ret) h, ret).

(** [p.Close(ctx)]: a method call on a nil interface panics. *)
Definition close_peripheral (p : option nat) h : outcome handler :=
  match p with
  | Some n => Return (called (PClose n) h)
  | None => Panic "invalid memory address or nil pointer dereference"
  end.

Definition handlePeripheralConnect (peripheralID : Z) (payload : bytes) h
  : outcome (handler * option error) :=
  match peripherals h !! peripheralID with
  | Some _ => Return (h, Some (errorString "invalid duplicate peripheral id"))
  | None =>
      match unmarshal_connect impl payload with
      | Err e => Return (h, Some (wrapError "failed to unmarshal PeripheralConnectCmd" e))
      | Ok spec =>
          match connect spec h with
          | (h1, Err e) =>
              Return (h1, Some (wrapError "failed to establish connection to peripheral" e))
          | (h1, Ok p) =>
              match peripherals h1 !! peripheralID with   (* LoadOrStore *)
              | Some _ =>
                  h2 ← close_peripheral p h1;
                  Return (h2, Some (errorString "invalid duplicate peripheral"))
              | None => Return (store peripheralID p h1, None)
              end
          end
      end
  end.

(** A nil stored in the map fails the type assertion, and is dropped. *)
Definition getPeripheral (peripheralID : Z) h : handler * option nat :=
  match peripherals h !! peripheralID with
  | None => (h, None)
  | Some None => (remove peripheralID h, None)
  | Some (Some p) => (h, Some p)
  end.

Definition removePeripheral (peripheralID : Z) h : handler :=
  let '(h1, p) := getPeripheral peripheralID h in
  remove peripheralID (match p with Some p => called (PClose p) h1 | None => h1 end).

Definition handlePeripheralOperate (p : nat) (payload : bytes) h : handler * cmd_result body :=
  match unmarshal_operate impl payload with
  | Err e => (h, failed (wrapError "failed to unmarshal PeripheralOperateCmd" e))
  | Ok spec =>
      let ret := do_operate impl (calls h) p spec in
      (called (POperate p spec ret) h,
       match ret with
       | Err e => failed (wrapError "failed to execute operation" e)
       | Ok r => replied MSG_PERIPHERAL_OPERATION_RESULT (PeripheralOperationResultMsg r)
       end)
  end.

Definition handlePeripheralMetricsCollect (p : nat) (payload : bytes) h
  : handler * cmd_result body :=
  match unmarshal_collect impl payload with
  | Err e => (h, failed (wrapError "failed to unmarshal PeripheralMetricsCollectCmd" e))
  | Ok spec =>
      let ret := do_collect impl (calls h) p spec in
      (called (PCollect p spec ret) h,
       match ret with
       | Err e => failed (wrapError "failed to collect peripheral metrics" e)
       | Ok r => replied MSG_PERIPHERAL_METRICS (PeripheralMetricsMsg r)
       end)
  end.

(** [NewHandler]: the empty sync.Map and the table of operations on a connected peripheral. *)
Definition NewHandler : handler := MkHandler ∅ [].

Definition funcMap : gmap Z (nat → bytes → handler → handler * cmd_result body) :=
  <[CMD_PERIPHERAL_OPERATE := handlePeripheralOperate]>
    (<[CMD_PERIPHERAL_COLLECT_METRICS := handlePeripheralMetricsCollect]> ∅).

Definition peripheral_HandleCmd (id seq kind : Z) (payload : bytes) h
  : outcome (handler * cmd_result body) :=
  if kind =? CMD_PERIPHERAL_CLOSE then
    Return (removePeripheral id h, replied MSG_DONE DoneMsg)
  else if kind =? CMD_PERIPHERAL_CONNECT then
    '(h1, err) ← handlePeripheralConnect id payload h;
    Return (h1, match err with Some e => failed e | None => replied MSG_DONE DoneMsg end)
  else
    match funcMap !! kind with
    | None => Return (h, failed (errorString "unknown cmd"))
    | Some handle =>
        match getPeripheral id h with
        | (h1, None) => Return (h1, failed ErrNotFound)
        | (h1, Some p) => Return (handle p payload h1)
        end
    end.

(** A sequence of commands, in order. *)
Fixpoint handle_all (cmds : list Cmd) h : outcome (handler * list (cmd_result body)) :=
  match cmds with
  | [] => Return (h, [])
  | c :: cmds =>
      '(h1, r) ← peripheral_HandleCmd (cmd_Id c) (cmd_Seq c) (cmd_Kind c) (cmd_Payload c) h;
      '(h2, rs) ← handle_all cmds h1;
      Return (h2, r :: rs)
  end.

(** As the controller sees it: with the [BaseHandler] it embeds. *)
#[export] Instance peripheral_handler {W} :
  Handler (BaseHandler (W := W) * handler) body (option (Msg → W → W * option error)) := {|
  SetMsgSendFunc f bh := (base_SetMsgSendFunc f bh.1, bh.2);
  HandleCmd id seq kind payload bh :=
    '(h, r) ← peripheral_HandleCmd id seq kind payload bh.2; Return ((bh.1, h), r);
|}.

(** ** Connections *)

(** Check a call against the connections open before it: [None] when it uses or closes a
    connection that is not open, or returns one that is. *)
Definition audit_call (live : gset nat) (c : pcall) : option (gset nat) :=
  match c with
  | PConnect _ (Ok (Some p)) => if bool_decide (p ∈ live) then None else Some ({[p]} ∪ live)
  | PConnect _ _ => Some live
  | POperate p _ _ | PCollect p _ _ => if bool_decide (p ∈ live) then Some live else None
  | PClose p => if bool_decide (p ∈ live) then Some (live ∖ {[p]}) else None
  end.

(** The connections open after the calls of a trace, if it is well behaved throughout. *)
Fixpoint audit (live : gset nat) (tr : list pcall) : option (gset nat) :=
  match tr with
  | [] => Some live
  | c :: tr => match audit_call live c with Some live' => audit live' tr | None => None end
  end.

Lemma audit_app live tr c :
  audit live (tr ++ [c]) = live' ← audit live tr; audit_call live' c.
Proof.
  revert live. induction tr as [|c' tr IH]; intros live; simpl.
  - by destruct (audit_call live c).
  - by destruct (audit_call live c').
Qed.

(** The open connections are those of the map, each under one id. *)
Record managed h (live : gset nat) : Prop := {
  mg_audit : audit ∅ (calls h) = Some live;
  mg_live p : p ∈ live ↔ ∃ id, peripherals h !! id = Some (Some p);
  mg_inj id id' p : peripherals h !! id = Some (Some p) → peripherals h !! id' = Some (Some p) → id = id';
  mg_old p : p ∈ live → (p < length (calls h))%nat;
}.

Lemma managed_new : managed NewHandler ∅.
Proof. split; simpl; intros; simplify_map_eq; [done| |set_solver]. split; [set_solver|]. intros [? ?]. simplify_map_eq. Qed.

(** A call that neither opens nor closes a connection. *)
Lemma managed_call h live c :
  managed h live → audit_call live c = Some live → managed (called c h) live.
Proof.
  intros [Ha Hl Hi Ho] Hc. split; simpl; [|done|done|].
  - by rewrite audit_app, Ha.
  - intros p Hp%Ho. rewrite length_app. simpl. lia.
Qed.

Lemma managed_remove_nil h live id :
  managed h live → (∀ p, peripherals h !! id ≠ Some (Some p)) → managed (remove id h) live.
Proof.
  intros [Ha Hl Hi Ho] Hn. split; simpl; [done| |..|done].
  - intros p. rewrite Hl. split; intros [id' Hid']; exists id'.
    + rewrite lookup_delete_ne; [done|]. intros ->. by apply (Hn p).
    + by apply lookup_delete_Some in Hid' as [_ ?].
  - intros i j p. rewrite !lookup_delete_Some. naive_solver.
Qed.

Lemma managed_close h live id p :
  managed h live → peripherals h !! id = Some (Some p) →
  managed (remove id (called (PClose p) h)) (live ∖ {[p]}).
Proof.
  intros [Ha Hl Hi Ho] Hp. split; simpl.
  - rewrite audit_app, Ha. simpl. rewrite bool_decide_true; [done|]. apply Hl. eauto.
  - intros q. rewrite elem_of_difference, elem_of_singleton, Hl. setoid_rewrite lookup_delete_Some.
    split; [|naive_solver]. intros [[id' Hid'] Hne]. exists id'. split; [congruence|done].
  - intros i j q. rewrite !lookup_delete_Some. naive_solver.
  - intros q [Hq%Ho _]%elem_of_difference. rewrite length_app. simpl. lia.
Qed.

Lemma managed_store h live spec id p :
  managed h live → peripherals h !! id = None → p = length (calls h) →
  managed (store id (Some p) (called (PConnect spec (Ok (Some p))) h)) ({[p]} ∪ live).
Proof.
  intros [Ha Hl Hi Ho] Hid ->.
  assert (length (calls h) ∉ live) as Hnew by (intros ?%Ho; lia).
  assert (∀ i, peripherals h !! i ≠ Some (Some (length (calls h)))) as Hfree by (intros i ?; apply Hnew, Hl; eauto).
  split; simpl.
  - rewrite audit_app, Ha. simpl. by rewrite bool_decide_false.
  - intros q. rewrite elem_of_union, elem_of_singleton, Hl. setoid_rewrite lookup_insert_Some. split.
    + intros [->|[id' Hid']]; [eauto|]. exists id'. right. split; [congruence|done].
    + naive_solver.
  - intros i j q. rewrite !lookup_insert_Some. naive_solver.
  - intros q. rewrite length_app, elem_of_union, elem_of_singleton. simpl. intros [->|?%Ho]; lia.
Qed.

Lemma managed_store_nil h live id :
  managed h live → peripherals h !! id = None → managed (store id None h) live.
Proof.
  intros [Ha Hl Hi Ho] Hid. split; simpl; [done| |..|done].
  - intros p. rewrite Hl. setoid_rewrite lookup_insert_Some. split; [|naive_solver].
    intros [id' Hid']. exists id'. right. split; [congruence|done].
  - intros i j q. rewrite !lookup_insert_Some. naive_solver.
Qed.

Ltac handle_cases :=
  unfold peripheral_HandleCmd, handlePeripheralConnect, connect, removePeripheral,
    getPeripheral, funcMap, handlePeripheralOperate, handlePeripheralMetricsCollect;
  simpl.

Lemma funcMap_Some kind f :
  funcMap !! kind = Some f → f = handlePeripheralOperate ∨ f = handlePeripheralMetricsCollect.
Proof. unfold funcMap. rewrite !lookup_insert_Some. rewrite lookup_empty. naive_solver. Qed.

(** An operation runs on a connection that is open, and leaves the map alone. *)
Lemma operation_managed h live p f payload :
  f = handlePeripheralOperate ∨ f = handlePeripheralMetricsCollect →
  managed h live → p ∈ live →
  managed (f p payload h).1 live ∧ peripherals (f p payload h).1 = peripherals h.
Proof.
  intros [-> | ->] Hm Hp; handle_cases; case_match; simpl; (split; [|done]); try done;
    apply managed_call; [done| |done|]; simpl; by rewrite bool_decide_true.
Qed.

Lemma get_managed id h h' p live :
  managed h live → getPeripheral id h = (h', p) →
  managed h' live ∧ (∀ q, p = Some q → q ∈ live) ∧
  ∀ i q, peripherals h' !! i = Some (Some q) ↔ peripherals h !! i = Some (Some q).
Proof.
  unfold getPeripheral. intros Hm H. split_step H.
  - split_and!; [done|intros; simplify_eq; apply (mg_live _ _ Hm); eauto|done].
  - split_and!; [apply managed_remove_nil; [done|congruence]|done|].
    intros i q. rewrite lookup_delete_Some. naive_solver.
  - done.
Qed.

Lemma connect_managed id payload h live :
  managed h live →
  ∃ h' err live', handlePeripheralConnect id payload h = Return (h', err) ∧ managed h' live' ∧
    (∀ e, err = Some e → peripherals h' = peripherals h).
Proof.
  intros Hm. unfold handlePeripheralConnect, connect.
  destruct (peripherals h !! id) eqn:E; [by eauto 10|].
  destruct (unmarshal_connect impl payload) as [spec|]; [|by eauto 10].
  destruct (do_connect impl (calls h) spec) as [[]|]; simpl; rewrite ?E.
  - do 3 eexists. split; [done|]. split; [by apply managed_store|done].
  - do 3 eexists. split; [done|]. split; [|done]. apply managed_store_nil; [|done].
    by apply managed_call.
  - do 3 eexists. split; [done|]. split; [|done]. by apply managed_call.
Qed.

Lemma remove_managed id h live : managed h live → ∃ live', managed (removePeripheral id h) live'.
Proof.
  intros Hm. unfold removePeripheral, getPeripheral.
  destruct (peripherals h !! id) as [[p|]|] eqn:E.
  - eauto using managed_close.
  - eexists. apply managed_remove_nil; [apply managed_remove_nil|]; [done|congruence|].
    simpl. by rewrite lookup_delete_eq.
  - eexists. apply managed_remove_nil; [done|congruence].
Qed.

(** One command: it returns, the connections stay managed, and a command that fails neither
    opens nor closes one. *)
Lemma HandleCmd_managed id seq kind payload h live :
  managed h live →
  ∃ h' r live', peripheral_HandleCmd id seq kind payload h = Return (h', r) ∧ managed h' live' ∧
    (∀ e, res_err r = Some e → ∀ i q,
      peripherals h' !! i = Some (Some q) ↔ peripherals h !! i = Some (Some q)).
Proof.
  intros Hm. unfold peripheral_HandleCmd.
  destruct (kind =? CMD_PERIPHERAL_CLOSE).
  { destruct (remove_managed id h live Hm) as [live' ?]. by exists (removePeripheral id h), (replied MSG_DONE DoneMsg), live'. }
  destruct (kind =? CMD_PERIPHERAL_CONNECT).
  { destruct (connect_managed id payload h live Hm) as (h' & err & live' & -> & Hm' & Herr). simpl.
    do 3 eexists. split; [done|]. split; [done|].
    destruct err as [e0|]; simpl; [|done]. intros e _ i q. by rewrite (Herr _ eq_refl). }
  destruct (funcMap !! kind) as [f|] eqn:Hf; [|by eauto 10].
  destruct (getPeripheral id h) as [h1 [p|]] eqn:Hg;
    destruct (get_managed _ _ _ _ _ Hm Hg) as (Hm1 & Hp & Hq); [|by eauto 10].
  destruct (operation_managed h1 live p f payload (funcMap_Some _ _ Hf) Hm1 (Hp _ eq_refl)) as [? Hper].
  destruct (f p payload h1) as [h2 r]. do 3 eexists. split; [done|]. split; [done|].
  intros e _ i q. simpl in Hper. by rewrite Hper.
Qed.

Lemma handle_all_managed cmds h0 live0 :
  managed h0 live0 →
  ∃ h rs live, handle_all cmds h0 = Return (h, rs) ∧ length rs = length cmds ∧ managed h live.
Proof.
  revert h0 live0. induction cmds as [|c cmds IH]; intros h0 live0 Hm; [by exists h0, [], live0|]. simpl.
  destruct (HandleCmd_managed (cmd_Id c) (cmd_Seq c) (cmd_Kind c) (cmd_Payload c) h0 live0 Hm)
    as (h1 & r & live1 & -> & Hm1 & _). simpl.
  destruct (IH h1 live1 Hm1) as (h2 & rs & live2 & -> & Hlen & Hm2). simpl.
  exists h2, (r :: rs), live2. split_and!; [done|simpl; lia|done].
Qed.

(** The peripheral handler never leaks and never misuses a connection.  Whatever commands
    arrive, in whatever order, and however the connector answers, all of them are answered
    without a panic; in the calls made to the user's code no connection is operated, read or
    closed unless it is open, none is closed twice, and the connections still open at the end are
    those of the map, each under exactly one peripheral id. *)
Theorem peripheral_no_leak cmds :
  ∃ h rs live, handle_all cmds NewHandler = Return (h, rs) ∧ length rs = length cmds ∧
    audit ∅ (calls h) = Some live ∧
    (∀ p, p ∈ live ↔ ∃ id, peripherals h !! id = Some (Some p)) ∧
    (∀ id id' p, peripherals h !! id = Some (Some p) → peripherals h !! id' = Some (Some p) → id = id').
Proof.
  destruct (handle_all_managed cmds _ _ managed_new) as (h & rs & live & ? & ? & [? ? ? ?]). eauto 10.
Qed.

(** ** Results *)

(** The ways through HandleCmd. *)
Ltac HandleCmd_cases Hr :=
  match type of Hr with
  | peripheral_HandleCmd ?id _ _ _ ?h = _ =>
      unfold peripheral_HandleCmd, handlePeripheralConnect, connect, close_peripheral, removePeripheral, getPeripheral in Hr;
      let Hid := fresh "Hid" in
      destruct (peripherals h !! id) as [[]|] eqn:Hid; split_step Hr
  end;
  try match goal with
      | F : funcMap !! _ = Some _ |- _ =>
          apply funcMap_Some in F as [-> | ->];
          unfold handlePeripheralOperate, handlePeripheralMetricsCollect in Hr; split_step Hr;
          try destruct (do_operate _ _ _ _); try destruct (do_collect _ _ _ _); simplify_eq/=
      end.

Lemma HandleCmd_calls id seq kind payload h h' r :
  peripheral_HandleCmd id seq kind payload h = Return (h', r) → calls h `prefix_of` calls h'.
Proof. intros Hr. HandleCmd_cases Hr; try done; rewrite <-?(assoc_L (++)); by apply prefix_app_r. Qed.

(** HandleCmd never returns neither a body nor an error. *)
Lemma HandleCmd_answers id seq kind payload h h' r :
  peripheral_HandleCmd id seq kind payload h = Return (h', r) → is_Some (res_err r) ∨ is_Some (res_ret r).
Proof. intros Hr. HandleCmd_cases Hr; (try by left; eexists); by right; eexists. Qed.

(** An operation's result is what the peripheral returned. *)
Lemma HandleCmd_operated id seq kind payload h h' r ret :
  peripheral_HandleCmd id seq kind payload h = Return (h', r) → res_ret r = Some (PeripheralOperationResultMsg ret) →
  ∃ p spec, peripherals h !! id = Some (Some p) ∧ unmarshal_operate impl payload = Ok spec ∧
    calls h' = calls h ++ [POperate p spec (Ok ret)].
Proof. intros Hr Hret. HandleCmd_cases Hr; eauto 10. Qed.

Lemma handle_all_calls cmds h0 h rs : handle_all cmds h0 = Return (h, rs) → calls h0 `prefix_of` calls h.
Proof.
  revert h0 rs. induction cmds as [|c cmds IH]; intros h0 rs Hall; simpl in Hall; [by simplify_eq|].
  destruct (peripheral_HandleCmd _ _ _ _ h0) as [[h1 r]| |] eqn:E1; try done. simpl in Hall.
  destruct (handle_all cmds h1) as [[h2 rs2]| |] eqn:E2; simplify_eq/=.
  etrans; [by eapply HandleCmd_calls|by eapply IH].
Qed.

(** Each result of a sequence of commands is the one HandleCmd gave after the commands before. *)
Lemma handle_all_result cmds h0 h rs i c r :
  handle_all cmds h0 = Return (h, rs) → cmds !! i = Some c → rs !! i = Some r →
  ∃ h1 h2, handle_all (take i cmds) h0 = Return (h1, take i rs) ∧
    peripheral_HandleCmd (cmd_Id c) (cmd_Seq c) (cmd_Kind c) (cmd_Payload c) h1 = Return (h2, r) ∧
    calls h2 `prefix_of` calls h.
Proof.
  revert h0 rs i. induction cmds as [|c0 cmds IH]; intros h0 rs i Hall Hc Hri; [done|]. simpl in Hall.
  destruct (peripheral_HandleCmd _ _ _ _ h0) as [[h1 r1]| |] eqn:E1; try done. simpl in Hall.
  destruct (handle_all cmds h1) as [[h2 rs2]| |] eqn:E2; simplify_eq/=. destruct i as [|i]; simplify_eq/=.
  - exists h0, h1. eauto using handle_all_calls.
  - destruct (IH _ _ _ E2 Hc Hri) as (h3 & h4 & H1 & H2 & H3). rewrite E1. simpl. rewrite H1. simpl. eauto.
Qed.

(** ** Serving a connected peripheral *)

(** A connection stays under its id until that id is closed. *)
Lemma HandleCmd_keeps id p c h h' r :
  peripherals h !! id = Some (Some p) → (cmd_Id c = id → cmd_Kind c ≠ CMD_PERIPHERAL_CLOSE) →
  peripheral_HandleCmd (cmd_Id c) (cmd_Seq c) (cmd_Kind c) (cmd_Payload c) h = Return (h', r) →
  peripherals h' !! id = Some (Some p).
Proof.
  intros Hp Hc. unfold peripheral_HandleCmd.
  destruct (Z.eqb_spec (cmd_Kind c) CMD_PERIPHERAL_CLOSE) as [Hk|].
  { intros [= <- <-]. assert (id ≠ cmd_Id c) by (intros ->; by apply Hc).
    unfold removePeripheral, getPeripheral.
    repeat case_match; simplify_eq/=; by rewrite ?lookup_delete_ne. }
  destruct (_ =? _).
  { unfold handlePeripheralConnect, connect, close_peripheral. intros Hr. split_step Hr; try done;
      rewrite lookup_insert_ne; congruence. }
  destruct (funcMap !! cmd_Kind c) as [f|] eqn:Hf; [|by intros [= <- <-]].
  destruct (getPeripheral (cmd_Id c) h) as [h1 q] eqn:Hg. intros Hr.
  assert (peripherals h1 !! id = Some (Some p)) as Hp1.
  { unfold getPeripheral in Hg. split_step Hg; try done. rewrite lookup_delete_ne; congruence. }
  apply funcMap_Some in Hf as [-> | ->];
    unfold handlePeripheralOperate, handlePeripheralMetricsCollect in Hr; by split_step Hr.
Qed.

Lemma handle_all_keeps id p cmds h h' rs :
  peripherals h !! id = Some (Some p) →
  Forall (λ c, cmd_Id c = id → cmd_Kind c ≠ CMD_PERIPHERAL_CLOSE) cmds →
  handle_all cmds h = Return (h', rs) → peripherals h' !! id = Some (Some p).
Proof.
  intros Hp Hall. revert h rs Hp. induction Hall as [|c cmds Hc _ IH]; intros h rs Hp Hr; simpl in Hr;
    [by simplify_eq|].
  destruct (peripheral_HandleCmd _ _ _ _ _) as [[h1 r]| |] eqn:E; try done. simpl in Hr.
  destruct (handle_all cmds h1) as [[h2 rs2]| |] eqn:E2; simplify_eq/=.
  eauto using HandleCmd_keeps.
Qed.

(** A connected peripheral is served until it is closed.  After a connect command for [id]
    succeeded, and whatever other commands come next short of a close of [id] (commands for other
    peripherals, failing ones, another connect for [id]), an operate command for [id] runs on the
    connection that connect made, with the parameters and data decoded from its payload, and its
    result is the reply. *)
Theorem connected_until_closed (id seq seq' : Z) (payload payload' : bytes) (spec : PeripheralConnectCmd)
    (ospec : PeripheralOperateCmd) cmds h h1 h2 rs :
  CMD_PERIPHERAL_OPERATE ≠ CMD_PERIPHERAL_CLOSE → CMD_PERIPHERAL_OPERATE ≠ CMD_PERIPHERAL_CONNECT →
  CMD_PERIPHERAL_CONNECT ≠ CMD_PERIPHERAL_CLOSE →
  unmarshal_connect impl payload = Ok spec → do_connect impl (calls h) spec = Ok true →
  peripheral_HandleCmd id seq CMD_PERIPHERAL_CONNECT payload h = Return (h1, replied MSG_DONE DoneMsg) →
  Forall (λ c, cmd_Id c = id → cmd_Kind c ≠ CMD_PERIPHERAL_CLOSE) cmds →
  handle_all cmds h1 = Return (h2, rs) →
  unmarshal_operate impl payload' = Ok ospec →
  let p := length (calls h) in
  let ret := do_operate impl (calls h2) p ospec in
  peripheral_HandleCmd id seq' CMD_PERIPHERAL_OPERATE payload' h2 =
    Return (called (POperate p ospec ret) h2,
            match ret with
            | Ok r => replied MSG_PERIPHERAL_OPERATION_RESULT (PeripheralOperationResultMsg r)
            | Err e => failed (wrapError "failed to execute operation" e)
            end).
Proof.
  intros Hk1 Hk2 Hk3 Hun Hconn Hc Hall Hcmds Hop p ret.
  assert (peripherals h1 !! id = Some (Some p)) as Hp.
  { unfold peripheral_HandleCmd, handlePeripheralConnect, connect in Hc.
    rewrite (proj2 (Z.eqb_neq _ _) Hk3), Z.eqb_refl, Hun, Hconn in Hc.
    split_step Hc. by rewrite lookup_insert_eq. }
  eapply handle_all_keeps in Hp; [|done..]. unfold peripheral_HandleCmd.
  rewrite (proj2 (Z.eqb_neq _ _) Hk1), (proj2 (Z.eqb_neq _ _) Hk2).
  unfold funcMap. rewrite lookup_insert_eq. unfold getPeripheral. rewrite Hp.
  unfold handlePeripheralOperate. rewrite Hop. subst ret. simpl. by destruct (do_operate _ _ _ _).
Qed.

(** C35. Commands that cannot be carried out, on any state of the handler.  A connect for an id in
    use is refused before the connector is asked.  An operation or a collection of metrics for an id
    under which no peripheral is connected gives [ErrNotFound], without a call to the user's code.  A
    command of an unknown type gives "unknown cmd" and changes nothing, whatever the id holds: a
    connected peripheral is not operated.  A close is answered with [MSG_DONE] also when there was
    nothing to close, and closes the connection of its id, and nothing else, when there was. *)
Theorem peripheral_command_errors (id seq : Z) (payload : bytes) h :
  CMD_PERIPHERAL_CONNECT ≠ CMD_PERIPHERAL_CLOSE →
  (is_Some (peripherals h !! id) →
    peripheral_HandleCmd id seq CMD_PERIPHERAL_CONNECT payload h =
      Return (h, failed (errorString "invalid duplicate peripheral id"))) ∧
  (∀ kind, kind ∈ [CMD_PERIPHERAL_OPERATE; CMD_PERIPHERAL_COLLECT_METRICS] →
    kind ∉ [CMD_PERIPHERAL_CLOSE; CMD_PERIPHERAL_CONNECT] →
    (∀ p, peripherals h !! id ≠ Some (Some p)) →
    peripheral_HandleCmd id seq kind payload h =
      Return (MkHandler (delete id (peripherals h)) (calls h), failed ErrNotFound)) ∧
  (∀ kind, kind ∉ [CMD_PERIPHERAL_CLOSE; CMD_PERIPHERAL_CONNECT; CMD_PERIPHERAL_OPERATE; CMD_PERIPHERAL_COLLECT_METRICS] →
    peripheral_HandleCmd id seq kind payload h = Return (h, failed (errorString "unknown cmd"))) ∧
  peripheral_HandleCmd id seq CMD_PERIPHERAL_CLOSE payload h =
    Return (MkHandler (delete id (peripherals h))
              (calls h ++ match peripherals h !! id with Some (Some p) => [PClose p] | _ => [] end),
            replied MSG_DONE DoneMsg).
Proof.
  intros Hk. unfold peripheral_HandleCmd. split_and!.
  - intros [p Hp]. rewrite (proj2 (Z.eqb_neq _ _) Hk), Z.eqb_refl. unfold handlePeripheralConnect.
    by rewrite Hp.
  - intros kind Hin [H1 [H2 _]%not_elem_of_cons]%not_elem_of_cons Hp.
    rewrite (proj2 (Z.eqb_neq _ _) H1), (proj2 (Z.eqb_neq _ _) H2).
    assert (∃ f, funcMap !! kind = Some f) as [f ->].
    { unfold funcMap. rewrite !lookup_insert. repeat case_decide; eauto. set_solver. }
    unfold getPeripheral. destruct (peripherals h !! id) as [[p|]|] eqn:E; [by destruct (Hp p)|done|].
    rewrite delete_id by done. by destruct h.
  - intros kind Hn. rewrite !not_elem_of_cons in Hn. destruct Hn as (H1 & H2 & H3 & H4 & _).
    rewrite (proj2 (Z.eqb_neq _ _) H1), (proj2 (Z.eqb_neq _ _) H2). unfold funcMap.
    by rewrite !lookup_insert_ne, lookup_empty by done.
  - rewrite Z.eqb_refl. unfold removePeripheral, getPeripheral.
    destruct (peripherals h !! id) as [[p|]|]; simpl; [done|..]; unfold remove; simpl;
      by rewrite ?delete_delete_eq, app_nil_r.
Qed.
End peripheral.

Arguments MkConnectCmd {_} _ _ _.
Arguments MkConnector {_ _} _ _ _ _ _ _.
Arguments MkHandler {_ _} _ _.
Arguments NewHandler {_ _}.
Arguments DoneMsg {_}.
Arguments PeripheralOperationResultMsg {_} _.

(** ** A session with an echoing peripheral *)

Module SamplePeripheral.
#[local] Existing Instance sample_pb.
#[local] Existing Instance sample_errors.

(** Connects unless the payload is empty; operations return the data they were given. *)
Definition echo : connector (TLSConfig := unit) (Metric := Z) := {|
  do_connect _ _ := Ok true;
  do_operate _ _ spec := Ok [op_Data spec];
  do_collect _ _ _ := Err (errorString "no metrics");
  unmarshal_connect b := match b with [] => Err EOF | _ => Ok (MkConnectCmd "dev" ∅ None) end;
  unmarshal_operate b := Ok (MkOperateCmd ∅ b);
  unmarshal_collect b := Ok (MkCollectCmd ∅);
|}.

Definition kind_connect : Z := @CMD_PERIPHERAL_CONNECT sample_pb.
Definition kind_operate : Z := @CMD_PERIPHERAL_OPERATE sample_pb.
Definition kind_close : Z := @CMD_PERIPHERAL_CLOSE sample_pb.
Definition kind_collect : Z := @CMD_PERIPHERAL_COLLECT_METRICS sample_pb.

(** Peripheral 7 connected. *)
Definition connected : handler := match peripheral_HandleCmd echo 7 0 kind_connect [1] NewHandler with
  | Return (h, _) => h | _ => NewHandler end.

(** Other commands: another peripheral comes and goes, 7 is connected again in vain. *)
Definition others : list Cmd :=
  [MkCmd kind_connect 8 1 [1]; MkCmd kind_connect 7 2 [1]; MkCmd kind_collect 7 3 [];
   MkCmd kind_close 8 4 []; MkCmd kind_operate 9 5 []].

Definition after_others : handler :=
  match handle_all echo others connected with Return (h, _) => h | _ => NewHandler end.

Lemma connected_until_closed_witness :
  peripheral_HandleCmd echo 7 6 kind_operate [42; 43] after_others =
    Return (called (POperate 0 (MkOperateCmd ∅ [42; 43]) (Ok [[42; 43]])) after_others,
            replied (@MSG_PERIPHERAL_OPERATION_RESULT sample_pb) (PeripheralOperationResultMsg [[42; 43]])).
Proof.
  apply (connected_until_closed echo 7 0 6 [1] [42; 43] (MkConnectCmd "dev" ∅ None)
           (MkOperateCmd ∅ [42; 43]) others NewHandler connected after_others
           (match handle_all echo others connected with Return (_, rs) => rs | _ => [] end)).
  1-3: vm_compute; congruence.
  1-3: vm_compute; reflexivity.
  - repeat constructor; vm_compute; congruence.
  - vm_compute; reflexivity.
  - reflexivity.
Defined.

Lemma peripheral_command_errors_witness :
  peripheral_HandleCmd echo 7 0 kind_connect [1] connected =
    Return (connected, failed (errorString "invalid duplicate peripheral id")) ∧
  peripheral_HandleCmd echo 7 0 99 [1] connected = Return (connected, failed (errorString "unknown cmd")).
Proof.
  destruct (peripheral_command_errors echo 7 0 [1] connected) as (H1 & _ & H2 & _); [vm_compute; congruence|].
  split.
  - apply H1. vm_compute. eexists. reflexivity.
  - apply H2. vm_compute. intros Hin. repeat (apply elem_of_cons in Hin as [Hin|Hin]; [discriminate Hin|]). inversion Hin.
Defined.
End SamplePeripheral.
