(* ===== verification/Streaming.v ===== *)
(** * Input streams (extutil/streaming.go)

    A [StreamManager] keeps one [stream] per session id: a write closer, a resize function and a
    queue that puts the chunks of the input into sequence order.  The queue is
    arhat.dev/pkg/queue.SeqQueue, a parameter.  Streams are objects on a heap, because [Write]
    and [Resize] use one they looked up before, and because the reader at the other end of the
    pipe sees what was written after the manager has forgotten the stream. *)
From S2P Require Import Prelude Handler.

Set Default Proof Using "Type".

(** arhat.dev/pkg/queue.SeqQueue: [Offer] also returns the data handed to the queue's callback
    during the call, in order. *)
Class SeqQueue (Q : Type) := {
  NewSeqQueue : Q;
  SetMaxSeq : Z → Q → Q;
  Offer : Z → bytes → Q → Q * list bytes * bool;
}.

(** What was done with the write closer: data was written to it, or its Close was called.  What a Close
    does is the write closer's: the input pipe of an exec or attach is closed, and a reader gets EOF
    after the data; that of a port-forward ([flexWriteCloser]) closes its pipe some time later, or
    leaves it to the end of the operation. *)
Inductive wevent : Type := Wrote (data : bytes) | CloseCall.

#[export] Instance wevent_eq_dec : EqDecision wevent.
Proof. solve_decision. Defined.

(** The chunks a reader gets. *)
Definition written (es : list wevent) : list bytes :=
  omap (λ e, match e with Wrote d => Some d | CloseCall => None end) es.

Section stream_manager.
Context `{wke : !WellKnownErrors} {Q : Type} `{sq : !SeqQueue Q}.

Record stream : Type := MkStream {
  st_w : list wevent;                (* what was done with [_w] *)
  st_rF : bool;                      (* whether [_rF] is the caller's, not noopHandleResize *)
  st_resized : list (Z * Z);         (* the calls of the caller's resize func *)
  st_seqQ : Q;
}.

Definition newStream (rF : bool) : stream := MkStream [] rF [] NewSeqQueue.

Definition stream_close (s : stream) : stream :=
  MkStream (st_w s ++ [CloseCall]) (st_rF s) (st_resized s) (st_seqQ s).

Definition stream_resize (cols rows : Z) (s : stream) : stream :=
  if st_rF s
  then MkStream (st_w s) (st_rF s) (st_resized s ++ [(cols, rows)]) (st_seqQ s)
  else s.

Definition stream_write (seq : Z) (data : bytes) (s : stream) : stream :=
  let q := if len data =? 0 then SetMaxSeq seq (st_seqQ s) else st_seqQ s in
  let '(q', out, complete) := Offer seq data q in
  let s' := MkStream (st_w s ++ (Wrote <$> out)) (st_rF s) (st_resized s) q' in
  if complete then stream_close s' else s'.

(** [sessions] maps ids to objects of the heap. *)
Record StreamManager : Type := MkManager {
  sessions : gmap Z nat;
  heap : list stream;
}.
Implicit Types m : StreamManager.

Definition NewStreamManager : StreamManager := MkManager ∅ [].

Definition Has (sid : Z) m : bool := bool_decide (is_Some (sessions m !! sid)).

(** [create] is the result of the callback: an error, or a write closer and whether it came with
    a resize function.  The callback is called only when [sid] is free. *)
Definition Add (sid : Z) (create : result bool) m : StreamManager * option error :=
  match sessions m !! sid with
  | Some _ => (m, Some ErrAlreadyExists)
  | None =>
      match create with
      | Err e => (m, Some e)
      | Ok rF =>
          (MkManager (<[sid := length (heap m)]> (sessions m)) (heap m ++ [newStream rF]), None)
      end
  end.

Definition on_heap (p : nat) (f : stream → stream) m : StreamManager :=
  MkManager (sessions m) (alter f p (heap m)).

Definition Del (sid : Z) m : StreamManager :=
  match sessions m !! sid with
  | None => m
  | Some p =>
      let m1 := on_heap p stream_close m in
      MkManager (delete sid (sessions m1)) (heap m1)
  end.

Definition Write (sid seq : Z) (data : bytes) m : StreamManager * bool :=
  match sessions m !! sid with
  | None => (m, false)
  | Some p => (on_heap p (stream_write seq data) m, true)
  end.

Definition Resize (sid cols rows : Z) m : StreamManager :=
  match sessions m !! sid with
  | None => m
  | Some p => on_heap p (stream_resize cols rows) m
  end.

(** ** Operations as data *)

Inductive sm_op : Type :=
| OpAdd (sid : Z) (create : result bool)
| OpDel (sid : Z)
| OpWrite (sid seq : Z) (data : bytes)
| OpResize (sid cols rows : Z).

Definition target_sid (o : sm_op) : Z :=
  match o with OpAdd sid _ | OpDel sid | OpWrite sid _ _ | OpResize sid _ _ => sid end.

Definition do_op (o : sm_op) m : StreamManager :=
  match o with
  | OpAdd sid create => (Add sid create m).1
  | OpDel sid => Del sid m
  | OpWrite sid seq data => (Write sid seq data m).1
  | OpResize sid cols rows => Resize sid cols rows m
  end.

Definition do_ops (ops : list sm_op) m : StreamManager := foldl (flip do_op) m ops.

(** ** Independent streams *)

(** The specification: what an operation on a session id does to the stream of that id. *)
Definition spec_op (s : option stream) (o : sm_op) : option stream :=
  match o, s with
  | OpAdd _ (Ok rF), None => Some (newStream rF)
  | OpDel _, Some _ => None
  | OpWrite _ seq data, Some st => Some (stream_write seq data st)
  | OpResize _ cols rows, Some st => Some (stream_resize cols rows st)
  | _, _ => s
  end.

Definition view (sid : Z) m : option stream :=
  match sessions m !! sid with Some p => heap m !! p | None => None end.

(** Ids refer to distinct objects that exist. *)
Record sm_wf m : Prop := {
  wf_bound sid p : sessions m !! sid = Some p → (p < length (heap m))%nat;
  wf_inj sid sid' p : sessions m !! sid = Some p → sessions m !! sid' = Some p → sid = sid';
}.

Lemma sm_wf_new : sm_wf NewStreamManager.
Proof. split; simpl; intros; simplify_map_eq. Qed.

Lemma sm_wf_on_heap p f m : sm_wf m → sm_wf (on_heap p f m).
Proof. intros [Hb Hi]. split; simpl; [|done]. setoid_rewrite length_alter. done. Qed.

Lemma sm_wf_op o m : sm_wf m → sm_wf (do_op o m).
Proof.
  intros Hwf. pose proof Hwf as [Hb Hi].
  destruct o; simpl; unfold Add, Del, Write, Resize; repeat case_match; simpl; try done;
    try (by apply sm_wf_on_heap); split; simpl.
  - intros i p [[<- <-]|[_ ?%Hb]]%lookup_insert_Some; rewrite length_app; simpl; lia.
  - intros i j p. rewrite !lookup_insert_Some. intros [[-> ?]|[? Hp1]] [[-> ?]|[? Hp2]]; subst; try done.
    + apply Hb in Hp2. lia.
    + apply Hb in Hp1. lia.
    + eauto.
  - intros i p [_ ?%Hb]%lookup_delete_Some. by rewrite length_alter.
  - intros i j p [_ ?]%lookup_delete_Some [_ ?]%lookup_delete_Some. eauto.
Qed.

(** An object no id refers to is out of reach. *)
Definition unregistered (p : nat) m : Prop := ∀ sid, sessions m !! sid ≠ Some p.

Lemma on_heap_ne p q f m : p ≠ q → heap (on_heap p f m) !! q = heap m !! q.
Proof. intros. simpl. by apply list_lookup_alter_ne. Qed.

Lemma unregistered_op o p m :
  sm_wf m → (p < length (heap m))%nat → unregistered p m →
  unregistered p (do_op o m) ∧ heap (do_op o m) !! p = heap m !! p.
Proof.
  intros Hwf Hp Hun. unfold unregistered in *.
  destruct o as [sid create|sid|sid seq data|sid cols rows]; simpl;
    unfold Add, Del, Write, Resize; pose proof (Hun sid) as Hne;
    destruct (sessions m !! sid) as [q|] eqn:E; repeat case_match; simplify_eq/=; try done.
  - split; [|by rewrite lookup_app_l]. intros i. rewrite lookup_insert.
    case_decide; [|done]. intros [= <-]. lia.
  - split; [|apply list_lookup_alter_ne; congruence]. intros i. rewrite lookup_delete.
    by case_decide.
  - split; [done|]. apply list_lookup_alter_ne. congruence.
  - split; [done|]. apply list_lookup_alter_ne. congruence.
Qed.

(** An operation on an id acts on the stream of that id as the specification says, and not at
    all on the stream of another. *)
Lemma view_op o sid m :
  sm_wf m →
  view sid (do_op o m) = if bool_decide (target_sid o = sid) then spec_op (view sid m) o else view sid m.
Proof.
  intros Hwf. pose proof Hwf as [Hb Hi]. unfold view.
  assert (∀ p f i q, sessions m !! i = Some p → sessions m !! sid = Some q → i ≠ sid →
    alter f p (heap m) !! q = heap m !! q) as Hother.
  { intros p f i q Hip Hq Hne. apply list_lookup_alter_ne. intros ->. eauto. }
  assert (∀ q, sessions m !! sid = Some q → ∃ st, heap m !! q = Some st) as Hst.
  { intros q ?%Hb. by apply lookup_lt_is_Some. }
  destruct o as [i create|i|i seq data|i cols rows]; simpl; unfold Add, Del, Write, Resize;
    destruct (sessions m !! i) as [p|] eqn:Ei; case_bool_decide as Hd; subst; simpl.
  all: rewrite ?Ei; try (destruct create); simpl; rewrite ?lookup_insert_eq, ?lookup_delete_eq; try done.
  - destruct (Hst _ Ei) as [st ->]. done.
  - rewrite lookup_app_r, Nat.sub_diag; done.
  - by rewrite Ei.
  - rewrite lookup_insert_ne by done. destruct (sessions m !! sid) eqn:E; [|done].
    apply lookup_app_l. eauto.
  - destruct (Hst _ Ei) as [st ->]. done.
  - rewrite lookup_delete_ne by done. destruct (sessions m !! sid) eqn:E; eauto.
  - rewrite list_lookup_alter_eq. destruct (Hst _ Ei) as [st ->]. done.
  - destruct (sessions m !! sid) eqn:E; eauto.
  - rewrite list_lookup_alter_eq. destruct (Hst _ Ei) as [st ->]. done.
  - destruct (sessions m !! sid) eqn:E; eauto.
Qed.

(** Close has been called on a stream that no id refers to any more. *)
Definition removed_closed m : Prop :=
  ∀ p st, heap m !! p = Some st → CloseCall ∉ st_w st → ∃ sid, sessions m !! sid = Some p.

(** Nothing undoes a close. *)
Lemma close_stays (f : stream → stream) st :
  f = stream_close ∨ (∃ seq data, f = stream_write seq data) ∨ (∃ cols rows, f = stream_resize cols rows) →
  CloseCall ∈ st_w st → CloseCall ∈ st_w (f st).
Proof.
  intros [->|[(sn & d & ->)|(c & r & ->)]] Hin; unfold stream_write, stream_resize; simpl.
  - set_solver.
  - destruct (Offer _ _ _) as [[? ?] []]; simpl; set_solver.
  - by destruct (st_rF st).
Qed.

Lemma removed_closed_on_heap p f m :
  f = stream_close ∨ (∃ seq data, f = stream_write seq data) ∨ (∃ cols rows, f = stream_resize cols rows) →
  removed_closed m → removed_closed (on_heap p f m).
Proof.
  intros Hf Hm q st Hq Hc. simpl in *. destruct (decide (p = q)) as [->|Hne].
  - rewrite list_lookup_alter_eq in Hq. destruct (heap m !! q) as [st0|] eqn:E; simplify_eq/=.
    apply (Hm q st0); [done|]. intros Hin. by apply Hc, close_stays.
  - rewrite list_lookup_alter_ne in Hq by done. eauto.
Qed.

Lemma removed_closed_op o m : removed_closed m → removed_closed (do_op o m).
Proof.
  intros Hm. destruct o as [sid create|sid|sid sn data|sid cols rows]; simpl;
    unfold Add, Del, Write, Resize; destruct (sessions m !! sid) as [p|] eqn:E;
    try (destruct create); simpl; try done;
    try (apply removed_closed_on_heap; [eauto 10|done]).
  - intros p st Hp Hc. simpl in *. apply lookup_app_Some in Hp as [Hp|[Hl Hp]].
    + destruct (Hm p st Hp Hc) as [sid' Hs]. exists sid'. rewrite lookup_insert_ne; [done|congruence].
    + apply list_lookup_singleton_Some in Hp as [Hz _]. exists sid. rewrite lookup_insert_eq. f_equal. lia.
  - intros q st Hq Hc. destruct (removed_closed_on_heap p stream_close m (or_introl eq_refl) Hm q st Hq Hc) as [sid' Hs].
    exists sid'. simpl in *. rewrite lookup_delete_ne; [done|]. intros <-. rewrite E in Hs. simplify_eq.
    rewrite list_lookup_alter_eq in Hq. destruct (heap m !! q); simplify_eq/=. set_solver.
Qed.

Lemma sm_wf_ops ops m : sm_wf m → sm_wf (do_ops ops m).
Proof. revert m. induction ops as [|o ops IH]; intros m Hwf; simpl; eauto using sm_wf_op. Qed.

Lemma view_ops ops sid m :
  sm_wf m →
  view sid (do_ops ops m) = foldl spec_op (view sid m) (filter (λ o, target_sid o = sid) ops).
Proof.
  revert m. induction ops as [|o ops IH]; intros m Hwf; [done|]. simpl.
  rewrite IH, view_op by eauto using sm_wf_op.
  rewrite filter_cons. case_bool_decide; case_decide; done.
Qed.

Lemma unregistered_stays ops p m :
  sm_wf m → (p < length (heap m))%nat → unregistered p m →
  unregistered p (do_ops ops m) ∧ heap (do_ops ops m) !! p = heap m !! p.
Proof.
  revert m. induction ops as [|o ops IH]; intros m Hwf Hp Hun; [done|]. simpl.
  destruct (unregistered_op o p m Hwf Hp Hun) as [Hun' <-]. apply IH; [by apply sm_wf_op| |done].
  destruct (unregistered_op o p m Hwf Hp Hun) as [_ Heq].
  apply lookup_lt_is_Some. rewrite Heq. by apply lookup_lt_is_Some.
Qed.

(** A stream that was removed is closed and stays as it is. *)
Lemma deleted_stays ops sid p m st :
  sm_wf m → sessions m !! sid = Some p → heap m !! p = Some st →
  unregistered p (do_ops ops (Del sid m)) ∧ heap (do_ops ops (Del sid m)) !! p = Some (stream_close st).
Proof.
  intros Hwf Hp Hst.
  assert (heap (Del sid m) !! p = Some (stream_close st)) as Hc.
  { unfold Del. rewrite Hp. simpl. by rewrite list_lookup_alter_eq, Hst. }
  rewrite <-Hc. apply unregistered_stays; [by apply (sm_wf_op (OpDel sid))|by eapply lookup_lt_Some|].
  intros i. unfold Del. rewrite Hp. simpl. rewrite lookup_delete. case_decide; [done|].
  intros Hi. by assert (sid = i) by (by eapply wf_inj).
Qed.

(** The stream manager is a family of independent streams.  After any sequence of operations
    the stream of a session id is what the operations on that id alone make of it, by the
    specification of one stream; an id is reported as present exactly when it has one; and a
    stream that was removed is never touched by a later operation, so the reader of its pipe sees no
    further write, whatever is done under its old id.  (A [Write] that overlaps the [Del] can still
    reach it, see [late_write] in [StreamLock].) *)
Theorem streams_independent ops1 ops2 sid :
  let m1 := do_ops ops1 NewStreamManager in
  let m := do_ops (ops1 ++ ops2) NewStreamManager in
  view sid m = foldl spec_op None (filter (λ o, target_sid o = sid) (ops1 ++ ops2)) ∧
  Has sid m = bool_decide (is_Some (foldl spec_op None (filter (λ o, target_sid o = sid) (ops1 ++ ops2)))) ∧
  (∀ p st, sessions m1 !! sid = Some p → heap m1 !! p = Some st →
     heap (do_ops ops2 (Del sid m1)) !! p = Some (stream_close st)).
Proof.
  intros m1 m. assert (sm_wf m1) as Hwf1 by apply sm_wf_ops, sm_wf_new.
  assert (sm_wf m) as Hwf by apply sm_wf_ops, sm_wf_new.
  assert (view sid m = foldl spec_op None (filter (λ o, target_sid o = sid) (ops1 ++ ops2))) as Hv.
  { unfold m. by rewrite view_ops by apply sm_wf_new. }
  split_and!; [done|..].
  - rewrite <-Hv. unfold Has, view. apply bool_decide_ext.
    destruct (sessions m !! sid) as [p|] eqn:E; [|done].
    split; [intros _|by intros]. by apply lookup_lt_is_Some, (wf_bound m Hwf sid).
  - intros p st Hp Hst. by apply deleted_stays.
Qed.
(** *** A stream while it stays in the table *)

Definition is_write (o : sm_op) : bool := match o with OpWrite _ _ _ => true | _ => false end.
Definition writes (ops : list sm_op) : list sm_op := filter (λ o, is_write o = true) ops.

Lemma sessions_keep o sid p m :
  sessions m !! sid = Some p → o ≠ OpDel sid → sessions (do_op o m) !! sid = Some p.
Proof.
  intros Hp Hne. destruct o as [i create|i|i sn data|i cols rows]; simpl; unfold Add, Del, Write, Resize;
    destruct (sessions m !! i) as [q|] eqn:Ei; try done; simpl.
  - destruct create; [|done]. simpl. rewrite lookup_insert_ne; [done|congruence].
  - rewrite lookup_delete_ne; [done|congruence].
Qed.

(** An id that still names the same object was not removed in between. *)
Lemma not_deleted ops sid p m :
  sm_wf m → sessions m !! sid = Some p → sessions (do_ops ops m) !! sid = Some p →
  Forall (λ o, o ≠ OpDel sid) ops.
Proof.
  revert m. induction ops as [|o ops IH]; intros m Hwf Hp Hq; [constructor|]. simpl in Hq.
  assert (o = OpDel sid ∨ o ≠ OpDel sid) as [-> |Hne].
  { destruct o as [| i | |]; try (by right). destruct (decide (i = sid)) as [->|]; [by left|right; congruence]. }
  - destruct (lookup_lt_is_Some_2 (heap m) p) as [st Hst]; [by eapply wf_bound|].
    by destruct (proj1 (deleted_stays ops sid p m st Hwf Hp Hst) sid).
  - constructor; [done|]. by eapply IH; [apply sm_wf_op| apply sessions_keep|].
Qed.

Lemma writes_filter (P : sm_op → Prop) `{!∀ o, Decision (P o)} ops :
  writes (filter P ops) = filter P (writes ops).
Proof. unfold writes. rewrite !list_filter_filter. apply list_filter_iff. naive_solver. Qed.

(** What the reader sees depends on the writes only. *)
Definition same_input (s1 s2 : stream) : Prop := st_w s1 = st_w s2 ∧ st_seqQ s1 = st_seqQ s2.

Lemma writes_matter sid ops s1 s2 :
  same_input s1 s2 → Forall (λ o, o ≠ OpDel sid ∧ target_sid o = sid) ops →
  ∃ s1' s2', foldl spec_op (Some s1) ops = Some s1' ∧ foldl spec_op (Some s2) (writes ops) = Some s2' ∧
    same_input s1' s2'.
Proof.
  intros Hs Hall. revert s1 s2 Hs. induction Hall as [|o ops [Hd <-] _ IH]; intros s1 s2 Hs; [by exists s1, s2|].
  destruct o as [i create|i|i sn data|i cols rows]; simpl; [destruct create| | |]; try (by apply IH); [done|..].
  - apply IH. destruct Hs as [H1 H2]. unfold stream_write. rewrite H1, H2.
    by destruct (Offer _ _ _) as [[? ?] []].
  - apply IH. destruct Hs as [H1 H2]. unfold stream_resize. by destruct (st_rF s1).
Qed.

Lemma view_writes ops sid p m st :
  sm_wf m → sessions m !! sid = Some p → heap m !! p = Some st → sessions (do_ops ops m) !! sid = Some p →
  ∃ st1 st2, heap (do_ops ops m) !! p = Some st1 ∧
    foldl spec_op (Some st) (filter (λ o, target_sid o = sid) (writes ops)) = Some st2 ∧ same_input st1 st2.
Proof.
  intros Hwf Hp Hst Hq. pose proof (not_deleted _ _ _ _ Hwf Hp Hq) as Hnd.
  destruct (writes_matter sid (filter (λ o, target_sid o = sid) ops) st st) as (st1 & st2 & H1 & H2 & H3); [done|..].
  { apply list.Forall_forall. intros o [Ht Ho]%list_elem_of_filter. split; [|done].
    by apply (proj1 (list.Forall_forall _ _) Hnd). }
  exists st1, st2. split_and!; [|by rewrite <-writes_filter|done].
  pose proof (view_ops ops sid m Hwf) as Hv. unfold view in Hv. by rewrite Hp, Hst, H1, Hq in Hv.
Qed.
End stream_manager.
Arguments MkStream {_} _ _ _ _.
Arguments MkManager {_} _ _.

(** ** Input in sequence order *)

(** What the queue promises: it hands over consecutive data, starting at 0, as soon as it has it,
    keeps what came early, and is complete when the maximum has been handed over. *)
Class SeqQueueLaws (Q : Type) `{sq : !SeqQueue Q} := {
  sq_next : Q → Z;
  sq_pending : Q → gmap Z bytes;
  sq_max : Q → option Z;
  sq_new : sq_next NewSeqQueue = 0 ∧ sq_pending NewSeqQueue = ∅ ∧ sq_max NewSeqQueue = None;
  sq_set_max n q :
    sq_next q ≤ n →
    sq_next (SetMaxSeq n q) = sq_next q ∧ sq_pending (SetMaxSeq n q) = sq_pending q ∧
    sq_max (SetMaxSeq n q) = Some n;
  sq_offer seq d q q' out complete :
    sq_next q ≤ seq → sq_pending q !! seq = None → (∀ n, sq_max q = Some n → seq ≤ n) →
    Offer seq d q = (q', out, complete) →
    let pending := <[seq := d]> (sq_pending q) in
    sq_next q' = sq_next q + len out ∧
    (∀ i : nat, (i < length out)%nat → pending !! (sq_next q + Z.of_nat i) = out !! i) ∧
    pending !! sq_next q' = None ∧
    (∀ z, sq_pending q' !! z = if bool_decide (sq_next q' ≤ z) then pending !! z else None) ∧
    sq_max q' = sq_max q ∧
    complete = bool_decide (sq_max q' = Some (sq_next q' - 1));
}.

Section reassembly.
Context `{wke : !WellKnownErrors} {Q : Type} `{sq : !SeqQueue Q, laws : !SeqQueueLaws Q}.
Context (chunks : list bytes).   (* the input, none of the chunks empty *)
Hypothesis nonempty : Forall (λ d, d ≠ []) chunks.

(** The chunks, and the empty one that says where the input ends. *)
Definition input : list bytes := chunks ++ [[]].
Definition write_chunk (i : nat) (s : stream) : stream :=
  stream_write (Z.of_nat i) (input !!! i) s.

(** The chunks [got] have arrived, those below [k] have been written. *)
Record arrived (got : gset nat) (s : stream) (k : nat) : Prop := {
  ar_next : sq_next (st_seqQ s) = Z.of_nat k;
  ar_below j : (j < k)%nat → j ∈ got;
  ar_gap : k ∉ got;
  ar_got j : j ∈ got → (j < length input)%nat;
  ar_pending z : sq_pending (st_seqQ s) !! z =
    if bool_decide (Z.of_nat k ≤ z ∧ Z.to_nat z ∈ got) then input !! Z.to_nat z else None;
  ar_max : sq_max (st_seqQ s) =
    if bool_decide (length chunks ∈ got) then Some (len chunks) else None;
  ar_written : st_w s = (Wrote <$> take k input) ++
    (if bool_decide (k = length input) then [CloseCall] else []);
}.

Lemma input_length : length input = S (length chunks).
Proof. unfold input. rewrite length_app. simpl. lia. Qed.

Lemma input_empty i :
  (i < length input)%nat → (len (input !!! i) =? 0) = bool_decide (i = length chunks).
Proof using nonempty.
  rewrite input_length. intros Hi. unfold input. case_bool_decide as Hd.
  - subst. by rewrite lookup_total_app_r, Nat.sub_diag.
  - rewrite lookup_total_app_l by lia.
    destruct (lookup_lt_is_Some_2 chunks i ltac:(lia)) as [d Hdl].
    rewrite (list_lookup_total_correct _ _ _ Hdl).
    pose proof (Forall_lookup_1 _ _ _ _ nonempty Hdl) as Hne.
    destruct d; [done|]. rewrite len_cons. pose proof (len_nonneg d). lia.
Qed.

Lemma arrived_new : arrived ∅ (newStream true) 0 ∧ arrived ∅ (newStream false) 0.
Proof.
  clear nonempty. destruct sq_new as (Hn & Hp & Hm).
  split; split; simpl; try set_solver; try lia; try done.
  all: rewrite ?Hp, ?Hm, ?input_length; try done; intros; rewrite lookup_empty;
    case_bool_decide; set_solver.
Qed.

(** The queue that chunk [i] is offered to. *)
Definition queue_for (i : nat) (q : Q) : Q :=
  if bool_decide (i = length chunks) then SetMaxSeq (Z.of_nat i) q else q.

(** The chunk that arrives is not among those written. *)
Lemma arrived_le got s k i : arrived got s k → i ∉ got → (k ≤ i)%nat.
Proof. clear nonempty. intros Ha Hi. destruct (decide (i < k)%nat) as [?%(ar_below _ _ _ Ha)|]; [done|lia]. Qed.

Lemma queue_for_spec got s k i :
  arrived got s k → i ∉ got → (i < length input)%nat →
  sq_next (queue_for i (st_seqQ s)) = Z.of_nat k ∧
  sq_pending (queue_for i (st_seqQ s)) = sq_pending (st_seqQ s) ∧
  sq_max (queue_for i (st_seqQ s)) =
    if bool_decide (length chunks ∈ ({[i]} ∪ got : gset nat)) then Some (len chunks) else None.
Proof.
  clear nonempty. intros Ha Hi Hlt. pose proof (arrived_le _ _ _ _ Ha Hi) as Hki.
  destruct Ha as [Hn _ _ _ _ Hm _]. unfold queue_for.
  destruct (bool_decide_reflect (i = length chunks)) as [Hd|Hd].
  - subst i. destruct (sq_set_max (Z.of_nat (length chunks)) (st_seqQ s)) as (-> & -> & ->); [lia|].
    rewrite bool_decide_true by set_solver. done.
  - split_and!; [done|done|]. rewrite Hm. repeat case_bool_decide; set_solver.
Qed.

(** What is pending once chunk [i] is there, too. *)
Lemma arrived_pending got s k i z :
  arrived got s k → i ∉ got → (i < length input)%nat →
  <[Z.of_nat i := input !!! i]> (sq_pending (st_seqQ s)) !! z =
    if bool_decide (Z.of_nat k ≤ z ∧ Z.to_nat z ∈ ({[i]} ∪ got : gset nat)) then input !! Z.to_nat z else None.
Proof.
  clear nonempty. intros Ha Hi Hlt. pose proof (arrived_le _ _ _ _ Ha Hi) as Hki.
  rewrite lookup_insert, (ar_pending _ _ _ Ha). destruct (decide (Z.of_nat i = z)) as [<-|Hz].
  - rewrite Nat2Z.id, bool_decide_true by (split; [lia|set_solver]).
    symmetry. by apply list_lookup_lookup_total_lt.
  - rewrite (bool_decide_ext _ (Z.of_nat k ≤ z ∧ Z.to_nat z ∈ ({[i]} ∪ got : gset nat))); [done|].
    rewrite elem_of_union, elem_of_singleton. split; [naive_solver|].
    intros [? [?|?]]; [lia|done].
Qed.

(** What the queue hands over is the run of chunks from [k] on, up to the next gap. *)
Lemma handed_over got s k i q' out complete :
  arrived got s k → i ∉ got → (i < length input)%nat →
  Offer (Z.of_nat i) (input !!! i) (queue_for i (st_seqQ s)) = (q', out, complete) →
  let got' := {[i]} ∪ got : gset nat in
  let k' := (k + length out)%nat in
  sq_next q' = Z.of_nat k' ∧
  (∀ j, (j < length out)%nat → (k + j)%nat ∈ got' ∧ input !! (k + j)%nat = out !! j) ∧
  (∀ z, sq_pending q' !! z =
     if bool_decide (Z.of_nat k' ≤ z ∧ Z.to_nat z ∈ got') then input !! Z.to_nat z else None) ∧
  sq_max q' = (if bool_decide (length chunks ∈ got') then Some (len chunks) else None) ∧
  sq_pending q' !! Z.of_nat k' = None ∧
  complete = bool_decide (sq_max q' = Some (Z.of_nat k' - 1)).
Proof.
  clear nonempty. intros Ha Hi Hlt Ho. pose proof (arrived_le _ _ _ _ Ha Hi) as Hki.
  destruct (queue_for_spec _ _ _ _ Ha Hi Hlt) as (Hqn & Hqp & Hqm).
  pose proof (λ z, arrived_pending got s k i z Ha Hi Hlt) as Hpend.
  apply sq_offer in Ho as (Ho1 & Ho2 & Ho3 & Ho4 & Ho5 & Ho6); [|lia| |].
  2: { rewrite Hqp, (ar_pending _ _ _ Ha), bool_decide_false; [done|]. rewrite Nat2Z.id. naive_solver. }
  2: { intros n. rewrite Hqm. rewrite input_length in Hlt. case_bool_decide; intros; simplify_eq.
       unfold len. lia. }
  rewrite Hqp in *. rewrite Hqn in *. unfold len in Ho1.
  assert (sq_next q' = Z.of_nat (k + length out)) as Hn' by lia. rewrite Hn' in *.
  split_and!; [done| | |congruence| |done].
  - intros j Hj. pose proof (Ho2 j Hj) as Hoj. rewrite Hpend in Hoj.
    destruct (lookup_lt_is_Some_2 out j Hj) as [d Hd]. rewrite Hd in *.
    case_bool_decide as Hin; [|done].
    replace (Z.to_nat (Z.of_nat k + Z.of_nat j)) with (k + j)%nat in * by lia. naive_solver.
  - intros z. rewrite Ho4, Hpend. destruct (bool_decide_reflect (Z.of_nat (k + length out) ≤ z)).
    + rewrite (bool_decide_ext _ (Z.of_nat (k + length out) ≤ z ∧ Z.to_nat z ∈ ({[i]} ∪ got : gset nat)));
        [done|]. naive_solver lia.
    + rewrite bool_decide_false by naive_solver. done.
  - rewrite Ho4, bool_decide_true by lia. exact Ho3.
Qed.

(** One more chunk arrives. *)
Lemma arrived_step got s k i :
  arrived got s k → i ∉ got → (i < length input)%nat →
  ∃ k', arrived ({[i]} ∪ got) (write_chunk i s) k'.
Proof using nonempty.
  intros Ha Hi Hlt. pose proof (arrived_le _ _ _ _ Ha Hi) as Hki.
  unfold write_chunk, stream_write. rewrite input_empty by done.
  fold (queue_for i (st_seqQ s)).
  destruct (Offer _ _ (queue_for i (st_seqQ s))) as [[q' out] complete] eqn:Ho.
  apply (handed_over got s k) in Ho as (Hn' & Hout & Hpend & Hmax & Hgap0 & ->); [|done..].
  destruct Ha as [Hn Hb Hg Hgot _ _ Hw]. set (k' := (k + length out)%nat) in *.
  assert (∀ j, j ∈ ({[i]} ∪ got : gset nat) → (j < length input)%nat) as Hgot'.
  { intros j [->%elem_of_singleton|?]%elem_of_union; eauto. }
  assert (∀ j, (j < k')%nat → j ∈ ({[i]} ∪ got : gset nat)) as Hbelow.
  { intros j Hj. destruct (decide (j < k)%nat) as [?%Hb|]; [set_solver|].
    replace j with (k + (j - k))%nat by lia. apply Hout. lia. }
  assert (k' ∉ ({[i]} ∪ got : gset nat)) as Hgap.
  { intros Hin. rewrite Hpend, Nat2Z.id, bool_decide_true in Hgap0 by (split; [lia|done]).
    apply Hgot' in Hin. by apply lookup_ge_None in Hgap0; lia. }
  assert (k' ≤ length input)%nat as Hk'.
  { destruct (decide (k' ≤ length input)%nat); [done|].
    assert (length input ∈ ({[i]} ∪ got : gset nat)) as ?%Hgot' by (apply Hbelow; lia). lia. }
  assert (bool_decide (sq_max q' = Some (Z.of_nat k' - 1)) = bool_decide (k' = length input)) as ->.
  { apply bool_decide_ext. rewrite Hmax, input_length.
    destruct (bool_decide_reflect (length chunks ∈ ({[i]} ∪ got : gset nat))) as [Hin|Hin].
    - split; [intros [= ?]|intros]; unfold len in *; [lia|f_equal; lia].
    - split; [done|]. intros Heq. destruct Hin. apply Hbelow. lia. }
  assert (take k' input = take k input ++ out) as Htake.
  { unfold k'. rewrite <-take_take_drop. f_equal. apply list_eq. intros j. rewrite lookup_take.
    destruct (decide (j < length out)%nat); [rewrite lookup_drop; by apply Hout|].
    symmetry. apply lookup_ge_None. lia. }
  rewrite bool_decide_false, app_nil_r in Hw by lia.
  exists k'. destruct (bool_decide_reflect (k' = length input)) as [Hl|Hl];
    (split; simpl; [done|done|done|done|done|done|]); rewrite Htake, fmap_app, Hw.
  - by rewrite bool_decide_true.
  - by rewrite bool_decide_false, app_nil_r.
Qed.

Lemma arrived_all got s k : arrived got s k → (∀ i, (i < length input)%nat → i ∈ got) →
  st_w s = (Wrote <$> input) ++ [CloseCall].
Proof.
  clear nonempty. intros [_ Hb Hg Hgot _ _ Hw] Hall.
  assert (k = length input) as ->.
  { destruct (decide (k < length input)%nat) as [?%Hall|]; [done|].
    destruct (decide (k = length input)); [done|].
    assert (length input ∈ got) as ?%Hgot by (apply Hb; lia). lia. }
  by rewrite Hw, take_ge, bool_decide_true by lia.
Qed.

Lemma arrived_ops sid arrivals got s k :
  arrived got s k → NoDup arrivals → (∀ i, i ∈ arrivals → (i < length input)%nat ∧ i ∉ got) →
  ∃ s' k', foldl spec_op (Some s) ((λ i, OpWrite sid (Z.of_nat i) (input !!! i)) <$> arrivals) = Some s' ∧
    arrived (list_to_set arrivals ∪ got) s' k'.
Proof using nonempty.
  intros Ha Hnd. revert got s k Ha. induction Hnd as [|i arrivals Hi _ IH]; intros got s k Ha Hin; simpl.
  - exists s, k. split; [done|]. by rewrite (left_id_L ∅ (∪)).
  - destruct (arrived_step got s k i Ha) as [k1 Hk1]; [set_solver..|].
    destruct (IH _ _ _ Hk1) as (s' & k' & Heq & Ha'); [set_solver|].
    exists s', k'. split; [done|].
    by replace ({[i]} ∪ list_to_set arrivals ∪ got) with (list_to_set arrivals ∪ ({[i]} ∪ got)) by set_solver.
Qed.

(** Some of the chunks, in any order: what is written is the beginning of the input. *)
Lemma arrivals_prefix sid rF arrivals rest :
  arrivals ++ rest ≡ₚ seq 0 (length input) →
  ∃ s, foldl spec_op (Some (newStream rF)) ((λ i, OpWrite sid (Z.of_nat i) (input !!! i)) <$> arrivals) = Some s ∧
    st_w s `prefix_of` (Wrote <$> chunks) ++ [Wrote []; CloseCall].
Proof using laws nonempty.
  intros Harr. destruct (arrived_ops sid arrivals ∅ (newStream rF) 0) as (s & k & Hs & [_ _ _ _ _ _ Hw]).
  - destruct arrived_new. by destruct rF.
  - eapply proj1, list.NoDup_app. rewrite Harr. apply NoDup_seq.
  - intros i Hi. assert (i ∈ arrivals ++ rest) as Hin by (apply elem_of_app; by left).
    rewrite Harr, elem_of_seq in Hin. set_solver by lia.
  - exists s. split; [done|]. rewrite Hw.
    assert ((Wrote <$> chunks) ++ [Wrote []; CloseCall] = (Wrote <$> input) ++ [CloseCall]) as ->.
    { unfold input. by rewrite fmap_app, <-(assoc_L (++)). }
    case_bool_decide as Hk; [by rewrite take_ge by lia|]. rewrite app_nil_r.
    apply prefix_app_r. exists (Wrote <$> drop k input). by rewrite <-fmap_app, take_drop.
Qed.

(** All of them. *)
Lemma arrivals_written sid rF arrivals :
  arrivals ≡ₚ seq 0 (length input) →
  ∃ s, foldl spec_op (Some (newStream rF)) ((λ i, OpWrite sid (Z.of_nat i) (input !!! i)) <$> arrivals) = Some s ∧
    st_w s = (Wrote <$> chunks) ++ [Wrote []; CloseCall].
Proof using laws nonempty.
  intros Harr. destruct (arrived_ops sid arrivals ∅ (newStream rF) 0) as (s & k & Hs & Ha).
  - destruct arrived_new. by destruct rF.
  - rewrite Harr. apply NoDup_seq.
  - intros i. rewrite Harr, elem_of_seq. set_solver by lia.
  - exists s. split; [done|]. rewrite (arrived_all _ _ _ Ha).
    + unfold input. by rewrite fmap_app, <-(assoc_L (++)).
    + intros i Hi. apply elem_of_union_l, elem_of_list_to_set. rewrite Harr, elem_of_seq. lia.
Qed.

(** Input is delivered in sequence order, whatever order it arrives in.  When the chunks of an
    input and the empty chunk that ends it are written to a session in any order, with any
    operations on other sessions in between, the reader gets exactly the chunks, in sequence
    order, followed by EOF: nothing is lost, duplicated or reordered, and the write end is closed
    once, after everything was written. *)
Theorem input_in_order sid rF (arrivals : list nat) ops :
  arrivals ≡ₚ seq 0 (length input) →
  filter (λ o, target_sid o = sid) ops =
    OpAdd sid (Ok rF) :: ((λ i, OpWrite sid (Z.of_nat i) (input !!! i)) <$> arrivals) →
  ∃ s, view sid (do_ops ops (NewStreamManager (Q := Q))) = Some s ∧
    st_w s = (Wrote <$> chunks) ++ [Wrote []; CloseCall] ∧ concat (written (st_w s)) = concat chunks.
Proof using laws nonempty.
  intros Harr Hops. destruct (arrivals_written sid rF _ Harr) as (s & Hs & Hw).
  exists s. rewrite view_ops by apply sm_wf_new. rewrite Hops. split_and!; [done|done|].
  rewrite Hw. clear. induction chunks as [|d ds IH]; [done|]. simpl. f_equal. apply IH.
Qed.
End reassembly.

(** ** A queue that meets the laws *)

Module SampleSeqQueue.

Record squeue : Type := MkQ { q_next : Z; q_pending : gmap Z bytes; q_max : option Z }.

(** Hand over consecutive data; the number of pending entries bounds the length of the run. *)
Fixpoint drain (fuel : nat) (next : Z) (pending : gmap Z bytes) : list bytes :=
  match fuel with
  | O => []
  | S fuel =>
      match pending !! next with
      | Some d => d :: drain fuel (next + 1) (delete next pending)
      | None => []
      end
  end.

Definition q_offer (seq : Z) (d : bytes) (q : squeue) : squeue * list bytes * bool :=
  let pending := <[seq := d]> (q_pending q) in
  let out := drain (size pending) (q_next q) pending in
  let next := q_next q + len out in
  (MkQ next (filter (λ kv, next ≤ kv.1) pending) (q_max q), out,
   bool_decide (q_max q = Some (next - 1))).

#[export] Instance sample_queue : SeqQueue squeue := {|
  NewSeqQueue := MkQ 0 ∅ None;
  SetMaxSeq n q := MkQ (q_next q) (q_pending q) (Some n);
  Offer := q_offer;
|}.

Lemma drain_spec fuel next pending :
  (size pending ≤ fuel)%nat →
  (∀ i : nat, (i < length (drain fuel next pending))%nat →
     pending !! (next + Z.of_nat i) = drain fuel next pending !! i) ∧
  pending !! (next + len (drain fuel next pending)) = None.
Proof.
  revert next pending. induction fuel as [|fuel IH]; intros next pending Hf; simpl.
  - split; [intros; lia|]. assert (pending = ∅) as -> by (apply map_size_empty_inv; lia).
    apply lookup_empty.
  - destruct (pending !! next) as [d|] eqn:E; simpl.
    + destruct (IH (next + 1) (delete next pending)) as [IH1 IH2].
      { rewrite map_size_delete_Some by eauto. lia. }
      set (out := drain _ _ _) in *. split.
      * intros [|i] Hi; simpl in *; [by rewrite Z.add_0_r|].
        rewrite <-IH1 by lia. rewrite lookup_delete_ne by lia. f_equal. lia.
      * rewrite len_cons. pose proof (len_nonneg out). rewrite <-IH2, lookup_delete_ne by lia. f_equal. lia.
    + split; [intros; lia|]. unfold len. simpl. by rewrite Z.add_0_r.
Qed.

#[export] Instance sample_queue_laws : SeqQueueLaws squeue.
Proof.
  refine {| sq_next := q_next; sq_pending := q_pending; sq_max := q_max |}; [done|done|].
  intros sn d q q' out complete Hn _ _ [= <- <- <-]. simpl.
  destruct (drain_spec (size (<[sn:=d]> (q_pending q))) (q_next q) (<[sn:=d]> (q_pending q))) as [H1 H2];
    [done|].
  split_and!; [done|done|done| |done|done].
  intros z. rewrite map_lookup_filter. destruct (_ !! z); simpl; [|by case_bool_decide].
  case_guard; case_bool_decide; done.
Defined.

#[local] Existing Instance sample_errors.

(** Two chunks and the end of input for session 5 arrive last first, session 6 in between. *)
Definition shuffled : list sm_op :=
  [OpAdd 5 (Ok true); OpWrite 5 2 []; OpAdd 6 (Ok false); OpWrite 5 1 [3; 4]; OpWrite 6 0 [9];
   OpWrite 5 0 [1; 2]; OpDel 6].

Lemma input_in_order_witness :
  ∃ s, view 5 (do_ops shuffled (NewStreamManager (Q := squeue))) = Some s ∧
    st_w s = (Wrote <$> [[1; 2]; [3; 4]]) ++ [Wrote []; CloseCall] ∧
    concat (written (st_w s)) = [1; 2; 3; 4].
Proof.
  apply (input_in_order [[1; 2]; [3; 4]]) with (sid := 5) (rF := true) (arrivals := [2; 1; 0]%nat).
  - repeat constructor; done.
  - vm_compute. apply (reverse_Permutation [0; 1; 2]%nat).
  - reflexivity.
Defined.
End SampleSeqQueue.
