(* ===== verification/StreamLock.v ===== *)
(** * The stream manager under concurrent calls (extutil/streaming.go)

    [StreamManager]'s methods run their map operations under a spin lock ([doExclusive]), and
    [Write] and [Resize] then use the stream they found without it.  Here any number of calls
    interleave, one atomic instruction, map operation or queue operation at a time; the callback of
    [Add], which is outside code, takes as long as it takes.  The sequential operations of
    [Streaming] are what the calls are shown to amount to. *)
From S2P Require Import Prelude Handler Streaming.

Set Default Proof Using "Type".

Section stream_lock.
Context `{wke : !WellKnownErrors} {Q : Type} `{sq : !SeqQueue Q}.
Local Abbreviation SM := (StreamManager (Q := Q)).

(** A call, with its arguments. *)
Inductive sl_op : Type :=
| KHas (sid : Z)
| KAdd (sid : Z)
| KDel (sid : Z)
| KWrite (sid seq : Z) (data : bytes)
| KResize (sid cols rows : Z).

Definition op_sid (o : sl_op) : Z :=
  match o with KHas sid | KAdd sid | KDel sid | KWrite sid _ _ | KResize sid _ _ => sid end.

Inductive sl_result : Type := RBool (b : bool) | RErr (e : option error) | RUnit.

(** Where a call is; [p] is the stream it found. *)
Inductive sl_pc : Type :=
| QAcquire                     (* for !CompareAndSwapUint32(&m._working, 0, 1) *)
| QLookup                      (* m.sessions[sid] *)
| QCreate                      (* Add: create() *)
| QInsert (rF : bool)          (* Add: m.sessions[sid] = newStream(w, rF) *)
| QClose (p : nat)             (* Del: s.close() *)
| QDelete                      (* Del: delete(m.sessions, sid) *)
| QRelease (next : sl_pc)      (* StoreUint32(&m._working, 0) *)
| QSetMax (p : nat)            (* write: s._seqQ.SetMaxSeq(seq) *)
| QOffer (p : nat)             (* write: s._seqQ.Offer(seq, data) *)
| QCloseStream (p : nat)       (* write: s.close() *)
| QResize (p : nat)            (* s._rF(cols, rows) *)
| QDone (r : sl_result).

(** The manager, the lock word and the calls. *)
Record lstate : Type := MkL {
  k_working : Z;
  k_m : SM;
  k_calls : gmap nat (sl_op * sl_pc);
}.
Implicit Types s : lstate.

Definition sl_init : lstate := MkL 0 NewStreamManager ∅.

Definition goto (t : nat) (o : sl_op) (pc : sl_pc) s : lstate :=
  MkL (k_working s) (k_m s) (<[t := (o, pc)]> (k_calls s)).
Definition set_working (w : Z) s : lstate := MkL w (k_m s) (k_calls s).
Definition set_m (m : SM) s : lstate := MkL (k_working s) m (k_calls s).

(** The pieces of [stream.write]. *)
Definition stream_setmax (seq : Z) (st : stream (Q := Q)) : stream (Q := Q) :=
  MkStream (st_w st) (st_rF st) (st_resized st) (SetMaxSeq seq (st_seqQ st)).
Definition stream_offer (seq : Z) (data : bytes) (st : stream (Q := Q)) : stream (Q := Q) :=
  let '(q', out, _) := Offer seq data (st_seqQ st) in
  MkStream (st_w st ++ (Wrote <$> out)) (st_rF st) (st_resized st) q'.
Definition offer_complete (seq : Z) (data : bytes) (st : stream (Q := Q)) : bool :=
  let '(_, _, complete) := Offer seq data (st_seqQ st) in complete.

(** The functions passed to doExclusive, up to and including their look at the map. *)
Definition lookup_body (o : sl_op) (m : SM) : sl_pc :=
  match o, sessions m !! op_sid o with
  | KHas _, found => QRelease (QDone (RBool (bool_decide (is_Some found))))
  | KAdd _, Some _ => QRelease (QDone (RErr (Some ErrAlreadyExists)))
  | KAdd _, None => QCreate
  | KDel _, Some p => QClose p
  | KDel _, None => QRelease (QDone RUnit)
  | KWrite _ _ data, Some p => QRelease (if len data =? 0 then QSetMax p else QOffer p)
  | KWrite _ _ _, None => QRelease (QDone (RBool false))
  | KResize _ _ _, Some p => QRelease (QResize p)
  | KResize _ _ _, None => QRelease (QDone RUnit)
  end.

Definition sl_run (t : nat) (o : sl_op) (pc : sl_pc) s : option lstate :=
  match pc, o with
  | QAcquire, _ => Some (if k_working s =? 0 then goto t o QLookup (set_working 1 s) else s)
  | QLookup, _ => Some (goto t o (lookup_body o (k_m s)) s)
  | QInsert rF, _ =>
      Some (goto t o (QRelease (QDone (RErr None)))
             (set_m (MkManager (<[op_sid o := length (heap (k_m s))]> (sessions (k_m s)))
                               (heap (k_m s) ++ [newStream rF])) s))
  | QClose p, _ => Some (goto t o QDelete (set_m (on_heap p stream_close (k_m s)) s))
  | QDelete, _ =>
      Some (goto t o (QRelease (QDone RUnit))
             (set_m (MkManager (delete (op_sid o) (sessions (k_m s))) (heap (k_m s))) s))
  | QRelease next, _ => Some (goto t o next (set_working 0 s))
  | QSetMax p, KWrite _ seq _ =>
      Some (goto t o (QOffer p) (set_m (on_heap p (stream_setmax seq) (k_m s)) s))
  | QOffer p, KWrite _ seq data =>
      match heap (k_m s) !! p with
      | None => None
      | Some st =>
          Some (goto t o (if offer_complete seq data st then QCloseStream p else QDone (RBool true))
                 (set_m (on_heap p (stream_offer seq data) (k_m s)) s))
      end
  | QCloseStream p, _ => Some (goto t o (QDone (RBool true)) (set_m (on_heap p stream_close (k_m s)) s))
  | QResize p, KResize _ cols rows =>
      Some (goto t o (QDone RUnit) (set_m (on_heap p (stream_resize cols rows) (k_m s)) s))
  | _, _ => None
  end.

Inductive sl_event : Type :=
| SCall (t : nat) (o : sl_op)
| SRun (t : nat)
| SCreated (t : nat) (r : result bool).   (* create() returns *)

Definition sl_step s (e : sl_event) : option lstate :=
  match e with
  | SCall t o => match k_calls s !! t with None => Some (goto t o QAcquire s) | Some _ => None end
  | SRun t => match k_calls s !! t with Some (o, pc) => sl_run t o pc s | None => None end
  | SCreated t r =>
      match k_calls s !! t with
      | Some (o, QCreate) =>
          match r with
          | Err e => Some (goto t o (QRelease (QDone (RErr (Some e)))) s)
          | Ok rF => Some (goto t o (QInsert rF) s)
          end
      | _ => None
      end
  end.

Abbreviation sl_reachable := (reachable sl_step (eq sl_init)).

(** ** The specification: no lock

    The same calls, in which what the code does under the lock is one step, the sequential
    operation of [Streaming]. *)

Inductive at_pc : Type :=
| PCall
| PSetMax (p : nat)
| POffer (p : nat)
| PCloseStream (p : nat)
| PResize (p : nat)
| PDone (r : sl_result).

#[export] Instance sl_result_eq_dec : EqDecision sl_result.
Proof. solve_decision. Defined.
#[export] Instance at_pc_eq_dec : EqDecision at_pc.
Proof. solve_decision. Defined.

Record astate : Type := MkA {
  a_m : SM;
  a_calls : gmap nat (sl_op * at_pc);
}.
Implicit Types a : astate.

Definition at_init : astate := MkA NewStreamManager ∅.

(** [create] is what the callback of an [Add] returns. *)
Definition at_run (o : sl_op) (pc : at_pc) (create : result bool) (m : SM) : option (SM * at_pc) :=
  match pc, o with
  | PCall, KHas sid => Some (m, PDone (RBool (Has sid m)))
  | PCall, KAdd sid => let '(m', err) := Add sid create m in Some (m', PDone (RErr err))
  | PCall, KDel sid => Some (Del sid m, PDone RUnit)
  | PCall, KWrite sid _ data =>
      Some (m, match sessions m !! sid with
               | Some p => if len data =? 0 then PSetMax p else POffer p
               | None => PDone (RBool false)
               end)
  | PCall, KResize sid _ _ =>
      Some (m, match sessions m !! sid with Some p => PResize p | None => PDone RUnit end)
  | PSetMax p, KWrite _ seq _ => Some (on_heap p (stream_setmax seq) m, POffer p)
  | POffer p, KWrite _ seq data =>
      st ← heap m !! p;
      Some (on_heap p (stream_offer seq data) m,
            if offer_complete seq data st then PCloseStream p else PDone (RBool true))
  | PCloseStream p, _ => Some (on_heap p stream_close m, PDone (RBool true))
  | PResize p, KResize _ cols rows => Some (on_heap p (stream_resize cols rows) m, PDone RUnit)
  | _, _ => None
  end.

Inductive at_event : Type := ACall (t : nat) (o : sl_op) | ARun (t : nat) (create : result bool).

Definition at_step a (e : at_event) : option astate :=
  match e with
  | ACall t o =>
      match a_calls a !! t with
      | None => Some (MkA (a_m a) (<[t := (o, PCall)]> (a_calls a)))
      | Some _ => None
      end
  | ARun t create =>
      '(o, pc) ← a_calls a !! t;
      '(m, pc') ← at_run o pc create (a_m a);
      Some (MkA m (<[t := (o, pc')]> (a_calls a)))
  end.

Definition sl_caller (e : sl_event) : nat := match e with SCall t _ | SRun t | SCreated t _ => t end.
Definition at_caller (e : at_event) : nat := match e with ACall t _ | ARun t _ => t end.

(** How far a call has come in the specification: the operation under the lock takes effect when
    the outcome is known, [Del]'s when it closes the stream. *)
Fixpoint abs_pc (pc : sl_pc) : at_pc :=
  match pc with
  | QAcquire | QLookup | QCreate | QInsert _ | QClose _ => PCall
  | QDelete => PDone RUnit
  | QRelease next => abs_pc next
  | QSetMax p => PSetMax p
  | QOffer p => POffer p
  | QCloseStream p => PCloseStream p
  | QResize p => PResize p
  | QDone r => PDone r
  end.
Definition abs_call (c : sl_op * sl_pc) : sl_op * at_pc := (c.1, abs_pc c.2).

(** Between the Store's, that is, with the lock held. *)
Definition in_cs (pc : sl_pc) : bool :=
  match pc with QLookup | QCreate | QInsert _ | QClose _ | QDelete | QRelease _ => true | _ => false end.

(** [stream.write] in one go is its pieces in a row. *)
Lemma stream_write_pieces seq data st :
  stream_write seq data st =
    let st1 := if len data =? 0 then stream_setmax seq st else st in
    let st2 := stream_offer seq data st1 in
    if offer_complete seq data st1 then stream_close st2 else st2.
Proof.
  unfold stream_write, stream_offer, offer_complete, stream_setmax.
  destruct (len data =? 0); simpl; by destruct (Offer _ _ _) as [[q out] []].
Qed.

(** ** The simulation *)

(** What is known where a call is; outside the lock it is about the call and the heap only. *)
Definition after_ok (o : sl_op) (pc : sl_pc) (m : SM) : Prop :=
  match pc, o with
  | (QSetMax p | QOffer p | QCloseStream p), KWrite _ _ _ | QResize p, KResize _ _ _ =>
      (p < length (heap m))%nat
  | QDone _, _ => True
  | _, _ => False
  end.

Definition call_ok (o : sl_op) (pc : sl_pc) (m : SM) : Prop :=
  match pc, o with
  | (QAcquire | QLookup), _ => True
  | (QCreate | QInsert _), KAdd sid => sessions m !! sid = None
  | QClose p, KDel sid => sessions m !! sid = Some p
  | QDelete, KDel _ => True
  | QRelease next, _ => after_ok o next m
  | _, _ => after_ok o pc m
  end.

Lemma after_ok_mono o pc (m m' : SM) :
  (length (heap m) ≤ length (heap m'))%nat → after_ok o pc m → after_ok o pc m'.
Proof. intros Hl. destruct pc, o; simpl; try done; lia. Qed.

Lemma call_ok_outside o pc (m m' : SM) :
  in_cs pc = false → (length (heap m) ≤ length (heap m'))%nat → call_ok o pc m → call_ok o pc m'.
Proof. intros Hcs Hl. destruct pc; try done; by apply after_ok_mono. Qed.

Lemma call_ok_heap o pc (m m' : SM) :
  sessions m = sessions m' → (length (heap m) ≤ length (heap m'))%nat → call_ok o pc m → call_ok o pc m'.
Proof. intros Hs Hl. destruct pc, o; simpl; rewrite ?Hs; try done; try lia; by apply after_ok_mono. Qed.

Lemma after_ok_outside o pc (m : SM) : after_ok o pc m → in_cs pc = false ∧ call_ok o pc m.
Proof. by destruct pc. Qed.

(** The sessions map with the delete under way done. *)
Definition settled (ow : option nat) s : gmap Z nat :=
  match ow ≫= λ t, k_calls s !! t with
  | Some (o, QDelete) => delete (op_sid o) (sessions (k_m s))
  | _ => sessions (k_m s)
  end.

(** [ow] is the call that holds the lock. *)
Record sim (ow : option nat) s a : Prop := {
  sim_working : k_working s = match ow with Some _ => 1 | None => 0 end;
  sim_owner t : ow = Some t → is_Some (k_calls s !! t);
  sim_cs t o pc : k_calls s !! t = Some (o, pc) → in_cs pc = bool_decide (ow = Some t);
  sim_ok t o pc : k_calls s !! t = Some (o, pc) → call_ok o pc (k_m s);
  sim_bound sid p : sessions (k_m s) !! sid = Some p → (p < length (heap (k_m s)))%nat;
  sim_calls : a_calls a = abs_call <$> k_calls s;
  sim_heap : heap (a_m a) = heap (k_m s);
  sim_sessions : sessions (a_m a) = settled ow s;
}.

Lemma sim_init : sim None sl_init at_init.
Proof. split; simpl; try done; intros; simplify_map_eq. Qed.

(** The holder of the lock after a call goes to [pc']. *)
Definition owner_after (ow : option nat) (t : nat) (pc pc' : sl_pc) : option nat :=
  if in_cs pc' then Some t else if in_cs pc then None else ow.

(** A call goes on: outside the lock it may only touch the heap. *)
Lemma sim_goto ow s a t o pc pc' w m' am :
  sim ow s a → k_calls s !! t = Some (o, pc) →
  (in_cs pc = false → sessions m' = sessions (k_m s)) →
  (length (heap (k_m s)) ≤ length (heap m'))%nat →
  (∀ sid p, sessions m' !! sid = Some p → (p < length (heap m'))%nat) →
  (in_cs pc = false → in_cs pc' = true → ow = None) →
  call_ok o pc' m' →
  let ow' := owner_after ow t pc pc' in
  w = match ow' with Some _ => 1 | None => 0 end →
  let s' := goto t o pc' (MkL w m' (k_calls s)) in
  heap am = heap m' → sessions am = settled ow' s' →
  sim ow' s' (MkA am (<[t := (o, abs_pc pc')]> (a_calls a))).
Proof.
  intros Hsim Ht Hout Hl Hb Hacq Hok ow' Hw s' Hheap Hsess.
  pose proof (sim_cs _ _ _ Hsim _ _ _ Ht) as Hcs. unfold ow', owner_after in *.
  split; simpl; try done.
  - intros t1 Ho. destruct (decide (t = t1)) as [->|]; [by rewrite lookup_insert_eq|].
    rewrite lookup_insert_ne by done. apply (sim_owner _ _ _ Hsim).
    destruct (in_cs pc'), (in_cs pc); simplify_eq; done.
  - intros t1 o1 pc1 [[<- [= -> ->]]|[Hne H1]]%lookup_insert_Some.
    + destruct (in_cs pc1), (in_cs pc); rewrite ?(bool_decide_true (Some _ = Some _)) by done; done.
    + rewrite (sim_cs _ _ _ Hsim _ _ _ H1). apply bool_decide_ext.
      destruct (in_cs pc') eqn:E', (in_cs pc) eqn:E; symmetry in Hcs;
        rewrite ?bool_decide_eq_true in Hcs; subst; try naive_solver.
  - intros t1 o1 pc1 [[<- [= -> ->]]|[Hne H1]]%lookup_insert_Some; [done|].
    pose proof (sim_ok _ _ _ Hsim _ _ _ H1). destruct (in_cs pc) eqn:E.
    + eapply call_ok_outside; eauto. rewrite (sim_cs _ _ _ Hsim _ _ _ H1).
      apply bool_decide_eq_false. intros ->. symmetry in Hcs. apply bool_decide_eq_true in Hcs. congruence.
    + eapply call_ok_heap; [symmetry; by apply Hout|done|done].
  - by rewrite fmap_insert, (sim_calls _ _ _ Hsim).
Qed.

(** The specification follows with at most one step, of the same call. *)
Definition followed (t : nat) a s' : Prop :=
  ∃ es a' ow', (at_caller <$> es) `sublist_of` [t] ∧ run at_step a es = Some a' ∧ sim ow' s' a'.

Lemma follow_silently t a s' ow' : sim ow' s' a → followed t a s'.
Proof. intros. exists [], a, ow'. split_and!; [apply sublist_nil_l|done|done]. Qed.

Lemma abs_call_same ow s a t o pc pc' :
  sim ow s a → k_calls s !! t = Some (o, pc) → abs_pc pc' = abs_pc pc →
  MkA (a_m a) (<[t := (o, abs_pc pc')]> (a_calls a)) = a.
Proof.
  intros Hsim Ht ->. destruct a as [m calls]; f_equal; simpl.
  apply insert_id. rewrite (sim_calls _ _ _ Hsim : calls = _), lookup_fmap, Ht. done.
Qed.

Lemma follow_effect ow s a t o pc pc' create am s' ow' :
  sim ow s a → k_calls s !! t = Some (o, pc) →
  at_run o (abs_pc pc) create (a_m a) = Some (am, abs_pc pc') →
  sim ow' s' (MkA am (<[t := (o, abs_pc pc')]> (a_calls a))) → followed t a s'.
Proof.
  intros Hsim Ht Hrun Hsim'. exists [ARun t create]. eexists _, ow'. split_and!; [done| |done].
  simpl. rewrite (sim_calls _ _ _ Hsim), lookup_fmap, Ht. simpl. rewrite Hrun. simpl.
  by rewrite <- (sim_calls _ _ _ Hsim).
Qed.

(** Unless its holder is about to delete, the specification has the manager as it is. *)
Lemma settled_free ow s a :
  sim ow s a → (∀ t o, k_calls s !! t = Some (o, QDelete) → ow ≠ Some t) → a_m a = k_m s.
Proof.
  intros Hsim Hd. pose proof (sim_heap _ _ _ Hsim) as Hh. pose proof (sim_sessions _ _ _ Hsim) as Hs.
  destruct (a_m a) as [ss h], (k_m s) as [ss' h'] eqn:Em; simpl in *; subst h. f_equal. rewrite Hs.
  unfold settled. rewrite Em. destruct ow as [t|]; [|done]; simpl.
  destruct (k_calls s !! t) as [[o []]|] eqn:Et; try done. by destruct (Hd t o).
Qed.

Lemma settled_holder ow s a t o pc :
  sim ow s a → k_calls s !! t = Some (o, pc) → in_cs pc = true → pc ≠ QDelete →
  ow = Some t ∧ a_m a = k_m s.
Proof.
  intros Hsim Ht Hcs Hne. pose proof (sim_cs _ _ _ Hsim _ _ _ Ht) as Hcs'.
  rewrite Hcs in Hcs'. symmetry in Hcs'. apply bool_decide_eq_true in Hcs' as ->.
  split; [done|]. eapply settled_free; [done|]. intros t1 o1 H1 [= ->]. congruence.
Qed.

(** The lock is free when a call takes it, and then nobody is about to delete. *)
Lemma settled_unlocked ow s a : sim ow s a → k_working s = 0 → ow = None ∧ a_m a = k_m s.
Proof.
  intros Hsim Hw. rewrite (sim_working _ _ _ Hsim) in Hw. destruct ow; [done|]. split; [done|].
  by eapply settled_free.
Qed.

(** A call outside the lock leaves the settled sessions alone. *)
Lemma settled_outside ow s t o pc pc' w m' :
  k_calls s !! t = Some (o, pc) → in_cs pc = false → in_cs pc' = false → pc' ≠ QDelete →
  sessions m' = sessions (k_m s) →
  settled ow (goto t o pc' (MkL w m' (k_calls s))) = settled ow s.
Proof.
  intros Ht Hcs Hcs' Hne Hs. unfold settled. simpl. destruct ow as [t1|]; [|done]; simpl.
  destruct (decide (t = t1)) as [->|].
  - rewrite lookup_insert_eq, Ht. by destruct pc, pc'.
  - rewrite lookup_insert_ne by done. by rewrite Hs.
Qed.

(** A call that has left the lock works on the stream it found. *)
Lemma sim_heap_op ow s a t o pc pc' p f :
  sim ow s a → k_calls s !! t = Some (o, pc) → in_cs pc = false → after_ok o pc' (k_m s) →
  sim ow (goto t o pc' (set_m (on_heap p f (k_m s)) s))
    (MkA (on_heap p f (a_m a)) (<[t := (o, abs_pc pc')]> (a_calls a))).
Proof.
  intros Hsim Ht Hcs [Hcs' Hok]%after_ok_outside.
  assert (length (heap (on_heap p f (k_m s))) = length (heap (k_m s))) as Hl by apply length_alter.
  assert (owner_after ow t pc pc' = ow) as How by (unfold owner_after; by rewrite Hcs, Hcs').
  pose proof (sim_goto ow s a t o pc pc' (k_working s) (on_heap p f (k_m s)) (on_heap p f (a_m a)) Hsim Ht) as H.
  simpl in H. rewrite How in H. apply H; simpl; try done.
  - by rewrite length_alter.
  - intros sid q Hq. rewrite length_alter. by eapply (sim_bound _ _ _ Hsim).
  - by rewrite Hcs'.
  - apply (call_ok_heap _ _ (k_m s)); [done|by rewrite Hl|done].
  - apply (sim_working _ _ _ Hsim).
  - by rewrite (sim_heap _ _ _ Hsim).
  - rewrite (sim_sessions _ _ _ Hsim). symmetry. eapply settled_outside; [done|done|done| |done].
    intros ->. done.
Qed.

(** The holder of the lock goes on, and the manager becomes [m']. *)
Lemma sim_holder s a t o pc pc' m' am :
  sim (Some t) s a → k_calls s !! t = Some (o, pc) → in_cs pc = true → in_cs pc' = true →
  (length (heap (k_m s)) ≤ length (heap m'))%nat →
  (∀ sid p, sessions m' !! sid = Some p → (p < length (heap m'))%nat) →
  call_ok o pc' m' → heap am = heap m' →
  sessions am = match pc' with QDelete => delete (op_sid o) (sessions m') | _ => sessions m' end →
  sim (Some t) (goto t o pc' (set_m m' s)) (MkA am (<[t := (o, abs_pc pc')]> (a_calls a))).
Proof.
  intros Hsim Ht Hcs Hcs' Hl Hb Hok Hh Hs.
  assert (owner_after (Some t) t pc pc' = Some t) as How by (unfold owner_after; by rewrite Hcs').
  pose proof (sim_goto (Some t) s a t o pc pc' (k_working s) m' am Hsim Ht) as H.
  simpl in H. rewrite How in H. apply H; simpl; try done.
  - by rewrite Hcs.
  - by rewrite Hcs.
  - apply (sim_working _ _ _ Hsim).
  - unfold settled. simpl. rewrite lookup_insert_eq, Hs. by destruct pc'.
Qed.

Lemma follow_acquire ow s a t o :
  sim ow s a → k_calls s !! t = Some (o, QAcquire) → k_working s = 0 →
  followed t a (goto t o QLookup (set_working 1 s)).
Proof.
  intros Hsim Ht Hw. destruct (settled_unlocked _ _ _ Hsim Hw) as [-> Hm].
  apply (follow_silently _ _ _ (Some t)).
  rewrite <- (abs_call_same _ _ _ _ _ _ QLookup Hsim Ht eq_refl).
  apply (sim_goto None s a t o QAcquire QLookup 1 (k_m s) (a_m a) Hsim Ht); try done.
  - apply (sim_bound _ _ _ Hsim).
  - by rewrite Hm.
  - unfold settled. simpl. by rewrite lookup_insert_eq, Hm.
Qed.

Lemma follow_release ow s a t o next :
  sim ow s a → k_calls s !! t = Some (o, QRelease next) →
  followed t a (goto t o next (set_working 0 s)).
Proof.
  intros Hsim Ht. destruct (settled_holder _ _ _ _ _ _ Hsim Ht eq_refl) as [-> Hm]; [done|].
  destruct (after_ok_outside _ _ _ (sim_ok _ _ _ Hsim _ _ _ Ht)) as [Hcs Hok].
  apply (follow_silently _ _ _ None).
  rewrite <- (abs_call_same _ _ _ _ _ _ next Hsim Ht eq_refl).
  assert (owner_after (Some t) t (QRelease next) next = None) as How by (unfold owner_after; by rewrite Hcs).
  pose proof (sim_goto _ s a t o _ next 0 (k_m s) (a_m a) Hsim Ht) as H. simpl in H. rewrite How in H.
  apply H; try done.
  - apply (sim_bound _ _ _ Hsim).
  - by rewrite Hm.
  - by rewrite Hm.
Qed.

Lemma follow_lookup ow s a t o :
  sim ow s a → k_calls s !! t = Some (o, QLookup) →
  followed t a (goto t o (lookup_body o (k_m s)) s).
Proof.
  intros Hsim Ht. destruct (settled_holder _ _ _ _ _ _ Hsim Ht eq_refl) as [-> Hm]; [done|].
  assert (in_cs (lookup_body o (k_m s)) = true ∧ lookup_body o (k_m s) ≠ QDelete ∧
    call_ok o (lookup_body o (k_m s)) (k_m s)) as (Hcs & Hne & Hok).
  { unfold lookup_body. destruct o; simpl; destruct (sessions (k_m s) !! _) eqn:E; simpl; rewrite ?E; try done;
      apply (sim_bound _ _ _ Hsim) in E; repeat case_match; simpl; done. }
  assert (sim (Some t) (goto t o (lookup_body o (k_m s)) s)
    (MkA (a_m a) (<[t := (o, abs_pc (lookup_body o (k_m s)))]> (a_calls a)))) as Hsim'.
  { destruct s as [w m calls]. apply (sim_holder _ _ _ _ _ _ m _ Hsim Ht); simpl in *; try done.
    - apply (sim_bound _ _ _ Hsim).
    - by rewrite Hm.
    - rewrite Hm. by destruct (lookup_body o m). }
  destruct (decide (abs_pc (lookup_body o (k_m s)) = PCall)) as [Hp|Hp].
  - rewrite (abs_call_same _ _ _ _ _ QLookup _ Hsim Ht Hp) in Hsim'. by eapply follow_silently.
  - eapply (follow_effect _ _ _ _ _ _ _ (Ok false) _ _ _ Hsim Ht); [|done]. rewrite Hm.
    unfold lookup_body in Hp |- *. destruct o; simpl in *; unfold Has, Add, Del in *;
      destruct (sessions (k_m s) !! _) eqn:E; simpl in *; rewrite ?E; repeat case_match; try done.
Qed.

Lemma follow_insert ow s a t o rF :
  sim ow s a → k_calls s !! t = Some (o, QInsert rF) →
  followed t a (goto t o (QRelease (QDone (RErr None)))
    (set_m (MkManager (<[op_sid o := length (heap (k_m s))]> (sessions (k_m s)))
                      (heap (k_m s) ++ [newStream rF])) s)).
Proof.
  intros Hsim Ht. destruct (settled_holder _ _ _ _ _ _ Hsim Ht eq_refl) as [-> Hm]; [done|].
  pose proof (sim_ok _ _ _ Hsim _ _ _ Ht) as Hok. destruct o; try done; simpl in *.
  eapply (follow_effect _ _ _ _ _ _ (QRelease (QDone (RErr None))) (Ok rF) _ _ (Some t) Hsim Ht).
  { simpl. unfold Add. by rewrite Hm, Hok. }
  eapply sim_holder; try done; simpl.
  - rewrite length_app. lia.
  - intros i p. rewrite length_app. simpl.
    intros [[_ <-]|[_ ?%(sim_bound _ _ _ Hsim)]]%lookup_insert_Some; lia.
Qed.

Lemma follow_close ow s a t o p :
  sim ow s a → k_calls s !! t = Some (o, QClose p) →
  followed t a (goto t o QDelete (set_m (on_heap p stream_close (k_m s)) s)).
Proof.
  intros Hsim Ht. destruct (settled_holder _ _ _ _ _ _ Hsim Ht eq_refl) as [-> Hm]; [done|].
  pose proof (sim_ok _ _ _ Hsim _ _ _ Ht) as Hok. destruct o; try done; simpl in *.
  eapply (follow_effect _ _ _ _ _ _ QDelete (Ok false) _ _ (Some t) Hsim Ht).
  { simpl. unfold Del. by rewrite Hm, Hok. }
  eapply sim_holder; try done; simpl; rewrite length_alter; [done|apply (sim_bound _ _ _ Hsim)].
Qed.

Lemma follow_delete ow s a t o :
  sim ow s a → k_calls s !! t = Some (o, QDelete) →
  followed t a (goto t o (QRelease (QDone RUnit))
    (set_m (MkManager (delete (op_sid o) (sessions (k_m s))) (heap (k_m s))) s)).
Proof.
  intros Hsim Ht. pose proof (sim_cs _ _ _ Hsim _ _ _ Ht) as Hcs. simpl in Hcs.
  symmetry in Hcs. apply bool_decide_eq_true in Hcs as ->.
  apply (follow_silently _ _ _ (Some t)).
  rewrite <- (abs_call_same _ _ _ _ _ _ (QRelease (QDone RUnit)) Hsim Ht eq_refl).
  eapply sim_holder; try done; simpl.
  - intros i p [_ ?]%lookup_delete_Some. by eapply (sim_bound _ _ _ Hsim).
  - apply (sim_heap _ _ _ Hsim).
  - rewrite (sim_sessions _ _ _ Hsim). unfold settled. simpl. by rewrite Ht.
Qed.

Lemma follow_created ow s a t o e :
  sim ow s a → k_calls s !! t = Some (o, QCreate) →
  followed t a (goto t o (QRelease (QDone (RErr (Some e)))) s) ∧
  ∀ rF, followed t a (goto t o (QInsert rF) s).
Proof.
  intros Hsim Ht. destruct (settled_holder _ _ _ _ _ _ Hsim Ht eq_refl) as [-> Hm]; [done|].
  pose proof (sim_ok _ _ _ Hsim _ _ _ Ht) as Hok. destruct o as [|sid| | |]; try done; simpl in *.
  assert (∀ pc', in_cs pc' = true → pc' ≠ QDelete → call_ok (KAdd sid) pc' (k_m s) →
    sim (Some t) (goto t (KAdd sid) pc' s) (MkA (a_m a) (<[t := (KAdd sid, abs_pc pc')]> (a_calls a)))) as Hgo.
  { intros pc' ?? ?. destruct s as [w m calls]. apply (sim_holder _ _ _ _ _ _ m _ Hsim Ht); simpl in *; try done.
    - apply (sim_bound _ _ _ Hsim).
    - by rewrite Hm.
    - rewrite Hm. by destruct pc'. }
  split.
  - eapply (follow_effect _ _ _ _ _ _ (QRelease (QDone (RErr (Some e)))) (Err e) _ _ (Some t) Hsim Ht); [|by apply Hgo].
    simpl. unfold Add. by rewrite Hm, Hok.
  - intros rF. apply (follow_silently _ _ _ (Some t)).
    rewrite <- (abs_call_same _ _ _ _ _ _ (QInsert rF) Hsim Ht eq_refl). by apply Hgo.
Qed.

Lemma follow_run ow s a t o pc s' :
  sim ow s a → k_calls s !! t = Some (o, pc) → sl_run t o pc s = Some s' → followed t a s'.
Proof.
  intros Hsim Ht Hrun. pose proof (sim_ok _ _ _ Hsim _ _ _ Ht) as Hok.
  destruct pc; simpl in Hrun; simplify_eq.
  - destruct (Z.eqb_spec (k_working s) 0); [by eapply follow_acquire|by eapply follow_silently].
  - by eapply follow_lookup.
  - by eapply follow_insert.
  - by eapply follow_close.
  - by eapply follow_delete.
  - by eapply follow_release.
  - destruct o; simplify_eq. eapply (follow_effect _ _ _ _ _ _ _ (Ok false) _ _ _ Hsim Ht); [|by eapply sim_heap_op].
    done.
  - destruct o; simplify_eq. destruct (heap (k_m s) !! p) as [st|] eqn:E; simplify_eq.
    eapply (follow_effect _ _ _ _ _ _ _ (Ok false) _ _ _ Hsim Ht);
      [|eapply sim_heap_op; [done|done|done|by destruct (offer_complete _ _ _)]].
    simpl. rewrite (sim_heap _ _ _ Hsim), E. simpl. by destruct (offer_complete _ _ _).
  - eapply (follow_effect _ _ _ _ _ _ _ (Ok false) _ _ _ Hsim Ht); [|by eapply sim_heap_op]. done.
  - destruct o; simplify_eq. eapply (follow_effect _ _ _ _ _ _ _ (Ok false) _ _ _ Hsim Ht); [|by eapply sim_heap_op].
    done.
Qed.

Lemma follow_call ow s a t o :
  sim ow s a → k_calls s !! t = None → followed t a (goto t o QAcquire s).
Proof.
  intros Hsim Ht. exists [ACall t o]. eexists _, ow. split_and!; [done|..].
  { simpl. rewrite (sim_calls _ _ _ Hsim), lookup_fmap, Ht. done. }
  assert (∀ t1, ow = Some t1 → t1 ≠ t) as Hne.
  { intros t1 H1 ->. destruct (sim_owner _ _ _ Hsim _ H1). congruence. }
  split; simpl; try by apply Hsim.
  - intros t1 H1. rewrite lookup_insert_ne by (symmetry; by apply Hne). by eapply (sim_owner _ _ _ Hsim).
  - intros t1 o1 pc1 [[<- [= <- <-]]|[_ H1]]%lookup_insert_Some; [|by eapply (sim_cs _ _ _ Hsim)].
    symmetry. apply bool_decide_eq_false. intros H1. by eapply Hne.
  - intros t1 o1 pc1 [[<- [= <- <-]]|[_ H1]]%lookup_insert_Some; [done|by eapply (sim_ok _ _ _ Hsim)].
  - by rewrite fmap_insert.
  - rewrite (sim_sessions _ _ _ Hsim). unfold settled. destruct ow as [t1|]; [|done]; simpl.
    rewrite lookup_insert_ne; [done|]. intros ->. by eapply Hne.
Qed.

Lemma follow_step ow s a e s' : sim ow s a → sl_step s e = Some s' → followed (sl_caller e) a s'.
Proof.
  intros Hsim Hstep. destruct e as [t o|t|t r]; simpl in *;
    destruct (k_calls s !! t) as [[o1 pc]|] eqn:Ht; simplify_eq.
  - by eapply follow_call.
  - by eapply follow_run.
  - destruct pc; try done. destruct r; simplify_eq.
    + apply (follow_created _ _ _ _ _ ErrAlreadyExists Hsim Ht).
    + by eapply follow_created.
Qed.

Lemma follow_trace es s :
  run sl_step sl_init es = Some s →
  ∃ es' a ow, run at_step at_init es' = Some a ∧ (at_caller <$> es') `sublist_of` (sl_caller <$> es) ∧ sim ow s a.
Proof.
  revert s. induction es as [|e es IH] using rev_ind; intros s Hrun; simpl in *.
  { simplify_eq. exists [], at_init, None. split_and!; [done..|apply sim_init]. }
  rewrite run_app in Hrun. apply bind_Some in Hrun as (s1 & Hs1 & Hstep). simpl in Hstep.
  destruct (sl_step s1 e) eqn:E; simplify_eq. destruct (IH _ Hs1) as (es1 & a1 & ow & Hrun1 & Hsub & Hsim).
  destruct (follow_step _ _ _ _ _ Hsim E) as (es2 & a2 & ow' & Hsub2 & Hrun2 & Hsim').
  exists (es1 ++ es2), a2, ow'. split_and!; [rewrite run_app, Hrun1; done| |done].
  rewrite !fmap_app. by apply sublist_app.
Qed.

(** C14. The stream manager's lock makes its methods atomic.  However calls of [Has], [Add],
    [Del], [Write] and [Resize] interleave, compare-and-swap by compare-and-swap and map operation by map
    operation, there is a run of the specification, in which the locked part of each call is one
    sequential operation, that has the same steps of the same calls in the same order, in which
    every call is where it is in the code and has returned what it has returned in the code, in
    which the streams have seen the same, and which has the same sessions whenever the lock is
    free; and never do two calls hold the lock. *)
Theorem stream_manager_refines es s :
  run sl_step sl_init es = Some s →
  (∃ es' a, run at_step at_init es' = Some a ∧ (at_caller <$> es') `sublist_of` (sl_caller <$> es) ∧
     a_calls a = abs_call <$> k_calls s ∧ heap (a_m a) = heap (k_m s) ∧ (k_working s = 0 → a_m a = k_m s)) ∧
  (∀ t1 t2 o1 o2 pc1 pc2, k_calls s !! t1 = Some (o1, pc1) → k_calls s !! t2 = Some (o2, pc2) →
     in_cs pc1 = true → in_cs pc2 = true → t1 = t2).
Proof.
  intros (es' & a & ow & Hrun & Hsub & Hsim)%follow_trace. split.
  - exists es', a. split_and!; [done|done|apply (sim_calls _ _ _ Hsim)|apply (sim_heap _ _ _ Hsim)|].
    intros Hw. eapply settled_unlocked; eauto.
  - intros t1 t2 o1 o2 pc1 pc2 H1%(sim_cs _ _ _ Hsim) H2%(sim_cs _ _ _ Hsim) E1 E2.
    rewrite E1 in H1. rewrite E2 in H2. repeat case_bool_decide; congruence.
Qed.

(** ** Progress *)

(** The steps a call has before it at most, not counting a failed compare-and-swap. *)
Fixpoint steps_left (pc : sl_pc) : nat :=
  match pc with
  | QAcquire => 6
  | QLookup => 5
  | QCreate | QClose _ | QSetMax _ => 3
  | QInsert _ | QDelete | QOffer _ => 2
  | QCloseStream _ | QResize _ => 1
  | QRelease next => S (steps_left next)
  | QDone _ => 0
  end.

Definition work s : nat := map_fold (λ _ c n, (steps_left c.2 + n)%nat) 0%nat (k_calls s).

Lemma work_goto s t o pc pc' w m :
  k_calls s !! t = Some (o, pc) →
  (work (goto t o pc' (MkL w m (k_calls s))) + steps_left pc = work s + steps_left pc')%nat.
Proof.
  intros Ht. unfold work. simpl.
  rewrite <- insert_delete_eq, (map_fold_insert_L _ _ _ _ (delete t (k_calls s)));
    [|intros; lia|apply lookup_delete_eq].
  rewrite (map_fold_delete_L _ _ t (o, pc) (k_calls s)) by (done || intros; lia). simpl. lia.
Qed.

Lemma work_down s t o pc pc' w m :
  k_calls s !! t = Some (o, pc) → (steps_left pc' < steps_left pc)%nat →
  (work (goto t o pc' (MkL w m (k_calls s))) < work s)%nat.
Proof. intros Ht Hlt. pose proof (work_goto s t o pc pc' w m Ht). lia. Qed.

Lemma lookup_body_steps o (m : SM) : (steps_left (lookup_body o m) < 5)%nat.
Proof. unfold lookup_body. repeat case_match; simpl; lia. Qed.

Lemma work_run s t o pc s' :
  k_calls s !! t = Some (o, pc) → sl_run t o pc s = Some s' →
  (pc = QAcquire ∧ k_working s ≠ 0 ∧ s' = s) ∨ (work s' < work s)%nat.
Proof.
  intros Ht Hrun. destruct s as [w m calls]; simpl in *.
  assert (∀ pc' w' m', (steps_left pc' < steps_left pc)%nat → (work (goto t o pc' (MkL w' m' calls)) < work (MkL w m calls))%nat)
    as Hdown by (intros; by eapply (work_down (MkL w m calls))).
  destruct pc; simpl in *; repeat case_match; simplify_eq; unfold set_m, set_working; simpl;
    try (right; apply Hdown; simpl; lia).
  - left. split_and!; [done| |done]. lia.
  - right. apply (Hdown _ w m), lookup_body_steps.
Qed.

(** Only a pending create() keeps the code of a call that can run from running. *)
Lemma sl_run_enabled ow s a t o pc :
  sim ow s a → k_calls s !! t = Some (o, pc) → pc ≠ QCreate → (∀ r, pc ≠ QDone r) →
  is_Some (sl_run t o pc s).
Proof.
  intros Hsim Ht Hc Hd. pose proof (sim_ok _ _ _ Hsim _ _ _ Ht) as Hok.
  destruct pc, o; simpl in *; try done; try (by eexists); try (by destruct (Hd r)).
  destruct (lookup_lt_is_Some_2 _ _ Hok) as [st ->]. by eexists.
Qed.

(** No new calls; [create t] is what the callback of call [t] returns. *)
Definition goes_on (create : nat → result bool) (e : sl_event) : Prop :=
  match e with SCall _ _ => False | SRun _ => True | SCreated t r => r = create t end.

Lemma work_step create s e s' :
  goes_on create e → sl_step s e = Some s' → s' = s ∨ (work s' < work s)%nat.
Proof.
  intros Hq Hstep. destruct e as [|t|t r]; [done| |]; simpl in *;
    destruct (k_calls s !! t) as [[o pc]|] eqn:Ht; try done.
  - destruct (work_run _ _ _ _ _ Ht Hstep) as [(_ & _ & ->)|]; auto.
  - destruct s as [w m calls]. destruct pc; try done. right.
    destruct r; simplify_eq; eapply (work_down (MkL w m calls)); try done; simpl; lia.
Qed.

(** The call that gets further is the holder of the lock, or any when it is free. *)
Lemma some_call_moves create ow s a t o pc :
  sim ow s a → k_calls s !! t = Some (o, pc) → (∀ r, pc ≠ QDone r) →
  ∃ e s', goes_on create e ∧ sl_step s e = Some s' ∧ (work s' < work s)%nat.
Proof.
  intros Hsim Ht Hd.
  assert (∃ t1 o1 pc1, k_calls s !! t1 = Some (o1, pc1) ∧ (∀ r, pc1 ≠ QDone r) ∧
    (pc1 = QAcquire → k_working s = 0)) as (t1 & o1 & pc1 & H1 & Hd1 & Ha1).
  { pose proof (sim_working _ _ _ Hsim) as Hw. destruct ow as [t1|]; [|eauto 10].
    destruct (sim_owner _ _ _ Hsim t1 eq_refl) as [[o1 pc1] H1]. exists t1, o1, pc1.
    pose proof (sim_cs _ _ _ Hsim _ _ _ H1) as Hcs. rewrite bool_decide_true in Hcs by done.
    split_and!; [done|by intros r ->|by intros ->]. }
  assert (pc1 = QCreate ∨ pc1 ≠ QCreate) as [->|Hc] by (destruct pc1; auto).
  - exists (SCreated t1 (create t1)). simpl. rewrite H1. destruct s as [w m calls].
    destruct (create t1); eexists; (split_and!; [done|done|]); eapply (work_down (MkL w m calls)); try done; simpl; lia.
  - destruct (sl_run_enabled _ _ _ _ _ _ Hsim H1 Hc Hd1) as [s' Hs']. exists (SRun t1), s'.
    simpl. rewrite H1. split_and!; [done|done|].
    destruct (work_run _ _ _ _ _ H1 Hs') as [(Hq & Hw & _)|]; [|done]. by apply Ha1 in Hq.
Qed.

(** C30. Calls of the stream manager get done.  A step other than a failed compare-and-swap, which
    changes nothing, uses up one of the steps the calls have left ([work]), whatever the schedule;
    and from every reachable state, as long as the callbacks of [Add] return, whatever they return,
    such steps lead to a state in which every call has returned. *)
Theorem stream_manager_progress create es0 s :
  run sl_step sl_init es0 = Some s →
  (∀ e s', goes_on create e → sl_step s e = Some s' → s' = s ∨ (work s' < work s)%nat) ∧
  ∃ es s', Forall (goes_on create) es ∧ run sl_step s es = Some s' ∧ (length es ≤ work s)%nat ∧
    ∀ t o pc, k_calls s' !! t = Some (o, pc) → ∃ r, pc = QDone r.
Proof.
  intros (_ & a & ow & _ & _ & Hsim)%follow_trace. split; [by apply work_step|].
  remember (work s) as n eqn:En. revert s a ow Hsim En.
  induction n as [n IH] using lt_wf_ind; intros s a ow Hsim En.
  destruct (decide (map_Forall (λ _ c, steps_left c.2 = 0%nat) (k_calls s))) as [Hall|Hn].
  - exists [], s. split_and!; [done|done|simpl; lia|]. intros t o pc Ht.
    apply Hall in Ht. destruct pc; simplify_eq/=; eauto.
  - apply map_not_Forall in Hn as (t & [o pc] & Ht & Hpc); [|intros; apply _].
    destruct (some_call_moves create _ _ _ _ _ _ Hsim Ht) as (e & s1 & Hq & Hstep & Hlt); [by intros r ->|].
    destruct (follow_step _ _ _ _ _ Hsim Hstep) as (_ & a1 & ow1 & _ & _ & Hsim1).
    destruct (IH (work s1) ltac:(lia) _ _ _ Hsim1 eq_refl) as (es & s2 & Hes & Hrun & Hl & Hdone).
    exists (e :: es), s2. simpl. rewrite Hstep. split_and!; [by constructor|done|lia|done].
Qed.

(** ** A callback that does not return *)

(** Past the lock, a call keeps to the heap; before it, it spins. *)
Lemma outside_run s t o pc s' :
  in_cs pc = false → k_working s ≠ 0 → sl_run t o pc s = Some s' →
  sessions (k_m s') = sessions (k_m s) ∧
  (s' = s ∨ pc ≠ QAcquire ∧ ∃ pc', k_calls s' = <[t := (o, pc')]> (k_calls s)).
Proof.
  intros Hcs Hw Hrun. destruct pc; try done; simpl in Hrun; repeat case_match; simplify_eq; simpl; eauto 10.
  lia.
Qed.

(** What every later state has in common with [s]. *)
Definition stuck_since (t0 : nat) (sid : Z) s s' : Prop :=
  k_calls s' !! t0 = Some (KAdd sid, QCreate) ∧ sessions (k_m s') = sessions (k_m s) ∧
  ∀ t o pc, k_calls s' !! t = Some (o, pc) → pc = QAcquire ∨ ∃ pc0, k_calls s !! t = Some (o, pc0) ∧ pc0 ≠ QAcquire.

Lemma stuck_step ow s a t0 sid e s' :
  sim ow s a → k_calls s !! t0 = Some (KAdd sid, QCreate) → sl_step s e = Some s' →
  (∀ r, e ≠ SCreated t0 r) → stuck_since t0 sid s s'.
Proof.
  intros Hsim H0 Hstep He.
  destruct (settled_holder _ _ _ _ _ _ Hsim H0 eq_refl ltac:(done)) as [-> _].
  pose proof (sim_working _ _ _ Hsim) as Hw. simpl in Hw.
  assert (∀ t o pc, k_calls s !! t = Some (o, pc) → t ≠ t0 → in_cs pc = false) as Hout.
  { intros t o pc Ht Hne. rewrite (sim_cs _ _ _ Hsim _ _ _ Ht). apply bool_decide_eq_false. congruence. }
  assert (stuck_since t0 sid s s) as Hrefl.
  { split_and!; [done..|]. intros t o pc Ht. destruct pc; eauto. }
  destruct e as [t o|t|t r]; simpl in Hstep; destruct (k_calls s !! t) as [[o1 pc]|] eqn:Ht; simplify_eq.
  - split_and!; simpl; [rewrite lookup_insert_ne; [done|congruence]|done|].
    intros t1 o1 pc1 [[<- [= <- <-]]|[Hne H1]]%lookup_insert_Some; [auto|]. by apply Hrefl.
  - destruct (decide (t = t0)) as [->|Hne]; [by simplify_eq|].
    destruct (outside_run s t o1 pc s') as [Hs [->|(Hpc & pc' & Hc)]]; [by eapply Hout|lia|done|done|].
    split_and!; [rewrite Hc, lookup_insert_ne; done|done|].
    intros t1 o2 pc2. rewrite Hc. intros [[<- [= <- <-]]|[_ H1]]%lookup_insert_Some; [eauto|]. by apply Hrefl.
  - destruct (decide (t = t0)) as [->|Hne]; [by destruct (He r)|].
    apply Hout in Ht; [|done]. by destruct pc.
Qed.

(** A callback of [Add] that has not returned stops the whole manager: in whatever way the
    calls go on until it returns, no call gets past the lock that had not got past it before, the
    sessions stay as they are, and the [Add] stays in its callback.  (The callbacks of exec, attach and port-forward
    start the command through the host's implementation, and the controller loop delivers the
    input of every stream with [Write].) *)
Theorem create_blocks_manager es0 s t0 sid es s' :
  run sl_step sl_init es0 = Some s → k_calls s !! t0 = Some (KAdd sid, QCreate) →
  run sl_step s es = Some s' → (∀ r, SCreated t0 r ∉ es) →
  k_calls s' !! t0 = Some (KAdd sid, QCreate) ∧ sessions (k_m s') = sessions (k_m s) ∧
  ∀ t o pc, k_calls s' !! t = Some (o, pc) → pc = QAcquire ∨ ∃ pc0, k_calls s !! t = Some (o, pc0) ∧ pc0 ≠ QAcquire.
Proof.
  intros (_ & a & ow & _ & _ & Hsim)%follow_trace H0 Hrun Hes.
  revert s a ow Hsim H0 Hrun. induction es as [|e es IH]; intros s a ow Hsim H0 Hrun; simpl in Hrun.
  { simplify_eq. split_and!; [done..|]. intros t o pc Ht. destruct pc; eauto. }
  destruct (sl_step s e) as [s1|] eqn:E; simplify_eq.
  destruct (stuck_step _ _ _ _ _ _ _ Hsim H0 E) as (H1 & Hs1 & Hc1); [set_solver|].
  destruct (follow_step _ _ _ _ _ Hsim E) as (_ & a1 & ow1 & _ & _ & Hsim1).
  destruct (IH ltac:(set_solver) s1 a1 ow1 Hsim1 H1 Hrun) as (H2 & Hs2 & Hc2).
  split_and!; [done|congruence|]. intros t o pc Ht.
  destruct (Hc2 _ _ _ Ht) as [|(pc1 & Ht1 & Hne)]; [auto|].
  destruct (Hc1 _ _ _ Ht1) as [|?]; [done|auto].
Qed.
End stream_lock.

(** ** Three calls at once *)

Module SampleStreamLock.
Import SampleSeqQueue.
#[local] Existing Instance sample_errors.

Abbreviation sample_run := (run (sl_step (Q := squeue)) sl_init).

(** Session 5 exists; call 1 writes to it, call 2 deletes it, call 3 adds session 6. *)
Definition created5 : list sl_event := [SCall 0 (KAdd 5); SRun 0; SRun 0; SCreated 0 (Ok false); SRun 0; SRun 0].
Definition overlapped : list sl_event :=
  created5 ++
  [SCall 1 (KWrite 5 0 [7]); SRun 1; SCall 2 (KDel 5); SRun 2; SRun 1; SRun 1; SCall 3 (KAdd 6); SRun 2; SRun 3;
   SRun 2; SRun 2; SRun 3; SRun 1; SRun 2; SRun 2; SRun 3; SRun 3].

(** [Write] uses the stream it found after a [Del] in between has closed it. *)
Example late_write :
  option_map (λ s, (st_w <$> heap (k_m s), (λ c, c.2) <$> k_calls s !! 3%nat)) (sample_run overlapped)
  = Some ([[CloseCall; Wrote [7]]], Some QCreate).
Proof. vm_compute. reflexivity. Qed.

Definition overlapping : lstate (Q := squeue) := default sl_init (sample_run overlapped).

Lemma stream_manager_refines_witness :
  ∃ es' a, run at_step at_init es' = Some a ∧ (at_caller <$> es') `sublist_of` (sl_caller <$> overlapped) ∧
    a_calls a = abs_call <$> k_calls overlapping ∧ heap (a_m a) = heap (k_m overlapping) ∧
    (k_working overlapping = 0 → a_m a = k_m overlapping).
Proof. apply (stream_manager_refines overlapped overlapping). vm_compute. reflexivity. Defined.

Lemma stream_manager_progress_witness :
  ∃ es s', Forall (goes_on (λ _, Ok true)) es ∧ run sl_step overlapping es = Some s' ∧
    (length es ≤ 3)%nat ∧ ∀ t o pc, k_calls s' !! t = Some (o, pc) → ∃ r, pc = QDone r.
Proof.
  assert (work overlapping = 3%nat) as <- by (vm_compute; reflexivity).
  apply (stream_manager_progress (λ _, Ok true) overlapped overlapping). vm_compute. reflexivity.
Defined.

(** While call 3 creates session 6, a call that wants to know about session 5 spins. *)
Definition asking : list sl_event := [SCall 4 (KHas 5); SRun 4; SRun 4; SRun 4].

Lemma create_blocks_manager_witness :
  ∃ s', run sl_step overlapping asking = Some s' ∧ k_calls s' !! 3%nat = Some (KAdd 6, QCreate) ∧
    ∀ t o pc, k_calls s' !! t = Some (o, pc) →
      pc = QAcquire ∨ ∃ pc0, k_calls overlapping !! t = Some (o, pc0) ∧ pc0 ≠ QAcquire.
Proof.
  eexists. split; [vm_compute; reflexivity|].
  refine ((λ '(conj H1 (conj _ H2)), conj H1 H2) (create_blocks_manager overlapped overlapping 3 6 asking _ _ _ _ _)).
  - vm_compute. reflexivity.
  - vm_compute. reflexivity.
  - vm_compute. reflexivity.
  - intros r. unfold asking. rewrite !elem_of_cons, elem_of_nil. naive_solver.
Defined.
End SampleStreamLock.
