(* ===== verification/NextSeq.v ===== *)
(** * The sequence counter of a stream operation (nextSeq in extruntime/handler_stream.go)

    The goroutines that upload the output of one operation number their messages from a shared
    counter with an atomic load and a compare-and-swap loop.  The loop does not load the counter
    again when the swap fails: it tries the next number.  [ns_step] runs one atomic action of one
    call; [ns_returned] lists the calls that have returned, in the order of their swaps. *)
From S2P Require Import Prelude.

Set Default Proof Using "Type".

Inductive ns_pc : Type :=
| NLoad                (* seq := atomic.LoadUint64(p) *)
| NCas (seq : Z)       (* atomic.CompareAndSwapUint64(p, seq, seq+1) *)
| NReturned (seq : Z).

Record ns_state : Type := MkNs {
  ns_p : Z;
  ns_calls : gmap nat ns_pc;
  ns_returned : list (nat * Z);
}.

Inductive ns_event : Type :=
| NCall (t : nat)    (* a goroutine calls nextSeq *)
| NStep (t : nat).   (* the call's next action *)

Definition ns_step (s : ns_state) (e : ns_event) : option ns_state :=
  match e with
  | NCall t =>
      match ns_calls s !! t with
      | None => Some (MkNs (ns_p s) (<[t := NLoad]> (ns_calls s)) (ns_returned s))
      | Some _ => None
      end
  | NStep t =>
      match ns_calls s !! t with
      | Some NLoad => Some (MkNs (ns_p s) (<[t := NCas (ns_p s)]> (ns_calls s)) (ns_returned s))
      | Some (NCas seq) =>
          if ns_p s =? seq
          then Some (MkNs (uint64 (seq + 1)) (<[t := NReturned seq]> (ns_calls s))
                      (ns_returned s ++ [(t, seq)]))
          else Some (MkNs (ns_p s) (<[t := NCas (uint64 (seq + 1))]> (ns_calls s)) (ns_returned s))
      | _ => None
      end
  end.

Definition ns_init : ns_state := MkNs 0 ∅ [].

(** What one call after another would return. *)
Definition first_numbers (n : nat) : list Z := Z.of_nat <$> seq 0 n.

(** As long as the counter has not wrapped around: it counts the calls that returned, they got
    the numbers 0, 1, 2, ..., and no call tries a number beyond it. *)
Record ns_ok (s : ns_state) : Prop := {
  nso_count : ns_p s = len (ns_returned s);
  nso_numbers : (ns_returned s).*2 = first_numbers (length (ns_returned s));
  nso_behind t seq : ns_calls s !! t = Some (NCas seq) → 0 ≤ seq ≤ ns_p s;
  nso_results t seq : ns_calls s !! t = Some (NReturned seq) ↔ (t, seq) ∈ ns_returned s;
}.

Definition ns_inv (s : ns_state) : Prop := len (ns_returned s) < 2 ^ 64 → ns_ok s.

Lemma ns_inv_step s e s' : ns_inv s → ns_step s e = Some s' → ns_inv s'.
Proof.
  intros Hinv Hstep Hlt.
  assert (ns_ok s) as [Hc Hn Hb Hr].
  { apply Hinv. destruct e; simpl in Hstep; split_step Hstep; try done.
    rewrite len_app, len_cons, len_nil in Hlt. lia. }
  destruct e; simpl in Hstep; split_step Hstep; split; simpl; try done.
  - intros i sn. rewrite lookup_insert. case_decide; [done|]. apply Hb.
  - intros i sn. rewrite lookup_insert. case_decide; [|done]. subst. rewrite <-Hr. naive_solver congruence.
  - intros i sn. rewrite lookup_insert. case_decide; [intros [= <-]; rewrite Hc; pose proof (len_nonneg (ns_returned s)); lia|apply Hb].
  - intros i sn. rewrite lookup_insert. case_decide; [|done]. subst. rewrite <-Hr. naive_solver congruence.
  - rewrite len_app, len_cons, len_nil in *. pose proof (len_nonneg (ns_returned s)).
    rewrite uint64_small; unfold is_uint64; lia.
  - rewrite fmap_app, length_app, Hn. unfold first_numbers. simpl.
    rewrite Nat.add_1_r, seq_S, fmap_app. simpl. f_equal. unfold len in Hc. f_equal. lia.
  - intros i sn. rewrite lookup_insert. case_decide; [done|]. intros Hi%Hb.
    rewrite len_app, len_cons, len_nil in *. rewrite uint64_small; unfold is_uint64; lia.
  - intros i sn. rewrite lookup_insert, elem_of_app, list_elem_of_singleton. case_decide.
    + subst. split; [intros [= <-]; by right|]. intros [Hin|[= <-]]; [|done].
      apply Hr in Hin. congruence.
    + rewrite Hr. split; [by left|]. intros [?|[= <- <-]]; done.
  - intros i sn. rewrite lookup_insert. case_decide; [|apply Hb]. intros [= <-].
    pose proof (Hb _ _ E). rewrite uint64_small by (unfold is_uint64; lia). lia.
  - intros i sn. rewrite lookup_insert. case_decide; [|done]. subst. rewrite <-Hr. naive_solver congruence.
Qed.

Lemma ns_inv_reachable s : reachable ns_step (eq ns_init) s → ns_inv s.
Proof.
  apply invariant_reachable. split; [|apply ns_inv_step].
  intros ? <- _. split; simpl; try done. intros t seq. rewrite lookup_empty. set_solver.
Qed.

Lemma first_numbers_inj n i j v : first_numbers n !! i = Some v → first_numbers n !! j = Some v → i = j.
Proof.
  unfold first_numbers. rewrite !list_lookup_fmap_Some.
  intros (? & -> & [-> _]%lookup_seq) (? & ? & [-> _]%lookup_seq). lia.
Qed.

(** C32. Message numbers are unique and have no gaps.  Any number of concurrent [nextSeq] calls,
    interleaved in any way, return 0, 1, 2, ... in the order of their swaps, as if the calls had
    run one after another; no two calls return the same number; and the counter is the number of
    calls that have returned (up to 2^64 calls, where it wraps around). *)
Theorem nextSeq_linearizable s :
  reachable ns_step (eq ns_init) s → len (ns_returned s) < 2 ^ 64 →
  (ns_returned s).*2 = first_numbers (length (ns_returned s)) ∧ ns_p s = len (ns_returned s) ∧
  (∀ t v, ns_calls s !! t = Some (NReturned v) → 0 ≤ v < ns_p s) ∧
  (∀ t t' v, ns_calls s !! t = Some (NReturned v) → ns_calls s !! t' = Some (NReturned v) → t = t').
Proof.
  intros Hr Hlt. destruct (ns_inv_reachable s Hr Hlt) as [Hc Hn Hb Hres].
  split_and!; [done|done|..].
  - intros t v Hv%Hres. apply list_elem_of_lookup in Hv as [i Hi].
    assert ((ns_returned s).*2 !! i = Some v) as Hv by (by rewrite list_lookup_fmap, Hi).
    rewrite Hn in Hv. unfold first_numbers in Hv. rewrite list_lookup_fmap_Some in Hv.
    destruct Hv as (j & -> & [-> Hj]%lookup_seq). rewrite Hc. unfold len. lia.
  - intros t t' v Ht%Hres Ht'%Hres.
    apply list_elem_of_lookup in Ht as [i Hi], Ht' as [j Hj].
    assert (i = j) as ->; [|congruence].
    apply (first_numbers_inj (length (ns_returned s)) i j v); rewrite <-Hn, list_lookup_fmap;
      [by rewrite Hi|by rewrite Hj].
Qed.

(** The compare-and-swap loop terminates.  Wherever the other calls are, a call that has
    loaded [seq] returns after at most [counter - seq + 1] attempts of its own when the others
    pause, although it never loads the counter again; it then has the counter's value. *)
Theorem nextSeq_terminates s t seq :
  reachable ns_step (eq ns_init) s → len (ns_returned s) < 2 ^ 64 →
  ns_calls s !! t = Some (NCas seq) →
  ∃ s', run ns_step s (replicate (Z.to_nat (ns_p s - seq) + 1) (NStep t)) = Some s' ∧
    ns_calls s' !! t = Some (NReturned (ns_p s)).
Proof.
  intros Hr Hlt Ht. destruct (ns_inv_reachable s Hr Hlt) as [Hc _ Hb _]. apply Hb in Ht as Hle.
  assert (ns_p s < 2 ^ 64) as Hp by lia. clear Hr Hlt Hb Hc.
  remember (Z.to_nat (ns_p s - seq)) as n eqn:Hn. revert s seq Ht Hle Hp Hn.
  induction n as [|n IH]; intros s seq Ht Hle Hp Hn; simpl; rewrite Ht.
  - assert (ns_p s = seq) as <- by lia. rewrite Z.eqb_refl. eexists. split; [done|].
    simpl. by rewrite lookup_insert_eq.
  - rewrite (proj2 (Z.eqb_neq (ns_p s) seq)) by lia. rewrite uint64_small by (unfold is_uint64; lia).
    apply (IH (MkNs _ _ _) (seq + 1)); simpl; [by rewrite lookup_insert_eq|lia..].
Qed.

(** Two calls race: the second loads 0, loses, and takes 1. *)
Definition race : list ns_event := [NCall 0; NCall 1; NStep 0; NStep 1; NStep 0].
Definition raced : ns_state := match run ns_step ns_init race with Some s => s | None => ns_init end.

Lemma raced_reachable : reachable ns_step (eq ns_init) raced.
Proof. apply (reachable_run ns_step _ ns_init race); [by constructor|by vm_compute]. Qed.

Lemma nextSeq_linearizable_witness :
  (ns_returned raced).*2 = first_numbers 1 ∧ ns_p raced = len (ns_returned raced).
Proof.
  destruct (nextSeq_linearizable raced) as (H1 & H2 & _).
  - apply raced_reachable.
  - vm_compute. reflexivity.
  - split; [exact H1|exact H2].
Defined.

Lemma nextSeq_terminates_witness :
  ∃ s', run ns_step raced (replicate 2 (NStep 1)) = Some s' ∧
    ns_calls s' !! 1%nat = Some (NReturned 1).
Proof.
  apply (nextSeq_terminates raced 1 0).
  - apply raced_reachable.
  - vm_compute. reflexivity.
  - vm_compute. reflexivity.
Defined.
