(* ===== verification/RuntimePb.v ===== *)
(** * Runtime packets, the runtime engine and the commands it answers at once
      (extruntime/types.go, handler.go, handler_pod.go, handler_image.go)

    The packets and their generated (un)marshal methods (aranya-proto) are parameters, as is the
    [RuntimeEngine], which is the user's code: [W] is whatever it acts on. *)
From S2P Require Import Prelude Proto Handler.

Set Default Proof Using "Type".

(** runtimepb.Packet *)
Record Packet : Type := MkPacket { pkt_Kind : Z; pkt_Payload : bytes }.

(** aranyagopb.ErrorMsg *)
Record ErrorMsg : Type := MkErrorMsg { em_Kind : Z; em_Description : string; em_Code : Z }.

#[export] Instance Packet_eq_dec : EqDecision Packet.
Proof. solve_decision. Defined.
#[export] Instance ErrorMsg_eq_dec : EqDecision ErrorMsg.
Proof. solve_decision. Defined.

(** runtimepb.RuntimeInfo *)
Record RuntimeInfo : Type := MkRuntimeInfo {
  ri_Name : string;
  ri_Version : string;
  ri_Os : string;
  ri_OsImage : string;
  ri_Arch : string;
  ri_KernelVersion : string;
}.

(** The fields of aranyagopb.ExecOrAttachCmd that decide what the handler does. *)
Record ExecOrAttachCmd : Type := MkExec {
  ex_Stdin : bool;
  ex_Stdout : bool;
  ex_Stderr : bool;
  ex_Tty : bool;
  ex_Command : list string;
}.

Record TerminalResizeCmd : Type := MkResize { rs_Cols : Z; rs_Rows : Z }.

(** The enumeration values, message types and generated methods of aranya-proto. *)
Class AranyaPb := {
  CMD_GET_INFO : Z;
  CMD_EXEC : Z;
  CMD_ATTACH : Z;
  CMD_LOGS : Z;
  CMD_TTY_RESIZE : Z;
  CMD_PORT_FORWARD : Z;
  CMD_IMAGE_LIST : Z;
  CMD_IMAGE_ENSURE : Z;
  CMD_IMAGE_DELETE : Z;
  CMD_POD_LIST : Z;
  CMD_POD_ENSURE : Z;
  CMD_POD_DELETE : Z;
  MSG_RUNTIME_INFO : Z;
  MSG_POD_STATUS : Z;
  MSG_POD_STATUS_LIST : Z;
  MSG_IMAGE_STATUS_LIST : Z;
  ERR_COMMON : Z;
  DefaultExitCodeOnError : Z;   (* arhat.dev/pkg/exechelper *)

  PodListCmd : Type;
  PodEnsureCmd : Type;
  PodDeleteCmd : Type;
  ImageListCmd : Type;
  ImageEnsureCmd : Type;
  ImageDeleteCmd : Type;
  LogsCmd : Type;
  PortForwardCmd : Type;
  PodStatusMsg : Type;
  PodStatusListMsg : Type;
  ImageStatusListMsg : Type;

  Packet_Unmarshal : bytes → result Packet;
  Packet_Marshal : Packet → result bytes;
  ErrorMsg_Marshal : ErrorMsg → result bytes;
  RuntimeInfo_Marshal : RuntimeInfo → result bytes;
  PodListCmd_Unmarshal : bytes → result PodListCmd;
  PodEnsureCmd_Unmarshal : bytes → result PodEnsureCmd;
  PodDeleteCmd_Unmarshal : bytes → result PodDeleteCmd;
  ImageListCmd_Unmarshal : bytes → result ImageListCmd;
  ImageEnsureCmd_Unmarshal : bytes → result ImageEnsureCmd;
  ImageDeleteCmd_Unmarshal : bytes → result ImageDeleteCmd;
  ExecOrAttachCmd_Unmarshal : bytes → result ExecOrAttachCmd;
  LogsCmd_Unmarshal : bytes → result LogsCmd;
  TerminalResizeCmd_Unmarshal : bytes → result TerminalResizeCmd;
  PortForwardCmd_Unmarshal : bytes → result PortForwardCmd;
  PodStatusMsg_Marshal : PodStatusMsg → result bytes;
  PodStatusListMsg_Marshal : PodStatusListMsg → result bytes;
  ImageStatusListMsg_Marshal : ImageStatusListMsg → result bytes;
}.

(** [RuntimeEngine], less the operations on streams, whose results the runtime model takes from
    its schedule. *)
Class RuntimeEngine `{!AranyaPb} (W : Type) := {
  rt_Name : string;
  rt_Version : string;
  rt_OS : string;
  rt_OSImage : string;
  rt_Arch : string;
  rt_KernelVersion : string;
  EnsurePod : PodEnsureCmd → W → W * result PodStatusMsg;
  DeletePod : PodDeleteCmd → W → W * result PodStatusMsg;
  ListPods : PodListCmd → W → W * result PodStatusListMsg;
  EnsureImages : ImageEnsureCmd → W → W * result ImageStatusListMsg;
  DeleteImages : ImageDeleteCmd → W → W * result ImageStatusListMsg;
  ListImages : ImageListCmd → W → W * result ImageStatusListMsg;
}.

Section runtime_commands.
Context `{pb : !ArhatPb, apb : !AranyaPb} {W : Type} `{engine : !RuntimeEngine W}.

(** [data, err := msg.Marshal()] and the packet around it. *)
Definition packet (kind : Z) (data : result bytes) : result (option Packet) :=
  match data with Err e => Err e | Ok d => Ok (Some (MkPacket kind d)) end.

Definition handleGetInfo (payload : bytes) (w : W) : W * result (option Packet) :=
  (w, packet MSG_RUNTIME_INFO
        (RuntimeInfo_Marshal
           (MkRuntimeInfo rt_Name rt_Version rt_OS rt_OSImage rt_Arch rt_KernelVersion))).

Definition handlePodList (payload : bytes) (w : W) : W * result (option Packet) :=
  match PodListCmd_Unmarshal payload with
  | Err e => (w, Err e)
  | Ok opts =>
      match ListPods opts w with
      | (w', Err e) => (w', Err e)
      | (w', Ok msg) => (w', packet MSG_POD_STATUS_LIST (PodStatusListMsg_Marshal msg))
      end
  end.

Definition handlePodEnsure (payload : bytes) (w : W) : W * result (option Packet) :=
  match PodEnsureCmd_Unmarshal payload with
  | Err e => (w, Err e)
  | Ok opts =>
      match EnsurePod opts w with
      | (w', Err e) => (w', Err e)
      | (w', Ok msg) => (w', packet MSG_POD_STATUS (PodStatusMsg_Marshal msg))
      end
  end.

Definition handlePodDelete (payload : bytes) (w : W) : W * result (option Packet) :=
  match PodDeleteCmd_Unmarshal payload with
  | Err e => (w, Err e)
  | Ok opts =>
      match DeletePod opts w with
      | (w', Err e) => (w', Err e)
      | (w', Ok msg) => (w', packet MSG_POD_STATUS (PodStatusMsg_Marshal msg))
      end
  end.

Definition handleImageList (payload : bytes) (w : W) : W * result (option Packet) :=
  match ImageListCmd_Unmarshal payload with
  | Err e => (w, Err e)
  | Ok opts =>
      match ListImages opts w with
      | (w', Err e) => (w', Err e)
      | (w', Ok msg) => (w', packet MSG_IMAGE_STATUS_LIST (ImageStatusListMsg_Marshal msg))
      end
  end.

Definition handleImageEnsure (payload : bytes) (w : W) : W * result (option Packet) :=
  match ImageEnsureCmd_Unmarshal payload with
  | Err e => (w, Err e)
  | Ok opts =>
      match EnsureImages opts w with
      | (w', Err e) => (w', Err e)
      | (w', Ok msg) => (w', packet MSG_IMAGE_STATUS_LIST (ImageStatusListMsg_Marshal msg))
      end
  end.

Definition handleImageDelete (payload : bytes) (w : W) : W * result (option Packet) :=
  match ImageDeleteCmd_Unmarshal payload with
  | Err e => (w, Err e)
  | Ok opts =>
      match DeleteImages opts w with
      | (w', Err e) => (w', Err e)
      | (w', Ok msg) => (w', packet MSG_IMAGE_STATUS_LIST (ImageStatusListMsg_Marshal msg))
      end
  end.

(** [data, _ := err.Marshal()] *)
Definition error_data (e : ErrorMsg) : bytes :=
  match ErrorMsg_Marshal e with Ok d => d | Err _ => [] end.

Definition common_error (description : string) : ErrorMsg := MkErrorMsg ERR_COMMON description 0.

(** The message HandleCmd's goroutine sends for the result of [do]; none for a nil packet or one
    that cannot be marshalled. *)
Definition reply (sid seq : Z) (r : result (option Packet)) : option Msg :=
  match r with
  | Err e => Some (MkMsg MSG_RUNTIME_ARANYA_PROTO sid seq (error_data (common_error (Error e))))
  | Ok None => None
  | Ok (Some p) =>
      match Packet_Marshal p with
      | Err _ => None
      | Ok data => Some (MkMsg MSG_RUNTIME_ARANYA_PROTO sid seq data)
      end
  end.

(** The functions of [funcMap]. *)
Inductive rt_func : Type :=
| FSimple (do : bytes → W → W * result (option Packet))
| FExec | FAttach | FLogs | FTtyResize | FPortForward.

(** [NewHandler]'s table. *)
Definition rt_table : list (Z * rt_func) :=
  [(CMD_GET_INFO, FSimple handleGetInfo);
   (CMD_EXEC, FExec);
   (CMD_ATTACH, FAttach);
   (CMD_LOGS, FLogs);
   (CMD_TTY_RESIZE, FTtyResize);
   (CMD_PORT_FORWARD, FPortForward);
   (CMD_IMAGE_LIST, FSimple handleImageList);
   (CMD_IMAGE_ENSURE, FSimple handleImageEnsure);
   (CMD_IMAGE_DELETE, FSimple handleImageDelete);
   (CMD_POD_LIST, FSimple handlePodList);
   (CMD_POD_ENSURE, FSimple handlePodEnsure);
   (CMD_POD_DELETE, FSimple handlePodDelete)].

Definition rt_funcMap : gmap Z rt_func := list_to_map rt_table.
End runtime_commands.

(** ** Errors of a stream *)

Section stream_errors.
Context `{apb : !AranyaPb}.

(** The body of the loop of [collectStreamErrors] for a value received from [errCh]. *)
Definition collect_one (errMsg e : option ErrorMsg) : option ErrorMsg :=
  match e with
  | None => errMsg
  | Some e =>
      match errMsg with
      | None => Some e
      | Some m =>
          Some (MkErrorMsg (em_Kind m) (em_Description m +:+ "; " +:+ em_Description e)
                  (if bool_decide (em_Code e ≠ 0 ∧ em_Code m = 0) then em_Code e else em_Code m))
      end
  end.

(** [collectStreamErrors] when the values of [es] are received and then [errCh] is closed
    ([done = false]) or the context is cancelled ([done = true]). *)
Definition collectStreamErrors (es : list (option ErrorMsg)) (done : bool) : option ErrorMsg :=
  if done then Some (MkErrorMsg ERR_COMMON (Error Canceled) DefaultExitCodeOnError)
  else foldl collect_one None es.

(** Descriptions joined with "; ", as the reader of the report sees them. *)
Fixpoint join (ds : list string) : string :=
  match ds with
  | [] => ""
  | [d] => d
  | d :: ds => d +:+ "; " +:+ join ds
  end.

Definition first_code (es : list ErrorMsg) : Z :=
  match list_find (λ e, em_Code e ≠ 0) es with Some (_, e) => em_Code e | None => 0 end.

(** The report of a list of errors: the kind of the first, all the descriptions in order, the
    first exit code that is not 0. *)
Definition report (es : list ErrorMsg) : option ErrorMsg :=
  match es with
  | [] => None
  | e :: _ => Some (MkErrorMsg (em_Kind e) (join (em_Description <$> es)) (first_code es))
  end.

Lemma string_app_assoc (a b c : string) : (a +:+ b) +:+ c = a +:+ (b +:+ c).
Proof. induction a as [|x a IH]; [done|]. exact (f_equal (String x) IH). Qed.

Lemma join_snoc ds d : ds ≠ [] → join (ds ++ [d]) = join ds +:+ "; " +:+ d.
Proof.
  intros Hne. destruct ds as [|x ds]; [done|]. clear Hne. revert x.
  induction ds as [|y ds IH]; intros x; [done|].
  change (join ((x :: y :: ds) ++ [d])) with (x +:+ "; " +:+ join ((y :: ds) ++ [d])).
  rewrite IH. change (join (x :: y :: ds)) with (x +:+ "; " +:+ join (y :: ds)).
  by rewrite !string_app_assoc.
Qed.

Lemma first_code_snoc es e :
  first_code (es ++ [e]) = if bool_decide (first_code es = 0) then em_Code e else first_code es.
Proof.
  unfold first_code. induction es as [|x es IH]; simpl.
  - destruct (decide (em_Code e ≠ 0)); simpl; [done|]. lia.
  - destruct (decide (em_Code x ≠ 0)); simpl; [by rewrite bool_decide_false|].
    destruct (list_find _ (es ++ [e])) as [[]|], (list_find _ es) as [[]|]; exact IH.
Qed.

Lemma report_snoc es e : report (es ++ [e]) = collect_one (report es) (Some e).
Proof.
  destruct es as [|x es]; [simpl; unfold first_code; simpl; case_decide as Hd; simpl|].
  - by destruct e.
  - destruct e as [k d c]. simpl in *. f_equal. f_equal. lia.
  - change (report ((x :: es) ++ [e])) with
      (Some (MkErrorMsg (em_Kind x) (join (em_Description <$> (x :: es) ++ [e])) (first_code ((x :: es) ++ [e])))).
    rewrite fmap_app, first_code_snoc. rewrite (join_snoc (em_Description <$> x :: es) (em_Description e)) by done.
    change (report (x :: es)) with
      (Some (MkErrorMsg (em_Kind x) (join (em_Description <$> x :: es)) (first_code (x :: es)))).
    generalize (first_code (x :: es)), (join (em_Description <$> x :: es)). intros c d.
    unfold collect_one. simpl. do 2 f_equal. repeat case_bool_decide; naive_solver lia.
Qed.

(** C36. The errors of a stream are reported together.  When the engine closes its error channel,
    the report sent to the hub has the kind of the first error, every description in the order
    the errors came in, and the first exit code that is not 0; nil values on the channel are
    skipped; with no error there is no report.  A cancelled context replaces the report by
    "context canceled" with the default exit code. *)
Theorem collectStreamErrors_report (es : list (option ErrorMsg)) :
  collectStreamErrors es false = report (omap id es) ∧
  collectStreamErrors es true = Some (MkErrorMsg ERR_COMMON "context canceled" DefaultExitCodeOnError).
Proof.
  split; [|done]. unfold collectStreamErrors.
  induction es as [|e es IH] using rev_ind; [done|].
  rewrite foldl_app, omap_app, IH. simpl. destruct e as [e|]; simpl.
  - by rewrite report_snoc.
  - by rewrite app_nil_r.
Qed.
End stream_errors.

(** ** One instance, for running the definitions on concrete inputs *)

(** Every message is its own encoding; a packet's first byte is its kind. *)
Definition sample_aranya : AranyaPb := {|
  CMD_GET_INFO := 1; CMD_EXEC := 2; CMD_ATTACH := 3; CMD_LOGS := 4; CMD_TTY_RESIZE := 5;
  CMD_PORT_FORWARD := 6; CMD_IMAGE_LIST := 7; CMD_IMAGE_ENSURE := 8; CMD_IMAGE_DELETE := 9;
  CMD_POD_LIST := 10; CMD_POD_ENSURE := 11; CMD_POD_DELETE := 12; MSG_RUNTIME_INFO := 20;
  MSG_POD_STATUS := 21; MSG_POD_STATUS_LIST := 22; MSG_IMAGE_STATUS_LIST := 23; ERR_COMMON := 1;
  DefaultExitCodeOnError := 128;
  PodListCmd := bytes; PodEnsureCmd := bytes; PodDeleteCmd := bytes; ImageListCmd := bytes;
  ImageEnsureCmd := bytes; ImageDeleteCmd := bytes; LogsCmd := bytes; PortForwardCmd := bytes;
  PodStatusMsg := bytes; PodStatusListMsg := bytes; ImageStatusListMsg := bytes;
  Packet_Unmarshal b := match b with [] => Err EOF | k :: p => Ok (MkPacket k p) end;
  Packet_Marshal p := Ok (pkt_Kind p :: pkt_Payload p);
  ErrorMsg_Marshal e := Ok [em_Kind e; em_Code e];
  RuntimeInfo_Marshal _ := Ok [0];
  PodListCmd_Unmarshal := Ok; PodEnsureCmd_Unmarshal := Ok; PodDeleteCmd_Unmarshal := Ok;
  ImageListCmd_Unmarshal := Ok; ImageEnsureCmd_Unmarshal := Ok; ImageDeleteCmd_Unmarshal := Ok;
  ExecOrAttachCmd_Unmarshal b := Ok (MkExec (bool_decide (b ≠ [])) true false false []);
  LogsCmd_Unmarshal := Ok; PortForwardCmd_Unmarshal := Ok;
  TerminalResizeCmd_Unmarshal _ := Ok (MkResize 80 24);
  PodStatusMsg_Marshal := Ok; PodStatusListMsg_Marshal := Ok; ImageStatusListMsg_Marshal := Ok;
|}.

(** Pods are not supported; images are echoed. *)
Definition sample_engine : @RuntimeEngine sample_aranya unit :=
  @Build_RuntimeEngine sample_aranya unit "n" "v" "os" "img" "arch" "k"
    (λ _ w, (w, Err (errorString "not supported"))) (λ _ w, (w, Err (errorString "not supported")))
    (λ _ w, (w, Err (errorString "not supported")))
    (λ c w, (w, Ok c)) (λ c w, (w, Ok c)) (λ c w, (w, Ok c)).
