(* ===== verification/Runtime.v ===== *)
(** * The runtime handler (package extruntime)

    [HandleCmd] feeds input to streams itself and runs every other command in a goroutine of its
    own, so a handler has any number of operations in progress.  [rt_step] runs one atomic action
    of one of them: of its main goroutine, or of one of the two that upload its output.  The
    label says what the engine, the reader of a pipe or the send function answered, and how a
    [select] with several ready cases was decided.  Message numbers come from the atomic counter
    that [NextSeq] shows the compare-and-swap loop to be. *)
From S2P Require Import Prelude Proto Handler Streaming RuntimePb.
From stdpp Require Import pretty.
Open Scope Z_scope.

Set Default Proof Using "Type".

(** ** Operations *)

(** A goroutine that runs uploadDataOutput. *)
Inductive upl_pc : Type :=
| UWait                   (* r.WaitForData, r.Read *)
| UNext (data : bytes)    (* nextSeq(pSeq) *)
| USend (m : Msg)         (* h.SendMsg *)
| UDone.

(** The main goroutine of an operation. *)
Inductive op_pc : Type :=
| OStart
| ORun                                   (* run: Exec or Attach (through Add), Logs *)
| OCollect (errMsg : option ErrorMsg)    (* collectStreamErrors *)
| OCloseOut (err : option ErrorMsg)      (* deferred: closeStream() *)
| OWait (err : option ErrorMsg)          (* deferred: wg.Wait() *)
| OLast (err : option ErrorMsg)          (* nextSeq(&seq) *)
| OSendLast (m : Msg)
| ODel
| OPfAdd                                 (* handlePortForward: streams.Add *)
| OPfUpload                              (* uploadDataOutput, in this goroutine *)
| OPfDrain (err : option error)          (* drain errCh *)
| OPfLast (err : option error) (ret : option error)   (* deferred: pw.Close(), nextSeq(&seq) *)
| OPfSendLast (m : Msg) (ret : option error)
| OPfDel (ret : option error)
| OReply (r : result (option Packet))    (* what [do] returned *)
| ODone.

(** Where a message of a stream comes from: its outputs, or the message that ends it. *)
Inductive source : Type := SOut | SErr | SLast.

#[export] Instance source_eq_dec : EqDecision source.
Proof. solve_decision. Defined.

(** The two outputs of a stream operation. *)
Definition upl_source (stdout : bool) : source := if stdout then SOut else SErr.

Section runtime.
Context `{pb : !ArhatPb, wke : !WellKnownErrors, apb : !AranyaPb}.
Context {W : Type} `{engine : !RuntimeEngine W} {Q : Type} `{sq : !SeqQueue Q}.
Context (maxPayloadSize : Z).

(** An operation.  [op_read_out] and [op_read_err] record what Read returned of its outputs without an
    error, or with [ErrDeadlineExceeded], and [op_dropped] what it returned together with another
    error; [op_numbered] the messages in the order they were numbered, [op_sent] those the send
    function accepted and [op_lost] those it refused; [op_replied] are the messages for the result of
    the command's function. *)
Record op : Type := MkOp {
  op_func : rt_func (W := W);
  op_sid : Z;
  op_seq : Z;                    (* the command's *)
  op_payload : bytes;
  op_at : op_pc;
  op_done : bool;                (* ctx.Done() *)
  op_counter : Z;                (* seq *)
  op_out : option upl_pc;
  op_err : option upl_pc;
  op_stream : option nat;        (* the stream it added *)
  op_read_out : list bytes;
  op_read_err : list bytes;
  op_numbered : list (source * Msg);
  op_sent : list (source * Msg);
  op_lost : list (source * Msg);
  op_dropped : list (source * bytes);
  op_replied : list Msg;
}.

Record rt_state : Type := MkRt {
  r_streams : StreamManager (Q := Q);
  r_world : W;
  r_ops : gmap nat op;
}.

Definition new_op (f : rt_func) (sid seq : Z) (payload : bytes) : op :=
  MkOp f sid seq payload OStart false 0 None None None [] [] [] [] [] [] [].

Definition set_at (pc : op_pc) (o : op) : op :=
  MkOp (op_func o) (op_sid o) (op_seq o) (op_payload o) pc (op_done o) (op_counter o) (op_out o)
    (op_err o) (op_stream o) (op_read_out o) (op_read_err o) (op_numbered o) (op_sent o) (op_lost o) (op_dropped o) (op_replied o).
Definition set_op_done (o : op) : op :=
  MkOp (op_func o) (op_sid o) (op_seq o) (op_payload o) (op_at o) true (op_counter o) (op_out o)
    (op_err o) (op_stream o) (op_read_out o) (op_read_err o) (op_numbered o) (op_sent o) (op_lost o) (op_dropped o) (op_replied o).
Definition set_stream (p : nat) (o : op) : op :=
  MkOp (op_func o) (op_sid o) (op_seq o) (op_payload o) (op_at o) (op_done o) (op_counter o) (op_out o)
    (op_err o) (Some p) (op_read_out o) (op_read_err o) (op_numbered o) (op_sent o) (op_lost o) (op_dropped o) (op_replied o).
Definition set_upl (stdout : bool) (u : upl_pc) (o : op) : op :=
  MkOp (op_func o) (op_sid o) (op_seq o) (op_payload o) (op_at o) (op_done o) (op_counter o)
    (if stdout then Some u else op_out o) (if stdout then op_err o else Some u)
    (op_stream o) (op_read_out o) (op_read_err o) (op_numbered o) (op_sent o) (op_lost o) (op_dropped o) (op_replied o).
Definition add_read (stdout : bool) (d : bytes) (o : op) : op :=
  MkOp (op_func o) (op_sid o) (op_seq o) (op_payload o) (op_at o) (op_done o) (op_counter o) (op_out o)
    (op_err o) (op_stream o) (if stdout then op_read_out o ++ [d] else op_read_out o)
    (if stdout then op_read_err o else op_read_err o ++ [d]) (op_numbered o) (op_sent o) (op_lost o) (op_dropped o) (op_replied o).

Definition add_dropped (stdout : bool) (d : bytes) (o : op) : op :=
  MkOp (op_func o) (op_sid o) (op_seq o) (op_payload o) (op_at o) (op_done o) (op_counter o) (op_out o)
    (op_err o) (op_stream o) (op_read_out o) (op_read_err o) (op_numbered o) (op_sent o) (op_lost o)
    (op_dropped o ++ [(upl_source stdout, d)]) (op_replied o).

(** nextSeq, and the message that carries the number. *)
Definition number (src : source) (m : Msg) (o : op) : op :=
  MkOp (op_func o) (op_sid o) (op_seq o) (op_payload o) (op_at o) (op_done o)
    (uint64 (op_counter o + 1)) (op_out o) (op_err o) (op_stream o) (op_read_out o) (op_read_err o)
    (op_numbered o ++ [(src, m)]) (op_sent o) (op_lost o) (op_dropped o) (op_replied o).

(** h.SendMsg(m), which returned [err]. *)
Definition sent (src : source) (m : Msg) (err : option error) (o : op) : op :=
  MkOp (op_func o) (op_sid o) (op_seq o) (op_payload o) (op_at o) (op_done o) (op_counter o) (op_out o)
    (op_err o) (op_stream o) (op_read_out o) (op_read_err o) (op_numbered o)
    (match err with None => op_sent o ++ [(src, m)] | Some _ => op_sent o end)
    (match err with None => op_lost o | Some _ => op_lost o ++ [(src, m)] end) (op_dropped o) (op_replied o).

(** h.SendMsg(m) for the result of [do]; an error is only logged. *)
Definition replied_with (m : Msg) (o : op) : op :=
  MkOp (op_func o) (op_sid o) (op_seq o) (op_payload o) (op_at o) (op_done o) (op_counter o) (op_out o)
    (op_err o) (op_stream o) (op_read_out o) (op_read_err o) (op_numbered o) (op_sent o) (op_lost o)
    (op_dropped o) (op_replied o ++ [m]).

(** ** Uploading output *)

(** The error of r.Read, as uploadDataOutput tells it apart. *)
Inductive read_err : Type := ReadNil | ReadDeadlineExceeded | ReadFailed (e : error).

Inductive upl_act : Type :=
| AEnd                                 (* r.WaitForData returned false *)
| ARead (data : bytes) (shouldCopy : bool) (buf : bytes) (err : read_err)   (* Read returned; [buf] after it *)
| ANext
| ASend (err : option error).

Definition upl (stdout : bool) (o : op) : option upl_pc := if stdout then op_out o else op_err o.

Definition upl_kind (stdout : bool) : Z :=
  if stdout then MSG_DATA_OUTPUT else MSG_RUNTIME_DATA_STDERR.

(** iohelper's TimeoutReader fills at most the buffer it is given, and asks for a copy when the
    data is in that buffer. *)
Definition read_ok (data : bytes) (shouldCopy : bool) (buf : bytes) : bool :=
  (len data <=? maxPayloadSize) &&
  (if shouldCopy then bool_decide (takeZ (len data) buf = data) else true).

Definition upl_step (stdout : bool) (a : upl_act) (o : op) : option op :=
  match upl stdout o, a with
  | Some UWait, AEnd => Some (set_upl stdout UDone o)
  | Some UWait, ARead data shouldCopy buf err =>
      if read_ok data shouldCopy buf then
        match err with
        | ReadFailed _ => Some (set_upl stdout UDone (add_dropped stdout data o))
        | ReadNil | ReadDeadlineExceeded =>
            let payload := if shouldCopy then takeZ (len data) buf else data in
            Some (set_upl stdout (UNext payload) (add_read stdout data o))
        end
      else None
  | Some (UNext payload), ANext =>
      let m := MkMsg (upl_kind stdout) (op_sid o) (op_counter o) payload in
      Some (set_upl stdout (USend m) (number (upl_source stdout) m o))
  | Some (USend m), ASend err =>
      Some (set_upl stdout (match err with None => UWait | Some _ => UDone end)
             (sent (upl_source stdout) m err o))
  | _, _ => None
  end.

Definition upl_finished (u : option upl_pc) : bool :=
  match u with None | Some UDone => true | _ => false end.

(** ** Stream operations *)

(** What the engine and the scheduler decide. *)
Inductive choice : Type :=
| CGo
| CDone                              (* the select takes ctx.Done() *)
| CEngine (r : result bool)          (* Exec, Attach, PortForward, Logs returned *)
| CErr (e : option ErrorMsg)         (* a value from errCh *)
| CPfErr (e : option error)          (* a value from port-forward's errCh *)
| CClosed                            (* errCh is closed *)
| CSend (err : option error).        (* SendMsg returned *)

(** createTerminalStream: pipes and goroutines for the outputs that are used. *)
Definition createTerminalStream (useStdout useStderr : bool) (o : op) : op :=
  let o1 := if useStdout then set_upl true UWait o else o in
  if useStderr then set_upl false UWait o1 else o1.

Definition handleTtyResize (o : op) (m : StreamManager (Q := Q)) : StreamManager (Q := Q) * op_pc :=
  match TerminalResizeCmd_Unmarshal (op_payload o) with
  | Err e => (m, OReply (Err e))
  | Ok opts => (Resize (op_sid o) (rs_Cols opts) (rs_Rows opts) m, OReply (Ok None))
  end.

(** The beginning of [do], up to the first call of the engine. *)
Definition op_start (o : op) (m : StreamManager (Q := Q)) (w : W)   : op * StreamManager (Q := Q) * W :=
  match op_func o with
  | FSimple do => let '(w', r) := do (op_payload o) w in (set_at (OReply r) o, m, w')
  | FExec | FAttach =>
      match ExecOrAttachCmd_Unmarshal (op_payload o) with
      | Err e => (set_at (OReply (Err e)) o, m, w)
      | Ok opts => (set_at ORun (createTerminalStream (ex_Stdout opts) (ex_Stderr opts) o), m, w)
      end
  | FLogs =>
      match LogsCmd_Unmarshal (op_payload o) with
      | Err e => (set_at (OReply (Err e)) o, m, w)
      | Ok opts => (set_at ORun (createTerminalStream true true o), m, w)
      end
  | FTtyResize => let '(m', pc) := handleTtyResize o m in (set_at pc o, m', w)
  | FPortForward =>
      match PortForwardCmd_Unmarshal (op_payload o) with
      | Err e => (set_at (OReply (Err e)) o, m, w)
      | Ok opts => (set_at OPfAdd o, m, w)
      end
  end.

(** h.streams.Add(sid, create): whether it was added, and as which stream. *)
Definition add_stream (o : op) (create : result bool) (m : StreamManager (Q := Q))
  : op * StreamManager * option error :=
  match Streaming.Add (op_sid o) create m with
  | (m', None) => (set_stream (length (heap m)) o, m', None)
  | (m', Some e) => (o, m', Some e)
  end.

(** Whether an exec or attach command has input. *)
Definition use_stdin (payload : bytes) : bool :=
  match ExecOrAttachCmd_Unmarshal payload with Ok opts => ex_Stdin opts | Err _ => false end.

(** The closures handleExec, handleAttach and handleLogs pass as [run], up to collecting errors. *)
Definition op_run (r : result bool) (o : op) (m : StreamManager (Q := Q)) : op * StreamManager :=
  match op_func o with
  | FLogs =>
      (set_at (OCloseOut (match r with Err e => Some (common_error (Error e)) | Ok _ => None end)) o, m)
  | _ =>
      if use_stdin (op_payload o) then
        match add_stream o r m with
        | (o', m', None) => (set_at (OCollect None) o', m')
        | (o', m', Some e) => (set_at (OCloseOut (Some (common_error (Error e)))) o', m')
        end
      else
        match r with
        | Ok _ => (set_at (OCollect None) o, m)
        | Err e => (set_at (OCloseOut (Some (common_error (Error e)))) o, m)
        end
  end.

(** The last message of a stream operation. *)
Definition last_msg (sid ack : Z) (err : option ErrorMsg) : Msg :=
  match err with
  | None => MkMsg MSG_DATA_OUTPUT sid ack []
  | Some e => MkMsg MSG_ERROR sid ack (error_data e)
  end.

(** [fmt.Errorf("%v; %w", err, e)] once there is an error already. *)
Definition add_error (err : option error) (e : option error) : option error :=
  match e with
  | None => err
  | Some e =>
      match err with
      | None => Some e
      | Some e0 => Some (errorString (Error e0 +:+ "; " +:+ Error e))
      end
  end.

(** The callback handlePortForward passes to Add: [Ok false] says that the engine left out a
    return value the handler needs. *)
Definition pf_create (r : result bool) : result bool :=
  match r with
  | Err e => Err e
  | Ok true => Ok false   (* no resize function *)
  | Ok false => Err (errorString "bad port-forward implementation, missing required return values")
  end.

(** handlePortForward, after its command is decoded. *)
Definition pf_step (o : op) (c : choice) (m : StreamManager (Q := Q)) (w : W)
  : option (op * StreamManager (Q := Q) * W) :=
  match op_at o, c with
  | OPfAdd, CEngine r =>
      match add_stream o (pf_create r) m with
      | (o', m', None) => Some (set_at OPfUpload (set_upl true UWait o'), m', w)
      | (o', m', Some e) => Some (set_at (OPfLast (Some e) (Some e)) o', m', w)
      end
  | OPfUpload, CGo =>
      if upl_finished (op_out o) then Some (set_at (OPfDrain None) o, m, w) else None
  | OPfDrain err, CPfErr e => Some (set_at (OPfDrain (add_error err e)) o, m, w)
  | OPfDrain err, CClosed => Some (set_at (OPfLast err None) o, m, w)
  | OPfDrain err, CDone =>
      if op_done o then Some (set_at (OPfLast err None) o, m, w) else None
  | OPfLast err ret, CGo =>
      let msg := last_msg (op_sid o) (op_counter o)
                   (match err with Some e => Some (common_error (Error e)) | None => None end) in
      Some (set_at (OPfSendLast msg ret) (number SLast msg o), m, w)
  | OPfSendLast msg ret, CSend err => Some (set_at (OPfDel ret) (sent SLast msg err o), m, w)
  | OPfDel ret, CGo =>
      Some (set_at (OReply (match ret with Some e => Err e | None => Ok None end)) o,
            Del (op_sid o) m, w)
  | _, _ => None
  end.

(** The goroutine of a command: its function (handleStreamOperation for exec, attach and logs)
    and the reply for what it returns. *)
Definition op_step (o : op) (c : choice) (m : StreamManager (Q := Q)) (w : W)
  : option (op * StreamManager (Q := Q) * W) :=
  match op_at o, c with
  | OStart, CGo => Some (op_start o m w)
  | ORun, CEngine r => let '(o', m') := op_run r o m in Some (o', m', w)
  | OCollect acc, CErr e => Some (set_at (OCollect (collect_one acc e)) o, m, w)
  | OCollect acc, CClosed => Some (set_at (OCloseOut acc) o, m, w)
  | OCollect acc, CDone =>
      if op_done o
      then Some (set_at (OCloseOut (Some (MkErrorMsg ERR_COMMON (Error Canceled) DefaultExitCodeOnError))) o, m, w)
      else None
  | OCloseOut err, CGo => Some (set_at (OWait err) o, m, w)
  | OWait err, CGo =>
      if upl_finished (op_out o) && upl_finished (op_err o)
      then Some (set_at (OLast err) o, m, w) else None
  | OLast err, CGo =>
      let msg := last_msg (op_sid o) (op_counter o) err in
      Some (set_at (OSendLast msg) (number SLast msg o), m, w)
  | OSendLast msg, CSend err => Some (set_at ODel (sent SLast msg err o), m, w)
  | ODel, CGo => Some (set_at (OReply (Ok None)) o, Del (op_sid o) m, w)
  | OReply r, CSend err =>
      match reply (op_sid o) (op_seq o) r with
      | Some msg => Some (set_at ODone (replied_with msg o), m, w)
      | None => None
      end
  | OReply r, CGo =>
      match reply (op_sid o) (op_seq o) r with
      | None => Some (set_at ODone o, m, w)
      | Some _ => None
      end
  | _, _ => pf_step o c m w
  end.

(** ** HandleCmd *)

(** The operation to start, if any, comes with the three results.  The handler never replies
    with a body. *)
Definition rt_HandleCmd (sid seq kind : Z) (payload : bytes) (m : StreamManager (Q := Q))
  : StreamManager * cmd_result Empty_set * option op :=
  if kind =? CMD_DATA_INPUT then ((Write sid seq payload m).1, MkCmdResult 0 None None, None)
  else if kind =? CMD_DATA_CLOSE then ((Write sid seq [] m).1, MkCmdResult 0 None None, None)
  else if kind =? CMD_RUNTIME_ARANYA_PROTO then
    match Packet_Unmarshal payload with
    | Err e => (m, failed e, None)
    | Ok pkt =>
        match rt_funcMap !! pkt_Kind pkt with
        | None => (m, failed (errorString ("unknown runtime cmd type " +:+ pretty kind)), None)
        | Some f => (m, MkCmdResult 0 None None, Some (new_op f sid seq (pkt_Payload pkt)))
        end
    end
  else (m, failed (errorString ("unknown cmd type " +:+ pretty kind)), None).

Inductive rt_event : Type :=
| VCmd (g : nat) (sid seq kind : Z) (payload : bytes)   (* HandleCmd; [g] names its goroutine *)
| VStep (g : nat) (c : choice)                          (* the main goroutine of [g] *)
| VUpload (g : nat) (stdout : bool) (a : upl_act)       (* an uploader of [g] *)
| VCancel (g : nat).                                    (* the context of [g] is cancelled *)

Definition rt_step (s : rt_state) (e : rt_event) : option rt_state :=
  match e with
  | VCmd g sid seq kind payload =>
      match r_ops s !! g, rt_HandleCmd sid seq kind payload (r_streams s) with
      | Some _, _ => None
      | None, (m, _, None) => Some (MkRt m (r_world s) (r_ops s))
      | None, (m, _, Some o) => Some (MkRt m (r_world s) (<[g := o]> (r_ops s)))
      end
  | VStep g c =>
      match r_ops s !! g with
      | None => None
      | Some o =>
          match op_step o c (r_streams s) (r_world s) with
          | Some (o', m', w') => Some (MkRt m' w' (<[g := o']> (r_ops s)))
          | None => None
          end
      end
  | VUpload g stdout a =>
      match r_ops s !! g with
      | None => None
      | Some o =>
          match upl_step stdout a o with
          | Some o' => Some (MkRt (r_streams s) (r_world s) (<[g := o']> (r_ops s)))
          | None => None
          end
      end
  | VCancel g =>
      match r_ops s !! g with
      | None => None
      | Some o => Some (MkRt (r_streams s) (r_world s) (<[g := set_op_done o]> (r_ops s)))
      end
  end.

Definition rt_init (w : W) : rt_state := MkRt NewStreamManager w ∅.

(** ** Output *)

Definition no_last (l : list (source * Msg)) : Prop := Forall (λ x, x.1 ≠ SLast) l.

(** The payloads of the messages that carry one of the outputs. *)
Definition payloads (stdout : bool) (l : list (source * Msg)) : list bytes :=
  (λ x, msg_Payload x.2) <$> filter (λ x, x.1 = upl_source stdout) l.

Definition read_from (stdout : bool) (o : op) : list bytes :=
  if stdout then op_read_out o else op_read_err o.

(** What Read returned with an error. *)
Definition dropped_from (stdout : bool) (o : op) : list bytes :=
  (filter (λ x, x.1 = upl_source stdout) (op_dropped o)).*2.

(** Read, but not numbered yet. *)
Definition upl_pending (u : option upl_pc) : list bytes :=
  match u with Some (UNext d) => [d] | _ => [] end.

(** Numbered, but not sent yet. *)
Definition upl_sending (src : source) (u : option upl_pc) : list (source * Msg) :=
  match u with Some (USend m) => [(src, m)] | _ => [] end.

Definition pc_sending (pc : op_pc) : list (source * Msg) :=
  match pc with OSendLast m | OPfSendLast m _ => [(SLast, m)] | _ => [] end.

Definition ended (o : op) : Prop := upl_finished (op_out o) = true ∧ upl_finished (op_err o) = true.

(** What the logs of an operation look like, by the place of its main goroutine. *)
Definition stage_ok (o : op) : Prop :=
  match op_at o with
  | OStart | OPfAdd =>
      op_out o = None ∧ op_err o = None ∧ op_numbered o = [] ∧ op_sent o = [] ∧ op_lost o = []
  | ORun | OCollect _ | OCloseOut _ | OWait _ =>
      no_last (op_numbered o) ∧ no_last (op_sent o) ∧ no_last (op_lost o)
  | OPfUpload =>
      op_err o = None ∧ no_last (op_numbered o) ∧ no_last (op_sent o) ∧ no_last (op_lost o)
  | OLast _ | OPfDrain _ | OPfLast _ _ =>
      ended o ∧ no_last (op_numbered o) ∧ no_last (op_sent o) ∧ no_last (op_lost o)
  | OSendLast m | OPfSendLast m _ =>
      ended o ∧ no_last (op_sent o) ∧ no_last (op_lost o) ∧
      ∃ data, op_numbered o = data ++ [(SLast, m)] ∧ no_last data
  | ODel | OPfDel _ | OReply _ | ODone =>
      ended o ∧
      ((op_numbered o = [] ∧ op_sent o = [] ∧ op_lost o = []) ∨
       ∃ data m, op_numbered o = data ++ [(SLast, m)] ∧ no_last data ∧
         ((∃ data', op_sent o = data' ++ [(SLast, m)] ∧ no_last data' ∧ no_last (op_lost o)) ∨
          (no_last (op_sent o) ∧ ∃ data', op_lost o = data' ++ [(SLast, m)] ∧ no_last data')))
  end.

(** Messages are numbered consecutively, carry what was read in the order it was read, and are
    each sent once. *)
Record op_ok (o : op) : Prop := {
  ok_counter : op_counter o = uint64 (len (op_numbered o));
  ok_numbers i src m :
    op_numbered o !! i = Some (src, m) → msg_Ack m = uint64 (Z.of_nat i) ∧ msg_Id m = op_sid o;
  ok_read stdout :
    payloads stdout (op_numbered o) ++ upl_pending (upl stdout o) = read_from stdout o;
  ok_flow : op_numbered o ≡ₚ
    op_sent o ++ op_lost o ++ upl_sending SOut (op_out o) ++ upl_sending SErr (op_err o) ++
    pc_sending (op_at o);
  ok_size src m : (src, m) ∈ op_numbered o → src ≠ SLast → len (msg_Payload m) ≤ maxPayloadSize;
  ok_pending stdout d : d ∈ upl_pending (upl stdout o) → len d ≤ maxPayloadSize;
  ok_stage : stage_ok o;
}.

Lemma uint64_succ x : uint64 (uint64 x + 1) = uint64 (x + 1).
Proof. unfold uint64. by rewrite Z.add_mod_idemp_l by lia. Qed.

Lemma payloads_snoc stdout l src m :
  payloads stdout (l ++ [(src, m)]) =
    payloads stdout l ++ if bool_decide (src = upl_source stdout) then [msg_Payload m] else [].
Proof.
  unfold payloads. rewrite filter_app, fmap_app. f_equal. rewrite filter_cons, filter_nil.
  simpl. case_decide; case_bool_decide; done.
Qed.

(** The number a message gets is its position. *)
Lemma numbers_snoc o src m :
  op_ok o → msg_Ack m = op_counter o → msg_Id m = op_sid o →
  ∀ i src' m', (op_numbered o ++ [(src, m)]) !! i = Some (src', m') →
    msg_Ack m' = uint64 (Z.of_nat i) ∧ msg_Id m' = op_sid o.
Proof.
  intros Hok Ha Hi i src' m' [?|[Hl Hx]]%lookup_app_Some; [by eapply ok_numbers|].
  apply list_lookup_singleton_Some in Hx as [Hz [= <- <-]]. rewrite Ha, (ok_counter _ Hok).
  split; [|done]. unfold len. do 2 f_equal. lia.
Qed.

Lemma counter_snoc o src m :
  op_ok o → uint64 (op_counter o + 1) = uint64 (len (op_numbered o ++ [(src, m)])).
Proof. intros Hok. rewrite (ok_counter _ Hok), uint64_succ, len_app, len_cons, len_nil. f_equal. Qed.

(** An uploader moves only before the last message. *)
Lemma stage_upl stdout u o :
  stage_ok o → upl stdout o = Some u → u ≠ UDone →
  no_last (op_numbered o) ∧ no_last (op_sent o) ∧ no_last (op_lost o) ∧
  pc_sending (op_at o) = [] ∧
  match op_at o with
  | ORun | OCollect _ | OCloseOut _ | OWait _ => True
  | OPfUpload => stdout = true ∧ op_err o = None
  | _ => False
  end.
Proof.
  unfold stage_ok, ended, upl. intros Hst Hu Hne.
  assert (upl_finished (Some u) = false) as Hf by (by destruct u).
  destruct (op_at o), stdout; rewrite ?Hu in Hst; destruct_and?; try congruence; split_and!; done.
Qed.

Lemma op_ok_new f sid seq payload : op_ok (new_op f sid seq payload).
Proof. split; try done; intros []; try done; by intros ? ?%elem_of_nil. Qed.

Lemma read_ok_size data shouldCopy buf : read_ok data shouldCopy buf = true → len data ≤ maxPayloadSize.
Proof. unfold read_ok. destruct (Z.leb_spec (len data) maxPayloadSize); [lia|done]. Qed.

Lemma read_ok_payload data shouldCopy buf :
  read_ok data shouldCopy buf = true → (if shouldCopy then takeZ (len data) buf else data) = data.
Proof. unfold read_ok. intros [_ H]%andb_prop. destruct shouldCopy; [by apply bool_decide_eq_true in H|done]. Qed.

(** An uploader leaves the stage as it is. *)
Lemma stage_upl_keep stdout u o o' :
  stage_ok o → upl stdout o = Some u → u ≠ UDone →
  op_at o' = op_at o → upl (negb stdout) o' = upl (negb stdout) o →
  no_last (op_numbered o') → no_last (op_sent o') → no_last (op_lost o') → stage_ok o'.
Proof.
  intros Hst Hu Hne Hat Hother H1 H2 H3.
  destruct (stage_upl _ _ _ Hst Hu Hne) as (_ & _ & _ & _ & Hpc).
  unfold stage_ok. rewrite Hat. destruct (op_at o); try done. destruct Hpc as [-> Hnone].
  simpl in Hother. by rewrite Hother.
Qed.

(** What is known of an operation one of whose uploaders can move. *)
Ltac upl_facts stdout o Hok Hu :=
  destruct (stage_upl stdout _ o (ok_stage _ Hok) Hu ltac:(done)) as (Hn1 & Hn2 & Hn3 & Hpc & _);
  pose proof (ok_read _ Hok stdout) as Hr; rewrite Hu in Hr;
  pose proof (ok_read _ Hok (negb stdout)) as Hr';
  pose proof (ok_flow _ Hok) as Hfl; rewrite Hpc in Hfl;
  pose proof (ok_pending _ Hok stdout) as Hpd; rewrite Hu in Hpd;
  pose proof (ok_pending _ Hok (negb stdout)) as Hpd';
  pose proof (ok_stage _ Hok) as Hstage.

Lemma upl_end_ok stdout o :
  op_ok o → upl stdout o = Some UWait → op_ok (set_upl stdout UDone o).
Proof.
  intros Hok Hu. upl_facts stdout o Hok Hu. split; simpl; try apply Hok.
  - by destruct stdout; intros [].
  - rewrite Hpc. destruct stdout; simpl in *; by rewrite Hu in Hfl.
  - by destruct stdout; intros [].
  - apply (stage_upl_keep stdout UWait o); by destruct stdout.
Qed.

Lemma add_dropped_ok stdout d o : op_ok o → op_ok (add_dropped stdout d o).
Proof. intros [? ? ? ? ? ? ?]. by split. Qed.

Lemma upl_read_ok stdout data o :
  op_ok o → upl stdout o = Some UWait → len data ≤ maxPayloadSize →
  op_ok (set_upl stdout (UNext data) (add_read stdout data o)).
Proof.
  intros Hok Hu Hread. upl_facts stdout o Hok Hu. split; simpl; try apply Hok.
  - destruct stdout; intros []; simpl in *; rewrite ?app_nil_r in Hr; congruence.
  - rewrite Hpc. destruct stdout; simpl in *; by rewrite Hu in Hfl.
  - destruct stdout; intros [] d; simpl in *; set_solver.
  - apply (stage_upl_keep stdout UWait o); by destruct stdout.
Qed.

Lemma upl_number_ok stdout d o :
  op_ok o → upl stdout o = Some (UNext d) →
  let m := MkMsg (upl_kind stdout) (op_sid o) (op_counter o) d in
  op_ok (set_upl stdout (USend m) (number (upl_source stdout) m o)).
Proof.
  intros Hok Hu m. upl_facts stdout o Hok Hu. split; simpl.
  - by apply counter_snoc.
  - by apply numbers_snoc.
  - destruct stdout; intros []; simpl in *; rewrite payloads_snoc; simpl; rewrite ?app_nil_r; done.
  - rewrite Hpc, Hfl. destruct stdout; simpl in *; rewrite Hu; simpl; solve_Permutation.
  - intros src m' [Hin|Hin]%elem_of_app; [by apply (ok_size _ Hok)|].
    apply list_elem_of_singleton in Hin as [= -> ->]. intros _. apply Hpd. set_solver.
  - destruct stdout; intros [] d'; simpl in *; set_solver.
  - apply (stage_upl_keep stdout (UNext d) o); try by destruct stdout.
    apply Forall_app. split; [done|]. constructor; [|done]. by destruct stdout.
Qed.

Lemma upl_sent_ok stdout m err o :
  op_ok o → upl stdout o = Some (USend m) →
  op_ok (set_upl stdout (match err with None => UWait | Some _ => UDone end)
           (sent (upl_source stdout) m err o)).
Proof.
  intros Hok Hu. upl_facts stdout o Hok Hu. split; simpl; try apply Hok.
  - destruct stdout, err; intros []; simpl in *; done.
  - rewrite Hpc, Hfl. destruct stdout, err; simpl in *; rewrite Hu; simpl; solve_Permutation.
  - destruct stdout, err; intros [] d'; simpl in *; set_solver.
  - assert (no_last [(upl_source stdout, m)]) by (constructor; [by destruct stdout|done]).
    apply (stage_upl_keep stdout (USend m) o); try (by destruct stdout);
      destruct err; simpl; try done; by apply Forall_app.
Qed.

Lemma upl_step_ok stdout a o o' : op_ok o → upl_step stdout a o = Some o' → op_ok o'.
Proof.
  intros Hok Hstep. unfold upl_step in Hstep. destruct (upl stdout o) as [u|] eqn:Hu; [|done].
  destruct u as [|d|m|], a as [|data cp buf re| |err]; simplify_eq.
  - by apply upl_end_ok.
  - destruct (read_ok data cp buf) eqn:Hread; [|done]. rewrite (read_ok_payload _ _ _ Hread) in Hstep.
    destruct re; simplify_eq; [by apply upl_read_ok, (read_ok_size _ _ _ Hread)..|].
    apply upl_end_ok; [by apply add_dropped_ok|done].
  - by apply upl_number_ok.
  - by apply upl_sent_ok.
Qed.

(** The main goroutine moves on without a message. *)
Lemma set_at_ok pc o :
  op_ok o → pc_sending (op_at o) = [] → pc_sending pc = [] → stage_ok (set_at pc o) → op_ok (set_at pc o).
Proof.
  intros [Hc Hn Hr Hf Hs Hp _] H1 H2 Hst. split; try done. simpl. by rewrite H2, <-H1.
Qed.

Lemma set_stream_ok p o : op_ok o → op_ok (set_stream p o).
Proof. intros [? ? ? ? ? ? ?]. split; try done. Qed.

(** The uploaders start. *)
Lemma start_upl_ok stdout o :
  op_ok o → upl stdout o = None → stage_ok (set_upl stdout UWait o) → op_ok (set_upl stdout UWait o).
Proof.
  intros [Hc Hn Hr Hf Hs Hp _] Hu Hst.
  pose proof (Hr stdout) as Hr1. pose proof (Hr (negb stdout)) as Hr2.
  pose proof (Hp (negb stdout)) as Hp2. rewrite Hu in Hr1.
  split; try done; simpl.
  - by destruct stdout; intros [].
  - destruct stdout; simpl in *; by rewrite Hu in Hf.
  - destruct stdout; intros [] d; simpl in *; try done; set_solver.
Qed.

(** The last message is numbered. *)
Lemma last_ok pc msg o :
  op_ok o → pc_sending (op_at o) = [] → pc_sending pc = [(SLast, msg)] →
  msg_Ack msg = op_counter o → msg_Id msg = op_sid o →
  stage_ok (set_at pc (number SLast msg o)) → op_ok (set_at pc (number SLast msg o)).
Proof.
  intros Hok H1 H2 Ha Hi Hst. split; simpl.
  - by apply counter_snoc.
  - by apply numbers_snoc.
  - intros []; rewrite payloads_snoc; simpl; rewrite app_nil_r; apply (ok_read _ Hok).
  - rewrite H2, (ok_flow _ Hok), H1. solve_Permutation.
  - intros src m [Hin|Hin]%elem_of_app; [by apply (ok_size _ Hok)|].
    by apply list_elem_of_singleton in Hin as [= -> ->].
  - apply (ok_pending _ Hok).
  - done.
Qed.

(** The last message is sent. *)
Lemma send_last_ok pc msg err o :
  op_ok o → pc_sending (op_at o) = [(SLast, msg)] → pc_sending pc = [] →
  stage_ok (set_at pc (sent SLast msg err o)) → op_ok (set_at pc (sent SLast msg err o)).
Proof.
  intros [Hc Hn Hr Hf Hs Hp _] H1 H2 Hst. split; try done. simpl. rewrite H2, Hf, H1.
  destruct err; solve_Permutation.
Qed.

(** Steps that only move the main goroutine, by the stages they connect. *)
Ltac move_on Hok Hst Hat :=
  apply set_at_ok; [exact Hok | by rewrite Hat | done |];
  unfold stage_ok, ended in *; rewrite Hat in Hst; simpl in *; naive_solver.

Lemma start_ok o m w : op_ok o → op_at o = OStart → op_ok (op_start o m w).1.1.
Proof.
  intros Hok Hat. pose proof (ok_stage _ Hok) as Hst. unfold stage_ok in Hst. rewrite Hat in Hst.
  destruct Hst as (Ho & He & Hn & Hs & Hl).
  assert (∀ pc, pc = OPfAdd ∨ (∃ r, pc = OReply r) → op_ok (set_at pc o)) as Hmove.
  { intros pc Hpc. apply set_at_ok; [done|by rewrite Hat|destruct Hpc as [-> | [? ->]]; done|].
    unfold stage_ok, ended. simpl. rewrite Ho, He. destruct Hpc as [-> | [? ->]]; eauto 10. }
  assert (∀ b1 b2, op_ok (set_at ORun (createTerminalStream b1 b2 o))) as Hrun.
  { intros b1 b2.
    assert (no_last (op_numbered o) ∧ no_last (op_sent o) ∧ no_last (op_lost o)) as Hnl
      by (rewrite Hn, Hs, Hl; repeat constructor).
    assert (op_ok (set_at ORun o)) as H1 by (apply set_at_ok; [done|by rewrite Hat|done|done]).
    assert (set_at ORun (createTerminalStream b1 b2 o) = createTerminalStream b1 b2 (set_at ORun o)) as ->
      by (by destruct b1, b2).
    unfold createTerminalStream. destruct b1, b2; repeat (apply start_upl_ok; [|done|done]); done. }
  unfold op_start, handleTtyResize. repeat case_match; simplify_eq/=;
    first [apply Hrun | apply (Hrun true true) | apply Hmove; eauto].
Qed.

Lemma op_run_ok r o m : op_ok o → op_at o = ORun → op_ok (op_run r o m).1.
Proof.
  intros Hok Hat. pose proof (ok_stage _ Hok) as Hst. unfold stage_ok in Hst. rewrite Hat in Hst.
  assert (∀ pc o0, o0 = o ∨ (∃ p, o0 = set_stream p o) → (∃ e, pc = OCloseOut e ∨ pc = OCollect e) →
    op_ok (set_at pc o0)) as Hmove.
  { intros pc o0 Ho0 [e Hpc].
    assert (op_ok o0 ∧ op_at o0 = ORun ∧ op_numbered o0 = op_numbered o ∧ op_sent o0 = op_sent o ∧
      op_lost o0 = op_lost o) as (H1 & H2 & H3 & H4 & H5)
      by (destruct Ho0 as [-> | [p ->]]; auto using set_stream_ok).
    apply set_at_ok; [done|by rewrite H2|by destruct Hpc as [-> | ->]|].
    unfold stage_ok. destruct Hpc as [-> | ->]; simpl; by rewrite H3, H4, H5. }
  unfold op_run, add_stream. repeat case_match; simplify_eq/=; apply Hmove; eauto.
Qed.

Lemma pf_add_ok r o m :
  op_ok o → op_at o = OPfAdd →
  match add_stream o (pf_create r) m with
  | (o', _, None) => op_ok (set_at OPfUpload (set_upl true UWait o'))
  | (o', _, Some e) => op_ok (set_at (OPfLast (Some e) (Some e)) o')
  end.
Proof.
  intros Hok Hat. pose proof (ok_stage _ Hok) as Hst. unfold stage_ok in Hst. rewrite Hat in Hst.
  destruct Hst as (Ho & He & Hn & Hs & Hl). unfold add_stream.
  destruct (Streaming.Add _ _ m) as [m1 [e|]].
  - apply set_at_ok; [done|by rewrite Hat|done|]. unfold stage_ok, ended. simpl.
    rewrite Ho, He, Hn, Hs, Hl. repeat split; constructor.
  - apply (start_upl_ok true (set_at OPfUpload (set_stream (length (heap m)) o))); [|done|].
    + apply set_at_ok; [by apply set_stream_ok|by simpl; rewrite Hat|done|]. unfold stage_ok. simpl.
      rewrite He, Hn, Hs, Hl. repeat split; constructor.
    + unfold stage_ok. simpl. rewrite He, Hn, Hs, Hl. repeat split; constructor.
Qed.

Lemma replied_ok msg o : op_ok (set_at ODone o) → op_ok (set_at ODone (replied_with msg o)).
Proof. intros [? ? ? ? ? ? ?]. split; try done. Qed.

Lemma op_step_ok o c m w o' m' w' :
  op_ok o → op_step o c m w = Some (o', m', w') → op_ok o'.
Proof.
  intros Hok Hstep. pose proof (ok_stage _ Hok) as Hst.
  unfold op_step, pf_step in Hstep. destruct (op_at o) eqn:Hat, c; try done.
  - pose proof (start_ok o m w Hok Hat) as Hs. destruct (op_start o m w) as [[? ?] ?]. by simplify_eq.
  - pose proof (op_run_ok r o m Hok Hat) as Hs. destruct (op_run r o m). by simplify_eq.
  - split_step Hstep. move_on Hok Hst Hat.
  - simplify_eq. move_on Hok Hst Hat.
  - simplify_eq. move_on Hok Hst Hat.
  - simplify_eq. move_on Hok Hst Hat.
  - destruct (upl_finished (op_out o)) eqn:?, (upl_finished (op_err o)) eqn:?; simplify_eq/=.
    move_on Hok Hst Hat.
  - simplify_eq. apply last_ok; [done|by rewrite Hat|done|by destruct err|by destruct err|].
    unfold stage_ok, ended in *. rewrite Hat in Hst. simpl. naive_solver.
  - simplify_eq. apply send_last_ok; [done|by rewrite Hat|done|].
    unfold stage_ok, ended in *. rewrite Hat in Hst. simpl. destruct err; naive_solver.
  - simplify_eq. move_on Hok Hst Hat.
  - pose proof (pf_add_ok r o m Hok Hat) as Hs. destruct (add_stream o (pf_create r) m) as [[o1 m1] [e|]];
      by simplify_eq.
  - destruct (upl_finished (op_out o)) eqn:Hf; simplify_eq/=.
    apply set_at_ok; [done|by rewrite Hat|done|].
    unfold stage_ok, ended in *. rewrite Hat in Hst. simpl. destruct Hst as (-> & ?). done.
  - split_step Hstep. move_on Hok Hst Hat.
  - simplify_eq. move_on Hok Hst Hat.
  - simplify_eq. move_on Hok Hst Hat.
  - simplify_eq. apply last_ok; [done|by rewrite Hat|done|by destruct err|by destruct err|].
    unfold stage_ok, ended in *. rewrite Hat in Hst. simpl. naive_solver.
  - simplify_eq. apply send_last_ok; [done|by rewrite Hat|done|].
    unfold stage_ok, ended in *. rewrite Hat in Hst. simpl. destruct err; naive_solver.
  - simplify_eq. move_on Hok Hst Hat.
  - split_step Hstep. move_on Hok Hst Hat.
  - split_step Hstep. apply replied_ok. move_on Hok Hst Hat.
Qed.

Lemma HandleCmd_new sid seq kind payload m m' r o :
  rt_HandleCmd sid seq kind payload m = (m', r, Some o) →
  ∃ f p, o = new_op f sid seq p ∧ m' = m.
Proof. unfold rt_HandleCmd. repeat case_match; intros; simplify_eq; eauto. Qed.

Lemma rt_ok_step s e s' :
  (∀ g o, r_ops s !! g = Some o → op_ok o) → rt_step s e = Some s' →
  ∀ g o, r_ops s' !! g = Some o → op_ok o.
Proof.
  intros Hall Hstep. destruct e as [g sid sn kind payload|g c|g stdout a|g]; simpl in Hstep.
  - destruct (rt_HandleCmd sid sn kind payload (r_streams s)) as [[m r] [o|]] eqn:Hh; split_step Hstep;
      [|done]. apply HandleCmd_new in Hh as (f & p & -> & _).
    intros g' o'. rewrite lookup_insert. case_decide; [|apply Hall]. intros [= <-]. apply op_ok_new.
  - destruct (r_ops s !! g) as [o|] eqn:Ho; [|done].
    destruct (op_step o c _ _) as [[[o1 m1] w1]|] eqn:Hs; simplify_eq/=.
    intros g' o'. rewrite lookup_insert. case_decide; [|apply Hall]. intros [= <-].
    eapply op_step_ok; eauto.
  - destruct (r_ops s !! g) as [o|] eqn:Ho; [|done].
    destruct (upl_step stdout a o) as [o1|] eqn:Hs; simplify_eq/=.
    intros g' o'. rewrite lookup_insert. case_decide; [|apply Hall]. intros [= <-].
    eapply upl_step_ok; eauto.
  - destruct (r_ops s !! g) as [o|] eqn:Ho; simplify_eq/=.
    intros g' o'. rewrite lookup_insert. case_decide; [|apply Hall]. intros [= <-].
    destruct (Hall _ _ Ho). split; done.
Qed.

Lemma rt_ok_reachable w s g o :
  reachable rt_step (eq (rt_init w)) s → r_ops s !! g = Some o → op_ok o.
Proof.
  intros Hr. revert g o. revert s Hr.
  intros s. apply (invariant_reachable rt_step _ (λ s, ∀ g o, r_ops s !! g = Some o → op_ok o)).
  split; [|apply rt_ok_step].
  intros ? <- g o Hg. simpl in Hg. by simplify_map_eq.
Qed.

(** Each uploader sends its messages in the order in which it numbered them, and none after one
    that was refused. *)
Definition of_output (stdout : bool) (l : list (source * Msg)) : list (source * Msg) :=
  filter (λ x, x.1 = upl_source stdout) l.

Record order_ok (stdout : bool) (o : op) : Prop := {
  oo_flow : of_output stdout (op_numbered o) =
    of_output stdout (op_sent o) ++ of_output stdout (op_lost o) ++
    upl_sending (upl_source stdout) (upl stdout o);
  oo_lost : upl stdout o ≠ Some UDone → of_output stdout (op_lost o) = [];
  oo_dropped : upl stdout o ≠ Some UDone → dropped_from stdout o = [];
  oo_one : (length (dropped_from stdout o) ≤ 1)%nat;
}.

Lemma dropped_from_add stdout stdout' d o :
  dropped_from stdout (add_dropped stdout' d o) =
    dropped_from stdout o ++ if bool_decide (upl_source stdout' = upl_source stdout) then [d] else [].
Proof.
  unfold dropped_from. simpl. rewrite filter_app, fmap_app, filter_cons, filter_nil. simpl.
  case_decide; case_bool_decide; done.
Qed.

Lemma of_output_snoc stdout l src m :
  of_output stdout (l ++ [(src, m)]) =
    of_output stdout l ++ if bool_decide (src = upl_source stdout) then [(src, m)] else [].
Proof.
  unfold of_output. rewrite filter_app, filter_cons, filter_nil. simpl.
  case_decide; case_bool_decide; done.
Qed.

(** Nothing that is not of this output matters, and it may start. *)
Lemma order_ok_keep stdout o o' :
  order_ok stdout o →
  of_output stdout (op_numbered o') = of_output stdout (op_numbered o) →
  of_output stdout (op_sent o') = of_output stdout (op_sent o) →
  of_output stdout (op_lost o') = of_output stdout (op_lost o) →
  dropped_from stdout o' = dropped_from stdout o →
  upl stdout o' = upl stdout o ∨ upl stdout o = None ∧ upl stdout o' = Some UWait →
  order_ok stdout o'.
Proof.
  intros [Hf Hl Hd Hd1] H1 H2 H3 H4 Hu. split; rewrite ?H1, ?H2, ?H3, ?H4; [..|done].
  - destruct Hu as [-> | [Hu ->]]; [done|]. by rewrite Hu in Hf.
  - intros Hne. apply Hl. destruct Hu as [<- | [-> _]]; done.
  - intros Hne. apply Hd. destruct Hu as [<- | [-> _]]; done.
Qed.

Lemma upl_step_order stdout stdout' a o o' :
  order_ok stdout o → upl_step stdout' a o = Some o' → order_ok stdout o'.
Proof.
  intros Ho Hs. unfold upl_step in Hs. destruct (decide (stdout = stdout')) as [<-|Hne].
  - destruct Ho as [Hf Hl Hd Hd1]. destruct (upl stdout o) as [[|d|m|]|] eqn:Hu, a as [|data cp buf re| |err]; simplify_eq.
    + split; [by destruct stdout|..|done]; intros Hn; by destruct stdout.
    + destruct (read_ok _ _ _); [|done]. destruct re; simplify_eq.
      1,2: split; destruct stdout; simpl; try done; intros _; by auto.
      split; simpl; [by destruct stdout|intros Hn; by destruct stdout..|].
      change (length (dropped_from stdout (add_dropped stdout data o)) ≤ 1)%nat.
      by rewrite dropped_from_add, Hd, bool_decide_true.
    + rewrite Hl in Hf by done. split; simpl; [|intros _; by auto..|done].
      rewrite of_output_snoc, Hf, Hl, bool_decide_true by done. simpl. rewrite !app_nil_r. by destruct stdout.
    + rewrite Hl in Hf by done. split; simpl; [|intros Hn..|done].
      * rewrite Hf. destruct err; rewrite ?of_output_snoc, ?Hl, ?bool_decide_true by done; destruct stdout; simpl;
          by rewrite ?app_nil_r.
      * destruct err; [by destruct stdout|]. by apply Hl.
      * by apply Hd.
  - assert (bool_decide (upl_source stdout' = upl_source stdout) = false) as Hb by (by destruct stdout, stdout').
    assert (∀ u o1, upl stdout (set_upl stdout' u o1) = upl stdout o1) as Hother by (by destruct stdout, stdout').
    eapply order_ok_keep; [done|..]; destruct (upl stdout' o) as [[|d|m|]|], a; simplify_eq/=;
      try (destruct (read_ok _ _ _); [|done]; destruct err; simplify_eq/=); try (destruct err; simpl);
      rewrite ?of_output_snoc, ?Hb, ?app_nil_r, ?Hother; try done; try (left; by rewrite ?Hother; destruct stdout).
    etrans; [apply (dropped_from_add stdout stdout')|]. by rewrite Hb, app_nil_r.
Qed.

(** What a step of the main goroutine does to the messages: nothing, though uploaders may start,
    or it numbers or sends a message of its own. *)
Inductive main_move (o o' : op) : Prop :=
| mm_quiet :
    op_numbered o' = op_numbered o → op_sent o' = op_sent o → op_lost o' = op_lost o → op_dropped o' = op_dropped o →
    (∀ stdout, upl stdout o' = upl stdout o ∨ upl stdout o = None ∧ upl stdout o' = Some UWait) →
    pc_sending (op_at o) = [] → pc_sending (op_at o') = [] → main_move o o'
| mm_number m :
    op_numbered o' = op_numbered o ++ [(SLast, m)] → op_sent o' = op_sent o → op_lost o' = op_lost o →
    op_dropped o' = op_dropped o →
    (∀ stdout, upl stdout o' = upl stdout o) →
    pc_sending (op_at o) = [] → pc_sending (op_at o') = [(SLast, m)] → main_move o o'
| mm_send m err :
    op_numbered o' = op_numbered o → o' = set_at (op_at o') (sent SLast m err o) →
    (∀ stdout, upl stdout o' = upl stdout o) →
    pc_sending (op_at o) = [(SLast, m)] → pc_sending (op_at o') = [] → main_move o o'.

Lemma start_move o m w : op_at o = OStart → op_out o = None → op_err o = None → main_move o (op_start o m w).1.1.
Proof.
  intros Hat Ho He. unfold op_start, handleTtyResize, createTerminalStream.
  apply mm_quiet; [..|by rewrite Hat|]; repeat case_match; simplify_eq/=; try done; intros []; simpl; auto.
Qed.

Lemma run_move r o m : op_at o = ORun → main_move o (op_run r o m).1.
Proof.
  intros Hat. unfold op_run, add_stream.
  apply mm_quiet; [..|by rewrite Hat|]; repeat case_match; simplify_eq/=; try done; intros []; simpl; auto.
Qed.

Lemma op_step_move o c m w o' m' w' : op_ok o → op_step o c m w = Some (o', m', w') → main_move o o'.
Proof.
  intros Hok Hs. pose proof (ok_stage _ Hok) as Hst. unfold stage_ok in Hst.
  unfold op_step, pf_step in Hs. destruct (op_at o) eqn:Hat, c; try done.
  1: pose proof (start_move o m w Hat (proj1 Hst) (proj1 (proj2 Hst))) as Hm;
     destruct (op_start o m w) as [[? ?] ?]; by simplify_eq.
  1: pose proof (run_move r o m Hat) as Hm; destruct (op_run r o m); by simplify_eq.
  all: try (unfold add_stream in Hs; split_step Hs;
    apply mm_quiet; [done..| |by rewrite Hat|done]; intros []; simpl; auto;
    destruct Hst as (Ho & He & _); rewrite ?Ho, ?He; auto).
  - simplify_eq. eapply mm_number; [reflexivity..|by rewrite Hat|done].
  - simplify_eq. eapply mm_send; [reflexivity..|by rewrite Hat|done].
  - destruct Hst as (Ho & He & _). unfold add_stream in Hs. destruct (Streaming.Add _ _ m) as [m1 [e|]]; simplify_eq;
      (apply mm_quiet; [done..| |by rewrite Hat|done]; intros []; simpl; auto).
  - simplify_eq. eapply mm_number; [reflexivity..|by rewrite Hat|done].
  - simplify_eq. eapply mm_send; [reflexivity..|by rewrite Hat|done].
  - simplify_eq. apply mm_quiet; [done..| |by rewrite Hat|done]. intros []; auto.
Qed.

Lemma op_step_order stdout o c m w o' m' w' :
  op_ok o → order_ok stdout o → op_step o c m w = Some (o', m', w') → order_ok stdout o'.
Proof.
  intros Hok Ho Hs. assert (bool_decide (SLast = upl_source stdout) = false) as Hb by (by destruct stdout).
  destruct (op_step_move _ _ _ _ _ _ _ Hok Hs) as [E1 E2 E3 E5 E4 _ _|msg E1 E2 E3 E5 E4 _ _|msg err E1 E2 E4 _ _];
    apply (order_ok_keep _ _ _ Ho); try (left; apply E4); try (apply E4); rewrite ?E1, ?E3;
    unfold dropped_from; try congruence.
  - by rewrite of_output_snoc, Hb, app_nil_r.
  - rewrite E2. simpl. destruct err; rewrite ?of_output_snoc, ?Hb, ?app_nil_r; done.
  - rewrite E2. simpl. destruct err; rewrite ?of_output_snoc, ?Hb, ?app_nil_r; done.
  - by rewrite E2.
Qed.

Lemma order_ok_reachable stdout w s g o :
  reachable rt_step (eq (rt_init w)) s → r_ops s !! g = Some o → order_ok stdout o.
Proof.
  intros Hr. revert g o. induction Hr as [s <-|s e s' Hr IH Hs]; intros g o Hg; [by simplify_map_eq|].
  destruct e as [g' sid sn kind payload|g' c|g' out a|g']; simpl in Hs.
  - destruct (rt_HandleCmd _ _ _ _ _) as [[m r] [o1|]] eqn:Hh; split_step Hs; [|by eauto].
    apply HandleCmd_new in Hh as (f & p & -> & _).
    apply lookup_insert_Some in Hg as [[<- <-]|[_ Hg]]; [|by eauto]. split; try done; [by destruct stdout|apply le_0_n].
  - destruct (r_ops s !! g') as [o1|] eqn:Ho1; [|done].
    destruct (op_step o1 c _ _) as [[[o2 m2] w2]|] eqn:E; simplify_eq/=.
    apply lookup_insert_Some in Hg as [[<- <-]|[_ Hg]]; [|by eauto].
    eapply op_step_order; [by eapply rt_ok_reachable|by eapply IH|exact E].
  - destruct (r_ops s !! g') as [o1|] eqn:Ho1; [|done].
    destruct (upl_step out a o1) as [o2|] eqn:E; simplify_eq/=.
    apply lookup_insert_Some in Hg as [[<- <-]|[_ Hg]]; [|by eauto].
    eapply upl_step_order; [by eapply IH|exact E].
  - destruct (r_ops s !! g') as [o1|] eqn:Ho1; simplify_eq/=.
    apply lookup_insert_Some in Hg as [[<- <-]|[_ Hg]]; [|by eauto].
    eapply (order_ok_keep _ o1); [by eapply IH|done..|by left].
Qed.

Lemma sent_id o src m : op_ok o → (src, m) ∈ op_sent o → msg_Id m = op_sid o.
Proof.
  intros Hok Hin. assert ((src, m) ∈ op_numbered o) as [i Hi]%list_elem_of_lookup.
  { rewrite (ok_flow _ Hok). apply elem_of_app. by left. }
  by apply (ok_numbers _ Hok) in Hi as [_ ?].
Qed.

Lemma no_last_not_in l m : no_last l → (SLast, m) ∉ l.
Proof. intros Hl Hin. by apply (proj1 (Forall_forall _ _) Hl) in Hin. Qed.

(** Once the final message is sent, it is the last one numbered and the last one sent. *)
Lemma final_sent o final :
  op_ok o → (SLast, final) ∈ op_sent o →
  ended o ∧ pc_sending (op_at o) = [] ∧
  ∃ data data', op_numbered o = data' ++ [(SLast, final)] ∧ no_last data' ∧
    op_sent o = data ++ [(SLast, final)].
Proof.
  intros Hok Hfin. pose proof (ok_stage _ Hok) as Hst. unfold stage_ok in Hst.
  assert (op_sent o ≠ []) by (by intros Hn; rewrite Hn in Hfin; apply elem_of_nil in Hfin).
  assert (no_last (op_sent o) → False) by (intros Hn; by apply (no_last_not_in _ _ Hn) in Hfin).
  destruct (op_at o); destruct_and?; try done.
  all: match goal with H : _ ∨ _ |- _ =>
      destruct H as [(_ & ? & _)|(d & m & Hd & Hd1 & [(d' & Hd' & Hn & _)|[? _]])] end; [done| |done].
  all: split; [done|]; split; [done|]; rewrite Hd' in Hfin; apply elem_of_app in Hfin as [Hin|Hin];
    [by apply (no_last_not_in _ _ Hn) in Hin|]; apply list_elem_of_singleton in Hin as [= ->]; eauto 10.
Qed.

Lemma payloads_of_output stdout l : payloads stdout (of_output stdout l) = payloads stdout l.
Proof. unfold payloads, of_output. by rewrite list_filter_filter_l by auto. Qed.

(** Everything numbered has been sent, in order for each output. *)
Lemma sent_complete o final :
  op_ok o → (∀ stdout, order_ok stdout o) → (SLast, final) ∈ op_sent o → op_lost o = [] →
  ∃ data data', op_numbered o = data' ++ [(SLast, final)] ∧ no_last data' ∧
    op_sent o = data ++ [(SLast, final)] ∧ data' ≡ₚ data ∧
    ∀ stdout, payloads stdout data = read_from stdout o ∧ payloads stdout data' = read_from stdout o.
Proof.
  intros Hok Hord Hfin Hlost.
  destruct (final_sent _ _ Hok Hfin) as ((Hf1 & Hf2) & Hpc & data & data' & Hnum & Hnl' & Hsent).
  assert (∀ stdout, upl_sending (upl_source stdout) (upl stdout o) = [] ∧ upl_pending (upl stdout o) = []) as Hu.
  { intros []; simpl; [destruct (op_out o) as [[]|]|destruct (op_err o) as [[]|]]; done. }
  destruct (Hu true) as [Hs1 Hp1], (Hu false) as [Hs2 Hp2]. simpl in *.
  exists data, data'. split_and!; [done|done|done|..].
  { pose proof (ok_flow _ Hok) as Hfl. rewrite Hnum, Hsent, Hlost, Hs1, Hs2, Hpc in Hfl.
    rewrite !app_nil_r in Hfl. by apply (inj (.++ [(SLast, final)])) in Hfl. }
  assert (∀ stdout l, payloads stdout (l ++ [(SLast, final)]) = payloads stdout l) as Hlast.
  { intros stdout l. rewrite payloads_snoc. destruct stdout; by rewrite app_nil_r. }
  intros stdout. destruct (Hu stdout) as [Hs Hp]. pose proof (ok_read _ Hok stdout) as Hrd.
  rewrite Hp, app_nil_r, Hnum, Hlast in Hrd. split; [|done].
  pose proof (oo_flow _ _ (Hord stdout)) as Hfl. rewrite Hlost, Hs, !app_nil_r in Hfl.
  apply (f_equal (payloads stdout)) in Hfl. rewrite !payloads_of_output, Hnum, Hsent, !Hlast in Hfl. congruence.
Qed.

(** C4. The output of a stream arrives complete and in order.  Take any operation of the handler
    (exec, attach, logs, port-forward), at any point after its final message was sent, and
    suppose the send function refused none of its messages.  Then the final message is the last
    one it sent; the messages before it, put in the order of their numbers, are numbered
    0, 1, ..., n-1 (modulo 2^64) and the final one is n; the ones of each output carry exactly the
    chunks that Read returned without an error, or with its deadline exceeded, in the order they
    were read, both in the order of their numbers and in the order they were sent, none of them
    larger than the configured maximum.  Nothing else that was read is left behind, except, at most
    once for each output, data that Read returned together with another error. *)
Theorem stream_output_complete w s g o final :
  reachable rt_step (eq (rt_init w)) s → r_ops s !! g = Some o →
  (SLast, final) ∈ op_sent o → op_lost o = [] →
  ∃ data data', op_sent o = data ++ [(SLast, final)] ∧ data' ≡ₚ data ∧
    (∀ i src m, data' !! i = Some (src, m) →
      msg_Ack m = uint64 (Z.of_nat i) ∧ msg_Id m = op_sid o ∧ len (msg_Payload m) ≤ maxPayloadSize) ∧
    msg_Ack final = uint64 (len data) ∧ msg_Id final = op_sid o ∧
    payloads true data' = op_read_out o ∧ payloads false data' = op_read_err o ∧
    payloads true data = op_read_out o ∧ payloads false data = op_read_err o ∧
    (∀ stdout, (length (dropped_from stdout o) ≤ 1)%nat).
Proof.
  intros Hr Ho Hfin Hlost. pose proof (rt_ok_reachable _ _ _ _ Hr Ho) as Hok.
  destruct (sent_complete o final Hok) as (data & data' & Hnum & Hnl' & Hsent & Hperm & Hread);
    [intros; by eapply order_ok_reachable|done|done|].
  destruct (Hread true) as [Ht Ht'], (Hread false) as [Hf Hf'].
  destruct (ok_numbers _ Hok (length data') SLast final) as [Hack Hid]; [rewrite Hnum; by apply list_lookup_middle|].
  exists data, data'. split_and!; [done|done| |by unfold len; rewrite Hack, Hperm|done..|].
  2: { intros stdout. apply (oo_one stdout o). by eapply order_ok_reachable. }
  intros i src m Hi. assert (op_numbered o !! i = Some (src, m)) as Hi' by (rewrite Hnum; by apply lookup_app_l_Some).
  destruct (ok_numbers _ Hok _ _ _ Hi') as [? ?]. split_and!; [done|done|].
  apply (ok_size _ Hok src); [by eapply list_elem_of_lookup_2|].
  intros ->. apply list_elem_of_lookup_2 in Hi. by apply (proj1 (Forall_forall _ _) Hnl') in Hi.
Qed.

(** ** Input streams of operations *)

(** The operation has not removed its stream yet. *)
Definition holding (pc : op_pc) : bool := match pc with OReply _ | ODone => false | _ => true end.

(** It has not added one yet. *)
Definition before_add (pc : op_pc) : bool :=
  match pc with OStart | ORun | OPfAdd => true | _ => false end.

(** What a step of an operation does to the streams. *)
Inductive stream_effect (o o' : op) (m m' : StreamManager (Q := Q)) : Prop :=
| SE_same :
    op_stream o' = op_stream o → (op_stream o = None ∨ holding (op_at o') = holding (op_at o)) →
    (before_add (op_at o') = true → before_add (op_at o) = true) →
    (m' = m ∨ ∃ cols rows, m' = Resize (op_sid o) cols rows m) → stream_effect o o' m m'
| SE_add rF :
    op_stream o' = Some (length (heap m)) → holding (op_at o') = true → before_add (op_at o') = false →
    sessions m !! op_sid o = None → m' = (Streaming.Add (op_sid o) (Ok rF) m).1 →
    stream_effect o o' m m'
| SE_del :
    op_stream o' = op_stream o → before_add (op_at o') = false → m' = Del (op_sid o) m →
    stream_effect o o' m m'.

Lemma add_stream_effect o create m :
  let '(o', m', err) := add_stream o create m in
  match err with
  | Some _ => o' = o ∧ m' = m
  | None => o' = set_stream (length (heap m)) o ∧ sessions m !! op_sid o = None ∧
      ∃ rF, m' = (Streaming.Add (op_sid o) (Ok rF) m).1
  end.
Proof.
  unfold add_stream, Streaming.Add. destruct (sessions m !! op_sid o); [done|].
  destruct create; [|done]. split_and!; [done|done|]. eauto.
Qed.

Lemma op_start_effect o m w :
  op_at o = OStart → op_stream o = None →
  let '(o', m', _) := op_start o m w in op_sid o' = op_sid o ∧ stream_effect o o' m m'.
Proof.
  intros Hat Hnone. unfold op_start, handleTtyResize, createTerminalStream.
  repeat case_match; simplify_eq/=; (split; [done|]); apply SE_same; simpl; rewrite ?Hat; eauto.
Qed.

Lemma op_run_effect r o m :
  op_at o = ORun → op_stream o = None →
  let '(o', m') := op_run r o m in op_sid o' = op_sid o ∧ stream_effect o o' m m'.
Proof.
  intros Hat Hnone. unfold op_run.
  pose proof (add_stream_effect o r m) as Ha. destruct (add_stream o r m) as [[o1 m1] err].
  repeat case_match; simplify_eq/=; destruct_and?; repeat match goal with H : ∃ _, _ |- _ => destruct H end; simplify_eq/=; (split; [done|]);
    solve [eapply SE_add; done | apply SE_same; simpl; rewrite ?Hat; eauto].
Qed.

Lemma op_step_effect o c m w o' m' w' :
  (before_add (op_at o) = true → op_stream o = None) →
  op_step o c m w = Some (o', m', w') → op_sid o' = op_sid o ∧ stream_effect o o' m m'.
Proof.
  intros Hnone Hstep. unfold op_step, pf_step in Hstep. destruct (op_at o) eqn:Hat; destruct c; try done.
  1: { pose proof (op_start_effect o m w Hat (Hnone eq_refl)) as He.
       destruct (op_start o m w) as [[? ?] ?]. by simplify_eq. }
  1: { pose proof (op_run_effect r o m Hat (Hnone eq_refl)) as He.
       destruct (op_run r o m) as [? ?]. by simplify_eq. }
  9: { specialize (Hnone eq_refl).
       pose proof (add_stream_effect o (pf_create r) m) as Ha.
       destruct (add_stream o (pf_create r) m) as [[o1 m1] [e|]]; simplify_eq; destruct_and?;
         repeat match goal with H : ∃ _, _ |- _ => destruct H end; simplify_eq/=; (split; [done|]);
         solve [eapply SE_add; done | apply SE_same; simpl; rewrite ?Hat; eauto]. }
  all: split_step Hstep; (split; [done|]);
    solve [apply SE_same; simpl; rewrite ?Hat; eauto | apply SE_del; done].
Qed.

Record rt_wf (s : rt_state) : Prop := {
  rw_streams : sm_wf (r_streams s);
  rw_closed : removed_closed (r_streams s);
  rw_before g o : r_ops s !! g = Some o → before_add (op_at o) = true → op_stream o = None;
  rw_owner sid p : sessions (r_streams s) !! sid = Some p →
    ∃ g o, r_ops s !! g = Some o ∧ op_sid o = sid ∧ op_stream o = Some p ∧ holding (op_at o) = true;
}.

(** An operation moves: its streams are still owned. *)
Lemma rt_wf_op s g o o' m' w' :
  rt_wf s → r_ops s !! g = Some o → op_sid o' = op_sid o →
  stream_effect o o' (r_streams s) m' → rt_wf (MkRt m' w' (<[g := o']> (r_ops s))).
Proof.
  intros [Hwf Hcl Hb Hown] Ho Hsid Heff.
  assert (∃ so, m' = r_streams s ∨ m' = do_op so (r_streams s)) as [so Hso].
  { destruct Heff as [_ _ _ [->|(c & r & ->)]|rF _ _ _ _ ->|_ _ ->];
      [by exists (OpDel 0); left|exists (OpResize (op_sid o) c r)|exists (OpAdd (op_sid o) (Ok rF))|exists (OpDel (op_sid o))];
      by right. }
  assert (∀ sid p, sessions (r_streams s) !! sid = Some p →
    op_stream o' = op_stream o → (op_stream o = None ∨ holding (op_at o') = holding (op_at o)) →
    ∃ g1 o1, <[g := o']> (r_ops s) !! g1 = Some o1 ∧ op_sid o1 = sid ∧ op_stream o1 = Some p ∧ holding (op_at o1) = true)
    as Hkeep.
  { intros sid p Hp Hst Hh. destruct (Hown _ _ Hp) as (g1 & o1 & Hg1 & Hs1 & Hp1 & Hh1).
    destruct (decide (g = g1)) as [<-|Hne].
    - simplify_eq. exists g, o'. rewrite lookup_insert_eq. split_and!; [done|done|congruence|].
      destruct Hh; congruence.
    - exists g1, o1. by rewrite lookup_insert_ne. }
  split; simpl.
  - destruct Hso as [-> | ->]; [done|by apply sm_wf_op].
  - destruct Hso as [-> | ->]; [done|by apply removed_closed_op].
  - intros g1 o1. rewrite lookup_insert. case_decide; [|by apply Hb]. intros [= <-] Hba.
    destruct Heff as [Hst _ Hbb _|rF _ _ Hba' _ _|_ Hba' _]; [|congruence|congruence].
    rewrite Hst. eauto.
  - destruct Heff as [Hst Hh _ [->|(c & r & ->)]|rF Hst Hh _ Hnone ->|Hst _ ->].
    + eauto.
    + unfold Resize. destruct (_ !! op_sid o); simpl; eauto.
    + unfold Streaming.Add. rewrite Hnone. simpl. intros sid p [[<- <-]|[Hne Hp]]%lookup_insert_Some.
      * exists g, o'. by rewrite lookup_insert_eq.
      * destruct (Hown _ _ Hp) as (g1 & o1 & Hg1 & Hs1 & Hp1 & Hh1). exists g1, o1.
        rewrite lookup_insert_ne; [done|congruence].
    + intros sid p Hp.
      assert (sid ≠ op_sid o ∧ sessions (r_streams s) !! sid = Some p) as [Hne Hp'].
      { unfold Del in Hp. destruct (sessions (r_streams s) !! op_sid o) eqn:E; simpl in Hp.
        - by apply lookup_delete_Some in Hp as [? ?].
        - split; [congruence|done]. }
      destruct (Hown _ _ Hp') as (g1 & o1 & Hg1 & Hs1 & Hp1 & Hh1). exists g1, o1.
      rewrite lookup_insert_ne; [done|congruence].
Qed.

Lemma upl_step_effect stdout a o o' m :
  upl_step stdout a o = Some o' → op_sid o' = op_sid o ∧ stream_effect o o' m m.
Proof. unfold upl_step. intros Hs. split_step Hs; (split; [done|]); by apply SE_same; auto. Qed.

(** HandleCmd only ever writes to a stream. *)
Lemma HandleCmd_streams sid seq kind payload m :
  let '(m', _, _) := rt_HandleCmd sid seq kind payload m in
  m' = m ∨ ∃ data, m' = do_op (OpWrite sid seq data) m.
Proof.
  unfold rt_HandleCmd.
  repeat case_match; simplify_eq; first [by left | right; by exists payload | right; by exists []].
Qed.

Lemma Write_sessions sid seq data (m : StreamManager (Q := Q)) :
  sessions (do_op (OpWrite sid seq data) m) = sessions m.
Proof. simpl. unfold Write. by destruct (sessions m !! sid). Qed.

Lemma rt_wf_cmd s g sid seq kind payload s' :
  rt_wf s → rt_step s (VCmd g sid seq kind payload) = Some s' → rt_wf s'.
Proof.
  intros [Hwf Hcl Hb Hown] Hstep. simpl in Hstep.
  pose proof (HandleCmd_streams sid seq kind payload (r_streams s)) as Hm.
  destruct (rt_HandleCmd sid seq kind payload (r_streams s)) as [[m r] oo] eqn:Hh.
  assert (sm_wf m ∧ removed_closed m ∧ sessions m = sessions (r_streams s)) as (Hwf' & Hcl' & Hs).
  { destruct Hm as [->|[d ->]]; [done|]. split_and!; [by apply sm_wf_op|by apply removed_closed_op|].
    apply Write_sessions. }
  destruct (r_ops s !! g) eqn:Hg; [done|]. destruct oo as [o|]; simplify_eq.
  - apply HandleCmd_new in Hh as (f & p & -> & _). split; simpl; [done|done|..].
    + intros g1 o1. rewrite lookup_insert. case_decide; [by intros [= <-]|apply Hb].
    + rewrite Hs. intros sid1 p1 (g1 & o1 & ? & ?)%Hown. exists g1, o1.
      rewrite lookup_insert_ne; [done|congruence].
  - split; simpl; [done|done|done|]. by rewrite Hs.
Qed.

Lemma rt_wf_step s e s' : rt_wf s → rt_step s e = Some s' → rt_wf s'.
Proof.
  intros Hwf Hstep. destruct e as [g sid sn kind payload|g c|g stdout a|g];
    [by eapply rt_wf_cmd|..]; simpl in Hstep; destruct (r_ops s !! g) as [o|] eqn:Ho; try done.
  - destruct (op_step o c _ _) as [[[o1 m1] w1]|] eqn:Hs; simplify_eq.
    apply op_step_effect in Hs as [??]; [by eapply rt_wf_op|by apply (rw_before _ Hwf g)].
  - destruct (upl_step stdout a o) as [o1|] eqn:Hs; simplify_eq.
    apply (upl_step_effect _ _ _ _ (r_streams s)) in Hs as [??]. by eapply rt_wf_op.
  - simplify_eq. eapply rt_wf_op; [done..|]. by apply SE_same; auto.
Qed.

Lemma rt_wf_reachable w s : reachable rt_step (eq (rt_init w)) s → rt_wf s.
Proof.
  apply invariant_reachable. split; [|apply rt_wf_step].
  intros ? <-. split; simpl; [apply sm_wf_new|by intros p st Hp|..]; intros; simplify_map_eq.
Qed.

(** C31. Input streams do not outlive their operations.  At any time, a session id that accepts
    input belongs to an operation that is still running, so the table of streams is empty when
    all have finished; and Close has been called on the write closer of every stream that was ever
    added, unless its id is still in the table.  (The write closer of a port-forward is not the pipe
    itself: its Close closes the pipe later, or leaves that to the end of the operation.) *)
Theorem streams_released w s :
  reachable rt_step (eq (rt_init w)) s →
  (∀ sid, Has sid (r_streams s) = true →
     ∃ g o, r_ops s !! g = Some o ∧ op_sid o = sid ∧ holding (op_at o) = true) ∧
  ((∀ g o, r_ops s !! g = Some o → op_at o = ODone) → sessions (r_streams s) = ∅) ∧
  (∀ p st, heap (r_streams s) !! p = Some st → CloseCall ∉ st_w st →
     ∃ sid, sessions (r_streams s) !! sid = Some p).
Proof.
  intros [_ Hcl _ Hown]%rt_wf_reachable. split_and!; [..|done].
  - intros sid. unfold Has. rewrite bool_decide_eq_true. intros [p (g & o & ? & ? & ? & ?)%Hown]. eauto.
  - intros Hall. apply map_eq. intros sid. rewrite lookup_empty. apply eq_None_not_Some.
    intros [p (g & o & Hg & _ & _ & Hh)%Hown]. apply Hall in Hg. by rewrite Hg in Hh.
Qed.

(** ** Replies *)

(** What the function of a command may return. *)
Definition returns (o : op) (r : result (option Packet)) : Prop :=
  match op_func o with
  | FSimple do => ∃ w, r = (do (op_payload o) w).2
  | FExec | FAttach =>
      r = match ExecOrAttachCmd_Unmarshal (op_payload o) with Err e => Err e | Ok _ => Ok None end
  | FLogs => r = match LogsCmd_Unmarshal (op_payload o) with Err e => Err e | Ok _ => Ok None end
  | FTtyResize =>
      r = match TerminalResizeCmd_Unmarshal (op_payload o) with Err e => Err e | Ok _ => Ok None end
  | FPortForward => r = Ok None ∨ ∃ e, r = Err e
  end.

(** A stream operation, past the decoding of its command. *)
Definition streaming (o : op) : Prop :=
  match op_func o with
  | FExec | FAttach => ∃ opts, ExecOrAttachCmd_Unmarshal (op_payload o) = Ok opts
  | FLogs => ∃ opts, LogsCmd_Unmarshal (op_payload o) = Ok opts
  | _ => False
  end.

Definition reply_ok (o : op) : Prop :=
  match op_at o with
  | OStart => op_replied o = []
  | OReply r => op_replied o = [] ∧ returns o r
  | ODone => ∃ r, returns o r ∧ op_replied o = option_list (reply (op_sid o) (op_seq o) r)
  | OPfAdd | OPfUpload | OPfDrain _ | OPfLast _ _ | OPfSendLast _ _ | OPfDel _ =>
      op_replied o = [] ∧ op_func o = FPortForward
  | _ => op_replied o = [] ∧ streaming o
  end.

Lemma reply_ok_start o m w : reply_ok o → op_at o = OStart → reply_ok (op_start o m w).1.1.
Proof.
  unfold reply_ok. intros Hr Hat. rewrite Hat in Hr.
  unfold op_start, handleTtyResize, createTerminalStream, returns, streaming.
  repeat case_match; simplify_eq/=; split; try done; eauto; try congruence.
  match goal with H1 : op_func o = FSimple ?d, H2 : op_func o = FSimple ?d' |- _ =>
    assert (d = d') as <- by congruence end.
  exists w. by match goal with H : _ = (_, r) |- _ => rewrite H end.
Qed.

Lemma reply_ok_run r o m : reply_ok o → op_at o = ORun → reply_ok (op_run r o m).1.
Proof.
  unfold reply_ok. intros Hr Hat. rewrite Hat in Hr. unfold op_run, add_stream.
  repeat case_match; simplify_eq/=; done.
Qed.

Lemma streaming_returns o : streaming o → returns o (Ok None).
Proof. unfold streaming, returns. destruct (op_func o); try done; by intros [? ->]. Qed.

Lemma op_step_reply o c m w o' m' w' :
  reply_ok o → op_step o c m w = Some (o', m', w') → reply_ok o'.
Proof.
  intros Hr Hstep. unfold op_step, pf_step in Hstep. destruct (op_at o) eqn:Hat; destruct c; try done.
  1: { pose proof (reply_ok_start o m w Hr Hat) as Hs. destruct (op_start o m w) as [[? ?] ?]. by simplify_eq. }
  1: { pose proof (reply_ok_run r o m Hr Hat) as Hs. destruct (op_run r o m). by simplify_eq. }
  all: unfold reply_ok in Hr; rewrite Hat in Hr; unfold add_stream in Hstep; split_step Hstep;
    unfold reply_ok; simpl; try done.
  - destruct Hr as [? Hs]. split; [done|]. by apply (streaming_returns o).
  - destruct (Streaming.Add _ _ _) as [? []]; by simplify_eq/=.
  - destruct (Streaming.Add _ _ _) as [? []]; by simplify_eq/=.
  - destruct Hr as [? Hf]. split; [done|]. unfold returns. simpl. rewrite Hf. eauto.
  - destruct Hr as [? Hf]. split; [done|]. unfold returns. simpl. rewrite Hf. eauto.
  - destruct Hr as [-> Hr]. exists r. by rewrite E.
  - destruct Hr as [-> Hr]. exists r. by rewrite E.
Qed.

Lemma rt_reply_reachable w s g o :
  reachable rt_step (eq (rt_init w)) s → r_ops s !! g = Some o → reply_ok o.
Proof.
  intros Hr. revert g o. revert Hr.
  apply (invariant_reachable rt_step _ (λ s, ∀ g o, r_ops s !! g = Some o → reply_ok o)). split.
  { intros ? <- g o Hg. simpl in Hg. by simplify_map_eq. }
  clear s. intros s e s' Hall Hstep g1 o1 Hg1.
  destruct e as [g sid sn kind payload|g c|g stdout a|g]; simpl in Hstep.
  - destruct (rt_HandleCmd sid sn kind payload (r_streams s)) as [[m r] [o|]] eqn:Hh; split_step Hstep; [|eauto].
    apply HandleCmd_new in Hh as (f & p & -> & _). rewrite lookup_insert in Hg1. case_decide; [|eauto].
    by simplify_eq.
  - destruct (r_ops s !! g) as [o|] eqn:Ho; [|done].
    destruct (op_step o c _ _) as [[[o2 m2] w2]|] eqn:Hs; simplify_eq/=.
    rewrite lookup_insert in Hg1. case_decide; [|eauto]. simplify_eq. eauto using op_step_reply.
  - destruct (r_ops s !! g) as [o|] eqn:Ho; [|done].
    destruct (upl_step stdout a o) as [o2|] eqn:Hs; simplify_eq/=.
    rewrite lookup_insert in Hg1. case_decide; [|eauto]. simplify_eq.
    apply Hall in Ho. unfold upl_step in Hs. by split_step Hs.
  - destruct (r_ops s !! g) as [o|] eqn:Ho; simplify_eq/=.
    rewrite lookup_insert in Hg1. case_decide; [|eauto]. simplify_eq. by apply Hall in Ho.
Qed.

(** Every runtime command is answered as its kind demands.  A finished command of the pod, image
    and info family has sent exactly the one message that carries its id, its sequence number as
    acknowledgement and the marshalled packet of the engine's answer, or the error the engine or
    the decoder gave (none only if the packet itself cannot be marshalled); a stream command
    (exec, attach, logs) has sent a reply only when its command could not be decoded, everything
    else being reported in the stream; nothing is sent before the command's function returned. *)
Theorem runtime_replies w s g o :
  reachable rt_step (eq (rt_init w)) s → r_ops s !! g = Some o →
  (holding (op_at o) = true → op_replied o = []) ∧
  (op_at o = ODone →
    match op_func o with
    | FSimple do => ∃ w', op_replied o = option_list (reply (op_sid o) (op_seq o) (do (op_payload o) w').2)
    | FExec | FAttach =>
        op_replied o = match ExecOrAttachCmd_Unmarshal (op_payload o) with
                       | Err e => [MkMsg MSG_RUNTIME_ARANYA_PROTO (op_sid o) (op_seq o)
                                     (error_data (common_error (Error e)))]
                       | Ok _ => []
                       end
    | FLogs =>
        op_replied o = match LogsCmd_Unmarshal (op_payload o) with
                       | Err e => [MkMsg MSG_RUNTIME_ARANYA_PROTO (op_sid o) (op_seq o)
                                     (error_data (common_error (Error e)))]
                       | Ok _ => []
                       end
    | _ => True
    end).
Proof.
  intros Hr Ho. pose proof (rt_reply_reachable _ _ _ _ Hr Ho) as Hrep. unfold reply_ok in Hrep. split.
  - intros Hh. destruct (op_at o); by try destruct Hrep.
  - intros Hat. rewrite Hat in Hrep. destruct Hrep as (r & Hret & Hrep). rewrite Hrep. unfold returns in Hret.
    destruct (op_func o); try done; subst; [destruct Hret as [w' ->]; eauto|..]; by repeat case_match.
Qed.

(** Commands find their function.  A packet of a kind of the table starts exactly the operation
    of that kind, on the packet's payload, and HandleCmd answers nothing itself; a packet that
    cannot be decoded, a packet of an unknown kind and an unknown command type are refused with
    an error and start nothing; none of these touches the streams. *)
Theorem runtime_dispatch (sid seq : Z) (payload : bytes) (m : StreamManager (Q := Q)) :
  NoDup ((rt_table (W := W)).*1) →
  CMD_RUNTIME_ARANYA_PROTO ≠ CMD_DATA_INPUT → CMD_RUNTIME_ARANYA_PROTO ≠ CMD_DATA_CLOSE →
  (∀ kind f p, (kind, f) ∈ rt_table → Packet_Unmarshal payload = Ok (MkPacket kind p) →
     rt_HandleCmd sid seq CMD_RUNTIME_ARANYA_PROTO payload m =
       (m, MkCmdResult 0 None None, Some (new_op f sid seq p))) ∧
  (∀ kind p, kind ∉ (rt_table (W := W)).*1 → Packet_Unmarshal payload = Ok (MkPacket kind p) →
     ∃ e, rt_HandleCmd sid seq CMD_RUNTIME_ARANYA_PROTO payload m = (m, failed e, None)) ∧
  (∀ e, Packet_Unmarshal payload = Err e →
     rt_HandleCmd sid seq CMD_RUNTIME_ARANYA_PROTO payload m = (m, failed e, None)) ∧
  (∀ kind, kind ≠ CMD_RUNTIME_ARANYA_PROTO → kind ≠ CMD_DATA_INPUT → kind ≠ CMD_DATA_CLOSE →
     rt_HandleCmd sid seq kind payload m =
       (m, failed (errorString ("unknown cmd type " +:+ pretty kind)), None)).
Proof.
  intros Hnd H1 H2. unfold rt_HandleCmd.
  rewrite (proj2 (Z.eqb_neq _ _) H1), (proj2 (Z.eqb_neq _ _) H2), Z.eqb_refl. split_and!.
  - intros kind f p Hin ->. simpl. unfold rt_funcMap. by rewrite (elem_of_list_to_map_1 _ _ _ Hnd Hin).
  - intros kind p Hin ->. simpl. unfold rt_funcMap. rewrite (not_elem_of_list_to_map_1 _ _ Hin). eauto.
  - by intros e ->.
  - intros kind Hk1 Hk2 Hk3. by rewrite !(proj2 (Z.eqb_neq _ _)) by done.
Qed.

(** ** Closing the input of a port-forward *)

(** The close function of the write end: what it waits for, in nanoseconds, before it closes the
    pipe, the connection's write end and the downstream; [None] when it closes none of them.
    [pending] is the number of bytes in the pipe, if that is a file. *)
Definition pf_closeFunc (pending : option Z) : option Z :=
  match pending with
  | None => Some (5 * 10 ^ 9)
  | Some n =>
      let wait := Z.quot (Z.quot n 1024) 100 * 10 ^ 9 in
      if 0 <? wait then Some wait else None
  end.

(** Finding.  Closing the input of a port-forward often closes nothing.  The delay is computed
    from the pending bytes in whole units of 100 KiB with integer division, and a delay of 0
    skips the close instead of doing it at once: when the pipe is a file and holds less than
    102400 bytes, in particular when it is empty, nothing is closed; with more, the delay is
    never longer than the assumed 100 KiB/s need. *)
Theorem portforward_close_skipped n :
  0 ≤ n →
  (n < 102400 → pf_closeFunc (Some n) = None) ∧
  (102400 ≤ n → ∃ wait, pf_closeFunc (Some n) = Some wait ∧ 0 < wait ∧
     wait * 102400 ≤ n * 10 ^ 9 < wait * 102400 + 102400 * 10 ^ 9).
Proof.
  intros Hn. unfold pf_closeFunc. rewrite Z.quot_quot by lia. change (1024 * 100) with 102400.
  rewrite Z.quot_div_nonneg by lia.
  pose proof (Z.div_mod n 102400 ltac:(lia)) as Hdm. pose proof (Z.mod_pos_bound n 102400 ltac:(lia)) as Hm.
  set (q := n / 102400) in *. split; intros Hlt.
  - assert (q = 0) as -> by nia. done.
  - assert (0 < q) by nia. rewrite (proj2 (Z.ltb_lt 0 (q * 10 ^ 9))) by lia.
    eexists. split; [done|]. lia.
Qed.
End runtime.

(** ** Runs on concrete schedules *)

Module SampleRuntime.
Import SampleSeqQueue.
#[local] Existing Instance sample_pb.
#[local] Existing Instance sample_errors.
#[local] Existing Instance sample_aranya.
#[local] Existing Instance sample_engine.

Abbreviation step := (rt_step (W := unit) (Q := squeue) 4096).
Abbreviation init := (rt_init (W := unit) (Q := squeue) tt).
Abbreviation reach := (reachable step (eq init)).
Abbreviation aranya := (@CMD_RUNTIME_ARANYA_PROTO sample_pb).

Definition state_after (es : list rt_event) : rt_state (W := unit) (Q := squeue) :=
  match run step init es with Some s => s | None => init end.

Definition op_after (g : nat) (es : list rt_event) : op (W := unit) :=
  match r_ops (state_after es) !! g with Some o => o | None => new_op FExec 0 0 [] end.

(** Logs with output on both streams; the second message is sent first. *)
Definition logs_schedule : list rt_event :=
  [VCmd 0 5 0 aranya [4]; VStep 0 CGo; VUpload 0 true (ARead [1; 2] true [1; 2; 0; 0] ReadNil);
   VUpload 0 false (ARead [9] false [] ReadDeadlineExceeded); VUpload 0 false ANext; VUpload 0 true ANext;
   VUpload 0 true (ASend None); VUpload 0 false (ASend None); VStep 0 (CEngine (Ok true));
   VStep 0 CGo; VUpload 0 true AEnd; VUpload 0 false AEnd; VStep 0 CGo; VStep 0 CGo;
   VStep 0 (CSend None); VStep 0 CGo; VStep 0 CGo].

(** Session 5 runs a command with input; a second command with the same session id comes in. *)
Definition duplicate_schedule : list rt_event :=
  [VCmd 0 5 0 aranya [2; 1]; VStep 0 CGo; VStep 0 (CEngine (Ok true));
   VCmd 1 5 1 aranya [2; 1]; VStep 1 CGo; VStep 1 (CEngine (Ok true)); VStep 1 CGo;
   VUpload 1 true AEnd; VStep 1 CGo; VStep 1 CGo; VStep 1 (CSend None); VStep 1 CGo].

(** A command with input gets some, then an empty piece. *)
Abbreviation input := (@CMD_DATA_INPUT sample_pb).
Definition input_schedule : list rt_event :=
  [VCmd 0 5 0 aranya [2; 1]; VStep 0 CGo; VStep 0 (CEngine (Ok true));
   VCmd 1 5 0 input [7]; VCmd 1 5 1 input []].

(** Finding.  An empty piece of input ends the input.  HandleCmd replaces a missing payload by an
    empty one to tell input from the end of input, for which it passes nil; but the stream takes
    anything of length 0 for the end: the two commands have the same effect, and after an empty
    piece the command's input is closed. *)
Theorem empty_input_ends_stream :
  (∀ sid seq payload (m : StreamManager (Q := squeue)),
     rt_HandleCmd (W := unit) sid seq (@CMD_DATA_INPUT sample_pb) [] m =
     rt_HandleCmd (W := unit) sid seq (@CMD_DATA_CLOSE sample_pb) payload m) ∧
  ∃ s st, reach s ∧ heap (r_streams s) !! 0%nat = Some st ∧ st_w st = [Wrote [7]; Wrote []; CloseCall].
Proof.
  split; [done|]. exists (state_after input_schedule). eexists.
  split; [apply (run_reachable _ _ input_schedule); by vm_compute|]. by vm_compute.
Qed.

(** An image list. *)
Definition image_schedule : list rt_event :=
  [VCmd 0 7 3 aranya [7; 42]; VStep 0 CGo; VStep 0 (CSend None)].

(** C39. Finding.  A refused exec ends the session it collides with.  The second command is refused
    with "already exists", but its deferred cleanup removes the stream of the session id all the
    same: in the state reached here the first command is still running, its standard input has
    been closed under it, and every further input for the session is dropped. *)
Theorem refused_exec_closes_other_session :
  ∃ s, reach s ∧
    (∃ o, r_ops s !! 0%nat = Some o ∧ op_sid o = 5 ∧ op_at o = OCollect None) ∧
    (∃ o, r_ops s !! 1%nat = Some o ∧ op_stream o = None ∧
       op_sent o = [(SLast, MkMsg (@MSG_ERROR sample_pb) 5 0 [1; 0])]) ∧
    (∃ st, heap (r_streams s) !! 0%nat = Some st ∧ st_w st = [CloseCall]) ∧
    ∀ seq data, rt_HandleCmd (W := unit) 5 seq (@CMD_DATA_INPUT sample_pb) data (r_streams s) =
      (r_streams s, MkCmdResult 0 None None, None).
Proof.
  exists (state_after duplicate_schedule).
  split; [by apply (run_reachable _ _ duplicate_schedule); vm_compute|]. split_and!.
  - exists (op_after 0 duplicate_schedule). by vm_compute.
  - exists (op_after 1 duplicate_schedule). by vm_compute.
  - eexists. by vm_compute.
  - intros sn data. unfold rt_HandleCmd. rewrite Z.eqb_refl. unfold Write.
    by assert (sessions (r_streams (state_after duplicate_schedule)) !! 5 = None) as -> by (by vm_compute).
Qed.

Lemma stream_output_complete_witness :
  ∃ data data', op_sent (op_after 0 logs_schedule) = data ++ [(SLast, MkMsg (@MSG_DATA_OUTPUT sample_pb) 5 2 [])] ∧
    data' ≡ₚ data ∧ payloads true data' = [[1; 2]] ∧ payloads false data' = [[9]].
Proof.
  destruct (stream_output_complete (Q := squeue) 4096 tt (state_after logs_schedule) 0 (op_after 0 logs_schedule)
    (MkMsg (@MSG_DATA_OUTPUT sample_pb) 5 2 [])) as (data & data' & H1 & H2 & _ & _ & _ & H3 & H4 & _).
  - apply (run_reachable _ _ logs_schedule). vm_compute. reflexivity.
  - vm_compute. reflexivity.
  - vm_compute. right. right. left.
  - vm_compute. reflexivity.
  - exists data, data'. split; [exact H1|]. split; [exact H2|]. split; [exact H3|exact H4].
Defined.

Lemma streams_released_witness :
  ∃ g o, r_ops (state_after (take 3 duplicate_schedule)) !! g = Some o ∧ op_sid o = 5 ∧ holding (op_at o) = true.
Proof.
  apply (streams_released (Q := squeue) 4096 tt (state_after (take 3 duplicate_schedule))).
  - apply (run_reachable _ _ (take 3 duplicate_schedule)). vm_compute. reflexivity.
  - vm_compute. reflexivity.
Defined.

Lemma runtime_replies_witness :
  ∃ w', op_replied (op_after 0 image_schedule) = option_list (reply 7 3 (handleImageList [42] w').2).
Proof.
  apply (runtime_replies (Q := squeue) 4096 tt (state_after image_schedule) 0 (op_after 0 image_schedule)).
  - apply (run_reachable _ _ image_schedule). vm_compute. reflexivity.
  - vm_compute. reflexivity.
  - vm_compute. reflexivity.
Defined.

Lemma runtime_dispatch_witness :
  rt_HandleCmd (W := unit) (Q := squeue) 7 3 aranya [7; 42] NewStreamManager =
    (NewStreamManager, MkCmdResult 0 None None, Some (new_op (FSimple handleImageList) 7 3 [42])).
Proof.
  apply (runtime_dispatch (W := unit) (Q := squeue) 7 3 [7; 42] NewStreamManager) with (kind := 7).
  - vm_compute. apply (bool_decide_unpack _). vm_compute. exact I.
  - vm_compute. congruence.
  - vm_compute. congruence.
  - apply (list_elem_of_lookup_2 _ 6). reflexivity.
  - reflexivity.
Defined.

Lemma portforward_close_skipped_witness : pf_closeFunc (Some 1000) = None.
Proof. apply (portforward_close_skipped 1000); lia. Defined.
End SampleRuntime.
