(* ===== verification/Controller.v ===== *)
(** * The controller (controller.go, channel_bundle.go)

    A controller hands each connection of the client a bundle of channels and runs one loop that
    handles the commands of one bundle after another.  [ctl_step] runs one atomic action of the
    loop, of a call of [RefreshChannels] or [Close], of the client at the other end of a bundle,
    or of a goroutine of the handler that sends a message of its own; its label decides every
    [select].  A run-time panic ends the process: nothing moves after it.

    The handler is any instance of the interface [Handler]; a send function is known by the bundle
    it sends to. *)
From S2P Require Import Prelude GoChan Proto Handler.

Set Default Proof Using "Type".

(** What the process died of. *)
Inductive cpanic : Type :=
| SendOnClosedMsgCh      (* sendMsg *)
| CloseOfClosedBundle    (* channelBundle.Close *)
| SendOnClosedRefreshed  (* RefreshChannels *)
| CloseOfClosedRefreshed (* Close *)
| HandlerPanic.

(** The loop handleSession. *)
Inductive session_pc : Type :=
| SNotStarted
| SWait                    (* select: ctx.Done, chRefreshed *)
| SBegin (b : nat)         (* handler.SetMsgSendFunc(sendMsg) *)
| SRange (b : nat)         (* range cb.cmdCh, HandleCmd *)
| SSend (b : nat) (m : Msg)
| SClose1 (b : nat)        (* cb.Close(): close(cb.closed) *)
| SClose2 (b : nat)        (* close(cb.msgCh) *)
| SReturned.

(** Calls of RefreshChannels and Close. *)
Inductive call_pc : Type :=
| FLock                          (* RefreshChannels: c.mu.Lock() *)
| FEnter                         (* newChannelBundle, c.closed *)
| FSelect (b : nat)              (* select: ctx.Done, chRefreshed <- cb *)
| FOld1 (old b : nat)            (* c.currentCB.Close(): close(closed) *)
| FOld2 (old b : nat)            (* close(msgCh) *)
| FSet (b : nat)                 (* c.currentCB = cb *)
| FNew1 (b : nat)                (* cb.Close() on a closed controller *)
| FNew2 (b : nat)
| FUnlock (ret : option nat)
| FReturned (ret : option nat)
| KLock                          (* Close: c.mu.Lock() *)
| KBody
| KUnlock
| KReturned.

(** How sendMsg's select is decided. *)
Inductive send_choice : Type := ViaClosed | ViaSend | ViaDone.

Section controller.
Context {H B : Type} `{handler : !Handler H B nat}.
Context (ErrorMsg : string → B) (marshal : B → result bytes).

(** A channel bundle.  The last three fields record the commands the client put in, those that
    were handled with their results, and the replies with whether they went into [msgCh]. *)
Record bundle : Type := MkBundle {
  b_cmdCh : chan Cmd;
  b_msgCh : chan Msg;
  b_closed : chan unit;
  b_sent : list Cmd;
  b_handled : list (Cmd * cmd_result B);
  b_replied : list (Msg * bool);
}.

Definition newChannelBundle : bundle := MkBundle (make_chan 1) (make_chan 1) (make_chan 0) [] [] [].

Record controller : Type := MkController {
  c_done : bool;                       (* ctx.Done() *)
  c_closed : bool;
  c_mu : option nat;                   (* the call that holds the mutex *)
  c_current : option nat;              (* currentCB *)
  c_refreshed : chan nat;
  c_bundles : list bundle;
  c_sess : session_pc;
  c_calls : gmap nat call_pc;
  c_async : gmap nat (nat * Msg);      (* sendMsg calls of the handler's goroutines *)
  c_fn : option nat;                   (* the send function the handler was given last *)
  c_handler : H;
  c_failed : bool;                     (* the loop has given up a bundle *)
  c_panic : option cpanic;
}.

Definition set_done (x : bool) (s : controller) : controller :=
  MkController x (c_closed s) (c_mu s) (c_current s) (c_refreshed s) (c_bundles s) (c_sess
    s) (c_calls s) (c_async s) (c_fn s) (c_handler s) (c_failed s) (c_panic s).
Definition set_closed (x : bool) (s : controller) : controller :=
  MkController (c_done s) x (c_mu s) (c_current s) (c_refreshed s) (c_bundles s) (c_sess s)
    (c_calls s) (c_async s) (c_fn s) (c_handler s) (c_failed s) (c_panic s).
Definition set_mu (x : option nat) (s : controller) : controller :=
  MkController (c_done s) (c_closed s) x (c_current s) (c_refreshed s) (c_bundles s) (c_sess
    s) (c_calls s) (c_async s) (c_fn s) (c_handler s) (c_failed s) (c_panic s).
Definition set_current (x : option nat) (s : controller) : controller :=
  MkController (c_done s) (c_closed s) (c_mu s) x (c_refreshed s) (c_bundles s) (c_sess s)
    (c_calls s) (c_async s) (c_fn s) (c_handler s) (c_failed s) (c_panic s).
Definition set_refreshed (x : chan nat) (s : controller) : controller :=
  MkController (c_done s) (c_closed s) (c_mu s) (c_current s) x (c_bundles s) (c_sess s)
    (c_calls s) (c_async s) (c_fn s) (c_handler s) (c_failed s) (c_panic s).
Definition set_bundles (x : list bundle) (s : controller) : controller :=
  MkController (c_done s) (c_closed s) (c_mu s) (c_current s) (c_refreshed s) x (c_sess s)
    (c_calls s) (c_async s) (c_fn s) (c_handler s) (c_failed s) (c_panic s).
Definition set_sess (x : session_pc) (s : controller) : controller :=
  MkController (c_done s) (c_closed s) (c_mu s) (c_current s) (c_refreshed s) (c_bundles s)
    x (c_calls s) (c_async s) (c_fn s) (c_handler s) (c_failed s) (c_panic s).
Definition set_calls (x : gmap nat call_pc) (s : controller) : controller :=
  MkController (c_done s) (c_closed s) (c_mu s) (c_current s) (c_refreshed s) (c_bundles s)
    (c_sess s) x (c_async s) (c_fn s) (c_handler s) (c_failed s) (c_panic s).
Definition set_async (x : gmap nat (nat * Msg)) (s : controller) : controller :=
  MkController (c_done s) (c_closed s) (c_mu s) (c_current s) (c_refreshed s) (c_bundles s)
    (c_sess s) (c_calls s) x (c_fn s) (c_handler s) (c_failed s) (c_panic s).
Definition set_fn (x : option nat) (s : controller) : controller :=
  MkController (c_done s) (c_closed s) (c_mu s) (c_current s) (c_refreshed s) (c_bundles s)
    (c_sess s) (c_calls s) (c_async s) x (c_handler s) (c_failed s) (c_panic s).
Definition set_handler (x : H) (s : controller) : controller :=
  MkController (c_done s) (c_closed s) (c_mu s) (c_current s) (c_refreshed s) (c_bundles s)
    (c_sess s) (c_calls s) (c_async s) (c_fn s) x (c_failed s) (c_panic s).
Definition set_failed (x : bool) (s : controller) : controller :=
  MkController (c_done s) (c_closed s) (c_mu s) (c_current s) (c_refreshed s) (c_bundles s)
    (c_sess s) (c_calls s) (c_async s) (c_fn s) (c_handler s) x (c_panic s).
Definition set_panic (x : option cpanic) (s : controller) : controller :=
  MkController (c_done s) (c_closed s) (c_mu s) (c_current s) (c_refreshed s) (c_bundles s)
    (c_sess s) (c_calls s) (c_async s) (c_fn s) (c_handler s) (c_failed s) x.

Definition NewController (h : H) : controller :=
  MkController false false None None (make_chan 1) [] SNotStarted ∅ ∅ None h false None.

Definition on_bundle (b : nat) (f : bundle → bundle) (s : controller) : controller :=
  set_bundles (alter f b (c_bundles s)) s.

Definition set_call (c : nat) (pc : call_pc) (s : controller) : controller :=
  set_calls (<[c := pc]> (c_calls s)) s.

Definition with_cmdCh (ch : chan Cmd) (x : bundle) : bundle :=
  MkBundle ch (b_msgCh x) (b_closed x) (b_sent x) (b_handled x) (b_replied x).
Definition with_msgCh (ch : chan Msg) (x : bundle) : bundle :=
  MkBundle (b_cmdCh x) ch (b_closed x) (b_sent x) (b_handled x) (b_replied x).
Definition with_closed (ch : chan unit) (x : bundle) : bundle :=
  MkBundle (b_cmdCh x) (b_msgCh x) ch (b_sent x) (b_handled x) (b_replied x).
Definition client_sent (cmd : Cmd) (x : bundle) : bundle :=
  MkBundle (b_cmdCh x) (b_msgCh x) (b_closed x) (b_sent x ++ [cmd]) (b_handled x) (b_replied x).
Definition handled (cmd : Cmd) (r : cmd_result B) (x : bundle) : bundle :=
  MkBundle (b_cmdCh x) (b_msgCh x) (b_closed x) (b_sent x) (b_handled x ++ [(cmd, r)]) (b_replied x).
Definition answered (m : Msg) (ok : bool) (x : bundle) : bundle :=
  MkBundle (b_cmdCh x) (b_msgCh x) (b_closed x) (b_sent x) (b_handled x) (b_replied x ++ [(m, ok)]).

(** [channelBundle.Close], in its two steps. *)
Definition close1 (b : nat) (s : controller) : option controller :=
  match c_bundles s !! b with
  | None => None
  | Some x =>
      match chan_close (b_closed x) with
      | Some ch => Some (on_bundle b (with_closed ch) s)
      | None => Some (set_panic (Some CloseOfClosedBundle) s)
      end
  end.

Definition close2 (b : nat) (s : controller) : option controller :=
  match c_bundles s !! b with
  | None => None
  | Some x =>
      match chan_close (b_msgCh x) with
      | Some ch => Some (on_bundle b (with_msgCh ch) s)
      | None => Some (set_panic (Some CloseOfClosedBundle) s)
      end
  end.

(** The reply to a command whose [HandleCmd] returned [r]: none without a body; an error when it
    cannot be marshalled. *)
Definition reply_to (cmd : Cmd) (r : cmd_result B) : option (result Msg) :=
  let ret := match res_err r with Some e => Some (ErrorMsg (Error e)) | None => res_ret r end in
  match ret with
  | None => None
  | Some body => Some (NewMsg marshal (res_kind r) (cmd_Id cmd) (cmd_Seq cmd) body)
  end.

(** The body of [range cb.cmdCh] up to sendMsg. *)
Definition handle_one (b : nat) (cmd : Cmd) (ch : chan Cmd) (s : controller) : controller :=
  match HandleCmd (cmd_Id cmd) (cmd_Seq cmd) (cmd_Kind cmd) (cmd_Payload cmd) (c_handler s) with
  | Return (h, r) =>
      let s1 := on_bundle b (handled cmd r) (on_bundle b (with_cmdCh ch) (set_handler h s)) in
      match reply_to cmd r with
      | None => set_sess (SRange b) s1
      | Some (Ok m) => set_sess (SSend b m) s1
      | Some (Err _) => set_failed true (set_sess (SClose1 b) s1)
      end
  | _ => set_panic (Some HandlerPanic) s
  end.

(** sendMsg's select, for a call from the loop: where the loop goes. *)
Definition session_send (b : nat) (m : Msg) (c : send_choice) (s : controller) : option controller :=
  match c_bundles s !! b, c with
  | Some x, ViaClosed =>
      if cclosed (b_closed x) then Some (set_sess (SRange b) (on_bundle b (answered m false) s)) else None
  | Some x, ViaSend =>
      match chan_send m (b_msgCh x) with
      | Sent ch => Some (set_sess (SRange b) (on_bundle b (answered m true) (on_bundle b (with_msgCh ch) s)))
      | SendBlocks => None
      | SendPanics => Some (set_panic (Some SendOnClosedMsgCh) s)
      end
  | Some x, ViaDone =>
      if c_done s
      then Some (set_failed true (set_sess (SClose1 b) (on_bundle b (answered m false) s))) else None
  | None, _ => None
  end.

Definition session_step (on_done : bool) (c : send_choice) (s : controller) : option controller :=
  match c_sess s with
  | SNotStarted => Some (set_sess SWait s)   (* Start *)
  | SWait =>
      if on_done then if c_done s then Some (set_sess SReturned s) else None
      else
        match chan_recv (c_refreshed s) with
        | Received b ch => Some (set_sess (SBegin b) (set_refreshed ch s))
        | RecvClosed => Some (set_sess SReturned s)
        | RecvBlocks => None
        end
  | SBegin b =>
      Some (set_sess (SRange b) (set_fn (Some b) (set_handler (SetMsgSendFunc b (c_handler s)) s)))
  | SRange b =>
      match c_bundles s !! b with
      | None => None
      | Some x =>
          match chan_recv (b_cmdCh x) with
          | Received cmd ch => Some (handle_one b cmd ch s)
          | RecvClosed => Some (set_sess SWait s)
          | RecvBlocks => None
          end
      end
  | SSend b m => session_send b m c s
  | SClose1 b => s1 ← close1 b s; Some (set_sess (SClose2 b) s1)
  | SClose2 b => s1 ← close2 b s; Some (set_sess SWait s1)
  | SReturned => None
  end.

(** A call of RefreshChannels or Close. *)
Definition call_step (c : nat) (on_done : bool) (s : controller) : option controller :=
  match c_calls s !! c with
  | Some FLock | Some KLock =>
      match c_mu s with
      | None => Some (set_mu (Some c)
                  (set_call c (match c_calls s !! c with Some FLock => FEnter | _ => KBody end) s))
      | Some _ => None
      end
  | Some FEnter =>
      let b := length (c_bundles s) in
      Some (set_call c (if c_closed s then FNew1 b else FSelect b)
             (set_bundles (c_bundles s ++ [newChannelBundle]) s))
  | Some (FSelect b) =>
      if on_done then if c_done s then Some (set_call c (FUnlock None) s) else None
      else
        match chan_send b (c_refreshed s) with
        | Sent ch =>
            Some (set_call c (match c_current s with Some old => FOld1 old b | None => FSet b end)
                   (set_refreshed ch s))
        | SendBlocks => None
        | SendPanics => Some (set_panic (Some SendOnClosedRefreshed) s)
        end
  | Some (FOld1 old b) => s1 ← close1 old s; Some (set_call c (FOld2 old b) s1)
  | Some (FOld2 old b) => s1 ← close2 old s; Some (set_call c (FSet b) s1)
  | Some (FSet b) => Some (set_call c (FUnlock (Some b)) (set_current (Some b) s))
  | Some (FNew1 b) => s1 ← close1 b s; Some (set_call c (FNew2 b) s1)
  | Some (FNew2 b) => s1 ← close2 b s; Some (set_call c (FUnlock (Some b)) s1)
  | Some (FUnlock ret) => Some (set_mu None (set_call c (FReturned ret) s))
  | Some KBody =>
      if c_closed s then Some (set_call c KUnlock s)
      else
        match chan_close (c_refreshed s) with
        | Some ch => Some (set_call c KUnlock (set_refreshed ch (set_closed true s)))
        | None => Some (set_panic (Some CloseOfClosedRefreshed) s)
        end
  | Some KUnlock => Some (set_mu None (set_call c KReturned s))
  | Some (FReturned _) | Some KReturned | None => None
  end.

Inductive ctl_event : Type :=
| ESession (on_done : bool) (c : send_choice)
| ECallRefresh (c : nat)
| ECallClose (c : nat)
| ECallStep (c : nat) (on_done : bool)
| EAsyncSend (a : nat) (m : Msg)               (* a goroutine of the handler calls SendMsg *)
| EAsyncStep (a : nat) (c : send_choice)
| EClientSend (b : nat) (cmd : Cmd)            (* cmdCh <- cmd *)
| EClientClose (b : nat)                       (* close(cmdCh) *)
| EClientRecv (b : nat)                        (* <-msgCh *)
| EContextDone.

Definition client_step (e : ctl_event) (s : controller) : option controller :=
  match e with
  | EClientSend b cmd =>
      match c_bundles s !! b with
      | Some x =>
          match chan_send cmd (b_cmdCh x) with
          | Sent ch => Some (on_bundle b (client_sent cmd) (on_bundle b (with_cmdCh ch) s))
          | _ => None
          end
      | None => None
      end
  | EClientClose b =>
      match c_bundles s !! b with
      | Some x =>
          match chan_close (b_cmdCh x) with
          | Some ch => Some (on_bundle b (with_cmdCh ch) s)
          | None => None
          end
      | None => None
      end
  | EClientRecv b =>
      match c_bundles s !! b with
      | Some x =>
          match chan_recv (b_msgCh x) with
          | Received _ ch => Some (on_bundle b (with_msgCh ch) s)
          | _ => None
          end
      | None => None
      end
  | _ => None
  end.

(** sendMsg, for a call from a goroutine of the handler. *)
Definition async_step (a : nat) (c : send_choice) (s : controller) : option controller :=
  match c_async s !! a with
  | None => None
  | Some (b, m) =>
      let s1 := set_async (delete a (c_async s)) s in
      match c_bundles s !! b, c with
      | Some x, ViaClosed => if cclosed (b_closed x) then Some s1 else None
      | Some x, ViaSend =>
          match chan_send m (b_msgCh x) with
          | Sent ch => Some (on_bundle b (with_msgCh ch) s1)
          | SendBlocks => None
          | SendPanics => Some (set_panic (Some SendOnClosedMsgCh) s)
          end
      | Some x, ViaDone => if c_done s then Some s1 else None
      | None, _ => None
      end
  end.

Definition ctl_step (s : controller) (e : ctl_event) : option controller :=
  match c_panic s with
  | Some _ => None
  | None =>
      match e with
      | ESession on_done c => session_step on_done c s
      | ECallRefresh c => match c_calls s !! c with None => Some (set_call c FLock s) | Some _ => None end
      | ECallClose c => match c_calls s !! c with None => Some (set_call c KLock s) | Some _ => None end
      | ECallStep c on_done => call_step c on_done s
      | EAsyncSend a m =>
          match c_fn s, c_async s !! a with
          | Some b, None => Some (set_async (<[a := (b, m)]> (c_async s)) s)
          | _, _ => None
          end
      | EAsyncStep a c => async_step a c s
      | EContextDone => Some (set_done true s)
      | _ => client_step e s
      end
  end.

(** ** Commands and replies *)

(** The replies to a list of handled commands. *)
Definition replies (l : list (Cmd * cmd_result B)) : list Msg :=
  omap (λ p, match reply_to p.1 p.2 with Some (Ok m) => Some m | _ => None end) l.

(** The reply the loop is about to send to the bundle. *)
Definition in_hand (b : nat) (pc : session_pc) : list Msg :=
  match pc with SSend b' m => if bool_decide (b' = b) then [m] else [] | _ => [] end.

Record bundle_ok (pc : session_pc) (done : bool) (b : nat) (x : bundle) : Prop := {
  bo_handled : b_sent x = (b_handled x).*1 ++ cbuf (b_cmdCh x);
  bo_replied : replies (b_handled x) = (b_replied x).*1 ++ in_hand b pc;
  bo_dropped : cclosed (b_closed x) = false → done = false → Forall (λ p, p.2 = true) (b_replied x);
}.

Definition replies_ok (s : controller) : Prop :=
  ∀ b x, c_bundles s !! b = Some x → bundle_ok (c_sess s) (c_done s) b x.

Lemma replies_snoc l cmd r :
  replies (l ++ [(cmd, r)]) = replies l ++ match reply_to cmd r with Some (Ok m) => [m] | _ => [] end.
Proof. unfold replies. rewrite omap_app. simpl. by destruct (reply_to cmd r) as [[]|]. Qed.

Lemma lookup_on_bundle b f s b' x :
  c_bundles (on_bundle b f s) !! b' = Some x →
  (b' = b ∧ ∃ y, c_bundles s !! b = Some y ∧ x = f y) ∨ (b' ≠ b ∧ c_bundles s !! b' = Some x).
Proof.
  simpl. destruct (decide (b = b')) as [->|Hne].
  - rewrite list_lookup_alter_eq. intros (y & -> & ?)%fmap_Some. eauto 10.
  - rewrite list_lookup_alter_ne by done. eauto.
Qed.

(** The loop is elsewhere, or about the same bundle with the same reply in hand. *)
Lemma replies_ok_move pc' s :
  replies_ok s → (∀ b, in_hand b pc' = in_hand b (c_sess s)) → replies_ok (set_sess pc' s).
Proof. intros Hok Hh b x Hx. destruct (Hok b x Hx) as [? ? ?]. split; [done|by rewrite Hh|done]. Qed.

(** A change of one bundle that keeps what the invariant is about. *)
Lemma replies_ok_bundle b f s :
  replies_ok s →
  (∀ x, c_bundles s !! b = Some x → bundle_ok (c_sess s) (c_done s) b (f x)) →
  replies_ok (on_bundle b f s).
Proof.
  intros Hok Hf b' x [(-> & y & Hy & ->)|[Hne Hx]]%lookup_on_bundle; [by apply Hf|by apply Hok].
Qed.

(** A change of everything else. *)
Lemma replies_ok_ext s s' :
  replies_ok s → c_bundles s' = c_bundles s → c_sess s' = c_sess s → c_done s' = c_done s → replies_ok s'.
Proof. intros Hok H1 H2 H3 b x. rewrite H1, H2, H3. apply Hok. Qed.

Lemma close1_spec b s s' :
  close1 b s = Some s' →
  ∃ x, c_bundles s !! b = Some x ∧
    (cclosed (b_closed x) = true ∧ s' = set_panic (Some CloseOfClosedBundle) s ∨
     cclosed (b_closed x) = false ∧
     s' = on_bundle b (with_closed (Chan (cbuf (b_closed x)) (ccap (b_closed x)) true)) s).
Proof.
  unfold close1, chan_close. destruct (c_bundles s !! b) as [x|]; [|done]. intros.
  exists x. split; [done|]. destruct (cclosed (b_closed x)); simplify_eq; auto.
Qed.

Lemma close2_spec b s s' :
  close2 b s = Some s' →
  ∃ x, c_bundles s !! b = Some x ∧
    (cclosed (b_msgCh x) = true ∧ s' = set_panic (Some CloseOfClosedBundle) s ∨
     cclosed (b_msgCh x) = false ∧
     s' = on_bundle b (with_msgCh (Chan (cbuf (b_msgCh x)) (ccap (b_msgCh x)) true)) s).
Proof.
  unfold close2, chan_close. destruct (c_bundles s !! b) as [x|]; [|done]. intros.
  exists x. split; [done|]. destruct (cclosed (b_msgCh x)); simplify_eq; auto.
Qed.

Lemma replies_ok_close1 b s s' : replies_ok s → close1 b s = Some s' → replies_ok s'.
Proof.
  intros Hok (x & Hx & [[_ ->]|[_ ->]])%close1_spec; [by apply (replies_ok_ext s)|].
  apply replies_ok_bundle; [done|]. intros y Hy. destruct (Hok _ _ Hy) as [? ? ?]. by split.
Qed.

Lemma replies_ok_close2 b s s' : replies_ok s → close2 b s = Some s' → replies_ok s'.
Proof.
  intros Hok (x & Hx & [[_ ->]|[_ ->]])%close2_spec; [by apply (replies_ok_ext s)|].
  apply replies_ok_bundle; [done|]. intros y Hy. destruct (Hok _ _ Hy) as [? ? ?]. by split.
Qed.

Lemma replies_ok_handle b cmd ch s x :
  replies_ok s → c_sess s = SRange b → c_bundles s !! b = Some x →
  chan_recv (b_cmdCh x) = Received cmd ch → replies_ok (handle_one b cmd ch s).
Proof.
  intros Hok Hsess Hx Hrecv. apply chan_recv_Received in Hrecv as (Hbuf & _ & _).
  unfold handle_one. destruct (HandleCmd _ _ _ _ _) as [[h r]| |]; [|by apply (replies_ok_ext s)..].
  set (s1 := on_bundle b _ _).
  assert (∀ pc, (∀ b', in_hand b' pc =
      match reply_to cmd r with Some (Ok m) => if bool_decide (b = b') then [m] else [] | _ => [] end) →
    replies_ok (set_sess pc s1)) as Hgo.
  { intros pc Hpc b' x' [(-> & y & Hy & ->)|[Hne Hx']]%lookup_on_bundle; simpl.
    - apply lookup_on_bundle in Hy as [(_ & y' & Hy & ->)|[? _]]; [|done]. simpl in Hy. simplify_eq.
      destruct (Hok _ _ Hx) as [H1 H2 H3]. split; simpl; [..|done].
      + by rewrite fmap_app, <-(assoc_L (++)), H1, Hbuf.
      + rewrite Hpc, bool_decide_true, replies_snoc, H2, Hsess by done. simpl. by rewrite app_nil_r.
    - apply lookup_on_bundle in Hx' as [[? _]|[_ Hx']]; [done|]. simpl in Hx'.
      destruct (Hok _ _ Hx') as [H1 H2 H3]. split; [done| |done].
      rewrite Hpc, H2, Hsess, bool_decide_false by done. simpl. by repeat case_match. }
  destruct (reply_to cmd r) as [[m|e]|]; [|eapply replies_ok_ext; [|done..]|]; by apply Hgo.
Qed.

Lemma replies_ok_send b m c s s' :
  replies_ok s → c_sess s = SSend b m → session_send b m c s = Some s' → replies_ok s'.
Proof.
  intros Hok Hsess Hstep. unfold session_send in Hstep.
  destruct (c_bundles s !! b) as [x|] eqn:Hx; [|done].
  assert (∀ pc ok (f : bundle → bundle), (∀ b', in_hand b' pc = []) →
    (∀ y, b_sent (f y) = b_sent y ∧ b_handled (f y) = b_handled y ∧ b_replied (f y) = b_replied y ∧
       cbuf (b_cmdCh (f y)) = cbuf (b_cmdCh y) ∧ cclosed (b_closed (f y)) = cclosed (b_closed y)) →
    (ok = true ∨ cclosed (b_closed x) = true ∨ c_done s = true) →
    replies_ok (set_sess pc (on_bundle b (answered m ok) (on_bundle b f s)))) as Hgo.
  { intros pc ok f Hpc Hf Hwhy b' x' [(-> & y & Hy & ->)|[Hne Hx']]%lookup_on_bundle; simpl.
    - apply lookup_on_bundle in Hy as [(_ & y' & Hy & ->)|[? _]]; [|done]. simplify_eq.
      destruct (Hf x) as (F1 & F2 & F3 & F4 & F5). destruct (Hok _ _ Hx) as [H1 H2 H3].
      split; simpl; rewrite ?F1, ?F2, ?F3, ?F4, ?F5; [done|..].
      + rewrite Hpc, H2, Hsess, fmap_app, app_nil_r. simpl. by rewrite bool_decide_true.
      + intros Hc Hd. apply Forall_app. split; [by apply H3|]. constructor; [|done]. simpl.
        destruct Hwhy as [?|[?|?]]; congruence.
    - apply lookup_on_bundle in Hx' as [[? _]|[_ Hx']]; [done|].
      destruct (Hok _ _ Hx') as [H1 H2 H3]. split; [done| |done].
      rewrite Hpc, H2, Hsess. simpl. by rewrite bool_decide_false. }
  assert (∀ g, on_bundle b g (on_bundle b id s) = on_bundle b g s) as Hid.
  { intros g. unfold on_bundle, set_bundles. simpl. f_equal. f_equal. by apply list_alter_id. }
  destruct c.
  - destruct (cclosed (b_closed x)) eqn:Hc; simplify_eq. rewrite <-Hid. apply Hgo; auto.
  - destruct (chan_send m (b_msgCh x)) as [ch| |] eqn:Hs; simplify_eq; [|by apply (replies_ok_ext s)].
    apply Hgo; auto.
  - destruct (c_done s) eqn:Hd; simplify_eq. rewrite <-Hid.
    eapply replies_ok_ext; [apply (Hgo (SClose1 b) false id); auto|done..].
Qed.

Lemma replies_ok_session on_done c s s' :
  replies_ok s → session_step on_done c s = Some s' → replies_ok s'.
Proof.
  intros Hok Hstep. unfold session_step in Hstep.
  destruct (c_sess s) as [| |b|b|b m|b|b|] eqn:Hsess; [| | | | |..|done].
  - simplify_eq. apply replies_ok_move; [done|]. by rewrite Hsess.
  - split_step Hstep; apply replies_ok_move; simpl; try (by rewrite Hsess); [done|by apply (replies_ok_ext s)|done].
  - simplify_eq. apply replies_ok_move; simpl; [by apply (replies_ok_ext s)|by rewrite Hsess].
  - destruct (c_bundles s !! b) as [x|] eqn:Hx; [|done].
    destruct (chan_recv (b_cmdCh x)) eqn:Hr; simplify_eq; [by eapply replies_ok_handle|].
    apply replies_ok_move; [done|by rewrite Hsess].
  - by eapply replies_ok_send.
  - destruct (close1 b s) as [s1|] eqn:Hc; simplify_eq/=. apply replies_ok_move; [by eapply replies_ok_close1|].
    apply close1_spec in Hc as (x & _ & [[_ ->]|[_ ->]]); simpl; by rewrite Hsess.
  - destruct (close2 b s) as [s1|] eqn:Hc; simplify_eq/=. apply replies_ok_move; [by eapply replies_ok_close2|].
    apply close2_spec in Hc as (x & _ & [[_ ->]|[_ ->]]); simpl; by rewrite Hsess.
Qed.

(** ** The lock and the bundles in use *)

Definition sess_bundle (pc : session_pc) : option nat :=
  match pc with
  | SBegin b | SRange b | SSend b _ | SClose1 b | SClose2 b => Some b
  | SNotStarted | SWait | SReturned => None
  end.

Definition call_bundles (pc : call_pc) : list nat :=
  match pc with
  | FSelect b | FSet b | FNew1 b | FNew2 b => [b]
  | FOld1 old b | FOld2 old b => [old; b]
  | FUnlock (Some b) | FReturned (Some b) => [b]
  | _ => []
  end.

(** The call is between Lock and Unlock. *)
Definition in_section (pc : call_pc) : bool :=
  match pc with FLock | FReturned _ | KLock | KReturned => false | _ => true end.

Record ctl_wf (s : controller) : Prop := {
  cw_sess b : sess_bundle (c_sess s) = Some b → (b < length (c_bundles s))%nat;
  cw_refreshed b : b ∈ cbuf (c_refreshed s) → (b < length (c_bundles s))%nat;
  cw_current b : c_current s = Some b → (b < length (c_bundles s))%nat;
  cw_calls c pc b : c_calls s !! c = Some pc → b ∈ call_bundles pc → (b < length (c_bundles s))%nat;
  cw_mu c pc : c_calls s !! c = Some pc → in_section pc = bool_decide (c_mu s = Some c);
  cw_open : cclosed (c_refreshed s) = c_closed s;
  cw_select c b : c_calls s !! c = Some (FSelect b) → c_closed s = false;
  cw_panic : c_panic s ≠ Some SendOnClosedRefreshed ∧ c_panic s ≠ Some CloseOfClosedRefreshed;
  cw_holder c : c_mu s = Some c → c_calls s !! c ≠ None;
}.

Lemma ctl_wf_new h : ctl_wf (NewController h).
Proof. split; simpl; intros; simplify_map_eq; try done; set_solver. Qed.

(** Only the bundles' contents change, or the process dies of something else. *)
Lemma ctl_wf_ext s s' :
  ctl_wf s → length (c_bundles s') = length (c_bundles s) → c_refreshed s' = c_refreshed s →
  c_current s' = c_current s → c_calls s' = c_calls s → c_mu s' = c_mu s → c_closed s' = c_closed s →
  (c_panic s' = c_panic s ∨ ∃ p, c_panic s' = Some p ∧ p ≠ SendOnClosedRefreshed ∧ p ≠ CloseOfClosedRefreshed) →
  (∀ b, sess_bundle (c_sess s') = Some b → (b < length (c_bundles s))%nat) → ctl_wf s'.
Proof.
  intros [W1 W2 W3 W4 W5 W6 W7 W8 W9] H1 H2 H3 H4 H5 H6 H7 H8.
  split; rewrite ?H1, ?H2, ?H3, ?H4, ?H5, ?H6; try done.
  destruct H7 as [->|(p & -> & ? & ?)]; [done|]. split; congruence.
Qed.

Lemma on_bundle_length b f s : length (c_bundles (on_bundle b f s)) = length (c_bundles s).
Proof. apply length_alter. Qed.

Lemma close_frame b s s' :
  close1 b s = Some s' ∨ close2 b s = Some s' →
  length (c_bundles s') = length (c_bundles s) ∧ c_refreshed s' = c_refreshed s ∧
  c_current s' = c_current s ∧ c_calls s' = c_calls s ∧ c_mu s' = c_mu s ∧ c_closed s' = c_closed s ∧
  c_sess s' = c_sess s ∧ c_done s' = c_done s ∧ c_failed s' = c_failed s ∧
  (c_panic s' = c_panic s ∨ c_panic s' = Some CloseOfClosedBundle).
Proof.
  intros [(x & Hx & [[_ ->]|[_ ->]])%close1_spec|(x & Hx & [[_ ->]|[_ ->]])%close2_spec];
    rewrite ?on_bundle_length; simpl; rewrite ?length_alter; auto 20.
Qed.

Lemma ctl_wf_close b s s' : ctl_wf s → close1 b s = Some s' ∨ close2 b s = Some s' → ctl_wf s'.
Proof.
  intros Hwf (H1 & H2 & H3 & H4 & H5 & H6 & H7 & _ & _ & Hp)%close_frame.
  apply (ctl_wf_ext s); try done.
  - destruct Hp as [->|Hp]; [by left|right]. exists CloseOfClosedBundle. by rewrite Hp.
  - rewrite H7. apply (cw_sess _ Hwf).
Qed.

Ltac wf_ext s Hwf :=
  apply (ctl_wf_ext s); simpl; rewrite ?length_alter; auto; try done; try apply (cw_sess _ Hwf).

Lemma ctl_wf_session on_done c s s' : ctl_wf s → session_step on_done c s = Some s' → ctl_wf s'.
Proof.
  intros Hwf Hstep. unfold session_step in Hstep. pose proof (cw_sess _ Hwf) as Hb.
  destruct (c_sess s) as [| |b|b|b m|b|b|] eqn:Hsess; try done.
  - simplify_eq. wf_ext s Hwf.
  - split_step Hstep; [by wf_ext s Hwf| |by wf_ext s Hwf]. chan_facts. destruct Hwf as [W1 W2 W3 W4 W5 W6 W7 W8 W9].
    split; simpl; try done; [intros b [= <-]; apply W2|intros b Hin; apply W2|congruence];
      rewrite H0; set_solver.
  - simplify_eq. wf_ext s Hwf.
  - split_step Hstep; [|by wf_ext s Hwf]. unfold handle_one.
    destruct (HandleCmd _ _ _ _ _) as [[h r]| |]; [|wf_ext s Hwf; eauto 10..].
    destruct (reply_to _ r) as [[]|]; wf_ext s Hwf.
  - unfold session_send in Hstep. split_step Hstep; wf_ext s Hwf; eauto 10.
  - destruct (close1 b s) as [s1|] eqn:Hc; simplify_eq/=.
    pose proof (ctl_wf_close b s s1 Hwf (or_introl Hc)) as Hwf1. apply (ctl_wf_ext s1); simpl; auto.
    destruct (close_frame b s s1 (or_introl Hc)) as [-> _]. done.
  - destruct (close2 b s) as [s1|] eqn:Hc; simplify_eq/=.
    pose proof (ctl_wf_close b s s1 Hwf (or_intror Hc)) as Hwf1. by apply (ctl_wf_ext s1); simpl; auto.
Qed.

(** A call moves on with the lock as it was. *)
Lemma ctl_wf_call_move c pc pc' s :
  ctl_wf s → c_calls s !! c = Some pc → in_section pc' = in_section pc →
  (∀ b, b ∈ call_bundles pc' → (b < length (c_bundles s))%nat) →
  (∀ b, pc' = FSelect b → c_closed s = false) → ctl_wf (set_call c pc' s).
Proof.
  intros [W1 W2 W3 W4 W5 W6 W7 W8 W9] Hc Hin Hb Hsel. split; simpl; try done.
  - intros c' pc0 b. rewrite lookup_insert. case_decide; [intros [= <-]; apply Hb|apply W4].
  - intros c' pc0. rewrite lookup_insert. case_decide; [|apply W5]. intros [= <-]. subst.
    rewrite Hin. by apply W5.
  - intros c' b. rewrite lookup_insert. case_decide; [intros [= ->]; eauto|apply W7].
  - intros c' Hc'. rewrite lookup_insert. case_decide; [done|by apply W9].
Qed.

(** Lock and Unlock. *)
Lemma ctl_wf_lock c pc pc' s :
  ctl_wf s → c_calls s !! c = Some pc → c_mu s = None → in_section pc' = true → call_bundles pc' = [] →
  (∀ b, pc' ≠ FSelect b) → ctl_wf (set_mu (Some c) (set_call c pc' s)).
Proof.
  intros [W1 W2 W3 W4 W5 W6 W7 W8 W9] Hc Hmu Hin Hb Hsel. split; simpl; try done.
  - intros c' pc0 b. rewrite lookup_insert. case_decide; [intros [= <-]; rewrite Hb; set_solver|apply W4].
  - intros c' pc0. rewrite lookup_insert. case_decide.
    + intros [= <-]. subst. by rewrite bool_decide_true.
    + intros Hp. rewrite (W5 _ _ Hp), Hmu, !bool_decide_false; congruence.
  - intros c' b. rewrite lookup_insert. case_decide; [intros [= ->]; by destruct (Hsel b)|apply W7].
  - intros c' [= <-]. by rewrite lookup_insert_eq.
Qed.

Lemma ctl_wf_unlock c pc pc' s :
  ctl_wf s → c_calls s !! c = Some pc → in_section pc = true → in_section pc' = false →
  (∀ b, b ∈ call_bundles pc' → (b < length (c_bundles s))%nat) →
  (∀ b, pc' ≠ FSelect b) → ctl_wf (set_mu None (set_call c pc' s)).
Proof.
  intros [W1 W2 W3 W4 W5 W6 W7 W8 W9] Hc Hold Hin Hb Hsel.
  assert (c_mu s = Some c) as Hmu.
  { specialize (W5 _ _ Hc). rewrite Hold in W5. symmetry in W5. by apply bool_decide_eq_true in W5. }
  split; simpl; try done.
  - intros c' pc0 b. rewrite lookup_insert. case_decide; [intros [= <-]; apply Hb|apply W4].
  - intros c' pc0. rewrite lookup_insert. case_decide.
    + intros [= <-]. by subst.
    + intros Hp. rewrite (W5 _ _ Hp), Hmu, !bool_decide_false; congruence.
  - intros c' b. rewrite lookup_insert. case_decide; [intros [= ->]; by destruct (Hsel b)|apply W7].
Qed.

(** The only call that is between Lock and Unlock. *)
Lemma section_unique s c c' pc pc' :
  ctl_wf s → c_calls s !! c = Some pc → c_calls s !! c' = Some pc' →
  in_section pc = true → in_section pc' = true → c = c'.
Proof.
  intros Hwf H1 H2 I1 I2. pose proof (cw_mu _ Hwf _ _ H1) as M1. pose proof (cw_mu _ Hwf _ _ H2) as M2.
  rewrite I1 in M1. rewrite I2 in M2. symmetry in M1, M2. apply bool_decide_eq_true in M1, M2. congruence.
Qed.

Lemma ctl_wf_grow x s : ctl_wf s → ctl_wf (set_bundles (c_bundles s ++ [x]) s).
Proof.
  intros [W1 W2 W3 W4 W5 W6 W7 W8 W9]. split; simpl; rewrite ?length_app; simpl; try done.
  - intros b ?%W1. lia.
  - intros b ?%W2. lia.
  - intros b ?%W3. lia.
  - intros c pc b Hc ?%(W4 _ _ _ Hc). lia.
Qed.

Lemma ctl_wf_set_refreshed ch s :
  ctl_wf s → cclosed ch = c_closed s → (∀ b, b ∈ cbuf ch → (b < length (c_bundles s))%nat) →
  ctl_wf (set_refreshed ch s).
Proof. intros [W1 W2 W3 W4 W5 W6 W7 W8 W9] Hc Hb. split; simpl; done. Qed.

(** A call closes a channel of a bundle it holds. *)
Lemma ctl_wf_call_close c pc pc' b s s' :
  ctl_wf s → c_calls s !! c = Some pc → close1 b s = Some s' ∨ close2 b s = Some s' →
  in_section pc' = in_section pc → (∀ b, b ∈ call_bundles pc' → b ∈ call_bundles pc) →
  (∀ b, pc' ≠ FSelect b) → ctl_wf (set_call c pc' s').
Proof.
  intros Hwf Hc Hcl Hin Hsub Hns. destruct (close_frame _ _ _ Hcl) as (L & _ & _ & Hcalls & _).
  apply (ctl_wf_call_move c pc); [by eapply ctl_wf_close|by rewrite Hcalls|done| |].
  - intros b' Hb'%Hsub. rewrite L. by eapply cw_calls.
  - intros b' ->. by destruct (Hns b').
Qed.

Lemma ctl_wf_call c on_done s s' : ctl_wf s → call_step c on_done s = Some s' → ctl_wf s'.
Proof.
  intros Hwf Hstep. unfold call_step in Hstep.
  destruct (c_calls s !! c) as [pc|] eqn:Hc; [|done]. pose proof (λ b, cw_calls _ Hwf c pc b Hc) as Hb.
  destruct pc as [| |b|old b|old b|b|b|b|ret|ret| | | |]; try done.
  - destruct (c_mu s) eqn:Hmu; simplify_eq. by apply (ctl_wf_lock c FLock).
  - simplify_eq. apply (ctl_wf_call_move c FEnter); [by apply ctl_wf_grow|done|by destruct (c_closed s)|..].
    + simpl. intros b' Hb'. assert (b' = length (c_bundles s)) as ->.
      { destruct (c_closed s); by apply list_elem_of_singleton in Hb'. }
      rewrite length_app. simpl. lia.
    + simpl. intros b'. by destruct (c_closed s).
  - pose proof (cw_select _ Hwf _ _ Hc) as Hop. pose proof (cw_open _ Hwf) as Hop'. split_step Hstep.
    + apply (ctl_wf_call_move c (FSelect b)); try done; simpl; set_solver.
    + chan_facts. rewrite Hop in Hop'. apply (ctl_wf_call_move c (FSelect b)).
      * apply ctl_wf_set_refreshed; [done|congruence|]. intros b' Hb'. rewrite H3 in Hb'.
        apply elem_of_app in Hb' as [?|?]; [by apply (cw_refreshed _ Hwf)|auto].
      * done.
      * by destruct (c_current s).
      * simpl. intros b' Hb'. destruct (c_current s) as [old|] eqn:Hcur; simpl in Hb'; [|auto].
        apply elem_of_cons in Hb' as [->|?]; [by apply (cw_current _ Hwf)|auto].
      * intros b'. by destruct (c_current s).
    + exfalso. by apply (chan_send_open b (c_refreshed s)); [congruence|].
  - destruct (close1 old s) as [s1|] eqn:Hcl; simplify_eq/=. eapply ctl_wf_call_close; eauto.
  - destruct (close2 old s) as [s1|] eqn:Hcl; simplify_eq/=. eapply ctl_wf_call_close; eauto. set_solver.
  - simplify_eq. apply (ctl_wf_call_move c (FSet b)); simpl; try done.
    destruct Hwf as [W1 W2 W3 W4 W5 W6 W7 W8 W9]. split; simpl; try done. intros b' [= <-]. apply Hb. set_solver.
  - destruct (close1 b s) as [s1|] eqn:Hcl; simplify_eq/=. eapply ctl_wf_call_close; eauto.
  - destruct (close2 b s) as [s1|] eqn:Hcl; simplify_eq/=. eapply ctl_wf_call_close; eauto.
  - simplify_eq. by apply (ctl_wf_unlock c (FUnlock ret)).
  - destruct (c_mu s) eqn:Hmu; simplify_eq. by apply (ctl_wf_lock c KLock).
  - pose proof (cw_open _ Hwf) as Hop. split_step Hstep.
    + apply (ctl_wf_call_move c KBody); try done; simpl; set_solver.
    + chan_facts. apply (ctl_wf_call_move c KBody); try done.
      assert (∀ c' b, c_calls s !! c' = Some (FSelect b) → False) as Hno.
      { intros c' b Hc'. assert (c = c') as <- by (by eapply section_unique). congruence. }
      destruct Hwf as [W1 W2 W3 W4 W5 W6 W7 W8 W9]. split; simpl; try done.
      * intros b Hin. apply W2. congruence.
      * intros c' b Hc'. by destruct (Hno c' b).
    + unfold chan_close in *. by case_match; [congruence|].
  - simplify_eq. by apply (ctl_wf_unlock c KUnlock).
Qed.

(** A new call starts. *)
Lemma ctl_wf_new_call c pc s :
  ctl_wf s → c_calls s !! c = None → in_section pc = false → call_bundles pc = [] →
  (∀ b, pc ≠ FSelect b) → ctl_wf (set_call c pc s).
Proof.
  intros [W1 W2 W3 W4 W5 W6 W7 W8 W9] Hc Hin Hb Hsel. split; simpl; try done.
  - intros c' pc0 b. rewrite lookup_insert. case_decide; [intros [= <-]; rewrite Hb; set_solver|apply W4].
  - intros c' pc0. rewrite lookup_insert. case_decide; [|apply W5]. intros [= <-]. subst.
    rewrite Hin, bool_decide_false; [done|]. intros Hmu. by apply W9 in Hmu.
  - intros c' b. rewrite lookup_insert. case_decide; [intros [= ->]; by destruct (Hsel b)|apply W7].
  - intros c' Hc'. rewrite lookup_insert. case_decide; [done|by apply W9].
Qed.

Lemma ctl_wf_step s e s' : ctl_wf s → ctl_step s e = Some s' → ctl_wf s'.
Proof.
  intros Hwf Hstep. unfold ctl_step in Hstep. destruct (c_panic s) eqn:Hp; [done|].
  destruct e as [od c|c|c|c od|a m|a c|b cmd|b|b|]; simpl in Hstep.
  - by eapply ctl_wf_session.
  - split_step Hstep. by apply ctl_wf_new_call.
  - split_step Hstep. by apply ctl_wf_new_call.
  - by eapply ctl_wf_call.
  - split_step Hstep. by wf_ext s Hwf.
  - unfold async_step in Hstep. split_step Hstep; wf_ext s Hwf; eauto 10.
  - split_step Hstep. by wf_ext s Hwf.
  - split_step Hstep. by wf_ext s Hwf.
  - split_step Hstep. by wf_ext s Hwf.
  - simplify_eq. by wf_ext s Hwf.
Qed.

Lemma ctl_wf_reachable h s : reachable ctl_step (eq (NewController h)) s → ctl_wf s.
Proof. apply invariant_reachable. split; [intros ? <-; apply ctl_wf_new|apply ctl_wf_step]. Qed.

(** ** Replies, in any interleaving *)

Lemma replies_ok_new s :
  ctl_wf s → replies_ok s → replies_ok (set_bundles (c_bundles s ++ [newChannelBundle]) s).
Proof.
  intros Hwf Hok b x. simpl. intros [Hx|[Hl Hx]]%lookup_app_Some; [by apply Hok|].
  apply list_lookup_singleton_Some in Hx as [Hz <-]. split; simpl; [done| |done].
  unfold in_hand. destruct (c_sess s) as [| | | |b' m| | |] eqn:Hs; try done.
  rewrite bool_decide_false; [done|]. intros ->.
  assert (b < length (c_bundles s))%nat by (apply (cw_sess _ Hwf); by rewrite Hs). lia.
Qed.

Lemma replies_ok_call c on_done s s' :
  ctl_wf s → replies_ok s → call_step c on_done s = Some s' → replies_ok s'.
Proof.
  intros Hwf Hok Hstep. unfold call_step in Hstep.
  destruct (c_calls s !! c) as [pc|] eqn:Hc; [|done].
  assert (∀ pc' s1, replies_ok s1 → replies_ok (set_call c pc' s1)) as Hset
    by (intros; by eapply replies_ok_ext).
  destruct pc as [| |b|old b|old b|b|b|b|ret|ret| | | |]; try done.
  2: { simplify_eq. apply Hset. by apply replies_ok_new. }
  3,6: destruct (close1 _ s) as [s1|] eqn:Hcl; simplify_eq/=; apply Hset; by eapply replies_ok_close1.
  3,5: destruct (close2 _ s) as [s1|] eqn:Hcl; simplify_eq/=; apply Hset; by eapply replies_ok_close2.
  all: split_step Hstep; by apply (replies_ok_ext s).
Qed.

Lemma replies_ok_step s e s' : ctl_wf s → replies_ok s → ctl_step s e = Some s' → replies_ok s'.
Proof.
  intros Hwf Hok Hstep. unfold ctl_step in Hstep. destruct (c_panic s) eqn:Hp; [done|].
  destruct e as [od c|c|c|c od|a m|a c|b cmd|b|b|]; simpl in Hstep.
  - by eapply replies_ok_session.
  - split_step Hstep. by apply (replies_ok_ext s).
  - split_step Hstep. by apply (replies_ok_ext s).
  - by eapply replies_ok_call.
  - split_step Hstep. by apply (replies_ok_ext s).
  - unfold async_step in Hstep. split_step Hstep; try by apply (replies_ok_ext s).
    apply replies_ok_bundle; [by apply (replies_ok_ext s)|]. simpl. intros y Hy.
    destruct (Hok _ _ Hy) as [? ? ?]. by split.
  - split_step Hstep. chan_facts. intros b' x [(-> & y & Hy & ->)|[Hne Hx]]%lookup_on_bundle.
    + apply lookup_on_bundle in Hy as [(_ & y' & Hy & ->)|[? _]]; [|done]. simplify_eq.
      destruct (Hok _ _ E) as [Hq1 Hq2 Hq3]. split; simpl; [|done|done]. rewrite Hq1.
      match goal with Hbuf : cbuf _ = _ ++ _ |- _ => rewrite Hbuf end. by rewrite (assoc_L (++)).
    + apply lookup_on_bundle in Hx as [[? _]|[_ Hx]]; [done|]. by apply Hok.
  - split_step Hstep. chan_facts. apply replies_ok_bundle; [done|]. intros y Hy. simplify_eq.
    destruct (Hok _ _ E) as [? ? ?]. split; simpl; [congruence|done|done].
  - split_step Hstep. chan_facts. apply replies_ok_bundle; [done|]. intros y Hy. simplify_eq.
    destruct (Hok _ _ E) as [? ? ?]. split; simpl; done.
  - simplify_eq. intros b x Hx. destruct (Hok b x Hx) as [? ? ?]. by split.
Qed.

Lemma replies_ok_reachable h s : reachable ctl_step (eq (NewController h)) s → replies_ok s.
Proof.
  intros Hr. assert (ctl_wf s ∧ replies_ok s) as [_ ?]; [|done]. revert Hr.
  apply (invariant_reachable ctl_step _ (λ s, ctl_wf s ∧ replies_ok s)). split.
  - intros ? <-. split; [apply ctl_wf_new|]. intros b x Hx. done.
  - intros s0 e s1 [? ?] ?. eauto using ctl_wf_step, replies_ok_step.
Qed.

(** C13. Commands are handled in order and answered in order.  On every connection, in every
    interleaving: the commands handled so far are those the client put in, in order and each
    exactly once, up to the one still in the channel; the replies sent or given up, with the one
    in hand, are the replies of the handled commands in the same order, each carrying the id of
    its command and its sequence number as acknowledgement; and none is given up while the
    connection's bundle is open and the context is not done. *)
Theorem controller_answers_in_order h s b x :
  reachable ctl_step (eq (NewController h)) s → c_bundles s !! b = Some x →
  b_sent x = (b_handled x).*1 ++ cbuf (b_cmdCh x) ∧
  replies (b_handled x) = (b_replied x).*1 ++ in_hand b (c_sess s) ∧
  (∀ m, m ∈ (b_replied x).*1 → ∃ cmd r, (cmd, r) ∈ b_handled x ∧ reply_to cmd r = Some (Ok m) ∧
     msg_Id m = cmd_Id cmd ∧ msg_Ack m = cmd_Seq cmd) ∧
  (cclosed (b_closed x) = false → c_done s = false → Forall (λ p, p.2 = true) (b_replied x)).
Proof.
  intros Hr Hx. destruct (replies_ok_reachable _ _ Hr _ _ Hx) as [H1 H2 H3]. split_and!; [done|done| |done].
  intros m Hm. assert (m ∈ replies (b_handled x)) as Hin by (rewrite H2; set_solver).
  unfold replies in Hin. apply list_elem_of_omap in Hin as ([cmd r] & Hin & Hrep). simpl in Hrep.
  exists cmd, r. destruct (reply_to cmd r) as [[m'|]|] eqn:E; simplify_eq. split_and!; [done|done|..];
    unfold reply_to in E; repeat case_match; simplify_eq;
    by match goal with Hn : NewMsg _ _ _ _ _ = Ok _ |- _ => apply NewMsg_Ok in Hn as (_ & ? & ? & _) end.
Qed.

(** The controller's lock works.  In every interleaving of any number of [RefreshChannels] and
    [Close] calls, at most one of them is between Lock and Unlock, and none ever sends a bundle
    on the closed [chRefreshed] or closes it twice. *)
Theorem controller_lock_safe h s :
  reachable ctl_step (eq (NewController h)) s →
  (∀ c c' pc pc', c_calls s !! c = Some pc → c_calls s !! c' = Some pc' →
     in_section pc = true → in_section pc' = true → c = c') ∧
  c_panic s ≠ Some SendOnClosedRefreshed ∧ c_panic s ≠ Some CloseOfClosedRefreshed ∧
  (∀ c b, c_calls s !! c = Some (FSelect b) → cclosed (c_refreshed s) = false).
Proof.
  intros Hwf%ctl_wf_reachable. split_and!; [|apply (cw_panic _ Hwf)..|].
  - intros c c' pc pc'. by apply section_unique.
  - intros c b Hc. rewrite (cw_open _ Hwf). by apply (cw_select _ Hwf c b).
Qed.

(** ** One open bundle *)

Definition closed1 (s : controller) (b : nat) : Prop :=
  ∃ x, c_bundles s !! b = Some x ∧ cclosed (b_closed x) = true.
Definition closed2 (s : controller) (b : nat) : Prop :=
  ∃ x, c_bundles s !! b = Some x ∧ cclosed (b_msgCh x) = true.

(** Nothing reopens a channel. *)
Definition more_closed (s s' : controller) : Prop :=
  ∀ b x, c_bundles s !! b = Some x → ∃ x', c_bundles s' !! b = Some x' ∧
    (cclosed (b_closed x) = true → cclosed (b_closed x') = true) ∧
    (cclosed (b_msgCh x) = true → cclosed (b_msgCh x') = true).

Lemma more_closed_refl s s' : c_bundles s' = c_bundles s → more_closed s s'.
Proof. intros Heq b x Hx. exists x. by rewrite Heq. Qed.

Lemma more_closed_trans s1 s2 s3 : more_closed s1 s2 → more_closed s2 s3 → more_closed s1 s3.
Proof.
  intros H12 H23 b x Hx. destruct (H12 _ _ Hx) as (y & Hy & ? & ?).
  destruct (H23 _ _ Hy) as (z & Hz & ? & ?). exists z. auto.
Qed.

Lemma more_closed_bundle b f s x :
  c_bundles s !! b = Some x →
  (cclosed (b_closed x) = true → cclosed (b_closed (f x)) = true) →
  (cclosed (b_msgCh x) = true → cclosed (b_msgCh (f x)) = true) → more_closed s (on_bundle b f s).
Proof.
  intros Hx H1 H2 b' y Hy. simpl. destruct (decide (b = b')) as [<-|Hne].
  - simplify_eq. exists (f x). by rewrite list_lookup_alter_eq, Hx.
  - exists y. by rewrite list_lookup_alter_ne.
Qed.

Lemma more_closed_closed s s' b :
  more_closed s s' → (closed1 s b → closed1 s' b) ∧ (closed2 s b → closed2 s' b).
Proof.
  intros Hm. split; intros (x & Hx & Hc); destruct (Hm _ _ Hx) as (x' & Hx' & ? & ?); exists x'; auto.
Qed.

Lemma close1_closed b s s' : close1 b s = Some s' → more_closed s s' ∧ closed1 s' b.
Proof.
  intros (x & Hx & [[Hc ->]|[Hc ->]])%close1_spec.
  - split; [by apply more_closed_refl|]. by exists x.
  - split; [by eapply more_closed_bundle|]. eexists. simpl. by rewrite list_lookup_alter_eq, Hx.
Qed.

Lemma close2_closed b s s' : close2 b s = Some s' → more_closed s s' ∧ closed2 s' b.
Proof.
  intros (x & Hx & [[Hc ->]|[Hc ->]])%close2_spec.
  - split; [by apply more_closed_refl|]. by exists x.
  - split; [by eapply more_closed_bundle|]. eexists. simpl. by rewrite list_lookup_alter_eq, Hx.
Qed.

Lemma session_more_closed on_done c s s' :
  session_step on_done c s = Some s' →
  more_closed s s' ∧ c_calls s' = c_calls s ∧ c_current s' = c_current s.
Proof.
  intros Hstep. unfold session_step in Hstep.
  destruct (c_sess s) as [| |b|b|b m|b|b|] eqn:Hsess; [| | | | |..|done].
  1-3: split_step Hstep; (split; [by apply more_closed_refl|done]).
  - split_step Hstep; [|split; [by apply more_closed_refl|done]]. unfold handle_one.
    destruct (HandleCmd _ _ _ _ _) as [[h r]| |]; [|split; [by apply more_closed_refl|done]..].
    set (s1 := on_bundle b _ _).
    assert (more_closed s s1) as Hm.
    { apply (more_closed_trans _ (on_bundle b (with_cmdCh c0) (set_handler h s))).
      - apply (more_closed_trans _ (set_handler h s)); [by apply more_closed_refl|].
        by eapply more_closed_bundle.
      - eapply more_closed_bundle; [simpl; by rewrite list_lookup_alter_eq, E|done|done]. }
    destruct (reply_to _ r) as [[]|]; (split; [|done]);
      by apply (more_closed_trans _ s1); [|apply more_closed_refl].
  - unfold session_send in Hstep. destruct (c_bundles s !! b) as [x|] eqn:Hx; [|done].
    assert (∀ pc ok, more_closed s (set_sess pc (on_bundle b (answered m ok) s))) as Hm.
    { intros pc ok. eapply more_closed_trans; [by apply (more_closed_bundle b (answered m ok) s x)|].
      by apply more_closed_refl. }
    destruct c; split_step Hstep; (split; [|done]); [done| |by apply more_closed_refl|].
    + chan_facts. eapply more_closed_trans; [apply (more_closed_bundle b (with_msgCh c) s x Hx); simpl; congruence|].
      eapply more_closed_trans; [eapply (more_closed_bundle b (answered m true)); [simpl; by rewrite list_lookup_alter_eq, Hx|done|done]|].
      by apply more_closed_refl.
    + eapply more_closed_trans; [apply (Hm (SClose1 b) false)|]. by apply more_closed_refl.
  - destruct (close1 b s) as [s1|] eqn:Hc; simplify_eq/=. split.
    + apply close1_closed in Hc as [? _]. eapply more_closed_trans; [done|]. by apply more_closed_refl.
    + by destruct (close_frame b s s1 (or_introl Hc)) as (_ & _ & ? & ? & _).
  - destruct (close2 b s) as [s1|] eqn:Hc; simplify_eq/=. split.
    + apply close2_closed in Hc as [? _]. eapply more_closed_trans; [done|]. by apply more_closed_refl.
    + by destruct (close_frame b s s1 (or_intror Hc)) as (_ & _ & ? & ? & _).
Qed.

(** What is closed by when, at each place of a call. *)
Definition pc_closed (s : controller) (pc : call_pc) : Prop :=
  match pc with
  | FOld1 old _ => c_current s = Some old
  | FOld2 old _ => c_current s = Some old ∧ closed1 s old
  | FSet _ => ∀ old, c_current s = Some old → closed1 s old ∧ closed2 s old
  | FNew2 b => closed1 s b
  | FUnlock (Some b) | FReturned (Some b) => c_current s = Some b ∨ (closed1 s b ∧ closed2 s b)
  | _ => True
  end.

Definition calls_closed (s : controller) : Prop := ∀ c pc, c_calls s !! c = Some pc → pc_closed s pc.

Lemma pc_closed_mono s s' pc :
  more_closed s s' → c_current s' = c_current s → pc_closed s pc → pc_closed s' pc.
Proof.
  intros Hm Hc. pose proof (λ b, proj1 (more_closed_closed s s' b Hm)) as M1.
  pose proof (λ b, proj2 (more_closed_closed s s' b Hm)) as M2.
  unfold pc_closed.
  destruct pc as [| | |old b|old b|b|b|b|[b|]|[b|]| | | |]; rewrite ?Hc; try done.
  - intros [? ?]. auto.
  - intros Hs old' Ho. destruct (Hs old' Ho). auto.
  - auto.
  - intros [?|[? ?]]; auto.
  - intros [?|[? ?]]; auto.
Qed.

(** A call moves to a place whose condition holds; nothing else changes but for more closing. *)
Lemma calls_closed_move c pc' s s1 :
  calls_closed s → more_closed s s1 → c_current s1 = c_current s → c_calls s1 = c_calls s →
  pc_closed s1 pc' → calls_closed (set_call c pc' s1).
Proof.
  intros Hall Hm Hcur Hcalls Hpc c' pc. simpl. rewrite lookup_insert, Hcalls.
  assert (more_closed s1 (set_call c pc' s1)) as Hm1 by (by apply more_closed_refl).
  case_decide; [intros [= <-]; by apply (pc_closed_mono s1)|].
  intros Hp%Hall. apply (pc_closed_mono s); [by eapply more_closed_trans|done|done].
Qed.

Lemma calls_closed_ext s s' :
  calls_closed s → c_calls s' = c_calls s → c_current s' = c_current s → c_bundles s' = c_bundles s →
  calls_closed s'.
Proof.
  intros Hall Hc Hcur Hb c pc. rewrite Hc. intros Hp%Hall.
  eapply pc_closed_mono; [by apply more_closed_refl|done|done].
Qed.

Lemma calls_closed_call c on_done s s' :
  ctl_wf s → calls_closed s → call_step c on_done s = Some s' → calls_closed s'.
Proof.
  intros Hwf Hall Hstep. unfold call_step in Hstep.
  destruct (c_calls s !! c) as [pc|] eqn:Hc; [|done]. pose proof (Hall _ _ Hc) as Hpc.
  assert (∀ pc' s1 s2, pc_closed s pc' → c_bundles s1 = c_bundles s → c_current s1 = c_current s →
    c_calls s1 = c_calls s → s2 = set_call c pc' s1 → calls_closed s2) as Hmove.
  { intros pc' s1 s2 Hp Hb Hcur Hcalls ->. assert (more_closed s s1) by (by apply more_closed_refl).
    eapply calls_closed_move; eauto using pc_closed_mono. }
  destruct pc as [| |b|old b|old b|b|b|b|ret|ret| | | |]; simpl in Hpc; try done.
  - split_step Hstep. eapply (calls_closed_ext); [eapply (Hmove FEnter s); done|done..].
  - simplify_eq. eapply calls_closed_move; [done| |done|done|by destruct (c_closed s)].
    intros b x Hx. exists x. simpl. by rewrite (lookup_app_l_Some _ _ _ _ Hx).
  - split_step Hstep; [by eapply (Hmove (FUnlock None) s)| |].
    + eapply (Hmove _ (set_refreshed _ s)); [|done..]. by destruct (c_current s) eqn:?; simpl; try congruence.
    + by apply (calls_closed_ext s).
  - destruct (close1 old s) as [s1|] eqn:Hcl; simplify_eq/=.
    destruct (close_frame old s s1 (or_introl Hcl)) as (_ & _ & F1 & F2 & _).
    apply close1_closed in Hcl as [? ?]. eapply calls_closed_move; try done. simpl. by rewrite F1.
  - destruct (close2 old s) as [s1|] eqn:Hcl; simplify_eq/=. destruct Hpc as [Hcur H1].
    destruct (close_frame old s s1 (or_intror Hcl)) as (_ & _ & F1 & F2 & _).
    apply close2_closed in Hcl as [Hm ?]. eapply calls_closed_move; try done. simpl. rewrite F1.
    intros old' ?. simplify_eq. split; [by apply (more_closed_closed s s1)|done].
  - simplify_eq. intros c' pc'. simpl. rewrite lookup_insert. case_decide as Hcc; [intros [= <-]; by left|].
    intros Hc'. specialize (Hall _ _ Hc').
    assert (in_section pc' = false) as Hout.
    { apply not_true_is_false. intros Hin. apply Hcc. by eapply section_unique. }
    destruct pc' as [| | | | | | | |[b'|]|[b'|]| | | |]; simpl in *; try done.
    right. destruct Hall as [Hcur|?]; [by apply Hpc|done].
  - destruct (close1 b s) as [s1|] eqn:Hcl; simplify_eq/=.
    destruct (close_frame b s s1 (or_introl Hcl)) as (_ & _ & F1 & F2 & _).
    apply close1_closed in Hcl as [? ?]. by eapply calls_closed_move.
  - destruct (close2 b s) as [s1|] eqn:Hcl; simplify_eq/=.
    destruct (close_frame b s s1 (or_intror Hcl)) as (_ & _ & F1 & F2 & _).
    apply close2_closed in Hcl as [Hm ?]. eapply calls_closed_move; try done. simpl.
    right. split; [by apply (more_closed_closed s s1)|done].
  - simplify_eq. eapply calls_closed_ext; [by eapply (Hmove (FReturned ret) s)|done..].
  - split_step Hstep. eapply (calls_closed_ext); [eapply (Hmove KBody s); done|done..].
  - split_step Hstep; [by eapply (Hmove KUnlock s)|by eapply (Hmove KUnlock (set_refreshed _ (set_closed true s)))|].
    by apply (calls_closed_ext s).
  - simplify_eq. eapply calls_closed_ext; [by eapply (Hmove KReturned s)|done..].
Qed.

Lemma calls_closed_step s e s' : ctl_wf s → calls_closed s → ctl_step s e = Some s' → calls_closed s'.
Proof.
  intros Hwf Hall Hstep. unfold ctl_step in Hstep. destruct (c_panic s) eqn:Hp; [done|].
  assert (∀ s1, more_closed s s1 → c_calls s1 = c_calls s → c_current s1 = c_current s → calls_closed s1) as Hmove.
  { intros s1 Hm Hcalls Hcur c pc. rewrite Hcalls. intros Hc%Hall. by eapply pc_closed_mono. }
  destruct e as [od c|c|c|c od|a m|a c|b cmd|b|b|]; simpl in Hstep.
  - apply session_more_closed in Hstep as (? & ? & ?). by apply Hmove.
  - split_step Hstep. eapply calls_closed_move; try done. by apply more_closed_refl.
  - split_step Hstep. eapply calls_closed_move; try done. by apply more_closed_refl.
  - by eapply calls_closed_call.
  - split_step Hstep. apply Hmove; [by apply more_closed_refl|done..].
  - unfold async_step in Hstep. split_step Hstep; try (apply Hmove; [by apply more_closed_refl|done..]).
    apply Hmove; [|done..]. chan_facts.
    apply (more_closed_trans _ (set_async (delete a (c_async s)) s)); [by apply more_closed_refl|].
    eapply more_closed_bundle; [done|done|simpl; congruence].
  - split_step Hstep. apply Hmove; [|done..].
    eapply more_closed_trans; [by eapply (more_closed_bundle b (with_cmdCh c) s)|].
    eapply more_closed_bundle; [simpl; by rewrite list_lookup_alter_eq, E|done|done].
  - split_step Hstep. apply Hmove; [|done..]. by eapply more_closed_bundle.
  - split_step Hstep. chan_facts. apply Hmove; [|done..]. eapply more_closed_bundle; [done|done|simpl; congruence].
  - simplify_eq. apply Hmove; [by apply more_closed_refl|done..].
Qed.

(** C27. At most one bundle is open.  Whatever calls of [RefreshChannels] and [Close] run
    concurrently: every pair of channels a [RefreshChannels] call has returned is that of the
    controller's current bundle, or the bundle it belongs to is closed, which is to say that its
    message channel and its [closed] channel are closed: a client that still takes messages from
    an older pair gets to the end of them.  The command channel of the pair is not closed by this: it
    is the client that closes it. *)
Theorem one_open_bundle h s c b x :
  reachable ctl_step (eq (NewController h)) s →
  c_calls s !! c = Some (FReturned (Some b)) → c_bundles s !! b = Some x →
  c_current s = Some b ∨ (cclosed (b_msgCh x) = true ∧ cclosed (b_closed x) = true).
Proof.
  intros Hr Hc Hx. assert (ctl_wf s ∧ calls_closed s) as [_ Hall].
  { revert Hr. apply (invariant_reachable ctl_step _ (λ s, ctl_wf s ∧ calls_closed s)). split.
    - intros ? <-. split; [apply ctl_wf_new|]. intros c0 pc Hc0. simpl in Hc0. by simplify_map_eq.
    - intros s0 e s1 [? ?] ?. eauto using ctl_wf_step, calls_closed_step. }
  destruct (Hall _ _ Hc) as [?|[(y & Hy & H1) (z & Hz & H2)]]; [by left|right]. by simplify_eq.
Qed.
End controller.

(** ** Runs on concrete schedules *)

Module SampleController.

(** Echoes the payload; an empty body cannot be marshalled. *)
#[export] Instance echo_handler : Handler unit bytes nat := {|
  SetMsgSendFunc _ h := h;
  HandleCmd _ _ _ payload h := Return (h, replied 1 payload);
|}.

Definition echo_marshal (b : bytes) : result bytes :=
  match b with [] => Err (errorString "empty") | _ => Ok b end.

Abbreviation step := (ctl_step (H := unit) (λ _, [0]) echo_marshal).
Abbreviation init := (NewController (B := bytes) tt).
Abbreviation reach := (reachable step (eq init)).
Abbreviation state := (controller (H := unit) (B := bytes)).

Definition state_after (es : list ctl_event) : state :=
  match run step init es with Some s => s | None => init end.

Definition a_message : Msg := MkMsg 1 9 9 [7].
Abbreviation go := (ESession false ViaSend).

(** Start; the first connection: RefreshChannels (call 0) and the loop takes its bundle 0. *)
Definition first_connection : list ctl_event :=
  [go; ECallRefresh 0; ECallStep 0 false; ECallStep 0 false; ECallStep 0 false; ECallStep 0 false;
   ECallStep 0 false; go; go].

(** RefreshChannels again (call 1), up to closing the bundle before. *)
Definition reconnect : list ctl_event :=
  [ECallRefresh 1; ECallStep 1 false; ECallStep 1 false; ECallStep 1 false; ECallStep 1 false].

(** A reply cannot be marshalled, the connection ends, and the client reconnects. *)
Definition marshal_schedule : list ctl_event :=
  first_connection ++ [EClientSend 0 (MkCmd 1 1 1 []); go; go; go; EClientClose 0] ++ reconnect.

(** A goroutine of the handler sends a message while the client reconnects. *)
Definition late_send_schedule : list ctl_event :=
  first_connection ++ [EAsyncSend 0 a_message] ++ reconnect ++ [ECallStep 1 false; EAsyncStep 0 ViaSend].

(** Finding.  The controller can take the process down when a client reconnects.  First: after
    a reply that could not be marshalled the loop closes the connection's bundle itself, and the
    next RefreshChannels closes it again.  Second: sendMsg offers its message to a message channel
    that RefreshChannels may have closed; a select that finds both the closed flag and the closed
    channel ready may choose the send. *)
Theorem controller_reconnect_can_panic :
  (∃ s, reachable (ctl_step (λ _, [0]) echo_marshal) (eq init) s ∧ c_panic s = Some CloseOfClosedBundle) ∧
  (∃ s, reachable (ctl_step (λ _, [0]) echo_marshal) (eq init) s ∧ c_panic s = Some SendOnClosedMsgCh).
Proof.
  split.
  - exists (state_after marshal_schedule).
    split; [apply (run_reachable _ _ marshal_schedule)|]; by vm_compute.
  - exists (state_after late_send_schedule).
    split; [apply (run_reachable _ _ late_send_schedule)|]; by vm_compute.
Qed.

(** The loop waits for commands of bundle 0, and has handled none of another. *)
Record wedged (s : state) : Prop := {
  we_sess : c_sess s = SRange 0;
  we_first : ∃ x, c_bundles s !! 0%nat = Some x ∧ cbuf (b_cmdCh x) = [] ∧ cclosed (b_cmdCh x) = false;
  we_others b x : c_bundles s !! b = Some x → b ≠ 0%nat → b_handled x = [];
}.

(** The client does not use bundle 0. *)
Definition not_first (e : ctl_event) : Prop :=
  match e with EClientSend b _ | EClientClose b => b ≠ 0%nat | _ => True end.

Lemma wedged_bundle b f s :
  wedged s → (∀ x, b_handled (f x) = b_handled x) → (b = 0%nat → ∀ x, b_cmdCh (f x) = b_cmdCh x) →
  wedged (on_bundle b f s).
Proof.
  intros [H1 (x & Hx & H2 & H3) H4] Hf Hc. split; simpl; [done|..].
  - destruct (decide (b = 0%nat)) as [->|Hne].
    + exists (f x). rewrite list_lookup_alter_eq, Hx. simpl. by rewrite Hc.
    + exists x. by rewrite list_lookup_alter_ne.
  - intros b' x' [(-> & y & Hy & ->)|[Hne Hx']]%lookup_on_bundle Hb; [rewrite Hf|]; eauto.
Qed.

Lemma wedged_ext s s' : wedged s → c_sess s' = c_sess s → c_bundles s' = c_bundles s → wedged s'.
Proof. intros [H1 H2 H3] E1 E2. split; rewrite ?E1, ?E2; done. Qed.

Lemma wedged_close b s s' : wedged s → close1 b s = Some s' ∨ close2 b s = Some s' → wedged s'.
Proof.
  intros Hw [(x & Hx & [[_ ->]|[_ ->]])%close1_spec|(x & Hx & [[_ ->]|[_ ->]])%close2_spec];
    first [by apply (wedged_ext s) | by apply wedged_bundle].
Qed.

Lemma wedged_call c on_done s s' : wedged s → call_step c on_done s = Some s' → wedged s'.
Proof.
  intros Hw Hstep. unfold call_step in Hstep.
  destruct (c_calls s !! c) as [[| |b|old b|old b|b|b|b|ret|ret| | | |]|]; try done.
  2: { simplify_eq. destruct Hw as [H1 (x & Hx & ?) H4]. split; simpl; [done|..].
       - exists x. by rewrite (lookup_app_l_Some _ _ _ _ Hx).
       - intros b x' [Hx'|[_ Hx']]%lookup_app_Some; [eauto|].
         by apply list_lookup_singleton_Some in Hx' as [_ <-]. }
  3,6: destruct (close1 _ s) as [s1|] eqn:Hcl; simplify_eq/=; apply (wedged_ext s1); [|done..];
    eauto using wedged_close.
  3,5: destruct (close2 _ s) as [s1|] eqn:Hcl; simplify_eq/=; apply (wedged_ext s1); [|done..];
    eauto using wedged_close.
  all: split_step Hstep; by apply (wedged_ext s).
Qed.

Lemma wedged_step s e s' : wedged s → not_first e → step s e = Some s' → wedged s'.
Proof.
  intros Hw Hnf Hstep. unfold ctl_step in Hstep. destruct (c_panic s); [done|].
  destruct e as [od c|c|c|c od|a m|a c|b cmd|b|b|]; simpl in Hstep, Hnf.
  - exfalso. destruct Hw as [H1 (x & Hx & H2 & H3) _]. unfold session_step in Hstep.
    rewrite H1, Hx in Hstep. unfold chan_recv in Hstep. by rewrite H2, H3 in Hstep.
  - split_step Hstep. by apply (wedged_ext s).
  - split_step Hstep. by apply (wedged_ext s).
  - by eapply wedged_call.
  - split_step Hstep. by apply (wedged_ext s).
  - unfold async_step in Hstep. split_step Hstep; try by apply (wedged_ext s).
    apply wedged_bundle; [by apply (wedged_ext s)|done..].
  - split_step Hstep. apply wedged_bundle; [apply wedged_bundle|..]; done.
  - split_step Hstep. by apply wedged_bundle.
  - split_step Hstep. by apply wedged_bundle.
  - simplify_eq. by apply (wedged_ext s).
Qed.

(** C40. Finding.  One failed dial wedges the controller.  The loop leaves a bundle only when its
    command channel is closed, and only ProcessNewStream closes that channel, after it has
    connected.  From the state in which RefreshChannels has returned the first pair of channels
    and the loop has taken it, and for as long as the client does not use that pair (because the
    connection could not be made), no command of any later connection is ever handled, however
    often RefreshChannels is called. *)
Theorem failed_dial_wedges_controller :
  reach (state_after first_connection) ∧
  c_calls (state_after first_connection) !! 0%nat = Some (FReturned (Some 0%nat)) ∧
  ∀ es s, Forall not_first es → run step (state_after first_connection) es = Some s →
    c_sess s = SRange 0 ∧ ∀ b x, c_bundles s !! b = Some x → b ≠ 0%nat → b_handled x = [].
Proof.
  split_and!; [by apply (run_reachable _ _ first_connection); vm_compute|by vm_compute|].
  intros es s Hnf Hrun.
  assert (wedged (state_after first_connection)) as Hw.
  { split; [by vm_compute|eexists; by vm_compute|]. intros [|[|b]] x Hx ?; done. }
  cut (wedged s); [by intros [? _ ?]|]. revert Hw Hrun. generalize (state_after first_connection).
  induction Hnf as [|e es He _ IH]; intros s0 Hw Hrun; simpl in Hrun; [by simplify_eq|].
  destruct (step s0 e) as [s1|] eqn:E; [|done]. eauto using wedged_step.
Qed.

(** One command, answered. *)
Definition answered_schedule : list ctl_event :=
  first_connection ++ [EClientSend 0 (MkCmd 1 5 6 [42]); go; go].

Definition bundle_after (es : list ctl_event) : bundle (B := bytes) :=
  match c_bundles (state_after es) !! 0%nat with Some x => x | None => newChannelBundle end.

Lemma controller_answers_in_order_witness :
  b_sent (bundle_after answered_schedule) =
    (b_handled (bundle_after answered_schedule)).*1 ++ cbuf (b_cmdCh (bundle_after answered_schedule)) ∧
  replies (λ _, [0]) echo_marshal (b_handled (bundle_after answered_schedule)) =
    (b_replied (bundle_after answered_schedule)).*1 ++ in_hand 0 (c_sess (state_after answered_schedule)).
Proof.
  destruct (controller_answers_in_order (λ _, [0]) echo_marshal tt (state_after answered_schedule) 0
    (bundle_after answered_schedule)) as (H1 & H2 & _).
  - apply (run_reachable _ _ answered_schedule). vm_compute. reflexivity.
  - vm_compute. reflexivity.
  - split; [exact H1|exact H2].
Defined.

Lemma controller_lock_safe_witness :
  c_panic (state_after marshal_schedule) ≠ Some SendOnClosedRefreshed.
Proof.
  apply (controller_lock_safe (λ _, [0]) echo_marshal tt (state_after marshal_schedule)).
  apply (run_reachable _ _ marshal_schedule). vm_compute. reflexivity.
Defined.

(** A second connection is made. *)
Definition reconnected : list ctl_event :=
  first_connection ++ reconnect ++ [ECallStep 1 false; ECallStep 1 false; ECallStep 1 false].

Lemma one_open_bundle_witness :
  c_current (state_after reconnected) = Some 0%nat ∨
  (cclosed (b_msgCh (bundle_after reconnected)) = true ∧ cclosed (b_closed (bundle_after reconnected)) = true).
Proof.
  apply (one_open_bundle (λ _, [0]) echo_marshal tt (state_after reconnected) 0).
  - apply (run_reachable _ _ reconnected). vm_compute. reflexivity.
  - vm_compute. reflexivity.
  - vm_compute. reflexivity.
Defined.
End SampleController.
