(* ===== verification/History.v ===== *)
(** * What a handler sees

    The controller's loop is the only caller of its handler, whatever else goes on: the calls of
    SetMsgSendFunc and HandleCmd form one sequence, and the commands that the controller's bundles
    record as handled are those of this sequence.  So what holds of a handler for all sequences of
    calls holds of it behind a controller. *)
From S2P Require Import Prelude GoChan Proto Handler Controller.

Set Default Proof Using "Type".

Section history.
Context {H B : Type} `{handler : !Handler H B nat}.
Context (ErrorMsg : string → B) (marshal : B → result bytes).
Local Abbreviation ctl := (controller (H := H) (B := B)).
Local Abbreviation ctl_step := (ctl_step ErrorMsg marshal).
Implicit Types c : ctl.

(** ** Calls *)

(** A call of the handler that returned; [b] is the bundle the loop serves. *)
Inductive hcall : Type := HSet (b : nat) | HCmd (b : nat) (cmd : Cmd) (r : cmd_result B).

Definition replay1 (k : hcall) (h h' : H) : Prop :=
  match k with
  | HSet b => h' = SetMsgSendFunc b h
  | HCmd _ cmd r => HandleCmd (cmd_Id cmd) (cmd_Seq cmd) (cmd_Kind cmd) (cmd_Payload cmd) h = Return (h', r)
  end.

(** The calls of [tr] take the handler from [h] to [h']. *)
Inductive replay (h : H) : list hcall → H → Prop :=
| replay_nil : replay h [] h
| replay_snoc tr k h1 h2 : replay h tr h1 → replay1 k h1 h2 → replay h (tr ++ [k]) h2.

(** The commands of a bundle among the calls, with their results. *)
Definition of_bundle (b : nat) (k : hcall) : list (Cmd * cmd_result B) :=
  match k with HCmd b' cmd r => if bool_decide (b' = b) then [(cmd, r)] else [] | HSet _ => [] end.

(** What the bundle records as handled. *)
Definition handled_at (c : ctl) (b : nat) : list (Cmd * cmd_result B) := from_option b_handled [] (c_bundles c !! b).

(** The command a step of the controller hands to HandleCmd. *)
Definition takes_cmd (e : ctl_event) (c : ctl) : option (nat * Cmd) :=
  match e, c_sess c with
  | ESession _ _, SRange b =>
      match c_bundles c !! b with
      | Some x => match chan_recv (b_cmdCh x) with Received cmd _ => Some (b, cmd) | _ => None end
      | None => None
      end
  | _, _ => None
  end.

(** The call of the handler that a step makes. *)
Definition call_now (e : ctl_event) (c : ctl) : option hcall :=
  match takes_cmd e c with
  | Some (b, cmd) =>
      match HandleCmd (cmd_Id cmd) (cmd_Seq cmd) (cmd_Kind cmd) (cmd_Payload cmd) (c_handler c) with
      | Return (_, r) => Some (HCmd b cmd r)
      | _ => None
      end
  | None => match e, c_sess c with ESession _ _, SBegin b => Some (HSet b) | _, _ => None end
  end.

(** ** Steps *)

(** Bundles stay, and what they record as handled. *)
Definition kept (c c' : ctl) : Prop :=
  ∀ b, handled_at c' b = handled_at c b ∧ (is_Some (c_bundles c !! b) → is_Some (c_bundles c' !! b)).

Lemma kept_same c c' : c_bundles c' = c_bundles c → kept c c'.
Proof. intros E b. unfold handled_at. by rewrite E. Qed.

Lemma kept_alter b0 f c c' :
  c_bundles c' = alter f b0 (c_bundles c) → (∀ x, b_handled (f x) = b_handled x) → kept c c'.
Proof.
  unfold handled_at. intros E Hf b. unfold handled_at. rewrite E. destruct (decide (b = b0)) as [->|Hne].
  - rewrite list_lookup_alter_eq. destruct (c_bundles c !! b0); simpl; by rewrite ?Hf.
  - by rewrite list_lookup_alter_ne.
Qed.

(** Nothing of the handler changes. *)
Definition quiet (c c' : ctl) : Prop := c_handler c' = c_handler c ∧ kept c c'.

Lemma quiet_close b0 c c1 c' :
  close1 b0 c = Some c1 ∨ close2 b0 c = Some c1 → c_bundles c' = c_bundles c1 → c_handler c' = c_handler c1 → quiet c c'.
Proof.
  intros [(x & _ & [[_ ->]|[_ ->]])%close1_spec|(x & _ & [[_ ->]|[_ ->]])%close2_spec] E1 E2; (split; [done|]).
  1,3: by apply kept_same.
  all: by eapply kept_alter; [exact E1|].
Qed.

(** A step makes the call [k]. *)
Definition makes (k : option hcall) (c c' : ctl) : Prop :=
  match k with None => c_handler c' = c_handler c | Some k => replay1 k (c_handler c) (c_handler c') end ∧
  ∀ b, handled_at c' b = handled_at c b ++ from_option (of_bundle b) [] k ∧
    (is_Some (c_bundles c !! b) → is_Some (c_bundles c' !! b)).

Lemma quiet_makes c c' : quiet c c' → makes None c c'.
Proof. intros [H1 H2]. split; [done|]. intros b. simpl. rewrite app_nil_r. apply H2. Qed.

Lemma handle_one_makes b cmd ch c x k :
  c_bundles c !! b = Some x →
  k = match HandleCmd (cmd_Id cmd) (cmd_Seq cmd) (cmd_Kind cmd) (cmd_Payload cmd) (c_handler c) with
      | Return (_, r) => Some (HCmd b cmd r) | _ => None end →
  makes k c (handle_one ErrorMsg marshal b cmd ch c).
Proof.
  intros Hx ->. unfold handle_one. destruct (HandleCmd _ _ _ _ _) as [[h r]| |] eqn:Hh;
    [|by apply quiet_makes; split; [|apply kept_same]..].
  set (c' := match reply_to _ _ _ _ with Some _ => _ | None => _ end).
  assert (c_handler c' = h ∧ c_bundles c' = alter (λ x, handled cmd r (with_cmdCh ch x)) b (c_bundles c)) as [E1 E2].
  { unfold c'. destruct (reply_to _ _ _ _) as [[]|]; simpl; by rewrite list_alter_alter_eq. }
  clearbody c'. split; [by rewrite E1|]. intros b'. unfold handled_at. rewrite E2. simpl. case_bool_decide as Hb; subst.
  - by rewrite list_lookup_alter_eq, Hx.
  - by rewrite list_lookup_alter_ne, app_nil_r by done.
Qed.

Lemma session_makes on_done ch c c' :
  session_step ErrorMsg marshal on_done ch c = Some c' → makes (call_now (ESession on_done ch) c) c c'.
Proof.
  intros Hs. unfold session_step, session_send in Hs. unfold call_now, takes_cmd. destruct (c_sess c) eqn:Hsess.
  4: { destruct (c_bundles c !! b) as [x|] eqn:Hx; [|done].
       destruct (chan_recv (b_cmdCh x)) as [cmd chx| |]; simplify_eq; [by eapply handle_one_makes|].
       by apply quiet_makes; split; [|apply kept_same]. }
  3: { simplify_eq. split; [done|]. intros b'. simpl. by rewrite app_nil_r. }
  all: apply quiet_makes.
  4: destruct (close1 _ c) as [c1|] eqn:E; simplify_eq/=; by eapply quiet_close; [left|..].
  4: destruct (close2 _ c) as [c1|] eqn:E; simplify_eq/=; by eapply quiet_close; [right|..].
  all: split_step Hs; (split; [done|]); try (by apply kept_same).
  all: by eapply kept_alter; [simpl; rewrite ?list_alter_alter_eq; reflexivity|].
Qed.

Lemma ctl_step_makes c e c' : ctl_step c e = Some c' → makes (call_now e c) c c'.
Proof.
  intros Hs. unfold Controller.ctl_step in Hs. destruct (c_panic c); [done|].
  destruct e; [by eapply session_makes|..]; apply quiet_makes; simpl in Hs.
  3: { unfold call_step in Hs. destruct (c_calls c !! c0) as [[| |b1|old b1|old b1|b1|b1|b1|ret|ret| | | |]|]; try done.
       4,7: destruct (close1 _ c) as [c1|] eqn:E; simplify_eq/=; by eapply quiet_close; [left|..].
       4,6: destruct (close2 _ c) as [c1|] eqn:E; simplify_eq/=; by eapply quiet_close; [right|..].
       2: { simplify_eq. split; [done|]. intros b. unfold handled_at. simpl. destruct (c_bundles c !! b) as [x|] eqn:Hx.
            - by rewrite (lookup_app_l_Some _ _ _ _ Hx).
            - apply lookup_ge_None in Hx. rewrite lookup_app_r by done. split; [|by intros [? ?]]. by destruct (b - _)%nat. }
       all: split_step Hs; (split; [done|]); by apply kept_same. }
  4: unfold async_step in Hs.
  all: split_step Hs; (split; [done|]); try (by apply kept_same).
  all: by eapply kept_alter; [simpl; rewrite ?list_alter_alter_eq; reflexivity|].
Qed.

(** ** Histories *)

Definition commands_of (b : nat) (tr : list hcall) : list (Cmd * cmd_result B) := tr ≫= of_bundle b.

(** The controller serializes its handler.  However connections come and go and whatever
    goroutines run, the state of the handler is the result of one sequence of calls of
    SetMsgSendFunc and HandleCmd, each on the state the one before left, and the commands that
    each connection has had handled, with their results, are those of this sequence. *)
Theorem controller_serializes_handler h c :
  reachable ctl_step (eq (NewController h)) c →
  ∃ tr, replay h tr (c_handler c) ∧ ∀ b, handled_at c b = commands_of b tr.
Proof.
  induction 1 as [c <-|c e c' Hr (tr & Hrep & Htr) Hs].
  { exists []. split; [constructor|]. done. }
  destruct (ctl_step_makes _ _ _ Hs) as [H1 H2]. destruct (call_now e c) as [k|]; simpl in *.
  - exists (tr ++ [k]). split; [by eapply replay_snoc|]. intros b. destruct (H2 b) as [-> _].
    unfold commands_of. rewrite Htr, bind_app. simpl. by rewrite app_nil_r.
  - exists tr. rewrite H1. split; [done|]. intros b. destruct (H2 b) as [-> _]. by rewrite app_nil_r.
Qed.

(** A handler that brings the controller down panics on its state. *)
Lemma handler_panics h c :
  reachable ctl_step (eq (NewController h)) c → c_panic c = Some HandlerPanic →
  ∃ cmd, ∀ p, HandleCmd (cmd_Id cmd) (cmd_Seq cmd) (cmd_Kind cmd) (cmd_Payload cmd) (c_handler c) ≠ Return p.
Proof.
  destruct 1 as [c <-|c e c' Hr Hs]; [done|]. intros Hp. unfold Controller.ctl_step in Hs.
  destruct (c_panic c) eqn:Hnp; [done|].
  destruct e; simpl in Hs; unfold session_step, handle_one, session_send, call_step, async_step, close1, close2 in Hs.
  1: destruct (c_sess c) eqn:Hsess; try (split_step Hs; congruence).
  1: destruct (c_bundles c !! b) as [x|]; [|done]; destruct (chan_recv (b_cmdCh x)) as [cmd ch| |]; [|by simplify_eq/=; congruence..].
  1: exists cmd; intros p; destruct (HandleCmd _ _ _ _ (c_handler c)) as [[h1 r]| |] eqn:Hh.
  1: destruct (reply_to _ _ cmd r) as [[]|]; simplify_eq/=; congruence.
  1,2: simplify_eq/=; by rewrite Hh.
  all: split_step Hs; congruence.
Qed.
End history.
