(* ===== verification/Client.v ===== *)
(** * The client's stream (ProcessNewStream in client.go)

    One connection of an extension to the hub: after dialling and registering, a goroutine writes
    pongs and messages and another reads commands, connected by an unbuffered channel and tied
    together by an errgroup.  [cl_step] runs one atomic action of one of them, or of whoever is at
    the other end of [cmdCh] and [msgCh] (the controller); a hand-over on the unbuffered channel is
    one action of both goroutines. *)
From S2P Require Import Prelude GoChan Proto.

Set Default Proof Using "Type".

(** [checkNetworkReadErr] *)
Definition checkNetworkReadErr (err : option error) : option error :=
  match err with
  | None => None
  | Some (OpError _ e as t) =>
      if bool_decide (Error e = "use of closed network connection") then Some EOF else err
  | Some t => if str_contains "closed" (Error t) then Some EOF else Some t
  end.

Inductive main_pc : Type :=
| MDial                            (* c.createConnection() *)
| MRegister                        (* conn.Write(c.regMsg) *)
| MWait                            (* wg.Wait() *)
| MReturned (err : option error).

Inductive pwriter_pc : Type :=
| WSelect                          (* select: keepaliveCh, msgCh, ctx.Done *)
| WEncode (m : Msg) (pong : bool)  (* enc.Encode *)
| WReturn (e : error)              (* deferred: conn.Close() *)
| WGroup (e : error)               (* the errgroup gets the error *)
| WGone.

Inductive preader_pc : Type :=
| RDecode                          (* dec.Decode(cmd) *)
| RPing                            (* select: keepaliveCh <- struct{}{}, ctx.Done *)
| RForward (cmd : Cmd)             (* select: cmdCh <- cmd, ctx.Done *)
| RCloseKeepalive (e : error)      (* deferred: close(keepaliveCh) *)
| RCloseCmd (e : error)            (* deferred: close(cmdCh) *)
| RGroup (e : error)
| RGone.

(** [p_wire] is what was written, with whether it is a pong; [p_decoded], [p_forwarded] and
    [p_taken] record the commands decoded, those sent on cmdCh and the messages received from
    msgCh. *)
Record cstream : Type := MkStream {
  p_main : main_pc;
  p_connClosed : bool;
  p_done : bool;                   (* the errgroup's ctx *)
  p_err : option error;            (* the errgroup's first error *)
  p_keepaliveClosed : bool;
  p_cmdCh : chan Cmd;
  p_msgCh : chan Msg;
  p_writer : pwriter_pc;
  p_reader : preader_pc;
  p_wire : list (bool * Msg);
  p_decoded : list Cmd;
  p_taken : list Msg;
  p_forwarded : list Cmd;
  p_panic : bool;
}.

Definition set_p_main (x : main_pc) (s : cstream) : cstream :=
  MkStream x (p_connClosed s) (p_done s) (p_err s) (p_keepaliveClosed s) (p_cmdCh s)
    (p_msgCh s) (p_writer s) (p_reader s) (p_wire s) (p_decoded s) (p_taken s) (p_forwarded
    s) (p_panic s).
Definition set_p_connClosed (x : bool) (s : cstream) : cstream :=
  MkStream (p_main s) x (p_done s) (p_err s) (p_keepaliveClosed s) (p_cmdCh s) (p_msgCh s)
    (p_writer s) (p_reader s) (p_wire s) (p_decoded s) (p_taken s) (p_forwarded s) (p_panic
    s).
Definition set_p_done (x : bool) (s : cstream) : cstream :=
  MkStream (p_main s) (p_connClosed s) x (p_err s) (p_keepaliveClosed s) (p_cmdCh s)
    (p_msgCh s) (p_writer s) (p_reader s) (p_wire s) (p_decoded s) (p_taken s) (p_forwarded
    s) (p_panic s).
Definition set_p_err (x : option error) (s : cstream) : cstream :=
  MkStream (p_main s) (p_connClosed s) (p_done s) x (p_keepaliveClosed s) (p_cmdCh s)
    (p_msgCh s) (p_writer s) (p_reader s) (p_wire s) (p_decoded s) (p_taken s) (p_forwarded
    s) (p_panic s).
Definition set_p_keepaliveClosed (x : bool) (s : cstream) : cstream :=
  MkStream (p_main s) (p_connClosed s) (p_done s) (p_err s) x (p_cmdCh s) (p_msgCh s)
    (p_writer s) (p_reader s) (p_wire s) (p_decoded s) (p_taken s) (p_forwarded s) (p_panic
    s).
Definition set_p_cmdCh (x : chan Cmd) (s : cstream) : cstream :=
  MkStream (p_main s) (p_connClosed s) (p_done s) (p_err s) (p_keepaliveClosed s) x (p_msgCh
    s) (p_writer s) (p_reader s) (p_wire s) (p_decoded s) (p_taken s) (p_forwarded s)
    (p_panic s).
Definition set_p_msgCh (x : chan Msg) (s : cstream) : cstream :=
  MkStream (p_main s) (p_connClosed s) (p_done s) (p_err s) (p_keepaliveClosed s) (p_cmdCh
    s) x (p_writer s) (p_reader s) (p_wire s) (p_decoded s) (p_taken s) (p_forwarded s)
    (p_panic s).
Definition set_p_writer (x : pwriter_pc) (s : cstream) : cstream :=
  MkStream (p_main s) (p_connClosed s) (p_done s) (p_err s) (p_keepaliveClosed s) (p_cmdCh
    s) (p_msgCh s) x (p_reader s) (p_wire s) (p_decoded s) (p_taken s) (p_forwarded s)
    (p_panic s).
Definition set_p_reader (x : preader_pc) (s : cstream) : cstream :=
  MkStream (p_main s) (p_connClosed s) (p_done s) (p_err s) (p_keepaliveClosed s) (p_cmdCh
    s) (p_msgCh s) (p_writer s) x (p_wire s) (p_decoded s) (p_taken s) (p_forwarded s)
    (p_panic s).
Definition set_p_wire (x : list (bool * Msg)) (s : cstream) : cstream :=
  MkStream (p_main s) (p_connClosed s) (p_done s) (p_err s) (p_keepaliveClosed s) (p_cmdCh
    s) (p_msgCh s) (p_writer s) (p_reader s) x (p_decoded s) (p_taken s) (p_forwarded s)
    (p_panic s).
Definition set_p_decoded (x : list Cmd) (s : cstream) : cstream :=
  MkStream (p_main s) (p_connClosed s) (p_done s) (p_err s) (p_keepaliveClosed s) (p_cmdCh
    s) (p_msgCh s) (p_writer s) (p_reader s) (p_wire s) x (p_taken s) (p_forwarded s)
    (p_panic s).
Definition set_p_taken (x : list Msg) (s : cstream) : cstream :=
  MkStream (p_main s) (p_connClosed s) (p_done s) (p_err s) (p_keepaliveClosed s) (p_cmdCh
    s) (p_msgCh s) (p_writer s) (p_reader s) (p_wire s) (p_decoded s) x (p_forwarded s)
    (p_panic s).
Definition set_p_forwarded (x : list Cmd) (s : cstream) : cstream :=
  MkStream (p_main s) (p_connClosed s) (p_done s) (p_err s) (p_keepaliveClosed s) (p_cmdCh
    s) (p_msgCh s) (p_writer s) (p_reader s) (p_wire s) (p_decoded s) (p_taken s) x (p_panic
    s).
Definition set_p_panic (x : bool) (s : cstream) : cstream :=
  MkStream (p_main s) (p_connClosed s) (p_done s) (p_err s) (p_keepaliveClosed s) (p_cmdCh
    s) (p_msgCh s) (p_writer s) (p_reader s) (p_wire s) (p_decoded s) (p_taken s)
    (p_forwarded s) x.

Inductive cl_event : Type :=
| LDial (err : option error)
| LRegister (err : option error)
| LKeepalive                       (* the reader hands a ping over to the writer *)
| LTakeMsg                         (* the writer receives from msgCh *)
| LWriterClosed                    (* the writer finds keepaliveCh closed *)
| LWriterDone                      (* the writer's select takes ctx.Done *)
| LEncode (err : option error)
| LWriterExit                      (* the writer's deferred call, then the errgroup *)
| LDecode (res : result Cmd)
| LForward                         (* cmdCh <- cmd *)
| LReaderDone                      (* the reader's select takes ctx.Done *)
| LReaderExit
| LReturn                          (* wg.Wait() returns *)
| LCancel                          (* c.ctx is cancelled *)
| LTakeCmd                         (* the controller receives from cmdCh *)
| LOfferMsg (m : Msg)              (* the controller sends on msgCh *)
| LCloseMsg.                       (* the controller closes msgCh *)

Section client.
Context `{pb : !ArhatPb}.
Implicit Types s : cstream.

(** [cmdCh] and [msgCh] are the ends of a fresh bundle. *)
Definition ProcessNewStream : cstream :=
  MkStream MDial false false None false (make_chan 1) (make_chan 1) WSelect RDecode [] [] [] [] false.

Definition pong : Msg := MkMsg MSG_PONG 0 0 [].

(** A goroutine of the errgroup returns [e]. *)
Definition cgroup_return (e : error) s : cstream :=
  set_p_done true (set_p_err (match p_err s with None => Some e | Some _ => p_err s end) s).

Definition writer_step (ev : cl_event) s : option cstream :=
  match p_writer s, ev with
  | WSelect, LWriterClosed =>
      if p_keepaliveClosed s then Some (set_p_writer (WReturn EOF) s) else None
  | WSelect, LTakeMsg =>
      match chan_recv (p_msgCh s) with
      | Received m ch =>
          Some (set_p_writer (WEncode m false) (set_p_taken (p_taken s ++ [m]) (set_p_msgCh ch s)))
      | RecvClosed => Some (set_p_writer (WReturn EOF) s)
      | RecvBlocks => None
      end
  | WSelect, LWriterDone => if p_done s then Some (set_p_writer (WReturn EOF) s) else None
  | WEncode m pong, LEncode err =>
      match err with
      | None => Some (set_p_writer WSelect (set_p_wire (p_wire s ++ [(pong, m)]) s))
      | Some e =>
          Some (set_p_writer
                 (WReturn (wrapError (if pong then "failed to encode pong message"
                                      else "failed to encode message") e)) s)
      end
  | WReturn e, LWriterExit => Some (set_p_writer (WGroup e) (set_p_connClosed true s))
  | WGroup e, LWriterExit => Some (set_p_writer WGone (cgroup_return e s))
  | _, _ => None
  end.

Definition reader_step (ev : cl_event) s : option cstream :=
  match p_reader s, ev with
  | RDecode, LDecode res =>
      match checkNetworkReadErr (match res with Err e => Some e | Ok _ => None end), res with
      | Some e, _ => Some (set_p_reader (RCloseKeepalive e) s)
      | None, Ok cmd =>
          Some (set_p_reader (if cmd_Kind cmd =? CMD_PING then RPing else RForward cmd)
                 (set_p_decoded (p_decoded s ++ [cmd]) s))
      | None, Err _ => None
      end
  | RPing, LReaderDone | RForward _, LReaderDone =>
      if p_done s then Some (set_p_reader (RCloseKeepalive EOF) s) else None
  | RForward cmd, LForward =>
      match chan_send cmd (p_cmdCh s) with
      | Sent ch =>
          Some (set_p_reader RDecode (set_p_forwarded (p_forwarded s ++ [cmd]) (set_p_cmdCh ch s)))
      | SendBlocks => None
      | SendPanics => Some (set_p_panic true s)
      end
  | RCloseKeepalive e, LReaderExit =>
      if p_keepaliveClosed s then Some (set_p_panic true s)
      else Some (set_p_reader (RCloseCmd e) (set_p_keepaliveClosed true s))
  | RCloseCmd e, LReaderExit =>
      match chan_close (p_cmdCh s) with
      | Some ch => Some (set_p_reader (RGroup e) (set_p_cmdCh ch s))
      | None => Some (set_p_panic true s)
      end
  | RGroup e, LReaderExit => Some (set_p_reader RGone (cgroup_return e s))
  | _, _ => None
  end.

(** [err != nil && err != io.EOF] *)
Definition stream_result (err : option error) : option error :=
  match err with Some EOF => None | _ => err end.

Definition running s : bool := match p_main s with MWait => true | _ => false end.

Definition cl_step s (ev : cl_event) : option cstream :=
  if p_panic s then None else
  match ev with
  | LDial err =>
      match p_main s, err with
      | MDial, Some e => Some (set_p_main (MReturned (Some (wrapError "failed to dial endpoint" e))) s)
      | MDial, None => Some (set_p_main MRegister s)
      | _, _ => None
      end
  | LRegister err =>
      match p_main s, err with
      | MRegister, Some e =>
          Some (set_p_main (MReturned (Some (wrapError "failed to register myself" e))) (set_p_connClosed true s))
      | MRegister, None => Some (set_p_main MWait s)
      | _, _ => None
      end
  | LReturn =>
      match p_main s, p_writer s, p_reader s with
      | MWait, WGone, RGone => Some (set_p_main (MReturned (stream_result (p_err s))) (set_p_connClosed true s))
      | _, _, _ => None
      end
  | LKeepalive =>
      if running s then
        match p_reader s, p_writer s with
        | RPing, WSelect =>
            if p_keepaliveClosed s then Some (set_p_panic true s)
            else Some (set_p_reader RDecode (set_p_writer (WEncode pong true) s))
        | _, _ => None
        end
      else None
  | LCancel => Some (set_p_done true s)
  | LTakeCmd =>
      match chan_recv (p_cmdCh s) with Received _ ch => Some (set_p_cmdCh ch s) | _ => None end
  | LOfferMsg m => match chan_send m (p_msgCh s) with Sent ch => Some (set_p_msgCh ch s) | _ => None end
  | LCloseMsg => match chan_close (p_msgCh s) with Some ch => Some (set_p_msgCh ch s) | None => None end
  | LTakeMsg | LWriterClosed | LWriterDone | LEncode _ | LWriterExit =>
      if running s then writer_step ev s else None
  | LDecode _ | LForward | LReaderDone | LReaderExit =>
      if running s then reader_step ev s else None
  end.

(** ** What goes where *)

Definition is_ping (c : Cmd) : bool := cmd_Kind c =? CMD_PING.
Definition commands (l : list Cmd) : list Cmd := filter (λ c, is_ping c = false) l.
Definition pings (l : list Cmd) : nat := length (filter (λ c, is_ping c = true) l).
Definition messages (w : list (bool * Msg)) : list Msg := (filter (λ p, p.1 = false) w).*2.
Definition pongs (w : list (bool * Msg)) : nat := length (filter (λ p, p.1 = true) w).

Definition reader_alive (r : preader_pc) : bool :=
  match r with RDecode | RPing | RForward _ => true | _ => false end.
Definition writer_alive (w : pwriter_pc) : bool :=
  match w with WSelect | WEncode _ _ => true | _ => false end.

(** What a goroutine holds. *)
Definition holds_cmd (r : preader_pc) : list Cmd := match r with RForward c => [c] | _ => [] end.
Definition holds_msg (w : pwriter_pc) : list Msg := match w with WEncode m false => [m] | _ => [] end.
Definition holds_pong (w : pwriter_pc) : nat := match w with WEncode _ true => 1 | _ => 0 end.
Definition holds_ping (r : preader_pc) : nat := match r with RPing => 1 | _ => 0 end.

Record cl_inv s : Prop := {
  cl_cmds : p_forwarded s ++ holds_cmd (p_reader s) `prefix_of` commands (p_decoded s);
  cl_cmds_alive : reader_alive (p_reader s) = true →
    p_forwarded s ++ holds_cmd (p_reader s) = commands (p_decoded s);
  cl_msgs : messages (p_wire s) ++ holds_msg (p_writer s) `prefix_of` p_taken s;
  cl_msgs_alive : writer_alive (p_writer s) = true →
    messages (p_wire s) ++ holds_msg (p_writer s) = p_taken s;
  cl_pongs : (pongs (p_wire s) + holds_pong (p_writer s) + holds_ping (p_reader s) ≤ pings (p_decoded s))%nat;
  cl_pongs_alive : reader_alive (p_reader s) = true → writer_alive (p_writer s) = true →
    (pongs (p_wire s) + holds_pong (p_writer s) + holds_ping (p_reader s))%nat = pings (p_decoded s);
  cl_pong_text : Forall (λ p, p.1 = true → p.2 = pong) (p_wire s);
  cl_pong_hold m : p_writer s = WEncode m true → m = pong;
  cl_panic : p_panic s = false;
  cl_keepalive : p_keepaliveClosed s = match p_reader s with RCloseCmd _ | RGroup _ | RGone => true | _ => false end;
  cl_cmdCh : cclosed (p_cmdCh s) = match p_reader s with RGroup _ | RGone => true | _ => false end;
  cl_conn : match p_writer s with WGroup _ | WGone => p_connClosed s = true | _ => True end;
  cl_ended : match p_writer s with WGone => p_done s = true | _ => True end;
}.

Lemma commands_snoc l c : commands (l ++ [c]) = commands l ++ if is_ping c then [] else [c].
Proof. unfold commands. rewrite list.filter_app, filter_cons, filter_nil. by destruct (is_ping c). Qed.
Lemma pings_snoc l c : pings (l ++ [c]) = (pings l + if is_ping c then 1 else 0)%nat.
Proof. unfold pings. rewrite list.filter_app, length_app, filter_cons, filter_nil. by destruct (is_ping c). Qed.
Lemma messages_snoc w b m : messages (w ++ [(b, m)]) = messages w ++ if b then [] else [m].
Proof. unfold messages. rewrite list.filter_app, fmap_app, filter_cons, filter_nil. by destruct b. Qed.
Lemma pongs_snoc w b m : pongs (w ++ [(b, m)]) = (pongs w + if b then 1 else 0)%nat.
Proof. unfold pongs. rewrite list.filter_app, length_app, filter_cons, filter_nil. by destruct b. Qed.

Lemma writer_inv ev s s' : cl_inv s → writer_step ev s = Some s' → cl_inv s'.
Proof.
  intros [I1 I2 I3 I4 I5 I6 I7 I8 I9 I10 I11 I12 I13] Hstep. unfold writer_step in Hstep.
  destruct (p_writer s) as [|m b|e|e|] eqn:Hw; destruct ev; try done.
  all: split_step Hstep; chan_facts; split; simpl in *; rewrite ?Hw in *; simpl in *; try done.
  - specialize (I4 eq_refl). rewrite app_nil_r in I4. by rewrite I4.
  - intros _. specialize (I4 eq_refl). rewrite app_nil_r in I4. by rewrite I4.
  - congruence.
  - rewrite app_nil_r. destruct b; [by rewrite app_nil_r in I3|]. by eapply prefix_app_l.
  - destruct b; lia.
  - rewrite messages_snoc, app_nil_r. by destruct b.
  - intros _. rewrite messages_snoc, app_nil_r. destruct b; by apply I4.
  - rewrite pongs_snoc. destruct b; lia.
  - intros Hr _. specialize (I6 Hr eq_refl). rewrite pongs_snoc. destruct b; lia.
  - apply Forall_app. split; [done|]. constructor; [|done]. simpl. intros ->. by apply I8.
Qed.

Lemma reader_inv ev s s' : cl_inv s → reader_step ev s = Some s' → cl_inv s'.
Proof.
  intros [I1 I2 I3 I4 I5 I6 I7 I8 I9 I10 I11 I12 I13] Hstep. unfold reader_step in Hstep.
  destruct (p_reader s) as [| |cmd|e|e|e|] eqn:Hr; destruct ev; try done.
  all: split_step Hstep; chan_facts; split; simpl in *; rewrite ?Hr in *; simpl in *; try done.
  1-6: specialize (I2 eq_refl); rewrite app_nil_r in I2; rewrite ?commands_snoc, ?pings_snoc;
    unfold is_ping; destruct (cmd_Kind a =? CMD_PING); simpl.
  1-4: by rewrite I2.
  1-2: lia.
  1-2: intros _ Hw; specialize (I6 eq_refl Hw); lia.
  1-4: congruence.
  - lia.
  - destruct (p_writer s); congruence.
  - by rewrite app_nil_r.
  - intros _. rewrite app_nil_r. by apply I2.
  - exfalso. by apply (chan_send_open cmd (p_cmdCh s)).
  - rewrite app_nil_r. by eapply prefix_app_l.
  - destruct (p_writer s); congruence.
  - unfold chan_close in *. by rewrite I11 in *.
  - by destruct (p_writer s).
Qed.

Lemma cl_inv_step s ev s' : cl_inv s → cl_step s ev = Some s' → cl_inv s'.
Proof.
  intros Hinv Hstep. unfold cl_step in Hstep. rewrite (cl_panic _ Hinv) in Hstep.
  destruct ev; try (destruct (running s); [by eauto using writer_inv, reader_inv|done]).
  all: destruct Hinv as [I1 I2 I3 I4 I5 I6 I7 I8 I9 I10 I11 I12 I13].
  all: split_step Hstep; chan_facts; try (split; simpl in *; done).
  - split; simpl in *; try done. by destruct (p_writer s).
  - split; simpl; try done; try congruence.
    + lia.
    + intros _ _. specialize (I6 eq_refl eq_refl). lia.
  - split; simpl; rewrite ?E0, ?E1; simpl; done.
  - split; simpl in *; try done. by destruct (p_writer s).
  - split; simpl in *; try done. congruence.
Qed.

Lemma cl_inv_reachable s : reachable cl_step (eq ProcessNewStream) s → cl_inv s.
Proof.
  apply invariant_reachable. split; [|apply cl_inv_step].
  intros ? <-. split; simpl; try done.
Qed.

Lemma client_caps s :
  reachable cl_step (eq ProcessNewStream) s → ccap (p_cmdCh s) = 1%nat ∧ ccap (p_msgCh s) = 1%nat.
Proof.
  induction 1 as [s <-|s ev s' Hr [IH1 IH2] Hstep]; [done|].
  unfold cl_step, writer_step, reader_step in Hstep. split_step Hstep; chan_facts; split; congruence.
Qed.

Lemma client_room s :
  reachable cl_step (eq ProcessNewStream) s → chan_ok (p_cmdCh s) ∧ chan_ok (p_msgCh s).
Proof.
  induction 1 as [s <-|s ev s' Hr [IH1 IH2] Hstep]; [by split; apply le_0_n|].
  unfold cl_step, writer_step, reader_step in Hstep. split_step Hstep; split; eauto with golib.
Qed.

(** C18. The client's stream does what it should with everything it is given, in every interleaving.
    Commands go to the controller in the order they were received, none twice, and a ping is never
    among them; while the reader runs, all of them are there but for the one in its hands.  The
    messages on the wire are those taken from the controller, in order; every other frame is a
    pong, and there are as many pongs as pings were received, up to the one that is in progress.
    Nothing panics on a channel, and [cmdCh] is closed exactly when the reader has ended. *)
Theorem client_stream_correct s :
  reachable cl_step (eq ProcessNewStream) s →
  p_forwarded s `prefix_of` commands (p_decoded s) ∧
  (reader_alive (p_reader s) = true → p_forwarded s ++ holds_cmd (p_reader s) = commands (p_decoded s)) ∧
  messages (p_wire s) `prefix_of` p_taken s ∧
  Forall (λ p, p.1 = true → p.2 = pong) (p_wire s) ∧
  (pongs (p_wire s) ≤ pings (p_decoded s))%nat ∧
  (reader_alive (p_reader s) = true → writer_alive (p_writer s) = true →
     (pongs (p_wire s) + holds_pong (p_writer s) + holds_ping (p_reader s))%nat = pings (p_decoded s)) ∧
  p_panic s = false ∧
  (cclosed (p_cmdCh s) = true ↔ p_reader s = RGone ∨ ∃ e, p_reader s = RGroup e).
Proof.
  intros [I1 I2 I3 I4 I5 I6 I7 I8 I9 I10 I11 _ _]%cl_inv_reachable.
  split_and!; try done.
  - by eapply prefix_app_l.
  - by eapply prefix_app_l.
  - lia.
  - rewrite I11. destruct (p_reader s); naive_solver.
Qed.

(** ** Shutting down *)

(** The actions of the two goroutines and of wg.Wait that need nobody else.  A Decode waits for the
    peer to send, and an Encode may wait for it to read. *)
Definition own_action (ev : cl_event) : Prop :=
  match ev with
  | LDial _ | LRegister _ | LDecode _ | LEncode _ | LCancel | LTakeCmd | LOfferMsg _ | LCloseMsg => False
  | _ => True
  end.

Definition stopped s : Prop := ∀ ev, own_action ev → cl_step s ev = None.

(** C29. The client's stream shuts down, up to the connection.  Once its context is done (the parent
    was cancelled, or one of the goroutines has returned), its goroutines end by themselves, except
    that a Decode waits for the peer, and an Encode may.  In a state where nothing more happens by
    itself and ProcessNewStream has not returned, either the writer has ended and closed the
    connection, and the reader is in a Decode on that closed connection; or the writer is in an
    Encode, before its deferred Close, and the reader is in a Decode or has ended. *)
Theorem client_shutdown s :
  reachable cl_step (eq ProcessNewStream) s → running s = true → p_done s = true → stopped s →
  (p_writer s = WGone ∧ p_connClosed s = true ∧ p_reader s = RDecode) ∨
  ((∃ m is_pong, p_writer s = WEncode m is_pong) ∧ (p_reader s = RDecode ∨ p_reader s = RGone)).
Proof.
  intros Hr Hrun Hd Hst. pose proof (cl_inv_reachable s Hr) as Hinv. pose proof (cl_panic _ Hinv) as Hp.
  assert (∀ ev, own_action ev → cl_step s ev = None) as Hno by done. unfold cl_step in Hno. rewrite Hp, Hrun in Hno.
  assert (p_writer s = WGone ∨ ∃ m b, p_writer s = WEncode m b) as Hw.
  { destruct (p_writer s) as [|m b|e|e|] eqn:Hw; [|by eauto| | |by left]; exfalso; unfold writer_step in Hno; rewrite Hw in Hno.
    - specialize (Hno LWriterDone I). simpl in Hno. by rewrite Hd in Hno.
    - by specialize (Hno LWriterExit I).
    - by specialize (Hno LWriterExit I). }
  assert (p_reader s = RDecode ∨ p_reader s = RGone) as Hrd.
  { pose proof (cl_keepalive _ Hinv) as Hk. pose proof (cl_cmdCh _ Hinv) as Hcc.
    destruct (p_reader s) as [| |cmd|e|e|e|] eqn:Hrd; [by left|..|by right]; exfalso; unfold reader_step in Hno; rewrite Hrd in Hno.
    - specialize (Hno LReaderDone I). simpl in Hno. by rewrite Hd in Hno.
    - specialize (Hno LReaderDone I). simpl in Hno. by rewrite Hd in Hno.
    - specialize (Hno LReaderExit I). simpl in Hno. by rewrite Hk in Hno.
    - specialize (Hno LReaderExit I). simpl in Hno. unfold chan_close in Hno. by rewrite Hcc in Hno.
    - by specialize (Hno LReaderExit I). }
  destruct Hw as [Hw|Hw]; [left|by right].
  pose proof (cl_conn _ Hinv) as Hconn. rewrite Hw in Hconn. split_and!; [done|done|].
  destruct Hrd as [?|Hrd]; [done|exfalso]. specialize (Hno LReturn I). simpl in Hno. rewrite Hw, Hrd in Hno.
  unfold running in Hrun. by destruct (p_main s).
Qed.
End client.

(** ** A session on a concrete schedule *)

Module SampleClient.
#[local] Existing Instance sample_pb.

Definition ping : Cmd := MkCmd (@CMD_PING sample_pb) 0 0 [].
Definition a_cmd : Cmd := MkCmd 99 1 1 [5].

(** Connect, receive a ping and a command, answer the ping. *)
Definition session_schedule : list cl_event :=
  [LDial None; LRegister None; LDecode (Ok ping); LKeepalive; LDecode (Ok a_cmd); LEncode None; LForward].

(** Connect; the context is cancelled; the writer ends. *)
Definition cancel_schedule : list cl_event :=
  [LDial None; LRegister None; LCancel; LWriterDone; LWriterExit; LWriterExit].

Definition client_after (es : list cl_event) : cstream :=
  match run cl_step ProcessNewStream es with Some s => s | None => ProcessNewStream end.

Lemma client_stream_correct_witness :
  p_forwarded (client_after session_schedule) `prefix_of` [a_cmd] ∧
  messages (p_wire (client_after session_schedule)) `prefix_of` [].
Proof.
  destruct (client_stream_correct (client_after session_schedule)) as (H1 & _ & H2 & _).
  - apply (run_reachable _ _ session_schedule). vm_compute. reflexivity.
  - split; [exact H1|exact H2].
Defined.

Lemma client_shutdown_witness :
  (p_writer (client_after cancel_schedule) = WGone ∧ p_connClosed (client_after cancel_schedule) = true ∧
   p_reader (client_after cancel_schedule) = RDecode) ∨
  ((∃ m is_pong, p_writer (client_after cancel_schedule) = WEncode m is_pong) ∧
   (p_reader (client_after cancel_schedule) = RDecode ∨ p_reader (client_after cancel_schedule) = RGone)).
Proof.
  apply (client_shutdown (client_after cancel_schedule)).
  - apply (run_reachable _ _ cancel_schedule). vm_compute. reflexivity.
  - vm_compute. reflexivity.
  - vm_compute. reflexivity.
  - intros ev Hev. destruct ev; try destruct Hev; try (vm_compute; reflexivity).
Defined.
End SampleClient.
