(* ===== verification/Listener.v ===== *)
(** * Listening endpoints (server/conn_stream.go, conn_packet.go, server.go)

    What the two connection managers have in common, the life of their listener: it is opened by
    ListenAndServe, which serves until Accept or ReadFrom fails and then closes it, and Close closes
    it from outside.  On top of it, the server's ListenAndServe and Close over all endpoints.  The
    locks make opening the listener and Close atomic; what the network returns is in the labels. *)
From S2P Require Import Prelude.

Set Default Proof Using "Type".

(** What nethelper.Listen may return as [lRaw], by the interfaces it has: a net.Listener (also a
    closer), a net.PacketConn (also a closer), another io.Closer, or none of them. *)
Inductive raw_listener : Type := RawListener | RawPacketConn | RawCloser | RawOther.

(** The function literal at the top of streamConnectionManager.ListenAndServe: the listener, or an
    error, and whether what was opened has been closed again. *)
Definition stream_listen (network : string) (r : result raw_listener) : result unit * bool :=
  match r with
  | Err e => (Err e, false)
  | Ok RawListener => (Ok (), false)
  | Ok RawPacketConn | Ok RawCloser =>
      (Err (errorString ("invalid " +:+ Quote network +:+ " network listener")), true)
  | Ok RawOther => (Err (errorString ("invalid " +:+ Quote network +:+ " network listener")), false)
  end.

(** The same in packetConnectionManager.ListenAndServe. *)
Definition packet_listen (network : string) (r : result raw_listener) : result raw_listener :=
  match r with
  | Err e => Err e
  | Ok RawOther => Err (errorString ("invalid " +:+ Quote network +:+ " listener, no close interface"))
  | Ok t => Ok t
  end.

(** ** One manager *)

(** Where ListenAndServe is. *)
Inductive phase : Type :=
| PListen                   (* the function literal that opens the listener *)
| PServe                    (* the accept or read loop *)
| PReturn (e : error)       (* deferred: l.Close() *)
| PReturned (e : error).

Record manager : Type := MkMgr {
  l_phase : phase;
  l_set : bool;             (* m.l is not nil *)
  l_open : bool;
}.

Definition new_manager : manager := MkMgr PListen false false.

(** The listener was opened, or could not be. *)
Definition mgr_listen (r : result unit) (m : manager) : option manager :=
  match l_phase m, r with
  | PListen, Ok _ => Some (MkMgr PServe true true)
  | PListen, Err e => Some (MkMgr (PReturned e) (l_set m) (l_open m))
  | _, _ => None
  end.

(** The loop can get a connection or a packet. *)
Definition mgr_serving (m : manager) : bool :=
  match l_phase m with PServe => l_open m | _ => false end.

(** The loop ends with an error of Accept or ReadFrom, whatever the reason. *)
Definition mgr_fail (e : error) (m : manager) : option manager :=
  match l_phase m with PServe => Some (MkMgr (PReturn e) (l_set m) (l_open m)) | _ => None end.

(** It does so for no other reason than that the listener has been closed. *)
Definition mgr_fail_closed (e : error) (m : manager) : option manager :=
  if l_open m then None else mgr_fail e m.

Definition mgr_return (m : manager) : option manager :=
  match l_phase m with PReturn e => Some (MkMgr (PReturned e) (l_set m) false) | _ => None end.

(** [Close] *)
Definition mgr_Close (m : manager) : manager :=
  if l_set m then MkMgr (l_phase m) (l_set m) false else m.

Definition mgr_returned (m : manager) : option error :=
  match l_phase m with PReturned e => Some e | _ => None end.

Record mgr_ok (m : manager) : Prop := {
  mo_unset : l_set m = false → l_open m = false ∧ (l_phase m = PListen ∨ ∃ e, l_phase m = PReturned e);
  mo_set : l_set m = true → l_phase m ≠ PListen;
  mo_end e : l_phase m = PReturned e → l_open m = false;
}.

Lemma mgr_ok_new : mgr_ok new_manager.
Proof. split; simpl; [by auto|done|done]. Qed.

Lemma mgr_ok_listen r m m' : mgr_ok m → mgr_listen r m = Some m' → mgr_ok m'.
Proof.
  intros [H1 H2 H3] Hs. unfold mgr_listen in Hs. destruct (l_phase m) eqn:Hp; try done.
  destruct r; simplify_eq; [by split|]. destruct (l_set m) eqn:Hl; [by destruct (H2 eq_refl)|].
  destruct (H1 eq_refl) as [Ho _]. split; simpl; [by eauto|done|done].
Qed.

Lemma mgr_ok_fail e m m' : mgr_ok m → mgr_fail e m = Some m' → mgr_ok m'.
Proof.
  intros [H1 H2 H3] Hs. unfold mgr_fail in Hs. destruct (l_phase m) eqn:Hp; simplify_eq.
  split; simpl; [|done|done]. intros [_ [?|[? ?]]]%H1; congruence.
Qed.

Lemma mgr_ok_return m m' : mgr_ok m → mgr_return m = Some m' → mgr_ok m'.
Proof.
  intros [H1 H2 H3] Hs. unfold mgr_return in Hs. destruct (l_phase m) eqn:Hp; simplify_eq.
  split; simpl; [by eauto|done|done].
Qed.

Lemma mgr_ok_Close m : mgr_ok m → mgr_ok (mgr_Close m).
Proof.
  intros [H1 H2 H3]. unfold mgr_Close. destruct (l_set m) eqn:Hl; [|split; rewrite ?Hl; done].
  split; simpl; [done|by auto|done].
Qed.

(** ** The server *)

(** Server.ListenAndServe itself. *)
Inductive server_pc : Type :=
| VWait                        (* wg.Wait() *)
| VCloseAll (i : nat)          (* m.Close() of every manager, the next one being [i] *)
| VReturned (err : option error).

(** [v_returns] records which manager's ListenAndServe returned which error, in order. *)
Record server : Type := MkServer {
  v_mgrs : list manager;
  v_err : option error;        (* the errgroup's first error *)
  v_at : server_pc;
  v_returns : list (nat * error);
}.

Definition new_server (n : nat) : server := MkServer (replicate n new_manager) None VWait [].

Inductive server_event : Type :=
| VListen (i : nat) (r : result unit)
| VFail (i : nat) (e : error)      (* Accept or ReadFrom fails, for a reason of the network *)
| VClosed (i : nat) (e : error)    (* it fails because the listener is closed *)
| VReturn (i : nat)
| VClose (i : nat)                 (* Server.Close closes the managers one by one *)
| VMain.

(** The goroutine of manager [i] returns its error to the errgroup, which keeps the first one. *)
Definition with_mgr (i : nat) (f : manager → option manager) (v : server) : option server :=
  match v_mgrs v !! i with
  | None => None
  | Some m =>
      m' ← f m;
      Some (match mgr_returned m, mgr_returned m' with
            | None, Some e =>
                MkServer (<[i := m']> (v_mgrs v)) (match v_err v with None => Some e | err => err end) (v_at v)
                  (v_returns v ++ [(i, e)])
            | _, _ => MkServer (<[i := m']> (v_mgrs v)) (v_err v) (v_at v) (v_returns v)
            end)
  end.

Definition server_step (v : server) (e : server_event) : option server :=
  match e with
  | VListen i r => with_mgr i (mgr_listen r) v
  | VFail i e => with_mgr i (mgr_fail e) v
  | VClosed i e => with_mgr i (mgr_fail_closed e) v
  | VReturn i => with_mgr i mgr_return v
  | VClose i => with_mgr i (λ m, Some (mgr_Close m)) v
  | VMain =>
      match v_at v with
      | VWait =>
          if forallb (λ m, if mgr_returned m is Some _ then true else false) (v_mgrs v)
          then Some (MkServer (v_mgrs v) (v_err v) (VCloseAll 0) (v_returns v)) else None
      | VCloseAll i =>
          match with_mgr i (λ m, Some (mgr_Close m)) v with
          | Some v' => Some (MkServer (v_mgrs v') (v_err v') (VCloseAll (S i)) (v_returns v'))
          | None => Some (MkServer (v_mgrs v) (v_err v) (VReturned (v_err v)) (v_returns v))
          end
      | VReturned _ => None
      end
  end.

Definition all_returned (v : server) : Prop := Forall (λ m, is_Some (mgr_returned m)) (v_mgrs v).

(** Manager [i] has returned [e]. *)
Definition has_returned (v : server) (i : nat) (e : error) : Prop :=
  ∃ m, v_mgrs v !! i = Some m ∧ mgr_returned m = Some e.

Record server_ok (v : server) : Prop := {
  vo_mgrs : Forall mgr_ok (v_mgrs v);
  vo_wait : v_at v ≠ VWait → all_returned v;
  vo_returns i e : (i, e) ∈ v_returns v ↔ has_returned v i e;
  vo_first : v_err v = snd <$> head (v_returns v);
  vo_result err : v_at v = VReturned err → err = v_err v;
}.

Lemma mgr_Close_returned m : mgr_returned (mgr_Close m) = mgr_returned m.
Proof. unfold mgr_Close. by destruct (l_set m). Qed.

(** What every action does to a manager: one that has returned stays so, and a listener that was
    opened and closed is not opened again. *)
Record mgr_action (f : manager → option manager) : Prop := {
  ma_ok m m' : mgr_ok m → f m = Some m' → mgr_ok m';
  ma_returned m m' e : f m = Some m' → mgr_returned m = Some e → mgr_returned m' = Some e;
  ma_closed m m' : f m = Some m' → l_phase m ≠ PListen → l_open m = false → l_phase m' ≠ PListen ∧ l_open m' = false;
}.

Lemma listen_action r : mgr_action (mgr_listen r).
Proof.
  split; [intros ? ?; apply mgr_ok_listen|..]; intros m m'; unfold mgr_listen, mgr_returned; by destruct (l_phase m).
Qed.
Lemma fail_action e : mgr_action (mgr_fail e).
Proof.
  split; [intros ? ?; apply mgr_ok_fail|..]; intros m m'; unfold mgr_fail, mgr_returned;
    destruct (l_phase m); try done. by intros [= <-].
Qed.
Lemma fail_closed_action e : mgr_action (mgr_fail_closed e).
Proof.
  destruct (fail_action e) as [F1 F2 F3].
  split; intros m m'; unfold mgr_fail_closed; destruct (l_open m) eqn:Ho; try done; eauto.
Qed.
Lemma return_action : mgr_action mgr_return.
Proof.
  split; [intros ? ?; apply mgr_ok_return|..]; intros m m'; unfold mgr_return, mgr_returned;
    destruct (l_phase m); try done. by intros [= <-].
Qed.
Lemma Close_action : mgr_action (λ m, Some (mgr_Close m)).
Proof.
  split; [intros m m' ? [= <-]; by apply mgr_ok_Close|..]; intros m m'.
  - intros e [= <-]. by rewrite mgr_Close_returned.
  - intros [= <-]. unfold mgr_Close. by destruct (l_set m).
Qed.

Lemma with_mgr_ok i f v v' : server_ok v → mgr_action f → with_mgr i f v = Some v' → server_ok v'.
Proof.
  intros [H1 H2 H3 H4 H5] [F1 F2 _] Hs. unfold with_mgr in Hs.
  destruct (v_mgrs v !! i) as [m|] eqn:Hm; [|done]. destruct (f m) as [m'|] eqn:Hfm; [|done]. simpl in Hs.
  assert (Forall mgr_ok (<[i := m']> (v_mgrs v))) as Hok.
  { apply Forall_insert; [done|]. eapply F1; [|done]. by eapply Forall_lookup_1. }
  assert (v_at v ≠ VWait → is_Some (mgr_returned m) ∧ Forall (λ m, is_Some (mgr_returned m)) (<[i := m']> (v_mgrs v))) as Hw.
  { intros Ha%H2. unfold all_returned in Ha. pose proof (Forall_lookup_1 _ _ _ _ Ha Hm) as [e He]. split; [by eauto|].
    apply Forall_insert; [done|]. exists e. by eapply F2. }
  assert (i < length (v_mgrs v))%nat as Hlt by (by eapply lookup_lt_Some).
  destruct (mgr_returned m) as [e0|] eqn:Hr; [|destruct (mgr_returned m') as [e1|] eqn:Hr'].
  all: simplify_eq; split; unfold all_returned, has_returned in *; simpl; try done; try (by intros [_ ?]%Hw).
  - intros j e. rewrite H3. destruct (decide (i = j)) as [<-|Hne].
    + rewrite list_lookup_insert_eq, Hm by done. split; intros (m0 & [= <-] & He).
      * exists m'. split; [done|]. by eapply F2.
      * exists m. split; [done|]. rewrite (F2 _ _ _ Hfm Hr) in He. congruence.
    + by rewrite list_lookup_insert_ne.
  - intros j e. rewrite elem_of_app, H3, list_elem_of_singleton. destruct (decide (i = j)) as [<-|Hne].
    + rewrite list_lookup_insert_eq, Hm by done. split; [|intros (m0 & [= <-] & He)].
      * intros [(m0 & [= <-] & He)|[= <-]]; [congruence|]. eauto.
      * right. congruence.
    + rewrite list_lookup_insert_ne by done. split; [intros [?|[= <- _]]; done|by left].
  - rewrite H4. destruct (v_returns v); done.
  - intros err Herr. exfalso. destruct Hw as [[? ?] _]; [by rewrite Herr|done].
  - intros j e. rewrite H3. destruct (decide (i = j)) as [<-|Hne].
    + rewrite list_lookup_insert_eq, Hm by done. split; intros (m0 & [= <-] & He); congruence.
    + by rewrite list_lookup_insert_ne.
Qed.

Lemma with_mgr_inv i f v v' :
  with_mgr i f v = Some v' → ∃ m m', v_mgrs v !! i = Some m ∧ f m = Some m' ∧
    v_mgrs v' = <[i := m']> (v_mgrs v) ∧ v_at v' = v_at v.
Proof.
  intros Hs. unfold with_mgr in Hs. destruct (v_mgrs v !! i) as [m|] eqn:Hm; [|done]. destruct (f m) as [m'|] eqn:Hf; [|done].
  simplify_eq/=. exists m, m'. destruct (mgr_returned m); [done|]; by destruct (mgr_returned m').
Qed.

Lemma with_mgr_at i f v v' : with_mgr i f v = Some v' → v_at v' = v_at v.
Proof. by intros (? & ? & _ & _ & _ & ?)%with_mgr_inv. Qed.

Lemma server_ok_step v e v' : server_ok v → server_step v e = Some v' → server_ok v'.
Proof.
  intros Hok Hs. destruct e as [i r|i e|i e|i|i|]; simpl in Hs;
    eauto using with_mgr_ok, listen_action, fail_action, fail_closed_action, return_action, Close_action.
  destruct (v_at v) as [|i|] eqn:Hat; [| |done].
  - destruct (forallb _ _) eqn:Hall; simplify_eq. destruct Hok as [H1 H2 H3 H4 H5]. split; simpl; try done.
    intros _. apply Forall_forall. intros m Hin. eapply forallb_forall in Hall; [|done].
    by destruct (mgr_returned m); eauto.
  - assert (all_returned v) as Ha by (apply Hok; by rewrite Hat).
    destruct (with_mgr i _ v) as [v1|] eqn:Hw; simplify_eq.
    + pose proof (with_mgr_ok _ _ _ _ Hok Close_action Hw) as [H1 H2 H3 H4 H5].
      split; simpl; try done. intros _. apply H2. by rewrite (with_mgr_at _ _ _ _ Hw), Hat.
    + destruct Hok as [H1 H2 H3 H4 H5]. split; simpl; try done. by intros ? [= <-].
Qed.

Lemma server_ok_reachable n v : reachable server_step (eq (new_server n)) v → server_ok v.
Proof.
  apply invariant_reachable. split; [|apply server_ok_step].
  intros ? <-. split; simpl; try done.
  - apply Forall_replicate, mgr_ok_new.
  - intros i e. split; [by intros ?%elem_of_nil|]. intros (m & Hm & He).
    apply lookup_replicate in Hm as [-> _]. done.
Qed.

(** ** Closing *)

(** Manager [i] has begun to listen, and its listener is closed. *)
Definition is_shut (i : nat) (v : server) : Prop :=
  ∃ m, v_mgrs v !! i = Some m ∧ l_phase m ≠ PListen ∧ l_open m = false.

Lemma with_mgr_lookup i f v v' j m :
  with_mgr i f v = Some v' → v_mgrs v !! j = Some m →
  ∃ m', v_mgrs v' !! j = Some m' ∧ (m' = m ∨ i = j ∧ f m = Some m').
Proof.
  intros (m0 & m1 & Hm & Hf & -> & _)%with_mgr_inv Hj.
  assert (i < length (v_mgrs v))%nat by (by eapply lookup_lt_Some).
  destruct (decide (i = j)) as [<-|Hne]; [|rewrite list_lookup_insert_ne by done; eauto].
  rewrite list_lookup_insert_eq by done. simplify_eq. eauto 10.
Qed.

Lemma with_mgr_shut i f v v' j : mgr_action f → with_mgr i f v = Some v' → is_shut j v → is_shut j v'.
Proof.
  intros [_ _ F3] Hs (m & Hj & Hp & Ho). destruct (with_mgr_lookup _ _ _ _ _ _ Hs Hj) as (m' & Hj' & [->|[_ Hf]]).
  - by exists m.
  - destruct (F3 _ _ Hf Hp Ho). by exists m'.
Qed.

Lemma is_shut_step v e v' j : server_step v e = Some v' → is_shut j v → is_shut j v'.
Proof.
  intros Hs. destruct e as [i r|i e|i e|i|i|]; simpl in Hs;
    eauto using with_mgr_shut, listen_action, fail_action, fail_closed_action, return_action, Close_action.
  destruct (v_at v) as [|i|]; [by destruct (forallb _ _); simplify_eq| |done].
  destruct (with_mgr i _ v) as [v1|] eqn:Hw; simplify_eq; [|done].
  intros Hj. by apply (with_mgr_shut _ _ _ _ _ Close_action Hw) in Hj.
Qed.

(** Close closes the listener of a manager that has one. *)
Lemma Close_shuts v v' i m :
  server_ok v → v_mgrs v !! i = Some m → l_phase m ≠ PListen → server_step v (VClose i) = Some v' → is_shut i v'.
Proof.
  intros Hok Hi Hp Hs. simpl in Hs. pose proof (Forall_lookup_1 _ _ _ _ (vo_mgrs _ Hok) Hi) as Hm.
  assert (l_open (mgr_Close m) = false ∧ l_phase (mgr_Close m) ≠ PListen) as [Ho Hp'].
  { unfold mgr_Close. destruct (l_set m) eqn:Hl; [done|]. by destruct (mo_unset _ Hm Hl). }
  apply with_mgr_inv in Hs as (m0 & m1 & Hi' & [= <-] & E & _). simplify_eq. exists (mgr_Close m). rewrite E.
  rewrite list_lookup_insert_eq; [done|by eapply lookup_lt_Some].
Qed.

(** A manager that has begun to listen does not begin again. *)
Lemma listening_step v e v' i m :
  server_ok v → server_step v e = Some v' → v_mgrs v !! i = Some m → l_phase m ≠ PListen →
  ∃ m', v_mgrs v' !! i = Some m' ∧ l_phase m' ≠ PListen.
Proof.
  intros Hok Hs Hi Hp.
  assert (∀ j f, (∀ m', f m = Some m' → l_phase m' ≠ PListen) → with_mgr j f v = Some v' →
    ∃ m', v_mgrs v' !! i = Some m' ∧ l_phase m' ≠ PListen) as Hgo.
  { intros j f Hf Hw. destruct (with_mgr_lookup _ _ _ _ _ _ Hw Hi) as (m' & Hm' & [->|[_ ?%Hf]]); eauto. }
  assert (∀ m', mgr_Close m = m' → l_phase m' ≠ PListen) as Hcl by (intros ? <-; unfold mgr_Close; by destruct (l_set m)).
  destruct e as [j r|j e|j e|j|j|]; simpl in Hs.
  1-5: eapply Hgo; [|exact Hs]; intros m'; unfold mgr_listen, mgr_fail_closed, mgr_fail, mgr_return;
    try destruct (l_open m); destruct (l_phase m) eqn:E; try done; try (by intros [= <-]);
    intros [= <-]; apply Hcl; done.
  destruct (v_at v) as [|j|]; [by destruct (forallb _ _); simplify_eq; eauto| |done].
  destruct (with_mgr j _ v) as [v1|] eqn:Hw; simplify_eq; [|by eauto].
  destruct (with_mgr_lookup _ _ _ _ _ _ Hw Hi) as (m' & Hm' & [->|[_ [= <-]]]); eauto.
Qed.

(** After a run in which Close reached manager [i]. *)
Lemma closed_run es v v' i m :
  server_ok v → run server_step v es = Some v' → v_mgrs v !! i = Some m → l_phase m ≠ PListen →
  VClose i ∈ es ∨ is_shut i v → is_shut i v'.
Proof.
  revert v m. induction es as [|e es IH]; intros v m Hok Hrun Hi Hp Hc; simpl in Hrun.
  - simplify_eq. destruct Hc as [Hc%elem_of_nil|]; done.
  - destruct (server_step v e) as [v1|] eqn:E; [|done].
    destruct (listening_step _ _ _ _ _ Hok E Hi Hp) as (m1 & Hi1 & Hp1).
    apply (IH v1 m1); [by eapply server_ok_step|done..|].
    destruct Hc as [[<-|Hc]%elem_of_cons|Hc]; [right|by left|right; by eapply is_shut_step]. by eapply Close_shuts.
Qed.

(** What the server does by itself.  That the network makes Accept fail is not part of it, unless the
    listener is closed. *)
Definition server_own (e : server_event) : Prop :=
  match e with VClosed _ _ | VReturn _ | VMain => True | VListen _ _ | VFail _ _ | VClose _ => False end.

(** Where nothing more can happen by itself, with all listeners closed, the server has returned. *)
Lemma shut_returns v :
  server_ok v → (∀ i, (i < length (v_mgrs v))%nat → is_shut i v) →
  (∀ e, server_own e → server_step v e = None) → ∃ err, v_at v = VReturned err.
Proof.
  intros Hok Hc Hno. assert (all_returned v) as Ha.
  { apply Forall_lookup. intros i m Hi. destruct (Hc i) as (m0 & Hi0 & Hp & Ho); [by eapply lookup_lt_Some|].
    simplify_eq. pose proof (Hno (VClosed i EOF) I) as Hf. pose proof (Hno (VReturn i) I) as Hr.
    simpl in Hf, Hr. unfold with_mgr, mgr_fail_closed, mgr_fail, mgr_return in Hf, Hr. rewrite Hi in Hf, Hr.
    rewrite Ho in Hf. unfold mgr_returned in *. destruct (l_phase m); simpl in *; try done; eauto. }
  specialize (Hno VMain I). simpl in Hno. destruct (v_at v) as [|i|err]; [|by destruct (with_mgr _ _ _)|by eauto].
  rewrite (proj2 (forallb_forall _ _)) in Hno; [done|]. intros m Hin.
  unfold all_returned in Ha. rewrite Forall_forall in Ha. by destruct (Ha m Hin) as [e ->].
Qed.

Lemma server_step_length v e v' : server_step v e = Some v' → length (v_mgrs v') = length (v_mgrs v).
Proof.
  assert (∀ i f v', with_mgr i f v = Some v' → length (v_mgrs v') = length (v_mgrs v)) as Hw.
  { intros i f v1 (? & ? & _ & _ & -> & _)%with_mgr_inv. by rewrite length_insert. }
  intros Hs. destruct e as [i r|i e|i e|i|i|]; simpl in Hs; eauto.
  destruct (v_at v) as [|i|]; [by destruct (forallb _ _); simplify_eq| |done].
  destruct (with_mgr i _ v) as [v1|] eqn:E; simplify_eq/=; [by eapply Hw|done].
Qed.

(** The server's own actions come to an end. *)
Definition mgr_measure (m : manager) : nat := match l_phase m with PServe => 2 | PReturn _ => 1 | _ => 0 end.
Definition server_measure (v : server) : nat :=
  sum_list (mgr_measure <$> v_mgrs v) +
  match v_at v with
  | VWait => length (v_mgrs v) + 2
  | VCloseAll i => S (length (v_mgrs v) - i)
  | VReturned _ => 0
  end.

Lemma sum_list_insert (l : list nat) i x y :
  l !! i = Some x → (sum_list (<[i := y]> l) + x = sum_list l + y)%nat.
Proof. revert i. induction l as [|z l IH]; intros [|i] Hi; simplify_eq/=; [lia|]. specialize (IH _ Hi). lia. Qed.

Lemma with_mgr_measure i f v v' :
  with_mgr i f v = Some v' → ∃ m m', v_mgrs v !! i = Some m ∧ f m = Some m' ∧ length (v_mgrs v') = length (v_mgrs v) ∧
    (sum_list (mgr_measure <$> v_mgrs v') + mgr_measure m = sum_list (mgr_measure <$> v_mgrs v) + mgr_measure m')%nat.
Proof.
  intros (m & m1 & Hm & Hf & -> & _)%with_mgr_inv. exists m, m1.
  split_and!; [done|done|by rewrite length_insert|]. rewrite list_fmap_insert. apply sum_list_insert.
  by rewrite list_lookup_fmap, Hm.
Qed.

Lemma own_decreases v e v' :
  server_own e → server_step v e = Some v' → (server_measure v' < server_measure v)%nat.
Proof.
  intros He Hs. unfold server_measure. destruct e as [i r|i e|i e|i|i|]; try done; simpl in Hs.
  - destruct (with_mgr_measure _ _ _ _ Hs) as (m & m' & _ & Hf & -> & Hm). rewrite (with_mgr_at _ _ _ _ Hs).
    assert (mgr_measure m' < mgr_measure m)%nat; [|lia]. unfold mgr_fail_closed, mgr_fail, mgr_measure in *.
    destruct (l_open m), (l_phase m); simplify_eq/=; lia.
  - destruct (with_mgr_measure _ _ _ _ Hs) as (m & m' & _ & Hf & -> & Hm). rewrite (with_mgr_at _ _ _ _ Hs).
    assert (mgr_measure m' < mgr_measure m)%nat; [|lia]. unfold mgr_return, mgr_measure in *.
    destruct (l_phase m); simplify_eq/=; lia.
  - destruct (v_at v) as [|i|] eqn:Hat; [| |done]; [destruct (forallb _ _); simplify_eq/=; lia|].
    destruct (with_mgr i _ v) as [v1|] eqn:Hw; simplify_eq/=; [|lia].
    destruct (with_mgr_measure _ _ _ _ Hw) as (m & m' & Hi & [= <-] & -> & Hm). apply lookup_lt_Some in Hi.
    assert (mgr_measure (mgr_Close m) = mgr_measure m); [|lia].
    unfold mgr_Close, mgr_measure. by destruct (l_set m).
Qed.

(** C28. The server shuts down as a whole.  Server.ListenAndServe returns only after the
    ListenAndServe of every endpoint has, with all listeners closed, and it returns the error of
    the endpoint whose ListenAndServe returned first (none exactly when there are no endpoints).
    And Close ends it: if every endpoint had begun to listen, and Close then reached each of them,
    in whatever interleaving with everything else, the server can go on by itself, without the
    network failing, until ListenAndServe has returned, and no schedule of its own actions goes
    on forever. *)
Theorem server_shutdown n v :
  reachable server_step (eq (new_server n)) v →
  (∀ err, v_at v = VReturned err →
     Forall (λ m, l_open m = false ∧ is_Some (mgr_returned m)) (v_mgrs v) ∧
     (err = None ↔ v_mgrs v = []) ∧ err = snd <$> head (v_returns v) ∧
     (∀ i e, (i, e) ∈ v_returns v ↔ ∃ m, v_mgrs v !! i = Some m ∧ mgr_returned m = Some e)) ∧
  (∀ es v', run server_step v es = Some v' → Forall (λ m, l_phase m ≠ PListen) (v_mgrs v) →
     (∀ i, (i < length (v_mgrs v))%nat → VClose i ∈ es) →
     (∀ e, server_own e → server_step v' e = None) → ∃ err, v_at v' = VReturned err) ∧
  (∀ e v', server_own e → server_step v e = Some v' → (server_measure v' < server_measure v)%nat).
Proof.
  intros Hok%server_ok_reachable. pose proof Hok as [H1 H2 H3 H4 H5]. split_and!; [| |apply own_decreases].
  - intros err Herr. assert (all_returned v) as Ha by (apply H2; congruence). unfold all_returned in Ha.
    rewrite (H5 _ Herr), H4. split_and!; [|split|done|done].
    + apply Forall_forall. intros m Hin. rewrite Forall_forall in H1, Ha. destruct (Ha m Hin) as [e He].
      split; [|by eauto]. apply (mo_end m (H1 m Hin) e). unfold mgr_returned in He. by destruct (l_phase m); simplify_eq.
    + destruct (v_mgrs v) as [|m ms] eqn:Hm; [done|]. intros Hn. exfalso. inv Ha.
      match goal with H : is_Some (mgr_returned m) |- _ => destruct H as [e He] end.
      assert ((0%nat, e) ∈ v_returns v) as Hin by (apply H3; exists m; by rewrite Hm).
      destruct (v_returns v); [by apply elem_of_nil in Hin|done].
    + intros Hnil. destruct (v_returns v) as [|[i e] rs] eqn:Hr; [done|]. exfalso.
      destruct (proj1 (H3 i e)) as (m & Hm & _); [left|]. by rewrite Hnil in Hm.
  - intros es v' Hrun Hl Hcl Hno.
    assert (server_ok v' ∧ length (v_mgrs v') = length (v_mgrs v)) as [Hok' Hlen].
    { clear -Hrun Hok. revert v Hok Hrun. induction es as [|e es IH]; intros v Hok Hrun; simpl in Hrun; [by simplify_eq|].
      destruct (server_step v e) as [v1|] eqn:E; [|done].
      destruct (IH v1) as [? ->]; [by eapply server_ok_step|done|]. split; [done|]. by eapply server_step_length. }
    apply shut_returns; [done| |done]. rewrite Hlen. intros i Hi.
    destruct (lookup_lt_is_Some_2 _ _ Hi) as [m Hm].
    pose proof (Forall_lookup_1 _ _ _ _ Hl Hm) as Hp. apply (closed_run es v v' i m); auto.
Qed.

(** Two endpoints.  Close comes before they listen; then the first cannot listen. *)
Definition early_close_schedule : list server_event :=
  [VClose 0; VClose 1; VListen 0 (Err (errorString "address already in use")); VListen 1 (Ok ())].

Definition server_after (es : list server_event) : server :=
  match run server_step (new_server 2) es with Some v => v | None => new_server 2 end.

(** Nothing stops the second endpoint. *)
Definition left_alone (e : server_event) : Prop :=
  match e with VClose i | VFail i _ => i ≠ 1%nat | _ => True end.

Record second_serves (v : server) : Prop := {
  ss_at : v_at v = VWait;
  ss_mgr : v_mgrs v !! 1%nat = Some (MkMgr PServe true true);
}.

Lemma second_serves_step v e v' :
  second_serves v → left_alone e → server_step v e = Some v' → second_serves v'.
Proof.
  intros [Hat Hm] Hl Hs.
  assert (∀ i f, with_mgr i f v = Some v' → (i = 1%nat → f (MkMgr PServe true true) = None) → second_serves v') as Hw.
  { intros i f (m & m' & Hmi & Hf & E1 & E2)%with_mgr_inv Hi.
    destruct (decide (i = 1%nat)) as [->|Hne]; [by simplify_eq; rewrite Hi in Hf by done|].
    split; [congruence|]. by rewrite E1, list_lookup_insert_ne. }
  destruct e as [i r|i e|i e|i|i|]; simpl in Hs; try (by eapply Hw).
  rewrite Hat in Hs. destruct (forallb _ _) eqn:Hall; [|done]. exfalso.
  eapply forallb_forall in Hall; [|eapply list_elem_of_In, list_elem_of_lookup_2; exact Hm]. done.
Qed.

(** Finding.  Closing the server too early is forgotten, and a broken endpoint goes
    unreported.  Close does nothing to an endpoint whose goroutine has not opened its listener yet,
    and the endpoint then listens as if nothing had happened; the error of an endpoint that could
    not listen is held back until all others have ended, since the errgroup's context is not used.
    In the state reached here Close was called and one endpoint has failed, and as long as nobody
    closes the other one again, it accepts connections and ListenAndServe does not return. *)
Theorem early_close_is_lost :
  reachable server_step (eq (new_server 2)) (server_after early_close_schedule) ∧
  v_err (server_after early_close_schedule) = Some (errorString "address already in use") ∧
  ∀ es v, Forall left_alone es → run server_step (server_after early_close_schedule) es = Some v →
    v_at v = VWait ∧ ∃ m, v_mgrs v !! 1%nat = Some m ∧ mgr_serving m = true.
Proof.
  split_and!; [by apply (run_reachable _ _ early_close_schedule)|done|].
  intros es v Hl. assert (second_serves (server_after early_close_schedule)) as Hs by (by split).
  revert Hs. generalize (server_after early_close_schedule).
  induction Hl as [|e es He _ IH]; intros v0 Hs Hrun; simpl in Hrun.
  - simplify_eq. destruct Hs as [H1 H2]. eauto.
  - destruct (server_step v0 e) as [v1|] eqn:E; [|done]. eauto using second_serves_step.
Qed.

(** Both endpoints listen, are closed and end. *)
Definition orderly_schedule : list server_event :=
  [VListen 0 (Ok ()); VListen 1 (Ok ()); VClose 0; VClose 1; VClosed 1 (errorString "closed");
   VClosed 0 (errorString "closed too"); VReturn 0; VReturn 1; VMain; VMain; VMain; VMain].

Definition closing : list server_event := drop 2 orderly_schedule.

Lemma server_shutdown_witness :
  (v_at (server_after orderly_schedule) = VReturned (Some (errorString "closed too")) ∧
   Forall (λ m, l_open m = false ∧ is_Some (mgr_returned m)) (v_mgrs (server_after orderly_schedule))) ∧
  ∃ err, v_at (server_after (take 2 orderly_schedule ++ closing)) = VReturned err.
Proof.
  split.
  - split; [vm_compute; reflexivity|].
    apply (server_shutdown 2 (server_after orderly_schedule)) with (err := Some (errorString "closed too")).
    + apply (run_reachable _ _ orderly_schedule). vm_compute. reflexivity.
    + vm_compute. reflexivity.
  - destruct (server_shutdown 2 (server_after (take 2 orderly_schedule))) as (_ & Hclose & _);
      [apply (run_reachable _ _ (take 2 orderly_schedule)); vm_compute; reflexivity|].
    apply (Hclose closing).
    + vm_compute. reflexivity.
    + repeat constructor; discriminate.
    + intros [|[|i]] Hi; [left|right; left|exfalso; vm_compute in Hi; lia].
    + intros [i r|i e|i e|i|i|] He; try destruct He; try (destruct i as [|[|i]]); vm_compute; reflexivity.
Defined.
