(* ===== verification/PacketStream.v ===== *)
(** * Connections over packets (packetStream in server/conn_packet.go)

    The hub gives a session over a packet connection the illusion of a stream: the packets of one
    remote address go through a pipe and a [bufio.Reader], and what the session writes is sent as
    packets to that address.  The pipe (arhat.dev/pkg/iohelper.Pipe) is a parameter with the
    contracts of io.Reader and io.Writer as laws; [bufio.Reader.Read] of Go 1.15 is modelled. *)
From S2P Require Import Prelude.

Set Default Proof Using "Type".

(** The two ends of a pipe.  [None] is a Read that blocks; Write and Read return what Go's do. *)
Class Pipe (P : Type) := {
  pipe_new : P;
  pipe_write : bytes → P → P * Z * option error;
  pipe_read : Z → P → option (P * bytes * option error);
  pipe_closeWrite : P → P;
  pipe_closeRead : P → P;
}.

(** Write appends the first [n] bytes, all of them when there is no error; Read takes at most as
    many bytes as asked for from the front, and reports the end only when nothing is left. *)
Class PipeLaws (P : Type) `{pipe : !Pipe P} := {
  pipe_unread : P → bytes;
  pipe_unread_new : pipe_unread pipe_new = [];
  pipe_write_law data p p' n err :
    pipe_write data p = (p', n, err) →
    0 ≤ n ≤ len data ∧ pipe_unread p' = pipe_unread p ++ takeZ n data ∧ (err = None → n = len data);
  pipe_read_law size p p' data err :
    0 ≤ size → pipe_read size p = Some (p', data, err) →
    len data ≤ size ∧ pipe_unread p = data ++ pipe_unread p' ∧ (err = Some EOF → pipe_unread p' = []);
  pipe_closeWrite_law p : pipe_unread (pipe_closeWrite p) = pipe_unread p;
  pipe_closeRead_law p : pipe_unread (pipe_closeRead p) = pipe_unread p;
}.

Section packet_stream.
Context {P : Type} `{pipe : !Pipe P}.

(** [conn] is the socket of the endpoint; [r] is the bufio.Reader, of which [ps_buf] is the part
    of the buffer not yet read and [ps_err] the pending error. *)
Record packetStream : Type := MkPacketStream {
  ps_ra : string;
  ps_pipe : P;
  ps_buf : bytes;
  ps_err : option error;
}.
Implicit Types p : packetStream.

Definition newPacketStream (ra : string) (r : P) : packetStream := MkPacketStream ra r [] None.

(** bufio's default buffer. *)
Definition defaultBufSize : Z := 4096.

Definition with_pipe (q : P) p : packetStream := MkPacketStream (ps_ra p) q (ps_buf p) (ps_err p).
Definition with_buf (buf : bytes) (err : option error) p : packetStream :=
  MkPacketStream (ps_ra p) (ps_pipe p) buf err.

(** [b.readErr()]: the pending error, once. *)
Definition readErr p : packetStream * option error := (with_buf (ps_buf p) None p, ps_err p).

(** The last lines of bufio's Read: copy what the buffer has. *)
Definition copy_out (size : Z) p : packetStream * bytes * option error :=
  (with_buf (dropZ size (ps_buf p)) (ps_err p) p, takeZ size (ps_buf p), None).

(** [packetStream.Read] into a slice of length [size]; [None] while the pipe's Read blocks. *)
Definition ps_Read (size : Z) p : option (packetStream * bytes * option error) :=
  if size =? 0 then
    match ps_buf p with
    | _ :: _ => Some (p, [], None)
    | [] => let '(p, err) := readErr p in Some (p, [], err)
    end
  else
    match ps_buf p with
    | _ :: _ => Some (copy_out size p)
    | [] =>
        match ps_err p with
        | Some _ => let '(p, err) := readErr p in Some (p, [], err)
        | None =>
            if defaultBufSize <=? size then
              match pipe_read size (ps_pipe p) with
              | None => None
              | Some (q, data, err) => let '(p, err) := readErr (with_buf [] err (with_pipe q p)) in Some (p, data, err)
              end
            else
              match pipe_read defaultBufSize (ps_pipe p) with
              | None => None
              | Some (q, [], err) => let '(p, err) := readErr (with_buf [] err (with_pipe q p)) in Some (p, [], err)
              | Some (q, data, err) => Some (copy_out size (with_buf data err (with_pipe q p)))
              end
        end
    end.

(** [packetStream.Write]: the packet that WriteTo sends. *)
Definition ps_Write (data : bytes) p : string * bytes := (ps_ra p, data).

(** [packetStream.Close] *)
Definition ps_Close p : packetStream := with_pipe (pipe_closeRead (ps_pipe p)) p.

(** What the session has not read yet. *)
Definition ps_unread `{!PipeLaws P} p : bytes := ps_buf p ++ pipe_unread (ps_pipe p).

Lemma copy_out_unread `{!PipeLaws P} size p p' data err :
  0 ≤ size → copy_out size p = (p', data, err) →
  len data ≤ size ∧ ps_unread p = data ++ ps_unread p' ∧ err = None ∧ ps_ra p' = ps_ra p.
Proof.
  intros Hs [= <- <- <-]. unfold ps_unread, takeZ, dropZ, len. simpl. split_and!; try done.
  - rewrite length_take. lia.
  - by rewrite app_assoc, take_drop.
Qed.

(** A Read takes its data from the front of what is there. *)
Lemma ps_Read_unread `{!PipeLaws P} size p p' data err :
  0 ≤ size → ps_Read size p = Some (p', data, err) →
  len data ≤ size ∧ ps_unread p = data ++ ps_unread p' ∧ ps_ra p' = ps_ra p.
Proof.
  intros Hs Hr. unfold ps_Read in Hr. destruct (Z.eqb_spec size 0) as [->|Hne].
  { unfold readErr in Hr. destruct (ps_buf p) eqn:Hb; simplify_eq; unfold ps_unread; simpl; by rewrite ?Hb. }
  destruct (ps_buf p) as [|z buf] eqn:Hb.
  2: { simplify_eq. by destruct (copy_out_unread size p p' data err Hs Hr) as (? & ? & _ & ?). }
  destruct (ps_err p) as [e|] eqn:He.
  { unfold readErr in Hr. simplify_eq. unfold ps_unread. simpl. rewrite Hb. by unfold len; simpl; split_and!; [lia|..]. }
  unfold readErr in Hr. destruct (Z.leb_spec defaultBufSize size).
  - destruct (pipe_read size (ps_pipe p)) as [[[q d] e]|] eqn:Hp; simplify_eq/=.
    apply pipe_read_law in Hp as (? & Hu & _); [|done]. unfold ps_unread. simpl. by rewrite Hb, Hu.
  - destruct (pipe_read defaultBufSize (ps_pipe p)) as [[[q [|z d]] e]|] eqn:Hp; simplify_eq/=;
      (apply pipe_read_law in Hp as (? & Hu & _); [|done]).
    + unfold ps_unread. simpl. rewrite Hb, Hu. unfold len. simpl. by split_and!; [lia|..].
    + destruct (copy_out_unread size (with_buf (z :: d) e (with_pipe q p)) p' data err Hs Hr) as (? & Hd & _ & ?).
      split_and!; [done| |done]. rewrite <-Hd. unfold ps_unread. simpl. by rewrite Hb, Hu.
Qed.
End packet_stream.
Arguments packetStream : clear implicits.
Arguments MkPacketStream {P} _ _ _ _.
