(* ===== verification/ConnMgr.v ===== *)
(** * Connection managers (server/conn_stream.go, server/conn_packet.go)

    The accept loop of a stream endpoint with its goroutine per connection, and the read loop of
    a packet endpoint, which keeps a pipe per remote address; over DTLS a packet endpoint has an
    accept loop like that of a stream endpoint.  The listener's life is [Listener]'s, the stream a
    session gets over packets is [PacketStream]'s.  Accepting and reading packets are the
    network's: their results are in the labels of the steps.  What the server does with a
    connection ([Server.handleNewConn], a session) reads and writes it by further labels. *)
From S2P Require Import Prelude Proto StdJson Handshake Server Listener PacketStream.

Set Default Proof Using "Type".

Section managers.
Context `{pb : !ArhatPb, json : !JsonAPI} {I : Type}.
Context {P : Type} `{pipe : !Pipe P}.
Context (codec_String : Z → string) (registry : gmap Z I) (network : string).
Implicit Types params : Z * string * I.   (* kind, name, codec *)

(** ** Stream endpoints *)

(** A goroutine of an accepted connection. *)
Inductive sconn_pc : Type :=
| VValidate                     (* m.validateConnection(conn) *)
| VHandle (params : Z * string * I)
| VClose                        (* deferred: conn.Close() *)
| VDone.

(** A connection: what the peer sends, what is still to be read of it, and what became of the
    connection. *)
Record sconn : Type := MkSconn {
  sc_peer : conn;
  sc_conn : conn;
  sc_at : sconn_pc;
  sc_handled : option (Z * string * I * conn);   (* what handleNewConn was called with *)
  sc_closed : nat;                               (* calls of conn.Close() *)
}.

Record stream_state : Type := MkStreamState {
  ss_l : manager;
  ss_conns : list sconn;
}.

Inductive stream_event : Type :=
| EListen (r : result raw_listener)   (* nethelper.Listen returns *)
| EAccept (res : result conn)         (* l.Accept() returns *)
| EReturn                             (* deferred: l.Close() *)
| EClose                              (* Close *)
| EConn (i : nat).                    (* the next action of connection [i] *)

(** Validation waits in a Decode, without a deadline, until the peer has sent a message or the
    connection fails; its step is the Decode's return and may never come. *)
Definition sconn_step (c : sconn) : option sconn :=
  match sc_at c with
  | VValidate =>
      match validateConnection codec_String registry (sc_conn c) with
      | (Err _, rest) => Some (MkSconn (sc_peer c) rest VClose (sc_handled c) (sc_closed c))
      | (Ok params, rest) => Some (MkSconn (sc_peer c) rest (VHandle params) (sc_handled c) (sc_closed c))
      end
  | VHandle params => Some (MkSconn (sc_peer c) (sc_conn c) VClose (Some (params, sc_conn c)) (sc_closed c))
  | VClose => Some (MkSconn (sc_peer c) (sc_conn c) VDone (sc_handled c) (S (sc_closed c)))
  | VDone => None
  end.

(** The goroutines of the connections a loop has accepted. *)
Definition conn_step (i : nat) (conns : list sconn) : option (list sconn) :=
  c ← conns !! i;
  c' ← sconn_step c;
  Some (<[i := c']> conns).

Definition accepted (c : conn) : sconn := MkSconn c c VValidate None 0.

Definition stream_step (s : stream_state) (e : stream_event) : option stream_state :=
  match e with
  | EListen r =>
      l ← mgr_listen (stream_listen network r).1 (ss_l s);
      Some (MkStreamState l (ss_conns s))
  | EAccept (Ok c) =>
      if mgr_serving (ss_l s) then Some (MkStreamState (ss_l s) (ss_conns s ++ [accepted c])) else None
  | EAccept (Err e) =>
      l ← mgr_fail (wrapError "failed to accept new connection" e) (ss_l s);
      Some (MkStreamState l (ss_conns s))
  | EReturn => l ← mgr_return (ss_l s); Some (MkStreamState l (ss_conns s))
  | EClose => Some (MkStreamState (mgr_Close (ss_l s)) (ss_conns s))
  | EConn i => conns ← conn_step i (ss_conns s); Some (MkStreamState (ss_l s) conns)
  end.

Definition stream_init : stream_state := MkStreamState new_manager [].

(** How a connection stands, given what the peer sent. *)
Definition sconn_ok (c : sconn) : Prop :=
  match sc_at c with
  | VValidate => sc_conn c = sc_peer c ∧ sc_handled c = None ∧ sc_closed c = 0%nat
  | VHandle params =>
      validateConnection codec_String registry (sc_peer c) = (Ok params, sc_conn c) ∧ sc_handled c = None ∧ sc_closed c = 0%nat
  | VClose | VDone =>
      sc_closed c = (if sc_at c is VDone then 1 else 0)%nat ∧
      match validateConnection codec_String registry (sc_peer c) with
      | (Ok params, rest) => sc_handled c = Some (params, rest)
      | (Err _, _) => sc_handled c = None
      end
  end.

Lemma sconn_ok_step c c' : sconn_ok c → sconn_step c = Some c' → sconn_ok c'.
Proof.
  unfold sconn_ok, sconn_step. destruct (sc_at c) as [|params| |] eqn:Hat; [..|done].
  - intros (-> & Hh & Hc). destruct (validateConnection codec_String registry (sc_peer c)) as [[params|e] rest] eqn:Hv;
      intros [= <-]; simpl; by rewrite ?Hv, ?Hh.
  - intros (Hv & Hh & Hc) [= <-]. simpl. by rewrite Hv.
  - intros (Hc & Hv) [= <-]. simpl. by rewrite Hc.
Qed.

Definition conns_ok (conns : list sconn) : Prop := Forall sconn_ok conns.

Lemma conns_ok_accepted conns c : conns_ok conns → conns_ok (conns ++ [accepted c]).
Proof. intros H. apply Forall_app. split; [done|]. by constructor. Qed.

Lemma conns_ok_step i conns conns' : conns_ok conns → conn_step i conns = Some conns' → conns_ok conns'.
Proof.
  intros Hok Hs. unfold conn_step in Hs. destruct (conns !! i) as [c|] eqn:Hc; [|done]. simpl in Hs.
  destruct (sconn_step c) as [c'|] eqn:Hc'; simplify_eq/=. apply Forall_insert; [done|].
  eapply Forall_lookup_1 in Hok; [|done]. by eapply sconn_ok_step.
Qed.

(** What is known of a connection, whatever it has come to. *)
Lemma sconn_facts c :
  sconn_ok c →
  (sc_closed c = if sc_at c is VDone then 1 else 0)%nat ∧
  (∀ params rest, sc_handled c = Some (params, rest) →
     validateConnection codec_String registry (sc_peer c) = (Ok params, rest)) ∧
  (∀ params rest, sc_at c = VDone → validateConnection codec_String registry (sc_peer c) = (Ok params, rest) →
     sc_handled c = Some (params, rest)).
Proof.
  intros Hc0. unfold sconn_ok in Hc0. split_and!.
  - by destruct (sc_at c); destruct_and?.
  - intros params rest Hh. destruct (sc_at c); destruct_and?; try congruence;
      destruct (validateConnection codec_String registry _) as [[|] ?]; by simplify_eq.
  - intros params rest Hat Hv. rewrite Hat, Hv in Hc0. by destruct_and?.
Qed.

Record stream_ok (s : stream_state) : Prop := {
  so_l : mgr_ok (ss_l s);
  so_conns : conns_ok (ss_conns s);
}.

Lemma stream_ok_step s e s' : stream_ok s → stream_step s e = Some s' → stream_ok s'.
Proof.
  intros [Hl Hc] Hs. destruct e as [r|[c|e]| | |i]; simpl in Hs.
  - destruct (mgr_listen _ _) eqn:E; simplify_eq/=. split; [by eapply mgr_ok_listen|done].
  - destruct (mgr_serving _); simplify_eq. split; [done|by apply conns_ok_accepted].
  - destruct (mgr_fail _ _) eqn:E; simplify_eq/=. split; [by eapply mgr_ok_fail|done].
  - destruct (mgr_return _) eqn:E; simplify_eq/=. split; [by eapply mgr_ok_return|done].
  - simplify_eq. split; [by apply mgr_ok_Close|done].
  - destruct (conn_step i _) eqn:E; simplify_eq/=. split; [done|by eapply conns_ok_step].
Qed.

(** A listener that was closed stays closed. *)
Definition shut (m : manager) : Prop := l_set m = true ∧ l_open m = false.

Lemma shut_step s e s' :
  stream_ok s → shut (ss_l s) → stream_step s e = Some s' →
  shut (ss_l s') ∧ length (ss_conns s') = length (ss_conns s).
Proof.
  intros [Hl _] [H1 H2] Hs. pose proof (mo_set _ Hl H1) as Hp.
  unfold shut. destruct e as [r|[c|e]| | |i]; simpl in Hs.
  - unfold mgr_listen in Hs. by destruct (l_phase (ss_l s)).
  - unfold mgr_serving in Hs. rewrite H2 in Hs. by destruct (l_phase (ss_l s)).
  - unfold mgr_fail in Hs. by destruct (l_phase (ss_l s)); simplify_eq/=.
  - unfold mgr_return in Hs. by destruct (l_phase (ss_l s)); simplify_eq/=.
  - unfold mgr_Close in Hs. rewrite H1 in Hs. by simplify_eq/=.
  - unfold conn_step in Hs. destruct (ss_conns s !! i) as [c|]; [|done]. simpl in Hs.
    destruct (sconn_step c); simplify_eq/=. by rewrite length_insert.
Qed.

(** Every accepted connection is validated, handled at most once and closed exactly once.  In
    any interleaving of the accept loop with the goroutines of its connections: a connection is
    handed to the server only after its first message was a valid registration, with exactly the
    kind, name and codec that message announces and the rest of the connection; one that fails
    validation is never handed over; each is closed once, when its goroutine ends.  After a Close
    that found the listener open, no schedule accepts another connection, and when ListenAndServe
    has returned the listener is closed. *)
Theorem accepted_connections s :
  reachable stream_step (eq stream_init) s →
  (∀ i c, ss_conns s !! i = Some c →
     (sc_closed c = if sc_at c is VDone then 1 else 0)%nat ∧
     (∀ params rest, sc_handled c = Some (params, rest) →
        validateConnection codec_String registry (sc_peer c) = (Ok params, rest)) ∧
     (∀ params rest, sc_at c = VDone → validateConnection codec_String registry (sc_peer c) = (Ok params, rest) →
        sc_handled c = Some (params, rest))) ∧
  (∀ es s', l_set (ss_l s) = true → run stream_step s (EClose :: es) = Some s' →
     length (ss_conns s') = length (ss_conns s)) ∧
  (∀ e, mgr_returned (ss_l s) = Some e → l_open (ss_l s) = false).
Proof.
  intros Hr. assert (stream_ok s) as Hok.
  { revert Hr. apply invariant_reachable. split; [|apply stream_ok_step].
    intros ? <-. split; [apply mgr_ok_new|constructor]. }
  split_and!.
  - intros i c Hc. apply sconn_facts. by eapply (Forall_lookup_1 _ _ _ _ (so_conns _ Hok)).
  - intros es s' Hset Hrun. simpl in Hrun.
    assert (shut (mgr_Close (ss_l s))) as Hshut by (unfold mgr_Close, shut; by rewrite Hset).
    assert (stream_ok (MkStreamState (mgr_Close (ss_l s)) (ss_conns s))) as Hok' by (by eapply (stream_ok_step s EClose)).
    change (ss_conns s) with (ss_conns (MkStreamState (mgr_Close (ss_l s)) (ss_conns s))).
    change (mgr_Close (ss_l s)) with (ss_l (MkStreamState (mgr_Close (ss_l s)) (ss_conns s))) in Hshut.
    revert Hok' Hshut Hrun. generalize (MkStreamState (mgr_Close (ss_l s)) (ss_conns s)). clear.
    induction es as [|e es IH]; intros s0 Hok Hshut Hrun; simpl in Hrun; [by simplify_eq|].
    destruct (stream_step s0 e) as [s1|] eqn:E; [|done]. destruct (shut_step _ _ _ Hok Hshut E) as [Hs1 <-].
    eauto using stream_ok_step.
  - intros e He. eapply (mo_end _ (so_l _ Hok) e). unfold mgr_returned in He. by destruct (l_phase (ss_l s)); simplify_eq.
Qed.

(** ** Packet endpoints *)

(** The pipe of a remote address, and the goroutine that serves it. *)
Inductive phandler_pc : Type :=
| HServing         (* m.handleNewConn *)
| HClosePipe       (* deferred: pw.Close() *)
| HDelete          (* m.connections.Delete(addr) *)
| HGone.

Record pconn : Type := MkPconn {
  pc_addr : string;
  pc_params : Z * string * I;
  pc_at : phandler_pc;
  pc_stream : packetStream P;   (* conn, with the pipe behind it *)
  pc_written : list bytes;      (* what the loop has written to the pipe *)
  pc_read : bytes;              (* what the session has read *)
}.

Definition set_pc (pc : phandler_pc) (st : packetStream P) (c : pconn) : pconn :=
  MkPconn (pc_addr c) (pc_params c) pc st (pc_written c) (pc_read c).
Definition wrote_pipe (data : bytes) (q : P) (c : pconn) : pconn :=
  MkPconn (pc_addr c) (pc_params c) (pc_at c) (with_pipe q (pc_stream c)) (pc_written c ++ [data]) (pc_read c).
Definition read_stream (data : bytes) (st : packetStream P) (c : pconn) : pconn :=
  MkPconn (pc_addr c) (pc_params c) (pc_at c) st (pc_written c) (pc_read c ++ data).

(** [pw.Close()] *)
Definition close_pipe (st : packetStream P) : packetStream P := with_pipe (pipe_closeWrite (ps_pipe st)) st.

(** What became of a packet; [n] bytes of a lost one got through. *)
Inductive fate : Type := Registered (i : nat) | Rejected | Delivered (i : nat) | Lost (i : nat) (n : Z).

Record packet_state : Type := MkPacketState {
  ps_connections : gmap string nat;          (* the sync.Map *)
  ps_conns : list pconn;
  ps_log : list (string * bytes * fate);     (* the packets read, in order *)
  ps_sent : list (string * bytes);           (* the packets sent *)
}.

(** What a session does with its stream. *)
Inductive stream_op : Type := SRead (size : Z) | SWrite (data : bytes) | SCloseStream.

Inductive packet_event : Type :=
| EPacket (addr : string) (data : bytes)   (* ReadFrom returns *)
| EHandler (i : nat)                       (* the goroutine of connection [i] *)
| ESession (i : nat) (op : stream_op).     (* its session *)

Definition session_op (i : nat) (c : pconn) (op : stream_op) (s : packet_state) : option packet_state :=
  match op with
  | SRead size =>
      if size <? 0 then None
      else
        match ps_Read size (pc_stream c) with
        | Some (st, data, _) =>
            Some (MkPacketState (ps_connections s) (<[i := read_stream data st c]> (ps_conns s)) (ps_log s) (ps_sent s))
        | None => None
        end
  | SWrite data =>
      Some (MkPacketState (ps_connections s) (ps_conns s) (ps_log s) (ps_sent s ++ [ps_Write data (pc_stream c)]))
  | SCloseStream =>
      Some (MkPacketState (ps_connections s) (<[i := set_pc (pc_at c) (ps_Close (pc_stream c)) c]> (ps_conns s))
             (ps_log s) (ps_sent s))
  end.

Definition packet_step (s : packet_state) (e : packet_event) : option packet_state :=
  match e with
  | EPacket addr data =>
      match ps_connections s !! addr with
      | Some i =>
          match ps_conns s !! i with
          | None => None
          | Some c =>
              let '(q, n, err) := pipe_write data (ps_pipe (pc_stream c)) in
              match err with
              | None =>
                  Some (MkPacketState (ps_connections s) (<[i := wrote_pipe data q c]> (ps_conns s))
                         (ps_log s ++ [(addr, data, Delivered i)]) (ps_sent s))
              | Some _ =>
                  Some (MkPacketState (ps_connections s)
                         (<[i := wrote_pipe (takeZ n data) (pipe_closeWrite q) c]> (ps_conns s))
                         (ps_log s ++ [(addr, data, Lost i n)]) (ps_sent s))
              end
          end
      | None =>
          match validateConnection codec_String registry (Conn [data] EOF) with
          | (Err _, _) =>
              Some (MkPacketState (ps_connections s) (ps_conns s) (ps_log s ++ [(addr, data, Rejected)]) (ps_sent s))
          | (Ok params, _) =>
              let i := length (ps_conns s) in
              Some (MkPacketState (<[addr := i]> (ps_connections s))
                     (ps_conns s ++ [MkPconn addr params HServing (newPacketStream addr pipe_new) [] []])
                     (ps_log s ++ [(addr, data, Registered i)]) (ps_sent s))
          end
      end
  | EHandler i =>
      match ps_conns s !! i with
      | None => None
      | Some c =>
          let go pc st := <[i := set_pc pc st c]> (ps_conns s) in
          match pc_at c with
          | HServing => Some (MkPacketState (ps_connections s) (go HClosePipe (pc_stream c)) (ps_log s) (ps_sent s))
          | HClosePipe =>
              Some (MkPacketState (ps_connections s) (go HDelete (close_pipe (pc_stream c))) (ps_log s) (ps_sent s))
          | HDelete =>
              Some (MkPacketState (delete (pc_addr c) (ps_connections s)) (go HGone (pc_stream c)) (ps_log s) (ps_sent s))
          | HGone => None
          end
      end
  | ESession i op =>
      match ps_conns s !! i with
      | Some c => match pc_at c with HServing => session_op i c op s | _ => None end
      | None => None
      end
  end.

Definition packet_init : packet_state := MkPacketState ∅ [] [] [].

(** ** The packet endpoint as a whole *)

(** [pm_kind] is what the listener turned out to be, [pm_conns] the connections accepted over
    DTLS, [pm_packets] those made of bare packets. *)
Record packet_manager : Type := MkPacketManager {
  pm_l : manager;
  pm_kind : raw_listener;
  pm_conns : list sconn;
  pm_packets : packet_state;
}.

Inductive pm_event : Type :=
| QListen (r : result raw_listener)
| QUnexpected                         (* the default case of the type switch *)
| QAccept (res : result conn)         (* t.Accept(), on a net.Listener *)
| QConn (i : nat)
| QReadFrom (res : result (string * bytes))   (* t.ReadFrom(buf), on a net.PacketConn *)
| QHandler (i : nat)
| QSession (i : nat) (op : stream_op)
| QReturn
| QClose.

Definition is_kind (k : raw_listener) (m : packet_manager) : bool :=
  match pm_kind m, k with
  | RawListener, RawListener | RawPacketConn, RawPacketConn | RawCloser, RawCloser => true
  | _, _ => false
  end.

Definition with_l (l : option manager) (m : packet_manager) : option packet_manager :=
  l ← l; Some (MkPacketManager l (pm_kind m) (pm_conns m) (pm_packets m)).
Definition on_packets (e : packet_event) (m : packet_manager) : option packet_manager :=
  p ← packet_step (pm_packets m) e; Some (MkPacketManager (pm_l m) (pm_kind m) (pm_conns m) p).

Definition pm_step (m : packet_manager) (e : pm_event) : option packet_manager :=
  match e with
  | QListen r =>
      match packet_listen network r with
      | Err e => with_l (mgr_listen (Err e) (pm_l m)) m
      | Ok k => with_l (mgr_listen (Ok ()) (pm_l m)) (MkPacketManager (pm_l m) k (pm_conns m) (pm_packets m))
      end
  | QUnexpected =>
      if is_kind RawCloser m then with_l (mgr_fail (errorString "unexpected conn") (pm_l m)) m else None
  | QAccept (Ok c) =>
      if is_kind RawListener m && mgr_serving (pm_l m)
      then Some (MkPacketManager (pm_l m) (pm_kind m) (pm_conns m ++ [accepted c]) (pm_packets m)) else None
  | QAccept (Err e) =>
      if is_kind RawListener m
      then with_l (mgr_fail (wrapError "failed to accept new packet connection" e) (pm_l m)) m else None
  | QConn i => conns ← conn_step i (pm_conns m); Some (MkPacketManager (pm_l m) (pm_kind m) conns (pm_packets m))
  | QReadFrom (Ok (addr, data)) =>
      if is_kind RawPacketConn m && mgr_serving (pm_l m) then on_packets (EPacket addr data) m else None
  | QReadFrom (Err e) =>
      if is_kind RawPacketConn m
      then with_l (mgr_fail (wrapError "failed to read packet" e) (pm_l m)) m else None
  | QHandler i => on_packets (EHandler i) m
  | QSession i op => on_packets (ESession i op) m
  | QReturn => with_l (mgr_return (pm_l m)) m
  | QClose => with_l (Some (mgr_Close (pm_l m))) m
  end.

Definition pm_init : packet_manager := MkPacketManager new_manager RawOther [] packet_init.

(** ** Who gets which packets *)

Context {laws : PipeLaws P}.

(** The packets delivered to a connection. *)
Definition delivered (i : nat) (log : list (string * bytes * fate)) : list bytes :=
  omap (λ p, match p.2 with
             | Delivered j => if bool_decide (j = i) then Some p.1.2 else None
             | Lost j n => if bool_decide (j = i) then Some (takeZ n p.1.2) else None
             | _ => None
             end) log.

Definition log_ok (conns : list pconn) (p : string * bytes * fate) : Prop :=
  match p.2 with
  | Registered i => ∃ c, conns !! i = Some c ∧ pc_addr c = p.1.1 ∧
      (validateConnection codec_String registry (Conn [p.1.2] EOF)).1 = Ok (pc_params c)
  | Rejected => ∃ e, (validateConnection codec_String registry (Conn [p.1.2] EOF)).1 = Err e
  | Delivered i | Lost i _ => ∃ c, conns !! i = Some c ∧ pc_addr c = p.1.1
  end.

Definition sent_ok (conns : list pconn) (p : string * bytes) : Prop :=
  ∃ i c, conns !! i = Some c ∧ pc_addr c = p.1.

(** What the session has read and what it can still read are what was written to the pipe. *)
Record stream_inv (c : pconn) : Prop := {
  si_bytes : pc_read c ++ ps_unread (pc_stream c) = concat (pc_written c);
  si_addr : ps_ra (pc_stream c) = pc_addr c;
}.

Record packet_inv (s : packet_state) : Prop := {
  pi_table addr i : ps_connections s !! addr = Some i ↔
    ∃ c, ps_conns s !! i = Some c ∧ pc_addr c = addr ∧ pc_at c ≠ HGone;
  pi_written i c : ps_conns s !! i = Some c → pc_written c = delivered i (ps_log s);
  pi_log : Forall (log_ok (ps_conns s)) (ps_log s);
  pi_stream : Forall stream_inv (ps_conns s);
  pi_sent : Forall (sent_ok (ps_conns s)) (ps_sent s);
}.

Lemma delivered_snoc i log p :
  delivered i (log ++ [p]) = delivered i log ++
    match p.2 with
    | Delivered j => if bool_decide (j = i) then [p.1.2] else []
    | Lost j n => if bool_decide (j = i) then [takeZ n p.1.2] else []
    | _ => []
    end.
Proof. unfold delivered. rewrite omap_app. simpl. repeat case_match; simplify_eq/=; done. Qed.

(** Connections keep their address and parameters. *)
Definition conns_mono (conns conns' : list pconn) : Prop :=
  ∀ i c, conns !! i = Some c → ∃ c', conns' !! i = Some c' ∧ pc_addr c' = pc_addr c ∧ pc_params c' = pc_params c.

Lemma log_ok_mono conns conns' p : conns_mono conns conns' → log_ok conns p → log_ok conns' p.
Proof.
  intros Hm. unfold log_ok. destruct (p.2); try done.
  - intros (c & Hc & H1 & H2). destruct (Hm _ _ Hc) as (c' & ? & E1 & E2). exists c'. by rewrite E1, E2.
  - intros (c & Hc & H1). destruct (Hm _ _ Hc) as (c' & ? & E1 & E2). exists c'. by rewrite E1.
  - intros (c & Hc & H1). destruct (Hm _ _ Hc) as (c' & ? & E1 & E2). exists c'. by rewrite E1.
Qed.

Lemma sent_ok_mono conns conns' p : conns_mono conns conns' → sent_ok conns p → sent_ok conns' p.
Proof.
  intros Hm (i & c & Hc & Ha). destruct (Hm _ _ Hc) as (c' & Hc' & E1 & _). exists i, c'. by rewrite E1.
Qed.

Lemma insert_mono (conns : list pconn) i c c1 :
  conns !! i = Some c → pc_addr c1 = pc_addr c → pc_params c1 = pc_params c →
  conns_mono conns (<[i := c1]> conns).
Proof.
  intros Hi Ha Hp j c0 Hj. destruct (decide (i = j)) as [<-|Hne].
  - simplify_eq. exists c1. rewrite list_lookup_insert_eq; [done|]. by eapply lookup_lt_Some.
  - exists c0. by rewrite list_lookup_insert_ne.
Qed.

Lemma app_mono (conns : list pconn) c : conns_mono conns (conns ++ [c]).
Proof. intros j c0 Hj. exists c0. by rewrite (lookup_app_l_Some _ _ _ _ Hj). Qed.

(** Connection [i] moves on, without leaving the table. *)
Lemma packet_inv_insert s i c c1 p :
  packet_inv s → ps_conns s !! i = Some c → pc_addr c1 = pc_addr c → pc_params c1 = pc_params c →
  (pc_at c1 = HGone ↔ pc_at c = HGone) →
  (∀ j, delivered j (ps_log s ++ p) = delivered j (ps_log s) ++ if bool_decide (j = i) then drop (length (pc_written c)) (pc_written c1) else []) →
  pc_written c `prefix_of` pc_written c1 → Forall (log_ok (<[i := c1]> (ps_conns s))) p →
  (stream_inv c → stream_inv c1) →
  packet_inv (MkPacketState (ps_connections s) (<[i := c1]> (ps_conns s)) (ps_log s ++ p) (ps_sent s)).
Proof.
  intros [Ht Hw Hl Hs Hse] Hi Ha Hp Hat Hd [rest Hpre] Hlog Hst. pose proof (lookup_lt_Some _ _ _ Hi) as Hlt.
  pose proof (insert_mono _ _ _ _ Hi Ha Hp) as Hmono. split; simpl.
  - intros addr j. rewrite Ht. destruct (decide (i = j)) as [<-|Hne].
    + rewrite list_lookup_insert_eq by done. split; intros (c' & Hc' & <- & ?); simplify_eq.
      * exists c1. split; [done|]. split; [done|]. by rewrite Hat.
      * exists c. split; [done|]. split; [done|]. by rewrite <-Hat.
    + by rewrite list_lookup_insert_ne.
  - intros j cj Hj. rewrite Hd. apply list_lookup_insert_Some in Hj as [(<- & <- & _)|[Hne Hj]].
    + rewrite bool_decide_true, <-(Hw _ _ Hi), Hpre, drop_app_length by done. done.
    + rewrite bool_decide_false, app_nil_r by done. by apply Hw.
  - apply Forall_app. split; [|done]. revert Hl. apply Forall_impl. intros q. by apply log_ok_mono.
  - apply Forall_insert; [done|]. apply Hst. by eapply Forall_lookup_1.
  - revert Hse. apply Forall_impl. intros q. by apply sent_ok_mono.
Qed.

(** Nothing has been delivered to a connection that does not exist yet. *)
Lemma delivered_fresh s i :
  packet_inv s → (length (ps_conns s) ≤ i)%nat → delivered i (ps_log s) = [].
Proof.
  intros [_ _ Hl _ _] Hi. induction Hl as [|[[a d] f] log Hp _ IH]; [done|]. simpl.
  destruct f as [| |j|j n]; simpl; try done; (case_bool_decide; [|done]); subst;
    destruct Hp as (c & Hc%lookup_lt_Some & _); lia.
Qed.

(** Nothing was written. *)
Lemma delivered_same (s : packet_state) i (c : pconn) :
  ∀ j, delivered j (ps_log s ++ []) = delivered j (ps_log s) ++
    if bool_decide (j = i) then drop (length (pc_written c)) (pc_written c) else [].
Proof. intros j. rewrite app_nil_r, drop_all. by destruct (bool_decide _); rewrite app_nil_r. Qed.

Lemma packet_inv_move s i c c1 :
  packet_inv s → ps_conns s !! i = Some c → pc_addr c1 = pc_addr c → pc_params c1 = pc_params c →
  (pc_at c1 = HGone ↔ pc_at c = HGone) → pc_written c1 = pc_written c → (stream_inv c → stream_inv c1) →
  packet_inv (MkPacketState (ps_connections s) (<[i := c1]> (ps_conns s)) (ps_log s) (ps_sent s)).
Proof.
  intros Hinv Hi Ha Hp Hat Hw Hs. rewrite <-(app_nil_r (ps_log s)).
  apply (packet_inv_insert s i c); [done..|rewrite Hw; apply delivered_same|by rewrite Hw|done|done].
Qed.

(** A packet goes into the pipe, or a part of it. *)
Lemma packet_inv_write s i c data part q f :
  packet_inv s → ps_conns s !! i = Some c →
  (∀ j, delivered j (ps_log s ++ [(pc_addr c, data, f)]) = delivered j (ps_log s) ++ if bool_decide (j = i) then [part] else []) →
  pipe_unread q = pipe_unread (ps_pipe (pc_stream c)) ++ part →
  log_ok (<[i := wrote_pipe part q c]> (ps_conns s)) (pc_addr c, data, f) →
  packet_inv (MkPacketState (ps_connections s) (<[i := wrote_pipe part q c]> (ps_conns s))
    (ps_log s ++ [(pc_addr c, data, f)]) (ps_sent s)).
Proof.
  intros Hinv Hi Hd Hq Hlog. apply (packet_inv_insert s i c); simpl; try done.
  - intros j. by rewrite Hd, drop_app_length.
  - by apply prefix_app_r.
  - by constructor.
  - intros [H1 H2]. split; simpl; [|done]. unfold ps_unread in *. simpl.
    rewrite Hq, concat_app, <-H1. simpl. by rewrite app_nil_r, !app_assoc.
Qed.

(** A packet that registers a new connection. *)
Lemma packet_inv_register s addr data params rest :
  packet_inv s → ps_connections s !! addr = None →
  validateConnection codec_String registry (Conn [data] EOF) = (Ok params, rest) →
  packet_inv (MkPacketState (<[addr := length (ps_conns s)]> (ps_connections s))
    (ps_conns s ++ [MkPconn addr params HServing (newPacketStream addr pipe_new) [] []])
    (ps_log s ++ [(addr, data, Registered (length (ps_conns s)))]) (ps_sent s)).
Proof.
  intros Hinv Hc Hv. pose proof Hinv as [Ht Hw Hl Hs Hse]. split; simpl.
  - intros a j. rewrite lookup_insert. case_decide as Had.
    + subst. split.
      * intros [= <-]. eexists. by rewrite lookup_app_r, Nat.sub_diag by done.
      * intros (c & [Hj|[Hlj Hj]]%lookup_app_Some & Haddr & Hat).
        { assert (ps_connections s !! a = Some j) by (apply Ht; eauto). congruence. }
        apply list_lookup_singleton_Some in Hj as [Hz _]. f_equal. lia.
    + rewrite Ht. split; [intros (c & Hj & ?); exists c; by rewrite (lookup_app_l_Some _ _ _ _ Hj)|].
      intros (c & [Hj|[Hlj Hj]]%lookup_app_Some & Haddr & Hat); [eauto|].
      apply list_lookup_singleton_Some in Hj as [_ <-]. by simpl in Haddr.
  - intros j c Hj. rewrite delivered_snoc, app_nil_r.
    apply lookup_app_Some in Hj as [Hj|[Hlj Hj]]; [by apply Hw|].
    apply list_lookup_singleton_Some in Hj as [Hz <-]. symmetry. by apply (delivered_fresh s).
  - apply Forall_app. split; [revert Hl; apply Forall_impl; intros q; by apply log_ok_mono, app_mono|].
    constructor; [|done]. eexists. rewrite lookup_app_r, Nat.sub_diag by done. simpl. by rewrite Hv.
  - apply Forall_app. split; [done|]. constructor; [|done]. split; simpl; [|done].
    unfold ps_unread. simpl. apply pipe_unread_new.
  - revert Hse. apply Forall_impl. intros q. by apply sent_ok_mono, app_mono.
Qed.

Lemma packet_inv_packet s addr data s' :
  packet_inv s → packet_step s (EPacket addr data) = Some s' → packet_inv s'.
Proof.
  intros Hinv Hstep. simpl in Hstep. destruct (ps_connections s !! addr) as [i|] eqn:Hc.
  - destruct (ps_conns s !! i) as [c|] eqn:Hi; [|done].
    assert (pc_addr c = addr) as <- by (apply (pi_table _ Hinv) in Hc as (c' & ? & ? & _); congruence).
    destruct (pipe_write data (ps_pipe (pc_stream c))) as [[q n] err] eqn:Hp.
    apply pipe_write_law in Hp as (Hn & Hq & Hall). destruct err as [e|]; simplify_eq.
    + apply packet_inv_write; [done|done| |by rewrite pipe_closeWrite_law|].
      * intros j. rewrite delivered_snoc. simpl. by rewrite (bool_decide_ext (i = j) (j = i)).
      * eexists. rewrite list_lookup_insert_eq; [done|]. by eapply lookup_lt_Some.
    + apply packet_inv_write; [done|done| |by rewrite Hq, Hall, takeZ_full|].
      * intros j. rewrite delivered_snoc. simpl. by rewrite (bool_decide_ext (i = j) (j = i)).
      * eexists. rewrite list_lookup_insert_eq; [done|]. by eapply lookup_lt_Some.
  - destruct (validateConnection _ _ _) as [[params|e] rest] eqn:Hv; simplify_eq/=; [by eapply packet_inv_register|].
    destruct Hinv as [Ht Hw Hl Hs Hse]. split; simpl; try done.
    + intros j c Hj. rewrite delivered_snoc, app_nil_r. by apply Hw.
    + apply Forall_app. split; [done|]. constructor; [|done]. exists e. simpl. by rewrite Hv.
Qed.

Lemma packet_inv_handler s i s' : packet_inv s → packet_step s (EHandler i) = Some s' → packet_inv s'.
Proof.
  intros Hinv Hstep. simpl in Hstep. destruct (ps_conns s !! i) as [c|] eqn:Hi; [|done].
  destruct (pc_at c) eqn:Hat; simplify_eq/=.
  - apply (packet_inv_move s i c); simpl; rewrite ?Hat; done || by intros [].
  - apply (packet_inv_move s i c); simpl; rewrite ?Hat; try done. intros [H1 H2]. split; simpl; [|done].
    unfold ps_unread in *. simpl. by rewrite pipe_closeWrite_law.
  - destruct Hinv as [Ht Hw Hl Hs Hse]. pose proof (lookup_lt_Some _ _ _ Hi) as Hlt.
    assert (ps_connections s !! pc_addr c = Some i) as Hci by (apply Ht; exists c; by rewrite Hat).
    split; simpl.
    + intros addr j. rewrite lookup_delete. case_decide as Had.
      * subst. split; [done|]. intros (c' & Hj & Ha & Hg).
        apply list_lookup_insert_Some in Hj as [(<- & <- & _)|[Hne Hj]]; [done|].
        assert (ps_connections s !! pc_addr c = Some j) by (apply Ht; eauto). congruence.
      * rewrite Ht. split; intros (c' & Hj & Ha & Hg); exists c'.
        -- rewrite list_lookup_insert_ne; [done|]. intros ->. congruence.
        -- apply list_lookup_insert_Some in Hj as [(<- & <- & _)|[Hne Hj]]; done.
    + intros j cj Hj. apply list_lookup_insert_Some in Hj as [(<- & <- & _)|[Hne Hj]]; [|by apply Hw].
      simpl. by apply Hw.
    + revert Hl. apply Forall_impl. intros q. apply log_ok_mono. by eapply insert_mono.
    + apply Forall_insert; [done|]. eapply Forall_lookup_1 in Hs as [H1 H2]; [|done]. by split.
    + revert Hse. apply Forall_impl. intros q. apply sent_ok_mono. by eapply insert_mono.
Qed.

Lemma packet_inv_session s i op s' : packet_inv s → packet_step s (ESession i op) = Some s' → packet_inv s'.
Proof.
  intros Hinv Hstep. simpl in Hstep. destruct (ps_conns s !! i) as [c|] eqn:Hi; [|done].
  destruct (pc_at c) eqn:Hat; try done. unfold session_op in Hstep. destruct op as [size|data|].
  - destruct (Z.ltb_spec size 0); [done|].
    destruct (ps_Read size (pc_stream c)) as [[[st data] err]|] eqn:Hr; simplify_eq.
    apply (packet_inv_move s i c); try done. intros [H1 H2].
    apply ps_Read_unread in Hr as (_ & Hu & Hra); [|done]. split; simpl; [|congruence].
    by rewrite <-H1, Hu, <-app_assoc.
  - simplify_eq. destruct Hinv as [Ht Hw Hl Hs Hse]. split; simpl; try done.
    apply Forall_app. split; [done|]. constructor; [|done]. exists i, c. split; [done|].
    by eapply Forall_lookup_1 in Hs as [_ H2]; [|done].
  - simplify_eq. apply (packet_inv_move s i c); try done. intros [H1 H2]. split; simpl; [|done].
    unfold ps_unread in *. simpl. by rewrite pipe_closeRead_law.
Qed.

Lemma packet_inv_step s e s' : packet_inv s → packet_step s e = Some s' → packet_inv s'.
Proof. destruct e; eauto using packet_inv_packet, packet_inv_handler, packet_inv_session. Qed.

Lemma packet_inv_init : packet_inv packet_init.
Proof.
  split; simpl; try done. intros addr i. rewrite lookup_empty. split; [done|]. by intros (c & Hc & _).
Qed.

Record pm_ok (m : packet_manager) : Prop := {
  po_l : mgr_ok (pm_l m);
  po_conns : conns_ok (pm_conns m);
}.

Lemma pm_ok_step m e m' : pm_ok m → pm_step m e = Some m' → pm_ok m'.
Proof.
  intros [Hl Hc] Hs.
  assert (∀ l m1, (∀ l', l = Some l' → mgr_ok l') → pm_conns m1 = pm_conns m → with_l l m1 = Some m' → pm_ok m') as Hwl.
  { intros l m1 Hok E Hw. unfold with_l in Hw. destruct l as [l'|]; simplify_eq/=. split; simpl; rewrite ?E; eauto. }
  assert (∀ e, on_packets e m = Some m' → pm_ok m') as Hop.
  { intros e0 Ho. unfold on_packets in Ho. by destruct (packet_step _ e0); simplify_eq/=. }
  destruct e as [r| |[c|e]|i|[[addr data]|e]|i|i op| |]; simpl in Hs; eauto.
  - destruct (packet_listen network r); (revert Hs; apply Hwl; [|done]); eauto using mgr_ok_listen.
  - destruct (is_kind _ _); [|done]. revert Hs. apply Hwl; [|done]. eauto using mgr_ok_fail.
  - destruct (_ && _); simplify_eq. split; [done|by apply conns_ok_accepted].
  - destruct (is_kind _ _); [|done]. revert Hs. apply Hwl; [|done]. eauto using mgr_ok_fail.
  - destruct (conn_step i _) eqn:E; simplify_eq/=. split; [done|by eapply conns_ok_step].
  - destruct (_ && _); [eauto|done].
  - destruct (is_kind _ _); [|done]. revert Hs. apply Hwl; [|done]. eauto using mgr_ok_fail.
  - revert Hs. apply Hwl; [|done]. eauto using mgr_ok_return.
  - simplify_eq. split; [by apply mgr_ok_Close|done].
Qed.

Lemma pm_ok_reachable m : reachable pm_step (eq pm_init) m → pm_ok m.
Proof.
  apply invariant_reachable. split; [|apply pm_ok_step]. intros ? <-. split; [apply mgr_ok_new|constructor].
Qed.

(** The packets are the packet loop's business alone. *)
Lemma pm_step_packets m e m' :
  pm_step m e = Some m' →
  pm_packets m' = pm_packets m ∨ ∃ e', packet_step (pm_packets m) e' = Some (pm_packets m').
Proof.
  assert (∀ e, on_packets e m = Some m' → ∃ e', packet_step (pm_packets m) e' = Some (pm_packets m')) as Hop.
  { intros e0 Ho. unfold on_packets in Ho. destruct (packet_step _ e0) eqn:E; simplify_eq/=. eauto. }
  intros Hs. destruct e as [r| |[c|e0]|i|[[addr data]|e0]|i|i op| |]; simpl in Hs; unfold with_l in Hs; eauto.
  - left. destruct (packet_listen network r); destruct (mgr_listen _ _); by simplify_eq/=.
  - left. destruct (is_kind _ _); [|done]. destruct (mgr_fail _ _); by simplify_eq/=.
  - left. destruct (_ && _); by simplify_eq/=.
  - left. destruct (is_kind _ _); [|done]. destruct (mgr_fail _ _); by simplify_eq/=.
  - left. destruct (conn_step i _); by simplify_eq/=.
  - right. destruct (_ && _); [eauto|done].
  - left. destruct (is_kind _ _); [|done]. destruct (mgr_fail _ _); by simplify_eq/=.
  - left. destruct (mgr_return _); by simplify_eq/=.
  - left. by simplify_eq/=.
Qed.

Lemma pm_packets_reachable m : reachable pm_step (eq pm_init) m → packet_inv (pm_packets m).
Proof using laws.
  intros Hr. induction Hr as [m <-|m e m' Hr IH Hs]; [apply packet_inv_init|].
  apply pm_step_packets in Hs as [->|[e' He]]; [done|]. by eapply packet_inv_step.
Qed.

(** Every connection was made by a packet. *)
Definition all_registered (s : packet_state) : Prop := ∀ i c,
  ps_conns s !! i = Some c → ∃ data, (pc_addr c, data, Registered i) ∈ ps_log s.

Lemma all_registered_insert s i c c1 conns log sent :
  all_registered s → ps_conns s !! i = Some c → pc_addr c1 = pc_addr c → ps_log s ⊆ log →
  all_registered (MkPacketState conns (<[i := c1]> (ps_conns s)) log sent).
Proof.
  intros Hall Hi Ha Hl j cj Hj. simpl in *. apply list_lookup_insert_Some in Hj as [(<- & <- & _)|[Hne Hj]].
  - destruct (Hall _ _ Hi) as [data Hd]. exists data. rewrite Ha. by apply Hl.
  - destruct (Hall _ _ Hj) as [data Hd]. exists data. by apply Hl.
Qed.

Lemma all_registered_step s e s' : all_registered s → packet_step s e = Some s' → all_registered s'.
Proof.
  intros Hall Hstep. destruct e as [addr data|i|i op]; simpl in Hstep.
  - destruct (ps_connections s !! addr) as [i|].
    + destruct (ps_conns s !! i) as [c|] eqn:Hi; [|done]. destruct (pipe_write _ _) as [[q n] [e|]]; simplify_eq;
        (eapply all_registered_insert; [done..|set_solver]).
    + destruct (validateConnection _ _ _) as [[params|e] rest]; simplify_eq.
      * intros j c [Hj|[Hlj Hj]]%lookup_app_Some; simpl.
        -- destruct (Hall _ _ Hj) as [d Hd]. exists d. set_solver.
        -- apply list_lookup_singleton_Some in Hj as [Hz <-]. exists data. simpl.
           assert (j = length (ps_conns s)) as -> by lia. set_solver.
      * intros j c Hj. destruct (Hall _ _ Hj) as [d Hd]. exists d. simpl. set_solver.
  - destruct (ps_conns s !! i) as [c|] eqn:Hi; [|done]. destruct (pc_at c); simplify_eq;
      (eapply all_registered_insert; [done..|set_solver]).
  - destruct (ps_conns s !! i) as [c|] eqn:Hi; [|done]. destruct (pc_at c); try done. unfold session_op in Hstep.
    destruct op as [size|data|]; [|by simplify_eq|by simplify_eq; eapply all_registered_insert; [done..|set_solver]].
    destruct (size <? 0); [done|]. destruct (ps_Read _ _) as [[[st data] err]|]; simplify_eq.
    eapply all_registered_insert; [done..|set_solver].
Qed.

Lemma pm_registered_reachable m : reachable pm_step (eq pm_init) m → all_registered (pm_packets m).
Proof.
  intros Hr. induction Hr as [m <-|m e m' Hr IH Hs]; [done|].
  apply pm_step_packets in Hs as [->|[e' He]]; [done|]. by eapply all_registered_step.
Qed.

(** What becomes of a packet, by the state it finds. *)
Definition fate_of (s : packet_state) (addr : string) (data : bytes) : option fate :=
  match ps_connections s !! addr with
  | Some i =>
      c ← ps_conns s !! i;
      Some (let '(_, n, err) := pipe_write data (ps_pipe (pc_stream c)) in
            match err with None => Delivered i | Some _ => Lost i n end)
  | None =>
      Some (match validateConnection codec_String registry (Conn [data] EOF) with
            | (Ok _, _) => Registered (length (ps_conns s))
            | (Err _, _) => Rejected
            end)
  end.

Lemma packet_fate s addr data :
  packet_inv s →
  ∃ s' f, packet_step s (EPacket addr data) = Some s' ∧ fate_of s addr data = Some f ∧
    ps_log s' = ps_log s ++ [(addr, data, f)].
Proof.
  intros Hinv. unfold fate_of. simpl. destruct (ps_connections s !! addr) as [i|] eqn:Hc.
  - apply (pi_table _ Hinv) in Hc as (c & -> & _). simpl.
    destruct (pipe_write data _) as [[q n] [e|]]; by eauto.
  - destruct (validateConnection _ _ _) as [[params|e] rest]; by eauto.
Qed.

(** C17. Packets are sorted by their remote address.  In any interleaving of the read loop with the
    goroutines of the connections and their sessions: an address has an entry in the table exactly
    while a connection made for it is being served, and at most one.  While the endpoint serves a
    net.PacketConn it takes every packet, and a packet from an address in the table goes into the pipe
    of that address's connection, as far as the pipe takes it (the pipe's Write is one that returns);
    a packet from any other address makes a connection if it is a valid registration, and only then.  Every connection was made by such a
    packet from its address and has the kind, name and codec this announces; it has received exactly
    the packets delivered to it, unaltered and in the order they were read, all from its address.
    What its session reads from the stream is what these packets contain, one after the other:
    nothing is lost, added or reordered between them; and what a session writes goes to its own
    peer. *)
Theorem packet_demultiplexing m :
  reachable pm_step (eq pm_init) m →
  let s := pm_packets m in
  (∀ addr i, ps_connections s !! addr = Some i ↔
     ∃ c, ps_conns s !! i = Some c ∧ pc_addr c = addr ∧ pc_at c ≠ HGone) ∧
  (∀ i j c c', ps_conns s !! i = Some c → ps_conns s !! j = Some c' → pc_addr c = pc_addr c' →
     pc_at c ≠ HGone → pc_at c' ≠ HGone → i = j) ∧
  (∀ i c, ps_conns s !! i = Some c →
     pc_written c = delivered i (ps_log s) ∧
     pc_read c ++ ps_unread (pc_stream c) = concat (delivered i (ps_log s)) ∧
     (∃ data, (pc_addr c, data, Registered i) ∈ ps_log s ∧
        (validateConnection codec_String registry (Conn [data] EOF)).1 = Ok (pc_params c))) ∧
  Forall (log_ok (ps_conns s)) (ps_log s) ∧ Forall (sent_ok (ps_conns s)) (ps_sent s) ∧
  (∀ addr data, pm_kind m = RawPacketConn → mgr_serving (pm_l m) = true →
     ∃ m' f, pm_step m (QReadFrom (Ok (addr, data))) = Some m' ∧
       ps_log (pm_packets m') = ps_log s ++ [(addr, data, f)] ∧
       match ps_connections s !! addr with
       | Some i => ∃ c, ps_conns s !! i = Some c ∧
           f = (let '(_, n, err) := pipe_write data (ps_pipe (pc_stream c)) in
                match err with None => Delivered i | Some _ => Lost i n end)
       | None =>
           f = match (validateConnection codec_String registry (Conn [data] EOF)).1 with
               | Ok _ => Registered (length (ps_conns s))
               | Err _ => Rejected
               end
       end).
Proof.
  intros Hr s. pose proof (pm_registered_reachable _ Hr) as Hreg. pose proof (pm_packets_reachable _ Hr) as Hinv.
  destruct Hinv as [Ht Hw Hl Hs Hse] eqn:Hi0. clear Hi0. subst s. split_and!; [done| | |done|done|].
  - intros i j c c' Hi Hj Ha H1 H2.
    assert (ps_connections (pm_packets m) !! pc_addr c = Some i) by (apply Ht; eauto).
    assert (ps_connections (pm_packets m) !! pc_addr c = Some j) by (apply Ht; eauto). congruence.
  - intros i c Hi. pose proof (Hw _ _ Hi) as E. rewrite <-E. split_and!; [done| |].
    { by eapply Forall_lookup_1 in Hs as [H1 _]; [|exact Hi]. }
    destruct (Hreg _ _ Hi) as [data Hd]. exists data. split; [done|].
    destruct (proj1 (list.Forall_forall _ _) Hl _ Hd) as (c' & Hc' & _ & Hv). by simplify_eq/=.
  - intros addr data Hk Hsv. destruct (packet_fate (pm_packets m) addr data) as (s' & f & Hstep & Hf & Hlog); [done|].
    exists (MkPacketManager (pm_l m) (pm_kind m) (pm_conns m) s'), f.
    unfold pm_step, is_kind, on_packets. rewrite Hk, Hsv, Hstep. split_and!; [done|done|].
    unfold fate_of in Hf. destruct (ps_connections (pm_packets m) !! addr) as [i|].
    + destruct (ps_conns (pm_packets m) !! i) as [c|]; simplify_eq/=. by exists c.
    + destruct (validateConnection _ _ _) as [[|] ?]; by simplify_eq/=.
Qed.

Definition loop_error (k : raw_listener) (e : error) : Prop :=
  match k with
  | RawListener => ∃ e', e = wrapError "failed to accept new packet connection" e'
  | RawPacketConn => ∃ e', e = wrapError "failed to read packet" e'
  | RawCloser => e = errorString "unexpected conn"
  | RawOther => True
  end.

(** What there is depends on what the listener is. *)
Record kind_ok (m : packet_manager) : Prop := {
  ko_listen : l_phase (pm_l m) = PListen → pm_kind m = RawOther;
  ko_other : pm_kind m = RawOther → l_phase (pm_l m) = PListen ∨ ∃ e, l_phase (pm_l m) = PReturned e;
  ko_conns : pm_kind m ≠ RawListener → pm_conns m = [];
  ko_packets : pm_kind m ≠ RawPacketConn → pm_packets m = packet_init;
  ko_err e : l_phase (pm_l m) = PReturn e ∨ l_phase (pm_l m) = PReturned e → loop_error (pm_kind m) e;
}.

Lemma kind_ok_fail m e m' :
  kind_ok m → loop_error (pm_kind m) e → with_l (mgr_fail e (pm_l m)) m = Some m' → kind_ok m'.
Proof.
  intros [K1 K2 K3 K4 K5] He Hw. unfold with_l, mgr_fail in Hw. destruct (l_phase (pm_l m)) eqn:Hp; simplify_eq/=.
  split; simpl; try done.
  - intros Hk. destruct (K2 Hk) as [|[? ?]]; congruence.
  - intros e0 [[= <-]|?]; done.
Qed.

Lemma kind_ok_packets e m m' : kind_ok m → on_packets e m = Some m' →
  (∀ a d, e = EPacket a d → pm_kind m = RawPacketConn) → kind_ok m'.
Proof.
  intros [K1 K2 K3 K4 K5] Ho He. unfold on_packets in Ho.
  destruct (packet_step (pm_packets m) e) as [p|] eqn:Hp; simplify_eq/=. split; simpl; try done.
  intros Hk. rewrite K4 in Hp by done. destruct e as [a d| |]; [|done..]. by destruct Hk; eapply He.
Qed.

Lemma kind_ok_step m e m' : kind_ok m → pm_step m e = Some m' → kind_ok m'.
Proof.
  intros Hk Hs. destruct e as [r| |[c|e]|i|[[addr data]|e]|i|i op| |]; simpl in Hs.
  - pose proof Hk as [K1 K2 K3 K4 K5].
    assert (packet_listen network r ≠ Ok RawOther) as Hno by (by destruct r as [[]|]).
    unfold with_l, mgr_listen in Hs. destruct (packet_listen network r) as [k|e] eqn:Hr; simpl in Hs;
      destruct (l_phase (pm_l m)) eqn:Hp; simplify_eq/=; rewrite K1 in K3, K4 by done; rewrite ?K1 by done.
    + split; simpl; try done; [by intros -> |by auto|by auto|by intros e [?|?]].
    + split; simpl; try done; rewrite ?K1 by done; eauto.
  - destruct (is_kind RawCloser m) eqn:Hi; [|done]. eapply kind_ok_fail; [done| |exact Hs].
    unfold is_kind in Hi. by destruct (pm_kind m).
  - destruct (is_kind RawListener m) eqn:Hi; simpl in Hs; [|done]. destruct (mgr_serving _); simplify_eq.
    destruct Hk as [K1 K2 K3 K4 K5]. split; simpl; try done. unfold is_kind in Hi. by destruct (pm_kind m).
  - destruct (is_kind RawListener m) eqn:Hi; [|done]. eapply kind_ok_fail; [done| |exact Hs].
    unfold is_kind in Hi. destruct (pm_kind m); try done. simpl. eauto.
  - unfold conn_step in Hs. destruct (pm_conns m !! i) as [c|] eqn:Hc; [|done]. simpl in Hs.
    destruct (sconn_step c); simplify_eq/=. destruct Hk as [K1 K2 K3 K4 K5]. split; simpl; try done.
    intros Hk. by rewrite K3 in Hc.
  - destruct (is_kind RawPacketConn m) eqn:Hi; simpl in Hs; [|done]. destruct (mgr_serving _); [|done].
    eapply kind_ok_packets; [done|exact Hs|]. unfold is_kind in Hi. by destruct (pm_kind m).
  - destruct (is_kind RawPacketConn m) eqn:Hi; [|done]. eapply kind_ok_fail; [done| |exact Hs].
    unfold is_kind in Hi. destruct (pm_kind m); try done. simpl. eauto.
  - by eapply kind_ok_packets.
  - by eapply kind_ok_packets.
  - unfold with_l, mgr_return in Hs. destruct Hk as [K1 K2 K3 K4 K5].
    destruct (l_phase (pm_l m)) eqn:Hp; simplify_eq/=. split; simpl; try done; [by eauto|].
    intros e0 [?|[= <-]]; [done|]. eauto.
  - unfold mgr_Close in Hs. destruct Hk as [K1 K2 K3 K4 K5]. destruct (l_set (pm_l m)); simplify_eq; by split.
Qed.

(** A listener that is closed, and not about to be opened. *)
Definition inert (m : packet_manager) : Prop := l_phase (pm_l m) ≠ PListen ∧ l_open (pm_l m) = false.

(** What was taken from the network: connections and packets. *)
Definition taken (m : packet_manager) : nat * list (string * bytes * fate) :=
  (length (pm_conns m), ps_log (pm_packets m)).

Lemma packet_step_log s e s' :
  packet_step s e = Some s' → (∀ a d, e ≠ EPacket a d) → ps_log s' = ps_log s.
Proof.
  intros Hs Hne. destruct e as [a d|i|i op]; [by destruct (Hne a d)|..]; simpl in Hs; unfold session_op in Hs;
    split_step Hs; done.
Qed.

Lemma inert_step m e m' : inert m → pm_step m e = Some m' → inert m' ∧ taken m' = taken m.
Proof.
  intros [Hp Ho] Hs. unfold inert, taken.
  assert (∀ e, (∀ a d, e ≠ EPacket a d) → on_packets e m = Some m' →
    pm_l m' = pm_l m ∧ pm_conns m' = pm_conns m ∧ ps_log (pm_packets m') = ps_log (pm_packets m)) as Hop.
  { intros e0 He0 Hop. unfold on_packets in Hop. destruct (packet_step (pm_packets m) e0) eqn:E; simplify_eq/=.
    split_and!; [done|done|]. by eapply packet_step_log. }
  assert (mgr_serving (pm_l m) = false) as Hsv by (unfold mgr_serving; by destruct (l_phase (pm_l m))).
  destruct e as [r| |[c|e]|i|[[addr data]|e]|i|i op| |]; simpl in Hs; rewrite ?Hsv, ?andb_false_r in Hs; try done.
  6: destruct (Hop (EHandler i)) as (-> & -> & ->); done.
  6: destruct (Hop (ESession i op)) as (-> & -> & ->); done.
  - unfold mgr_listen, with_l in Hs. destruct (packet_listen network r), (l_phase (pm_l m)); done.
  - unfold with_l, mgr_fail in Hs. destruct (is_kind _ _), (l_phase (pm_l m)); by simplify_eq/=.
  - unfold with_l, mgr_fail in Hs. destruct (is_kind _ _), (l_phase (pm_l m)); by simplify_eq/=.
  - unfold conn_step in Hs. destruct (pm_conns m !! i) as [c|]; [|done]. simpl in Hs.
    destruct (sconn_step c); simplify_eq/=. by rewrite length_insert.
  - unfold with_l, mgr_fail in Hs. destruct (is_kind _ _), (l_phase (pm_l m)); by simplify_eq/=.
  - unfold with_l, mgr_return in Hs. destruct (l_phase (pm_l m)); by simplify_eq/=.
  - unfold with_l, mgr_Close in Hs. destruct (l_set (pm_l m)); by simplify_eq/=.
Qed.

Lemma inert_run es m m' : inert m → run pm_step m es = Some m' → taken m' = taken m.
Proof.
  revert m. induction es as [|e es IH]; intros m Hi Hrun; simpl in Hrun; [by simplify_eq|].
  destruct (pm_step m e) as [m1|] eqn:E; [|done]. destruct (inert_step _ _ _ Hi E) as [Hi1 <-]. by apply IH.
Qed.

(** C33. A packet endpoint serves what its listener is.  Over a net.Listener (DTLS) every accepted
    connection is validated, handed to the server at most once, and only with the kind, name and codec
    that what its peer sent announces, and closed once when its goroutine ends, as on a stream
    endpoint, and no packet table is kept; over a net.PacketConn nothing is accepted; anything else
    ends ListenAndServe with an error.  Once the listener was opened and Close has been called, or
    once ListenAndServe has returned, no schedule accepts another connection or takes another
    packet; and the error ListenAndServe returns says which operation failed. *)
Theorem packet_endpoint m :
  reachable pm_step (eq pm_init) m →
  (∀ i c, pm_conns m !! i = Some c → pm_kind m = RawListener ∧
     (sc_closed c = if sc_at c is VDone then 1 else 0)%nat ∧
     (∀ params rest, sc_handled c = Some (params, rest) →
        validateConnection codec_String registry (sc_peer c) = (Ok params, rest)) ∧
     (∀ params rest, sc_at c = VDone → validateConnection codec_String registry (sc_peer c) = (Ok params, rest) →
        sc_handled c = Some (params, rest))) ∧
  (pm_packets m ≠ packet_init → pm_kind m = RawPacketConn) ∧
  (∀ e, mgr_returned (pm_l m) = Some e → l_open (pm_l m) = false ∧ loop_error (pm_kind m) e) ∧
  (∀ es m', l_set (pm_l m) = true → run pm_step m (QClose :: es) = Some m' →
     length (pm_conns m') = length (pm_conns m) ∧ ps_log (pm_packets m') = ps_log (pm_packets m)) ∧
  (∀ es m' e, mgr_returned (pm_l m) = Some e → run pm_step m es = Some m' →
     length (pm_conns m') = length (pm_conns m) ∧ ps_log (pm_packets m') = ps_log (pm_packets m)).
Proof.
  intros Hr. pose proof (pm_ok_reachable _ Hr) as [Hl Hc].
  assert (kind_ok m) as [K1 K2 K3 K4 K5].
  { revert Hr. apply invariant_reachable. split; [|apply kind_ok_step]. intros ? <-.
    split; simpl; try done. by left. }
  split_and!.
  - intros i c Hi. split; [|apply sconn_facts; by eapply (Forall_lookup_1 _ _ _ _ Hc)].
    destruct (pm_kind m) eqn:Hk; [done|..]; by rewrite K3 in Hi.
  - destruct (pm_kind m) eqn:Hk; try done; by rewrite K4.
  - intros e He. unfold mgr_returned in He. destruct (l_phase (pm_l m)) eqn:Hp; simplify_eq.
    split; [by eapply mo_end|]. by apply K5; right.
  - intros es m' Hset Hrun. simpl in Hrun. apply inert_run in Hrun; [by injection Hrun|].
    pose proof (mo_set _ Hl Hset). unfold inert, mgr_Close. simpl. by rewrite Hset.
  - intros es m' e He Hrun. apply inert_run in Hrun; [by injection Hrun|].
    unfold mgr_returned in He. destruct (l_phase (pm_l m)) eqn:Hp; simplify_eq.
    split; [by rewrite Hp|by eapply mo_end].
Qed.
End managers.

(** ** Runs on concrete schedules *)

(** A pipe: what was written and not read, and whether its ends are open. *)
Module SamplePipe.
#[export] Instance queue_pipe : Pipe (bytes * bool * bool) := {|
  pipe_new := ([], true, true);
  pipe_write data p :=
    let '(q, w, r) := p in
    if w && r then ((q ++ data, w, r), len data, None)
    else (p, 0, Some (errorString "io: read/write on closed pipe"));
  pipe_read size p :=
    let '(q, w, r) := p in
    if negb r then Some (p, [], Some (errorString "io: read/write on closed pipe"))
    else match q with
         | [] => if w then None else Some (p, [], Some EOF)
         | _ => if 0 <? size then Some ((dropZ size q, w, r), takeZ size q, None) else Some (p, [], None)
         end;
  pipe_closeWrite p := let '(q, w, r) := p in (q, false, r);
  pipe_closeRead p := let '(q, w, r) := p in (q, w, false);
|}.

#[export] Instance queue_pipe_laws : PipeLaws (bytes * bool * bool).
Proof.
  apply (Build_PipeLaws _ _ (λ p, p.1.1)); [done|..].
  - intros data [[q w] r] p' n err Hw. simpl in Hw. destruct (w && r); simplify_eq/=.
    + rewrite takeZ_full. pose proof (len_nonneg data). split_and!; done || lia.
    + pose proof (len_nonneg data). rewrite app_nil_r. split_and!; done || lia.
  - intros size [[q w] r] p' data err Hs Hr. simpl in Hr.
    destruct r; simplify_eq/=; [|done]. destruct q as [|z q]; [by destruct w; simplify_eq/=|].
    destruct (Z.ltb_spec 0 size); simplify_eq/=; [|done]. unfold takeZ, dropZ, len.
    split_and!; [rewrite length_take; lia|by rewrite take_drop|done].
  - by intros [[q w] r].
  - by intros [[q w] r].
Qed.
End SamplePipe.

Module SampleConnMgr.
Import SampleJson SamplePipe.
#[local] Existing Instance sample_pb.

Abbreviation pstep := (pm_step (P := bytes * bool * bool) (λ _, EmptyString) sample_registry "udp").
Abbreviation sstep := (stream_step (λ _, EmptyString) sample_registry "tcp").

(** An extension registers and sends data, which its session reads; noise from elsewhere is
    ignored. *)
Definition packet_schedule : list pm_event :=
  [QListen (Ok RawPacketConn); QReadFrom (Ok ("10.0.0.1:9", client_regMsg sample_client));
   QReadFrom (Ok ("10.0.0.2:9", [1; 2])); QReadFrom (Ok ("10.0.0.1:9", [5; 6]));
   QReadFrom (Ok ("10.0.0.1:9", [7])); QSession 0 (SRead 2); QSession 0 (SWrite [8])].

Definition packet_after : packet_manager (I := string) (P := bytes * bool * bool) :=
  match run pstep pm_init packet_schedule with Some s => s | None => pm_init end.

(** A valid connection and an invalid one; Close. *)
Definition stream_schedule : list stream_event :=
  [EListen (Ok RawListener); EAccept (Ok (Conn [client_regMsg sample_client; [42]] EOF));
   EAccept (Ok (Conn [] EOF)); EConn 0; EConn 1; EConn 1; EConn 0; EConn 0].

Definition stream_after : stream_state (I := string) :=
  match run sstep stream_init stream_schedule with Some s => s | None => stream_init end.

Definition first_packet_conn : pconn (I := string) :=
  match ps_conns (pm_packets packet_after) !! 0%nat with
  | Some c => c
  | None => MkPconn EmptyString (0, EmptyString, EmptyString) HGone (newPacketStream EmptyString pipe_new) [] []
  end.

Definition first_stream_conn : sconn (I := string) :=
  match ss_conns stream_after !! 0%nat with Some c => c | None => MkSconn (Conn [] EOF) (Conn [] EOF) VDone None 0 end.

Lemma packet_demultiplexing_witness :
  pc_read first_packet_conn = [5; 6] ∧
  pc_read first_packet_conn ++ ps_unread (pc_stream first_packet_conn) =
    concat (delivered 0 (ps_log (pm_packets packet_after))).
Proof.
  split; [vm_compute; reflexivity|].
  apply (packet_demultiplexing (λ _, EmptyString) sample_registry "udp" packet_after).
  - apply (run_reachable _ _ packet_schedule). vm_compute. reflexivity.
  - vm_compute. reflexivity.
Defined.

Lemma accepted_connections_witness :
  (sc_closed first_stream_conn = if sc_at first_stream_conn is VDone then 1 else 0)%nat.
Proof.
  apply (accepted_connections (λ _, EmptyString) sample_registry "tcp" stream_after) with (i := 0%nat).
  - apply (run_reachable _ _ stream_schedule). vm_compute. reflexivity.
  - vm_compute. reflexivity.
Defined.

(** The same over DTLS, until Accept fails. *)
Definition dtls_schedule : list pm_event :=
  [QListen (Ok RawListener); QAccept (Ok (Conn [client_regMsg sample_client; [42]] EOF)); QConn 0; QConn 0; QClose;
   QAccept (Err (errorString "closed")); QReturn].

Definition dtls_after : packet_manager (I := string) (P := bytes * bool * bool) :=
  match run pstep pm_init dtls_schedule with Some s => s | None => pm_init end.

Lemma packet_endpoint_witness :
  l_open (pm_l dtls_after) = false ∧
  loop_error RawListener (wrapError "failed to accept new packet connection" (errorString "closed")).
Proof.
  apply (packet_endpoint (λ _, EmptyString) sample_registry "udp" dtls_after).
  - apply (run_reachable _ _ dtls_schedule). vm_compute. reflexivity.
  - vm_compute. reflexivity.
Defined.

Example packet_schedule_delivers :
  pc_written first_packet_conn = [[5; 6]; [7]] ∧ ps_sent (pm_packets packet_after) = [("10.0.0.1:9", [8])].
Proof. by vm_compute. Qed.
End SampleConnMgr.
