(* ===== verification/Hub.v ===== *)
(** * The hub as a whole (server/)

    The way of a connection through the hub, with everything that happens at the same time: the
    goroutine an endpoint starts for it (server/conn_stream.go, conn_packet.go), validateConnection,
    Server.handleNewConn, ExtensionManager.HandleStream with its session ([Extension]), and
    Server.Handle, which may be called at any time.  The lookups of handleNewConn are two critical
    sections of the server's lock, the registration of the name and its removal are critical
    sections of the manager's; each is a step of [hub_step]. *)
From S2P Require Import Prelude Codec Proto StdJson Handshake Server MsgWait Extension.
From stdpp Require Import functions.

Set Default Proof Using "Type".

(** The goroutine of an accepted connection. *)
Inductive hub_pc : Type :=
| BValidate                                                 (* m.validateConnection(conn), in its Decode *)
| BNamed (kind : Z) (name : string)                         (* handleNewConn: the extension's own manager *)
| BGeneral (kind : Z) (name : string)                       (* the general one of its kind *)
| BRegister (name : string) (mgr : nat) (keepaliveInterval messageTimeout : Z)   (* HandleStream *)
| BServe (name : string) (mgr : nat)                        (* wg.Wait() *)
| BUnregister (name : string) (mgr : nat) (err : option error)   (* deferred *)
| BClose (err : option error)                               (* deferred: conn.Close() *)
| BDone.

Section hub.
Context `{pb : !ArhatPb, json : !JsonAPI} {I : Type} {TLS F : Type} {Q : Type} `{tq : !TimeoutQueue Q}.
Context (codec_String kind_String : Z → string) (registry : gmap Z I).

(** ** State *)

(** A connection.  [hc_first] is what its peer sent, as far as it is known when the Decode of
    validateConnection has returned, [hc_conn] what is left of it, [hc_seen] the number of Handle
    calls there were when handleNewConn began, and [hc_route] what it looked up and found. *)
Record hconn : Type := MkHconn {
  hc_listen : Addr;
  hc_conn : conn;
  hc_at : hub_pc;
  hc_session : option (string * Z * Z * session Q);   (* with its name and parameters *)
  hc_closed : nat;
  hc_first : conn;
  hc_seen : nat;
  hc_route : option (Z * string * option nat);
}.

Record hub : Type := MkHub {
  h_server : Server TLS F;
  h_calls : list (handle_call (F := F));   (* the calls of Handle *)
  h_conns : list hconn;
}.
Implicit Types (y : hub) (c : hconn) (s : Server TLS F).

Definition hub_init s : hub := MkHub s [] [].

Definition new_hconn (addr : Addr) : hconn := MkHconn addr (Conn [] EOF) BValidate None 0 (Conn [] EOF) 0 None.

Definition at_pc (pc : hub_pc) c : hconn :=
  MkHconn (hc_listen c) (hc_conn c) pc (hc_session c) (hc_closed c) (hc_first c) (hc_seen c) (hc_route c).
Definition with_session (x : option (string * Z * Z * session Q)) c : hconn :=
  MkHconn (hc_listen c) (hc_conn c) (hc_at c) x (hc_closed c) (hc_first c) (hc_seen c) (hc_route c).
Definition conn_Close c : hconn :=
  MkHconn (hc_listen c) (hc_conn c) BDone (hc_session c) (S (hc_closed c)) (hc_first c) (hc_seen c) (hc_route c).
Definition routed (kind : Z) (name : string) (mgr : option nat) c : hconn :=
  MkHconn (hc_listen c) (hc_conn c) (hc_at c) (hc_session c) (hc_closed c) (hc_first c) (hc_seen c)
    (Some (kind, name, mgr)).

(** The registered names of a manager. *)
Definition set_registered (mgr : nat) (names : gset string) s : Server TLS F :=
  MkServer (connectionConfig s) (connectionManagers s) (extensionManagers s)
    (alter (λ m, MkExtMgr (createHandleFunc m) names) mgr (managers s)).

(** ** Steps *)

(** The rest of handleNewConn, up to the call of HandleStream. *)
Definition call_HandleStream s (kind : Z) (name : string) (mgr : nat) c : hconn :=
  routed kind name (Some mgr)
    (at_pc
       (match connectionConfig s !! addr_key (hc_listen c) with
        | None => BClose (Some (errorString "endpoint config not found"))
        | Some ec => BRegister name mgr (normalize (ep_KeepaliveInterval ec)) (normalize (ep_MessageTimeout ec))
        end) c).

(** validateConnection returns, the peer having sent [x]; [calls] is the number of Handle calls so
    far. *)
Definition conn_validated (calls : nat) (x : conn) c : hconn :=
  match validateConnection codec_String registry x with
  | (Err e, rest) =>
      MkHconn (hc_listen c) rest (BClose (Some e)) (hc_session c) (hc_closed c) x (hc_seen c) (hc_route c)
  | (Ok (kind, name, _), rest) =>
      MkHconn (hc_listen c) rest (BNamed kind name) (hc_session c) (hc_closed c) x calls (hc_route c)
  end.

(** The next action of a connection's goroutine that does not depend on its peer. *)
Definition hconn_step s c : option (Server TLS F * hconn) :=
  match hc_at c with
  | BValidate => None   (* Decode waits for the peer: [HRegister] *)
  | BNamed kind name =>
      match extensionManagers s !! (kind, name) with
      | Some mgr => Some (s, call_HandleStream s kind name mgr c)
      | None => Some (s, at_pc (BGeneral kind name) c)
      end
  | BGeneral kind name =>
      match extensionManagers s !! (kind, "") with
      | Some mgr => Some (s, call_HandleStream s kind name mgr c)
      | None =>
          Some (s, routed kind name None
                     (at_pc (BClose (Some (errorString ("no handler for " +:+ kind_String kind)))) c))
      end
  | BRegister name mgr keepaliveInterval messageTimeout =>
      m ← managers s !! mgr;
      match register_extension (registeredExtensions m) name with
      | Err e => Some (s, at_pc (BClose (Some e)) c)
      | Ok names =>
          Some (set_registered mgr names s,
                with_session (Some (name, keepaliveInterval, messageTimeout, new_session))
                  (at_pc (BServe name mgr) c))
      end
  | BServe name mgr =>
      '(_, _, _, x) ← hc_session c;
      err ← handle_result x;
      Some (s, at_pc (BUnregister name mgr err) c)
  | BUnregister name mgr err =>
      m ← managers s !! mgr;
      Some (set_registered mgr (unregister_extension (registeredExtensions m) name) s, at_pc (BClose err) c)
  | BClose err => Some (s, conn_Close c)
  | BDone => None
  end.

Inductive hub_event : Type :=
| HHandle (call : handle_call (F := F))          (* Server.Handle *)
| HAccept (i : nat)                              (* connection manager [i] accepts a connection *)
| HRegister (j : nat) (x : conn)                 (* the Decode of validateConnection returns on connection [j] *)
| HPacket (i : nat) (data : bytes)               (* packet manager [i] reads a packet from a new address *)
| HConn (j : nat)                                (* the goroutine of connection [j] *)
| HSession (j : nat) (e : ext_event).            (* its session *)

Definition on_conn (j : nat) s c y : hub := MkHub s (h_calls y) (<[j := c]> (h_conns y)).

Definition hub_step y (e : hub_event) : option hub :=
  match e with
  | HHandle call => Some (MkHub (do_Handle (h_server y) call) (h_calls y ++ [call]) (h_conns y))
  | HAccept i =>   (* conn_stream.go, or conn_packet.go over DTLS *)
      cm ← connectionManagers (h_server y) !! i;
      Some (MkHub (h_server y) (h_calls y) (h_conns y ++ [new_hconn (cm_addr cm)]))
  | HRegister j x =>
      c ← h_conns y !! j;
      match hc_at c with
      | BValidate => Some (on_conn j (h_server y) (conn_validated (length (h_calls y)) x c) y)
      | _ => None
      end
  | HPacket i data =>   (* the goroutine starts after a registration that is valid *)
      cm ← connectionManagers (h_server y) !! i;
      match cm_kind cm, (validateConnection codec_String registry (Conn [data] EOF)).1 with
      | StreamManager, _ => None
      | PacketManager, Err _ => Some y
      | PacketManager, Ok _ =>
          Some (MkHub (h_server y) (h_calls y)
                 (h_conns y ++ [conn_validated (length (h_calls y)) (Conn [data] EOF) (new_hconn (cm_addr cm))]))
      end
  | HConn j =>
      c ← h_conns y !! j;
      '(s, c') ← hconn_step (h_server y) c;
      Some (on_conn j s c' y)
  | HSession j e =>
      c ← h_conns y !! j;
      '(name, ka, mt, x) ← hc_session c;
      x' ← ext_step name ka mt x e;
      Some (on_conn j (h_server y) (with_session (Some (name, ka, mt, x')) c) y)
  end.

(** ** Routes *)

(** Servers that route alike: they differ in the names their managers have registered. *)
Record same_routes s s' : Prop := {
  sr_config : connectionConfig s = connectionConfig s';
  sr_conns : connectionManagers s = connectionManagers s';
  sr_ext : extensionManagers s = extensionManagers s';
  sr_fun : createHandleFunc <$> managers s = createHandleFunc <$> managers s';
}.

Lemma same_routes_registered mgr names s s' : same_routes s s' → same_routes (set_registered mgr names s) s'.
Proof.
  intros [H1 H2 H3 H4]. split; try done. simpl. rewrite <-H4.
  rewrite (list_fmap_alter _ _ id) by (by apply Forall_true). by apply list_alter_id.
Qed.

Lemma same_routes_Handle call s s' : same_routes s s' → same_routes (do_Handle s call) (do_Handle s' call).
Proof.
  destruct call as [[kind f] names]. intros [H1 H2 H3 H4]. unfold do_Handle, Handle.
  pose proof (f_equal length H4) as Hl. rewrite !length_fmap in Hl.
  split; simpl; rewrite ?H1, ?H2, ?H3, ?Hl; try done. by rewrite !fmap_app, H4.
Qed.

(** The server after the first [i] calls of Handle. *)
Definition server_at s0 (calls : list (handle_call (F := F))) (i : nat) : Server TLS F :=
  foldl do_Handle s0 (take i calls).

Lemma server_at_snoc s0 calls call i :
  (i ≤ length calls)%nat → server_at s0 (calls ++ [call]) i = server_at s0 calls i.
Proof. intros Hi. unfold server_at. by rewrite take_app_le. Qed.

Lemma server_at_all s0 calls i : (length calls ≤ i)%nat → server_at s0 calls i = foldl do_Handle s0 calls.
Proof. intros Hi. unfold server_at. by rewrite take_ge. Qed.

(** A lookup that began when there were [n] calls and has ended gives what the routing table said at some
    moment in between. *)
Definition found s0 (calls : list (handle_call (F := F))) (n : nat) (kind : Z) (name : string) (r : option nat) : Prop :=
  ∃ i, (n ≤ i ≤ length calls)%nat ∧ find_manager (server_at s0 calls i) kind name = r.

Lemma found_snoc s0 calls call n kind name r :
  found s0 calls n kind name r → found s0 (calls ++ [call]) n kind name r.
Proof.
  intros (i & Hi & Hf). exists i. rewrite length_app, server_at_snoc by lia. split; [lia|done].
Qed.

(** Between the two lookups of handleNewConn: the extension had no manager of its own after the
    first [i] calls. *)
Definition missed s0 (calls : list (handle_call (F := F))) (n : nat) (kind : Z) (name : string) : Prop :=
  ∃ i, (n ≤ i ≤ length calls)%nat ∧ extensionManagers (server_at s0 calls i) !! (kind, name) = None.

Lemma missed_snoc s0 calls call n kind name :
  missed s0 calls n kind name → missed s0 (calls ++ [call]) n kind name.
Proof.
  intros (i & Hi & Hf). exists i. rewrite length_app, server_at_snoc by lia. split; [lia|done].
Qed.

(** Then the second lookup finds what a lookup of both at one moment would have found: whatever
    changes the general manager removes the special ones. *)
Lemma missed_found s0 calls n kind name :
  missed s0 calls n kind name →
  found s0 calls n kind name (extensionManagers (foldl do_Handle s0 calls) !! (kind, "")).
Proof.
  induction calls as [|call calls IH] using rev_ind; intros (i & Hi & Hn).
  - exists i. split; [done|]. rewrite server_at_all in * by (simpl; lia). unfold find_manager. by rewrite Hn.
  - rewrite length_app in Hi. simpl in Hi. destruct (decide (i = S (length calls))) as [->|Hne].
    { exists (S (length calls)). rewrite length_app. simpl. split; [lia|].
      rewrite server_at_all in * by (rewrite length_app; simpl; lia). unfold find_manager. by rewrite Hn. }
    rewrite server_at_snoc in Hn by lia. rewrite foldl_app. simpl.
    destruct call as [[k f] names] eqn:Hcall. rewrite <-Hcall.
    destruct (decide (names = [] ∧ kind = k)) as [[-> <-]|Hother].
    + exists (S (length calls)). rewrite length_app. simpl. split; [lia|].
      rewrite server_at_all by (rewrite length_app; simpl; lia). rewrite foldl_app. simpl.
      rewrite find_manager_Handle. subst call. unfold covers, do_Handle.
      rewrite bool_decide_true by auto. rewrite Handle_lookup, bool_decide_false by (intros [_ []%elem_of_nil]).
      by rewrite !bool_decide_true.
    + subst call. unfold do_Handle at 1. rewrite Handle_lookup.
      rewrite bool_decide_false by (by intros [_ []%effective_nonempty]).
      rewrite (bool_decide_false (names = [] ∧ kind = k)) by done. apply found_snoc, IH. exists i. split; [lia|done].
Qed.

(** ** The invariant *)

(** The manager a connection has registered its name with. *)
Definition serves c : option (nat * string) :=
  match hc_at c with BServe name mgr | BUnregister name mgr _ => Some (mgr, name) | _ => None end.

(** The extension the peer announced. *)
Definition announced c (kind : Z) (name : string) : Prop :=
  ∃ codec rest, validateConnection codec_String registry (hc_first c) = (Ok (kind, name, codec), rest).

(** Where a connection's goroutine is, and what it has done. *)
Definition pc_ok s0 (calls : list (handle_call (F := F))) c : Prop :=
  match hc_at c with
  | BValidate => hc_route c = None ∧ hc_session c = None
  | BNamed kind name => announced c kind name ∧ hc_route c = None ∧ hc_session c = None
  | BGeneral kind name =>
      announced c kind name ∧ missed s0 calls (hc_seen c) kind name ∧ hc_route c = None ∧ hc_session c = None
  | BRegister name mgr ka mt =>
      (∃ kind, hc_route c = Some (kind, name, Some mgr)) ∧ hc_session c = None ∧
      ∃ ec, connectionConfig s0 !! addr_key (hc_listen c) = Some ec ∧
        ka = normalize (ep_KeepaliveInterval ec) ∧ mt = normalize (ep_MessageTimeout ec)
  | BServe name mgr | BUnregister name mgr _ =>
      (∃ kind, hc_route c = Some (kind, name, Some mgr)) ∧ ∃ ka mt x, hc_session c = Some (name, ka, mt, x)
  | BClose _ | BDone => True
  end.

Record hconn_ok s0 (calls : list (handle_call (F := F))) c : Prop := {
  co_listen : ∃ cm, cm ∈ connectionManagers s0 ∧ hc_listen c = cm_addr cm;
  co_seen : (hc_seen c ≤ length calls)%nat;
  co_closed : hc_closed c = (if hc_at c is BDone then 1 else 0)%nat;
  co_pc : pc_ok s0 calls c;
  co_route kind name r :
    hc_route c = Some (kind, name, r) → announced c kind name ∧ found s0 calls (hc_seen c) kind name r;
  co_session name ka mt x : hc_session c = Some (name, ka, mt, x) →
    (∃ kind mgr, hc_route c = Some (kind, name, Some mgr)) ∧
    (∃ ec, connectionConfig s0 !! addr_key (hc_listen c) = Some ec ∧
       ka = normalize (ep_KeepaliveInterval ec) ∧ mt = normalize (ep_MessageTimeout ec)) ∧
    ext_reachable name ka mt x;
}.

(** The connections that serve an extension, and the names their managers have registered. *)
Definition serving y (j : nat) : option (nat * string) := h_conns y !! j ≫= serves.

Record names_ok s (serving : nat → option (nat * string)) : Prop := {
  no_names mgr m name : managers s !! mgr = Some m →
    (name ∈ registeredExtensions m ↔ ∃ j, serving j = Some (mgr, name));
  no_unique j j' p : serving j = Some p → serving j' = Some p → j = j';
}.

Record hub_inv s0 y : Prop := {
  hu_routes : same_routes (h_server y) (foldl do_Handle s0 (h_calls y));
  hu_conn j c : h_conns y !! j = Some c → hconn_ok s0 (h_calls y) c;
  hu_names : names_ok (h_server y) (serving y);
}.

Lemma hconn_ok_snoc s0 calls call c : hconn_ok s0 calls c → hconn_ok s0 (calls ++ [call]) c.
Proof.
  intros [I1 I2 I3 I4 I5 I6]. split; try done.
  - rewrite length_app. lia.
  - unfold pc_ok in *. destruct (hc_at c); try done. destruct I4 as (? & ? & ? & ?). eauto using missed_snoc.
  - intros kind name r Hr. destruct (I5 _ _ _ Hr). eauto using found_snoc.
Qed.

Lemma hconn_ok_new s0 calls cm : cm ∈ connectionManagers s0 → hconn_ok s0 calls (new_hconn (cm_addr cm)).
Proof. intros Hcm. split; try done; [by eauto|simpl; lia]. Qed.

Lemma conn_validated_ok s0 calls x c :
  hconn_ok s0 calls c → hc_at c = BValidate → hconn_ok s0 calls (conn_validated (length calls) x c).
Proof.
  intros [I1 I2 I3 I4 I5 I6] Hat. unfold pc_ok in I4. rewrite Hat in *. destruct I4 as (Hr & Hse).
  unfold conn_validated. destruct (validateConnection _ _ _) as [[[[kind name] codec]|e] rest] eqn:Hv;
    split; simpl; rewrite ?Hr, ?Hse; try done. split_and!; try done. by exists codec, rest.
Qed.

Lemma conn_validated_serves n x c : serves (conn_validated n x c) = None.
Proof. unfold conn_validated. by destruct (validateConnection _ _ _) as [[[[kind name] codec]|e] rest]. Qed.

(** Handing a connection to a manager that was found. *)
Lemma call_HandleStream_ok s0 calls s kind name mgr c :
  hconn_ok s0 calls c → connectionConfig s = connectionConfig s0 → (hc_at c = BNamed kind name ∨ hc_at c = BGeneral kind name) →
  hc_session c = None → announced c kind name → found s0 calls (hc_seen c) kind name (Some mgr) →
  hconn_ok s0 calls (call_HandleStream s kind name mgr c).
Proof.
  intros [I1 I2 I3 I4 I5 I6] Hcfg Hat Hs Ha Hf. unfold call_HandleStream. rewrite Hcfg.
  assert (hc_closed c = 0%nat) as Hcl by (by rewrite I3; destruct Hat as [-> | ->]).
  split; simpl; try done.
  - by destruct (connectionConfig s0 !! _).
  - unfold pc_ok. simpl. destruct (connectionConfig s0 !! addr_key (hc_listen c)) as [ec|] eqn:Hec; [|done].
    split; [by eauto|]. split; [done|]. by exists ec.
  - by intros ? ? ? [= <- <- <-].
  - rewrite Hs. done.
Qed.

(** What a step of a connection does to the registered names. *)
Inductive names_move s s' c c' : Prop :=
| nm_none : s' = s → serves c' = serves c → names_move s s' c c'
| nm_register mgr m name :
    managers s !! mgr = Some m → name ∉ registeredExtensions m → serves c = None → serves c' = Some (mgr, name) →
    s' = set_registered mgr ({[name]} ∪ registeredExtensions m) s → names_move s s' c c'
| nm_unregister mgr m name :
    managers s !! mgr = Some m → serves c = Some (mgr, name) → serves c' = None →
    s' = set_registered mgr (registeredExtensions m ∖ {[name]}) s → names_move s s' c c'.

Lemma hconn_step_move s c s' c' : hconn_step s c = Some (s', c') → names_move s s' c c'.
Proof.
  intros Hs. unfold hconn_step in Hs. destruct (hc_at c) eqn:Hat; try done.
  - case_match; simplify_eq; (apply nm_none; [done|]); unfold serves; rewrite Hat; simpl; [|done].
    by destruct (connectionConfig _ !! _).
  - case_match; simplify_eq; (apply nm_none; [done|]); unfold serves; rewrite Hat; simpl; [|done].
    by destruct (connectionConfig _ !! _).
  - destruct (managers s !! mgr) as [m|] eqn:Hm; [|done]. simpl in Hs. unfold register_extension in Hs.
    case_bool_decide; simplify_eq.
    + apply nm_none; [done|]. unfold serves. by rewrite Hat.
    + eapply nm_register; try done. unfold serves. by rewrite Hat.
  - destruct (hc_session c) as [[[[? ?] ?] x]|]; [|done]. simpl in Hs. destruct (handle_result x); simplify_eq/=.
    apply nm_none; [done|]. unfold serves. by rewrite Hat.
  - destruct (managers s !! mgr) as [m|] eqn:Hm; simplify_eq/=. eapply nm_unregister; try done.
    unfold serves. by rewrite Hat.
  - simplify_eq. apply nm_none; [done|]. unfold serves. by rewrite Hat.
Qed.

Lemma found_now s0 calls n s kind name mgr :
  (n ≤ length calls)%nat → same_routes s (foldl do_Handle s0 calls) →
  extensionManagers s !! (kind, name) = Some mgr → found s0 calls n kind name (Some mgr).
Proof.
  intros Hn [_ _ He _] Hm. exists (length calls). split; [lia|].
  rewrite server_at_all by lia. unfold find_manager. by rewrite <-He, Hm.
Qed.

Lemma hconn_step_ok s0 calls s c s' c' :
  same_routes s (foldl do_Handle s0 calls) → hconn_ok s0 calls c →
  hconn_step s c = Some (s', c') → hconn_ok s0 calls c'.
Proof.
  intros Hsr Hok Hs. destruct (connection_fields_foldl s0 calls) as [Hcfg _].
  rewrite <-(sr_config _ _ Hsr) in Hcfg. pose proof Hok as [I1 I2 I3 I4 I5 I6].
  unfold hconn_step in Hs. unfold pc_ok in I4. destruct (hc_at c) eqn:Hat; try done.
  - destruct I4 as (Ha & Hr & Hse). destruct (extensionManagers s !! (kind, name)) as [mgr|] eqn:Hm; simplify_eq.
    + apply call_HandleStream_ok; try done; [by left|]. by eapply found_now.
    + split; simpl; try done. split_and!; try done. exists (length calls). split; [simpl; lia|].
      rewrite server_at_all by lia. by rewrite <-(sr_ext _ _ Hsr).
  - destruct I4 as (Ha & Hmi & Hr & Hse). apply missed_found in Hmi. rewrite <-(sr_ext _ _ Hsr) in Hmi.
    destruct (extensionManagers s !! (kind, "")) as [mgr|]; simplify_eq.
    + apply call_HandleStream_ok; try done. by right.
    + split; simpl; try done; [by intros ? ? ? [= <- <- <-]|]. by rewrite Hse.
  - destruct I4 as ([kind Hr] & Hse & Hp). destruct (managers s !! mgr) as [m|]; [|done]. simpl in Hs.
    destruct (register_extension _ name); simplify_eq; split; simpl; rewrite ?Hse; try done.
    + split; [by eauto|]. by eauto.
    + intros ? ? ? ? [= <- <- <- <-]. split_and!; [by eauto|done|by constructor].
  - destruct I4 as (Hr & ka & mt & x & Hse). rewrite Hse in Hs. simpl in Hs.
    destruct (handle_result x); simplify_eq/=. split; simpl; try done. split; [done|]. by eauto.
  - destruct (managers s !! mgr) as [m|]; simplify_eq/=. by split.
  - simplify_eq. split; try done. simpl. by rewrite I3.
Qed.

Lemma set_registered_lookup mgr names s i m :
  managers (set_registered mgr names s) !! i = Some m →
  ∃ m0, managers s !! i = Some m0 ∧
    registeredExtensions m = if bool_decide (i = mgr) then names else registeredExtensions m0.
Proof.
  simpl. destruct (decide (i = mgr)) as [->|Hne].
  - rewrite list_lookup_alter_eq. destruct (managers s !! mgr) as [m0|]; [|done]. intros [= <-].
    exists m0. by rewrite bool_decide_true.
  - rewrite list_lookup_alter_ne by done. intros Hm. exists m. by rewrite bool_decide_false.
Qed.

Lemma names_ok_ext s serving serving' :
  (∀ j, serving' j = serving j) → names_ok s serving → names_ok s serving'.
Proof.
  intros E [Hn Hu]. split.
  - intros mgr m name Hm. rewrite (Hn _ _ _ Hm). by setoid_rewrite E.
  - intros j j' p. rewrite !E. apply Hu.
Qed.

Lemma names_ok_register s serving j mgr m name :
  names_ok s serving → managers s !! mgr = Some m → name ∉ registeredExtensions m → serving j = None →
  names_ok (set_registered mgr ({[name]} ∪ registeredExtensions m) s) (<[j := Some (mgr, name)]> serving).
Proof.
  intros [Hn Hu] Hm Hfree Hj.
  assert (∀ i, serving i ≠ Some (mgr, name)) as Hno by (intros i Hi; apply Hfree; rewrite (Hn _ _ _ Hm); eauto).
  assert (∀ i p, <[j := Some (mgr, name)]> serving i = Some p ↔ i = j ∧ p = (mgr, name) ∨ serving i = Some p) as Hs.
  { intros i p. destruct (decide (i = j)) as [->|Hne]; [rewrite fn_lookup_insert|rewrite fn_lookup_insert_ne by done];
      naive_solver. }
  split.
  - intros i m1 n1 (m0 & Hm0 & ->)%set_registered_lookup. setoid_rewrite Hs. case_bool_decide as Hi; simplify_eq.
    + rewrite elem_of_union, elem_of_singleton, (Hn _ _ _ Hm). naive_solver.
    + rewrite (Hn _ _ _ Hm0). naive_solver.
  - intros i i' p [[-> ->]|H1]%Hs [[-> ?]|H2]%Hs; simplify_eq; try done; [by apply Hno in H2|by apply Hno in H1|by eapply Hu].
Qed.

Lemma names_ok_unregister s serving j mgr m name :
  names_ok s serving → managers s !! mgr = Some m → serving j = Some (mgr, name) →
  names_ok (set_registered mgr (registeredExtensions m ∖ {[name]}) s) (<[j := None]> serving).
Proof.
  intros [Hn Hu] Hm Hj.
  assert (∀ i p, <[j := None]> serving i = Some p ↔ serving i = Some p ∧ p ≠ (mgr, name)) as Hs.
  { intros i p. destruct (decide (i = j)) as [->|Hne]; [rewrite fn_lookup_insert|rewrite fn_lookup_insert_ne by done];
      [naive_solver|]. split; [|by intros []]. intros Hi. split; [done|]. intros ->. by eapply Hne, Hu. }
  split.
  - intros i m1 n1 (m0 & Hm0 & ->)%set_registered_lookup. setoid_rewrite Hs. case_bool_decide as Hi; simplify_eq.
    + rewrite elem_of_difference, elem_of_singleton, (Hn _ _ _ Hm). naive_solver.
    + rewrite (Hn _ _ _ Hm0). naive_solver.
  - intros i i' p [H1 _]%Hs [H2 _]%Hs. by eapply Hu.
Qed.

Lemma serving_on_conn j s c' y i :
  is_Some (h_conns y !! j) → serving (on_conn j s c' y) i = <[j := serves c']> (serving y) i.
Proof.
  intros Hj. unfold serving. simpl. destruct (decide (i = j)) as [->|Hne].
  - rewrite fn_lookup_insert, list_lookup_insert_eq by (by apply lookup_lt_is_Some). done.
  - by rewrite fn_lookup_insert_ne, list_lookup_insert_ne.
Qed.

Lemma names_move_ok j s c c' s' y :
  names_ok s (serving y) → h_conns y !! j = Some c → names_move s s' c c' →
  names_ok s' (serving (on_conn j s' c' y)).
Proof.
  intros Hok Hj Hm. assert (serving y j = serves c) as Hse by (unfold serving; by rewrite Hj).
  eapply names_ok_ext; [intros i; apply serving_on_conn; eauto|].
  destruct Hm as [-> E|mgr m name Hmgr Hfree Hnone -> ->|mgr m name Hmgr Hsome -> ->].
  - eapply names_ok_ext; [|done]. intros i. rewrite E. destruct (decide (i = j)) as [->|Hne].
    + by rewrite fn_lookup_insert.
    + by rewrite fn_lookup_insert_ne.
  - apply names_ok_register; try done. congruence.
  - apply names_ok_unregister; try done. congruence.
Qed.

(** ** Every step keeps the invariant *)

Section reachable.
Context (s0 : Server TLS F) (no_routes : extensionManagers s0 = ∅) (no_managers : managers s0 = []).

Lemma managers_Handle s call : managers (do_Handle s call) = managers s ++ [NewExtensionManager call.1.2].
Proof. by destruct call as [[kind f] names]. Qed.

Lemma managers_grow l1 l2 : managers (foldl do_Handle s0 l1) `prefix_of` managers (foldl do_Handle s0 (l1 ++ l2)).
Proof.
  induction l2 as [|call l2 IH] using rev_ind; [by rewrite app_nil_r|].
  rewrite app_assoc, foldl_app. simpl. rewrite managers_Handle. by apply prefix_app_r.
Qed.

(** A manager that was found exists, with the factory it was made with. *)
Lemma found_manager calls n kind name r :
  found s0 calls n kind name r →
  ∃ i, (n ≤ i ≤ length calls)%nat ∧
    (∀ mgr, r = Some mgr → (mgr < length (managers (foldl do_Handle s0 calls)))%nat) ∧
    policy (take i calls) kind name =
      (mgr ← r; createHandleFunc <$> managers (foldl do_Handle s0 calls) !! mgr).
Proof using no_routes.
  intros (i & Hi & Hf). exists i. split; [done|].
  destruct (resolve_policy s0 (take i calls) kind name no_routes) as [Hwf Hres].
  pose proof (managers_grow (take i calls) (drop i calls)) as Hg. rewrite take_drop in Hg.
  assert (∀ mgr, r = Some mgr → (mgr < length (managers (server_at s0 calls i)))%nat) as Hlt.
  { intros mgr ->. unfold find_manager in Hf. case_match; simplify_eq; eauto. }
  split.
  - intros mgr Hr. apply prefix_length in Hg. specialize (Hlt _ Hr). unfold server_at in Hlt. lia.
  - rewrite <-Hres. unfold resolve. fold (server_at s0 calls i). rewrite Hf. destruct r as [mgr|]; [|done]. simpl.
    destruct Hg as [l ->]. by rewrite lookup_app_l by (by apply Hlt).
Qed.

Lemma serving_manager y j mgr name :
  hub_inv s0 y → serving y j = Some (mgr, name) → (mgr < length (managers (h_server y)))%nat.
Proof using no_routes.
  intros [I1 I2 _] Hj. unfold serving in Hj. destruct (h_conns y !! j) as [c|] eqn:Hc; [|done]. simpl in Hj.
  destruct (I2 _ _ Hc) as [_ _ _ Hpc Hroute _]. unfold serves in Hj. unfold pc_ok in Hpc.
  assert (∃ kind, hc_route c = Some (kind, name, Some mgr)) as [kind Hr]
    by (destruct (hc_at c); simplify_eq; apply Hpc).
  destruct (Hroute _ _ _ Hr) as [_ (i & _ & Hlt & _)%found_manager].
  pose proof (f_equal length (sr_fun _ _ I1)) as Hl. rewrite !length_fmap in Hl. rewrite Hl. by apply Hlt.
Qed.

Lemma names_ok_Handle s call serving :
  names_ok s serving → (∀ j mgr name, serving j = Some (mgr, name) → (mgr < length (managers s))%nat) →
  names_ok (do_Handle s call) serving.
Proof.
  intros [Hn Hu] Hlt. split; [|done]. intros mgr m name. rewrite managers_Handle.
  intros [Hm|[Hge Hm]]%lookup_app_Some; [by eauto|].
  apply list_lookup_singleton_Some in Hm as [_ <-]. simpl. split; [by intros []%not_elem_of_empty|].
  intros [j Hj%Hlt]. lia.
Qed.

Lemma names_move_routes s s' c c' s1 : names_move s s' c c' → same_routes s s1 → same_routes s' s1.
Proof. intros [-> _|??? _ _ _ _ ->|??? _ _ _ ->] Hs; [done|by apply same_routes_registered..]. Qed.

Lemma hconn_ok_session calls c name ka mt x e x' :
  hconn_ok s0 calls c → hc_session c = Some (name, ka, mt, x) → ext_step name ka mt x e = Some x' →
  hconn_ok s0 calls (with_session (Some (name, ka, mt, x')) c).
Proof.
  intros [I1 I2 I3 I4 I5 I6] Hse He. destruct (I6 _ _ _ _ Hse) as (Hr & Hp & Hx). split; try done.
  - unfold pc_ok in *. simpl. destruct (hc_at c).
    1-4: by destruct_and?; congruence.
    1,2: destruct I4 as [? (? & ? & ? & ?)]; simplify_eq; by eauto 10.
    all: done.
  - intros ? ? ? ? [= <- <- <- <-]. split_and!; [done..|by eapply reach_step].
Qed.

(** A new connection. *)
Lemma hub_inv_new y c :
  hub_inv s0 y → hconn_ok s0 (h_calls y) c → serves c = None →
  hub_inv s0 (MkHub (h_server y) (h_calls y) (h_conns y ++ [c])).
Proof.
  intros [I1 I2 I3] Hok Hsv. split; simpl; [done|..].
  - intros j c1 [Hc|[_ Hc]]%lookup_app_Some; [by eapply I2|]. by apply list_lookup_singleton_Some in Hc as [_ <-].
  - eapply names_ok_ext; [|done]. intros j. unfold serving. simpl.
    destruct (decide (j < length (h_conns y))%nat); [by rewrite lookup_app_l|].
    rewrite lookup_app_r, (lookup_ge_None_2 (h_conns y)) by lia.
    destruct (j - length (h_conns y))%nat; simpl; [by rewrite Hsv|done].
Qed.

Lemma manager_listed y i cm :
  hub_inv s0 y → connectionManagers (h_server y) !! i = Some cm → cm ∈ connectionManagers s0.
Proof.
  intros [I1 _ _] Hcm. destruct (connection_fields_foldl s0 (h_calls y)) as [_ Hf].
  rewrite <-(sr_conns _ _ I1) in Hf. rewrite <-Hf. by eapply list_elem_of_lookup_2.
Qed.

Lemma hub_inv_step y e y' : hub_inv s0 y → hub_step y e = Some y' → hub_inv s0 y'.
Proof using no_routes.
  intros Hinv Hs. pose proof Hinv as [I1 I2 I3]. destruct e as [call|i|j x|i data|j|j e]; simpl in Hs.
  - simplify_eq. split; simpl.
    + rewrite foldl_app. by apply same_routes_Handle.
    + intros j c Hc. by apply hconn_ok_snoc, (I2 j).
    + apply (names_ok_Handle _ _ (serving y)); [done|]. intros j mgr name. by apply serving_manager.
  - destruct (connectionManagers (h_server y) !! i) as [cm|] eqn:Hcm; simplify_eq/=.
    apply hub_inv_new; [done|apply hconn_ok_new; by eapply manager_listed|done].
  - destruct (h_conns y !! j) as [c|] eqn:Hc; [|done]. simpl in Hs. destruct (hc_at c) eqn:Hat; simplify_eq.
    assert (serves (conn_validated (length (h_calls y)) x c) = serves c) as Hsv
      by (rewrite conn_validated_serves; unfold serves; by rewrite Hat).
    split; simpl; [done| |by eapply (names_move_ok j (h_server y) c); [|done|apply nm_none]].
    intros j1 c1 [(-> & <- & _)|[_ H1]]%list_lookup_insert_Some; [|by eapply I2].
    apply conn_validated_ok; [by eapply I2|done].
  - destruct (connectionManagers (h_server y) !! i) as [cm|] eqn:Hcm; [|done]. simpl in Hs.
    destruct (cm_kind cm); [done|]. destruct (validateConnection _ _ _) as [[?|?] ?]; simplify_eq/=; [|done].
    apply hub_inv_new; [done| |apply conn_validated_serves].
    apply conn_validated_ok; [apply hconn_ok_new; by eapply manager_listed|done].
  - destruct (h_conns y !! j) as [c|] eqn:Hc; [|done]. simpl in Hs.
    destruct (hconn_step _ c) as [[s' c']|] eqn:Hst; simplify_eq/=. apply hconn_step_move in Hst as Hm.
    split; simpl; [by eapply names_move_routes| |by eapply names_move_ok].
    intros j1 c1 [(-> & <- & _)|[_ H1]]%list_lookup_insert_Some; [|by eapply I2]. eapply hconn_step_ok; eauto.
  - destruct (h_conns y !! j) as [c|] eqn:Hc; [|done]. simpl in Hs.
    destruct (hc_session c) as [[[[name ka] mt] x]|] eqn:Hse; [|done]. simpl in Hs.
    destruct (ext_step name ka mt x e) as [x'|] eqn:He; simplify_eq/=. split; simpl; [done|..].
    + intros j1 c1 [(-> & <- & _)|[_ H1]]%list_lookup_insert_Some; [|by eapply I2]. eapply hconn_ok_session; eauto.
    + by eapply (names_move_ok j (h_server y) c); [|done|apply nm_none].
Qed.

Lemma hub_inv_reachable y : reachable hub_step (eq (hub_init s0)) y → hub_inv s0 y.
Proof using no_routes no_managers.
  apply invariant_reachable. split; [|exact hub_inv_step].
  intros ? <-. split; simpl; [done|done|]. split; [|done]. simpl. rewrite no_managers. done.
Qed.
End reachable.

(** ** What the hub promises *)

Context (url_Parse : string → result URL) (goos : string).
Context (net_ResolveTCPAddr net_ResolveUDPAddr net_ResolveUnixAddr : string → string → result Addr).
Context (PipeAddr : string → Addr).
Local Abbreviation NewServer :=
  (NewServer url_Parse goos net_ResolveTCPAddr net_ResolveUDPAddr net_ResolveUnixAddr PipeAddr).
Local Abbreviation listens :=
  (listens url_Parse goos net_ResolveTCPAddr net_ResolveUDPAddr net_ResolveUnixAddr PipeAddr).

Lemma hub_inv_NewServer eps s0 y :
  NewServer eps = Ok s0 → reachable hub_step (eq (hub_init s0)) y → hub_inv s0 y.
Proof.
  intros Hn. apply hub_inv_reachable; [by apply NewServer_configured in Hn as [_ ?]|by eapply NewServer_fresh].
Qed.

(** C12. Routing is linearizable.  Connections are routed by two separate critical sections, and
    Handle may be called before, between and after them.  Still, in every interleaving of any
    number of connections and calls of Handle: what a connection is routed by is the kind and name
    of a valid registration that it began with, and the manager it gets is the one of the newest
    call that covered this extension at one moment between the beginning and the end of
    handleNewConn; it is refused exactly when at that moment no call covered it. *)
Theorem hub_routing_linearizable eps s0 y j c kind name r :
  NewServer eps = Ok s0 → reachable hub_step (eq (hub_init s0)) y →
  h_conns y !! j = Some c → hc_route c = Some (kind, name, r) →
  (∃ codec rest, validateConnection codec_String registry (hc_first c) = (Ok (kind, name, codec), rest)) ∧
  ∃ calls, take (hc_seen c) (h_calls y) `prefix_of` calls ∧ calls `prefix_of` h_calls y ∧
    (is_Some r ↔ is_Some (policy calls kind name)) ∧
    policy calls kind name = (mgr ← r; createHandleFunc <$> managers (h_server y) !! mgr).
Proof.
  intros Hn Hr Hc Hroute. pose proof (hub_inv_NewServer _ _ _ Hn Hr) as [I1 I2 _].
  destruct (I2 _ _ Hc) as [_ _ _ _ Hro _]. destruct (Hro _ _ _ Hroute) as [Ha Hf]. split; [done|].
  apply NewServer_configured in Hn as [_ Hnr].
  destruct (found_manager _ Hnr _ _ _ _ _ Hf) as (i & Hi & Hlt & Hp).
  assert (∀ mgr, createHandleFunc <$> managers (foldl do_Handle s0 (h_calls y)) !! mgr =
    createHandleFunc <$> managers (h_server y) !! mgr) as E.
  { intros mgr. by rewrite <-!list_lookup_fmap, (sr_fun _ _ I1). }
  exists (take i (h_calls y)). split_and!; [|apply prefix_take|..].
  - rewrite <-(Nat.min_l (hc_seen c) i), <-take_take by lia. apply prefix_take.
  - rewrite Hp. destruct r as [mgr|]; [|by simpl; split]. simpl. split; [|by eauto]. intros _.
    destruct (lookup_lt_is_Some_2 _ _ (Hlt _ eq_refl)) as [m ->]. by eauto.
  - rewrite Hp. destruct r; simpl; [apply E|done].
Qed.

(** A connection's goroutine only waits for its registration and for its session. *)
Lemma hconn_waits s0 y j c :
  extensionManagers s0 = ∅ → hub_inv s0 y → h_conns y !! j = Some c → hub_step y (HConn j) = None →
  hc_at c = BDone ∨ hc_at c = BValidate ∨ ∃ name mgr ka mt x,
    hc_at c = BServe name mgr ∧ hc_session c = Some (name, ka, mt, x) ∧ handle_result x = None.
Proof.
  intros Hnr [I1 I2 _] Hc Hstep. destruct (I2 _ _ Hc) as [_ _ _ Hpc Hroute _].
  simpl in Hstep. rewrite Hc in Hstep. simpl in Hstep.
  assert (hconn_step (h_server y) c = None) as Hno by (by destruct (hconn_step _ c) as [[]|]).
  assert (∀ kind name mgr, hc_route c = Some (kind, name, Some mgr) → is_Some (managers (h_server y) !! mgr)) as Hm.
  { intros kind name mgr Hro. apply Hroute in Hro as [_ (i & _ & Hlt & _)%found_manager]; [|done].
    apply lookup_lt_is_Some. pose proof (f_equal length (sr_fun _ _ I1)) as E. rewrite !length_fmap in E.
    rewrite E. by apply Hlt. }
  unfold hconn_step in Hno. unfold pc_ok in Hpc. destruct (hc_at c) as [|kind name|kind name|name mgr ka mt|name mgr|name mgr err|err|].
  - by right; left.
  - by destruct (extensionManagers _ !! _).
  - by destruct (extensionManagers _ !! _).
  - destruct Hpc as ([kind Hro] & _). destruct (Hm _ _ _ Hro) as [m Hm']. rewrite Hm' in Hno. simpl in Hno.
    by destruct (register_extension _ _).
  - destruct Hpc as (_ & ka & mt & x & Hs). right; right. rewrite Hs in Hno. simpl in Hno.
    exists name, mgr, ka, mt, x. split_and!; [done|done|]. by destruct (handle_result x).
  - destruct Hpc as ([kind Hro] & _). destruct (Hm _ _ _ Hro) as [m Hm']. by rewrite Hm' in Hno.
  - done.
  - by left.
Qed.


End hub.

(** ** A hub on a concrete schedule *)

Module SampleHub.
Import SampleJson SampleQueue.
#[local] Existing Instance sample_pb.

Abbreviation bstep := (hub_step (TLS := unit) (F := string) (Q := list tq_key) (λ _, EmptyString) (λ _, EmptyString)
  sample_registry).
Abbreviation bstate := (hub (TLS := unit) (F := string) (Q := list tq_key)).
Abbreviation binit := (hub_init sample_server : bstate).

Definition foo_conn : conn := Conn [client_regMsg sample_client] EOF.

(** Handle is called for the kind of the extension, and once more with its name while the first
    connection is between its two lookups; so the second connection goes to another manager, and
    the third is refused there. *)
Definition hub_schedule : list hub_event :=
  [HHandle (7%Z, "general", []); HAccept 0; HRegister 0 foo_conn; HConn 0; HHandle (7%Z, "special", ["foo"]); HConn 0; HConn 0;
   HAccept 1; HRegister 1 foo_conn; HConn 1; HConn 1; HAccept 0; HRegister 2 foo_conn; HConn 2; HConn 2; HConn 2].

Definition hub_after : bstate := match run bstep binit hub_schedule with Some y => y | None => binit end.
Definition hub_conn (j : nat) : hconn :=
  match h_conns hub_after !! j with Some c => c | None => new_hconn (MkAddr "" "") end.

Example hub_after_serves :
  serving hub_after 0 = Some (0%nat, "foo") ∧ serving hub_after 1 = Some (1%nat, "foo") ∧
  hc_at (hub_conn 2) = BDone ∧ hc_closed (hub_conn 2) = 1%nat ∧ hc_seen (hub_conn 0) = 1%nat.
Proof. by vm_compute. Qed.

Lemma hub_reachable : reachable bstep (eq binit) hub_after.
Proof. apply (run_reachable _ _ hub_schedule). vm_compute. reflexivity. Qed.

Lemma hub_routing_linearizable_witness :
  ∃ calls, [(7%Z, "general", [])] `prefix_of` calls ∧ calls `prefix_of` h_calls hub_after ∧
    policy calls 7 "foo" = Some "general".
Proof.
  destruct (hub_routing_linearizable (Q := list tq_key) (λ _, EmptyString) (λ _, EmptyString) sample_registry
    sample_listen "linux" sample_resolve sample_resolve sample_resolve (MkAddr "pipe") sample_endpoints sample_server
    hub_after 0 (hub_conn 0) 7 "foo" (Some 0%nat)) as (_ & calls & H1 & H2 & _ & H3).
  - exact sample_NewServer_Ok.
  - exact hub_reachable.
  - vm_compute. reflexivity.
  - vm_compute. reflexivity.
  - exists calls. split; [exact H1|]. split; [exact H2|exact H3].
Defined.

End SampleHub.
