(* ===== verification/EndToEnd.v ===== *)
(** * Hub and extension together

    The whole way of a command and of its response: the hub's session ([Extension]), the bytes of
    the connection in both directions (a codec with the contract [FrameCodec]), the client's stream
    ([Client]), and the controller with its handler ([Controller]).  An extension reconnects, so
    the system has one controller and, for every bundle of channels the controller has made, one
    connection with its client stream and its session.

    [sys_step] is the synchronous product of the components: a step of the system is a step of one
    of them, together with what it does to the others.  The client's [cmdCh] and [msgCh] are the
    bundle's; what one side's Encode writes is what the other side's Decode reads.  A Decode or an
    Encode may fail at any time, and a failed Encode may have written a part of its frame. *)
From S2P Require Import Prelude GoChan Varint Codec Gogoproto Proto MsgWait Extension Handler Controller Client.

Set Default Proof Using "Type".

Section system.
Context `{pb : !ArhatPb} {Q : Type} `{tq : !TimeoutQueue Q} {H B : Type} `{handler : !Handler H B nat}.
Context (name : string) (keepaliveInterval messageTimeout : Z).
Context (ErrorMsg : string → B) (marshal : B → result bytes).
(** The codec of the session, for commands and for messages. *)
Context {SC SM : Type}.
Context (encCmd : Cmd → result bytes) (decCmd : SC → reader → outcome (SC * reader * result Cmd)).
Context (encMsg : Msg → result bytes) (decMsg : SM → reader → outcome (SM * reader * result Msg)).
Context (sc0 : SC) (sm0 : SM).

Local Abbreviation ext_step := (ext_step name keepaliveInterval messageTimeout).
Local Abbreviation ctl_step := (ctl_step ErrorMsg marshal).

(** ** State *)

(** A connection: the client's end, the hub's (from when the session starts), the bytes under way
    to the client and to the hub, the decoders, and a record of what went into [msgCh], with
    whether the controller's loop put it there. *)
Record connection : Type := MkConnection {
  k_cli : cstream;
  k_srv : option (session Q);
  k_down : bytes;
  k_up : bytes;
  k_cdec : SC;
  k_sdec : SM;
  k_log : list (bool * Msg);
}.

Record system : Type := MkSystem {
  y_ctl : controller (H := H) (B := B);
  y_conns : list connection;    (* by the number of the bundle *)
}.
Implicit Types (k : connection) (y : system).

Definition new_connection : connection := MkConnection ProcessNewStream None [] [] sc0 sm0 [].

Definition sys_init (h : H) : system := MkSystem (NewController h) [].

(** ** Steps *)

(** What an Encode writes, given its result; [n] is how far a failed one got. *)
Definition put (frame : result bytes) (err : option error) (n : nat) : option bytes :=
  match frame, err with
  | Ok bs, None => Some bs
  | Ok bs, Some _ => if bool_decide (n < length bs)%nat then Some (take n bs) else None
  | Err _, Some _ => Some []
  | Err _, None => None
  end.

Definition ping_cmd : Cmd := MkCmd CMD_PING 0 0 [].
Definition item_cmd (i : wire_item) : Cmd := match i with WPing => ping_cmd | WCmd c => c end.

(** What a step of the session writes to the connection. *)
Definition srv_writes (ev : ext_event) (n : nat) (s : session Q) : option bytes :=
  match ev, s_writer s with
  | EEncode err, WHold i => put (encCmd (item_cmd i)) err n
  | EDecode (Ok _), _ => None    (* see [YSrvDecode] *)
  | _, _ => Some []
  end.

(** The same for the client.  The other end of its channels is the controller's. *)
Definition cli_writes (ev : cl_event) (n : nat) (c : cstream) : option bytes :=
  match ev, p_writer c with
  | LEncode err, WEncode m _ => put (encMsg m) err n
  | LDecode (Ok _), _ | LTakeCmd, _ | LOfferMsg _, _ | LCloseMsg, _ => None
  | _, _ => Some []
  end.

(** What a step of the client does to the bundle. *)
Definition cli_effect (b : nat) (ev : cl_event) (c : cstream) : option ctl_event :=
  match ev, p_reader c with
  | LForward, RForward cmd => Some (EClientSend b cmd)
  | LReaderExit, RCloseCmd _ => Some (EClientClose b)
  | LTakeMsg, _ =>
      match chan_recv (p_msgCh c) with Received _ _ => Some (EClientRecv b) | _ => None end
  | _, _ => None
  end.

(** The message a step of the controller puts into the [msgCh] of a bundle. *)
Definition enters (e : ctl_event) (c : controller (H := H) (B := B)) : option (nat * (bool * Msg)) :=
  match e with
  | ESession _ ViaSend => match c_sess c with SSend b m => Some (b, (true, m)) | _ => None end
  | EAsyncStep a ViaSend =>
      match c_async c !! a with Some (b, m) => Some (b, (false, m)) | None => None end
  | _ => None
  end.

Definition logged (e : ctl_event) (c : controller (H := H) (B := B)) (b : nat) : list (bool * Msg) :=
  match enters e c with
  | Some (b', p) =>
      if bool_decide (b' = b) then
        match c_bundles c !! b with
        | Some x => match chan_send p.2 (b_msgCh x) with Sent _ => [p] | _ => [] end
        | None => []
        end
      else []
  | None => []
  end.

(** The connection after a step of the controller, its bundle being [x]. *)
Definition synced (log : list (bool * Msg)) (x : bundle (B := B)) k : connection :=
  MkConnection (set_p_cmdCh (b_cmdCh x) (set_p_msgCh (b_msgCh x) (k_cli k))) (k_srv k) (k_down k) (k_up k)
    (k_cdec k) (k_sdec k) (k_log k ++ log).

Definition with_cli (c : cstream) (up : bytes) k : connection :=
  MkConnection c (k_srv k) (k_down k) up (k_cdec k) (k_sdec k) (k_log k).
Definition with_srv (s : session Q) (down : bytes) k : connection :=
  MkConnection (k_cli k) (Some s) down (k_up k) (k_cdec k) (k_sdec k) (k_log k).

Inductive sys_event : Type :=
| YCtl (e : ctl_event)                         (* the controller and its handler *)
| YCli (b : nat) (ev : cl_event) (n : nat)     (* the client of connection [b] *)
| YCliDecode (b : nat)                         (* its Decode returns *)
| YAccept (b : nat)                            (* the hub starts the session *)
| YSrv (b : nat) (ev : ext_event) (n : nat)    (* the session of connection [b] *)
| YSrvDecode (b : nat).

Definition client_event (e : ctl_event) : bool :=
  match e with EClientSend _ _ | EClientClose _ | EClientRecv _ => true | _ => false end.

#[local] Instance call_pc_eq_dec : EqDecision call_pc.
Proof. solve_decision. Defined.

(** RefreshChannels has returned the bundle. *)
Definition handed_out (b : nat) (c : controller (H := H) (B := B)) : Prop :=
  map_Exists (λ _ pc, pc = FReturned (Some b)) (c_calls c).

Definition ctl_moves (e : ctl_event) y : option system :=
  if client_event e then None
  else
    ctl ← ctl_step (y_ctl y) e;
    Some (MkSystem ctl
           (imap (λ b x, synced (logged e (y_ctl y) b) x (default new_connection (y_conns y !! b)))
                 (c_bundles ctl))).

Definition may_start (ev : cl_event) (b : nat) (c : controller (H := H) (B := B)) : bool :=
  match ev with LDial _ => bool_decide (handed_out b c) | _ => true end.

Definition cli_moves (b : nat) (ev : cl_event) (n : nat) y : option system :=
  match y_conns y !! b, c_panic (y_ctl y) with
  | Some k, None =>
      if may_start ev b (y_ctl y) then
        c ← cl_step (k_cli k) ev;
        bs ← cli_writes ev n (k_cli k);
        ctl ← match cli_effect b ev (k_cli k) with
              | Some e => ctl_step (y_ctl y) e
              | None => Some (y_ctl y)
              end;
        Some (MkSystem ctl (<[b := with_cli c (k_up k ++ bs) k]> (y_conns y)))
      else None
  | _, _ => None
  end.

(** Decode waits for the first byte of a frame. *)
Definition cli_decodes (b : nat) y : option system :=
  match y_conns y !! b, c_panic (y_ctl y) with
  | Some k, None =>
      match k_down k, decCmd (k_cdec k) (Reader (k_down k) EOF) with
      | _ :: _, Return (st, r, res) =>
          c ← cl_step (k_cli k) (LDecode res);
          Some (MkSystem (y_ctl y)
                 (<[b := MkConnection c (k_srv k) (rbytes r) (k_up k) st (k_sdec k) (k_log k)]> (y_conns y)))
      | _, _ => None
      end
  | _, _ => None
  end.

(** The session starts on a connection that is registered and on which nothing else was sent. *)
Definition accepts (b : nat) y : option system :=
  match y_conns y !! b with
  | Some k =>
      match k_srv k, p_main (k_cli k), p_wire (k_cli k) with
      | None, MWait, [] => Some (MkSystem (y_ctl y) (<[b := with_srv new_session (k_down k) k]> (y_conns y)))
      | _, _, _ => None
      end
  | None => None
  end.

Definition srv_moves (b : nat) (ev : ext_event) (n : nat) y : option system :=
  match y_conns y !! b with
  | Some k =>
      s ← k_srv k;
      s' ← ext_step s ev;
      bs ← srv_writes ev n s;
      Some (MkSystem (y_ctl y) (<[b := with_srv s' (k_down k ++ bs) k]> (y_conns y)))
  | None => None
  end.

Definition srv_decodes (b : nat) y : option system :=
  match y_conns y !! b with
  | Some k =>
      match k_up k, decMsg (k_sdec k) (Reader (k_up k) EOF) with
      | _ :: _, Return (st, r, res) =>
          s ← k_srv k;
          s' ← ext_step s (EDecode res);
          Some (MkSystem (y_ctl y)
                 (<[b := MkConnection (k_cli k) (Some s') (k_down k) (rbytes r) (k_cdec k) st (k_log k)]> (y_conns y)))
      | _, _ => None
      end
  | None => None
  end.

Definition sys_step y (e : sys_event) : option system :=
  match e with
  | YCtl e => ctl_moves e y
  | YCli b ev n => cli_moves b ev n y
  | YCliDecode b => cli_decodes b y
  | YAccept b => accepts b y
  | YSrv b ev n => srv_moves b ev n y
  | YSrvDecode b => srv_decodes b y
  end.
(** ** What the controller does to the bundles *)

Definition delivered_replies (x : bundle (B := B)) : list Msg := (filter (λ p : Msg * bool, p.2 = true) (b_replied x)).*1.

(** One step of the controller, from the point of view of a bundle and of the client at its other
    end: it takes a command, puts in a message, closes [msgCh], or none of these. *)
Inductive bundle_move : list (bool * Msg) → bundle (B := B) → bundle (B := B) → Prop :=
| move_none x x' :
    b_cmdCh x' = b_cmdCh x → b_msgCh x' = b_msgCh x → b_sent x' = b_sent x →
    delivered_replies x' = delivered_replies x → bundle_move [] x x'
| move_take cmd x x' :
    chan_recv (b_cmdCh x) = Received cmd (b_cmdCh x') → b_msgCh x' = b_msgCh x → b_sent x' = b_sent x →
    delivered_replies x' = delivered_replies x → bundle_move [] x x'
| move_put (tag : bool) m x x' :
    b_cmdCh x' = b_cmdCh x → chan_send m (b_msgCh x) = Sent (b_msgCh x') → b_sent x' = b_sent x →
    delivered_replies x' = delivered_replies x ++ (if tag then [m] else []) →
    bundle_move [(tag, m)] x x'
| move_close x x' :
    b_cmdCh x' = b_cmdCh x → chan_close (b_msgCh x) = Some (b_msgCh x') → b_sent x' = b_sent x →
    delivered_replies x' = delivered_replies x → bundle_move [] x x'.

Record bundles_move (log : nat → list (bool * Msg)) (c c' : controller (H := H) (B := B)) : Prop := {
  bm_old b x : c_bundles c !! b = Some x → ∃ x', c_bundles c' !! b = Some x' ∧ bundle_move (log b) x x';
  bm_new b x' : c_bundles c' !! b = Some x' → c_bundles c !! b = None → x' = newChannelBundle ∧ log b = [];
}.

Lemma bundle_move_refl x : bundle_move [] x x.
Proof. by constructor. Qed.

Lemma bundles_move_same log c c' :
  c_bundles c' = c_bundles c → (∀ b, log b = []) → bundles_move log c c'.
Proof.
  intros E Hlog. split.
  - intros b x Hx. exists x. rewrite E, Hlog. split; [done|apply bundle_move_refl].
  - intros b x. rewrite E. congruence.
Qed.

Lemma bundles_move_alter log b f x c c' :
  c_bundles c' = alter f b (c_bundles c) → c_bundles c !! b = Some x → bundle_move (log b) x (f x) →
  (∀ b', b' ≠ b → log b' = []) → bundles_move log c c'.
Proof.
  intros E Hx Hf Hlog. split.
  - intros b' x' Hx'. rewrite E. destruct (decide (b' = b)) as [->|Hne].
    + simplify_eq. exists (f x). by rewrite list_lookup_alter_eq, Hx.
    + exists x'. rewrite list_lookup_alter_ne, Hlog by done. split; [done|apply bundle_move_refl].
  - intros b' x'. rewrite E. destruct (decide (b' = b)) as [->|Hne].
    + congruence.
    + rewrite list_lookup_alter_ne by done. congruence.
Qed.

(** A step that does not send logs nothing. *)
Lemma logged_nothing e c : enters e c = None → ∀ b, logged e c b = [].
Proof. unfold logged. by intros ->. Qed.

Lemma logged_sent e c b p x ch :
  enters e c = Some (b, p) → c_bundles c !! b = Some x → chan_send p.2 (b_msgCh x) = Sent ch →
  logged e c b = [p] ∧ ∀ b', b' ≠ b → logged e c b' = [].
Proof.
  unfold logged. intros -> Hx Hs. split; [by rewrite bool_decide_true, Hx, Hs|].
  intros b' Hne. by rewrite bool_decide_false.
Qed.

Lemma logged_not_sent e c b p x :
  enters e c = Some (b, p) → c_bundles c !! b = Some x → (∀ ch, chan_send p.2 (b_msgCh x) ≠ Sent ch) →
  ∀ b', logged e c b' = [].
Proof.
  unfold logged. intros -> Hx Hs b'. case_bool_decide as Hb; [|done]. subst. rewrite Hx.
  destruct (chan_send p.2 (b_msgCh x)) eqn:E; [|done..]. by destruct (Hs c0).
Qed.

Lemma close_moves log b c c1 c' :
  close1 b c = Some c1 ∨ close2 b c = Some c1 → c_bundles c' = c_bundles c1 → (∀ b, log b = []) →
  bundles_move log c c'.
Proof.
  intros Hcl E Hlog.
  destruct Hcl as [(x & Hx & [[_ ->]|[Ho ->]])%close1_spec|(x & Hx & [[_ ->]|[Ho ->]])%close2_spec].
  1,3: by apply bundles_move_same.
  - eapply bundles_move_alter; [exact E|exact Hx| |done]. rewrite Hlog. by apply move_none.
  - eapply bundles_move_alter; [exact E|exact Hx| |done]. rewrite Hlog. apply move_close; try done.
    unfold chan_close. by rewrite Ho.
Qed.
Lemma delivered_replies_answered m ok x :
  delivered_replies (answered m ok x) = delivered_replies x ++ if ok then [m] else [].
Proof.
  unfold delivered_replies. simpl. rewrite list.filter_app, fmap_app, filter_cons, filter_nil. simpl.
  by destruct ok.
Qed.

Lemma session_moves on_done ch c c' :
  session_step ErrorMsg marshal on_done ch c = Some c' →
  bundles_move (logged (ESession on_done ch) c) c c'.
Proof.
  intros Hs. unfold session_step in Hs.
  assert ((∀ b m, c_sess c ≠ SSend b m) → ∀ b, logged (ESession on_done ch) c b = []) as Hno.
  { intros Hne. apply logged_nothing. simpl. destruct ch; try done.
    destruct (c_sess c); try done. by destruct (Hne b m). }
  destruct (c_sess c) as [| |b|b|b m|b|b|] eqn:Hpc; [..|done].
  - simplify_eq. by apply bundles_move_same; [|by apply Hno].
  - split_step Hs; by apply bundles_move_same; [|by apply Hno].
  - simplify_eq. by apply bundles_move_same; [|by apply Hno].
  - destruct (c_bundles c !! b) as [x|] eqn:Hx; [|done].
    destruct (chan_recv (b_cmdCh x)) as [cmd ch'| |] eqn:Hr; simplify_eq;
      [|by apply bundles_move_same; [|by apply Hno]].
    unfold handle_one. destruct (HandleCmd _ _ _ _ _) as [[h r]| |];
      [|by apply bundles_move_same; [|by apply Hno]..].
    eapply (bundles_move_alter _ b (λ x, handled cmd r (with_cmdCh ch' x))); [|exact Hx| |by intros; apply Hno].
    + destruct (reply_to ErrorMsg marshal cmd r) as [[]|]; simpl; by rewrite list_alter_alter_eq.
    + rewrite Hno by done. by eapply move_take.
  - unfold session_send in Hs. destruct (c_bundles c !! b) as [x|] eqn:Hx; [|done]. destruct ch.
    + split_step Hs. eapply bundles_move_alter; [done|exact Hx| |by intros; apply logged_nothing].
      rewrite logged_nothing by done. apply move_none; try done.
      rewrite delivered_replies_answered. by rewrite app_nil_r.
    + assert (enters (ESession on_done ViaSend) c = Some (b, (true, m))) as He by (simpl; by rewrite Hpc).
      destruct (chan_send m (b_msgCh x)) as [ch'| |] eqn:Hse; simplify_eq.
      * destruct (logged_sent _ _ _ _ _ _ He Hx Hse) as [Hl Hl'].
        eapply (bundles_move_alter _ b (λ x, answered m true (with_msgCh ch' x))); [|exact Hx| |done].
        { simpl. by rewrite list_alter_alter_eq. }
        rewrite Hl. apply move_put; try done. exact (delivered_replies_answered m true (with_msgCh ch' x)).
      * apply bundles_move_same; [done|]. eapply logged_not_sent; [exact He|exact Hx|]. simpl. congruence.
    + split_step Hs. eapply bundles_move_alter; [done|exact Hx| |by intros; apply logged_nothing].
      rewrite logged_nothing by done. apply move_none; try done.
      rewrite delivered_replies_answered. by rewrite app_nil_r.
  - destruct (close1 b c) as [c1|] eqn:Hcl; simplify_eq/=.
    eapply close_moves; [by left|done|]. by apply Hno.
  - destruct (close2 b c) as [c1|] eqn:Hcl; simplify_eq/=.
    eapply close_moves; [by right|done|]. by apply Hno.
Qed.

Lemma call_moves i on_done c c' :
  call_step i on_done c = Some c' → bundles_move (logged (ECallStep i on_done) c) c c'.
Proof.
  intros Hs. unfold call_step in Hs. pose proof (logged_nothing (ECallStep i on_done) c eq_refl) as Hno.
  destruct (c_calls c !! i) as [[| |b|old b|old b|b|b|b|ret|ret| | | |]|]; try done.
  2: { simplify_eq. split; simpl.
       - intros b x Hx. exists x. rewrite Hno. split; [by apply lookup_app_l_Some|apply bundle_move_refl].
       - intros b x [Hx|[_ Hx]]%lookup_app_Some Hn; [congruence|].
         by apply list_lookup_singleton_Some in Hx as [_ <-]. }
  3,6: destruct (close1 _ c) as [c1|] eqn:Hcl; simplify_eq/=; by eapply close_moves; [left| |].
  3,5: destruct (close2 _ c) as [c1|] eqn:Hcl; simplify_eq/=; by eapply close_moves; [right| |].
  all: split_step Hs; by apply bundles_move_same.
Qed.

Lemma async_moves a ch c c' :
  async_step a ch c = Some c' → bundles_move (logged (EAsyncStep a ch) c) c c'.
Proof.
  intros Hs. unfold async_step in Hs. destruct (c_async c !! a) as [[b m]|] eqn:Ha; [|done].
  destruct (c_bundles c !! b) as [x|] eqn:Hx; [|done]. destruct ch.
  - split_step Hs. apply bundles_move_same; [done|]. by apply logged_nothing.
  - assert (enters (EAsyncStep a ViaSend) c = Some (b, (false, m))) as He by (simpl; by rewrite Ha).
    destruct (chan_send m (b_msgCh x)) as [ch'| |] eqn:Hse; simplify_eq.
    + destruct (logged_sent _ _ _ _ _ _ He Hx Hse) as [Hl Hl'].
      eapply bundles_move_alter; [done|exact Hx| |done]. rewrite Hl.
      apply move_put; try done. by rewrite app_nil_r.
    + apply bundles_move_same; [done|]. eapply logged_not_sent; [exact He|exact Hx|]. simpl. congruence.
  - split_step Hs. apply bundles_move_same; [done|]. by apply logged_nothing.
Qed.

Lemma ctl_step_moves e c c' :
  client_event e = false → ctl_step c e = Some c' → bundles_move (logged e c) c c'.
Proof.
  intros Hc Hs. unfold Controller.ctl_step in Hs. destruct (c_panic c); [done|].
  destruct e; try done; eauto using session_moves, call_moves, async_moves.
  all: split_step Hs; apply bundles_move_same; [done|by apply logged_nothing].
Qed.
(** ** Links *)

(** What was sent and not yet received is what the bytes under way say, in order; behind it there
    may be a part of a frame, once the writer has failed. *)
Definition link_ok {V} (enc : V → result bytes) (alive : bool) (sent rcvd : list V) (bs : bytes) : Prop :=
  ∃ pend frames cut, sent = rcvd ++ pend ∧ encode_all enc pend = Ok frames ∧ bs = frames ++ cut ∧
    (cut = [] ∨ alive = false ∧ ∃ v more, enc v = Ok (cut ++ more) ∧ more ≠ []).

Lemma encode_all_snoc {V} (enc : V → result bytes) vs v frames f :
  encode_all enc vs = Ok frames → enc v = Ok f → encode_all enc (vs ++ [v]) = Ok (frames ++ f).
Proof.
  revert frames. induction vs as [|w vs IH]; simpl; intros frames Hvs Hv.
  - simplify_eq. rewrite Hv. simpl. by rewrite app_nil_r.
  - destruct (enc w) as [g|]; simplify_eq/=. destruct (encode_all enc vs) as [fs|]; simplify_eq/=.
    erewrite IH by done. simpl. by rewrite app_assoc.
Qed.

Section links.
Context {V : Type} (enc : V → result bytes).

Lemma link_start : link_ok enc true [] [] [].
Proof. exists [], [], []. split_and!; [done..|by left]. Qed.

Lemma link_send sent rcvd bs v f alive :
  link_ok enc true sent rcvd bs → enc v = Ok f → link_ok enc alive (sent ++ [v]) rcvd (bs ++ f).
Proof.
  intros (pend & frames & cut & -> & He & -> & [->|[? _]]) Hv; [|done].
  exists (pend ++ [v]), (frames ++ f), []. split_and!; [by rewrite app_assoc|by apply encode_all_snoc| |by left].
  by rewrite !app_nil_r.
Qed.

Lemma link_fail sent rcvd bs v e n f :
  link_ok enc true sent rcvd bs → put (enc v) (Some e) n = Some f → link_ok enc false sent rcvd (bs ++ f).
Proof.
  intros (pend & frames & cut & -> & He & -> & [->|[? _]]) Hp; [|done].
  exists pend, frames, f. split_and!; [done|done|by rewrite app_nil_r|].
  destruct (enc v) as [g|] eqn:Hv; simpl in Hp; [|by simplify_eq; left].
  case_bool_decide as Hn; simplify_eq. right. split; [done|]. exists v, (drop n g).
  split; [by rewrite Hv, take_drop|]. intros Hd%(f_equal length). rewrite length_drop in Hd. simpl in Hd. lia.
Qed.

Lemma link_keep sent rcvd bs alive alive' :
  link_ok enc alive sent rcvd bs → (alive' = true → alive = true) → link_ok enc alive' sent rcvd (bs ++ []).
Proof.
  intros (pend & frames & cut & -> & He & -> & Hcut) Ha. exists pend, frames, cut.
  split_and!; [done|done|by rewrite app_nil_r|]. destruct Hcut as [|[? ?]]; [by left|right].
  split; [|done]. destruct alive'; [|done]. by rewrite Ha in *.
Qed.

(** Decode returns the next value that was sent, or an error. *)
Lemma link_recv {SD} (valid : V → Prop) (dec : SD → reader → outcome (SD * reader * result V))
    `{!FrameCodec valid enc dec} alive sent rcvd bs st st' r res :
  (∀ v f, enc v = Ok f → valid v) → link_ok enc alive sent rcvd bs → bs ≠ [] →
  dec st (Reader bs EOF) = Return (st', r, res) →
  match res with
  | Ok v => link_ok enc alive sent (rcvd ++ [v]) (rbytes r)
  | Err _ => link_ok enc alive sent rcvd (rbytes r)
  end.
Proof.
  intros Hval (pend & frames & cut & -> & He & -> & Hcut) Hne Hd. destruct pend as [|v pend]; simplify_eq/=.
  - destruct Hcut as [->|(Ha & v & more & Hv & Hm)]; [done|].
    destruct (frame_truncated st v cut more EOF) as (st1 & e & Hd'); [by eauto..|].
    rewrite Hd in Hd'. simplify_eq/=. exists [], [], []. split_and!; [done..|by left].
  - destruct (enc v) as [f|] eqn:Hv; simplify_eq/=. destruct (encode_all enc pend) as [fs|] eqn:Hp; simplify_eq/=.
    rewrite <-app_assoc in Hd. destruct (frame_roundtrip st v f (fs ++ cut) EOF) as [st1 Hd']; [by eauto..|].
    rewrite Hd in Hd'. simplify_eq/=. exists pend, fs, cut. split_and!; [by rewrite <-app_assoc|done..].
Qed.

(** A link that carries what was sent and has no bytes left has delivered everything. *)
Lemma link_drained {SD} (valid : V → Prop) (dec : SD → reader → outcome (SD * reader * result V))
    `{!FrameCodec valid enc dec} (st : SD) alive sent rcvd :
  (∀ v f, enc v = Ok f → valid v) → link_ok enc alive sent rcvd [] → rcvd = sent.
Proof.
  intros Hval (pend & frames & cut & -> & He & [-> ->]%eq_sym%app_eq_nil & _).
  destruct pend as [|v pend]; [by rewrite app_nil_r|exfalso]. simpl in He.
  destruct (enc v) as [f|] eqn:Hv; simplify_eq/=. destruct (encode_all enc pend) as [fs|]; simplify_eq/=.
  apply app_eq_nil in He as [-> ->].
  destruct (frame_roundtrip st v [] [] EOF) as [st1 Hd]; [by eauto..|]. simpl in Hd.
  destruct (frame_end st EOF) as (? & ? & Hd' & _). congruence.
Qed.
End links.
(** ** The invariant *)

Definition srv_wire k : list Cmd := match k_srv k with Some s => item_cmd <$> s_wire s | None => [] end.
Definition srv_received k : list Msg := match k_srv k with Some s => s_received s | None => [] end.
Definition srv_alive (s : session Q) : bool := match s_writer s with WExited => false | _ => true end.
Definition srv_writing k : bool := match k_srv k with Some s => srv_alive s | None => true end.

Record conn_inv (x : bundle (B := B)) k : Prop := {
  ki_cmdCh : p_cmdCh (k_cli k) = b_cmdCh x;
  ki_msgCh : p_msgCh (k_cli k) = b_msgCh x;
  ki_cli : reachable cl_step (eq ProcessNewStream) (k_cli k);
  ki_srv s : k_srv k = Some s → reachable ext_step (eq new_session) s;
  ki_sent : b_sent x = p_forwarded (k_cli k);
  ki_log : (k_log k).*2 = p_taken (k_cli k) ++ cbuf (b_msgCh x);
  ki_replied : (filter (λ p : bool * Msg, p.1 = true) (k_log k)).*2 = delivered_replies x;
  ki_down : link_ok encCmd (srv_writing k) (srv_wire k) (p_decoded (k_cli k)) (k_down k);
  ki_up : link_ok encMsg (writer_alive (p_writer (k_cli k))) (p_wire (k_cli k)).*2 (srv_received k) (k_up k);
}.

Record sys_inv (h : H) y : Prop := {
  yi_ctl : reachable ctl_step (eq (NewController h)) (y_ctl y);
  yi_len : length (y_conns y) = length (c_bundles (y_ctl y));
  yi_conn b k x : y_conns y !! b = Some k → c_bundles (y_ctl y) !! b = Some x → conn_inv x k;
}.

Lemma new_conn_inv : conn_inv newChannelBundle new_connection.
Proof. split; try done; [by constructor|apply link_start|apply link_start]. Qed.

(** The controller's step is, for the client, a step of whoever is at the other end. *)
Lemma move_conn_inv log x x' k : conn_inv x k → bundle_move log x x' → conn_inv x' (synced log x' k).
Proof.
  intros [I1 I2 I3 I4 I5 I6 I7 I8 I9] Hmove. pose proof (cl_panic _ (cl_inv_reachable _ I3)) as Hp.
  assert (reachable cl_step (eq ProcessNewStream) (set_p_cmdCh (b_cmdCh x') (set_p_msgCh (b_msgCh x') (k_cli k)))) as Hr.
  { destruct Hmove as [x x' E1 E2 _ _|cmd x x' E1 E2 _ _|tag m x x' E1 E2 _ _|x x' E1 E2 _ _].
    - rewrite E1, E2, <-I1, <-I2. by destruct (k_cli k).
    - apply (reach_step _ _ (k_cli k) LTakeCmd); [done|]. unfold cl_step. rewrite Hp, I1, E1, E2, <-I2. by destruct (k_cli k).
    - apply (reach_step _ _ (k_cli k) (LOfferMsg m)); [done|]. unfold cl_step. rewrite Hp, I2, E2, E1, <-I1. by destruct (k_cli k).
    - apply (reach_step _ _ (k_cli k) LCloseMsg); [done|]. unfold cl_step. rewrite Hp, I2, E2, E1, <-I1. by destruct (k_cli k). }
  split; simpl; try done.
  - inv Hmove; congruence.
  - rewrite fmap_app, I6. inv Hmove; simpl; rewrite ?app_nil_r, <-?app_assoc; try congruence.
    + by apply chan_send_Sent in H1 as (_ & _ & _ & -> & _).
    + by apply chan_close_Some in H1 as (_ & _ & -> & _).
  - rewrite list.filter_app, fmap_app, I7. inv Hmove; simpl; rewrite ?app_nil_r; try congruence.
    rewrite H3, filter_cons, filter_nil. by destruct tag.
Qed.
(** *** The client moves *)

Lemma cli_up ev n c c' bs rcvd up :
  cl_step c ev = Some c' → cli_writes ev n c = Some bs →
  link_ok encMsg (writer_alive (p_writer c)) (p_wire c).*2 rcvd up →
  link_ok encMsg (writer_alive (p_writer c')) (p_wire c').*2 rcvd (up ++ bs).
Proof.
  intros Hs Hw Hl. unfold cl_step in Hs. destruct (p_panic c); [done|].
  assert ((∃ err, ev = LEncode err) ∨ ∀ err, ev ≠ LEncode err) as [[err ->]|Hne] by (destruct ev; eauto).
  - destruct (running c); [|done]. unfold writer_step in Hs. simpl in Hw.
    destruct (p_writer c) as [|m pg| | |] eqn:Hpw; try done. destruct err as [e|]; simplify_eq/=.
    + by eapply link_fail.
    + rewrite fmap_app. simpl. apply link_send; [done|].
      unfold put in Hw. by destruct (encMsg m); simplify_eq.
  - assert (bs = [] ∧ p_wire c' = p_wire c ∧
      (writer_alive (p_writer c') = true → writer_alive (p_writer c) = true)) as (-> & -> & Ha);
      [|by eapply link_keep].
    unfold writer_step, reader_step in Hs.
    destruct ev; try (by destruct (Hne err)); try done; simpl in Hw; split_step Hs;
      repeat match goal with E : p_writer c = _ |- _ => rewrite E in * end; try done; by split_step Hw.
Qed.

Lemma cli_decoded ev c c' :
  cl_step c ev = Some c' →
  p_decoded c' = p_decoded c ++ match ev with LDecode (Ok cmd) => [cmd] | _ => [] end.
Proof.
  intros Hs. unfold cl_step, writer_step, reader_step in Hs. destruct (p_panic c); [done|].
  destruct ev; split_step Hs; rewrite ?app_nil_r; try done.
  destruct res; [done|by rewrite app_nil_r].
Qed.
Lemma cli_bundle b ev n x c c' bs ctl ctl' :
  cl_step c ev = Some c' → cli_writes ev n c = Some bs → p_cmdCh c = b_cmdCh x → p_msgCh c = b_msgCh x →
  c_bundles ctl !! b = Some x →
  match cli_effect b ev c with Some e => ctl_step ctl e | None => Some ctl end = Some ctl' →
  ∃ f, c_bundles ctl' = alter f b (c_bundles ctl) ∧
    p_cmdCh c' = b_cmdCh (f x) ∧ p_msgCh c' = b_msgCh (f x) ∧
    delivered_replies (f x) = delivered_replies x ∧
    (b_sent x = p_forwarded c → b_sent (f x) = p_forwarded c') ∧
    p_taken c' ++ cbuf (p_msgCh c') = p_taken c ++ cbuf (p_msgCh c).
Proof.
  intros Hs Hw Hc Hm Hx He. unfold cl_step in Hs. destruct (p_panic c); [done|].
  destruct (cli_effect b ev c) as [e|] eqn:Hef.
  - unfold cli_effect in Hef. unfold Controller.ctl_step in He. destruct (c_panic ctl); [done|].
    destruct (running c) eqn:Hrun; [|by destruct ev; simplify_eq].
    destruct ev; try done; simpl in Hs; unfold writer_step, reader_step in Hs.
    + destruct (chan_recv (p_msgCh c)) as [m ch| |] eqn:Hr; simplify_eq.
      simpl in He. rewrite Hx, <-Hm, Hr in He. simplify_eq. exists (with_msgCh ch).
      destruct (p_writer c); simplify_eq. split_and!; try done. simpl.
      apply chan_recv_Received in Hr as (-> & _). by rewrite <-app_assoc.
    + destruct (p_reader c) as [| |cmd| | | |]; simplify_eq. simpl in He. rewrite Hx, <-Hc in He.
      destruct (chan_send cmd (p_cmdCh c)) as [ch| |] eqn:Hr; simplify_eq.
      exists (λ x, client_sent cmd (with_cmdCh ch x)). simpl.
      split_and!; try done; [by rewrite list_alter_alter_eq|congruence].
    + destruct (p_reader c); simplify_eq. simpl in He. rewrite Hx, <-Hc in He.
      destruct (chan_close (p_cmdCh c)) as [ch|] eqn:Hr; simplify_eq. by exists (with_cmdCh ch).
  - simplify_eq. exists id. rewrite list_alter_id by done. split; [done|]. simpl.
    unfold cli_effect in Hef. rewrite <-Hc, <-Hm. unfold writer_step, reader_step in Hs.
    destruct ev; try done; simpl in Hw; split_step Hs; try (split_and!; congruence); simplify_eq.
Qed.
(** *** The session moves *)

Lemma srv_down ev n s s' bs rcvd down :
  ext_step s ev = Some s' → srv_writes ev n s = Some bs →
  link_ok encCmd (srv_alive s) (item_cmd <$> s_wire s) rcvd down →
  link_ok encCmd (srv_alive s') (item_cmd <$> s_wire s') rcvd (down ++ bs).
Proof.
  intros Hs Hw Hl.
  assert ((∃ err, ev = EEncode err) ∨ ∀ err, ev ≠ EEncode err) as [[err ->]|Hne] by (destruct ev; eauto).
  - unfold Extension.ext_step in Hs. destruct (s_panic s); [done|]. simpl in Hw. unfold srv_alive in *.
    destruct (s_writer s) as [|i|]; try done. unfold encode_step in Hs. destruct err as [e|]; simplify_eq/=.
    + by eapply link_fail.
    + rewrite fmap_app. apply link_send; [done|]. unfold put in Hw. by destruct (encCmd _); simplify_eq.
  - assert (bs = [] ∧ s_wire s' = s_wire s ∧ (srv_alive s' = true → srv_alive s = true)) as (-> & -> & Ha);
      [|by eapply link_keep].
    assert (bs = []) as -> by (destruct ev; simpl in Hw; split_step Hw; congruence).
    unfold srv_alive. ext_cases Hs; try done; try (by edestruct Hne); repeat case_match; done.
Qed.

Lemma srv_received_step ev s s' :
  ext_step s ev = Some s' →
  s_received s' = s_received s ++ match ev with EDecode (Ok m) => [m] | _ => [] end.
Proof. intros Hs. ext_cases Hs; rewrite ?app_nil_r; done. Qed.

Lemma srv_decode_wire res s s' :
  ext_step s (EDecode res) = Some s' → s_wire s' = s_wire s ∧ s_writer s' = s_writer s.
Proof. intros Hs. ext_cases Hs; done. Qed.
(** *** Every step keeps the invariant *)

Context {validCmd : Cmd → Prop} {validMsg : Msg → Prop}.
Context {frameCmd : FrameCodec validCmd encCmd decCmd} {frameMsg : FrameCodec validMsg encMsg decMsg}.
Hypothesis encCmd_valid : ∀ v f, encCmd v = Ok f → validCmd v.
Hypothesis encMsg_valid : ∀ v f, encMsg v = Ok f → validMsg v.

(** One connection changes, and the controller does not. *)
Lemma sys_inv_conn h y b k k' :
  sys_inv h y → y_conns y !! b = Some k →
  (∀ x, c_bundles (y_ctl y) !! b = Some x → conn_inv x k → conn_inv x k') →
  sys_inv h (MkSystem (y_ctl y) (<[b := k']> (y_conns y))).
Proof.
  intros [I1 I2 I3] Hk Hk'. split; simpl; [done|by rewrite length_insert|].
  intros b1 k1 x [(-> & <- & _)|[Hne Hk1]]%list_lookup_insert_Some Hx; [|by eapply I3].
  apply Hk'; [done|]. by eapply I3.
Qed.

Lemma sys_inv_ctl h e y y' : sys_inv h y → ctl_moves e y = Some y' → sys_inv h y'.
Proof.
  intros [I1 I2 I3] Hs. unfold ctl_moves in Hs. destruct (client_event e) eqn:He; [done|].
  destruct (ctl_step (y_ctl y) e) as [ctl|] eqn:Hc; simplify_eq/=.
  pose proof (ctl_step_moves _ _ _ He Hc) as [M1 M2].
  split; simpl; [by eapply reach_step|by rewrite length_imap|].
  intros b k x Hk Hx. rewrite list_lookup_imap, Hx in Hk. simplify_eq/=.
  destruct (c_bundles (y_ctl y) !! b) as [x0|] eqn:Hx0.
  - destruct (M1 _ _ Hx0) as (x' & Hx' & Hm). simplify_eq.
    assert (is_Some (y_conns y !! b)) as [k Hk].
    { apply lookup_lt_is_Some. rewrite I2. by eapply lookup_lt_Some. }
    rewrite Hk. simpl. eapply move_conn_inv; eauto.
  - destruct (M2 _ _ Hx Hx0) as [-> ->].
    assert (y_conns y !! b = None) as ->.
    { apply lookup_ge_None. rewrite I2. by apply lookup_ge_None. }
    apply (move_conn_inv _ newChannelBundle); [apply new_conn_inv|apply bundle_move_refl].
Qed.

Lemma sys_inv_cli h b ev n y y' :
  sys_inv h y → cli_moves b ev n y = Some y' → sys_inv h y'.
Proof.
  intros [I1 I2 I3] Hs. unfold cli_moves in Hs. destruct (y_conns y !! b) as [k|] eqn:Hk; [|done].
  destruct (c_panic (y_ctl y)); [done|]. destruct (may_start _ _ _); [|done].
  destruct (cl_step (k_cli k) ev) as [c|] eqn:Hcl; [|done]. simpl in Hs.
  destruct (cli_writes ev n (k_cli k)) as [bs|] eqn:Hw; [|done]. simpl in Hs.
  destruct (match cli_effect b ev (k_cli k) with Some e => _ | None => _ end) as [ctl|] eqn:He; simplify_eq/=.
  assert (is_Some (c_bundles (y_ctl y) !! b)) as [x Hx].
  { apply lookup_lt_is_Some. rewrite <-I2. by eapply lookup_lt_Some. }
  destruct (I3 _ _ _ Hk Hx) as [J1 J2 J3 J4 J5 J6 J7 J8 J9].
  destruct (cli_bundle _ _ _ _ _ _ _ _ _ Hcl Hw J1 J2 Hx He) as (f & Hf & F1 & F2 & F3 & F4 & F5).
  split; simpl.
  - destruct (cli_effect b ev (k_cli k)); simplify_eq; [by eapply reach_step|done].
  - by rewrite length_insert, Hf, length_alter.
  - intros b1 k1 x1 Hk1 Hx1. rewrite Hf in Hx1.
    apply list_lookup_insert_Some in Hk1 as [(-> & <- & _)|[Hne Hk1]].
    2: { rewrite list_lookup_alter_ne in Hx1 by done. eauto. }
    rewrite list_lookup_alter_eq, Hx in Hx1. simplify_eq/=.
    split; simpl; try done; [by eapply reach_step|by apply F4|by rewrite J6, <-F2, F5, J2|by rewrite F3|..].
    + rewrite (cli_decoded _ _ _ Hcl). unfold cli_writes in Hw.
      destruct ev; try (by rewrite app_nil_r). destruct res; [done|by rewrite app_nil_r].
    + by eapply cli_up.
Qed.

Lemma sys_inv_cli_decode h b y y' : sys_inv h y → cli_decodes b y = Some y' → sys_inv h y'.
Proof using encCmd_valid frameCmd.
  intros Hinv Hs. unfold cli_decodes in Hs. destruct (y_conns y !! b) as [k|] eqn:Hk; [|done].
  destruct (c_panic (y_ctl y)); [done|]. destruct (k_down k) as [|z l] eqn:Hd; [done|]. rewrite <-Hd in Hs.
  destruct (decCmd _ _) as [[[st r] res]| |] eqn:Hdec; [|done..].
  destruct (cl_step (k_cli k) (LDecode res)) as [c|] eqn:Hcl; simplify_eq/=.
  apply (sys_inv_conn _ _ _ _ _ Hinv Hk). intros x Hx [J1 J2 J3 J4 J5 J6 J7 J8 J9].
  assert (p_cmdCh c = p_cmdCh (k_cli k) ∧ p_msgCh c = p_msgCh (k_cli k) ∧ p_forwarded c = p_forwarded (k_cli k) ∧
    p_taken c = p_taken (k_cli k) ∧ p_writer c = p_writer (k_cli k) ∧ p_wire c = p_wire (k_cli k))
    as (E1 & E2 & E3 & E4 & E5 & E6).
  { clear -Hcl. unfold cl_step, reader_step in Hcl. split_step Hcl; done. }
  split; simpl; rewrite ?E1, ?E2, ?E3, ?E4, ?E5, ?E6; try done; [by eapply reach_step|].
  rewrite (cli_decoded _ _ _ Hcl).
  pose proof (link_recv _ _ _ _ _ _ _ _ _ _ _ encCmd_valid J8 ltac:(by rewrite Hd) Hdec) as Hl.
  destruct res; [done|by rewrite app_nil_r].
Qed.

Lemma sys_inv_accept h b y y' : sys_inv h y → accepts b y = Some y' → sys_inv h y'.
Proof.
  intros Hinv Hs. unfold accepts in Hs. destruct (y_conns y !! b) as [k|] eqn:Hk; [|done].
  destruct (k_srv k) eqn:Hsrv; [done|]. destruct (p_main (k_cli k)); try done.
  destruct (p_wire (k_cli k)) eqn:Hwire; simplify_eq.
  apply (sys_inv_conn _ _ _ _ _ Hinv Hk). intros x Hx [J1 J2 J3 J4 J5 J6 J7 J8 J9].
  unfold srv_wire, srv_writing, srv_received in *. rewrite Hsrv in *. split; try done.
  intros s [= <-]. by constructor.
Qed.

Lemma sys_inv_srv h b ev n y y' :
  sys_inv h y → srv_moves b ev n y = Some y' → sys_inv h y'.
Proof.
  intros Hinv Hs. unfold srv_moves in Hs. destruct (y_conns y !! b) as [k|] eqn:Hk; [|done].
  destruct (k_srv k) as [s|] eqn:Hsrv; [|done]. simpl in Hs.
  destruct (ext_step s ev) as [s'|] eqn:Hst; [|done]. simpl in Hs.
  destruct (srv_writes ev n s) as [bs|] eqn:Hw; simplify_eq/=.
  apply (sys_inv_conn _ _ _ _ _ Hinv Hk). intros x Hx [J1 J2 J3 J4 J5 J6 J7 J8 J9].
  unfold srv_wire, srv_writing, srv_received in *. rewrite Hsrv in *. split; try done.
  - intros s0 [= <-]. eapply reach_step; [by apply J4|done].
  - simpl. by eapply srv_down.
  - unfold srv_received. simpl. rewrite (srv_received_step _ _ _ Hst). unfold srv_writes in Hw.
    destruct ev; try (by rewrite app_nil_r). destruct res; [done|by rewrite app_nil_r].
Qed.

Lemma sys_inv_srv_decode h b y y' :
  sys_inv h y → srv_decodes b y = Some y' → sys_inv h y'.
Proof using encMsg_valid frameMsg.
  intros Hinv Hs. unfold srv_decodes in Hs. destruct (y_conns y !! b) as [k|] eqn:Hk; [|done].
  destruct (k_up k) as [|z l] eqn:Hd; [done|]. rewrite <-Hd in Hs.
  destruct (decMsg _ _) as [[[st r] res]| |] eqn:Hdec; [|done..].
  destruct (k_srv k) as [s|] eqn:Hsrv; [|done]. simpl in Hs.
  destruct (ext_step s (EDecode res)) as [s'|] eqn:Hst; simplify_eq/=.
  apply (sys_inv_conn _ _ _ _ _ Hinv Hk). intros x Hx [J1 J2 J3 J4 J5 J6 J7 J8 J9].
  destruct (srv_decode_wire _ _ _ Hst) as [E1 E2].
  unfold srv_wire, srv_writing, srv_received, srv_alive in *. rewrite Hsrv in *.
  split; unfold srv_wire, srv_writing, srv_received, srv_alive; simpl; rewrite ?E1, ?E2; try done.
  - intros s0 [= <-]. eapply reach_step; [by apply J4|done].
  - rewrite (srv_received_step _ _ _ Hst).
    pose proof (link_recv _ _ _ _ _ _ _ _ _ _ _ encMsg_valid J9 ltac:(by rewrite Hd) Hdec) as Hl.
    destruct res; [done|by rewrite app_nil_r].
Qed.

Lemma sys_inv_step h y e y' : sys_inv h y → sys_step y e = Some y' → sys_inv h y'.
Proof using encCmd_valid frameCmd encMsg_valid frameMsg.
  intros Hinv Hs. destruct e; simpl in Hs;
    eauto using sys_inv_ctl, sys_inv_cli, sys_inv_cli_decode, sys_inv_accept, sys_inv_srv, sys_inv_srv_decode.
Qed.

Lemma sys_inv_init h : sys_inv h (sys_init h).
Proof. split; [by constructor|done|]. done. Qed.

Lemma sys_inv_reachable h y : reachable sys_step (eq (sys_init h)) y → sys_inv h y.
Proof using encCmd_valid frameCmd encMsg_valid frameMsg.
  apply invariant_reachable. split; [intros ? <-; apply sys_inv_init|].
  intros y0 e y1. apply sys_inv_step.
Qed.
(** ** What a step of the system does to the controller and to the records *)

Lemma sys_step_ctl y e y' :
  sys_step y e = Some y' →
  match e with
  | YCtl e => ctl_step (y_ctl y) e = Some (y_ctl y')
  | _ => y_ctl y' = y_ctl y ∨ ∃ e', client_event e' = true ∧ ctl_step (y_ctl y) e' = Some (y_ctl y')
  end.
Proof.
  intros Hs. destruct e as [e|b ev n|b|b|b ev n|b]; simpl in Hs.
  - unfold ctl_moves in Hs. destruct (client_event e); [done|].
    destruct (ctl_step (y_ctl y) e) as [ctl|]; by simplify_eq/=.
  - unfold cli_moves in Hs. destruct (y_conns y !! b) as [k|]; [|done]. destruct (c_panic (y_ctl y)); [done|].
    destruct (may_start _ _ _); [|done]. destruct (cl_step _ ev); [|done]. simpl in Hs.
    destruct (cli_writes _ _ _); [|done]. simpl in Hs.
    destruct (cli_effect b ev _) as [e|] eqn:He; [|by simplify_eq/=; left].
    destruct (ctl_step (y_ctl y) e) as [ctl|] eqn:Hc; simplify_eq/=. right. exists e. split; [|done].
    unfold cli_effect in He. repeat (case_match; simplify_eq; try done).
  - unfold cli_decodes in Hs. repeat (case_match; try done). destruct (cl_step _ _); simplify_eq/=. by left.
  - unfold accepts in Hs. repeat (case_match; simplify_eq/=; try done). by left.
  - unfold srv_moves in Hs. destruct (y_conns y !! b) as [k|]; [|done]. destruct (k_srv k) as [s|]; [|done]. simpl in Hs.
    destruct (ext_step s ev); [|done]. simpl in Hs. destruct (srv_writes _ _ _); simplify_eq/=. by left.
  - unfold srv_decodes in Hs. repeat (case_match; try done). destruct (k_srv _); [|done]. simpl in Hs.
    destruct (ext_step _ _); simplify_eq/=. by left.
Qed.

Definition step_log (e : sys_event) y (b : nat) : list (bool * Msg) :=
  match e with YCtl e => logged e (y_ctl y) b | _ => [] end.

Lemma insert_log y b k k' b1 k1 :
  y_conns y !! b = Some k → <[b := k']> (y_conns y) !! b1 = Some k1 → k_log k' = k_log k →
  k_log k1 = from_option k_log [] (y_conns y !! b1) ++ [].
Proof.
  intros Hk [(-> & <- & _)|[Hne Hk1]]%list_lookup_insert_Some Hl; [by rewrite Hk, app_nil_r|].
  by rewrite Hk1, app_nil_r.
Qed.

Lemma sys_step_log y e y' b k :
  sys_step y e = Some y' → y_conns y' !! b = Some k →
  k_log k = from_option k_log [] (y_conns y !! b) ++ step_log e y b.
Proof.
  intros Hs Hk. destruct e as [e|b0 ev n|b0|b0|b0 ev n|b0]; simpl in Hs.
  - unfold ctl_moves in Hs. destruct (client_event e) eqn:He; [done|].
    destruct (ctl_step (y_ctl y) e) as [ctl|]; simplify_eq/=.
    rewrite list_lookup_imap in Hk. destruct (c_bundles ctl !! b); simplify_eq/=. by destruct (y_conns y !! b).
  - unfold cli_moves in Hs. destruct (y_conns y !! b0) as [k0|] eqn:Hk0; [|done]. destruct (c_panic (y_ctl y)); [done|].
    destruct (may_start _ _ _); [|done]. destruct (cl_step _ ev); [|done]. simpl in Hs.
    destruct (cli_writes _ _ _); [|done]. simpl in Hs.
    destruct (match cli_effect b0 ev _ with Some e => _ | None => _ end); simplify_eq/=.
    by apply (insert_log _ _ _ _ _ _ Hk0 Hk).
  - unfold cli_decodes in Hs. destruct (y_conns y !! b0) as [k0|] eqn:Hk0; [|done]. repeat (case_match; try done).
    destruct (cl_step _ _); simplify_eq/=.
    by apply (insert_log _ _ _ _ _ _ Hk0 Hk).
  - unfold accepts in Hs. destruct (y_conns y !! b0) as [k0|] eqn:Hk0; [|done].
    repeat (case_match; simplify_eq/=; try done). by apply (insert_log _ _ _ _ _ _ Hk0 Hk).
  - unfold srv_moves in Hs. destruct (y_conns y !! b0) as [k0|] eqn:Hk0; [|done]. destruct (k_srv k0) as [s|]; [|done].
    simpl in Hs. destruct (ext_step s ev); [|done]. simpl in Hs. destruct (srv_writes _ _ _); simplify_eq/=.
    by apply (insert_log _ _ _ _ _ _ Hk0 Hk).
  - unfold srv_decodes in Hs. destruct (y_conns y !! b0) as [k0|] eqn:Hk0; [|done]. repeat (case_match; try done).
    destruct (k_srv k0); [|done]. simpl in Hs. destruct (ext_step _ _); simplify_eq/=.
    by apply (insert_log _ _ _ _ _ _ Hk0 Hk).
Qed.

(** ** End to end *)

Lemma commands_app l1 l2 : commands (l1 ++ l2) = commands l1 ++ commands l2.
Proof. apply list.filter_app. Qed.

Lemma commands_prefix l1 l2 : l1 `prefix_of` l2 → commands l1 `prefix_of` commands l2.
Proof. intros [l ->]. rewrite commands_app. by apply prefix_app_r. Qed.

(** The hub's own pings are not commands. *)
Lemma commands_wire w : commands (item_cmd <$> w) = commands (wire_cmds w).
Proof.
  unfold commands in *. induction w as [|[|c] w IH]; [done|..]; rewrite fmap_cons.
  - rewrite filter_cons, decide_False; [done|]. unfold is_ping. simpl. by rewrite Z.eqb_refl.
  - change (wire_cmds (WCmd c :: w)) with (c :: wire_cmds w). rewrite !filter_cons, IH. done.
Qed.

(** The way of the commands. *)
Lemma handled_prefix h y b k x s :
  sys_inv h y → y_conns y !! b = Some k → c_bundles (y_ctl y) !! b = Some x → k_srv k = Some s →
  (b_handled x).*1 `prefix_of` commands (s_accepted s).
Proof.
  intros [I1 _ I3] Hk Hx Hs. pose proof (I3 _ _ _ Hk Hx) as Hc.
  pose proof (replies_ok_reachable _ _ _ _ I1 _ _ Hx) as [Hh _ _].
  pose proof (cl_inv_reachable _ (ki_cli _ _ Hc)) as Hcl.
  pose proof (chan_inv_reachable _ _ _ _ (ki_srv _ _ Hc _ Hs)) as [_ _ _ (lost & Hacc & _)].
  destruct (ki_down _ _ Hc) as (pend & _ & _ & Hd & _). unfold srv_wire in Hd. rewrite Hs in Hd.
  trans (b_sent x); [rewrite Hh; by apply prefix_app_r|]. rewrite (ki_sent _ _ Hc).
  trans (commands (p_decoded (k_cli k))); [by eapply prefix_app_l, (cl_cmds _ Hcl)|].
  trans (commands (wire_cmds (s_wire s))); [rewrite <-commands_wire, Hd; by apply commands_prefix, prefix_app_r|].
  apply commands_prefix. rewrite Hacc. by apply prefix_app_r.
Qed.

(** The way of the messages. *)
Lemma received_prefix h y b k x s :
  sys_inv h y → y_conns y !! b = Some k → c_bundles (y_ctl y) !! b = Some x → k_srv k = Some s →
  s_received s `prefix_of` (p_wire (k_cli k)).*2 ∧ messages (p_wire (k_cli k)) `prefix_of` (k_log k).*2.
Proof.
  intros [I1 _ I3] Hk Hx Hs. pose proof (I3 _ _ _ Hk Hx) as Hc.
  destruct (ki_up _ _ Hc) as (pend & _ & _ & Hu & _). unfold srv_received in Hu. rewrite Hs in Hu.
  split; [rewrite Hu; by apply prefix_app_r|]. rewrite (ki_log _ _ Hc).
  pose proof (cl_inv_reachable _ (ki_cli _ _ Hc)) as Hcl.
  trans (p_taken (k_cli k)); [by eapply prefix_app_l, (cl_msgs _ Hcl)|by apply prefix_app_r].
Qed.

Lemma delivered_sublist h y b x :
  sys_inv h y → c_bundles (y_ctl y) !! b = Some x →
  delivered_replies x `sublist_of` replies ErrorMsg marshal (b_handled x).
Proof.
  intros [I1 _ _] Hx. pose proof (replies_ok_reachable _ _ _ _ I1 _ _ Hx) as [_ Hr _]. rewrite Hr.
  unfold delivered_replies. trans ((b_replied x).*1); [|by apply sublist_inserts_r].
  apply fmap_sublist, sublist_filter.
Qed.
(** What the controller's loop put into a bundle, as opposed to goroutines of the handler. *)
Definition from_loop (log : list (bool * Msg)) : list Msg := (filter (λ p, p.1 = true) log).*2.
Definition from_handler (log : list (bool * Msg)) : list Msg := (filter (λ p, p.1 = false) log).*2.

Lemma log_split log m : m ∈ log.*2 → m ∈ from_loop log ∨ m ∈ from_handler log.
Proof.
  intros ([[] m'] & -> & Hin)%list_elem_of_fmap; [left|right]; apply list_elem_of_fmap;
    eexists (_, _); (split; [done|]); by apply list_elem_of_filter.
Qed.

Lemma from_handler_app l1 l2 : from_handler (l1 ++ l2) = from_handler l1 ++ from_handler l2.
Proof. unfold from_handler. by rewrite list.filter_app, fmap_app. Qed.

(** The steps of a handler's own sends. *)
Definition is_async (e : sys_event) : bool :=
  match e with YCtl (EAsyncSend _ _) | YCtl (EAsyncStep _ _) => true | _ => false end.

(** No message of the handler enters a channel with a step of anything else. *)
Lemma quiet_log e (s : system) b : is_async e = false → from_handler (step_log e s b) = [].
Proof.
  destruct e as [e| | | | |]; try done. simpl. unfold logged.
  destruct (enters e (y_ctl s)) as [[b' [tag m]]|] eqn:He; [|done]. intros Ha. case_bool_decide; [|done].
  destruct (c_bundles (y_ctl s) !! b) as [x|]; [|done]. destruct (chan_send _ _); try done.
  unfold enters in He. destruct e as [od []| | | | |a []| | | |]; try done.
  destruct (c_sess (y_ctl s)); by simplify_eq.
Qed.

Lemma fmap_prefix_inv {A A'} (f : A → A') l (w : list A) :
  l `prefix_of` f <$> w → ∃ w', w' `prefix_of` w ∧ l = f <$> w'.
Proof.
  intros [l2 Hl]. exists (take (length l) w). split; [apply prefix_take|].
  by rewrite fmap_take, Hl, take_app_length.
Qed.

Lemma messages_prefix w1 w2 : w1 `prefix_of` w2 → messages w1 `prefix_of` messages w2.
Proof. intros [w ->]. unfold messages. rewrite list.filter_app, fmap_app. by apply prefix_app_r. Qed.

(** A message on the client's wire is a pong or was taken from the bundle. *)
Lemma wire_message w m :
  Forall (λ p, p.1 = true → p.2 = pong) w → m ∈ w.*2 → m = pong ∨ m ∈ messages w.
Proof.
  intros Hp ([[] m'] & -> & Hin)%list_elem_of_fmap; simpl.
  - left. rewrite list.Forall_forall in Hp. by apply (Hp _ Hin).
  - right. unfold messages. apply list_elem_of_fmap. exists (false, m').
    split; [done|]. by apply list_elem_of_filter.
Qed.

(** C1. From end to end, in order.  On every connection of the system, in every interleaving and
    whatever fails: the commands the extension's handler has been given are the commands the hub's
    callers sent on this connection, in the order in which they were accepted, without gaps,
    duplicates or inventions, and pings never reach it.  The messages the hub has received are,
    in order, the messages that were put into the connection's channel, with pongs in between; and
    those the controller put there are replies to handled commands, in the order of the
    commands. *)
Theorem end_to_end_order h y b k x s :
  reachable sys_step (eq (sys_init h)) y →
  y_conns y !! b = Some k → c_bundles (y_ctl y) !! b = Some x → k_srv k = Some s →
  (b_handled x).*1 `prefix_of` commands (s_accepted s) ∧
  (∃ w, s_received s = w.*2 ∧ messages w `prefix_of` (k_log k).*2 ∧ Forall (λ p, p.1 = true → p.2 = pong) w) ∧
  from_loop (k_log k) `sublist_of` replies ErrorMsg marshal (b_handled x).
Proof using encCmd_valid frameCmd encMsg_valid frameMsg.
  intros Hinv%sys_inv_reachable Hk Hx Hs. pose proof (yi_conn _ _ Hinv _ _ _ Hk Hx) as Hc. split_and!.
  - by eapply handled_prefix.
  - destruct (received_prefix _ _ _ _ _ _ Hinv Hk Hx Hs) as [(w & Hw & Hr)%fmap_prefix_inv Hm].
    exists w. split_and!; [done|by etrans; [apply messages_prefix|]|].
    pose proof (cl_pong_text _ (cl_inv_reachable _ (ki_cli _ _ Hc))) as Hp.
    destruct Hw as [w2 Hw]. rewrite Hw in Hp. by apply Forall_app in Hp as [? _].
  - unfold from_loop. rewrite (ki_replied _ _ Hc). by eapply delivered_sublist.
Qed.

Lemma replies_elem l m :
  m ∈ replies ErrorMsg marshal l → ∃ cmd r, (cmd, r) ∈ l ∧ reply_to ErrorMsg marshal cmd r = Some (Ok m).
Proof.
  unfold replies. intros ([cmd r] & Hin & Hr)%list_elem_of_omap. simpl in Hr.
  exists cmd, r. split; [done|]. by destruct (reply_to _ _ _ _) as [[]|]; simplify_eq.
Qed.

(** A reply carries the key of its command. *)
Lemma reply_key cmd r m : reply_to ErrorMsg marshal cmd r = Some (Ok m) → msg_key m = cmd_key cmd.
Proof.
  unfold reply_to. intros Hr. split_step Hr;
    match goal with H : NewMsg _ _ _ _ _ = Ok _ |- _ => apply NewMsg_Ok in H as (_ & H1 & H2 & _) end;
    unfold msg_key, cmd_key; congruence.
Qed.

Lemma handled_accepted h y b k x s cmd r :
  sys_inv h y → y_conns y !! b = Some k → c_bundles (y_ctl y) !! b = Some x → k_srv k = Some s →
  (cmd, r) ∈ b_handled x → cmd ∈ s_accepted s.
Proof.
  intros Hinv Hk Hx Hs Hin. destruct (handled_prefix _ _ _ _ _ _ Hinv Hk Hx Hs) as [l Hl].
  assert (cmd ∈ commands (s_accepted s)) as [_ ?]%list_elem_of_filter; [|done].
  rewrite Hl. apply elem_of_app. left. apply list_elem_of_fmap. by exists (cmd, r).
Qed.

(** Where a message that the hub received comes from. *)
Lemma received_from h y b k x s m :
  sys_inv h y → y_conns y !! b = Some k → c_bundles (y_ctl y) !! b = Some x → k_srv k = Some s → m ∈ s_received s →
  m = pong ∨ m ∈ from_handler (k_log k) ∨
  ∃ cmd r, (cmd, r) ∈ b_handled x ∧ reply_to ErrorMsg marshal cmd r = Some (Ok m) ∧ cmd ∈ s_accepted s.
Proof.
  intros Hinv Hk Hx Hs Hm. pose proof (yi_conn _ _ Hinv _ _ _ Hk Hx) as Hci.
  destruct (received_prefix _ _ _ _ _ _ Hinv Hk Hx Hs) as [Hrw Hml].
  assert (m ∈ (p_wire (k_cli k)).*2) as Hw by (destruct Hrw as [l ->]; by apply elem_of_app; left).
  apply wire_message in Hw as [->|Hw]; [by left|
    |by apply (cl_pong_text _ (cl_inv_reachable _ (ki_cli _ _ Hci)))].
  assert (m ∈ (k_log k).*2) as [Hl|Hl]%log_split by (destruct Hml as [l ->]; by apply elem_of_app; left); right; [right|by left].
  unfold from_loop in Hl. rewrite (ki_replied _ _ Hci) in Hl.
  eapply elem_of_sublist in Hl; [|by eapply delivered_sublist].
  apply replies_elem in Hl as (cmd & r & Hin & Hr). exists cmd, r. split_and!; [done|done|].
  by eapply handled_accepted.
Qed.

(** Message [m] is the controller's reply to a command of the session that has the key of [cmd]. *)
Definition replies_to_key (x : bundle (B := B)) (s : session Q) (cmd : Cmd) (m : Msg) : Prop :=
  ∃ cmd' r, (cmd', r) ∈ b_handled x ∧ reply_to ErrorMsg marshal cmd' r = Some (Ok m) ∧
    cmd' ∈ s_accepted s ∧ cmd_key cmd' = cmd_key cmd.

(** What a call returned. *)
Lemma returned_reply h y b k x s c cmd m :
  sys_inv h y →
  y_conns y !! b = Some k → c_bundles (y_ctl y) !! b = Some x → k_srv k = Some s →
  s_callers s !! c = Some (MkCaller cmd (CReturned (Ok (Some m)))) →
  cmd ∈ s_accepted s ∧ msg_key m = cmd_key cmd ∧
  (replies_to_key x s cmd m ∨ m ∈ from_handler (k_log k) ∨ m = pong).
Proof.
  intros Hinv Hk Hx Hs Hc. pose proof (yi_conn _ _ Hinv _ _ _ Hk Hx) as Hci.
  pose proof (ki_srv _ _ Hci _ Hs) as Hreach. pose proof (corr_inv_reachable _ _ _ _ Hreach) as Hcorr.
  destruct (corr_result _ Hcorr c _ m Hc) as [Hkey Hm]; [done|].
  unfold key_of in Hkey. rewrite Hc in Hkey. simpl in Hkey. injection Hkey as Hkey1 Hkey2.
  assert (msg_key m = cmd_key cmd) as Hkey by (unfold msg_key, cmd_key; congruence).
  split_and!; [by eapply accepted_reachable|done|].
  destruct (received_from _ _ _ _ _ _ _ Hinv Hk Hx Hs Hm) as [->|[Hl|(cmd' & r & Hin & Hr & Hacc')]]; auto.
  left. exists cmd', r. split_and!; [done..|]. apply reply_key in Hr. congruence.
Qed.

(** C2. From end to end, one call.  Whatever else is under way, a message that sendCmd returns carries
    the id and number of the command it was called with, which was accepted on this connection, and
    comes from one of three places: it is the controller's reply to a command with that id and number
    that this session accepted and the extension's handler was called with, and if no other command
    with that id and number was accepted, it is the reply to this very command; or a goroutine of the
    handler sent it by itself; or it is the pong that answers a keepalive, which has id and number
    zero, as the command then has. *)
Theorem end_to_end_response h y b k x s c cmd m :
  reachable sys_step (eq (sys_init h)) y →
  y_conns y !! b = Some k → c_bundles (y_ctl y) !! b = Some x → k_srv k = Some s →
  s_callers s !! c = Some (MkCaller cmd (CReturned (Ok (Some m)))) →
  cmd ∈ s_accepted s ∧ msg_key m = cmd_key cmd ∧
  ((∃ cmd' r, (cmd', r) ∈ b_handled x ∧ reply_to ErrorMsg marshal cmd' r = Some (Ok m) ∧
      cmd' ∈ s_accepted s ∧ cmd_key cmd' = cmd_key cmd ∧
      ((∀ other, other ∈ s_accepted s → cmd_key other = cmd_key cmd → other = cmd) → cmd' = cmd)) ∨
   m ∈ from_handler (k_log k) ∨
   (m = pong ∧ cmd_key cmd = (0, 0))).
Proof using encCmd_valid frameCmd encMsg_valid frameMsg.
  intros Hinv%sys_inv_reachable Hk Hx Hs Hc.
  destruct (returned_reply _ _ _ _ _ _ _ _ _ Hinv Hk Hx Hs Hc) as (Ha & Hkey & [(cmd' & r & ? & ? & ? & ?)|[?| ->]]).
  - split_and!; [done..|]. left. exists cmd', r. split_and!; [done..|]. by auto.
  - auto.
  - split_and!; [done..|]. right; right. by rewrite <-Hkey.
Qed.
(** ** Nothing piles up *)

Lemma holds_cmd_one r : (length (holds_cmd r) ≤ 1)%nat.
Proof. destruct r; simpl; lia. Qed.
Lemma holds_msg_one r : (length (holds_msg r) ≤ 1)%nat.
Proof. destruct r as [|? []| | |]; simpl; lia. Qed.

(** C21. From end to end, back pressure.  In every state: no channel on the way holds more than one
    value.  While the loops run, at most two commands the hub accepted have not been written to the
    connection, one in the channel and one in the hands of the session's writer, and at most two
    commands the client has read have not been handled, one in the channel and one in the reader's
    hands; at most two messages that were put into a connection have not been written to it.  So when
    no bytes are under way, the commands the hub accepted are at most four ahead of the handler, and
    what was put into the connection is at most two messages ahead of what the hub received. *)
Theorem end_to_end_back_pressure h y b k x s :
  reachable sys_step (eq (sys_init h)) y →
  y_conns y !! b = Some k → c_bundles (y_ctl y) !! b = Some x → k_srv k = Some s →
  (length (cbuf (s_cmdWriteCh s)) ≤ 1 ∧ length (cbuf (b_cmdCh x)) ≤ 1 ∧ length (cbuf (b_msgCh x)) ≤ 1)%nat ∧
  (s_writer s ≠ WExited → (length (s_accepted s) ≤ length (wire_cmds (s_wire s)) + 2)%nat) ∧
  (reader_alive (p_reader (k_cli k)) = true →
     (length (commands (p_decoded (k_cli k))) ≤ length (b_handled x) + 2)%nat) ∧
  (writer_alive (p_writer (k_cli k)) = true →
     (length (k_log k) ≤ length (messages (p_wire (k_cli k))) + 2)%nat) ∧
  (s_writer s ≠ WExited → reader_alive (p_reader (k_cli k)) = true → k_down k = [] →
     (length (commands (s_accepted s)) ≤ length (b_handled x) + 4)%nat) ∧
  (writer_alive (p_writer (k_cli k)) = true → k_up k = [] →
     (length (k_log k) ≤ length (s_received s) + 2)%nat).
Proof using encCmd_valid frameCmd encMsg_valid frameMsg.
  intros Hinv%sys_inv_reachable Hk Hx Hs. pose proof (yi_conn _ _ Hinv _ _ _ Hk Hx) as Hc.
  pose proof (replies_ok_reachable _ _ _ _ (yi_ctl _ _ Hinv) _ _ Hx) as [Hh _ _].
  pose proof (cl_inv_reachable _ (ki_cli _ _ Hc)) as Hcl. pose proof (ki_srv _ _ Hc _ Hs) as Hsr.
  destruct (client_room _ (ki_cli _ _ Hc)) as [R1 R2], (client_caps _ (ki_cli _ _ Hc)) as [C1 C2].
  pose proof (cmdWriteCh_room _ _ _ _ Hsr) as R3. pose proof (cmdWriteCh_cap _ _ _ _ Hsr) as C3.
  unfold chan_ok in R1, R2, R3. rewrite C1, (ki_cmdCh _ _ Hc) in R1. rewrite C2, (ki_msgCh _ _ Hc) in R2. rewrite C3 in R3.
  pose proof (chan_inv_reachable _ _ _ _ Hsr) as [_ _ _ (lost & Hacc & Hlost)].
  assert (length (wire_cmds (held s)) ≤ 1)%nat as L0 by (unfold held; destruct (s_writer s) as [|[]|]; simpl; lia).
  pose proof (holds_cmd_one (p_reader (k_cli k))) as L1. pose proof (holds_msg_one (p_writer (k_cli k))) as L2.
  assert (reader_alive (p_reader (k_cli k)) = true →
    (length (commands (p_decoded (k_cli k))) ≤ length (b_handled x) + 2)%nat) as B1.
  { intros Ha. rewrite <-(cl_cmds_alive _ Hcl Ha), <-(ki_sent _ _ Hc), Hh, !length_app, length_fmap. lia. }
  assert (writer_alive (p_writer (k_cli k)) = true →
     (length (k_log k) ≤ length (messages (p_wire (k_cli k))) + 2)%nat) as B2.
  { intros Ha. rewrite <-(length_fmap snd), (ki_log _ _ Hc), <-(cl_msgs_alive _ Hcl Ha), !length_app. lia. }
  split_and!; try done.
  - intros Hw. rewrite Hacc, (Hlost Hw), !length_app. simpl. lia.
  - intros Hw Ha Hd. pose proof (ki_down _ _ Hc) as Hl. rewrite Hd in Hl.
    apply (link_drained _ _ _ (k_cdec k)) in Hl; [|done]. unfold srv_wire in Hl. rewrite Hs in Hl.
    specialize (B1 Ha). rewrite Hl, commands_wire in B1. rewrite Hacc, (Hlost Hw), !commands_app, !length_app.
    pose proof (length_filter (λ c, is_ping c = false) (cbuf (s_cmdWriteCh s))).
    pose proof (length_filter (λ c, is_ping c = false) (wire_cmds (held s))). unfold commands in *. simpl. lia.
  - intros Ha Hu. pose proof (ki_up _ _ Hc) as Hl. rewrite Hu in Hl.
    apply (link_drained _ _ _ (k_sdec k)) in Hl; [|done]. unfold srv_received in Hl. rewrite Hs in Hl.
    specialize (B2 Ha). rewrite Hl, length_fmap. unfold messages in B2. rewrite length_fmap in B2.
    pose proof (length_filter (λ p : bool * Msg, p.1 = false) (p_wire (k_cli k))). lia.
Qed.
(** ** Nothing gets stuck *)

(** The goroutines of connection [b] that carry commands and messages, on both sides. *)
Definition runnable (b : nat) (e : sys_event) : Prop :=
  match e with
  | YCtl (ESession _ _) => True
  | YCli b' ev _ =>
      b' = b ∧ match ev with LTakeMsg | LEncode _ | LForward | LKeepalive => True | _ => False end
  | YSrv b' ev _ =>
      b' = b ∧ match ev with EWriteCmd | EEncode _ | EReceiver _ | ECaller _ _ => True | _ => False end
  | YCliDecode b' | YSrvDecode b' => b' = b
  | _ => False
  end.

Definition idle (b : nat) y : Prop := ∀ e, runnable b e → sys_step y e = None.

(** The connection is up: the loops on both sides run, and the controller serves it.  Also, the
    receive loop does not hold the lock of a slot that its call wants to close, as it can when a
    command is answered more than twice ([third_response_wedges_session]). *)
Record connected y (b : nat) k (x : bundle (B := B)) (s : session Q) : Prop := {
  cn_conn : y_conns y !! b = Some k;
  cn_bundle : c_bundles (y_ctl y) !! b = Some x;
  cn_srv : k_srv k = Some s;
  cn_swriter : s_writer s ≠ WExited;
  cn_sreader : s_receiver s ≠ RExited;
  cn_unlocked w m cmd res :
    s_receiver s = RLocked w m → s_callers s !! w ≠ Some (MkCaller cmd (CClose res));
  cn_main : p_main (k_cli k) = MWait;
  cn_creader : reader_alive (p_reader (k_cli k)) = true;
  cn_cwriter : writer_alive (p_writer (k_cli k)) = true;
  cn_panic : c_panic (y_ctl y) = None;
  cn_loop : c_sess (y_ctl y) = SRange b ∨ ∃ m, c_sess (y_ctl y) = SSend b m;
}.

(** Calls that have returned do not move. *)
Lemma returned_stays y b k s c od n :
  y_conns y !! b = Some k → k_srv k = Some s →
  Forall (λ x, ∃ r, caller_at x.2 = CReturned r) (map_to_list (s_callers s)) →
  sys_step y (YSrv b (ECaller c od) n) = None.
Proof.
  intros Hk Hs Hc. simpl. unfold srv_moves. rewrite Hk, Hs. simpl. unfold Extension.ext_step.
  destruct (s_panic s); [done|]. destruct (s_callers s !! c) as [[cmd pc]|] eqn:E; [|done].
  apply elem_of_map_to_list in E. destruct (proj1 (list.Forall_forall _ _) Hc _ E) as [r Hr]. simpl in Hr. by subst.
Qed.

Definition put_result (frame : result bytes) : option error :=
  match frame with Ok _ => None | Err e => Some e end.

Lemma put_enabled frame : is_Some (put frame (put_result frame) 0).
Proof. by destruct frame; simpl; eauto. Qed.

Section idle_connection.
Context (h : H) (y : system) (b : nat) (k : connection) (x : bundle (B := B)) (s : session Q).
Context (inv : sys_inv h y) (conn : connected y b k x s) (no_move : idle b y).

Lemma conn_ok : conn_inv x k.
Proof using inv conn. eapply yi_conn; [exact inv|apply conn|apply conn]. Qed.

Lemma cli_running ev : cl_step (k_cli k) ev =
  match ev with
  | LTakeMsg | LEncode _ => writer_step ev (k_cli k)
  | LForward | LDecode _ => reader_step ev (k_cli k)
  | _ => cl_step (k_cli k) ev
  end.
Proof using inv conn.
  unfold cl_step. rewrite (cl_panic _ (cl_inv_reachable _ (ki_cli _ _ conn_ok))).
  unfold running. rewrite (cn_main _ _ _ _ _ conn). by destruct ev.
Qed.

(** A step of the client that the bundle does not see. *)
Lemma cli_blocked ev n c :
  runnable b (YCli b ev n) → cl_step (k_cli k) ev = Some c → is_Some (cli_writes ev n (k_cli k)) →
  cli_effect b ev (k_cli k) = None → False.
Proof using inv conn no_move.
  intros Hr Hc [bs Hw] He. specialize (no_move _ Hr). simpl in no_move. unfold cli_moves in no_move.
  rewrite (cn_conn _ _ _ _ _ conn), (cn_panic _ _ _ _ _ conn) in no_move.
  assert (may_start ev b (y_ctl y) = true) as Hm by (by destruct ev, Hr).
  by rewrite Hm, Hc, He, Hw in no_move.
Qed.

(** The client's writer waits for a message. *)
Lemma idle_cwriter : p_writer (k_cli k) = WSelect ∧ cbuf (b_msgCh x) = [].
Proof using inv conn no_move.
  pose proof conn_ok as Hc. pose proof (cn_cwriter _ _ _ _ _ conn) as Ha.
  destruct (p_writer (k_cli k)) as [|m pg| | |] eqn:Hw; [|exfalso|done..].
  2: { apply (cli_blocked (LEncode (put_result (encMsg m))) 0
         (match put_result (encMsg m) with
          | None => set_p_writer WSelect (set_p_wire (p_wire (k_cli k) ++ [(pg, m)]) (k_cli k))
          | Some e => set_p_writer (WReturn (wrapError (if pg then "failed to encode pong message"
                                      else "failed to encode message") e)) (k_cli k)
          end)); [done| | |done].
       - rewrite cli_running. simpl. unfold writer_step. rewrite Hw. by destruct (put_result _).
       - simpl. rewrite Hw. apply put_enabled. }
  split; [done|]. rewrite <-(ki_msgCh _ _ Hc). destruct (cbuf (p_msgCh (k_cli k))) as [|m rest] eqn:Hb; [done|exfalso].
  specialize (no_move (YCli b LTakeMsg 0) ltac:(done)). simpl in no_move. unfold cli_moves in no_move.
  rewrite (cn_conn _ _ _ _ _ conn), (cn_panic _ _ _ _ _ conn) in no_move. simpl in no_move.
  rewrite cli_running in no_move. unfold writer_step in no_move. rewrite Hw in no_move.
  unfold chan_recv in no_move. rewrite Hb in no_move. simpl in no_move.
  unfold Controller.ctl_step in no_move. rewrite (cn_panic _ _ _ _ _ conn) in no_move. simpl in no_move.
  rewrite (cn_bundle _ _ _ _ _ conn), <-(ki_msgCh _ _ Hc) in no_move.
  unfold chan_recv in no_move. by rewrite Hb in no_move.
Qed.

(** A send on an empty channel does not wait. *)
Lemma send_ready {A} (v : A) (c : chan A) : cbuf c = [] → ccap c = 1%nat → chan_send v c ≠ SendBlocks.
Proof. unfold chan_send. intros -> ->. by destruct (cclosed c). Qed.

Lemma bundle_caps : ccap (b_cmdCh x) = 1%nat ∧ ccap (b_msgCh x) = 1%nat.
Proof using inv conn.
  pose proof conn_ok as Hc. rewrite <-(ki_cmdCh _ _ Hc), <-(ki_msgCh _ _ Hc).
  apply client_caps, (ki_cli _ _ Hc).
Qed.

(** The controller's loop waits for a command. *)
Lemma idle_loop : c_sess (y_ctl y) = SRange b ∧ cbuf (b_cmdCh x) = [].
Proof using inv conn no_move.
  destruct idle_cwriter as [_ Hm]. destruct bundle_caps as [_ Hcap].
  assert (session_step ErrorMsg marshal false ViaSend (y_ctl y) = None) as Hno.
  { specialize (no_move (YCtl (ESession false ViaSend)) I). simpl in no_move. unfold ctl_moves in no_move.
    simpl in no_move. unfold Controller.ctl_step in no_move. rewrite (cn_panic _ _ _ _ _ conn) in no_move.
    by destruct (session_step _ _ _ _ _). }
  unfold session_step in Hno. destruct (cn_loop _ _ _ _ _ conn) as [Hs|[m Hs]]; rewrite Hs in Hno.
  - split; [done|]. rewrite (cn_bundle _ _ _ _ _ conn) in Hno. unfold chan_recv in Hno.
    by destruct (cbuf (b_cmdCh x)).
  - exfalso. unfold session_send in Hno. rewrite (cn_bundle _ _ _ _ _ conn) in Hno.
    pose proof (send_ready m _ Hm Hcap) as Hr. by destruct (chan_send m (b_msgCh x)).
Qed.
(** The client's reader waits for a command. *)
Lemma idle_creader : p_reader (k_cli k) = RDecode.
Proof using inv conn no_move.
  pose proof conn_ok as Hc. pose proof (cl_inv_reachable _ (ki_cli _ _ Hc)) as Hcl.
  destruct idle_cwriter as [Hw _], idle_loop as [_ Hb], bundle_caps as [Hcap _].
  pose proof (cn_creader _ _ _ _ _ conn) as Ha.
  destruct (p_reader (k_cli k)) as [| |cmd| | | |] eqn:Hr; try done; exfalso.
  - eapply (cli_blocked LKeepalive 0); [done| |by eauto|done]. unfold cl_step, running.
    rewrite (cl_panic _ Hcl), (cn_main _ _ _ _ _ conn), Hr, Hw, (cl_keepalive _ Hcl), Hr. done.
  - pose proof (send_ready cmd _ Hb Hcap) as Hs. pose proof (cl_cmdCh _ Hcl) as Ho. rewrite Hr in Ho.
    specialize (no_move (YCli b LForward 0) ltac:(done)). simpl in no_move. unfold cli_moves in no_move.
    rewrite (cn_conn _ _ _ _ _ conn), (cn_panic _ _ _ _ _ conn) in no_move. simpl in no_move.
    rewrite cli_running in no_move. unfold reader_step in no_move. rewrite Hr, (ki_cmdCh _ _ Hc) in no_move.
    pose proof (chan_send_open cmd (p_cmdCh (k_cli k)) Ho) as Hp. rewrite (ki_cmdCh _ _ Hc) in Hp.
    destruct (chan_send cmd (b_cmdCh x)) as [ch| |] eqn:Hse; [|done..]. simpl in no_move.
    unfold Controller.ctl_step in no_move. rewrite (cn_panic _ _ _ _ _ conn) in no_move. simpl in no_move.
    by rewrite (cn_bundle _ _ _ _ _ conn), Hse in no_move.
Qed.

(** Decode never waits or panics when there are bytes. *)
Lemma link_ready {V SD} (enc : V → result bytes) (valid : V → Prop)
    (dec : SD → reader → outcome (SD * reader * result V)) `{!FrameCodec valid enc dec} st alive sent rcvd bs :
  (∀ v f, enc v = Ok f → valid v) → link_ok enc alive sent rcvd bs → bs ≠ [] →
  ∃ st' r res, dec st (Reader bs EOF) = Return (st', r, res).
Proof.
  intros Hval (pend & frames & cut & -> & He & -> & Hcut) Hne. destruct pend as [|v pend]; simplify_eq/=.
  - destruct Hcut as [->|(Ha & v & more & Hv & Hm)]; [done|].
    destruct (frame_truncated st v cut more EOF) as (st1 & e & Hd); [by eauto..|]. eauto.
  - destruct (enc v) as [f|] eqn:Hv; simplify_eq/=. destruct (encode_all enc pend) as [fs|]; simplify_eq/=.
    rewrite <-app_assoc. destruct (frame_roundtrip st v f (fs ++ cut) EOF) as [st1 Hd]; [by eauto..|]. eauto.
Qed.

Lemma read_error_kept e : is_Some (checkNetworkReadErr (Some e)).
Proof.
  assert (∀ t, is_Some (if str_contains "closed" (Error t) then Some EOF else Some t)) as Ht
    by (intros t; destruct (str_contains _ _); eauto).
  destruct e; try apply Ht. simpl. case_bool_decide; eauto.
Qed.

Lemma idle_down : k_down k = [].
Proof using inv conn no_move encCmd_valid frameCmd.
  pose proof conn_ok as Hc. pose proof idle_creader as Hr.
  destruct (k_down k) as [|z l] eqn:Hd; [done|exfalso].
  edestruct (link_ready encCmd validCmd decCmd (k_cdec k)) as (st & r & res & Hdec);
    [done|apply (ki_down _ _ Hc)|by rewrite Hd|].
  specialize (no_move (YCliDecode b) eq_refl). simpl in no_move. unfold cli_decodes in no_move.
  rewrite (cn_conn _ _ _ _ _ conn), (cn_panic _ _ _ _ _ conn), Hdec, Hd, cli_running in no_move.
  unfold reader_step in no_move. rewrite Hr in no_move.
  destruct res as [cmd|e]; [done|]. destruct (read_error_kept e) as [e' He]. by rewrite He in no_move.
Qed.

(** A step of the session that writes nothing. *)
Lemma srv_blocked ev n :
  runnable b (YSrv b ev n) → is_Some (ext_step s ev) → is_Some (srv_writes ev n s) → False.
Proof using conn no_move.
  intros Hr [s' Hs] [bs Hw]. specialize (no_move _ Hr). simpl in no_move. unfold srv_moves in no_move.
  rewrite (cn_conn _ _ _ _ _ conn), (cn_srv _ _ _ _ _ conn) in no_move. simpl in no_move.
  by rewrite Hs, Hw in no_move.
Qed.

Lemma srv_reach : reachable ext_step (eq new_session) s.
Proof using inv conn. eapply ki_srv; [apply conn_ok|apply conn]. Qed.

Lemma srv_running ev : ext_step s ev =
  match ev with
  | EReceiver on_done => receiver_step (s_receiver s) on_done s
  | EDecode res => decode_step res s
  | EWriteCmd => match s_writer s with WLoop => write_cmd s | _ => None end
  | EEncode err => match s_writer s with WHold i => encode_step err i s | _ => None end
  | ECaller c on_done =>
      match s_callers s !! c with
      | Some (MkCaller cmd pc) => caller_step messageTimeout c cmd pc on_done s
      | None => None
      end
  | _ => ext_step s ev
  end.
Proof using inv conn.
  unfold Extension.ext_step. rewrite (ci_panic _ (chan_inv_reachable _ _ _ _ srv_reach)).
  by destruct ev.
Qed.

(** The session's writer waits for a command. *)
Lemma idle_swriter : s_writer s = WLoop ∧ cbuf (s_cmdWriteCh s) = [].
Proof using inv conn no_move.
  pose proof (cn_swriter _ _ _ _ _ conn) as Hne. destruct (s_writer s) as [|i|] eqn:Hw; [|exfalso|done].
  - split; [done|]. destruct (cbuf (s_cmdWriteCh s)) as [|cmd rest] eqn:Hb; [done|exfalso].
    apply (srv_blocked EWriteCmd 0); [done| |by eauto].
    rewrite srv_running, Hw. unfold write_cmd, chan_recv. rewrite Hb. eauto.
  - apply (srv_blocked (EEncode (put_result (encCmd (item_cmd i)))) 0); [done|..].
    + rewrite srv_running, Hw. unfold encode_step. destruct (put_result _); eauto.
    + simpl. rewrite Hw. apply put_enabled.
Qed.

(** Every call has returned, or waits for a response that has not come. *)
Lemma idle_callers c cmd pc :
  s_callers s !! c = Some (MkCaller cmd pc) →
  (∃ r, pc = CReturned r) ∨ (pc = CWaiting ∧ ∀ sl, s_slots s !! c = Some sl → slot_buf sl = []).
Proof using inv conn no_move.
  intros Hc.
  assert (caller_step messageTimeout c cmd pc false s = None) as Hno.
  { destruct (caller_step _ _ _ _ _ _) as [s'|] eqn:Hs; [exfalso|done].
    apply (srv_blocked (ECaller c false) 0); [done| |by eauto]. rewrite srv_running, Hc, Hs. eauto. }
  pose proof (send_ready cmd _ (proj2 idle_swriter) (cmdWriteCh_cap _ _ _ _ srv_reach)) as Hr.
  destruct pc as [[]| | | |r|r|r|r]; simpl in Hno; try done; eauto.
  - by case_match.
  - by destruct (chan_send cmd (s_cmdWriteCh s)).
  - right. split; [done|]. intros [[|m rest] cl] Hsl; [done|]. by rewrite Hsl in Hno.
  - unfold slot_free in Hno. destruct (s_receiver s) as [| | | |w m|] eqn:Hrc; try done.
    destruct (bool_decide_reflect (w = c)) as [->|]; [|done].
    by destruct (cn_unlocked _ _ _ _ _ conn _ _ cmd r Hrc).
Qed.

(** A call that waits does so in front of an empty, open slot, and the session is not cancelled. *)
Lemma idle_waiting c cmd :
  s_callers s !! c = Some (MkCaller cmd CWaiting) →
  s_done s = false ∧ ∀ sl, s_slots s !! c = Some sl → sl = MkSlot [] false.
Proof using inv conn no_move.
  intros Hc.
  assert (∀ od, caller_step messageTimeout c cmd CWaiting od s = None) as Hno.
  { intros od. destruct (caller_step _ _ _ _ _ _) as [s'|] eqn:Hs; [exfalso|done].
    apply (srv_blocked (ECaller c od) 0); [done| |by eauto]. rewrite srv_running, Hc, Hs. eauto. }
  pose proof (Hno true) as Ht. pose proof (Hno false) as Hf. simpl in Ht, Hf. split; [by destruct (s_done s)|].
  intros [[|m rest] []] Hsl; rewrite Hsl in Hf; done.
Qed.

Lemma idle_sreader : s_receiver s = RLoop.
Proof using inv conn no_move.
  pose proof (cn_sreader _ _ _ _ _ conn) as Hne.
  assert (receiver_step (s_receiver s) false s = None) as Hno.
  { destruct (receiver_step _ _ _) as [s'|] eqn:Hs; [exfalso|done].
    apply (srv_blocked (EReceiver false) 0); [done| |by eauto]. rewrite srv_running, Hs. eauto. }
  destruct (s_receiver s) as [|m|m|w m|w m|] eqn:Hr; try done; exfalso; simpl in Hno.
  - by destruct (s_done s).
  - by destruct (s_msgWait s !! msg_key m).
  - destruct (si_send _ (slots_inv_reachable _ _ _ _ srv_reach) w m) as [sl Hsl]; [by rewrite Hr|].
    by rewrite Hsl in Hno.
  - destruct (locked_open _ _ _ _ _ _ srv_reach Hr) as [[|m0 rest] Hsl]; rewrite Hsl in Hno; [done|].
    destruct (slot_owner _ _ _ _ _ _ srv_reach Hsl) as (cmd & pc & Hc & _ & Hown).
    destruct (idle_callers _ _ _ Hc) as [[r ->]|[-> Hemp]]; [by specialize (Hown eq_refl)|].
    by specialize (Hemp _ Hsl).
Qed.

Lemma idle_up : k_up k = [].
Proof using inv conn no_move encMsg_valid frameMsg.
  pose proof conn_ok as Hc. pose proof idle_sreader as Hsr. destruct (k_up k) as [|z l] eqn:Hd; [done|exfalso].
  edestruct (link_ready encMsg validMsg decMsg (k_sdec k)) as (st & r & res & Hdec);
    [done|apply (ki_up _ _ Hc)|by rewrite Hd|].
  specialize (no_move (YSrvDecode b) eq_refl). simpl in no_move. unfold srv_decodes in no_move.
  rewrite (cn_conn _ _ _ _ _ conn), Hdec, Hd, (cn_srv _ _ _ _ _ conn) in no_move. simpl in no_move.
  rewrite srv_running in no_move. unfold decode_step in no_move. rewrite Hsr in no_move.
  by destruct res.
Qed.
End idle_connection.

Lemma idle_complete h y b k x s :
  sys_inv h y → connected y b k x s → idle b y →
  (b_handled x).*1 = commands (s_accepted s) ∧
  replies ErrorMsg marshal (b_handled x) = (b_replied x).*1 ∧
  (cclosed (b_closed x) = false → c_done (y_ctl y) = false →
     from_loop (k_log k) = replies ErrorMsg marshal (b_handled x)) ∧
  s_received s = (p_wire (k_cli k)).*2 ∧ messages (p_wire (k_cli k)) = (k_log k).*2 ∧
  (∀ c cmd pc, s_callers s !! c = Some (MkCaller cmd pc) →
     (∃ r, pc = CReturned r) ∨ (pc = CWaiting ∧ ∀ sl, s_slots s !! c = Some sl → slot_buf sl = [])).
Proof using encCmd_valid frameCmd encMsg_valid frameMsg.
  intros Hinv Hcn Hid. pose proof (conn_ok _ _ _ _ _ _ Hinv Hcn) as Hc.
  pose proof (replies_ok_reachable _ _ _ _ (yi_ctl _ _ Hinv) _ _ (cn_bundle _ _ _ _ _ Hcn)) as [Hh Hr Hd].
  pose proof (cl_inv_reachable _ (ki_cli _ _ Hc)) as Hcl.
  pose proof (srv_reach _ _ _ _ _ _ Hinv Hcn) as Hs.
  pose proof (chan_inv_reachable _ _ _ _ Hs) as [_ _ _ (lost & Hacc & Hlost)].
  destruct (idle_swriter _ _ _ _ _ _ Hinv Hcn Hid) as [Hsw Hsb]. unfold held in Hacc.
  rewrite Hlost, Hsw, Hsb, !app_nil_r in Hacc by apply Hcn.
  destruct (idle_cwriter _ _ _ _ _ _ Hinv Hcn Hid) as [Hw Hmb], (idle_loop _ _ _ _ _ _ Hinv Hcn Hid) as [Hl Hcb].
  pose proof (idle_creader _ _ _ _ _ _ Hinv Hcn Hid) as Hrd.
  pose proof (ki_down _ _ Hc) as Hdown. rewrite (idle_down _ _ _ _ _ _ Hinv Hcn Hid) in Hdown.
  apply (link_drained _ _ _ (k_cdec k)) in Hdown; [|done].
  pose proof (ki_up _ _ Hc) as Hup. rewrite (idle_up _ _ _ _ _ _ Hinv Hcn Hid) in Hup.
  apply (link_drained _ _ _ (k_sdec k)) in Hup; [|done].
  unfold srv_wire in Hdown. unfold srv_received in Hup. rewrite (cn_srv _ _ _ _ _ Hcn) in Hdown, Hup.
  rewrite Hl in Hr. simpl in Hr. rewrite app_nil_r in Hr.
  split_and!; [| |intros Hcl1 Hcd| | |by eapply idle_callers].
  - rewrite Hacc, <-commands_wire, <-Hdown, <-(cl_cmds_alive _ Hcl), Hrd by apply Hcn. simpl.
    by rewrite app_nil_r, <-(ki_sent _ _ Hc), Hh, Hcb, app_nil_r.
  - done.
  - unfold from_loop. rewrite (ki_replied _ _ Hc), Hr. unfold delivered_replies.
    by rewrite filter_all by (by apply Hd).
  - done.
  - rewrite (ki_log _ _ Hc), Hmb, app_nil_r, <-(cl_msgs_alive _ Hcl), Hw by apply Hcn. simpl. by rewrite app_nil_r.
Qed.

(** C5. From end to end, nothing gets stuck.  Consider a connection that is up, with its loops
    running on both sides, in a state where none of the goroutines that carry commands and messages
    can move.  Then every command the hub accepted has been given to the handler; every reply the
    controller made has been put into the connection (unless the bundle was closed or the context
    is done), and every message put there has been received by the hub and looked up in the table of
    pending commands, and went to a call with its id and number or to the out-of-band handler; and every
    sendCmd call has either returned or waits in front of an empty slot.  So no interleaving of the
    five loops deadlocks or loses anything in between. *)
Theorem end_to_end_complete h y b k x s :
  reachable sys_step (eq (sys_init h)) y → connected y b k x s → idle b y →
  (b_handled x).*1 = commands (s_accepted s) ∧
  replies ErrorMsg marshal (b_handled x) = (b_replied x).*1 ∧
  (cclosed (b_closed x) = false → c_done (y_ctl y) = false →
     from_loop (k_log k) = replies ErrorMsg marshal (b_handled x)) ∧
  s_received s = (p_wire (k_cli k)).*2 ∧ messages (p_wire (k_cli k)) = (k_log k).*2 ∧
  (s_dispatched s).*1 = s_received s ∧
  (∀ m c, (m, Some c) ∈ s_dispatched s → key_of s c = Some (msg_key m)) ∧
  (∀ c cmd pc, s_callers s !! c = Some (MkCaller cmd pc) →
     (∃ r, pc = CReturned r) ∨ (pc = CWaiting ∧ ∀ sl, s_slots s !! c = Some sl → slot_buf sl = [])).
Proof using encCmd_valid frameCmd encMsg_valid frameMsg.
  intros Hinv%sys_inv_reachable Hcn Hid.
  destruct (idle_complete _ _ _ _ _ _ Hinv Hcn Hid) as (? & ? & ? & ? & ? & ?).
  pose proof (srv_reach _ _ _ _ _ _ Hinv Hcn) as Hsr.
  split_and!; try done; [|intros m c; by eapply dispatched_key].
  rewrite (dispatched_all _ _ _ _ Hsr) by apply Hcn.
  by rewrite (idle_sreader _ _ _ _ _ _ Hinv Hcn Hid), app_nil_r.
Qed.
End system.

(** ** A system on concrete schedules *)

Module SampleSystem.
Import SampleQueue SampleController.
#[local] Existing Instance sample_pb.

(** Messages whose encoding is the list of their fields, behind the protobuf codec's framing. *)
#[export] Instance cmd_api : ProtoAPI Cmd := {|
  is_Marshaler _ := true; is_Message _ := true;
  t_Marshal c := Ok ([cmd_Kind c; cmd_Id c; cmd_Seq c] ++ cmd_Payload c);
  proto_Marshal c := Ok ([cmd_Kind c; cmd_Id c; cmd_Seq c] ++ cmd_Payload c);
  Unmarshal_into bs c :=
    match bs with k :: i :: n :: p => (MkCmd k i n p, None) | _ => (c, Some ErrUnexpectedEOF) end;
  zero_of _ := MkCmd 0 0 0 [];
|}.
#[export] Instance msg_api : ProtoAPI Msg := {|
  is_Marshaler _ := true; is_Message _ := true;
  t_Marshal m := Ok ([msg_Kind m; msg_Id m; msg_Ack m] ++ msg_Payload m);
  proto_Marshal m := Ok ([msg_Kind m; msg_Id m; msg_Ack m] ++ msg_Payload m);
  Unmarshal_into bs m :=
    match bs with k :: i :: n :: p => (MkMsg k i n p, None) | _ => (m, Some ErrUnexpectedEOF) end;
  zero_of _ := MkMsg 0 0 0 [];
|}.
#[export] Instance cmd_laws : ProtoLaws Cmd.
Proof. split; [done|by intros [] ? _ _ [= <-]|by intros [] ? _ [= <-]]. Qed.
#[export] Instance msg_laws : ProtoLaws Msg.
Proof. split; [done|by intros [] ? _ _ [= <-]|by intros [] ? _ [= <-]]. Qed.

Definition memory : Z := 2 ^ 48.
Abbreviation decCmd := (decode_one memory (MkCmd 0 0 0 [])).
Abbreviation decMsg := (decode_one memory (MkMsg 0 0 0 [])).
Abbreviation no_pool := (([], []) : pool_state).

#[export] Instance cmd_frames : FrameCodec (sendable memory (MkCmd 0 0 0 [])) (frame_within memory) decCmd.
Proof. by apply frame_within_FrameCodec. Qed.
#[export] Instance msg_frames : FrameCodec (sendable memory (MkMsg 0 0 0 [])) (frame_within memory) decMsg.
Proof. by apply frame_within_FrameCodec. Qed.

Abbreviation ystep := (sys_step (Q := list tq_key) (H := unit) "foo" 1000 1000 (λ _, [0]) echo_marshal
  (frame_within memory) decCmd (frame_within memory) decMsg no_pool no_pool).
Abbreviation ystate := (system (Q := list tq_key) (H := unit) (B := bytes) (SC := pool_state) (SM := pool_state)).
Abbreviation yinit := (sys_init (B := bytes) tt : ystate).

Definition system_after (es : list sys_event) : ystate :=
  match run ystep yinit es with Some y => y | None => yinit end.

(** The extension connects and the session starts. *)
Definition connect_schedule : list sys_event :=
  (YCtl <$> first_connection) ++ [YCli 0 (LDial None) 0; YCli 0 (LRegister None) 0; YAccept 0].

Definition call_schedule (c : nat) (cmd : Cmd) : list sys_event :=
  YSrv 0 (ECall c cmd true) 0 :: replicate 3 (YSrv 0 (ECaller c false) 0).

Definition return_schedule (c : nat) : list sys_event :=
  YSrvDecode 0 :: replicate 4 (YSrv 0 (EReceiver false) 0) ++ replicate 4 (YSrv 0 (ECaller c false) 0).

(** A command goes all the way, and the response comes back. *)
Definition round_trip (c : nat) (cmd : Cmd) : list sys_event :=
  call_schedule c cmd ++
  [YSrv 0 EWriteCmd 0; YSrv 0 (EEncode None) 0; YCliDecode 0; YCli 0 LForward 0; YCtl go; YCtl go; YCli 0 LTakeMsg 0;
   YCli 0 (LEncode None) 0] ++ return_schedule c.

Definition a_cmd : Cmd := MkCmd 99 5 6 [42].
Definition the_reply : Msg := MkMsg 1 5 6 [42].

Definition echo_schedule : list sys_event := connect_schedule ++ round_trip 0 a_cmd.

Definition echoed : ystate := system_after echo_schedule.
Section parts.
Context {H B : Type} (y : system (Q := list tq_key) (H := H) (B := B) (SC := pool_state) (SM := pool_state)).
Definition the_conn : connection (SC := pool_state) (SM := pool_state) :=
  match y_conns y !! 0%nat with Some k => k | None => new_connection no_pool no_pool end.
Definition the_bundle : bundle (B := B) :=
  match c_bundles (y_ctl y) !! 0%nat with Some x => x | None => newChannelBundle end.
Definition the_session : session (list tq_key) :=
  match k_srv the_conn with Some s => s | None => new_session end.
End parts.

Example echo_returns :
  s_callers (the_session echoed) !! 0%nat = Some (MkCaller a_cmd (CReturned (Ok (Some the_reply)))).
Proof. by vm_compute. Qed.

Lemma echo_reachable : reachable ystep (eq yinit) echoed.
Proof. apply (run_reachable _ _ echo_schedule). vm_compute. reflexivity. Qed.

Lemma cmd_valid (v : Cmd) f : frame_within memory v = Ok f → sendable memory (MkCmd 0 0 0 []) v.
Proof. by apply frame_within_sendable. Qed.
Lemma msg_valid (v : Msg) f : frame_within memory v = Ok f → sendable memory (MkMsg 0 0 0 []) v.
Proof. by apply frame_within_sendable. Qed.

Lemma end_to_end_order_witness :
  (b_handled (the_bundle echoed)).*1 = [a_cmd] ∧
  (b_handled (the_bundle echoed)).*1 `prefix_of` commands (s_accepted (the_session echoed)) ∧
  from_loop (k_log (the_conn echoed)) `sublist_of` replies (λ _, [0]) echo_marshal (b_handled (the_bundle echoed)).
Proof.
  split; [vm_compute; reflexivity|].
  destruct (end_to_end_order "foo" 1000 1000 (λ _, [0]) echo_marshal (frame_within memory) decCmd
    (frame_within memory) decMsg no_pool no_pool cmd_valid msg_valid tt echoed 0
    (the_conn echoed) (the_bundle echoed) (the_session echoed)) as (H1 & _ & H2).
  - exact echo_reachable.
  - vm_compute. reflexivity.
  - vm_compute. reflexivity.
  - vm_compute. reflexivity.
  - split; [exact H1|exact H2].
Defined.

Lemma end_to_end_response_witness :
  a_cmd ∈ s_accepted (the_session echoed) ∧ msg_key the_reply = cmd_key a_cmd ∧
  ((∃ cmd' r, (cmd', r) ∈ b_handled (the_bundle echoed) ∧ reply_to (λ _, [0]) echo_marshal cmd' r = Some (Ok the_reply) ∧
      cmd' ∈ s_accepted (the_session echoed) ∧ cmd_key cmd' = cmd_key a_cmd ∧
      ((∀ other, other ∈ s_accepted (the_session echoed) → cmd_key other = cmd_key a_cmd → other = a_cmd) → cmd' = a_cmd)) ∨
   the_reply ∈ from_handler (k_log (the_conn echoed)) ∨
   (the_reply = pong ∧ cmd_key a_cmd = (0, 0))).
Proof.
  apply (end_to_end_response "foo" 1000 1000 (λ _, [0]) echo_marshal (frame_within memory) decCmd
    (frame_within memory) decMsg no_pool no_pool cmd_valid msg_valid tt echoed 0
    (the_conn echoed) (the_bundle echoed) (the_session echoed) 0).
  - exact echo_reachable.
  - vm_compute. reflexivity.
  - vm_compute. reflexivity.
  - vm_compute. reflexivity.
  - vm_compute. reflexivity.
Defined.

(** In state [y] no goroutine of connection 0 can move: by evaluating every step. *)
Ltac solve_idle y :=
  let e := fresh "e" in let He := fresh "He" in
  intros e He; destruct e as [e|b ev n|b|b|b ev n|b]; cbn [runnable] in He;
  [destruct e as [[] []| | | | | | | | |]; try destruct He; vm_compute; reflexivity
  |destruct He as [-> He]; destruct ev; try destruct He; vm_compute; reflexivity
  |rewrite He; vm_compute; reflexivity
  |destruct He
  |destruct He as [-> He]; destruct ev as [|c od| | | | | | | |od| |]; try destruct He; try (vm_compute; reflexivity);
   apply (returned_stays _ _ _ _ _ _ _ _ _ _ _ y 0 (the_conn y) (the_session y)); vm_compute;
   [reflexivity|reflexivity|repeat (constructor; [eexists; reflexivity|]); constructor]
  |rewrite He; vm_compute; reflexivity].

Lemma echo_connected : connected echoed 0 (the_conn echoed) (the_bundle echoed) (the_session echoed).
Proof. split; try (by vm_compute); by left; vm_compute. Qed.

Lemma echo_idle : idle "foo" 1000 1000 (λ _, [0]) echo_marshal (frame_within memory) decCmd
  (frame_within memory) decMsg no_pool no_pool 0 echoed.
Proof. solve_idle echoed. Qed.

Lemma end_to_end_complete_witness :
  (b_handled (the_bundle echoed)).*1 = commands (s_accepted (the_session echoed)) ∧
  s_received (the_session echoed) = (p_wire (k_cli (the_conn echoed))).*2 ∧
  (s_dispatched (the_session echoed)).*1 = s_received (the_session echoed).
Proof.
  destruct (end_to_end_complete "foo" 1000 1000 (λ _, [0]) echo_marshal (frame_within memory) decCmd
    (frame_within memory) decMsg no_pool no_pool cmd_valid msg_valid tt echoed 0
    (the_conn echoed) (the_bundle echoed) (the_session echoed)) as (H1 & _ & _ & H2 & _ & H3 & _).
  - exact echo_reachable.
  - exact echo_connected.
  - exact echo_idle.
  - split; [exact H1|split; [exact H2|exact H3]].
Defined.

(** Four calls, and a controller that does not get round to the first. *)
Definition flood_schedule : list sys_event :=
  connect_schedule ++
  (c ← [0; 1; 2; 3]%nat;
   YSrv 0 (ECall c (MkCmd 99 5 (Z.of_nat c) [42]) true) 0 :: replicate 3 (YSrv 0 (ECaller c false) 0) ++
   match c with
   | 0%nat => [YSrv 0 EWriteCmd 0; YSrv 0 (EEncode None) 0; YCliDecode 0; YCli 0 LForward 0]
   | 1%nat => [YSrv 0 EWriteCmd 0; YSrv 0 (EEncode None) 0; YCliDecode 0]
   | 2%nat => [YSrv 0 EWriteCmd 0]
   | _ => []
   end).

Definition flooded : ystate := system_after flood_schedule.

Lemma end_to_end_back_pressure_witness :
  (length (commands (s_accepted (the_session flooded))) = 4 ∧
   length (commands (s_accepted (the_session flooded))) ≤ length (b_handled (the_bundle flooded)) + 4)%nat.
Proof.
  split; [vm_compute; reflexivity|].
  destruct (end_to_end_back_pressure "foo" 1000 1000 (λ _, [0]) echo_marshal (frame_within memory) decCmd
    (frame_within memory) decMsg no_pool no_pool cmd_valid msg_valid tt flooded 0
    (the_conn flooded) (the_bundle flooded) (the_session flooded)) as (_ & _ & _ & _ & H1 & _).
  - apply (run_reachable _ _ flood_schedule). vm_compute. reflexivity.
  - vm_compute. reflexivity.
  - vm_compute. reflexivity.
  - vm_compute. reflexivity.
  - apply H1; vm_compute; congruence.
Defined.

(** A command with id and number zero is under way when the keepalive is due. *)
Definition zero_cmd : Cmd := MkCmd 99 0 0 [42].
Definition pong_schedule : list sys_event :=
  connect_schedule ++ [YSrv 0 (ETimer false) 0] ++ call_schedule 0 zero_cmd ++
  [YSrv 0 (ETake (TName "foo")) 0; YSrv 0 (ETimer false) 0; YSrv 0 EWritePing 0; YSrv 0 (EEncode None) 0; YCliDecode 0;
   YCli 0 LKeepalive 0; YCli 0 (LEncode None) 0] ++ return_schedule 0.

(** Finding.  The answer to a keepalive can be taken for the answer to a command.  The client's
    pong carries id and number zero, and the session looks every message it receives up by these:
    a sendCmd call whose command has id and number zero returns the pong as its response, although
    the handler has not seen the command. *)
Theorem pong_answers_command :
  ∃ y k x s, reachable ystep (eq yinit) y ∧ y_conns y !! 0%nat = Some k ∧
    c_bundles (y_ctl y) !! 0%nat = Some x ∧ k_srv k = Some s ∧
    s_callers s !! 0%nat = Some (MkCaller zero_cmd (CReturned (Ok (Some pong)))) ∧ b_handled x = [].
Proof.
  exists (system_after pong_schedule), (the_conn (system_after pong_schedule)),
    (the_bundle (system_after pong_schedule)), (the_session (system_after pong_schedule)).
  split_and!; [by apply (run_reachable _ _ pong_schedule); vm_compute|by vm_compute..].
Qed.
End SampleSystem.
