(* ===== verification/Calls.v ===== *)
(** * Every call returns

    A caller of the hub's sendCmd waits in front of a slot until the response is delivered there.
    This file follows a call through the whole system of [EndToEnd]: once nothing more can move on
    a connection that is up, a call that asked for the response and whose timeout has not come has
    returned a response, or the extension's handler made no reply to its command. *)
From S2P Require Import Prelude GoChan Varint Codec Gogoproto Proto MsgWait Extension Handler Controller Client EndToEnd.

Set Default Proof Using "Type".

Section calls.
Context `{pb : !ArhatPb} {Q : Type} `{tq : !TimeoutQueue Q} {H B : Type} `{handler : !Handler H B nat}.
Context (name : string) (keepaliveInterval messageTimeout : Z).
Context (ErrorMsg : string → B) (marshal : B → result bytes).
Context {SC SM : Type}.
Context (encCmd : Cmd → result bytes) (decCmd : SC → reader → outcome (SC * reader * result Cmd)).
Context (encMsg : Msg → result bytes) (decMsg : SM → reader → outcome (SM * reader * result Msg)).
Context (sc0 : SC) (sm0 : SM).

Local Abbreviation ext_step := (ext_step name keepaliveInterval messageTimeout).
Local Abbreviation sys := (system (Q := Q) (H := H) (B := B) (SC := SC) (SM := SM)).
Local Abbreviation sys_step :=
  (sys_step name keepaliveInterval messageTimeout ErrorMsg marshal encCmd decCmd encMsg decMsg sc0 sm0).
Local Abbreviation sys_inv := (sys_inv name keepaliveInterval messageTimeout ErrorMsg marshal encCmd encMsg).
Implicit Types (y : sys) (k : connection (Q := Q) (SC := SC) (SM := SM)).

(** ** Sessions from step to step *)

(** The session of a connection after a step: it has just started, or it is the one before, at
    most one step further. *)
Definition advances (s0 : option (session Q)) (s : session Q) : Prop :=
  match s0 with
  | Some s0 => s = s0 ∨ ∃ ev, ext_step s0 ev = Some s
  | None => s = new_session
  end.

Lemma advances_insert y b0 k0 k1 b k s :
  y_conns y !! b0 = Some k0 → <[b0 := k1]> (y_conns y) !! b = Some k → k_srv k = Some s →
  (∀ s, k_srv k1 = Some s → advances (k_srv k0) s) → advances (y_conns y !! b ≫= k_srv) s.
Proof.
  intros Hk0 [(-> & <- & _)|[Hne Hk]]%list_lookup_insert_Some Hs Hadv; rewrite ?Hk0, ?Hk; simpl; [by auto|].
  rewrite Hs. by left.
Qed.

Lemma sys_step_session y e y' b k s :
  sys_step y e = Some y' → y_conns y' !! b = Some k → k_srv k = Some s →
  advances (y_conns y !! b ≫= k_srv) s.
Proof.
  intros Hs Hk Hsrv. destruct e as [e|b0 ev n|b0|b0|b0 ev n|b0]; simpl in Hs.
  1: { unfold ctl_moves in Hs. destruct (client_event e); [done|].
       destruct (ctl_step _ _ _ e) as [ctl|]; simplify_eq/=.
       rewrite list_lookup_imap in Hk. destruct (c_bundles ctl !! b); simplify_eq/=.
       destruct (y_conns y !! b) as [k0|]; simpl in *; [rewrite Hsrv; by left|done]. }
  1: unfold cli_moves in Hs. 2: unfold cli_decodes in Hs. 3: unfold accepts in Hs.
  4: unfold srv_moves in Hs. 5: unfold srv_decodes in Hs.
  all: destruct (y_conns y !! b0) as [k0|] eqn:Hk0; [|done].
  - destruct (c_panic (y_ctl y)); [done|]. destruct (may_start _ _ _); [|done]. destruct (cl_step _ ev); [|done].
    simpl in Hs. destruct (cli_writes _ _ _); [|done]. simpl in Hs.
    destruct (match cli_effect b0 ev _ with Some e => _ | None => _ end); simplify_eq/=.
    eapply advances_insert; [done..|]. simpl. intros s2 ->. by left.
  - repeat (case_match; try done). destruct (cl_step _ _); simplify_eq/=.
    eapply advances_insert; [done..|]. simpl. intros s2 ->. by left.
  - destruct (k_srv k0) eqn:Hk1; [done|]. repeat (case_match; simplify_eq/=; try done).
    eapply advances_insert; [done..|]. simpl. rewrite Hk1. by intros s2 [= <-].
  - destruct (k_srv k0) as [s0|] eqn:Hk1; [|done]. simpl in Hs. destruct (ext_step s0 ev) eqn:He; [|done].
    simpl in Hs. destruct (srv_writes _ _ _); simplify_eq/=.
    eapply advances_insert; [done..|]. simpl. rewrite Hk1. intros s2 [= <-]. right. by eauto.
  - repeat (case_match; try done). destruct (k_srv k0) as [sv|] eqn:Hk1; [|done]. simpl in Hs.
    destruct (ext_step sv _) eqn:He; simplify_eq/=.
    eapply advances_insert; [done..|]. simpl. rewrite Hk1. intros s2 [= <-]. right. by eauto.
Qed.

Lemma accepted_grows s e s' : ext_step s e = Some s' → s_accepted s `prefix_of` s_accepted s'.
Proof. intros Hstep. ext_cases Hstep; try done. by apply prefix_app_r. Qed.

(** ** Calls that wait *)

Context {validCmd : Cmd → Prop} {validMsg : Msg → Prop}.
Context {frameCmd : FrameCodec validCmd encCmd decCmd} {frameMsg : FrameCodec validMsg encMsg decMsg}.
Hypothesis encCmd_valid : ∀ v f, encCmd v = Ok f → validCmd v.
Hypothesis encMsg_valid : ∀ v f, encMsg v = Ok f → validMsg v.

(** The key of [cmd] is new when [cmd] is accepted on a connection: no command accepted before has
    it, nor a message the handler sends by itself, nor the pong. *)
Record own_key k (s : session Q) (cmd : Cmd) : Prop := {
  ok_first l1 l2 cmd' : s_accepted s = l1 ++ cmd :: l2 → cmd' ∈ l1 → cmd_key cmd' ≠ cmd_key cmd;
  ok_handler m : m ∈ from_handler (k_log k) → msg_key m ≠ cmd_key cmd;
  ok_pong : cmd_key cmd ≠ (0, 0);
}.

(** [cmd] is the only command with its key that was accepted, and was accepted once. *)
Definition only_cmd (s : session Q) (cmd : Cmd) : Prop := ∀ l1 l2 cmd',
  s_accepted s = l1 ++ cmd :: l2 → cmd' ∈ l1 ++ l2 → cmd_key cmd' ≠ cmd_key cmd.

Lemma only_cmd_before (s s0 : session Q) cmd : only_cmd s cmd → s_accepted s0 `prefix_of` s_accepted s → only_cmd s0 cmd.
Proof.
  intros Ho [l' Hacc] l1 l2 cmd' Hl Hin. apply (Ho l1 (l2 ++ l')).
  - rewrite Hacc, Hl. by rewrite <-(assoc_L (++)).
  - rewrite (assoc_L (++)). apply elem_of_app. by left.
Qed.

Lemma only_cmd_same (s : session Q) cmd cmd' :
  only_cmd s cmd → cmd ∈ s_accepted s → cmd' ∈ s_accepted s → cmd_key cmd' = cmd_key cmd → cmd' = cmd.
Proof.
  intros Ho (l1 & l2 & Hl)%list_elem_of_split Hin Hkey. rewrite Hl in Hin.
  apply elem_of_app in Hin as [Hin|[->|Hin]%elem_of_cons]; [exfalso|done|exfalso];
    (apply (Ho _ _ cmd' Hl); [apply elem_of_app; by auto|done]).
Qed.

Lemma only_cmd_first (s s0 : session Q) cmd cmd' :
  only_cmd s cmd → s_accepted s = s_accepted s0 ++ [cmd] → cmd' ∈ s_accepted s0 → cmd_key cmd' ≠ cmd_key cmd.
Proof. intros Ho Ha Hin. apply (Ho _ [] cmd' Ha). by rewrite app_nil_r. Qed.

(** Before such a command is accepted, no message with its key is received. *)
Lemma own_key_received h y b k x s cmd m :
  sys_inv h y → y_conns y !! b = Some k → c_bundles (y_ctl y) !! b = Some x → k_srv k = Some s →
  (∀ cmd', cmd' ∈ s_accepted s → cmd_key cmd' ≠ cmd_key cmd) →
  (∀ m, m ∈ from_handler (k_log k) → msg_key m ≠ cmd_key cmd) →
  cmd_key cmd ≠ (0, 0) → m ∈ s_received s → msg_key m ≠ cmd_key cmd.
Proof.
  intros Hinv Hk Hx Hs Hnew Hfh Hp Hm Hkey.
  destruct (received_from _ _ _ _ _ _ _ _ _ _ _ _ _ _ Hinv Hk Hx Hs Hm) as [->|[Hl|(cmd' & r & _ & Hr & Hacc)]];
    [by apply Hp|by eapply Hfh|].
  apply reply_key in Hr. apply (Hnew _ Hacc). congruence.
Qed.

Lemma own_key_before k k0 s s0 l cmd :
  own_key k s cmd → k_log k = k_log k0 ++ l → s_accepted s0 `prefix_of` s_accepted s → own_key k0 s0 cmd.
Proof.
  intros [Hnd Hfh Hp] Hlog [l' Hacc]. split; [|intros m Hm; apply Hfh|done].
  - intros l1 l2 cmd' Hl. apply (Hnd l1 (l2 ++ l')). rewrite Hacc, Hl. by rewrite <-(assoc_L (++)).
  - unfold from_handler in *. rewrite Hlog, list.filter_app, fmap_app. apply elem_of_app. by left.
Qed.

(** From step to step: a call that waits stays unheard if, up to when its command is accepted, no
    message with its key has been received. *)
Lemma waits_unheard_step h y e y' b k' s' c cmd :
  sys_inv h y → sys_step y e = Some y' → y_conns y' !! b = Some k' → k_srv k' = Some s' →
  waits s' c cmd → s_done s' = false →
  (∀ k s, y_conns y !! b = Some k → k_srv k = Some s → s_accepted s `prefix_of` s_accepted s' →
    waits s c cmd → s_done s = false → unheard s c cmd) →
  (∀ k s, y_conns y !! b = Some k → k_srv k = Some s → s_accepted s' = s_accepted s ++ [cmd] →
    ∀ m, m ∈ s_received s → msg_key m ≠ cmd_key cmd) →
  unheard s' c cmd.
Proof.
  intros Hinv Hstep Hk' Hs' Hw Hd IH Hnew. pose proof (sys_step_session _ _ _ _ _ _ Hstep Hk' Hs') as Hadv.
  destruct (y_conns y !! b) as [k|] eqn:Hk; simpl in *; [|by subst; destruct Hw].
  destruct (k_srv k) as [s|] eqn:Hs; simpl in *; [|by subst; destruct Hw].
  destruct Hadv as [->|[ev Hev]]; [by apply (IH k s)|].
  assert (is_Some (c_bundles (y_ctl y) !! b)) as [x Hx].
  { apply lookup_lt_is_Some. rewrite <-(yi_len _ _ _ _ _ _ _ _ _ Hinv). by eapply lookup_lt_Some. }
  pose proof (ki_srv _ _ _ _ _ _ _ (yi_conn _ _ _ _ _ _ _ _ _ Hinv _ _ _ Hk Hx) _ Hs) as Hsr.
  destruct (waits_since _ _ _ _ _ _ _ _ Hev Hw) as [Hw0|(Ha & Hrc & Hrv)].
  - eapply unheard_step; eauto. eapply (IH k s); eauto using accepted_grows.
    apply not_true_is_false. intros ?%(done_step _ _ _ _ _ _ Hev). congruence.
  - specialize (Hnew k s eq_refl Hs Ha). split.
    + intros m Hm. apply Hnew. unfold before_hand in Hm. rewrite Hrv in Hm.
      destruct (Extension.in_hand _); [by eapply elem_of_sublist, sublist_take|done].
    + intros w m Hm Hkey. rewrite Hrc in Hm. exfalso. apply (Hnew m); [|done].
      by apply (corr_send _ (corr_inv_reachable _ _ _ _ Hsr) w).
Qed.

(** A call that waits has not been answered. *)
Lemma waits_unheard h y b k s c cmd :
  reachable sys_step (eq (sys_init h)) y → y_conns y !! b = Some k → k_srv k = Some s →
  own_key k s cmd → waits s c cmd → s_done s = false → unheard s c cmd.
Proof using encCmd_valid frameCmd encMsg_valid frameMsg.
  intros Hr. revert k s. induction Hr as [y <-|y e y' Hr IH Hstep]; [done|].
  intros k' s' Hk' Hs' Hown Hw Hd.
  pose proof (sys_inv_reachable _ _ _ _ _ _ _ _ _ _ _ encCmd_valid encMsg_valid _ _ Hr) as Hinv.
  pose proof (sys_step_log _ _ _ _ _ _ _ _ _ _ _ _ _ _ _ _ Hstep Hk') as Hlog.
  eapply waits_unheard_step; [done..| |]; intros k s Hk Hs Ha; rewrite Hk in Hlog; simpl in Hlog.
  - intros Hw0 Hd0. by apply (IH k s); [..|eapply own_key_before| |].
  - assert (own_key k s cmd) as Hown0 by (eapply own_key_before; [done..|rewrite Ha; by apply prefix_app_r]).
    assert (is_Some (c_bundles (y_ctl y) !! b)) as [x Hx].
    { apply lookup_lt_is_Some. rewrite <-(yi_len _ _ _ _ _ _ _ _ _ Hinv). by eapply lookup_lt_Some. }
    intros m. eapply own_key_received; try done; [|apply Hown0..]. intros cmd' Hin. by apply (ok_first _ _ _ Hown _ [] _ Ha).
Qed.

(** When nothing moves, the hub has received every message put into the connection. *)
Lemma idle_log_received h y b k x s m :
  sys_inv h y → connected y b k x s →
  idle name keepaliveInterval messageTimeout ErrorMsg marshal encCmd decCmd encMsg decMsg sc0 sm0 b y →
  m ∈ (k_log k).*2 → m ∈ s_received s.
Proof using encCmd_valid frameCmd encMsg_valid frameMsg.
  intros Hinv Hcn Hid Hm.
  destruct (idle_complete _ _ _ _ _ _ _ _ _ _ _ encCmd_valid encMsg_valid _ _ _ _ _ _ Hinv Hcn Hid)
    as (_ & _ & _ & -> & Hmsg & _). rewrite <-Hmsg in Hm.
  apply list_elem_of_fmap in Hm as (p & -> & [_ Hp]%list_elem_of_filter). by apply list_elem_of_fmap_2.
Qed.

(** A call in the table that still waits does so in front of an empty, open slot. *)
Lemma idle_waits h y b k x s c cmd :
  sys_inv h y → connected y b k x s →
  idle name keepaliveInterval messageTimeout ErrorMsg marshal encCmd decCmd encMsg decMsg sc0 sm0 b y →
  s_callers s !! c = Some (MkCaller cmd CWaiting) → s_msgWait s !! cmd_key cmd = Some c →
  waits s c cmd ∧ s_done s = false.
Proof using encCmd_valid frameCmd encMsg_valid frameMsg.
  intros Hinv Hcn Hid Hc Ht.
  destruct (idle_waiting _ _ _ _ _ _ _ _ _ _ _ _ _ _ _ _ _ Hinv Hcn Hid _ _ Hc) as [Hd Hsl]. split; [|done].
  pose proof (srv_reach _ _ _ _ _ _ _ _ _ _ _ _ _ Hinv Hcn) as Hsr.
  destruct (si_table _ (slots_inv_reachable _ _ _ _ Hsr) _ _ Ht) as [sl Hsl0].
  split; [done..|by rewrite <-(Hsl _ Hsl0)].
Qed.

(** What is unheard has not been received. *)
Lemma idle_unheard h y b k x s c cmd m :
  sys_inv h y → connected y b k x s →
  idle name keepaliveInterval messageTimeout ErrorMsg marshal encCmd decCmd encMsg decMsg sc0 sm0 b y →
  unheard s c cmd → m ∈ s_received s → msg_key m ≠ cmd_key cmd.
Proof using encCmd_valid frameCmd encMsg_valid frameMsg.
  intros Hinv Hcn Hid [Hno _] Hm. apply Hno. unfold before_hand.
  by rewrite (idle_sreader _ _ _ _ _ _ _ _ _ _ _ _ _ _ _ _ _ Hinv Hcn Hid).
Qed.

(** When nothing moves, a call still in the table waits only for want of a reply. *)
Lemma idle_call h y b k x s c cmd pc :
  reachable sys_step (eq (sys_init h)) y → connected y b k x s →
  idle name keepaliveInterval messageTimeout ErrorMsg marshal encCmd decCmd encMsg decMsg sc0 sm0 b y →
  cclosed (b_closed x) = false → c_done (y_ctl y) = false →
  s_callers s !! c = Some (MkCaller cmd pc) → is_ping cmd = false → own_key k s cmd →
  s_msgWait s !! cmd_key cmd = Some c →
  (∃ r, pc = CReturned r) ∨
  (pc = CWaiting ∧ ∃ r, (cmd, r) ∈ b_handled x ∧ ∀ m, reply_to ErrorMsg marshal cmd r ≠ Some (Ok m)).
Proof using encCmd_valid frameCmd encMsg_valid frameMsg.
  intros Hr Hcn Hid Hop Hdn Hc Hping Hown Ht.
  pose proof (sys_inv_reachable _ _ _ _ _ _ _ _ _ _ _ encCmd_valid encMsg_valid _ _ Hr) as Hinv.
  destruct (idle_callers _ _ _ _ _ _ _ _ _ _ _ _ _ _ _ _ _ Hinv Hcn Hid _ _ _ Hc) as [?|[-> _]]; [by left|right].
  split; [done|]. destruct (idle_waits _ _ _ _ _ _ _ _ Hinv Hcn Hid Hc Ht) as [Hw Hd].
  pose proof (waits_unheard _ _ _ _ _ _ _ Hr (cn_conn _ _ _ _ _ Hcn) (cn_srv _ _ _ _ _ Hcn) Hown Hw Hd) as Hu.
  destruct (idle_complete _ _ _ _ _ _ _ _ _ _ _ encCmd_valid encMsg_valid _ _ _ _ _ _ Hinv Hcn Hid) as (Hall & _ & Hlog & _).
  assert (cmd ∈ (b_handled x).*1) as ([? r] & -> & Hin)%list_elem_of_fmap.
  { rewrite Hall. apply list_elem_of_filter. split; [done|].
    eapply accepted_reachable; [by eapply srv_reach|done|done]. }
  exists r. split; [done|]. intros m Hm. eapply idle_unheard; [done..| |by eapply reply_key].
  eapply idle_log_received; [done..|]. eapply elem_of_sublist; [|apply fmap_sublist, (sublist_filter (λ p, p.1 = true))].
  change (m ∈ from_loop (k_log k)). rewrite Hlog by done. apply list_elem_of_omap. eexists (_, r). split; [done|].
  simpl in *. by rewrite Hm.
Qed.

(** Call [c] asked for the response to [cmd], no other call asks for one under the same key, and
    the timeout of this key has not come. *)
Record pending_call (s : session Q) (c : nat) (cmd : Cmd) : Prop := {
  pd_slot : is_Some (s_slots s !! c);
  pd_sole : ¬ rival s c cmd;
  pd_time : cmd_key cmd ∉ s_timeouts s;
}.

Lemma pending_returns h y b k x s c cmd pc :
  reachable sys_step (eq (sys_init h)) y → connected y b k x s →
  idle name keepaliveInterval messageTimeout ErrorMsg marshal encCmd decCmd encMsg decMsg sc0 sm0 b y →
  cclosed (b_closed x) = false → c_done (y_ctl y) = false → s_done s = false →
  s_callers s !! c = Some (MkCaller cmd pc) → is_ping cmd = false → own_key k s cmd → pending_call s c cmd →
  (∃ m, pc = CReturned (Ok (Some m)) ∧ msg_key m = cmd_key cmd ∧ m ∈ s_received s) ∨
  (pc = CWaiting ∧ s_msgWait s !! cmd_key cmd = Some c ∧
   ∃ r, (cmd, r) ∈ b_handled x ∧ ∀ m, reply_to ErrorMsg marshal cmd r ≠ Some (Ok m)).
Proof using encCmd_valid frameCmd encMsg_valid frameMsg.
  intros Hr Hcn Hid Hop Hdn Hsd Hc Hping Hown [Hsl Hsole Htime].
  pose proof (sys_inv_reachable _ _ _ _ _ _ _ _ _ _ _ encCmd_valid encMsg_valid _ _ Hr) as Hinv.
  pose proof (srv_reach _ _ _ _ _ _ _ _ _ _ _ _ _ Hinv Hcn) as Hsr.
  destruct (idle_callers _ _ _ _ _ _ _ _ _ _ _ _ _ _ _ _ _ Hinv Hcn Hid _ _ _ Hc) as [[r ->]|[-> _]].
  - left. destruct (returned_on_time _ _ _ _ _ _ _ Hsr Hc Hsl Htime Hsd Hsole) as (m & -> & ?). by exists m.
  - right. destruct (on_time_reachable _ _ _ _ Hsr _ _ _ Hc Htime) as [Ht _]. specialize (Ht eq_refl).
    split_and!; [done..|].
    destruct (idle_call _ _ _ _ _ _ _ _ _ Hr Hcn Hid Hop Hdn Hc Hping Hown Ht) as [[? ?]|[_ ?]]; done.
Qed.

End calls.

Module SampleCalls.
Import SampleQueue SampleController SampleSystem.
#[local] Existing Instance sample_pb.

End SampleCalls.
