(* ===== verification/RuntimeHost.v ===== *)
(** * The runtime handler at work

    The whole system of [EndToEnd] with the runtime handler ([Runtime]) behind the controller.  The
    controller's loop calls HandleCmd, which starts the goroutines of an operation; these call
    SendMsg whenever they have output, which goes through the send function the controller set
    last; and the context of an operation is cancelled when the loop leaves the connection the
    operation came from.

    [host_step] is a synchronous product again: taking a command from a connection's channel is a
    step of the controller and a [VCmd] of the handler; a SendMsg of the handler is an
    [EAsyncSend] of the controller, its end an [EAsyncStep] and the [CSend] or [ASend] of the
    operation.  What HandleCmd returns does not depend on the handler's state, so the controller
    runs with a handler without state, and the state is [rt_state]. *)
From S2P Require Import Prelude GoChan Varint Codec Gogoproto Proto MsgWait Extension Handler Controller History Client EndToEnd Streaming RuntimePb Runtime.

Set Default Proof Using "Type".

(** The goroutines of an operation that send: its uploaders and its main goroutine. *)
Inductive sender : Type := Upl (stdout : bool) | Main.

#[export] Instance sender_eq_dec : EqDecision sender.
Proof. solve_decision. Defined.

Section host.
Context `{pb : !ArhatPb, wke : !WellKnownErrors, apb : !AranyaPb}.
Context {W : Type} `{engine : !RuntimeEngine W} {SQ : Type} `{sq : !SeqQueue SQ}.
Context (maxPayloadSize : Z).
Context {Q : Type} `{tq : !TimeoutQueue Q} {B : Type}.
Context (name : string) (keepaliveInterval messageTimeout : Z).
Context (error_body : string → B) (marshal : B → result bytes).
Context {SC SM : Type}.
Context (encCmd : Cmd → result bytes) (decCmd : SC → reader → outcome (SC * reader * result Cmd)).
Context (encMsg : Msg → result bytes) (decMsg : SM → reader → outcome (SM * reader * result Msg)).
Context (sc0 : SC) (sm0 : SM).

(** ** HandleCmd, as the controller sees it *)

Definition cast_result (r : cmd_result Empty_set) : cmd_result B :=
  MkCmdResult (res_kind r) (match res_ret r with Some e => match e with end | None => None end) (res_err r).

Definition rt_result (kind : Z) (payload : bytes) : cmd_result B :=
  cast_result (rt_HandleCmd (W := W) (Q := SQ) 0 0 kind payload NewStreamManager).1.2.

Lemma rt_result_any sid seq kind payload m :
  cast_result (rt_HandleCmd (W := W) (Q := SQ) sid seq kind payload m).1.2 = rt_result kind payload.
Proof. unfold rt_result, rt_HandleCmd. repeat case_match; done. Qed.

#[local] Instance rt_interface : Handler unit B nat := {|
  SetMsgSendFunc _ h := h;
  HandleCmd _ _ kind payload h := Return (h, rt_result kind payload);
|}.

Local Abbreviation ctl := (controller (H := unit) (B := B)).
Local Abbreviation sys := (system (Q := Q) (H := unit) (B := B) (SC := SC) (SM := SM)).
Local Abbreviation rts := (rt_state (W := W) (Q := SQ)).
Local Abbreviation ctl_step := (ctl_step error_body marshal).
Local Abbreviation sys_step :=
  (sys_step name keepaliveInterval messageTimeout error_body marshal encCmd decCmd encMsg decMsg sc0 sm0).
Local Abbreviation rt_step := (rt_step (W := W) (Q := SQ) maxPayloadSize).

(** ** State *)

(** A SendMsg of an operation that returned nil: whose it was (with its place in the stream, if it
    is part of one), the connection it was for, and whether it went into its channel. *)
Record send : Type := MkSend {
  sd_op : nat;
  sd_src : option source;
  sd_bundle : nat;
  sd_msg : Msg;
  sd_put : bool;
}.

Record host : Type := MkHost {
  o_sys : sys;
  o_rt : rts;
  o_ctx : gmap nat nat;      (* the connection whose session's context an operation was given *)
  o_over : gset nat;         (* the connections whose context is cancelled *)
  o_sends : list send;
}.
Implicit Types y : host.

Local Abbreviation hctl y := (y_ctl (o_sys y)).

Definition host_init (w : W) : host := MkHost (sys_init tt) (rt_init w) ∅ ∅ [].

(** ** Steps *)

(** The message a goroutine is about to send, and its place in the stream. *)
Definition pending (o : op (W := W)) (snd : sender) : option (option source * Msg) :=
  match snd with
  | Upl stdout =>
      match upl stdout o with Some (USend m) => Some (Some (upl_source stdout), m) | _ => None end
  | Main =>
      match op_at o with
      | OSendLast m | OPfSendLast m _ => Some (Some SLast, m)
      | OReply r => match reply (op_sid o) (op_seq o) r with Some m => Some (None, m) | None => None end
      | _ => None
      end
  end.

Definition async_id (g : nat) (snd : sender) : nat :=
  (3 * g + match snd with Upl true => 0 | Upl false => 1 | Main => 2 end)%nat.

(** SendMsg returns [err] to a goroutine. *)
Definition send_returns (g : nat) (snd : sender) (err : option error) : rt_event :=
  match snd with Upl stdout => VUpload g stdout (ASend err) | Main => VStep g (CSend err) end.

(** The command a step of the system hands to HandleCmd. *)
Definition hands_over (e : sys_event) (c : ctl) : option (nat * Cmd) :=
  match e with YCtl e => takes_cmd e c | _ => None end.

(** The connection whose session ends with a step: [defer cancel()]. *)
Definition leaves (c c' : ctl) : option nat :=
  match c_sess c, c_sess c' with
  | (SRange b | SSend b _), (SWait | SClose1 _) => Some b
  | _, _ => None
  end.

Inductive host_event : Type :=
| HSys (e : sys_event) (g : nat)              (* [g] names the goroutine HandleCmd starts *)
| HRun (g : nat) (c : choice)                 (* the main goroutine of an operation *)
| HUpl (g : nat) (stdout : bool) (a : upl_act)
| HCancel (g : nat)                           (* an operation's context is seen to be done *)
| HSend (g : nat) (snd : sender)              (* SendMsg: the send function is called *)
| HSent (g : nat) (snd : sender) (c : send_choice).

(** HandleCmd of the runtime handler. *)
Definition handles (e : sys_event) (g : nat) y : option (rts * gmap nat nat) :=
  match hands_over e (hctl y) with
  | Some (b, cmd) =>
      rt ← rt_step (o_rt y) (VCmd g (cmd_Id cmd) (cmd_Seq cmd) (cmd_Kind cmd) (cmd_Payload cmd));
      Some (rt, match r_ops rt !! g with Some _ => <[g := b]> (o_ctx y) | None => o_ctx y end)
  | None => Some (o_rt y, o_ctx y)
  end.

Definition on_rt (e : rt_event) y : option host :=
  rt ← rt_step (o_rt y) e; Some (MkHost (o_sys y) rt (o_ctx y) (o_over y) (o_sends y)).

Definition ctx_done (g : nat) y : bool :=
  c_done (hctl y) || match o_ctx y !! g with Some b => bool_decide (b ∈ o_over y) | None => false end.

(** SendMsg has returned: with an error only for a context that is done. *)
Definition choice_error (c : send_choice) : option error :=
  match c with ViaDone => Some Canceled | _ => None end.

Definition via_send (c : send_choice) : bool := match c with ViaSend => true | _ => false end.

Definition record_send (c : send_choice) (d : send) (l : list send) : list send :=
  match choice_error c with None => l ++ [d] | Some _ => l end.

Definition sent_step (g : nat) (snd : sender) (c : send_choice) y : option host :=
  o ← r_ops (o_rt y) !! g;
  '(tag, _) ← pending o snd;
  '(b, m) ← c_async (hctl y) !! async_id g snd;
  s ← sys_step (o_sys y) (YCtl (EAsyncStep (async_id g snd) c));
  match c_panic (y_ctl s) with
  | Some _ => Some (MkHost s (o_rt y) (o_ctx y) (o_over y) (o_sends y))
  | None =>
      rt ← rt_step (o_rt y) (send_returns g snd (choice_error c));
      Some (MkHost s rt (o_ctx y) (o_over y)
             (record_send c (MkSend g tag b m (via_send c)) (o_sends y)))
  end.

Definition host_step y (e : host_event) : option host :=
  match e, c_panic (hctl y) with
  | HSys e g, _ =>
      if is_async e then None
      else
        s ← sys_step (o_sys y) e;
        '(rt, ctx) ← handles e g y;
        Some (MkHost s rt ctx
               (match leaves (hctl y) (y_ctl s) with Some b => {[b]} ∪ o_over y | None => o_over y end)
               (o_sends y))
  | HRun g (CSend _), None => None
  | HRun g c, None => on_rt (VStep g c) y
  | HUpl g stdout (ASend _), None => None
  | HUpl g stdout a, None => on_rt (VUpload g stdout a) y
  | HCancel g, None => if ctx_done g y then on_rt (VCancel g) y else None
  | HSend g snd, None =>
      o ← r_ops (o_rt y) !! g;
      '(_, m) ← pending o snd;
      match c_fn (hctl y) with
      | None => on_rt (send_returns g snd (Some ErrMsgSendFuncNotSet)) y
      | Some _ =>
          s ← sys_step (o_sys y) (YCtl (EAsyncSend (async_id g snd) m));
          Some (MkHost s (o_rt y) (o_ctx y) (o_over y) (o_sends y))
      end
  | HSent g snd c, None => sent_step g snd c y
  | _, Some _ => None
  end.

(** ** What the steps do to an operation *)

Definition part_of (tag : option source) (m : Msg) : list (source * Msg) :=
  match tag with Some src => [(src, m)] | None => [] end.

(** What an operation was asked to do. *)
Definition origin (o : op (W := W)) : Z * Z * rt_func * bytes := (op_sid o, op_seq o, op_func o, op_payload o).

(** [send] is the goroutine whose SendMsg has returned, with its result. *)
Record op_effect (send : option (sender * option error)) (o o' : op (W := W)) : Prop := {
  oe_origin : origin o' = origin o;
  oe_pending snd p :
    pending o snd = Some p → (∀ err, send ≠ Some (snd, err)) → pending o' snd = Some p;
  oe_sent : op_sent o' = op_sent o ++
    match send with
    | Some (snd, None) => match pending o snd with Some (tag, m) => part_of tag m | None => [] end
    | _ => []
    end;
}.

Lemma op_effect_refl o : op_effect None o o.
Proof. split; try done. by rewrite app_nil_r. Qed.

Lemma upl_effect stdout a o o' :
  upl_step maxPayloadSize stdout a o = Some o' →
  op_effect (match a with ASend err => Some (Upl stdout, err) | _ => None end) o o' ∧ op_done o' = op_done o.
Proof.
  intros Hs. unfold upl_step in Hs.
  assert (∀ u o1 send, pending o1 Main = pending o Main → pending o1 (Upl (negb stdout)) = pending o (Upl (negb stdout)) →
    origin o1 = origin o →
    (∀ p, pending o (Upl stdout) = Some p → ∃ err, send = Some (Upl stdout, err)) →
    op_sent o1 = op_sent o ++
      match send with
      | Some (snd, None) => match pending o snd with Some (tag, m) => part_of tag m | None => [] end
      | _ => []
      end →
    op_effect send o (set_upl stdout u o1)) as Hgo.
  { intros u o1 send HM HU H1 HS H3. split; [done| |done]. intros [out|] p Hp Hne; [|by rewrite <-HM in Hp].
    destruct (decide (out = stdout)) as [->|Hout].
    - destruct (HS p Hp) as [err ->]. by destruct (Hne err).
    - assert (out = negb stdout) as -> by (by destruct out, stdout).
      rewrite <-HU in Hp. by destruct stdout. }
  destruct (upl stdout o) as [[|d|m|]|] eqn:Hu, a as [|data cp buf re| |err]; simplify_eq.
  2: destruct (read_ok _ _ _ _), re; simplify_eq.
  all: split; [|done]; apply Hgo; try done; simpl; rewrite ?Hu; try done; try (by rewrite app_nil_r); try (by destruct stdout).
  - eauto.
  - by destruct err; simpl; rewrite ?app_nil_r.
Qed.

(** A goroutine that waits for SendMsg does nothing else. *)
Lemma op_step_main o c m w o' m' w' :
  op_step (Q := SQ) o c m w = Some (o', m', w') →
  origin o' = origin o ∧ op_done o' = op_done o ∧
  match c with
  | CSend err => ∃ tag msg, pending o Main = Some (tag, msg) ∧
      op_sent o' = op_sent o ++ match err with None => part_of tag msg | Some _ => [] end
  | _ => pending o Main = None ∧ op_sent o' = op_sent o
  end.
Proof.
  intros Hs. unfold op_step, pf_step, op_start, op_run, handleTtyResize, add_stream, createTerminalStream in Hs.
  destruct (op_at o) eqn:Hat, c; try done; simpl; rewrite Hat.
  all: try (by repeat case_match; simplify_eq/=).
  all: try (simplify_eq; split_and!; [done..|]; destruct err0; eexists _, _; by rewrite ?app_nil_r).
  all: try (simplify_eq; split_and!; [done..|]; destruct err; eexists _, _; by rewrite ?app_nil_r).
  all: destruct (reply _ _ r) as [msg|] eqn:Hr; simplify_eq/=; split_and!; try done.
  exists None, msg. split; [done|]. destruct err; by rewrite app_nil_r.
Qed.

Lemma main_effect o c m w o' m' w' :
  op_ok maxPayloadSize o → op_step (Q := SQ) o c m w = Some (o', m', w') →
  op_effect (match c with CSend err => Some (Main, err) | _ => None end) o o' ∧ op_done o' = op_done o.
Proof.
  intros Hok Hs. destruct (op_step_main _ _ _ _ _ _ _ Hs) as (H1 & H3 & H4).
  assert (∀ out p, pending o (Upl out) = Some p → pending o' (Upl out) = Some p) as Hupl.
  { intros out p Hp. simpl in *.
    assert (upl out o' = upl out o ∨ upl out o = None) as [Hu|Hu].
    { destruct (op_step_move _ _ _ _ _ _ _ _ Hok Hs) as [_ _ _ _ E _ _|? _ _ _ _ E _ _|? ? _ _ E _ _];
        [destruct (E out) as [?|[? _]]; auto|auto|auto]. }
    - by rewrite Hu.
    - by rewrite Hu in Hp. }
  split; [|done]. split; [done|..].
  - intros [out|] p Hp Hne; [by apply Hupl|]. destruct c; try (by destruct H4; congruence).
    by destruct (Hne err).
  - destruct c; try (destruct H4 as [_ ->]; by rewrite app_nil_r).
    destruct H4 as (tag & msg & -> & ->). by destruct err.
Qed.

(** *** Steps of the handler *)

Definition returns_to (e : rt_event) (g : nat) : option (sender * option error) :=
  match e with
  | VStep g' (CSend err) => if bool_decide (g' = g) then Some (Main, err) else None
  | VUpload g' out (ASend err) => if bool_decide (g' = g) then Some (Upl out, err) else None
  | _ => None
  end.

Lemma rt_step_effect w s e s' g o :
  reachable rt_step (eq (rt_init w)) s → rt_step s e = Some s' → r_ops s !! g = Some o →
  ∃ o', r_ops s' !! g = Some o' ∧ op_effect (returns_to e g) o o' ∧
    (op_done o' = true → op_done o = true ∨ e = VCancel g).
Proof.
  intros Hr Hs Hg. pose proof (rt_ok_reachable _ _ _ _ _ Hr Hg) as Hok.
  assert (∀ e1, returns_to e1 g = None → ∃ o', Some o = Some o' ∧ op_effect (returns_to e1 g) o o' ∧
    (op_done o' = true → op_done o = true ∨ e1 = VCancel g)) as Hsame.
  { intros e1 He. exists o. rewrite He. split; [done|]. split; [apply op_effect_refl|auto]. }
  destruct e as [g' sid sn kind payload|g' c|g' out a|g']; simpl in Hs.
  - destruct (rt_HandleCmd _ _ _ _ _) as [[m r] [o1|]]; split_step Hs; [|rewrite Hg; by apply (Hsame (VCmd g' sid sn kind payload))].
    rewrite lookup_insert_ne by congruence. rewrite Hg. by apply (Hsame (VCmd g' sid sn kind payload)).
  - destruct (r_ops s !! g') as [o1|] eqn:Ho1; [|done].
    destruct (op_step o1 c _ _) as [[[o2 m2] w2]|] eqn:E; simplify_eq/=. destruct (decide (g' = g)) as [->|Hne].
    + simplify_eq. rewrite lookup_insert_eq. destruct (main_effect _ _ _ _ _ _ _ Hok E) as [He Hd].
      exists o2. rewrite bool_decide_true by done. split; [done|]. split; [by destruct c|]. rewrite Hd. auto.
    + rewrite lookup_insert_ne, Hg by done. apply (Hsame (VStep g' c)). simpl. rewrite bool_decide_false by done.
      by destruct c.
  - destruct (r_ops s !! g') as [o1|] eqn:Ho1; [|done].
    destruct (upl_step _ out a o1) as [o2|] eqn:E; simplify_eq/=. destruct (decide (g' = g)) as [->|Hne].
    + simplify_eq. rewrite lookup_insert_eq. destruct (upl_effect _ _ _ _ E) as [He Hd].
      exists o2. rewrite bool_decide_true by done. split; [done|]. split; [by destruct a|]. rewrite Hd. auto.
    + rewrite lookup_insert_ne, Hg by done. apply (Hsame (VUpload g' out a)). simpl. rewrite bool_decide_false by done.
      by destruct a.
  - destruct (r_ops s !! g') as [o1|] eqn:Ho1; simplify_eq/=. destruct (decide (g' = g)) as [->|Hne].
    + simplify_eq. rewrite lookup_insert_eq. eexists. split; [done|]. split; [|by right].
      split; try done. by rewrite app_nil_r.
    + rewrite lookup_insert_ne, Hg by done. by apply (Hsame (VCancel g')).
Qed.

(** The operation is the one a command asks for. *)
Definition asked (sid seq kind : Z) (payload : bytes) (o : op (W := W)) : Prop :=
  kind = CMD_RUNTIME_ARANYA_PROTO ∧ op_sid o = sid ∧ op_seq o = seq ∧
  ∃ pkt, Packet_Unmarshal payload = Ok pkt ∧ rt_funcMap !! pkt_Kind pkt = Some (op_func o) ∧
    op_payload o = pkt_Payload pkt.

Lemma asked_origin sid seq kind payload o o' :
  asked sid seq kind payload o → origin o' = origin o → asked sid seq kind payload o'.
Proof. unfold asked, origin. by intros ? [= -> -> -> ->]. Qed.

Lemma HandleCmd_asked sid seq kind payload (m m' : StreamManager (Q := SQ)) r o :
  rt_HandleCmd sid seq kind payload m = (m', r, Some o) →
  asked sid seq kind payload o ∧ op_sent o = [] ∧ op_done o = false.
Proof.
  unfold rt_HandleCmd, asked. repeat (case_match; simplify_eq/=); intros [= <- <- <-]. split_and!; try done; [lia|].
  eauto.
Qed.

(** Operations come from HandleCmd. *)
Lemma rt_step_new s e s' g o :
  rt_step s e = Some s' → r_ops s !! g = None → r_ops s' !! g = Some o →
  ∃ sid seq kind payload, e = VCmd g sid seq kind payload ∧ asked sid seq kind payload o ∧ op_sent o = [] ∧
    op_done o = false.
Proof.
  intros Hs Hn Ho. destruct e as [g' sid sn kind payload|g' c|g' out a|g']; simpl in Hs.
  - destruct (rt_HandleCmd _ _ _ _ _) as [[m r] [o1|]] eqn:Hh; split_step Hs.
    apply lookup_insert_Some in Ho as [[-> ->]|[_ Ho]]; [|congruence].
    apply HandleCmd_asked in Hh. eauto 10.
  - destruct (r_ops s !! g') eqn:E; [|done]. destruct (op_step _ c _ _) as [[[? ?] ?]|]; simplify_eq/=.
    apply lookup_insert_Some in Ho as [[-> _]|[_ Ho]]; congruence.
  - destruct (r_ops s !! g') eqn:E; [|done]. destruct (upl_step _ out a _); simplify_eq/=.
    apply lookup_insert_Some in Ho as [[-> _]|[_ Ho]]; congruence.
  - destruct (r_ops s !! g') eqn:E; simplify_eq/=.
    apply lookup_insert_Some in Ho as [[-> _]|[_ Ho]]; congruence.
Qed.

(** *** Steps of the controller *)

Definition async_after (e : ctl_event) (c : ctl) : gmap nat (nat * Msg) → Prop :=
  match e with
  | EAsyncSend a m => λ l, ∃ b, c_fn c = Some b ∧ c_async c !! a = None ∧ l = <[a := (b, m)]> (c_async c)
  | EAsyncStep a _ => λ l, l = delete a (c_async c) ∨ l = c_async c
  | _ => λ l, l = c_async c
  end.

Lemma close_async b (c c1 : ctl) :
  close1 b c = Some c1 ∨ close2 b c = Some c1 → c_async c1 = c_async c ∧ c_fn c1 = c_fn c ∧ c_done c1 = c_done c.
Proof. by intros [(x & _ & [[_ ->]|[_ ->]])%close1_spec|(x & _ & [[_ ->]|[_ ->]])%close2_spec]. Qed.

Lemma handle_one_async b cmd ch (c : ctl) :
  let c' := handle_one error_body marshal b cmd ch c in c_async c' = c_async c ∧ c_fn c' = c_fn c ∧ c_done c' = c_done c.
Proof. unfold handle_one. simpl. by destruct (reply_to _ _ _ _) as [[]|]. Qed.

(** What goroutines of the handler are sending changes with their own calls only. *)
Lemma ctl_step_async c e c' :
  ctl_step c e = Some c' → async_after e c (c_async c') ∧ (is_Some (c_fn c) → is_Some (c_fn c')) ∧ (c_done c = true → c_done c' = true).
Proof.
  intros Hs. unfold Controller.ctl_step in Hs. destruct (c_panic c); [done|]. destruct e; simpl in *.
  - unfold session_step, session_send in Hs. destruct (c_sess c).
    6: destruct (close1 b c) as [c1|] eqn:E; simplify_eq/=; by destruct (close_async b c c1 (or_introl E)) as (-> & -> & ->).
    6: destruct (close2 b c) as [c1|] eqn:E; simplify_eq/=; by destruct (close_async b c c1 (or_intror E)) as (-> & -> & ->).
    all: split_step Hs; try (by split_and!; eauto). by destruct (handle_one_async b v c1 c) as (-> & -> & ->).
  - split_step Hs. by split_and!.
  - split_step Hs. by split_and!.
  - unfold call_step in Hs. destruct (c_calls c !! c0) as [[| |b|old b|old b|b|b|b|ret|ret| | | |]|]; try done.
    4,7: destruct (close1 _ c) as [c1|] eqn:E; simplify_eq/=; by destruct (close_async _ c c1 (or_introl E)) as (-> & -> & ->).
    4,6: destruct (close2 _ c) as [c1|] eqn:E; simplify_eq/=; by destruct (close_async _ c c1 (or_intror E)) as (-> & -> & ->).
    all: split_step Hs; by split_and!.
  - split_step Hs. split_and!; [by eexists|by eauto|done].
  - unfold async_step in Hs. split_step Hs; (split_and!; [by auto|done|done]).
  - by split_step Hs.
  - by split_step Hs.
  - by split_step Hs.
  - by simplify_eq.
Qed.

(** Bundles stay, and what was handled stays handled. *)
Definition grows (c c' : ctl) : Prop :=
  ∀ b x, c_bundles c !! b = Some x → ∃ x', c_bundles c' !! b = Some x' ∧ b_handled x `prefix_of` b_handled x'.

Lemma grows_refl (c : ctl) : grows c c.
Proof. intros b x Hx. by exists x. Qed.

Lemma ctl_step_grows (c : ctl) e c' : ctl_step c e = Some c' → grows c c'.
Proof.
  intros Hs b x Hx. destruct (ctl_step_makes _ _ _ _ _ Hs) as [_ Hm]. destruct (Hm b) as [Hh Hb].
  unfold handled_at in Hh. destruct Hb as [x' Hx']; [by rewrite Hx|]. rewrite Hx, Hx' in Hh. simpl in Hh.
  exists x'. split; [done|]. rewrite Hh. by apply prefix_app_r.
Qed.

(** The result of the command that a step of the loop takes. *)
Lemma call_now_cmd e (c : ctl) b cmd :
  takes_cmd e c = Some (b, cmd) →
  call_now e c = Some (HCmd b cmd (rt_result (cmd_Kind cmd) (cmd_Payload cmd))).
Proof. intros Ht. unfold call_now. by rewrite Ht. Qed.

(** ** The invariant *)

Local Abbreviation sys_inv :=
  (sys_inv (H := unit) (B := B) name keepaliveInterval messageTimeout error_body marshal encCmd encMsg tt).

(** The messages of the stream of an operation that SendMsg took, in order. *)
Definition stream_of (g : nat) (l : list send) : list (source * Msg) :=
  omap (λ d, if bool_decide (sd_op d = g) then (λ src, (src, sd_msg d)) <$> sd_src d else None) l.

(** What operations put into the channel of a connection. *)
Definition puts (b : nat) (l : list send) : list Msg :=
  sd_msg <$> filter (λ d, sd_bundle d = b ∧ sd_put d = true) l.

Lemma stream_of_snoc g l d :
  stream_of g (l ++ [d]) = stream_of g l ++ if bool_decide (sd_op d = g) then part_of (sd_src d) (sd_msg d) else [].
Proof. unfold stream_of. rewrite omap_app. simpl. case_bool_decide; [|done]. by destruct (sd_src d). Qed.

Lemma puts_snoc b l d :
  puts b (l ++ [d]) = puts b l ++ if bool_decide (sd_bundle d = b ∧ sd_put d = true) then [sd_msg d] else [].
Proof.
  unfold puts. rewrite list.filter_app, fmap_app, filter_cons, filter_nil.
  case_decide; case_bool_decide; done.
Qed.

Lemma puts_none b l : Forall (λ d, sd_bundle d ≠ b) l → puts b l = [].
Proof.
  unfold puts. induction 1 as [|d l Hd _ IH]; [done|]. rewrite filter_cons, decide_False; [done|]. by intros [? _].
Qed.

(** The operation comes from a command of a connection, and is cancelled with that connection. *)
Definition from_cmd y (g : nat) (o : op (W := W)) : Prop :=
  ∃ b x cmd r, o_ctx y !! g = Some b ∧ c_bundles (hctl y) !! b = Some x ∧ (cmd, r) ∈ b_handled x ∧
    asked (cmd_Id cmd) (cmd_Seq cmd) (cmd_Kind cmd) (cmd_Payload cmd) o ∧
    (op_done o = true → ctx_done g y = true).

Record host_inv (w : W) y : Prop := {
  hi_sys : sys_inv (o_sys y);
  hi_rt : reachable rt_step (eq (rt_init w)) (o_rt y);
  (* a goroutine is in SendMsg with the message it wants to send *)
  hi_async a b m : c_async (hctl y) !! a = Some (b, m) →
    is_Some (c_fn (hctl y)) ∧
    ∃ g snd o tag, a = async_id g snd ∧ r_ops (o_rt y) !! g = Some o ∧ pending o snd = Some (tag, m);
  hi_sent g : stream_of g (o_sends y) = from_option op_sent [] (r_ops (o_rt y) !! g);
  hi_puts b k : y_conns (o_sys y) !! b = Some k → from_handler (k_log k) = puts b (o_sends y);
  hi_bundle : Forall (λ d, (sd_bundle d < length (c_bundles (hctl y)))%nat) (o_sends y);
  hi_cmd g o : r_ops (o_rt y) !! g = Some o → from_cmd y g o;
}.

Lemma async_id_inj g1 g2 snd1 snd2 : async_id g1 snd1 = async_id g2 snd2 → g1 = g2 ∧ snd1 = snd2.
Proof. unfold async_id. destruct snd1 as [[]|], snd2 as [[]|]; intros; (split; [lia|done || lia]). Qed.

Lemma host_inv_init w : host_inv w (host_init w).
Proof. split; try done; [apply sys_inv_init|by constructor]. Qed.

Lemma from_cmd_keep y y' g o o' :
  from_cmd y g o → grows (hctl y) (hctl y') → o_ctx y' !! g = o_ctx y !! g →
  origin o' = origin o → (ctx_done g y = true → ctx_done g y' = true) →
  (op_done o' = true → op_done o = true ∨ ctx_done g y' = true) → from_cmd y' g o'.
Proof.
  intros (b & x & cmd & r & H1 & H2 & H3 & H4 & H6) Hg Hctx E Hd Hd'.
  destruct (Hg _ _ H2) as (x' & Hx' & [l Hl]). exists b, x', cmd, r.
  split_and!; [congruence|done|rewrite Hl; apply elem_of_app; by left|by eapply asked_origin|].
  intros [|]%Hd'; [|done]. by apply Hd, H6.
Qed.

Lemma ctx_done_mono y y' g :
  (c_done (hctl y) = true → c_done (hctl y') = true) → o_ctx y' !! g = o_ctx y !! g → o_over y ⊆ o_over y' →
  ctx_done g y = true → ctx_done g y' = true.
Proof.
  unfold ctx_done. intros Hd Hctx Hover. rewrite Hctx.
  intros [H1|H1]%orb_true_iff; apply orb_true_iff; [by left; apply Hd|right].
  destruct (o_ctx y !! g); [|done]. apply bool_decide_eq_true in H1. apply bool_decide_eq_true. by apply Hover.
Qed.

(** The handler moves, and nothing else. *)
Lemma inv_rt w y e y' :
  host_inv w y → on_rt e y = Some y' →
  (∀ g sid seq kind payload, e ≠ VCmd g sid seq kind payload) →
  (∀ g, e = VCancel g → ctx_done g y = true) →
  (∀ g snd err, returns_to e g = Some (snd, err) → err ≠ None ∧ c_async (hctl y) !! async_id g snd = None) →
  host_inv w y'.
Proof.
  intros [I1 I2 I3 I4 I5 I6 I7] Hs Hno Hca Hret. unfold on_rt in Hs.
  destruct (rt_step (o_rt y) e) as [rt|] eqn:Hrt; simplify_eq/=.
  split; simpl; try done; [by eapply reach_step|..].
  - intros a b m Ha. destruct (I3 _ _ _ Ha) as (Hfn & g & snd & o & tag & -> & Ho & Hp). split; [done|].
    destruct (rt_step_effect _ _ _ _ _ _ I2 Hrt Ho) as (o' & Ho' & Heff & _). exists g, snd, o', tag.
    split_and!; [done|done|]. apply (oe_pending _ _ _ Heff); [done|]. intros err Hr.
    destruct (Hret _ _ _ Hr) as [_ ?]. congruence.
  - intros g. rewrite I4. destruct (r_ops (o_rt y) !! g) as [o|] eqn:Ho; simpl.
    + destruct (rt_step_effect _ _ _ _ _ _ I2 Hrt Ho) as (o' & -> & Heff & _). simpl.
      rewrite (oe_sent _ _ _ Heff). destruct (returns_to e g) as [[snd [err|]]|] eqn:Hr; rewrite ?app_nil_r; try done.
      by destruct (Hret _ _ _ Hr).
    + destruct (r_ops rt !! g) as [o|] eqn:Ho'; [|done].
      destruct (rt_step_new _ _ _ _ _ Hrt Ho Ho') as (sid & sn & kind & payload & -> & _). by destruct (Hno g sid sn kind payload).
  - intros g o Ho'. destruct (r_ops (o_rt y) !! g) as [o0|] eqn:Ho.
    + destruct (rt_step_effect _ _ _ _ _ _ I2 Hrt Ho) as (o' & ? & Heff & Hd). simplify_eq.
      eapply (from_cmd_keep y); [by apply I7|apply grows_refl|done|apply Heff|done|].
      intros [|Hc]%Hd; [by left|right]. by apply Hca.
    + destruct (rt_step_new _ _ _ _ _ Hrt Ho Ho') as (sid & sn & kind & payload & -> & _). by destruct (Hno g sid sn kind payload).
Qed.

(** *** Steps of the system *)

Context {validCmd : Cmd → Prop} {validMsg : Msg → Prop}.
Context {frameCmd : FrameCodec validCmd encCmd decCmd} {frameMsg : FrameCodec validMsg encMsg decMsg}.
Hypothesis encCmd_valid : ∀ v f, encCmd v = Ok f → validCmd v.
Hypothesis encMsg_valid : ∀ v f, encMsg v = Ok f → validMsg v.

Record sys_facts (e : sys_event) y (s : sys) : Prop := {
  sf_inv : sys_inv s;
  sf_grows : grows (hctl y) (y_ctl s);
  sf_fn : is_Some (c_fn (hctl y)) → is_Some (c_fn (y_ctl s));
  sf_done : c_done (hctl y) = true → c_done (y_ctl s) = true;
  sf_bound : Forall (λ d, (sd_bundle d < length (c_bundles (y_ctl s)))%nat) (o_sends y);
  sf_log b k : y_conns s !! b = Some k →
    from_handler (k_log k) = puts b (o_sends y) ++ from_handler (step_log e (o_sys y) b);
  sf_async : async_after (match e with YCtl e => e | _ => EContextDone end) (hctl y) (c_async (y_ctl s));
}.

Lemma grows_length (c c' : ctl) : grows c c' → (length (c_bundles c) ≤ length (c_bundles c'))%nat.
Proof.
  intros Hg. destruct (length (c_bundles c)) as [|n] eqn:Hn; [lia|].
  destruct (lookup_lt_is_Some_2 (c_bundles c) n) as [x Hx]; [lia|].
  destruct (Hg _ _ Hx) as (x' & Hx' & _). by apply lookup_lt_Some in Hx'.
Qed.

Lemma sys_step_facts w y e s :
  host_inv w y → sys_step (o_sys y) e = Some s → sys_facts e y s.
Proof using encCmd_valid frameCmd encMsg_valid frameMsg.
  intros [I1 _ _ _ I5 I6 _] Hs.
  assert (grows (hctl y) (y_ctl s) ∧ (is_Some (c_fn (hctl y)) → is_Some (c_fn (y_ctl s))) ∧
    (c_done (hctl y) = true → c_done (y_ctl s) = true) ∧
    async_after (match e with YCtl e => e | _ => EContextDone end) (hctl y) (c_async (y_ctl s))) as (Hg & Hf & Hd & Ha).
  { pose proof (sys_step_ctl _ _ _ _ _ _ _ _ _ _ _ _ _ _ Hs) as Hc. destruct e as [e|b ev n|b|b|b ev n|b].
    1: destruct (ctl_step_async _ _ _ Hc) as (? & ? & ?); split_and!; [by eapply ctl_step_grows|done..].
    all: destruct Hc as [->|(e' & He & Hc)]; [split_and!; [apply grows_refl|done..]|].
    all: destruct (ctl_step_async _ _ _ Hc) as (Ha & ? & ?); split_and!; [by eapply ctl_step_grows|done..|].
    all: by destruct e'. }
  split; try done.
  - by eapply sys_inv_step.
  - eapply list.Forall_impl; [exact I6|]. intros d ?. apply grows_length in Hg. simpl in *. lia.
  - intros b k Hk. rewrite (sys_step_log _ _ _ _ _ _ _ _ _ _ _ _ _ _ _ _ Hs Hk), from_handler_app.
    destruct (y_conns (o_sys y) !! b) as [k0|] eqn:Hk0; simpl; [by rewrite (I5 _ _ Hk0)|].
    rewrite puts_none; [done|]. eapply list.Forall_impl; [exact I6|]. intros d Hd' <-.
    apply lookup_ge_None in Hk0. rewrite (yi_len _ _ _ _ _ _ _ _ _ I1) in Hk0. simpl in *. lia.
Qed.

(** The system moves, and the handler at most starts an operation. *)
Lemma inv_sys w y e s rt ctx over :
  host_inv w y → is_async e = false → sys_step (o_sys y) e = Some s →
  reachable rt_step (eq (rt_init w)) rt →
  (∀ g o, r_ops (o_rt y) !! g = Some o → r_ops rt !! g = Some o ∧ ctx !! g = o_ctx y !! g) →
  (∀ g o, r_ops (o_rt y) !! g = None → r_ops rt !! g = Some o →
     op_sent o = [] ∧ from_cmd (MkHost s rt ctx over (o_sends y)) g o) →
  o_over y ⊆ over → host_inv w (MkHost s rt ctx over (o_sends y)).
Proof using encCmd_valid frameCmd encMsg_valid frameMsg.
  intros Hinv Hq Hs Hrt Hold Hnew Hover.
  destruct (sys_step_facts _ _ _ _ Hinv Hs) as [F1 F2 F3 F4 F5 F6 F7]. destruct Hinv as [I1 I2 I3 I4 I5 I6 I7].
  assert (c_async (y_ctl s) = c_async (hctl y)) as Ha by (by destruct e as [[]| | | | |]).
  split; simpl; try done.
  - intros a b m. rewrite Ha. intros (Hfn & g & snd & o & tag & -> & Ho & Hp)%I3.
    split; [by auto|]. exists g, snd, o, tag. split_and!; [done|by apply Hold|done].
  - intros g. rewrite I4. destruct (r_ops (o_rt y) !! g) as [o|] eqn:Ho.
    + by destruct (Hold _ _ Ho) as [-> _].
    + destruct (r_ops rt !! g) as [o|] eqn:Ho'; [|done]. simpl. by destruct (Hnew _ _ Ho Ho') as [-> _].
  - intros b k Hk. by rewrite (F6 _ _ Hk), quiet_log, app_nil_r.
  - intros g o Ho'. destruct (r_ops (o_rt y) !! g) as [o0|] eqn:Ho; [|by apply Hnew].
    destruct (Hold _ _ Ho) as [? Hctx]. simplify_eq.
    eapply (from_cmd_keep y); [by apply I7|done|done|done| |by left].
    by apply ctx_done_mono.
Qed.

(** The command a step takes is recorded as handled. *)
Lemma hands_over_handled e y s b cmd :
  hands_over e (hctl y) = Some (b, cmd) → sys_step (o_sys y) e = Some s →
  ∃ x r, c_bundles (y_ctl s) !! b = Some x ∧ (cmd, r) ∈ b_handled x.
Proof.
  intros Hh Hs. destruct e as [e| | | | |]; try done. apply sys_step_ctl in Hs.
  destruct (ctl_step_makes _ _ _ _ _ Hs) as [_ Hm]. destruct (Hm b) as [Hb _].
  rewrite (call_now_cmd _ _ _ _ Hh) in Hb. simpl in Hb. rewrite bool_decide_true in Hb by done. unfold handled_at in Hb.
  destruct (c_bundles (y_ctl s) !! b) as [x|]; [|by apply symmetry, app_eq_nil in Hb as [_ ?]]. simpl in Hb.
  eexists x, _. split; [done|]. rewrite Hb. apply elem_of_app. right. apply list_elem_of_here.
Qed.

Lemma inv_step_sys w y e g y' :
  host_inv w y → host_step y (HSys e g) = Some y' → host_inv w y'.
Proof using encCmd_valid frameCmd encMsg_valid frameMsg.
  intros Hinv Hs. unfold host_step in Hs. destruct (is_async e) eqn:Hq; [done|].
  assert (∃ s rt ctx over, sys_step (o_sys y) e = Some s ∧ handles e g y = Some (rt, ctx) ∧ o_over y ⊆ over ∧
    y' = MkHost s rt ctx over (o_sends y)) as (s & rt & ctx & over & Hy & Hh & Hover & ->).
  { destruct (sys_step (o_sys y) e) as [s|]; [|done]. simpl in Hs.
    destruct (handles e g y) as [[rt ctx]|]; [|done]. simplify_eq/=. eexists s, rt, ctx, _.
    split_and!; [done|done| |done]. destruct (leaves _ _); set_solver. }
  unfold handles in Hh. destruct (hands_over e (hctl y)) as [[b cmd]|] eqn:Hho.
  2: { simplify_eq. apply (inv_sys w y e); try done; [apply Hinv|]. intros. congruence. }
  destruct (rt_step (o_rt y) _) as [rt'|] eqn:Hrt; [|done].
  assert (rt' = rt ∧ ctx = match r_ops rt !! g with Some _ => <[g := b]> (o_ctx y) | None => o_ctx y end) as [-> ->]
    by (clear Hrt; by simplify_eq/=). clear Hh. pose proof (hi_rt _ _ Hinv) as Hr.
  assert (r_ops (o_rt y) !! g = None) as Hg. { simpl in Hrt. by destruct (r_ops (o_rt y) !! g). }
  apply (inv_sys w y e); try done; [by eapply reach_step|..].
  - intros g' o Ho. assert (g ≠ g') by congruence. split; [|by destruct (r_ops rt !! g); simplify_map_eq].
    clear - Hrt Ho H. simpl in Hrt. destruct (rt_HandleCmd _ _ _ _ _) as [[m r] [o1|]]; split_step Hrt; by simplify_map_eq.
  - intros g' o Hn Ho. destruct (rt_step_new _ _ _ _ _ Hrt Hn Ho) as (? & ? & ? & ? & [=] & H1 & H3 & H4). simplify_eq.
    split; [done|]. destruct (hands_over_handled _ _ _ _ _ Hho Hy) as (x & r & Hx & Hin).
    exists b, x, cmd, r. simpl. rewrite Ho, lookup_insert_eq. split_and!; try done. congruence.
Qed.

Lemma returns_to_send g snd err g' :
  returns_to (send_returns g snd err) g' = if bool_decide (g = g') then Some (snd, err) else None.
Proof. by destruct snd. Qed.

Lemma send_not_cmd g snd err :
  (∀ g' sid seq kind payload, send_returns g snd err ≠ VCmd g' sid seq kind payload) ∧
  (∀ g', send_returns g snd err ≠ VCancel g').
Proof. by destruct snd. Qed.

Lemma inv_step_send w y g snd y' :
  host_inv w y → host_step y (HSend g snd) = Some y' → host_inv w y'.
Proof using encCmd_valid frameCmd encMsg_valid frameMsg.
  intros Hinv Hs. unfold host_step in Hs. destruct (c_panic (hctl y)); [done|].
  destruct (r_ops (o_rt y) !! g) as [o|] eqn:Ho; [|done]. cbn [mbind option_bind] in Hs.
  destruct (pending o snd) as [[tag m]|] eqn:Hp; [|done]. cbn [mbind option_bind] in Hs.
  destruct (c_fn (hctl y)) as [fn|] eqn:Hfn.
  2: { apply (inv_rt _ _ _ _ Hinv Hs); [apply send_not_cmd|by intros g' ?%send_not_cmd|].
       intros g' snd' err Hr. rewrite returns_to_send in Hr. case_bool_decide; simplify_eq. split; [done|].
       destruct (c_async (hctl y) !! async_id g' snd') as [[b m']|] eqn:Ha; [|done].
       destruct (hi_async _ _ Hinv _ _ _ Ha) as [[? ?] _]. congruence. }
  destruct (sys_step (o_sys y) _) as [s|] eqn:Hy; [|done].
  assert (y' = MkHost s (o_rt y) (o_ctx y) (o_over y) (o_sends y)) as -> by (clear Hy; by simplify_eq/=). clear Hs.
  destruct (sys_step_facts _ _ _ _ Hinv Hy) as [F1 F2 F3 F4 F5 F6 (b & Hb & Hn & Ha)].
  destruct Hinv as [I1 I2 I3 I4 I5 I6 I7]. split; simpl; try done.
  - rewrite Ha. intros a b' m' [[<- [= -> ->]]|[_ Ha']]%lookup_insert_Some.
    + split; [by eauto|]. by exists g, snd, o, tag.
    + destruct (I3 _ _ _ Ha') as [? ?]. auto.
  - intros b' k Hk. rewrite (F6 _ _ Hk). simpl. by rewrite app_nil_r.
  - intros g' o' Ho'. eapply (from_cmd_keep y); [by apply I7|done|done|done| |by left].
    by apply ctx_done_mono.
Qed.

(** How a SendMsg ends for the controller. *)
Lemma async_outcome c (s s' : sys) a b m :
  c_async (y_ctl s) !! a = Some (b, m) → sys_step s (YCtl (EAsyncStep a c)) = Some s' →
  (b < length (c_bundles (y_ctl s)))%nat ∧
  match c_panic (y_ctl s') with
  | Some _ => c_async (y_ctl s') = c_async (y_ctl s) ∧ ∀ b', step_log (YCtl (EAsyncStep a c)) s b' = []
  | None => c_async (y_ctl s') = delete a (c_async (y_ctl s)) ∧
      ∀ b', step_log (YCtl (EAsyncStep a c)) s b' =
        if bool_decide (b = b' ∧ via_send c = true) then [(false, m)] else []
  end.
Proof.
  intros Ha Hs%sys_step_ctl. unfold Controller.ctl_step in Hs. destruct (c_panic (y_ctl s)) eqn:Hp; [done|].
  unfold async_step in Hs. rewrite Ha in Hs. destruct (c_bundles (y_ctl s) !! b) as [x|] eqn:Hx; [|done].
  split; [by eapply lookup_lt_Some|]. unfold step_log, logged, enters. rewrite Ha. destruct c.
  - destruct (cclosed (b_closed x)); simplify_eq. rewrite <-Hs. simpl. rewrite Hp. split; [done|].
    intros b'. by rewrite bool_decide_false by (by intros []).
  - destruct (chan_send m (b_msgCh x)) as [ch| |] eqn:Hse; simplify_eq; rewrite <-Hs; simpl; rewrite ?Hp.
    + split; [done|]. intros b'. destruct (decide (b = b')) as [<-|Hne].
      * rewrite !bool_decide_true by done. rewrite Hx. simpl. by rewrite Hse.
      * rewrite (bool_decide_false (b = b')), bool_decide_false; [done|by intros []|done].
    + split; [done|]. intros b'. case_bool_decide; [|done]. subst. rewrite Hx. simpl. by rewrite Hse.
  - destruct (c_done (y_ctl s)); simplify_eq. rewrite <-Hs. simpl. rewrite Hp. split; [done|].
    intros b'. by rewrite bool_decide_false by (by intros []).
Qed.

Lemma stream_of_record g g' tag b m c l :
  stream_of g' (record_send c (MkSend g tag b m (via_send c)) l) =
    stream_of g' l ++
      match choice_error c with None => if bool_decide (g = g') then part_of tag m else [] | Some _ => [] end.
Proof. destruct c; unfold record_send; simpl; by rewrite ?stream_of_snoc, ?app_nil_r. Qed.

Lemma puts_record g tag b b' m c l :
  puts b' (record_send c (MkSend g tag b m (via_send c)) l) =
    puts b' l ++ from_handler (if bool_decide (b = b' ∧ via_send c = true) then [(false, m)] else []).
Proof.
  destruct c; unfold record_send; simpl; rewrite ?puts_snoc; simpl; case_bool_decide as Hc; simpl;
    rewrite ?app_nil_r; try done; by destruct Hc.
Qed.

(** SendMsg returns to a goroutine. *)
Lemma inv_sent w y g snd c o tag b m s rt :
  host_inv w y → r_ops (o_rt y) !! g = Some o → pending o snd = Some (tag, m) →
  sys_facts (YCtl (EAsyncStep (async_id g snd) c)) y s → (b < length (c_bundles (hctl y)))%nat →
  c_async (y_ctl s) = delete (async_id g snd) (c_async (hctl y)) →
  (∀ b', step_log (YCtl (EAsyncStep (async_id g snd) c)) (o_sys y) b' =
     if bool_decide (b = b' ∧ via_send c = true) then [(false, m)] else []) →
  rt_step (o_rt y) (send_returns g snd (choice_error c)) = Some rt →
  host_inv w (MkHost s rt (o_ctx y) (o_over y) (record_send c (MkSend g tag b m (via_send c)) (o_sends y))).
Proof.
  intros [I1 I2 I3 I4 I5 I6 I7] Ho Hp [F1 F2 F3 F4 F5 F6 _] Hb Has Hl Hrt.
  assert (∀ g' o, r_ops (o_rt y) !! g' = None → r_ops rt !! g' ≠ Some o) as Hnew.
  { intros g' o' Hn Hg'. destruct (rt_step_new _ _ _ _ _ Hrt Hn Hg') as (? & ? & ? & ? & Heq & _).
    by apply send_not_cmd in Heq. }
  split; simpl; try done.
  - by eapply reach_step.
  - intros a b' m'. rewrite Has. intros [Hne Ha']%lookup_delete_Some.
    destruct (I3 _ _ _ Ha') as (Hfn & g' & snd' & o' & tag' & -> & Ho' & Hp'). split; [by auto|].
    destruct (rt_step_effect _ _ _ _ _ _ I2 Hrt Ho') as (o2 & Ho2 & Heff & _). exists g', snd', o2, tag'.
    split_and!; [done|done|]. apply (oe_pending _ _ _ Heff); [done|]. intros err Hr.
    rewrite returns_to_send in Hr. case_bool_decide; by simplify_eq.
  - intros g'. rewrite stream_of_record, I4. destruct (r_ops (o_rt y) !! g') as [o'|] eqn:Ho'; simpl.
    + destruct (rt_step_effect _ _ _ _ _ _ I2 Hrt Ho') as (o2 & -> & Heff & _). simpl.
      rewrite (oe_sent _ _ _ Heff), returns_to_send. case_bool_decide; [|by destruct (choice_error c)].
      simplify_eq. destruct (choice_error c); [done|]. by rewrite Hp.
    + destruct (r_ops rt !! g') as [o2|] eqn:Ho2; [by destruct (Hnew _ _ Ho' Ho2)|].
      rewrite bool_decide_false by congruence. by destruct (choice_error c).
  - intros b' k Hk. by rewrite (F6 _ _ Hk), Hl, puts_record.
  - apply grows_length in F2. unfold record_send. destruct (choice_error c); [done|].
    apply Forall_app. split; [done|]. apply Forall_singleton. simpl. lia.
  - intros g' o2 Ho2. destruct (r_ops (o_rt y) !! g') as [o'|] eqn:Ho'; [|by destruct (Hnew _ _ Ho' Ho2)].
    destruct (rt_step_effect _ _ _ _ _ _ I2 Hrt Ho') as (? & ? & Heff & Hd). simplify_eq.
    eapply (from_cmd_keep y); [by apply I7|done|done|apply Heff| |].
    + by apply ctx_done_mono.
    + intros [|Hc]%Hd; [by left|]. by apply send_not_cmd in Hc.
Qed.

Lemma inv_step_sent w y g snd c y' :
  host_inv w y → host_step y (HSent g snd c) = Some y' → host_inv w y'.
Proof using encCmd_valid frameCmd encMsg_valid frameMsg.
  intros Hinv Hs. unfold host_step, sent_step in Hs. destruct (c_panic (hctl y)); [done|].
  destruct (r_ops (o_rt y) !! g) as [o|] eqn:Ho; [|done]. cbn [mbind option_bind] in Hs.
  destruct (pending o snd) as [[tag m]|] eqn:Hp; [|done]. cbn [mbind option_bind] in Hs.
  destruct (c_async (hctl y) !! async_id g snd) as [[b m0]|] eqn:Ha; [|done]. cbn [mbind option_bind] in Hs.
  destruct (sys_step (o_sys y) _) as [s|] eqn:Hy; [|done]. cbn [mbind option_bind] in Hs.
  assert (m0 = m) as ->.
  { destruct (hi_async _ _ Hinv _ _ _ Ha) as (_ & g' & snd' & o' & tag' & [<- <-]%async_id_inj & ? & ?). congruence. }
  pose proof (sys_step_facts _ _ _ _ Hinv Hy) as HF.
  destruct (async_outcome _ _ _ _ _ _ Ha Hy) as [Hb Hout]. destruct (c_panic (y_ctl s)), Hout as [Has Hl].
  - simplify_eq. destruct HF as [F1 F2 F3 F4 F5 F6 _], Hinv as [I1 I2 I3 I4 I5 I6 I7]. split; simpl; try done.
    + intros a b' m'. rewrite Has. intros [? ?]%I3. auto.
    + intros b' k Hk. by rewrite (F6 _ _ Hk), Hl, app_nil_r.
    + intros g' o' Ho'. eapply (from_cmd_keep y); [by apply I7|done|done|done| |by left].
      by apply ctx_done_mono.
  - destruct (rt_step (o_rt y) _) as [rt|] eqn:Hrt; [|done]. cbn [mbind option_bind] in Hs. simplify_eq.
    by eapply inv_sent.
Qed.

Lemma host_inv_reachable w y : reachable host_step (eq (host_init w)) y → host_inv w y.
Proof using encCmd_valid frameCmd encMsg_valid frameMsg.
  apply invariant_reachable. split; [intros ? <-; apply host_inv_init|].
  intros y0 e y1 Hinv Hs. destruct e as [e g|g c|g out a|g|g snd|g snd c];
    [by eapply inv_step_sys| | | |by eapply inv_step_send|by eapply inv_step_sent];
    unfold host_step in Hs; destruct (c_panic (hctl y0)); try (by repeat case_match).
  - destruct c; (done || (eapply inv_rt; [exact Hinv|exact Hs|done|done|done])).
  - destruct a; (done || (eapply inv_rt; [exact Hinv|exact Hs|done|done|done])).
  - destruct (ctx_done g y0) eqn:Hd; [|done]. eapply inv_rt; [exact Hinv|exact Hs|done| |done].
    by intros ? [= <-].
Qed.

(** ** Operations come from the hub *)

(** Without a session of the hub nothing has been handled. *)
Lemma handled_session (y : sys) b k x :
  sys_inv y → y_conns y !! b = Some k → c_bundles (y_ctl y) !! b = Some x → b_handled x ≠ [] → is_Some (k_srv k).
Proof.
  intros [I1 _ I3] Hk Hx Hne. destruct (k_srv k) as [s|] eqn:Hs; [by eauto|]. destruct Hne.
  pose proof (I3 _ _ _ Hk Hx) as Hc. pose proof (replies_ok_reachable _ _ _ _ I1 _ _ Hx) as [Hh _ _].
  pose proof (cl_cmds _ (cl_inv_reachable _ (ki_cli _ _ _ _ _ _ _ Hc))) as Hcl.
  destruct (ki_down _ _ _ _ _ _ _ Hc) as (pend & _ & _ & Hd & _). unfold srv_wire in Hd. rewrite Hs in Hd.
  symmetry in Hd. apply app_eq_nil in Hd as [Hd _]. rewrite Hd in Hcl.
  apply prefix_nil_inv, app_eq_nil in Hcl as [Hf _].
  rewrite (ki_sent _ _ _ _ _ _ _ Hc), Hf in Hh. symmetry in Hh. apply app_eq_nil in Hh as [Hh _].
  by apply fmap_nil_inv in Hh.
Qed.

(** C20. What the runtime does was asked for.  Every operation the runtime handler has ever started,
    in whatever interleaving and across reconnects, is the one that a command asks for which a call
    on the hub sent: the command was accepted by the hub's session of the operation's connection,
    its payload decodes to the packet that names the function and carries the arguments, and the
    operation has its id and number.  All messages of its stream carry that id.  Its context is
    not done unless the controller's loop has left that connection or its own context is done. *)
Theorem operations_come_from_commands w y g o :
  reachable host_step (eq (host_init w)) y → r_ops (o_rt y) !! g = Some o →
  ∃ b k s cmd pkt, o_ctx y !! g = Some b ∧ y_conns (o_sys y) !! b = Some k ∧ k_srv k = Some s ∧
    cmd ∈ commands (s_accepted s) ∧ cmd_Kind cmd = CMD_RUNTIME_ARANYA_PROTO ∧
    Packet_Unmarshal (cmd_Payload cmd) = Ok pkt ∧ rt_funcMap !! pkt_Kind pkt = Some (op_func o) ∧
    op_payload o = pkt_Payload pkt ∧ op_sid o = cmd_Id cmd ∧ op_seq o = cmd_Seq cmd ∧
    (∀ src m, (src, m) ∈ op_sent o → msg_Id m = cmd_Id cmd) ∧
    (op_done o = true → b ∈ o_over y ∨ c_done (y_ctl (o_sys y)) = true).
Proof using encCmd_valid frameCmd encMsg_valid frameMsg.
  intros Hinv%host_inv_reachable Ho. pose proof (hi_sys _ _ Hinv) as Hsys.
  destruct (hi_cmd _ _ Hinv _ _ Ho) as (b & x & cmd & r & Hctx & Hx & Hin & (Hk & Hid & Hseq & pkt & Hp & Hf & Hpl) & Hd).
  assert (is_Some (y_conns (o_sys y) !! b)) as [k Hkb].
  { apply lookup_lt_is_Some. rewrite (yi_len _ _ _ _ _ _ _ _ _ Hsys). by eapply lookup_lt_Some. }
  destruct (handled_session _ _ _ _ Hsys Hkb Hx) as [s Hs]; [by intros E; rewrite E in Hin; apply elem_of_nil in Hin|].
  destruct (handled_prefix _ _ _ _ _ _ _ _ _ _ _ _ _ Hsys Hkb Hx Hs) as [l Hl].
  exists b, k, s, cmd, pkt. split_and!; try done.
  - rewrite Hl. apply elem_of_app. left. apply list_elem_of_fmap. by exists (cmd, r).
  - intros src m Hm. rewrite <-Hid. eapply (sent_id maxPayloadSize); [|done].
    by eapply rt_ok_reachable; [apply (hi_rt _ _ Hinv)|].
  - intros [|Hb]%Hd%orb_true_iff; [by right|left]. rewrite Hctx in Hb. by apply bool_decide_eq_true in Hb.
Qed.

(** ** Output arrives at the hub *)

Lemma stream_puts g b l :
  (∀ d, d ∈ l → sd_op d = g → sd_src d ≠ None → sd_bundle d = b ∧ sd_put d = true) →
  (stream_of g l).*2 `sublist_of` puts b l.
Proof.
  unfold puts. induction l as [|d l IH]; intros Hall; [done|]. cbn [stream_of omap list_omap].
  assert ((stream_of g l).*2 `sublist_of` sd_msg <$> filter (λ d, sd_bundle d = b ∧ sd_put d = true) l) as Hl.
  { apply IH. intros d' Hd'. apply Hall. by right. }
  rewrite filter_cons. case_bool_decide as Hg.
  - destruct (sd_src d) as [src|] eqn:Hsrc; simpl.
    + rewrite decide_True by (apply Hall; [by left|done|by rewrite Hsrc]). by apply sublist_skip.
    + case_decide; [by apply sublist_cons|done].
  - case_decide; [by apply sublist_cons|done].
Qed.

(** C8. From end to end, what a stream prints.  Take any operation of the runtime handler (exec,
    attach, logs, port-forward) whose final message has been sent, with none refused, and suppose
    the messages of its stream all went into the channel of one connection, which is still up.  Then,
    once the goroutines that carry messages on this connection have come to rest, the hub has received
    every message of the stream, in the order they were sent, with the final one at the end, and
    the payloads of each output are exactly the chunks that Read returned of it without an error, or
    with its deadline exceeded, in that order; at most one chunk of each output, which Read returned
    together with another error, was not sent. *)
Theorem runtime_output_end_to_end w y g o final b k x s :
  reachable host_step (eq (host_init w)) y → r_ops (o_rt y) !! g = Some o →
  (SLast, final) ∈ op_sent o → op_lost o = [] →
  (∀ d, d ∈ o_sends y → sd_op d = g → sd_src d ≠ None → sd_bundle d = b ∧ sd_put d = true) →
  connected (o_sys y) b k x s →
  idle name keepaliveInterval messageTimeout error_body marshal encCmd decCmd encMsg decMsg sc0 sm0 b (o_sys y) →
  ∃ data, op_sent o = data ++ [(SLast, final)] ∧ (data ++ [(SLast, final)]).*2 `sublist_of` s_received s ∧
    payloads true data = op_read_out o ∧ payloads false data = op_read_err o ∧
    (∀ stdout, (length (dropped_from stdout o) ≤ 1)%nat).
Proof using encCmd_valid frameCmd encMsg_valid frameMsg.
  intros Hinv%host_inv_reachable Ho Hfin Hlost Hall Hcn Hid. pose proof (hi_rt _ _ Hinv) as Hrt.
  destruct (sent_complete maxPayloadSize o final) as (data & data' & _ & _ & Hsent & _ & Hread);
    [by eapply rt_ok_reachable|intros; by eapply order_ok_reachable|done|done|].
  exists data. split_and!; [done| |apply (Hread true)|apply (Hread false)|].
  2: { intros stdout. apply (oo_one stdout o). by eapply order_ok_reachable. }
  destruct (idle_complete _ _ _ _ _ _ _ _ _ _ _ encCmd_valid encMsg_valid _ _ _ _ _ _ (hi_sys _ _ Hinv) Hcn Hid)
    as (_ & _ & _ & -> & Hmsg & _).
  pose proof (hi_sent _ _ Hinv g) as Hs. rewrite Ho in Hs. simpl in Hs. rewrite <-Hsent, <-Hs.
  trans (puts b (o_sends y)); [by apply stream_puts|].
  rewrite <-(hi_puts _ _ Hinv _ _ (cn_conn _ _ _ _ _ Hcn)).
  trans ((k_log k).*2); [apply fmap_sublist, sublist_filter|]. rewrite <-Hmsg. apply fmap_sublist, sublist_filter.
Qed.

End host.

(** ** A host on concrete schedules *)

Module SampleHost.
Import SampleQueue SampleSeqQueue SampleController SampleSystem.
#[local] Existing Instance sample_pb.
#[local] Existing Instance sample_errors.
#[local] Existing Instance sample_aranya.
#[local] Existing Instance sample_engine.

Abbreviation hstep := (host_step (W := unit) (SQ := squeue) 4096 (Q := list tq_key) "foo" 1000 1000 (λ _, [0])
  echo_marshal (frame_within memory) decCmd (frame_within memory) decMsg no_pool no_pool).
Abbreviation hstate := (host (W := unit) (SQ := squeue) (Q := list tq_key) (B := bytes) (SC := pool_state) (SM := pool_state)).
Abbreviation hinit := (host_init tt : hstate).

Definition host_after (es : list host_event) : hstate :=
  match run hstep hinit es with Some y => y | None => hinit end.

Definition host_op (g : nat) (y : hstate) : op (W := unit) :=
  match r_ops (o_rt y) !! g with Some o => o | None => new_op FExec 0 0 [] end.

(** The hub asks for the logs of a container: they are started as operation 0. *)
Definition logs_cmd : Cmd := MkCmd (@CMD_RUNTIME_ARANYA_PROTO sample_pb) 5 0 [4].

Definition start_schedule : list host_event :=
  (λ e, HSys e 0) <$> connect_schedule ++ call_schedule 0 logs_cmd ++
    [YSrv 0 EWriteCmd 0; YSrv 0 (EEncode None) 0; YCliDecode 0; YCli 0 LForward 0; YCtl go].

(** The client and the hub's session carry one message. *)
Definition carry : list host_event :=
  (λ e, HSys e 0) <$> [YCli 0 LTakeMsg 0; YCli 0 (LEncode None) 0; YSrvDecode 0;
    YSrv 0 (EReceiver false) 0; YSrv 0 (EReceiver false) 0].

(** The first chunk of standard error has the number of the command, and is what the call returns. *)
Definition call_returns : list host_event :=
  (λ e, HSys e 0) <$> replicate 2 (YSrv 0 (EReceiver false) 0) ++ replicate 4 (YSrv 0 (ECaller 0 false) 0).

Definition print_schedule : list host_event :=
  start_schedule ++
  [HRun 0 CGo; HUpl 0 true (ARead [1; 2] true [1; 2; 0; 0] ReadNil); HUpl 0 false (ARead [9] false [] ReadNil);
   HUpl 0 false ANext; HUpl 0 true ANext; HSend 0 (Upl true); HSend 0 (Upl false); HSent 0 (Upl true) ViaSend] ++
  carry ++ [HSent 0 (Upl false) ViaSend] ++ carry ++ call_returns ++
  [HRun 0 (CEngine (Ok true)); HRun 0 CGo; HUpl 0 true AEnd; HUpl 0 false AEnd; HRun 0 CGo; HRun 0 CGo;
   HSend 0 Main; HSent 0 Main ViaSend] ++ carry ++ [HRun 0 CGo; HRun 0 CGo].

Definition printed : hstate := host_after print_schedule.
Definition final_msg : Msg := MkMsg (@MSG_DATA_OUTPUT sample_pb) 5 2 [].

Example hub_received : s_received (the_session (o_sys printed)) =
  [MkMsg (@MSG_DATA_OUTPUT sample_pb) 5 1 [1; 2]; MkMsg (@MSG_RUNTIME_DATA_STDERR sample_pb) 5 0 [9]; final_msg].
Proof. by vm_compute. Qed.

Lemma printed_reachable : reachable hstep (eq hinit) printed.
Proof. apply (run_reachable _ _ print_schedule). vm_compute. reflexivity. Qed.

Lemma printed_connected : connected (o_sys printed) 0 (the_conn (o_sys printed)) (the_bundle (o_sys printed)) (the_session (o_sys printed)).
Proof. split; try (by vm_compute); by left; vm_compute. Qed.

Lemma printed_idle : idle (handler := rt_interface (W := unit) (SQ := squeue)) "foo" 1000 1000 (λ _, [0]) echo_marshal
  (frame_within memory) decCmd (frame_within memory) decMsg no_pool no_pool 0 (o_sys printed).
Proof. solve_idle (o_sys printed). Qed.

Lemma runtime_output_end_to_end_witness :
  ∃ data, (data ++ [(SLast, final_msg)]).*2 `sublist_of` s_received (the_session (o_sys printed)) ∧
    payloads true data = [[1; 2]] ∧ payloads false data = [[9]].
Proof.
  destruct (runtime_output_end_to_end (W := unit) (SQ := squeue) 4096 "foo" 1000 1000 (λ _, [0]) echo_marshal
    (frame_within memory) decCmd (frame_within memory) decMsg no_pool no_pool cmd_valid msg_valid tt printed 0
    (host_op 0 printed) final_msg 0 (the_conn (o_sys printed)) (the_bundle (o_sys printed))
    (the_session (o_sys printed))) as (data & _ & H1 & H2 & H3 & _).
  - exact printed_reachable.
  - vm_compute. reflexivity.
  - vm_compute. right. right. left.
  - vm_compute. reflexivity.
  - apply (proj1 (list.Forall_forall
      (λ d, sd_op d = 0%nat → sd_src d ≠ None → sd_bundle d = 0%nat ∧ sd_put d = true) (o_sends printed))).
    vm_compute. repeat (constructor; [intros; split; reflexivity|]). constructor.
  - exact printed_connected.
  - exact printed_idle.
  - exists data. split; [exact H1|]. split; [exact H2|exact H3].
Defined.

Lemma operations_come_from_commands_witness :
  ∃ b k s cmd pkt, o_ctx printed !! 0%nat = Some b ∧ y_conns (o_sys printed) !! b = Some k ∧ k_srv k = Some s ∧
    cmd ∈ commands (s_accepted s) ∧ Packet_Unmarshal (cmd_Payload cmd) = Ok pkt ∧ cmd_Id cmd = 5.
Proof.
  destruct (operations_come_from_commands (W := unit) (SQ := squeue) 4096 "foo" 1000 1000 (λ _, [0]) echo_marshal
    (frame_within memory) decCmd (frame_within memory) decMsg no_pool no_pool cmd_valid msg_valid tt printed 0
    (host_op 0 printed)) as (b & k & s & cmd & pkt & H1 & H2 & H3 & H4 & _ & H5 & _ & _ & H6 & _).
  - exact printed_reachable.
  - vm_compute. reflexivity.
  - exists b, k, s, cmd, pkt. split_and!; [exact H1|exact H2|exact H3|exact H4|exact H5|symmetry; exact H6].
Defined.

(** The same, without output, up to the final message; then the connection ends, the extension
    reconnects, and the hub asks for something else with the same id and number. *)
Definition images_cmd : Cmd := MkCmd (@CMD_RUNTIME_ARANYA_PROTO sample_pb) 5 0 [7; 42].
Definition stale_msg : Msg := MkMsg (@MSG_DATA_OUTPUT sample_pb) 5 0 [].

Definition second_connection : list sys_event :=
  [YCli 0 (LDecode (Err EOF)) 0; YCli 0 LReaderExit 0; YCli 0 LReaderExit 0; YCtl go] ++
  (YCtl <$> ECallRefresh 1 :: replicate 7 (ECallStep 1 false)) ++
  [YCtl go; YCtl go; YCli 1 (LDial None) 0; YCli 1 (LRegister None) 0; YAccept 1;
   YSrv 1 (ECall 0 images_cmd true) 0; YSrv 1 (ECaller 0 false) 0; YSrv 1 (ECaller 0 false) 0; YSrv 1 (ECaller 0 false) 0].

Definition stale_schedule : list host_event :=
  start_schedule ++
  [HRun 0 CGo; HRun 0 (CEngine (Ok true)); HRun 0 CGo; HUpl 0 true AEnd; HUpl 0 false AEnd; HRun 0 CGo; HRun 0 CGo] ++
  ((λ e, HSys e 1) <$> second_connection) ++ [HSend 0 Main; HSent 0 Main ViaSend] ++
  ((λ e, HSys e 1) <$> [YCli 1 LTakeMsg 0; YCli 1 (LEncode None) 0; YSrvDecode 1] ++
     replicate 4 (YSrv 1 (EReceiver false) 0) ++ replicate 4 (YSrv 1 (ECaller 0 false) 0)).

(** Finding.  What is left of one connection can answer a command of the next.  The context of
    an operation ends with its connection, but its goroutines go on and send through the function
    the controller set last, which is that of the new connection, under the id of the old command
    and with the stream's own numbers: here a call on the new connection, of a command with the
    same id and number, returns the final message of the old stream, although the handler has not
    been given any command of the new connection. *)
Theorem stale_output_answers_command :
  ∃ y k x s, reachable hstep (eq hinit) y ∧ y_conns (o_sys y) !! 1%nat = Some k ∧
    c_bundles (y_ctl (o_sys y)) !! 1%nat = Some x ∧ k_srv k = Some s ∧ b_handled x = [] ∧
    o_ctx y !! 0%nat = Some 0%nat ∧ 0%nat ∈ o_over y ∧
    s_callers s !! 0%nat = Some (MkCaller images_cmd (CReturned (Ok (Some stale_msg)))).
Proof.
  exists (host_after stale_schedule). do 3 eexists.
  split; [apply (run_reachable _ _ stale_schedule); by vm_compute|].
  split_and!; by vm_compute.
Qed.
End SampleHost.
