(* ===== verification/RuntimeInput.v ===== *)
(** * Input for the runtime handler

    The other direction of [RuntimeHost]: what callers on the hub send as the input of a command
    that runs.  Each step of the system changes the handler's streams by operations of [Streaming];
    the writes among them are the input commands that the controller's loop hands over, which are
    those the hub accepted. *)
From S2P Require Import Prelude GoChan Varint Codec Gogoproto Proto MsgWait Extension Handler Controller History Client EndToEnd Streaming RuntimePb Runtime RuntimeHost.

Set Default Proof Using "Type".

Section input.
Context `{pb : !ArhatPb, wke : !WellKnownErrors, apb : !AranyaPb}.
Context {W : Type} `{engine : !RuntimeEngine W} {SQ : Type} `{sq : !SeqQueue SQ}.
Context (maxPayloadSize : Z).
Context {Q : Type} `{tq : !TimeoutQueue Q} {B : Type}.
Context (name : string) (keepaliveInterval messageTimeout : Z).
Context (error_body : string → B) (marshal : B → result bytes).
Context {SC SM : Type}.
Context (encCmd : Cmd → result bytes) (decCmd : SC → reader → outcome (SC * reader * result Cmd)).
Context (encMsg : Msg → result bytes) (decMsg : SM → reader → outcome (SM * reader * result Msg)).
Context (sc0 : SC) (sm0 : SM).

#[local] Existing Instance rt_interface.
Local Abbreviation ctl := (controller (H := unit) (B := B)).
Local Abbreviation sys := (system (Q := Q) (H := unit) (B := B) (SC := SC) (SM := SM)).
Local Abbreviation host := (host (W := W) (SQ := SQ) (Q := Q) (B := B) (SC := SC) (SM := SM)).
Local Abbreviation ctl_step := (ctl_step (handler := rt_interface (W := W) (SQ := SQ)) error_body marshal).
Local Abbreviation sys_step :=
  (sys_step (handler := rt_interface (W := W) (SQ := SQ)) name keepaliveInterval messageTimeout error_body marshal
     encCmd decCmd encMsg decMsg sc0 sm0).
Local Abbreviation rt_step := (rt_step (W := W) (Q := SQ) maxPayloadSize).
Local Abbreviation host_step :=
  (host_step (W := W) (SQ := SQ) maxPayloadSize name keepaliveInterval messageTimeout error_body marshal
     encCmd decCmd encMsg decMsg sc0 sm0).
Local Abbreviation hctl y := (y_ctl (o_sys y)).
Implicit Types y : host.

(** ** Commands handed over *)

(** The commands of a connection that were handed to the handler. *)
Definition cmds_at (c : ctl) (b : nat) : list Cmd := (handled_at c b).*1.

Definition of_conn (b : nat) (h : option (nat * Cmd)) : list Cmd :=
  match h with Some (b', cmd) => if bool_decide (b' = b) then [cmd] else [] | None => [] end.

Lemma ctl_step_handled (c : ctl) e c' b :
  ctl_step c e = Some c' → cmds_at c' b = cmds_at c b ++ of_conn b (takes_cmd e c).
Proof.
  intros Hs. destruct (ctl_step_makes _ _ _ _ _ Hs) as [_ Hm]. destruct (Hm b) as [Hb _].
  unfold cmds_at. rewrite Hb, fmap_app. f_equal. destruct (takes_cmd e c) as [[b' cmd]|] eqn:Ht.
  - rewrite (call_now_cmd _ _ _ _ Ht). simpl. by case_bool_decide.
  - unfold call_now. rewrite Ht. destruct e as [od ch| | | | | | | | |]; try done. by destruct (c_sess c).
Qed.

Lemma sys_step_handled (s : sys) e s' b :
  sys_step s e = Some s' → cmds_at (y_ctl s') b = cmds_at (y_ctl s) b ++ of_conn b (hands_over e (y_ctl s)).
Proof.
  intros Hs%sys_step_ctl. destruct e as [e|b0 ev n|b0|b0|b0 ev n|b0]; [by eapply ctl_step_handled|..].
  all: simpl; rewrite app_nil_r; destruct Hs as [->|(e' & He & Hc)]; [done|].
  all: rewrite (ctl_step_handled _ _ _ b Hc); destruct e'; try done; simpl; by rewrite app_nil_r.
Qed.

(** ** Input as operations on the streams *)

(** What HandleCmd does with a command that carries input. *)
Definition input_op (cmd : Cmd) : option sm_op :=
  if cmd_Kind cmd =? CMD_DATA_INPUT then Some (OpWrite (cmd_Id cmd) (cmd_Seq cmd) (cmd_Payload cmd))
  else if cmd_Kind cmd =? CMD_DATA_CLOSE then Some (OpWrite (cmd_Id cmd) (cmd_Seq cmd) [])
  else None.

(** The input for a session among some commands. *)
Definition inputs (sid : Z) (cmds : list Cmd) : list sm_op :=
  filter (λ o, target_sid o = sid) (omap input_op cmds).

(** The commands of one connection among those handed over. *)
Definition of_conns (b : nat) (hs : list (nat * Cmd)) : list Cmd := hs ≫= λ h, of_conn b (Some h).

Lemma effect_ops o o' (m m' : StreamManager (Q := SQ)) :
  stream_effect (W := W) o o' m m' → ∃ ops, m' = do_ops ops m ∧ writes ops = [].
Proof.
  intros [_ _ _ [->|(c & r & ->)]|rF _ _ _ _ ->|_ _ ->].
  - by exists [].
  - by exists [OpResize (op_sid o) c r].
  - by exists [OpAdd (op_sid o) (Ok rF)].
  - by exists [OpDel (op_sid o)].
Qed.

Lemma HandleCmd_input sid seq kind payload (m : StreamManager (Q := SQ)) :
  (rt_HandleCmd (W := W) sid seq kind payload m).1.1 =
    do_ops (option_list (input_op (MkCmd kind sid seq payload))) m.
Proof. unfold rt_HandleCmd, input_op. simpl. repeat case_match; done. Qed.

Lemma input_writes cmd : writes (option_list (input_op cmd)) = option_list (input_op cmd).
Proof. unfold input_op. by repeat case_match. Qed.

Definition rt_input (e : rt_event) : option sm_op :=
  match e with VCmd _ sid seq kind payload => input_op (MkCmd kind sid seq payload) | _ => None end.

Lemma rt_step_ops s e s' :
  rt_wf s → rt_step s e = Some s' →
  ∃ ops, r_streams s' = do_ops ops (r_streams s) ∧ writes ops = option_list (rt_input e).
Proof.
  intros Hwf Hs. destruct e as [g sid sn kind payload|g c|g out a|g]; simpl in Hs.
  1: { pose proof (HandleCmd_input sid sn kind payload (r_streams s)) as Hm.
       destruct (rt_HandleCmd _ _ _ _ _) as [[m r] oo]. eexists. split; [|apply input_writes].
       simpl in Hm. rewrite <-Hm. by split_step Hs. }
  all: destruct (r_ops s !! g) as [o|] eqn:Ho; [|done].
  - destruct (op_step o c _ _) as [[[o1 m1] w1]|] eqn:E; simplify_eq.
    apply op_step_effect in E as [_ He]; [by apply effect_ops in He|by apply (rw_before _ Hwf g)].
  - destruct (upl_step _ out a o); simplify_eq. by exists [].
  - simplify_eq. by exists [].
Qed.

(** *** Steps of the system *)

Lemma handles_ops y e g rt ctx :
  rt_wf (o_rt y) → handles maxPayloadSize e g y = Some (rt, ctx) →
  ∃ ops, r_streams rt = do_ops ops (r_streams (o_rt y)) ∧
    writes ops = omap (λ h, input_op h.2) (option_list (hands_over e (hctl y))).
Proof.
  intros Hwf Hh. unfold handles in Hh. destruct (hands_over e (hctl y)) as [[b cmd]|]; [|simplify_eq; by exists []].
  destruct (rt_step (o_rt y) _) as [rt1|] eqn:Hrt; [|done].
  assert (rt1 = rt) as -> by (clear Hrt; by simplify_eq/=).
  apply rt_step_ops in Hrt as (ops & Ho & Hw); [|done].
  exists ops. split; [done|]. rewrite Hw. simpl. destruct cmd. by destruct (input_op _).
Qed.

(** A step of the handler other than HandleCmd. *)
Lemma quiet_ops y e rt :
  rt_wf (o_rt y) → rt_step (o_rt y) e = Some rt → rt_input e = None →
  ∃ ops, r_streams rt = do_ops ops (r_streams (o_rt y)) ∧ writes ops = [].
Proof.
  intros Hwf Hrt He. apply rt_step_ops in Hrt as (ops & Ho & Hw); [|done].
  exists ops. by rewrite Hw, He.
Qed.

(** What a step of the system does to the streams, and the command that it hands over. *)
Definition step_ops (h : option (nat * Cmd)) y y' : Prop :=
  (∃ ops, r_streams (o_rt y') = do_ops ops (r_streams (o_rt y)) ∧
     writes ops = omap (λ h, input_op h.2) (option_list h)) ∧
  ∀ b, cmds_at (hctl y') b = cmds_at (hctl y) b ++ of_conn b h.

Lemma on_rt_ops y e y' :
  rt_wf (o_rt y) → on_rt maxPayloadSize e y = Some y' → rt_input e = None → step_ops None y y'.
Proof.
  intros Hwf Hs He. unfold on_rt in Hs. destruct (rt_step (o_rt y) e) as [rt|] eqn:Hrt; [|done].
  assert (y' = MkHost (o_sys y) rt (o_ctx y) (o_over y) (o_sends y)) as -> by (clear Hrt; by simplify_eq/=).
  split; [by apply (quiet_ops y e)|]. intros b. simpl. by rewrite app_nil_r.
Qed.

Lemma send_no_input g snd err : rt_input (send_returns g snd err) = None.
Proof. by destruct snd. Qed.

Lemma host_step_ops y e y' : rt_wf (o_rt y) → host_step y e = Some y' → ∃ h, step_ops h y y'.
Proof.
  intros Hwf Hs. unfold host_step in Hs. destruct e as [e g|g c|g out a|g|g snd|g snd c].
  - destruct (is_async e); [done|]. destruct (sys_step (o_sys y) e) as [s|] eqn:Hy; [|done].
    destruct (handles maxPayloadSize e g y) as [[rt ctx]|] eqn:Hh; [|done].
    assert (o_sys y' = s ∧ o_rt y' = rt) as [Es Er] by (clear Hy Hh; by simplify_eq/=).
    exists (hands_over e (hctl y)). unfold step_ops. rewrite Es, Er.
    split; [by eapply handles_ops|]. intros b. by apply sys_step_handled.
  - exists None. destruct c, (c_panic (hctl y)); try done; by eapply on_rt_ops.
  - exists None. destruct a, (c_panic (hctl y)); try done; by eapply on_rt_ops.
  - exists None. destruct (c_panic (hctl y)), (ctx_done g y); try done. by eapply on_rt_ops.
  - exists None. destruct (c_panic (hctl y)); [done|].
    destruct (r_ops (o_rt y) !! g) as [o|]; [|done]. cbn [mbind option_bind] in Hs.
    destruct (pending o snd) as [[tag m]|]; [|done]. cbn [mbind option_bind] in Hs.
    destruct (c_fn (hctl y)); [|by eapply on_rt_ops; [..|apply send_no_input]].
    destruct (sys_step (o_sys y) _) as [s|] eqn:Hy; [|done].
    assert (o_sys y' = s ∧ o_rt y' = o_rt y) as [Es Er] by (clear Hy; by simplify_eq/=).
    unfold step_ops. rewrite Es, Er. split; [by exists []|]. intros b. apply (sys_step_handled _ _ _ _ Hy).
  - exists None. destruct (c_panic (hctl y)); [done|]. unfold sent_step in Hs.
    destruct (r_ops (o_rt y) !! g) as [o|]; [|done]. cbn [mbind option_bind] in Hs.
    destruct (pending o snd) as [[tag m]|]; [|done]. cbn [mbind option_bind] in Hs.
    destruct (c_async _ !! _) as [[b m']|]; [|done]. cbn [mbind option_bind] in Hs.
    destruct (sys_step (o_sys y) _) as [s|] eqn:Hy; [|done]. cbn [mbind option_bind] in Hs.
    pose proof (λ b, sys_step_handled _ _ _ b Hy) as Hh. unfold step_ops.
    destruct (c_panic (y_ctl s)); [simplify_eq; split; [by exists []|done]|].
    destruct (rt_step (o_rt y) _) as [rt|] eqn:Hrt; [|done]. cbn [mbind option_bind] in Hs. simplify_eq.
    split; [|done]. eapply quiet_ops; [done..|apply send_no_input].
Qed.

Context {validCmd : Cmd → Prop} {validMsg : Msg → Prop}.
Context `{frameCmd : !FrameCodec validCmd encCmd decCmd, frameMsg : !FrameCodec validMsg encMsg decMsg}.
Hypothesis encCmd_valid : ∀ v f, encCmd v = Ok f → validCmd v.
Hypothesis encMsg_valid : ∀ v f, encMsg v = Ok f → validMsg v.

Lemma do_ops_app ops1 ops2 (m : StreamManager (Q := SQ)) : do_ops (ops1 ++ ops2) m = do_ops ops2 (do_ops ops1 m).
Proof. apply foldl_app. Qed.

Lemma rt_wf_host w y : reachable host_step (eq (host_init w)) y → rt_wf (o_rt y).
Proof using encCmd_valid frameCmd encMsg_valid frameMsg.
  intros Hr. eapply rt_wf_reachable, hi_rt. by eapply host_inv_reachable.
Qed.

(** Along any run, the streams change by operations whose writes are the input among the commands
    that were handed over. *)
Lemma run_ops w es y1 y :
  reachable host_step (eq (host_init w)) y1 → run host_step y1 es = Some y →
  ∃ ops hs, r_streams (o_rt y) = do_ops ops (r_streams (o_rt y1)) ∧
    writes ops = omap (λ h, input_op h.2) hs ∧
    ∀ b, cmds_at (hctl y) b = cmds_at (hctl y1) b ++ of_conns b hs.
Proof using encCmd_valid frameCmd encMsg_valid frameMsg.
  revert y1. induction es as [|e es IH]; intros y1 Hr Hrun; simpl in Hrun.
  - simplify_eq. exists [], []. split_and!; [done|done|]. intros b. by rewrite app_nil_r.
  - destruct (host_step y1 e) as [y2|] eqn:Hs; [|done].
    destruct (host_step_ops _ _ _ (rt_wf_host _ _ Hr) Hs) as (h & (ops1 & Ho1 & Hw1) & Hh1).
    destruct (IH y2) as (ops2 & hs & Ho2 & Hw2 & Hh2); [by eapply reach_step|done|].
    exists (ops1 ++ ops2), (option_list h ++ hs). split_and!.
    + by rewrite do_ops_app, Ho2, Ho1.
    + unfold writes in *. by rewrite list.filter_app, omap_app, Hw1, Hw2.
    + intros b. rewrite Hh2, Hh1, <-(assoc_L (++)). f_equal. unfold of_conns. rewrite bind_app. f_equal.
      destruct h as [[b' cmd]|]; simpl; [|done]. by rewrite app_nil_r.
Qed.

(** When only one connection hands over commands, they are all its own. *)
Lemma only_conn b hs : (∀ b', b' ≠ b → of_conns b' hs = []) → hs.*2 = of_conns b hs.
Proof.
  induction hs as [|[b' cmd] hs IH]; intros Hall; [done|]. simpl. case_bool_decide as Hb.
  - simpl. f_equal. apply IH. intros b1 Hb1. specialize (Hall b1 Hb1). by apply app_eq_nil in Hall as [_ ?].
  - specialize (Hall b' Hb). simpl in Hall. by rewrite bool_decide_true in Hall.
Qed.

Lemma omap_snd hs : omap input_op hs.*2 = omap (λ h : nat * Cmd, input_op h.2) hs.
Proof. induction hs as [|[b cmd] hs IH]; [done|]. cbn. by rewrite IH. Qed.

Lemma inputs_prefix sid cmds1 cmds2 : cmds1 `prefix_of` cmds2 → inputs sid cmds1 `prefix_of` inputs sid cmds2.
Proof. intros [l ->]. unfold inputs. rewrite omap_app, list.filter_app. by eexists. Qed.

(** The stream after a run, by the input that the commands of [b] handed over meanwhile. *)
Lemma stream_after w y1 es y sid p rF b :
  reachable host_step (eq (host_init w)) y1 → run host_step y1 es = Some y →
  sessions (r_streams (o_rt y1)) !! sid = Some p → heap (r_streams (o_rt y1)) !! p = Some (newStream rF) →
  sessions (r_streams (o_rt y)) !! sid = Some p →
  (∀ b', b' ≠ b → cmds_at (hctl y) b' = cmds_at (hctl y1) b') →
  ∃ cmds st st', cmds_at (hctl y) b = cmds_at (hctl y1) b ++ cmds ∧
    heap (r_streams (o_rt y)) !! p = Some st ∧
    foldl spec_op (Some (newStream rF)) (inputs sid cmds) = Some st' ∧ same_input st st'.
Proof using encCmd_valid frameCmd encMsg_valid frameMsg.
  intros Hr Hrun Hp Hst Hp' Hother.
  destruct (run_ops _ _ _ _ Hr Hrun) as (ops & hs & Hops & Hw & Hh). rewrite Hops in *.
  destruct (view_writes ops sid p _ _ (rw_streams _ (rt_wf_host _ _ Hr)) Hp Hst Hp') as (st & st' & H1 & H2 & H3).
  exists (of_conns b hs), st, st'. split_and!; [done|done| |done].
  rewrite <-only_conn.
  - unfold inputs. by rewrite omap_snd, <-Hw.
  - intros b' Hb. apply (app_inv_head (cmds_at (hctl y1) b')). by rewrite <-Hh, app_nil_r, Hother.
Qed.

End input.

(** ** Input on concrete schedules *)

Module SampleInput.
Import SampleQueue SampleSeqQueue SampleController SampleSystem SampleHost.
#[local] Existing Instance sample_pb.
#[local] Existing Instance sample_errors.
#[local] Existing Instance sample_aranya.
#[local] Existing Instance sample_engine.

(** A call on the hub that does not wait, and the way of its command to the handler. *)
Definition post (c : nat) (cmd : Cmd) : list host_event :=
  (λ e, HSys e c) <$> [YSrv 0 (ECall c cmd false) 0; YSrv 0 (ECaller c false) 0; YSrv 0 (ECaller c false) 0;
    YSrv 0 EWriteCmd 0; YSrv 0 (EEncode None) 0; YCliDecode 0; YCli 0 LForward 0; YCtl go].

Definition exec_cmd : Cmd := MkCmd (@CMD_RUNTIME_ARANYA_PROTO sample_pb) 5 0 [2; 1].
Definition input_cmd (seq : Z) (data : bytes) : Cmd := MkCmd (@CMD_DATA_INPUT sample_pb) 5 seq data.
Definition close_cmd (seq : Z) : Cmd := MkCmd (@CMD_DATA_CLOSE sample_pb) 5 seq [].

(** A command with input is started. *)
Definition exec_schedule : list host_event :=
  ((λ e, HSys e 0) <$> connect_schedule) ++ post 0 exec_cmd ++ [HRun 0 CGo; HRun 0 (CEngine (Ok true))].

(** Its input comes, the end of it first. *)
Definition feed_schedule : list host_event :=
  post 1 (close_cmd 2) ++ post 2 (input_cmd 1 [3; 4]) ++ post 3 (input_cmd 0 [1; 2]).

Definition started : hstate := host_after exec_schedule.
Definition fed : hstate := match run hstep started feed_schedule with Some y => y | None => started end.

Lemma started_reachable : reachable hstep (eq hinit) started.
Proof. apply (run_reachable _ _ exec_schedule). vm_compute. reflexivity. Qed.

Lemma fed_connected : connected (o_sys fed) 0 (the_conn (o_sys fed)) (the_bundle (o_sys fed)) (the_session (o_sys fed)).
Proof. split; try (by vm_compute); by left; vm_compute. Qed.

Lemma fed_idle : idle (handler := rt_interface (W := unit) (SQ := squeue)) "foo" 1000 1000 (λ _, [0]) echo_marshal
  (frame_within memory) decCmd (frame_within memory) decMsg no_pool no_pool 0 (o_sys fed).
Proof. solve_idle (o_sys fed). Qed.

(** There is only one connection. *)
Lemma fed_other b : b ≠ 0%nat → cmds_at (y_ctl (o_sys fed)) b = cmds_at (y_ctl (o_sys started)) b.
Proof.
  intros Hb. unfold cmds_at, handled_at.
  assert (∀ y : hstate, length (c_bundles (y_ctl (o_sys y))) = 1%nat → c_bundles (y_ctl (o_sys y)) !! b = None) as Hlt
    by (intros y Hl; apply lookup_ge_None; lia).
  rewrite !Hlt by (by vm_compute). done.
Qed.


(** The first piece of the input comes before the operation has added its stream. *)
Definition early_schedule : list host_event :=
  ((λ e, HSys e 0) <$> connect_schedule) ++ post 0 exec_cmd ++ post 1 (input_cmd 0 [1; 2]) ++
  [HRun 0 CGo; HRun 0 (CEngine (Ok true))] ++ post 2 (input_cmd 1 [3; 4]) ++ post 3 (close_cmd 2).

(** Finding.  Input that comes early is lost, and the rest of the input with it.  HandleCmd starts
    the goroutine that will add the stream and returns; a piece of input that is handled before
    that goroutine has got there is dropped, and no error is reported to the hub.  The stream that
    is added later waits for this piece: here the hub sends a command and then its whole input, in
    order and on one connection, everything is handled, and the command never gets a byte, nor
    the end of its input. *)
Theorem early_input_is_lost :
  ∃ y x s st, reachable hstep (eq hinit) y ∧ c_bundles (y_ctl (o_sys y)) !! 0%nat = Some x ∧
    k_srv (the_conn (o_sys y)) = Some s ∧
    commands (s_accepted s) = [exec_cmd; input_cmd 0 [1; 2]; input_cmd 1 [3; 4]; close_cmd 2] ∧
    (b_handled x).*1 = commands (s_accepted s) ∧ s_received s = [] ∧
    sessions (r_streams (o_rt y)) !! 5 = Some 0%nat ∧ heap (r_streams (o_rt y)) !! 0%nat = Some st ∧ st_w st = [].
Proof.
  exists (host_after early_schedule). do 3 eexists.
  split; [apply (run_reachable _ _ early_schedule); by vm_compute|].
  split_and!; by vm_compute.
Qed.
End SampleInput.
