(* ===== verification/RuntimeCalls.v ===== *)
(** * Calls for the runtime handler

    The runtime handler answers a command of the pod, image and info family from a goroutine, by a
    message under the command's id and number.  This file follows a call of sendCmd for such a
    command through the system of [RuntimeHost], as [Calls] does for replies of the controller. *)
From S2P Require Import Prelude GoChan Varint Codec Gogoproto Proto MsgWait Extension Handler Controller History Client EndToEnd Calls Streaming RuntimePb Runtime RuntimeHost.

Set Default Proof Using "Type".

Section calls.
Context `{pb : !ArhatPb, wke : !WellKnownErrors, apb : !AranyaPb}.
Context {W : Type} `{engine : !RuntimeEngine W} {SQ : Type} `{sq : !SeqQueue SQ}.
Context (maxPayloadSize : Z).
Context {Q : Type} `{tq : !TimeoutQueue Q} {B : Type}.
Context (name : string) (keepaliveInterval messageTimeout : Z).
Context (error_body : string → B) (marshal : B → result bytes).
Context {SC SM : Type}.
Context (encCmd : Cmd → result bytes) (decCmd : SC → reader → outcome (SC * reader * result Cmd)).
Context (encMsg : Msg → result bytes) (decMsg : SM → reader → outcome (SM * reader * result Msg)).
Context (sc0 : SC) (sm0 : SM).

#[local] Existing Instance rt_interface.
Local Abbreviation ctl := (controller (H := unit) (B := B)).
Local Abbreviation sys := (system (Q := Q) (H := unit) (B := B) (SC := SC) (SM := SM)).
Local Abbreviation host := (host (W := W) (SQ := SQ) (Q := Q) (B := B) (SC := SC) (SM := SM)).
Local Abbreviation ctl_step := (ctl_step (handler := rt_interface (W := W) (SQ := SQ)) error_body marshal).
Local Abbreviation sys_step :=
  (sys_step (handler := rt_interface (W := W) (SQ := SQ)) name keepaliveInterval messageTimeout error_body marshal
     encCmd decCmd encMsg decMsg sc0 sm0).
Local Abbreviation rt_step := (rt_step (W := W) (Q := SQ) maxPayloadSize).
Local Abbreviation host_step :=
  (host_step (W := W) (SQ := SQ) maxPayloadSize name keepaliveInterval messageTimeout error_body marshal
     encCmd decCmd encMsg decMsg sc0 sm0).
Local Abbreviation hctl y := (y_ctl (o_sys y)).
Implicit Types y : host.

(** ** Replies of operations *)

(** An operation stays what it was, and its replies stay. *)
Definition op_keeps (o o' : op (W := W)) : Prop :=
  origin o' = origin o ∧ op_replied o `prefix_of` op_replied o'.

Lemma op_step_keeps o c (m : StreamManager (Q := SQ)) w o' m' w' :
  op_step o c m w = Some (o', m', w') →
  op_keeps o o' ∧ ∀ err msg, c = CSend err → pending o Main = Some (None, msg) → msg ∈ op_replied o'.
Proof.
  intros Hs. split; [split|].
  - by destruct (op_step_main _ _ _ _ _ _ _ Hs) as [? _].
  - unfold op_step, pf_step, op_start, op_run, handleTtyResize, add_stream, createTerminalStream in Hs.
    destruct (op_at o), c; try done; repeat case_match; simplify_eq/=; try done; by apply prefix_app_r.
  - intros err msg -> Hp. unfold op_step, pf_step in Hs. simpl in Hp.
    destruct (op_at o) eqn:Hat; simplify_eq. destruct (reply _ _ r) as [m1|]; simplify_eq/=. apply elem_of_app. right. by apply list_elem_of_singleton.
Qed.

Lemma rt_step_keeps s e s' g o :
  rt_step s e = Some s' → r_ops s !! g = Some o →
  ∃ o', r_ops s' !! g = Some o' ∧ op_keeps o o' ∧
    ∀ snd err msg, e = send_returns g snd err → pending o snd = Some (None, msg) → msg ∈ op_replied o'.
Proof.
  intros Hs Hg. assert (op_keeps o o) as Hrefl by done.
  destruct e as [g' sid sn kind payload|g' c|g' out a|g']; simpl in Hs.
  - exists o. split; [|split; [done|by intros []]].
    destruct (rt_HandleCmd _ _ _ _ _) as [[m r] [o1|]]; split_step Hs; [|done]. rewrite lookup_insert_ne; congruence.
  - destruct (r_ops s !! g') as [o1|] eqn:Ho1; [|done].
    destruct (op_step o1 c _ _) as [[[o2 m2] w2]|] eqn:E; simplify_eq/=. destruct (decide (g' = g)) as [->|Hne].
    + simplify_eq. rewrite lookup_insert_eq. destruct (op_step_keeps _ _ _ _ _ _ _ E) as [Hk Hm]. exists o2.
      split_and!; [done|done|]. intros [] err msg [= ->] Hp; by eauto.
    + rewrite lookup_insert_ne by done. exists o. split_and!; [done|done|]. by intros [] err msg [= ? ?].
  - destruct (r_ops s !! g') as [o1|] eqn:Ho1; [|done].
    destruct (upl_step _ out a o1) as [o2|] eqn:E; simplify_eq/=. destruct (decide (g' = g)) as [->|Hne].
    + simplify_eq. rewrite lookup_insert_eq. destruct (upl_effect _ _ _ _ _ E) as [He _]. exists o2. split_and!; [done|..].
      * split; [apply He|]. unfold upl_step in E. by split_step E.
      * intros [out'|] err msg ? Hp; [|done]. simpl in Hp. by repeat case_match.
    + rewrite lookup_insert_ne by done. exists o. split_and!; [done|done|]. by intros [] err msg [= ? ? ?].
  - destruct (r_ops s !! g') as [o1|] eqn:Ho1; simplify_eq/=. destruct (decide (g' = g)) as [->|Hne].
    + simplify_eq. rewrite lookup_insert_eq. eexists. split_and!; [done|done|by intros []].
    + rewrite lookup_insert_ne by done. exists o. split_and!; [done|done|by intros []].
Qed.

(** ** What a step of the system does *)

Record host_moves y y' : Prop := {
  hm_sys : o_sys y' = o_sys y ∨ ∃ e, sys_step (o_sys y) e = Some (o_sys y');
  hm_ops g o : r_ops (o_rt y) !! g = Some o →
    ∃ o', r_ops (o_rt y') !! g = Some o' ∧ op_keeps o o' ∧ o_ctx y' !! g = o_ctx y !! g;
  hm_sends : ∃ l, o_sends y' = o_sends y ++ l ∧ ∀ d, d ∈ l →
    ∃ o', r_ops (o_rt y') !! sd_op d = Some o' ∧ (sd_src d = None → sd_msg d ∈ op_replied o');
}.

Lemma on_rt_moves y e y' : on_rt maxPayloadSize e y = Some y' → host_moves y y'.
Proof.
  unfold on_rt. destruct (rt_step (o_rt y) e) as [rt|] eqn:Hrt; [|done]. intros Hs.
  assert (y' = MkHost (o_sys y) rt (o_ctx y) (o_over y) (o_sends y)) as -> by (clear Hrt; by simplify_eq/=).
  split; simpl; [by left| |exists []; rewrite app_nil_r; split; [done|inversion 1]].
  intros g o Ho. destruct (rt_step_keeps _ _ _ _ _ Hrt Ho) as (o' & ? & ? & _). eauto.
Qed.

(** Only the system moves. *)
Lemma sys_moves y e s : sys_step (o_sys y) e = Some s → host_moves y (MkHost s (o_rt y) (o_ctx y) (o_over y) (o_sends y)).
Proof.
  intros Hy. split; simpl; [eauto| |exists []; rewrite app_nil_r; split; [done|inversion 1]].
  intros g o Ho. exists o. by split_and!.
Qed.

Lemma handles_moves y e g s rt ctx over :
  sys_step (o_sys y) e = Some s → handles maxPayloadSize e g y = Some (rt, ctx) →
  host_moves y (MkHost s rt ctx over (o_sends y)).
Proof.
  intros Hy Hh. split; simpl; [eauto| |exists []; rewrite app_nil_r; split; [done|inversion 1]].
  unfold handles in Hh. destruct (hands_over e (hctl y)) as [[b cmd]|].
  2: { simplify_eq. intros g' o Ho. exists o. by split_and!. }
  destruct (rt_step (o_rt y) _) as [rt'|] eqn:Hrt; [|done].
  assert (rt' = rt ∧ ctx = match r_ops rt !! g with Some _ => <[g := b]> (o_ctx y) | None => o_ctx y end) as [-> ->]
    by (clear Hrt; by simplify_eq/=).
  assert (r_ops (o_rt y) !! g = None) as Hg. { simpl in Hrt. by destruct (r_ops (o_rt y) !! g). }
  intros g' o Ho. assert (g ≠ g') by congruence. destruct (rt_step_keeps _ _ _ _ _ Hrt Ho) as (o' & ? & ? & _).
  exists o'. split_and!; [done|done|]. destruct (r_ops rt !! g); by simplify_map_eq.
Qed.

Lemma sent_moves y g snd c y' : sent_step maxPayloadSize name keepaliveInterval messageTimeout error_body marshal
  encCmd decCmd encMsg decMsg sc0 sm0 g snd c y = Some y' →
  (∀ a b m, c_async (hctl y) !! a = Some (b, m) → ∃ g snd o tag, a = async_id g snd ∧ r_ops (o_rt y) !! g = Some o ∧
     pending o snd = Some (tag, m)) → host_moves y y'.
Proof.
  intros Hs Hasync. unfold sent_step in Hs.
  destruct (r_ops (o_rt y) !! g) as [o|] eqn:Ho; [|done]. cbn [mbind option_bind] in Hs.
  destruct (pending o snd) as [[tag m]|] eqn:Hp; [|done]. cbn [mbind option_bind] in Hs.
  destruct (c_async _ !! _) as [[b m']|] eqn:Ha; [|done]. cbn [mbind option_bind] in Hs.
  destruct (sys_step (o_sys y) _) as [s|] eqn:Hy; [|done]. cbn [mbind option_bind] in Hs.
  destruct (c_panic (y_ctl s)); [simplify_eq; by eapply sys_moves|].
  destruct (rt_step (o_rt y) _) as [rt|] eqn:Hrt; [|done]. cbn [mbind option_bind] in Hs. simplify_eq.
  assert (m' = m) as ->.
  { destruct (Hasync _ _ _ Ha) as (g' & snd' & o' & tag' & [<- <-]%async_id_inj & ? & ?). congruence. }
  split; simpl; [eauto|..].
  - intros g' o1 Ho1. destruct (rt_step_keeps _ _ _ _ _ Hrt Ho1) as (o' & ? & ? & _). eauto.
  - unfold record_send. destruct (choice_error c); [exists []; rewrite app_nil_r; split; [done|inversion 1]|].
    eexists. split; [done|]. intros d ->%list_elem_of_singleton. simpl.
    destruct (rt_step_keeps _ _ _ _ _ Hrt Ho) as (o' & ? & _ & Hm). exists o'. split; [done|]. intros ->. by eapply Hm.
Qed.

Context {validCmd : Cmd → Prop} {validMsg : Msg → Prop}.
Context `{frameCmd : !FrameCodec validCmd encCmd decCmd, frameMsg : !FrameCodec validMsg encMsg decMsg}.
Hypothesis encCmd_valid : ∀ v f, encCmd v = Ok f → validCmd v.
Hypothesis encMsg_valid : ∀ v f, encMsg v = Ok f → validMsg v.

Local Abbreviation host_inv :=
  (host_inv (W := W) (SQ := SQ) maxPayloadSize name keepaliveInterval messageTimeout error_body marshal encCmd encMsg).

Lemma host_step_moves w y e y' : host_inv w y → host_step y e = Some y' → host_moves y y'.
Proof.
  intros Hinv Hs. unfold host_step in Hs. destruct e as [e g|g c|g out a|g|g snd|g snd c].
  - destruct (is_async e); [done|]. destruct (sys_step (o_sys y) e) as [s|] eqn:Hy; [|done].
    destruct (handles maxPayloadSize e g y) as [[rt ctx]|] eqn:Hh; [|done]. cbn [mbind option_bind] in Hs. simplify_eq.
    by eapply handles_moves.
  - destruct c, (c_panic (hctl y)); try done; by eapply on_rt_moves.
  - destruct a, (c_panic (hctl y)); try done; by eapply on_rt_moves.
  - destruct (c_panic (hctl y)), (ctx_done g y); try done. by eapply on_rt_moves.
  - destruct (c_panic (hctl y)); [done|].
    destruct (r_ops (o_rt y) !! g) as [o|]; [|done]. cbn [mbind option_bind] in Hs.
    destruct (pending o snd) as [[tag m]|]; [|done]. cbn [mbind option_bind] in Hs.
    destruct (c_fn (hctl y)); [|by eapply on_rt_moves].
    destruct (sys_step (o_sys y) _) as [s|] eqn:Hy; [|done]. cbn [mbind option_bind] in Hs. simplify_eq.
    by eapply sys_moves.
  - destruct (c_panic (hctl y)); [done|]. eapply sent_moves; [done|]. intros a b m Ha. by apply Hinv in Ha as [_ ?].
Qed.

(** Every message sent outside a stream is a reply of its operation. *)
Definition sends_ok y : Prop := ∀ d, d ∈ o_sends y →
  ∃ o, r_ops (o_rt y) !! sd_op d = Some o ∧ (sd_src d = None → sd_msg d ∈ op_replied o).

Lemma sends_ok_step y y' : host_moves y y' → sends_ok y → sends_ok y'.
Proof.
  intros [_ Hops (l & Hl & Hnew)] Hok d Hd. rewrite Hl in Hd. apply elem_of_app in Hd as [Hd|Hd]; [|by apply Hnew].
  destruct (Hok d Hd) as (o & Ho & Hm). destruct (Hops _ _ Ho) as (o' & Ho' & [_ [l' Hl']] & _).
  exists o'. split; [done|]. intros Hn. rewrite Hl'. apply elem_of_app. left. by apply Hm.
Qed.

Lemma sends_ok_reachable w y : reachable host_step (eq (host_init w)) y → sends_ok y.
Proof using encCmd_valid frameCmd encMsg_valid frameMsg.
  induction 1 as [y <-|y e y' Hr IH Hs]; [inversion 1|].
  eapply sends_ok_step; [|done]. by eapply host_step_moves; [eapply host_inv_reachable|].
Qed.

(** ** Calls *)

(** On connection [b], nothing but replies of operations that were started there carries the key of
    [cmd]. *)
Definition own_replies y (b : nat) (cmd : Cmd) : Prop := ∀ d, d ∈ o_sends y → sd_bundle d = b →
  msg_key (sd_msg d) = cmd_key cmd → sd_src d = None ∧ o_ctx y !! sd_op d = Some b.

Lemma own_replies_before y y' b cmd : host_moves y y' → sends_ok y → own_replies y' b cmd → own_replies y b cmd.
Proof.
  intros [_ Hops (l & Hl & _)] Hok Hown d Hd Hb Hkey.
  destruct (Hown d) as [? Hctx]; [rewrite Hl; apply elem_of_app; by left|done|done|]. split; [done|].
  destruct (Hok d Hd) as (o & Ho & _). destruct (Hops _ _ Ho) as (? & _ & _ & E). congruence.
Qed.

Lemma reply_key_op sid seq r m : reply sid seq r = Some m → msg_key m = (sid, seq).
Proof. unfold reply. intros Hr. repeat case_match; by simplify_eq. Qed.

(** A reply of an operation is made of what its function returned. *)
Lemma replied_returns w s g o m :
  reachable rt_step (eq (rt_init w)) s → r_ops s !! g = Some o → m ∈ op_replied o →
  ∃ r, returns o r ∧ reply (op_sid o) (op_seq o) r = Some m.
Proof.
  intros Hr Ho Hm. pose proof (rt_reply_reachable _ _ _ _ _ Hr Ho) as Hrep. unfold reply_ok in Hrep.
  assert (op_replied o ≠ []) as Hne by (intros E; rewrite E in Hm; inversion Hm).
  destruct (op_at o); try (by destruct Hrep). destruct Hrep as (r & Hret & E). exists r. split; [done|].
  rewrite E in Hm. destruct (reply _ _ r); [|inversion Hm]. by apply list_elem_of_singleton in Hm as ->.
Qed.

(** A message that operations put into a connection under the key of [cmd]: the command that
    started the operation has been handled there. *)
Lemma own_reply_from w y b k x cmd m :
  reachable host_step (eq (host_init w)) y → y_conns (o_sys y) !! b = Some k → c_bundles (hctl y) !! b = Some x →
  own_replies y b cmd → m ∈ from_handler (k_log k) → msg_key m = cmd_key cmd →
  ∃ g o cmd' r r', r_ops (o_rt y) !! g = Some o ∧ (cmd', r) ∈ b_handled x ∧
    asked (cmd_Id cmd') (cmd_Seq cmd') (cmd_Kind cmd') (cmd_Payload cmd') o ∧ cmd_key cmd' = cmd_key cmd ∧
    returns o r' ∧ reply (op_sid o) (op_seq o) r' = Some m.
Proof using encCmd_valid frameCmd encMsg_valid frameMsg.
  intros Hr Hk Hx Hown Hm Hkey. pose proof (sends_ok_reachable _ _ Hr) as Hok.
  pose proof (host_inv_reachable _ _ _ _ _ _ _ _ _ _ _ _ encCmd_valid encMsg_valid _ _ Hr) as Hinv.
  rewrite (hi_puts _ _ _ _ _ _ _ _ _ _ Hinv _ _ Hk) in Hm.
  apply list_elem_of_fmap in Hm as (d & -> & [[Hb _] Hd]%list_elem_of_filter).
  destruct (Hown d Hd Hb Hkey) as [Hsrc Hctx], (Hok d Hd) as (o & Ho & Hrep). specialize (Hrep Hsrc).
  destruct (replied_returns _ _ _ _ _ (hi_rt _ _ _ _ _ _ _ _ _ _ Hinv) Ho Hrep) as (r' & Hret & Hrp).
  destruct (hi_cmd _ _ _ _ _ _ _ _ _ _ Hinv _ _ Ho) as (b' & x' & cmd' & r & Hctx' & Hx' & Hin & Hask & _).
  assert (b' = b) as -> by congruence. simplify_eq. exists (sd_op d), o, cmd', r, r'. split_and!; try done.
  apply reply_key_op in Hrp. destruct Hask as (_ & H1 & H2 & _). unfold cmd_key at 1. congruence.
Qed.

(** A call that waits has not been answered. *)
Lemma host_waits_unheard w y b k s c cmd :
  reachable host_step (eq (host_init w)) y → y_conns (o_sys y) !! b = Some k → k_srv k = Some s →
  only_cmd s cmd → cmd_key cmd ≠ (0, 0) → own_replies y b cmd →
  waits s c cmd → s_done s = false → unheard s c cmd.
Proof using encCmd_valid frameCmd encMsg_valid frameMsg.
  intros Hr. revert k s. induction Hr as [y <-|y e y' Hr IH Hstep]; [done|].
  intros k' s' Hk' Hs' Hnd Hz Hown Hw Hd.
  pose proof (host_inv_reachable _ _ _ _ _ _ _ _ _ _ _ _ encCmd_valid encMsg_valid _ _ Hr) as Hinv.
  pose proof (host_step_moves _ _ _ _ Hinv Hstep) as Hmv.
  pose proof (own_replies_before _ _ _ _ Hmv (sends_ok_reachable _ _ Hr) Hown) as Hown0.
  pose proof (hi_sys _ _ _ _ _ _ _ _ _ _ Hinv) as Hsys.
  destruct (hm_sys _ _ Hmv) as [E|[ev Hev]]; [rewrite E in Hk'; by apply (IH k' s')|].
  eapply waits_unheard_step; [done..| |]; intros k s Hk Hs Ha.
  - intros Hw0 Hd0. apply (IH k s); try done. by eapply only_cmd_before.
  - assert (is_Some (c_bundles (hctl y) !! b)) as [x Hx].
    { apply lookup_lt_is_Some. rewrite <-(yi_len _ _ _ _ _ _ _ _ _ Hsys). by eapply lookup_lt_Some. }
    intros m Hm Hkey.
    destruct (received_from _ _ _ _ _ _ _ _ _ _ _ _ _ _ Hsys Hk Hx Hs Hm) as [->|[Hl|(cmd' & r & _ & Hrp & Hacc)]];
      [by apply Hz| |apply (only_cmd_first _ _ _ _ Hnd Ha Hacc); apply reply_key in Hrp; congruence].
    destruct (own_reply_from _ _ _ _ _ _ _ Hr Hk Hx Hown0 Hl Hkey) as (g & o & cmd' & r & r' & _ & Hin & _ & Hk1 & _).
    apply (only_cmd_first _ _ _ _ Hnd Ha) in Hk1; [done|]. by eapply handled_accepted.
Qed.

(** What the controller's loop replies to a command that starts an operation: nothing. *)
Lemma asked_no_reply (s : sys) b x cmd r o :
  reachable ctl_step (eq (NewController tt)) (y_ctl s) → c_bundles (y_ctl s) !! b = Some x → (cmd, r) ∈ b_handled x →
  asked (cmd_Id cmd) (cmd_Seq cmd) (cmd_Kind cmd) (cmd_Payload cmd) o → reply_to error_body marshal cmd r = None.
Proof.
  intros Hr Hx Hin (Hk & _ & _ & pkt & Hp & Hf & _).
  destruct (controller_serializes_handler _ _ _ _ Hr) as (tr & Hrep & Htr). specialize (Htr b).
  unfold handled_at in Htr. rewrite Hx in Htr. simpl in Htr. rewrite Htr in Hin.
  assert (r = rt_result (W := W) (SQ := SQ) (cmd_Kind cmd) (cmd_Payload cmd)) as ->.
  { clear Htr Hx. induction Hrep as [|tr k h1 h2 _ IH Hk1]; [inversion Hin|].
    unfold commands_of in *. rewrite bind_app in Hin. apply elem_of_app in Hin as [?|Hin]; [by apply IH|]. simpl in Hin.
    rewrite app_nil_r in Hin. destruct k as [|b' cmd' r']; simpl in *; [inversion Hin|].
    case_bool_decide; [|inversion Hin]. apply list_elem_of_singleton in Hin. by simplify_eq. }
  unfold rt_result, rt_HandleCmd. rewrite Hk, Z.eqb_refl, Hp, Hf.
  by destruct (CMD_RUNTIME_ARANYA_PROTO =? CMD_DATA_INPUT), (CMD_RUNTIME_ARANYA_PROTO =? CMD_DATA_CLOSE).
Qed.

(** What such a call returned. *)
Lemma returned_by_operation w y b k x s c cmd m m' :
  reachable host_step (eq (host_init w)) y → y_conns (o_sys y) !! b = Some k → c_bundles (hctl y) !! b = Some x →
  k_srv k = Some s → only_cmd s cmd → cmd_key cmd ≠ (0, 0) → own_replies y b cmd →
  m' ∈ from_handler (k_log k) → msg_key m' = cmd_key cmd →
  s_callers s !! c = Some (MkCaller cmd (CReturned (Ok (Some m)))) →
  ∃ g o r, r_ops (o_rt y) !! g = Some o ∧
    asked (cmd_Id cmd) (cmd_Seq cmd) (cmd_Kind cmd) (cmd_Payload cmd) o ∧
    returns o r ∧ reply (cmd_Id cmd) (cmd_Seq cmd) r = Some m.
Proof using encCmd_valid frameCmd encMsg_valid frameMsg.
  intros Hr Hk Hx Hs Hnd Hz Hown Hlog Hdk Hc.
  pose proof (host_inv_reachable _ _ _ _ _ _ _ _ _ _ _ _ encCmd_valid encMsg_valid _ _ Hr) as Hinv.
  pose proof (hi_sys _ _ _ _ _ _ _ _ _ _ Hinv) as Hsys.
  destruct (returned_reply _ _ _ _ _ _ _ _ _ _ _ _ _ _ _ _ Hsys Hk Hx Hs Hc) as (Hacc & Hkey & Hfrom0).
  assert (∀ m', m' ∈ from_handler (k_log k) → msg_key m' = cmd_key cmd → ∃ g o r, r_ops (o_rt y) !! g = Some o ∧
    asked (cmd_Id cmd) (cmd_Seq cmd) (cmd_Kind cmd) (cmd_Payload cmd) o ∧ returns o r ∧
    reply (op_sid o) (op_seq o) r = Some m') as Hfrom.
  { intros m1 Hm1 Hkey1.
    destruct (own_reply_from _ _ _ _ _ _ _ Hr Hk Hx Hown Hm1 Hkey1) as (g & o & cmd' & r0 & r & ? & Hin & ? & Hk' & ? & ?).
    assert (cmd' = cmd) as -> by (eapply only_cmd_same; [done|done|by eapply handled_accepted|done]).
    exists g, o, r. by split_and!. }
  destruct Hfrom0 as [(cmd' & r1 & Hin & Hm & Hacc' & Hkey')|[Hm| ->]].
  - exfalso. destruct (Hfrom _ Hlog Hdk) as (g & o & _ & _ & Hask & _).
    assert (cmd' = cmd) as -> by (by eapply only_cmd_same).
    rewrite (asked_no_reply _ _ _ _ _ _ (yi_ctl _ _ _ _ _ _ _ _ _ Hsys) Hx Hin Hask) in Hm. done.
  - destruct (Hfrom _ Hm Hkey) as (g & o & r & ? & Hask & ? & Hrp). exists g, o, r. split_and!; try done.
    destruct Hask as (_ & <- & <- & _). done.
  - by rewrite <-Hkey in Hz.
Qed.

(** C7. A call for the runtime is answered.  Consider a connection that is up and a session that has not
    been cancelled, in a state where none of the goroutines that carry commands and messages can
    move, and a call of sendCmd that asked for the response: its timeout has not come, no other call
    asked for a response with the same id and number, its command is the only one with this id and
    number that was accepted, these are not both zero, and among the messages that operations sent on
    this connection only replies of operations started there carry them.  Once a reply with this id
    and number has been put into the connection, the call has returned, not with an error but with a
    message, and this message is the reply that the operation asked for by its command made of what
    the function of that operation returned. *)
Theorem runtime_calls_answered w y b k x s c cmd pc d :
  reachable host_step (eq (host_init w)) y → connected (o_sys y) b k x s →
  idle name keepaliveInterval messageTimeout error_body marshal encCmd decCmd encMsg decMsg sc0 sm0 b (o_sys y) →
  s_done s = false → s_callers s !! c = Some (MkCaller cmd pc) → pending_call s c cmd →
  only_cmd s cmd → cmd_key cmd ≠ (0, 0) → own_replies y b cmd →
  d ∈ o_sends y → sd_bundle d = b → sd_put d = true → msg_key (sd_msg d) = cmd_key cmd →
  ∃ m g o r, pc = CReturned (Ok (Some m)) ∧ r_ops (o_rt y) !! g = Some o ∧
    asked (cmd_Id cmd) (cmd_Seq cmd) (cmd_Kind cmd) (cmd_Payload cmd) o ∧
    returns o r ∧ reply (cmd_Id cmd) (cmd_Seq cmd) r = Some m.
Proof using encCmd_valid frameCmd encMsg_valid frameMsg.
  intros Hr Hcn Hid Hsd Hc [Hsl Hsole Htime] Hnd Hz Hown Hd Hdb Hdp Hdk.
  pose proof (host_inv_reachable _ _ _ _ _ _ _ _ _ _ _ _ encCmd_valid encMsg_valid _ _ Hr) as Hinv.
  pose proof (hi_sys _ _ _ _ _ _ _ _ _ _ Hinv) as Hsys. pose proof (srv_reach _ _ _ _ _ _ _ _ _ _ _ _ _ Hsys Hcn) as Hsr.
  pose proof (cn_conn _ _ _ _ _ Hcn) as Hk. pose proof (cn_bundle _ _ _ _ _ Hcn) as Hx.
  pose proof (cn_srv _ _ _ _ _ Hcn) as Hs.
  assert (sd_msg d ∈ from_handler (k_log k)) as Hlog.
  { rewrite (hi_puts _ _ _ _ _ _ _ _ _ _ Hinv _ _ Hk). apply list_elem_of_fmap_2, list_elem_of_filter. by split_and!. }
  destruct (idle_callers _ _ _ _ _ _ _ _ _ _ _ _ _ _ _ _ _ Hsys Hcn Hid _ _ _ Hc) as [[res ->]|[-> _]].
  - destruct (returned_on_time _ _ _ _ _ _ _ Hsr Hc Hsl Htime Hsd Hsole) as (m & -> & _).
    destruct (returned_by_operation _ _ _ _ _ _ _ _ _ _ Hr Hk Hx Hs Hnd Hz Hown Hlog Hdk Hc) as (g & o & r & ?).
    exists m, g, o, r. split; done.
  - exfalso. destruct (on_time_reachable _ _ _ _ Hsr _ _ _ Hc Htime) as [Ht _]. specialize (Ht eq_refl).
    destruct (idle_waits _ _ _ _ _ _ _ _ _ _ _ encCmd_valid encMsg_valid _ _ _ _ _ _ _ _ Hsys Hcn Hid Hc Ht) as [Hw Hdn].
    pose proof (host_waits_unheard _ _ _ _ _ _ _ Hr Hk Hs Hnd Hz Hown Hw Hdn) as Hu.
    eapply (idle_unheard _ _ _ _ _ _ _ _ _ _ _ encCmd_valid encMsg_valid); [done..| |exact Hdk].
    eapply (idle_log_received _ _ _ _ _ _ _ _ _ _ _ encCmd_valid encMsg_valid); [done..|].
    eapply elem_of_sublist; [exact Hlog|]. apply fmap_sublist, sublist_filter.
Qed.
End calls.

(** ** A request on a concrete schedule *)

Module SampleRequests.
Import SampleQueue SampleSeqQueue SampleController SampleSystem SampleHost.
#[local] Existing Instance sample_pb.
#[local] Existing Instance sample_errors.
#[local] Existing Instance sample_aranya.
#[local] Existing Instance sample_engine.

(** The hub asks for the list of images. *)
Definition image_cmd : Cmd := MkCmd (@CMD_RUNTIME_ARANYA_PROTO sample_pb) 7 3 [7; 42].

Definition request_schedule : list host_event :=
  ((λ e, HSys e 0) <$> connect_schedule ++ call_schedule 0 image_cmd ++
    [YSrv 0 EWriteCmd 0; YSrv 0 (EEncode None) 0; YCliDecode 0; YCli 0 LForward 0; YCtl go]) ++
  [HRun 0 CGo; HSend 0 Main; HSent 0 Main ViaSend] ++ carry ++ call_returns.

Definition requested : hstate := host_after request_schedule.

Definition image_reply : Msg :=
  match op_replied (host_op 0 requested) with m :: _ => m | [] => MkMsg 0 0 0 [] end.

Lemma requested_reachable : reachable hstep (eq hinit) requested.
Proof. apply (run_reachable _ _ request_schedule). vm_compute. reflexivity. Qed.

Lemma requested_connected :
  connected (o_sys requested) 0 (the_conn (o_sys requested)) (the_bundle (o_sys requested)) (the_session (o_sys requested)).
Proof. split; try (by vm_compute); by left; vm_compute. Qed.

Lemma requested_idle : idle (handler := rt_interface (W := unit) (SQ := squeue)) "foo" 1000 1000 (λ _, [0]) echo_marshal
  (frame_within memory) decCmd (frame_within memory) decMsg no_pool no_pool 0 (o_sys requested).
Proof. solve_idle (o_sys requested). Qed.

Lemma requested_returns : s_callers (the_session (o_sys requested)) !! 0%nat =
  Some (MkCaller image_cmd (CReturned (Ok (Some image_reply)))).
Proof. by vm_compute. Qed.

Lemma runtime_calls_answered_witness :
  ∃ g o r, r_ops (o_rt requested) !! g = Some o ∧ returns o r ∧ reply 7 3 r = Some image_reply.
Proof.
  destruct (runtime_calls_answered (W := unit) (SQ := squeue) 4096 "foo" 1000 1000 (λ _, [0]) echo_marshal
    (frame_within memory) decCmd (frame_within memory) decMsg no_pool no_pool cmd_valid msg_valid tt requested 0
    (the_conn (o_sys requested)) (the_bundle (o_sys requested)) (the_session (o_sys requested)) 0 image_cmd
    (CReturned (Ok (Some image_reply))) (MkSend 0 None 0 image_reply true)) as (m & g & o & r & E & H1 & _ & H2 & H3).
  - exact requested_reachable.
  - exact requested_connected.
  - exact requested_idle.
  - vm_compute. reflexivity.
  - exact requested_returns.
  - split.
    + vm_compute. eexists. reflexivity.
    + apply no_rival. vm_compute. reflexivity.
    + intros Hin. vm_compute in Hin. inversion Hin.
  - intros l1 l2 cmd' Hl Hin.
    assert (s_accepted (the_session (o_sys requested)) = [image_cmd]) as Ha by (vm_compute; reflexivity).
    rewrite Ha in Hl. destruct l1 as [|? [|]]; [|discriminate Hl..]. injection Hl as <-. inversion Hin.
  - vm_compute. congruence.
  - unfold own_replies. refine (proj1 (list.Forall_forall (λ d, sd_bundle d = 0%nat → msg_key (sd_msg d) = cmd_key image_cmd →
      sd_src d = None ∧ o_ctx requested !! sd_op d = Some 0%nat) (o_sends requested)) _).
    vm_compute. repeat (constructor; [intros; split; reflexivity|]). constructor.
  - vm_compute. left.
  - reflexivity.
  - reflexivity.
  - vm_compute. reflexivity.
  - exists g, o, r. revert E. generalize image_reply. intros i E. injection E as ->.
    split; [exact H1|]. split; [exact H2|exact H3].
Defined.
End SampleRequests.
