(* ===== verification/PeripheralHost.v ===== *)
(** * The peripheral handler at work

    The whole system of [EndToEnd] with the peripheral handler ([Peripheral]) behind the
    controller.  The handler answers every command in HandleCmd and starts no goroutine, so that
    the system never takes a step of a handler's own send; connections to peripherals outlive the
    connections to the hub, over which their commands come. *)
From S2P Require Import Prelude GoChan Varint Codec Gogoproto Proto MsgWait Extension Handler Peripheral Controller History Client EndToEnd Calls.

Set Default Proof Using "Type".

Section host.
Context `{pb : !ArhatPb, wke : !WellKnownErrors} {TLSConfig Metric : Type}.
Context (impl : connector (TLSConfig := TLSConfig) (Metric := Metric)).
Context {Q : Type} `{tq : !TimeoutQueue Q}.
Context (name : string) (keepaliveInterval messageTimeout : Z).

(** ** The handler as the controller sees it *)

(** What the controller marshals: the bodies of the handler, and the error message it makes. *)
Inductive reply_body : Type := Body (b : body (Metric := Metric)) | ErrorMsg (description : string).

Definition with_body (r : cmd_result (body (Metric := Metric))) : cmd_result reply_body :=
  MkCmdResult (res_kind r) (Body <$> res_ret r) (res_err r).

(** The handler and the send function it was given last. *)
Local Abbreviation phandler := (option nat * handler (TLSConfig := TLSConfig) (Metric := Metric))%type.

#[local] Instance peripheral_interface : Handler phandler reply_body nat := {|
  SetMsgSendFunc b h := (Some b, h.2);
  HandleCmd id seq kind payload h :=
    '(h', r) ← peripheral_HandleCmd impl id seq kind payload h.2; Return ((h.1, h'), with_body r);
|}.

Context (marshal : reply_body → result bytes).
Context {SC SM : Type}.
Context (encCmd : Cmd → result bytes) (decCmd : SC → reader → outcome (SC * reader * result Cmd)).
Context (encMsg : Msg → result bytes) (decMsg : SM → reader → outcome (SM * reader * result Msg)).
Context (sc0 : SC) (sm0 : SM).
Context {validCmd : Cmd → Prop} {validMsg : Msg → Prop}.
Context {frameCmd : FrameCodec validCmd encCmd decCmd} {frameMsg : FrameCodec validMsg encMsg decMsg}.
Hypothesis encCmd_valid : ∀ v f, encCmd v = Ok f → validCmd v.
Hypothesis encMsg_valid : ∀ v f, encMsg v = Ok f → validMsg v.

Local Abbreviation sys := (system (Q := Q) (H := phandler) (B := reply_body) (SC := SC) (SM := SM)).
Local Abbreviation sys_step :=
  (sys_step name keepaliveInterval messageTimeout ErrorMsg marshal encCmd decCmd encMsg decMsg sc0 sm0).
Local Abbreviation sys_inv := (sys_inv name keepaliveInterval messageTimeout ErrorMsg marshal encCmd encMsg).
Implicit Types y : sys.

Definition peripheral_init : sys := sys_init (None, NewHandler).

Definition peripheral_step y (e : sys_event) : option sys :=
  if is_async e then None else sys_step y e.

Definition the_handler y : handler (TLSConfig := TLSConfig) (Metric := Metric) := (c_handler (y_ctl y)).2.

Lemma peripheral_step_sys y e y' : peripheral_step y e = Some y' → is_async e = false ∧ sys_step y e = Some y'.
Proof. unfold peripheral_step. by destruct (is_async e). Qed.

Lemma peripheral_reachable y :
  reachable peripheral_step (eq peripheral_init) y → reachable sys_step (eq peripheral_init) y.
Proof.
  induction 1 as [y <-|y e y' _ IH [_ Hs]%peripheral_step_sys]; [by constructor|by eapply reach_step].
Qed.

(** The handler sends nothing by itself. *)
Lemma peripheral_silent y b k :
  reachable peripheral_step (eq peripheral_init) y → y_conns y !! b = Some k → from_handler (k_log k) = [].
Proof.
  intros Hr. revert k. induction Hr as [y <-|y e y' _ IH [Ha Hs]%peripheral_step_sys]; [done|].
  intros k Hk. rewrite (sys_step_log _ _ _ _ _ _ _ _ _ _ _ _ _ _ _ _ Hs Hk), from_handler_app, quiet_log, app_nil_r by done.
  destruct (y_conns y !! b) as [k0|] eqn:Hk0; [by apply IH|done].
Qed.

(** ** What the handler has done *)

(** A command the handler was given: over which connection, and its result. *)
Record service : Type := MkService {
  sv_conn : nat;
  sv_cmd : Cmd;
  sv_result : cmd_result (body (Metric := Metric));
}.

Definition served_on (b : nat) (tr : list service) : list (Cmd * cmd_result reply_body) :=
  (λ v, (sv_cmd v, with_body (sv_result v))) <$> filter (λ v, sv_conn v = b) tr.

Lemma handle_all_snoc cmds c h0 h rs h' r :
  handle_all impl cmds h0 = Return (h, rs) →
  peripheral_HandleCmd impl (cmd_Id c) (cmd_Seq c) (cmd_Kind c) (cmd_Payload c) h = Return (h', r) →
  handle_all impl (cmds ++ [c]) h0 = Return (h', rs ++ [r]).
Proof.
  revert h0 rs. induction cmds as [|c0 cmds IH]; intros h0 rs H1 H2; simpl in *.
  { simplify_eq. by rewrite H2. }
  destruct (peripheral_HandleCmd _ _ _ _ _ h0) as [[h1 r1]| |]; try done. simpl in *.
  destruct (handle_all impl cmds h1) as [[h2 rs2]| |] eqn:E; simplify_eq/=. by rewrite (IH _ _ E H2).
Qed.

(** A history of calls as a sequence of commands. *)
Lemma replay_services f tr h :
  replay (f, NewHandler) tr h →
  ∃ vs, handle_all impl (sv_cmd <$> vs) NewHandler = Return (h.2, sv_result <$> vs) ∧
    ∀ b, commands_of b tr = served_on b vs.
Proof.
  induction 1 as [|tr k h1 h2 _ (vs & Hvs & Hb) Hk]; [by exists []|].
  destruct k as [b|b cmd r]; simpl in Hk.
  - subst. exists vs. split; [done|]. intros b'. unfold commands_of. rewrite bind_app. simpl. rewrite app_nil_r. apply Hb.
  - destruct (peripheral_HandleCmd _ _ _ _ _ h1.2) as [[h' r']| |] eqn:Hc; simplify_eq/=.
    exists (vs ++ [MkService b cmd r']). rewrite !fmap_app. split; [by eapply handle_all_snoc|].
    intros b'. unfold commands_of, served_on. rewrite bind_app, list.filter_app, fmap_app. f_equal; [apply Hb|]. simpl.
    rewrite app_nil_r. destruct (decide (b = b')) as [->|]; [by rewrite bool_decide_true, filter_cons_True|].
    by rewrite bool_decide_false, filter_cons_False.
Qed.

(** The handler's history in the system. *)
Lemma peripheral_history h0 y :
  sys_inv (h0, NewHandler) y →
  ∃ vs, handle_all impl (sv_cmd <$> vs) NewHandler = Return (the_handler y, sv_result <$> vs) ∧
    ∀ b x, c_bundles (y_ctl y) !! b = Some x → b_handled x = served_on b vs.
Proof.
  intros [Hc _ _]. destruct (controller_serializes_handler _ _ _ _ Hc) as (tr & Hrep & Htr).
  destruct (replay_services _ _ _ Hrep) as (vs & Hvs & Hb). exists vs. split; [done|].
  intros b x Hx. rewrite <-Hb, <-Htr. unfold handled_at. by rewrite Hx.
Qed.

(** C11. Peripherals behind a hub.  In every state of the whole system, however the extension
    reconnects, whatever fails and however the connector answers: the handler is in the state that
    one sequence of commands leads to; those that came over a connection are the ones the hub
    accepted there, in order and without gaps; no command has brought the extension down by a
    panic; and in the calls made to the user's code no peripheral is operated, read or closed
    unless it is connected, none is closed twice, and those still connected are the ones of the
    handler's map, each under one id. *)
Theorem peripherals_end_to_end y :
  reachable peripheral_step (eq peripheral_init) y →
  ∃ vs live,
    handle_all impl (sv_cmd <$> vs) NewHandler = Return (the_handler y, sv_result <$> vs) ∧
    (∀ b k x s, y_conns y !! b = Some k → c_bundles (y_ctl y) !! b = Some x → k_srv k = Some s →
      sv_cmd <$> filter (λ v, sv_conn v = b) vs `prefix_of` commands (s_accepted s)) ∧
    c_panic (y_ctl y) ≠ Some HandlerPanic ∧
    audit ∅ (calls (the_handler y)) = Some live ∧
    (∀ p, p ∈ live ↔ ∃ id, peripherals (the_handler y) !! id = Some (Some p)) ∧
    (∀ id id' p, peripherals (the_handler y) !! id = Some (Some p) →
      peripherals (the_handler y) !! id' = Some (Some p) → id = id').
Proof using encCmd_valid frameCmd encMsg_valid frameMsg.
  intros Hr%peripheral_reachable.
  pose proof (sys_inv_reachable _ _ _ _ _ _ _ _ _ _ _ encCmd_valid encMsg_valid _ _ Hr) as Hinv.
  destruct (peripheral_history _ _ Hinv) as (vs & Hvs & Hb).
  destruct (handle_all_managed impl (sv_cmd <$> vs) _ _ managed_new) as (h & rs & live & Hh & _ & Hm).
  rewrite Hvs in Hh. simplify_eq. exists vs, live. pose proof Hm as [M1 M2 M3 _]. split_and!; try done.
  - intros b k x s Hk Hx Hs. pose proof (handled_prefix _ _ _ _ _ _ _ _ _ _ _ _ _ Hinv Hk Hx Hs) as Hp.
    rewrite (Hb _ _ Hx) in Hp. unfold served_on in Hp. by rewrite <-list_fmap_compose in Hp.
  - intros Hp. destruct (handler_panics _ _ _ _ (yi_ctl _ _ _ _ _ _ _ _ _ Hinv) Hp) as [cmd Hno].
    destruct (HandleCmd_managed impl (cmd_Id cmd) (cmd_Seq cmd) (cmd_Kind cmd) (cmd_Payload cmd) _ _ Hm) as (h & r & _ & Hc & _).
    apply (Hno ((c_handler (y_ctl y)).1, h, with_body r)). simpl. unfold the_handler in Hc. by rewrite Hc.
Qed.

(** A command that was handled: by HandleCmd, after the commands before it. *)
Lemma handled_service y b x cmd r0 :
  sys_inv (None, NewHandler) y → c_bundles (y_ctl y) !! b = Some x → (cmd, r0) ∈ b_handled x →
  ∃ r before rs h1 h2, r0 = with_body r ∧ handle_all impl before NewHandler = Return (h1, rs) ∧
    peripheral_HandleCmd impl (cmd_Id cmd) (cmd_Seq cmd) (cmd_Kind cmd) (cmd_Payload cmd) h1 = Return (h2, r) ∧
    calls h2 `prefix_of` calls (the_handler y).
Proof.
  intros Hinv Hx Hin. destruct (peripheral_history _ _ Hinv) as (vs & Hvs & Hb). rewrite (Hb _ _ Hx) in Hin.
  apply list_elem_of_fmap in Hin as (v & E & [_ [i Hi]%list_elem_of_lookup]%list_elem_of_filter). simplify_eq.
  destruct (handle_all_result impl _ _ _ _ i (sv_cmd v) (sv_result v) Hvs) as (h1 & h2 & ? & ? & ?);
    [by rewrite list_lookup_fmap, Hi..|]. eauto 10.
Qed.

(** With a marshaller that does not fail, every command gets a reply. *)
Lemma service_reply cmd r h1 h2 :
  (∀ body, ∃ bs, marshal body = Ok bs) →
  peripheral_HandleCmd impl (cmd_Id cmd) (cmd_Seq cmd) (cmd_Kind cmd) (cmd_Payload cmd) h1 = Return (h2, r) →
  ∃ m, reply_to ErrorMsg marshal cmd (with_body r) = Some (Ok m).
Proof.
  intros Hm Hc. unfold reply_to, NewMsg. simpl.
  destruct (HandleCmd_answers _ _ _ _ _ _ _ _ Hc) as [[e ->]|[bd Hbd]];
    [|rewrite Hbd; destruct (res_err r)]; simpl;
    match goal with |- context [marshal ?a] => destruct (Hm a) as [bs ->] end; by eexists.
Qed.

(** C10. A peripheral's user is answered.  Consider a connection that is up and open and a session that
    has not been cancelled, in a state where none of the goroutines that carry commands and messages
    can move, with a marshaller that does not fail, and a call of sendCmd that asked for the
    response: its command is not a keepalive, its timeout has not come, no other call asked for a
    response with the same id and number, its command is the only one with this id and number that
    was accepted, and these are not both zero.  Then the call has returned, not with an error but
    with a message, and this is the reply to its command, what HandleCmd made of it; and if this is
    the result of an operation, then the peripheral connected at that time under the command's id
    was operated with what the command's payload decodes to and gave this result. *)
Theorem peripheral_calls_answered y b k x s c cmd pc :
  reachable peripheral_step (eq peripheral_init) y → connected y b k x s →
  idle name keepaliveInterval messageTimeout ErrorMsg marshal encCmd decCmd encMsg decMsg sc0 sm0 b y →
  cclosed (b_closed x) = false → c_done (y_ctl y) = false → (∀ body, ∃ bs, marshal body = Ok bs) →
  s_done s = false → s_callers s !! c = Some (MkCaller cmd pc) → is_ping cmd = false → pending_call s c cmd →
  only_cmd s cmd → cmd_key cmd ≠ (0, 0) →
  ∃ m r, pc = CReturned (Ok (Some m)) ∧
    (cmd, with_body r) ∈ b_handled x ∧ reply_to ErrorMsg marshal cmd (with_body r) = Some (Ok m) ∧
    ∀ ret, res_ret r = Some (PeripheralOperationResultMsg ret) →
      ∃ before rs h p spec, handle_all impl before NewHandler = Return (h, rs) ∧
        peripherals h !! cmd_Id cmd = Some (Some p) ∧ unmarshal_operate impl (cmd_Payload cmd) = Ok spec ∧
        calls h ++ [POperate p spec (Ok ret)] `prefix_of` calls (the_handler y).
Proof using encCmd_valid frameCmd encMsg_valid frameMsg.
  intros Hr Hcn Hid Hop Hdn Hmar Hsd Hc Hping [Hsl Hsole Htime] Hnd Hz. pose proof (peripheral_reachable _ Hr) as Hr'.
  pose proof (sys_inv_reachable _ _ _ _ _ _ _ _ _ _ _ encCmd_valid encMsg_valid _ _ Hr') as Hinv.
  pose proof (srv_reach _ _ _ _ _ _ _ _ _ _ _ _ _ Hinv Hcn) as Hsr.
  pose proof (cn_conn _ _ _ _ _ Hcn) as Hk. pose proof (cn_bundle _ _ _ _ _ Hcn) as Hx.
  pose proof (cn_srv _ _ _ _ _ Hcn) as Hs. pose proof (peripheral_silent _ _ _ Hr Hk) as Hfh.
  destruct (idle_callers _ _ _ _ _ _ _ _ _ _ _ _ _ _ _ _ _ Hinv Hcn Hid _ _ _ Hc) as [[res ->]|[-> _]].
  - destruct (returned_on_time _ _ _ _ _ _ _ Hsr Hc Hsl Htime Hsd Hsole) as (m & -> & _). exists m.
    destruct (returned_reply _ _ _ _ _ _ _ _ _ _ _ _ _ _ _ _ Hinv Hk Hx Hs Hc) as (Hacc & Hkey & Hfrom).
    destruct Hfrom as [(cmd' & r0 & Hin & Hm & Hacc' & Hkey')|[Hm| ->]];
      [|by rewrite Hfh in Hm; inversion Hm|by rewrite <-Hkey in Hz].
    assert (cmd' = cmd) as -> by (by eapply only_cmd_same).
    destruct (handled_service _ _ _ _ _ Hinv Hx Hin) as (r & before & rs & h1 & h2 & -> & Hb & Hh & Hp).
    exists r. split_and!; [done..|]. intros ret Hret.
    destruct (HandleCmd_operated _ _ _ _ _ _ _ _ _ Hh Hret) as (p & spec & Hid' & Hun & Hcalls).
    rewrite Hcalls in Hp. eauto 10.
  - exfalso. destruct (on_time_reachable _ _ _ _ Hsr _ _ _ Hc Htime) as [Ht _]. specialize (Ht eq_refl).
    assert (own_key k s cmd) as Hown.
    { split; [|rewrite Hfh; inversion 1|done]. intros l1 l2 cmd' Hl Hin. apply (Hnd _ _ _ Hl), elem_of_app. by left. }
    destruct (idle_call _ _ _ _ _ _ _ _ _ _ _ encCmd_valid encMsg_valid _ _ _ _ _ _ _ _ _ Hr' Hcn Hid Hop Hdn Hc Hping Hown Ht)
      as [[? ?]|(_ & r0 & Hin & Hno)]; [done|].
    destruct (handled_service _ _ _ _ _ Hinv Hx Hin) as (r & _ & _ & h1 & h2 & -> & _ & Hh & _).
    destruct (service_reply _ _ _ _ Hmar Hh) as [m Hm]. by apply (Hno m).
Qed.
End host.

(** ** A peripheral on a concrete schedule *)

Module SamplePeripheralHost.
Import SampleQueue SampleController SampleSystem SamplePeripheral.
#[local] Existing Instance sample_pb.
#[local] Existing Instance sample_errors.

Definition marshal_body (b : reply_body (Metric := Z)) : result bytes :=
  Ok (match b with
      | Body DoneMsg => [0]
      | Body (PeripheralOperationResultMsg rs) => 1 :: concat rs
      | Body (PeripheralMetricsMsg _) => [2]
      | ErrorMsg _ => [3]
      end).

Abbreviation pstep := (peripheral_step (Q := list tq_key) echo "foo" 1000 1000 marshal_body (frame_within memory)
  decCmd (frame_within memory) decMsg no_pool no_pool).
Abbreviation pinit := (peripheral_init (TLSConfig := unit) (Metric := Z) (Q := list tq_key) (SC := pool_state) (SM := pool_state)).

(** A peripheral is connected, and operated. *)
Definition connect_cmd : Cmd := MkCmd kind_connect 7 1 [1].
Definition operate_cmd : Cmd := MkCmd kind_operate 7 2 [42; 43].
Definition operate_schedule : list sys_event :=
  connect_schedule ++ round_trip 0 connect_cmd ++ round_trip 1 operate_cmd.

Definition operated := match run pstep pinit operate_schedule with Some y => y | None => pinit end.
Definition operate_reply : Msg := MkMsg MSG_PERIPHERAL_OPERATION_RESULT 7 2 [1; 42; 43].

Lemma operated_reachable : reachable pstep (eq pinit) operated.
Proof. apply (run_reachable _ _ operate_schedule). vm_compute. reflexivity. Qed.

Lemma operated_connected : EndToEnd.connected operated 0 (the_conn operated) (the_bundle operated) (the_session operated).
Proof. split; try (by vm_compute); by left; vm_compute. Qed.

Lemma operated_idle : idle (handler := peripheral_interface echo) "foo" 1000 1000 ErrorMsg marshal_body
  (frame_within memory) decCmd (frame_within memory) decMsg no_pool no_pool 0 operated.
Proof. solve_idle operated. Qed.

Example operated_returns :
  s_callers (the_session operated) !! 1%nat = Some (MkCaller operate_cmd (CReturned (Ok (Some operate_reply)))).
Proof. by vm_compute. Qed.

(** The connection is still open, as the audit of the calls shows. *)
Lemma peripherals_end_to_end_witness :
  ∃ live, audit ∅ (calls (the_handler operated)) = Some live ∧ (0%nat ∈ live ↔
    ∃ id, peripherals (the_handler operated) !! id = Some (Some 0%nat)).
Proof.
  destruct (peripherals_end_to_end echo "foo" 1000 1000 marshal_body (frame_within memory) decCmd (frame_within memory)
    decMsg no_pool no_pool cmd_valid msg_valid operated operated_reachable) as (vs & live & _ & _ & _ & H1 & H2 & _).
  exists live. split; [exact H1|exact (H2 0%nat)].
Defined.

Lemma peripheral_calls_answered_witness :
  ∃ r, (operate_cmd, with_body r) ∈ b_handled (the_bundle operated) ∧
    reply_to ErrorMsg marshal_body operate_cmd (with_body r) = Some (Ok operate_reply).
Proof.
  destruct (peripheral_calls_answered echo "foo" 1000 1000 marshal_body (frame_within memory) decCmd (frame_within memory)
    decMsg no_pool no_pool cmd_valid msg_valid operated 0 (the_conn operated) (the_bundle operated) (the_session operated)
    1 operate_cmd (CReturned (Ok (Some operate_reply)))) as (m & r & E & H1 & H2 & _).
  - exact operated_reachable.
  - exact operated_connected.
  - exact operated_idle.
  - vm_compute. reflexivity.
  - vm_compute. reflexivity.
  - intros body. eexists. reflexivity.
  - vm_compute. reflexivity.
  - exact operated_returns.
  - vm_compute. reflexivity.
  - split.
    + vm_compute. eexists. reflexivity.
    + apply no_rival. vm_compute. reflexivity.
    + intros Hin. vm_compute in Hin. inversion Hin.
  - intros l1 l2 cmd' Hl Hin.
    assert (s_accepted (the_session operated) = [connect_cmd; operate_cmd]) as Ha by (vm_compute; reflexivity).
    rewrite Ha in Hl. destruct l1 as [|c1 [|c2 [|]]]; [discriminate Hl| |discriminate Hl..].
    injection Hl as <- <-. apply list_elem_of_singleton in Hin as ->. vm_compute. congruence.
  - vm_compute. congruence.
  - exists r. split; [exact H1|]. rewrite H2. revert E. generalize operate_reply. intros i E. injection E as ->. reflexivity.
Defined.
End SamplePeripheralHost.
